(* ===== verification/_CoqProject ===== *)
-Q . S2P
Prelude.v
RustStd.v
Types.v
Exportbin.v
Calendar.v
Inet.v
ArrowData.v
Decode.v
DecodeProofs.v
Encode.v
StringCodec.v
Codec.v
Chunked.v
Inline.v
InlineProofs.v
Errors.v
SqlScan.v
SqlScanProofs.v
Template.v
TemplateProofs.v
Literals.v
ErrorsProofs.v
PreparedCache.v
PreparedCacheProofs.v
EncodeProofs.v
Compression.v
CompressionProofs.v
Ingest.v
IngestProofs.v
SchedulerProofs.v
StreamProofs.v
ReadPath.v
ReadPathProofs.v
Transactions.v
TransactionsProofs.v
AtomicProofs.v
Prepare.v
PrepareProofs.v
ParameterBatch.v
ParameterBatchProofs.v
Statement.v
StatementProofs.v
Options.v
OptionsProofs.v
Connection.v
ConnectionProofs.v
Metadata.v
MetadataProofs.v
Append.v
AppendProofs.v
IngestMemory.v
IngestMemoryProofs.v
IngestRun.v
IngestRunProofs.v
IngestAtomicProofs.v
IngestCommit.v
IngestToy.v
ParameterReader.v
ParameterReaderProofs.v
Handles.v
Endian.v
Channel.v
Prefetch.v
PrefetchProofs.v
IngestThreads.v
IngestThreadsProofs.v
