(* ===== verification/Prelude.v ===== *)
(** * An ADBC driver for MonetDB, verified

    The program ([crates/]) has two crates.  [monetdb-arrow] translates
    between Arrow arrays and MonetDB's binary protocols: it parses the frames
    the server exports ([exportbin.rs]), decodes their columns and the inline
    text rows of small results ([decode.rs]), encodes Arrow columns for COPY
    BINARY ([encode.rs]), and knows the widths of wire types ([wire.rs]).
    [adbc-monetdb] is the driver: it scans and binds SQL
    ([driver/parameters.rs]), and manages connections, statements, prepared
    statements, transactions, reads and bulk ingestion ([driver.rs]).

    ** The files

    - [Prelude]: the type [res] of fallible computations ([Ok], [Err], and
      [Panic] for a Rust panic, an out-of-range index or exhausted fuel), its
      monad, tactics, hint databases and lemmas on lists.
    - [RustStd]: checked, saturating and wrapping integers, slices, UTF-8,
      parsing and formatting of integers.
    - [Types]: MonetDB and Arrow types, and the maps between them
      ([field_for_monet_type], [monet_type_for_field], ...).
    - [Exportbin]: [parse_frame] and its theorems: the columns are the slices
      the words of the table of contents name, in bounds and apart; the round
      trip with the server's layout, server errors.
    - [Calendar], [Inet]: dates and addresses.
    - [ArrowData]: arrays and record batches as the driver builds them, with the
      builders of texts and bytes, which panic beyond 2^31 - 1 bytes.
    - [Decode], [DecodeProofs]: the decoder of columns and frames, copying and
      sharing; it is total, typed, bounded, and both decoders agree.  Columns of
      addresses, which have no limit of their own in the source, are decoded
      without a panic up to 55,063,683 rows ([decode_inet_overflows] shows that
      there is one).
    - [Encode], [EncodeProofs], [StringCodec], [Codec], [Chunked]: the
      encoder, its absence of panics, back-references, the round trip of
      columns of every type, and encoding in chunks.
    - [Inline], [InlineProofs]: text rows rewritten as wire values.
    - [Errors], [ErrorsProofs]: ADBC errors, SQLSTATEs, diagnostics.
    - [SqlScan], [SqlScanProofs]: the lexer of queries, statement boundaries
      and parameter slots.
    - [Template], [TemplateProofs], [Literals]: query templates, binding of
      rows, and what the literals mean.
    - [PreparedCache], [PreparedCacheProofs]: the cache of prepared
      statements, a refinement of an abstract LRU cache; when a query is
      prepared, and which failures of PREPARE are remembered ([passing],
      [of_statement]).
    - [Compression], [CompressionProofs], [Ingest], [IngestProofs],
      [SchedulerProofs], [StreamProofs]: the write path.  A stream of batches
      is cut into windows ([IngestWindowScheduler]), encoded and compressed
      ([EncodedIngestWindow]) and uploaded ([upload_file]); the theorem
      composes the codec, the chunked encoder, compression and the scheduler.
    - [ReadPath], [ReadPathProofs]: the read path.  Budgets, the sizes of
      requests ([ReadWindowScheduler]), the direct and the prefetching reader
      and the slices of inline results; reading terminates, covers the
      result, stays within its budget, and both readers agree.
    - [Transactions], [TransactionsProofs], [AtomicProofs]: what a connection
      knows about its transaction ([DriverConnection]), the operations that
      run SQL, and atomic scopes ([begin_atomic], [finish_atomic]).  What a
      script does to the transaction is specified by its words ([first_word],
      [commits], [rolls_transaction_back]).  A
      session is the connection's record and the server's state; operations
      are functions of it in a small state and error monad ([tx]).
    - [Prepare], [PrepareProofs]: the conversation of PREPARE, its savepoint,
      the split of its metadata and the declared types of result columns.
    - [ParameterBatch], [ParameterBatchProofs]: the queries of bound rows, the
      prepared statements they refer to (shared cells and slots are a store),
      and the atomic execution of a batch: every row is sent once and in
      order, and a batch that fails leaves nothing behind.
    - [Statement], [StatementProofs]: statements, from a query and bound
      parameters to an execution, through preparation, deferral and literals.
    - [Options], [OptionsProofs]: the values of options, their checks and
      texts, the tuning fields connections and statements share, and quoted
      names.  Every accepted setting keeps the windows usable.
    - [Connection], [ConnectionProofs]: databases, the opening of a
      connection, and the options of databases, connections and statements
      set and read back: the last setting wins, over the documented names,
      meanings and defaults ([documented_settings], [means]); what reads back
      can be set; and credentials do not read back, but for two keys.
    - [Metadata], [MetadataProofs]: LIKE filters, which decide the language of
      their pattern ([in_language], [well_escaped]), the queries over the
      catalog, the tree of objects built from their rows, which is the catalog
      these describe ([described_catalog]), its form as nested lists, and the
      information about the driver.
    - [Append], [AppendProofs]: the target of a bulk ingest, created or
      found, and how the columns of a stream are matched to those of a table.
    - [IngestMemory], [IngestMemoryProofs]: what windows hold, the statistics
      of an ingest, the limits of the system, and the memory that concurrent
      ingests reserve: a machine of atomic steps ([reserve_step]) whose
      threads interleave freely ([memory_step]).
    - [IngestRun], [IngestRunProofs], [IngestAtomicProofs], [IngestCommit],
      [IngestToy]: the whole of [MonetdbStatement::ingest].  A stream is routed to a prepared
      INSERT or to COPY, windows are prepared by a thread and uploaded as the
      server asks for files, a constrained append goes through a staging
      table, and all of it runs in an atomic scope.  A successful ingest has
      delivered its stream, a failed one leaves nothing behind (unless its
      error says so, or its COMMIT went through and the answer got lost), the loop over
      the windows ends, and with the statement around it and the COMMIT after
      it, nothing of a failed ingest is committed.
    - [ParameterReader], [ParameterReaderProofs]: readers as a class
      ([RecordBatchReader]), the reader over the results of several parameter
      rows, which is the specification that runs the rows one after the other,
      and the statistics of reads.
    - [Handles]: the deallocation of prepared statements when their last holder
      goes, in any thread and also while the connection is in use, against a
      record of what the server still has prepared.
    - [Endian]: the branches for big-endian targets, which give what the
      little-endian ones of [Decode] and [Encode] give.
    - [Channel]: a worker thread and its bounded channel as a machine of turns
      ([worker_turn], [receive], [hang_up]); a worker that promises what it
      will send ([WorkerLaws]) is a list to its receiver, stays a bounded
      number of messages ahead, and neither side waits forever.
    - [Prefetch], [PrefetchProofs]: the prefetching reader on that machine,
      with the recycling of its buffers and the statistics both threads see.
      Every interleaving returns what the reader of [ReadPath] returns, and
      with the theorem there, a result from its first row to its last.
    - [IngestThreads], [IngestThreadsProofs]: the thread that prepares windows
      and the encoder of retained data with its messages; every interleaving
      gives the ingest what [IngestRun] and [Ingest] compute without threads.

    ** Effects and bounds

    Mutable state is passed explicitly; an operation of a [struct] is a
    function that returns the new record.  Integers are [Z] with the width's
    checks written where the source has them; [usize] and [u64] are 64 bits.
    Bytes are [list Z], floats are their bits, strings are their UTF-8 bytes.
    A loop bounded only by data runs on fuel, and running out of fuel is
    [Panic], so the theorems that exclude panics also show that the fuel is
    enough: the scanner uses one step per byte, the scheduler's loops one
    step per pending row, unread batch or queued batch, the binary search one
    step per row, the eviction loop one step per entry, the LIKE matcher one
    step per pair of a token and a character, the copy loop of an ingest one
    step per row that is left and one for the end, the reader over parameter
    rows one step per row.  Threads are sequences of turns, and a turn of a
    blocked thread changes nothing; the theorems hold for every sequence, and
    two turns of a worker are enough for any call that waits for it.

    ** Parameters

    Code outside the repository is a class, its documented behaviour a class
    of laws with an executable instance: Arrow's checks ([Arrow]), streams
    and concatenation ([ArrowStream]), the calendar library ([Chrono]),
    half-precision floats ([Half]), Unicode classes ([Unicode]), formatting
    of floats and type names ([SqlFormat]), the cursor's text rows
    ([InlineLibs]), LZ4 ([Lz4]), texts of cursor errors ([CursorDisplay]);
    what a result's cursor answers ([ResultCursor]), and the server as a
    state with its answers ([Server], what it promises about transactions in
    [TransactionLaws], [PrepareLaws] and [WriteLaws], with a small server
    [toy] that keeps the promises: savepoints are promised only in a
    transaction that has not written ([unwritten]), since MonetDB's are not
    reliable after that, and a COMMIT that fails has committed everything or
    nothing ([commit_lost])); the rows of a reply ([Rows]) and the type
    codes of the protocol ([MapiCodes]); URLs ([Urls], [UrlLaws]), the
    client library's parameters, connection and limits ([Client],
    [ClientLimits]), the names and numbers of the ADBC standard
    ([OptionNames], [InfoCodes]) and the instants a clock shows ([Clock]);
    the server's side of a COPY, a tree of questions for files ([CopyServer],
    with [CopyLaws] and [IngestLaws]), the instants, delays and memory an
    ingest meets ([IngestEnv]), the sizes of upload messages ([UploadLimits])
    and the Unicode tables of the [Debug] format ([CharTables]); and the
    capacity that the client library leaves a response buffer with and the
    address of a buffer that was shrunk ([ResponseBuffers]).
    The cache of prepared statements takes the server's answer to PREPARE as
    an argument.

    ** Not modelled

    Failures to allocate or map memory (an allocation succeeds, and no buffer
    meets the limit of a vector's capacity), the interior of the standard
    library's channels, locks and thread pool (a channel is a queue with a
    bound, columns decoded in parallel are a list), the text of [Display]
    implementations outside the repository, what cancelling does in the client
    library, and the warning of a rounded batch size; the Python module, the
    build script and the example have no logic of their own. *)

From stdpp Require Import base list list_numbers numbers strings gmap.
From Stdlib Require Import ZArith Lia.


Declare Scope rust_scope.
Delimit Scope rust_scope with rust.
#[global] Open Scope Z_scope.

(** ** The outcome of a fallible Rust computation

    A Rust function returning [Result<A, E>] ends in [Ok], in [Err], or in a
    panic (an out-of-range index, a failed [expect], [unreachable!]).  All
    three are values here, so that absence of panics is a theorem. *)
Inductive res (E A : Type) : Type :=
| Ok (a : A)
| Err (e : E)
| Panic.
Arguments Ok {E A} a.
Arguments Err {E A} e.
Arguments Panic {E A}.

#[global] Instance res_ret E : MRet (res E) := λ A a, Ok a.
#[global] Instance res_bind E : MBind (res E) := λ A B f m,
  match m with Ok a => f a | Err e => Err e | Panic => Panic end.
#[global] Instance res_fmap E : FMap (res E) := λ A B f m,
  match m with Ok a => Ok (f a) | Err e => Err e | Panic => Panic end.
Arguments res_ret _ _ _ /.
Arguments res_bind _ _ _ _ !_ /.
Arguments res_fmap _ _ _ _ !_ /.

#[global] Instance res_eq_dec `{EqDecision E, EqDecision A} : EqDecision (res E A).
Proof. solve_decision. Defined.

(** [Option::ok_or] followed by [?]. *)
Definition ok_or {E A} (o : option A) (e : E) : res E A :=
  match o with Some a => Ok a | None => Err e end.

(** [Option::expect], slice indexing and the like: a missing value panics. *)
Definition or_panic {E A} (o : option A) : res E A :=
  match o with Some a => Ok a | None => Panic end.

(** [Result::map_err]. *)
Definition map_err {E F A} (f : E → F) (r : res E A) : res F A :=
  match r with Ok a => Ok a | Err e => Err (f e) | Panic => Panic end.

(** [if cond { return Err(e) }]. *)
Definition ensure {E} (ok : bool) (e : E) : res E unit :=
  if ok then Ok tt else Err e.

Definition is_ok {E A} (r : res E A) : bool :=
  match r with Ok _ => true | _ => false end.

(** Collecting an iterator of results, with the row number each item has:
    [iter.enumerate().map(f).collect::<Result<Vec<_>, _>>()]. *)
Fixpoint mapi_res {E A B} (f : nat → A → res E B) (row : nat) (l : list A)
    : res E (list B) :=
  match l with
  | [] => Ok []
  | x :: l => y ← f row x; ys ← mapi_res f (S row) l; Ok (y :: ys)
  end.

(** The same without a row number. *)
Definition map_res {E A B} (f : A → res E B) (l : list A) : res E (list B) :=
  mapi_res (λ _, f) 0 l.

(** ** Automation *)

Create HintDb rust.

(** [res_inv] opens every hypothesis that says a monadic computation
    returned [Ok] (or [Err]) into the equations of its steps. *)
Ltac res_inv_step :=
  match goal with
  | H : mbind ?f ?m = _ |- _ =>
      let E := fresh "E" in
      destruct m eqn:E; cbn [mbind res_bind] in H; try discriminate H
  | H : fmap ?f ?m = _ |- _ =>
      let E := fresh "E" in
      destruct m eqn:E; cbn [fmap res_fmap] in H; try discriminate H
  | H : ensure ?b _ = _ |- _ =>
      let E := fresh "E" in
      unfold ensure in H; destruct b eqn:E; try discriminate H
  | H : ok_or ?o _ = _ |- _ =>
      let E := fresh "E" in
      unfold ok_or in H; destruct o eqn:E; try discriminate H
  | H : or_panic ?o = _ |- _ =>
      let E := fresh "E" in
      unfold or_panic in H; destruct o eqn:E; try discriminate H
  | H : map_err _ ?r = _ |- _ =>
      let E := fresh "E" in
      unfold map_err in H; destruct r eqn:E; try discriminate H
  | H : Ok _ = Ok _ |- _ => injection H as H; subst
  | H : Err _ = Err _ |- _ => injection H as H; subst
  | H : mret _ = Ok _ |- _ => injection H as H; subst
  end.
Ltac res_inv := repeat (res_inv_step; simplify_eq/=).

(** Boolean tests to propositions, in the hypotheses and the goal. *)
Ltac bool_prop :=
  repeat match goal with
  | H : _ && _ = true |- _ => apply andb_true_iff in H as [? ?]
  | H : _ || _ = false |- _ => apply orb_false_iff in H as [? ?]
  | H : negb _ = true |- _ => apply negb_true_iff in H
  | H : negb _ = false |- _ => apply negb_false_iff in H
  | H : (_ =? _) = true |- _ => apply Z.eqb_eq in H
  | H : (_ =? _) = false |- _ => apply Z.eqb_neq in H
  | H : (_ <? _) = true |- _ => apply Z.ltb_lt in H
  | H : (_ <? _) = false |- _ => apply Z.ltb_ge in H
  | H : (_ <=? _) = true |- _ => apply Z.leb_le in H
  | H : (_ <=? _) = false |- _ => apply Z.leb_gt in H
  | H : bool_decide _ = true |- _ => apply bool_decide_eq_true in H
  | H : bool_decide _ = false |- _ => apply bool_decide_eq_false in H
  end.

(** Linear arithmetic with division and remainder by constants. *)
Ltac divlia := Z.div_mod_to_equations; lia.

(** ** Lemmas on the result monad *)

Lemma ok_or_ok {E A} (o : option A) (e : E) a : ok_or o e = Ok a ↔ o = Some a.
Proof. destruct o; simpl; split; congruence. Qed.

Lemma or_panic_ok {E A} (o : option A) a : @or_panic E A o = Ok a ↔ o = Some a.
Proof. destruct o; simpl; split; congruence. Qed.

Lemma bind_ok {E A B} (f : A → res E B) (m : res E A) b :
  m ≫= f = Ok b → ∃ a, m = Ok a ∧ f a = Ok b.
Proof. destruct m; simpl; [eauto|done..]. Qed.

Lemma bind_no_panic {E A B} (f : A → res E B) (m : res E A) :
  m ≠ Panic → (∀ a, m = Ok a → f a ≠ Panic) → m ≫= f ≠ Panic.
Proof. destruct m; simpl; [intros _ H; by apply H|done..]. Qed.

Lemma ok_or_no_panic {E A} (o : option A) (e : E) : ok_or o e ≠ Panic.
Proof. by destruct o. Qed.

Lemma ensure_no_panic {E} b (e : E) : ensure b e ≠ Panic.
Proof. by destruct b. Qed.

Lemma or_panic_no_panic {E A} (o : option A) : is_Some o → @or_panic E A o ≠ Panic.
Proof. by intros [? ->]. Qed.

Lemma map_err_no_panic {E F A} (f : E → F) (r : res E A) : r ≠ Panic → map_err f r ≠ Panic.
Proof. by destruct r. Qed.

(** [no_panic] walks a monadic computation that cannot panic; what it leaves
    are the steps that index or unwrap. *)
Ltac no_panic_step :=
  match goal with
  | |- Ok _ ≠ Panic => discriminate
  | |- Err _ ≠ Panic => discriminate
  | |- ok_or _ _ ≠ Panic => apply ok_or_no_panic
  | |- ensure _ _ ≠ Panic => apply ensure_no_panic
  | |- map_err _ _ ≠ Panic => apply map_err_no_panic
  | |- mbind _ _ ≠ Panic => apply bind_no_panic; [|intros ? ?]
  | |- match ?x with _ => _ end ≠ Panic => destruct x eqn:?
  end.
Ltac no_panic := repeat (no_panic_step; cbn zeta in *).

Section collect.
Context {E A B : Type}.
Implicit Types (f : nat → A → res E B) (l : list A).

Lemma mapi_res_app f i l1 l2 :
  mapi_res f i (l1 ++ l2) =
  (y1 ← mapi_res f i l1; y2 ← mapi_res f (i + length l1)%nat l2; Ok (y1 ++ y2)).
Proof.
  revert i; induction l1 as [|x l1 IH]; intros i; simpl.
  { rewrite Nat.add_0_r. by destruct (mapi_res f i l2). }
  destruct (f i x); simpl; [|done..]. rewrite IH.
  destruct (mapi_res f (S i) l1); simpl; [|done..].
  replace (i + S (length l1))%nat with (S i + length l1)%nat by lia.
  by destruct (mapi_res f _ l2).
Qed.

Lemma mapi_res_length f i l ys : mapi_res f i l = Ok ys → length ys = length l.
Proof.
  revert i ys; induction l as [|x l IH]; intros i ys H; simpl in H; res_inv; [done|].
  simpl. f_equal. by eapply IH.
Qed.

(** Collecting succeeds exactly when every item does, with its results. *)
Lemma mapi_res_ok f i l ys :
  mapi_res f i l = Ok ys ↔
  Forall2 (λ ix y, f ix.1 ix.2 = Ok y) (zip (seq i (length l)) l) ys.
Proof.
  revert i ys; induction l as [|x l IH]; intros i ys; simpl.
  { split; [intros H; res_inv; constructor|]. by inversion 1. }
  split.
  - intros H. res_inv. constructor; [done|]. by apply IH.
  - inversion 1 as [|? y ? ys' Hx Hl]; subst. simpl in Hx. rewrite Hx. simpl.
    apply IH in Hl. by rewrite Hl.
Qed.

(** A function without row numbers collects exactly the row-free results. *)
Lemma map_res_ok (g : A → res E B) l ys :
  map_res g l = Ok ys ↔ Forall2 (λ x y, g x = Ok y) l ys.
Proof.
  unfold map_res. generalize 0%nat. intros i. revert i ys.
  induction l as [|x l IH]; intros i ys; simpl.
  { split; [intros H; res_inv; constructor|]. by inversion 1. }
  split.
  - intros H. res_inv. constructor; [done|]. by eapply IH.
  - inversion 1 as [|? y ? ys' Hx Hl]; subst. rewrite Hx. simpl.
    apply (IH (S i)) in Hl. by rewrite Hl.
Qed.

Lemma mapi_res_pure f (g : A → B) i l :
  (∀ j x, x ∈ l → f j x = Ok (g x)) → mapi_res f i l = Ok (g <$> l).
Proof.
  revert i; induction l as [|x l IH]; intros i H; simpl; [done|].
  rewrite H by set_solver. simpl. rewrite IH; [done|]. intros; apply H; set_solver.
Qed.

Lemma mapi_res_no_panic f i l :
  (∀ j x, x ∈ l → f j x ≠ Panic) → mapi_res f i l ≠ Panic.
Proof.
  revert i; induction l as [|x l IH]; intros i H; simpl; [done|].
  destruct (f i x) eqn:Ef; simpl; [|done|by apply H in Ef; [|set_solver]].
  destruct (mapi_res f (S i) l) eqn:El; simpl; [done..|].
  exfalso. eapply IH; [|exact El]. intros; apply H; set_solver.
Qed.
End collect.

Lemma mapi_res_ext {E A B} (f g : nat → A → res E B) i l :
  (∀ j x, x ∈ l → f j x = g j x) → mapi_res f i l = mapi_res g i l.
Proof.
  revert i; induction l as [|x l IH]; intros i H; simpl; [done|].
  rewrite H by set_solver. destruct (g i x); simpl; [|done..].
  rewrite IH; [done|]. intros; apply H; set_solver.
Qed.

(** ** Lists *)

(** [len] is the [usize] length of a slice. *)
Abbreviation len l := (Z.of_nat (length l)).

(** [slice::position]: the index of the first element that satisfies [p]. *)
Fixpoint position {A} (p : A → bool) (l : list A) : option nat :=
  match l with
  | [] => None
  | x :: l => if p x then Some O else S <$> position p l
  end.

(** [slice.get(a..b)]: the half-open range, when it is in bounds. *)
Definition slice_get {A} (l : list A) (a b : Z) : option (list A) :=
  if (0 <=? a) && (a <=? b) && (b <=? len l)
  then Some (take (Z.to_nat (b - a)) (drop (Z.to_nat a) l)) else None.

(** [slice.chunks_exact(n)] for [n > 0]: whole groups of [n]; the remainder is dropped. *)
Fixpoint chunks_exact {A} (fuel n : nat) (l : list A) : list (list A) :=
  match fuel with
  | O => []
  | S fuel =>
      if (length l <? n)%nat then [] else take n l :: chunks_exact fuel n (drop n l)
  end.

Definition chunks {A} (n : nat) (l : list A) : list (list A) :=
  chunks_exact (length l) n l.

Lemma position_Some {A} (p : A → bool) l i :
  position p l = Some i →
  ∃ l1 x l2, l = l1 ++ x :: l2 ∧ length l1 = i ∧ p x = true ∧ Forall (λ y, p y = false) l1.
Proof.
  revert i; induction l as [|y l IH]; intros i H; simpl in H; [done|].
  destruct (p y) eqn:Ey; simplify_eq.
  { exists [], y, l. naive_solver. }
  destruct (position p l) as [j|]; simplify_eq/=.
  destruct (IH j eq_refl) as (l1 & x & l2 & -> & <- & Hx & Hl1).
  exists (y :: l1), x, l2. repeat split; [done|]. by constructor.
Qed.

Lemma position_app_r {A} (p : A → bool) l1 x l2 :
  Forall (λ y, p y = false) l1 → p x = true →
  position p (l1 ++ x :: l2) = Some (length l1).
Proof.
  induction 1 as [|y l1 Hy Hl1 IH]; intros Hx; simpl; [by rewrite Hx|].
  rewrite Hy, IH by done. done.
Qed.

Lemma position_None {A} (p : A → bool) l :
  position p l = None ↔ Forall (λ y, p y = false) l.
Proof.
  induction l as [|y l IH]; simpl; [split; [constructor|done]|].
  destruct (p y) eqn:Ey.
  - split; [done|]. inversion 1; congruence.
  - rewrite Forall_cons, fmap_None, IH. naive_solver.
Qed.

Lemma slice_get_Some {A} (l : list A) a b s :
  slice_get l a b = Some s →
  0 ≤ a ≤ b ∧ b ≤ len l ∧ len s = b - a ∧ s = take (Z.to_nat (b - a)) (drop (Z.to_nat a) l).
Proof.
  unfold slice_get. intros H. case_match eqn:Hb; simplify_eq. bool_prop.
  rewrite length_take, length_drop. repeat split; lia.
Qed.

Lemma slice_get_in {A} (l : list A) a b :
  0 ≤ a ≤ b → b ≤ len l →
  slice_get l a b = Some (take (Z.to_nat (b - a)) (drop (Z.to_nat a) l)).
Proof.
  intros. unfold slice_get.
  rewrite !(proj2 (Z.leb_le _ _)) by lia. done.
Qed.

(** The middle of a concatenation, by its offsets. *)
Lemma slice_get_app {A} (l1 l2 l3 : list A) a b :
  a = len l1 → b = len l1 + len l2 →
  slice_get (l1 ++ l2 ++ l3) a b = Some l2.
Proof.
  intros -> ->. rewrite slice_get_in by (rewrite ?length_app; lia).
  f_equal. rewrite Nat2Z.id, drop_app_length.
  rewrite Z.add_simpl_l, Nat2Z.id. apply take_app_length.
Qed.

Lemma chunks_exact_concat {A} (n : nat) (ls : list (list A)) fuel :
  (0 < n)%nat → Forall (λ l, length l = n) ls →
  (length (concat ls) ≤ fuel)%nat →
  chunks_exact fuel n (concat ls) = ls.
Proof.
  intros Hn Hls. revert fuel.
  induction Hls as [|l ls Hl Hls IH]; intros fuel Hf; simpl in *.
  { destruct fuel; simpl; [done|]. by destruct n; [lia|]. }
  rewrite length_app in Hf. destruct fuel as [|fuel]; [lia|]. simpl.
  rewrite length_app.
  destruct (Nat.ltb_spec (length l + length (concat ls)) n); [lia|].
  rewrite take_app_length', drop_app_length' by done. f_equal.
  apply IH. lia.
Qed.

(** Chunking the concatenation of equally long pieces gives them back. *)
Lemma chunks_concat {A} (n : nat) (ls : list (list A)) :
  (0 < n)%nat → Forall (λ l, length l = n) ls → chunks n (concat ls) = ls.
Proof. intros. by apply chunks_exact_concat. Qed.

Lemma chunks_exact_spec {A} (n : nat) fuel rows (l : list A) :
  (0 < n)%nat → length l = (rows * n)%nat → (length l ≤ fuel)%nat →
  concat (chunks_exact fuel n l) = l ∧ length (chunks_exact fuel n l) = rows ∧
  Forall (λ c, length c = n) (chunks_exact fuel n l).
Proof.
  intros Hn. revert fuel l; induction rows as [|rows IH]; intros fuel l Hl Hf.
  { destruct l; [|simpl in Hl; lia]. destruct fuel; simpl; [done|]. by destruct n; [lia|]. }
  destruct fuel as [|fuel]; [lia|]. simpl.
  destruct (Nat.ltb_spec (length l) n); [lia|].
  destruct (IH fuel (drop n l)) as (H1 & H2 & H3); [rewrite length_drop; lia..|].
  simpl. rewrite H1, H2, take_drop. repeat split. constructor; [|done].
  rewrite length_take. lia.
Qed.

(** Chunk [i] begins at element [i * n]. *)
Lemma chunks_exact_lookup {A} (n : nat) fuel (l c : list A) i :
  chunks_exact fuel n l !! i = Some c → c = take n (drop (i * n) l).
Proof.
  revert l i. induction fuel as [|fuel IH]; intros l i; cbn [chunks_exact]; [by rewrite lookup_nil|].
  destruct (length l <? n)%nat; [by rewrite lookup_nil|]. destruct i as [|i]; cbn [lookup list_lookup]; [by intros [= <-]|].
  intros ->%IH. by rewrite drop_drop.
Qed.

(** A slice of [rows * n] elements is [rows] chunks of [n]. *)
Lemma chunks_spec {A} (n rows : nat) (l : list A) :
  (0 < n)%nat → length l = (rows * n)%nat →
  concat (chunks n l) = l ∧ length (chunks n l) = rows ∧
  Forall (λ c, length c = n) (chunks n l).
Proof. intros. by apply chunks_exact_spec. Qed.

Lemma length_concat_const {A} (n : nat) (ls : list (list A)) :
  Forall (λ l, length l = n) ls → length (concat ls) = (length ls * n)%nat.
Proof. induction 1 as [|l ls Hl _ IH]; simpl; [done|]. rewrite length_app. lia. Qed.

#[export] Hint Resolve chunks_concat : rust.
