(* ===== verification/RustStd.v ===== *)
(** The parts of the Rust language and its standard library the driver uses:
    machine integers with their checked, saturating and little-endian forms,
    UTF-8 validation and lossy decoding, decimal formatting and parsing, and
    the ASCII classes.  A byte is a [Z] in [0, 256), a [String] or [&str] the
    list of its UTF-8 bytes; [usize] has 64 bits. *)

From stdpp Require Import base list numbers strings.
From Stdlib Require Import ZArith Lia.
From Stdlib Require Strings.Ascii Strings.String.
From S2P Require Import Prelude.

(** ** Machine integers *)

Abbreviation bytes := (list Z).

Definition u8_max : Z := 255.
Definition u32_max : Z := 2 ^ 32 - 1.
Definition u64_max : Z := 2 ^ 64 - 1.
Definition usize_max : Z := 2 ^ 64 - 1.
Definition isize_max : Z := 2 ^ 63 - 1.
Definition i8_min : Z := - 2 ^ 7.
Definition i16_min : Z := - 2 ^ 15.
Definition i32_min : Z := - 2 ^ 31.
Definition i32_max : Z := 2 ^ 31 - 1.
Definition i64_min : Z := - 2 ^ 63.
Definition i64_max : Z := 2 ^ 63 - 1.
Definition i128_min : Z := - 2 ^ 127.

(** A [w]-bit two's-complement integer. *)
Definition signed_range (w z : Z) : bool := (- 2 ^ (w - 1) <=? z) && (z <? 2 ^ (w - 1)).
(** A [w]-bit unsigned integer. *)
Definition unsigned_range (w z : Z) : bool := (0 <=? z) && (z <? 2 ^ w).

(** [usize::checked_add], [checked_mul], [checked_sub] and the saturating forms. *)
Definition checked_add (a b : Z) : option Z := if a + b <=? usize_max then Some (a + b) else None.
Definition checked_mul (a b : Z) : option Z := if a * b <=? usize_max then Some (a * b) else None.
Definition checked_sub (a b : Z) : option Z := if b <=? a then Some (a - b) else None.
Definition saturating_add (a b : Z) : Z := Z.min (a + b) usize_max.
Definition saturating_mul (a b : Z) : Z := Z.min (a * b) usize_max.
Definition saturating_sub (a b : Z) : Z := Z.max (a - b) 0.

(** [usize::try_from] of a signed integer, and [i64::checked_mul]. *)
Definition usize_try_from (z : Z) : option Z := if unsigned_range 64 z then Some z else None.
Definition i64_checked_mul (a b : Z) : option Z := if signed_range 64 (a * b) then Some (a * b) else None.

(** A byte. *)
Definition is_byte (b : Z) : bool := (0 <=? b) && (b <? 256).
Definition bytes_ok (l : bytes) : Prop := Forall (λ b, 0 ≤ b < 256) l.

(** [to_le_bytes] of an [8 * n]-bit integer, signed or not. *)
Fixpoint to_le_bytes (n : nat) (z : Z) : bytes :=
  match n with
  | O => []
  | S n => z mod 256 :: to_le_bytes n (z / 256)
  end.

(** [uN::from_le_bytes]. *)
Fixpoint u_from_le (l : bytes) : Z :=
  match l with
  | [] => 0
  | b :: l => b + 256 * u_from_le l
  end.

(** [iN::from_le_bytes]: the same bits read as two's complement. *)
Definition i_from_le (l : bytes) : Z :=
  let u := u_from_le l in
  let w := 8 * len l in
  if u <? 2 ^ (w - 1) then u else u - 2 ^ w.

(** ** ASCII and text *)

Definition byte_of (c : Stdlib.Strings.Ascii.ascii) : Z := Z.of_N (Stdlib.Strings.Ascii.N_of_ascii c).

(** A byte-string literal. *)
Definition str (s : string) : bytes := byte_of <$> Stdlib.Strings.String.list_ascii_of_string s.

Definition is_ascii_digit (b : Z) : bool := (48 <=? b) && (b <=? 57).
Definition is_ascii_upper (b : Z) : bool := (65 <=? b) && (b <=? 90).
Definition is_ascii_lower (b : Z) : bool := (97 <=? b) && (b <=? 122).
Definition is_ascii_alphabetic (b : Z) : bool := is_ascii_upper b || is_ascii_lower b.
Definition is_ascii_alphanumeric (b : Z) : bool := is_ascii_alphabetic b || is_ascii_digit b.
(** [u8::is_ascii_whitespace]: space, tab, line feed, form feed, carriage return. *)
Definition is_ascii_whitespace (b : Z) : bool :=
  (b =? 32) || (b =? 9) || (b =? 10) || (b =? 12) || (b =? 13).

Definition to_ascii_upper (b : Z) : Z := if is_ascii_lower b then b - 32 else b.
Definition to_ascii_lower (b : Z) : Z := if is_ascii_upper b then b + 32 else b.
Definition to_ascii_uppercase (s : bytes) : bytes := to_ascii_upper <$> s.

(** [str::eq_ignore_ascii_case]. *)
Definition eq_ignore_ascii_case (a b : bytes) : bool :=
  bool_decide (to_ascii_lower <$> a = to_ascii_lower <$> b).

(** [str::split_ascii_whitespace]: the maximal runs of other bytes. *)
Fixpoint split_ascii_whitespace_aux (word : bytes) (l : bytes) : list bytes :=
  match l with
  | [] => if bool_decide (word = []) then [] else [rev word]
  | b :: l =>
      if is_ascii_whitespace b
      then if bool_decide (word = []) then split_ascii_whitespace_aux [] l
           else rev word :: split_ascii_whitespace_aux [] l
      else split_ascii_whitespace_aux (b :: word) l
  end.
Definition split_ascii_whitespace (l : bytes) : list bytes := split_ascii_whitespace_aux [] l.

(** [starts_with] and [strip_prefix] on byte slices. *)
Definition starts_with (prefix l : bytes) : bool := bool_decide (take (length prefix) l = prefix).
Definition strip_prefix (prefix l : bytes) : option bytes :=
  if starts_with prefix l then Some (drop (length prefix) l) else None.

(** ** Decimal integers *)

(** The decimal digits of [z >= 0], most significant first. *)
Fixpoint dec_digits_aux (fuel : nat) (z : Z) (acc : bytes) : bytes :=
  match fuel with
  | O => acc
  | S fuel =>
      let acc := (48 + z mod 10) :: acc in
      if z <? 10 then acc else dec_digits_aux fuel (z / 10) acc
  end.
Definition dec_digits (z : Z) : bytes := dec_digits_aux (S (Z.to_nat (Z.log2 z))) z [].

(** [Display] of an integer. *)
Definition fmt_int (z : Z) : bytes :=
  if z <? 0 then 45 :: dec_digits (- z) else dec_digits z.

(** The value of a digit string, [None] on a byte that is no digit. *)
Fixpoint dec_value_aux (acc : Z) (l : bytes) : option Z :=
  match l with
  | [] => Some acc
  | b :: l => if is_ascii_digit b then dec_value_aux (acc * 10 + (b - 48)) l else None
  end.
Definition dec_value (l : bytes) : option Z :=
  if bool_decide (l = []) then None else dec_value_aux 0 l.

(** [str::parse] for an integer type: an optional [+] (or [-] when the type is
    signed), at least one digit, and a value in range. *)
Definition parse_int_in (signed : bool) (in_range : Z → bool) (s : bytes) : option Z :=
  let check (o : option Z) := z ← o; if in_range z then Some z else None in
  match s with
  | 43 :: s' => check (dec_value s')
  | 45 :: s' => if signed then check (Z.opp <$> dec_value s') else None
  | _ => check (dec_value s)
  end.

Definition parse_i64 : bytes → option Z := parse_int_in true (signed_range 64).
Definition parse_u64 : bytes → option Z := parse_int_in false (unsigned_range 64).

(** ** UTF-8 *)

Definition is_cont (b : Z) : bool := (128 <=? b) && (b <=? 191).
(** The byte at the front, 0 past the end (as the standard library's scanner reads). *)
Definition front (l : bytes) : Z := match l with b :: _ => b | [] => 0 end.

(** The second byte a lead byte of three or four admits. *)
Definition second_ok (lead b : Z) : bool :=
  if lead =? 224 then (160 <=? b) && (b <=? 191)
  else if lead =? 237 then (128 <=? b) && (b <=? 159)
  else if lead =? 240 then (144 <=? b) && (b <=? 191)
  else if lead =? 244 then (128 <=? b) && (b <=? 143)
  else is_cont b.

(** One scalar value at the front of a non-empty list: [inl n] when the first
    [n] bytes encode one, [inr n] when [n] bytes are an invalid sequence. *)
Definition utf8_step (l : bytes) : nat + nat :=
  match l with
  | [] => inr 0%nat
  | b :: l =>
      if b <? 128 then inl 1%nat
      else if (194 <=? b) && (b <=? 223) then
        if is_cont (front l) then inl 2%nat else inr 1%nat
      else if (224 <=? b) && (b <=? 239) then
        if negb (second_ok b (front l)) then inr 1%nat
        else if negb (is_cont (front (drop 1 l))) then inr 2%nat else inl 3%nat
      else if (240 <=? b) && (b <=? 244) then
        if negb (second_ok b (front l)) then inr 1%nat
        else if negb (is_cont (front (drop 1 l))) then inr 2%nat
        else if negb (is_cont (front (drop 2 l))) then inr 3%nat else inl 4%nat
      else inr 1%nat
  end.

(** [str::from_utf8(..).is_ok()]. *)
Fixpoint utf8_valid_aux (fuel : nat) (l : bytes) : bool :=
  match fuel, l with
  | _, [] => true
  | O, _ => false
  | S fuel, _ =>
      match utf8_step l with
      | inl n => utf8_valid_aux fuel (drop n l)
      | inr _ => false
      end
  end.
Definition utf8_valid (l : bytes) : bool := utf8_valid_aux (length l) l.

(** [String::from_utf8_lossy]: every invalid sequence becomes U+FFFD. *)
Fixpoint from_utf8_lossy_aux (fuel : nat) (l : bytes) : bytes :=
  match fuel, l with
  | _, [] => []
  | O, _ => []
  | S fuel, _ =>
      match utf8_step l with
      | inl n => take n l ++ from_utf8_lossy_aux fuel (drop n l)
      | inr n => [239; 191; 189] ++ from_utf8_lossy_aux fuel (drop n l)
      end
  end.
Definition from_utf8_lossy (l : bytes) : bytes := from_utf8_lossy_aux (length l) l.

(** ** Little-endian integers *)

Lemma length_to_le_bytes n z : length (to_le_bytes n z) = n.
Proof. revert z; induction n as [|n IH]; intros z; cbn [to_le_bytes length]; [done|]. by rewrite IH. Qed.

Lemma to_le_bytes_ok n z : bytes_ok (to_le_bytes n z).
Proof.
  revert z; induction n as [|n IH]; intros z; cbn [to_le_bytes]; constructor; [|apply IH].
  apply Z.mod_pos_bound. lia.
Qed.

Lemma pow256_S n : 256 ^ Z.of_nat (S n) = 256 * 256 ^ Z.of_nat n.
Proof. rewrite Nat2Z.inj_succ, Z.pow_succ_r by lia. done. Qed.

Lemma pow256_pos n : 0 < 256 ^ Z.of_nat n.
Proof. apply Z.pow_pos_nonneg; lia. Qed.

Lemma pow2_8 (n : nat) : 2 ^ (8 * Z.of_nat n) = 256 ^ Z.of_nat n.
Proof. rewrite Z.pow_mul_r by lia. done. Qed.

Lemma u_from_le_to_le n z : u_from_le (to_le_bytes n z) = z mod 256 ^ Z.of_nat n.
Proof.
  revert z; induction n as [|n IH]; intros z; cbn [to_le_bytes u_from_le].
  { by rewrite Z.mod_1_r. }
  rewrite IH, pow256_S. pose proof (pow256_pos n).
  rewrite Z.rem_mul_r by lia. lia.
Qed.

Lemma u_from_le_range l : bytes_ok l → 0 ≤ u_from_le l < 256 ^ len l.
Proof.
  induction 1 as [|b l Hb Hl IH]; cbn [u_from_le length]; [done|].
  rewrite pow256_S. lia.
Qed.

(** Reading back an unsigned integer that fits gives it. *)
Lemma u_from_le_to_le_id n z :
  0 ≤ z < 2 ^ (8 * Z.of_nat n) → u_from_le (to_le_bytes n z) = z.
Proof. rewrite pow2_8. intros. rewrite u_from_le_to_le. by apply Z.mod_small. Qed.

(** Reading back a two's-complement integer that fits gives it. *)
Lemma i_from_le_to_le_id n z :
  (0 < n)%nat → signed_range (8 * Z.of_nat n) z = true →
  i_from_le (to_le_bytes n z) = z.
Proof.
  intros Hn Hr. unfold signed_range in Hr. bool_prop.
  unfold i_from_le. rewrite u_from_le_to_le, length_to_le_bytes, <- pow2_8.
  set (w := 8 * Z.of_nat n) in *.
  assert (2 ^ w = 2 * 2 ^ (w - 1)) as Hw.
  { rewrite <- Z.pow_succ_r by lia. f_equal. lia. }
  destruct (decide (0 ≤ z)).
  - rewrite Z.mod_small by lia. by rewrite (proj2 (Z.ltb_lt _ _)) by lia.
  - assert (z mod 2 ^ w = z + 2 ^ w) as ->.
    { symmetry. apply Zmod_unique with (-1); lia. }
    rewrite (proj2 (Z.ltb_ge _ _)) by lia. lia.
Qed.

Lemma to_le_u_from_le l : bytes_ok l → to_le_bytes (length l) (u_from_le l) = l.
Proof.
  induction 1 as [|b l Hb Hl IH]; cbn [u_from_le length to_le_bytes]; [done|].
  f_equal.
  - rewrite Z.mul_comm, Z_mod_plus_full. by apply Z.mod_small.
  - rewrite Z.mul_comm, Z_div_plus_full, Z.div_small, Z.add_0_l by lia. done.
Qed.

(** Bounds of the machine integers as numerals, for [lia]. *)
Ltac machine_bounds :=
  unfold signed_range, unsigned_range, usize_max, isize_max, u64_max, u32_max, u8_max, i8_min,
    i16_min, i32_min, i32_max, i64_min, i64_max, i128_min in *;
  change (8 * Z.of_nat 1) with 8 in *; change (8 * Z.of_nat 2) with 16 in *;
  change (8 * Z.of_nat 4) with 32 in *; change (8 * Z.of_nat 8) with 64 in *;
  change (8 * Z.of_nat 16) with 128 in *;
  change (2 ^ (8 - 1)) with (2 ^ 7) in *; change (2 ^ (16 - 1)) with (2 ^ 15) in *;
  change (2 ^ (32 - 1)) with (2 ^ 31) in *; change (2 ^ (64 - 1)) with (2 ^ 63) in *;
  change (2 ^ (128 - 1)) with (2 ^ 127) in *.
Ltac range_lia := machine_bounds; lia.

Lemma u64_le z : unsigned_range 64 z = true → u_from_le (to_le_bytes 8 z) = z.
Proof. intros. apply u_from_le_to_le_id. range_lia. Qed.

Lemma i64_le z : signed_range 64 z = true → i_from_le (to_le_bytes 8 z) = z.
Proof. intros. apply i_from_le_to_le_id; [lia|done]. Qed.

(** ** Decimal round trip *)

Lemma dec_digits_aux_S fuel z acc :
  dec_digits_aux (S fuel) z acc =
  if z <? 10 then (48 + z mod 10) :: acc
  else dec_digits_aux fuel (z / 10) ((48 + z mod 10) :: acc).
Proof. done. Qed.

Lemma dec_digits_aux_app fuel z acc :
  dec_digits_aux fuel z acc = dec_digits_aux fuel z [] ++ acc.
Proof.
  revert z acc; induction fuel as [|fuel IH]; intros z acc; simpl; [done|].
  destruct (z <? 10); [done|].
  rewrite IH, (IH _ [_]). by rewrite <- (assoc_L (++)).
Qed.

Lemma dec_digits_fuel fuel z :
  0 ≤ z < 10 * 2 ^ Z.of_nat fuel →
  dec_digits_aux (S fuel) z [] = dec_digits z.
Proof.
  enough (∀ f1 f2 z, 0 ≤ z → z < 10 * 2 ^ Z.of_nat f1 → z < 10 * 2 ^ Z.of_nat f2 →
            dec_digits_aux (S f1) z [] = dec_digits_aux (S f2) z []) as Hgen.
  { intros [Hz1 Hz2]. apply Hgen; [done..|]. rewrite Z2Nat.id by apply Z.log2_nonneg.
    destruct (decide (z = 0)) as [->|]; [done|].
    pose proof (Z.log2_spec z ltac:(lia)). rewrite Z.pow_succ_r in H by apply Z.log2_nonneg. lia. }
  clear. induction f1 as [|f1 IH]; intros f2 z Hz H1 H2;
    rewrite dec_digits_aux_S, (dec_digits_aux_S f2).
  { destruct (Z.ltb_spec z 10); [done|]. simpl in H1. lia. }
  destruct (Z.ltb_spec z 10); [done|].
  destruct f2 as [|f2]; [simpl in H2; lia|].
  rewrite Nat2Z.inj_succ, Z.pow_succ_r in H1, H2 by lia.
  assert (z / 10 ≤ z / 2) by (apply Z.div_le_compat_l; lia).
  rewrite (dec_digits_aux_app (S f1)), (dec_digits_aux_app (S f2)). f_equal.
  apply IH; [divlia|..]; apply Z.div_lt_upper_bound; lia.
Qed.

Lemma dec_digits_small z : 0 ≤ z < 10 → dec_digits z = [48 + z].
Proof.
  intros. unfold dec_digits. rewrite dec_digits_aux_S.
  rewrite (proj2 (Z.ltb_lt _ _)) by lia. by rewrite Z.mod_small by lia.
Qed.

Lemma dec_digits_step z : 10 ≤ z → dec_digits z = dec_digits (z / 10) ++ [48 + z mod 10].
Proof.
  intros. unfold dec_digits at 1. rewrite dec_digits_aux_S.
  rewrite (proj2 (Z.ltb_ge _ _)) by lia. rewrite dec_digits_aux_app. f_equal.
  pose proof (Z.log2_spec z ltac:(lia)) as [Hl1 Hl2].
  assert (0 < Z.log2 z) by (apply Z.log2_pos; lia).
  destruct (Z.to_nat (Z.log2 z)) as [|f] eqn:Hf; [lia|].
  apply dec_digits_fuel. split; [divlia|].
  apply Z.div_lt_upper_bound; [lia|].
  rewrite Z.pow_succ_r in Hl2 by lia.
  replace (Z.log2 z) with (Z.succ (Z.of_nat f)) in Hl2 by lia.
  rewrite Z.pow_succ_r in Hl2 by lia. lia.
Qed.

(** Induction over the decimal digits of a number. *)
Lemma dec_ind (P : Z → Prop) :
  (∀ z, 0 ≤ z < 10 → P z) → (∀ z, 10 ≤ z → P (z / 10) → P z) →
  ∀ z, 0 ≤ z → P z.
Proof.
  intros H0 HS z Hz. revert Hz. induction (Z.lt_wf 0 z) as [z _ IH]. intros Hz.
  destruct (Z.ltb_spec z 10); [by apply H0|].
  apply HS; [done|]. apply IH; [|divlia]. split; [divlia|]. apply Z.div_lt; lia.
Qed.

Lemma dec_digits_digits z : 0 ≤ z → Forall (λ b, is_ascii_digit b = true) (dec_digits z).
Proof.
  revert z. apply dec_ind; intros z Hz.
  - rewrite dec_digits_small by done. constructor; [|constructor]. unfold is_ascii_digit. lia.
  - intros IH. rewrite dec_digits_step by done. apply Forall_app; split; [done|].
    constructor; [|constructor]. pose proof (Z.mod_pos_bound z 10). unfold is_ascii_digit. lia.
Qed.

Lemma dec_digits_nonempty z : 0 ≤ z → dec_digits z ≠ [].
Proof.
  intros Hz. destruct (Z.ltb_spec z 10).
  - by rewrite dec_digits_small.
  - rewrite dec_digits_step by done. by intros []%app_eq_nil.
Qed.

Lemma dec_value_aux_app acc l1 l2 :
  dec_value_aux acc (l1 ++ l2) = (z ← dec_value_aux acc l1; dec_value_aux z l2).
Proof.
  revert acc; induction l1 as [|b l1 IH]; intros acc; simpl; [done|].
  destruct (is_ascii_digit b); [apply IH|done].
Qed.

Lemma dec_value_digits z : 0 ≤ z → dec_value (dec_digits z) = Some z.
Proof.
  intros Hz. unfold dec_value. rewrite bool_decide_eq_false_2 by by apply dec_digits_nonempty.
  revert z Hz. apply dec_ind; intros z Hz.
  - rewrite dec_digits_small by done. simpl. unfold is_ascii_digit.
    rewrite !(proj2 (Z.leb_le _ _)) by lia. simpl. f_equal. lia.
  - intros IH. rewrite dec_digits_step, dec_value_aux_app, IH by done. simpl.
    pose proof (Z.mod_pos_bound z 10). unfold is_ascii_digit.
    rewrite !(proj2 (Z.leb_le _ _)) by lia. simpl. f_equal.
    rewrite (Z.div_mod z 10) at 3 by lia. lia.
Qed.

(** A digit is none of the bytes the parsers and scanners look for. *)
Lemma is_ascii_digit_range b : is_ascii_digit b = true ↔ 48 ≤ b ≤ 57.
Proof. unfold is_ascii_digit. lia. Qed.

Lemma dec_digits_cons z : 0 ≤ z → ∃ b l, dec_digits z = b :: l ∧ 48 ≤ b ≤ 57.
Proof.
  intros Hz. pose proof (dec_digits_digits z Hz) as H. pose proof (dec_digits_nonempty z Hz).
  destruct (dec_digits z) as [|b l]; [done|]. exists b, l. split; [done|].
  apply is_ascii_digit_range. by inversion H.
Qed.

Lemma parse_int_in_cons signed in_range b l :
  b ≠ 43 → b ≠ 45 →
  parse_int_in signed in_range (b :: l) =
  (z ← dec_value (b :: l); if in_range z then Some z else None).
Proof. intros. unfold parse_int_in. repeat case_match; simplify_eq; try lia; done. Qed.

(** Formatting an integer and parsing it back. *)
Lemma parse_int_in_fmt signed in_range z :
  in_range z = true → (signed = true ∨ 0 ≤ z) →
  parse_int_in signed in_range (fmt_int z) = Some z.
Proof.
  intros Hr Hs. unfold fmt_int. destruct (Z.ltb_spec z 0) as [Hz|Hz].
  - destruct Hs as [->|]; [|lia]. cbn [parse_int_in].
    rewrite dec_value_digits by lia. simpl. rewrite Z.opp_involutive. by rewrite Hr.
  - destruct (dec_digits_cons z Hz) as (b & l & Hd & Hb).
    rewrite Hd, parse_int_in_cons by lia. rewrite <- Hd, dec_value_digits by done.
    simpl. by rewrite Hr.
Qed.

Lemma parse_i64_fmt z : signed_range 64 z = true → parse_i64 (fmt_int z) = Some z.
Proof. intros. apply parse_int_in_fmt; auto. Qed.

Lemma parse_u64_fmt z : unsigned_range 64 z = true → parse_u64 (fmt_int z) = Some z.
Proof. intros H. apply parse_int_in_fmt; [done|]. unfold unsigned_range in H. right. lia. Qed.

Lemma parse_int_in_range signed in_range s z :
  parse_int_in signed in_range s = Some z → in_range z = true.
Proof.
  assert (∀ o, (y ← o; if in_range y then Some y else None) = Some z → in_range z = true) as Hc.
  { intros [y|]; simpl; [|done]. by destruct (in_range y) eqn:?; intros [= <-]. }
  unfold parse_int_in. intros H. repeat case_match; try done; by eapply Hc.
Qed.

Lemma length_dec_digits z (k : nat) :
  0 ≤ z < 10 ^ Z.of_nat k → (length (dec_digits z) ≤ Nat.max 1 k)%nat.
Proof.
  revert z; induction k as [|k IH]; intros z Hz.
  { simpl in Hz. rewrite dec_digits_small by lia. simpl. lia. }
  destruct (Z.ltb_spec z 10).
  - rewrite dec_digits_small by lia. simpl. lia.
  - rewrite dec_digits_step, length_app by done. simpl.
    rewrite Nat2Z.inj_succ, Z.pow_succ_r in Hz by lia.
    assert (k ≠ 0%nat) by (intros ->; simpl in Hz; lia).
    specialize (IH (z / 10)). lapply IH; [lia|].
    split; [divlia|]. apply Z.div_lt_upper_bound; lia.
Qed.

(** Every byte of a formatted integer is a digit or the minus sign. *)
Lemma fmt_int_bytes z : Forall (λ b, 48 ≤ b ≤ 57 ∨ b = 45) (fmt_int z).
Proof.
  assert (∀ y, 0 ≤ y → Forall (λ b, 48 ≤ b ≤ 57 ∨ b = 45) (dec_digits y)) as Hd.
  { intros y Hy. eapply Forall_impl; [by apply dec_digits_digits|].
    intros b Hb%is_ascii_digit_range. by left. }
  unfold fmt_int. destruct (Z.ltb_spec z 0); [|by apply Hd].
  constructor; [by right|]. apply Hd. lia.
Qed.

Lemma fmt_int_nonempty z : fmt_int z ≠ [].
Proof.
  unfold fmt_int. destruct (Z.ltb_spec z 0); [done|]. by apply dec_digits_nonempty.
Qed.

Lemma length_fmt_int z : - 10 ^ 19 < z < 10 ^ 20 → (length (fmt_int z) ≤ 20)%nat.
Proof.
  intros Hz. unfold fmt_int. destruct (Z.ltb_spec z 0).
  - assert (length (dec_digits (- z)) ≤ Nat.max 1 19)%nat.
    { apply length_dec_digits. change (10 ^ Z.of_nat 19) with (10 ^ 19). lia. }
    cbn [length]. lia.
  - assert (length (dec_digits z) ≤ Nat.max 1 20)%nat; [|lia].
    apply length_dec_digits. change (10 ^ Z.of_nat 20) with (10 ^ 20). lia.
Qed.

(** ** Splitting at whitespace *)

Definition is_word (w : bytes) : Prop :=
  w ≠ [] ∧ Forall (λ b, is_ascii_whitespace b = false) w.

Lemma split_aux_word acc w rest :
  Forall (λ b, is_ascii_whitespace b = false) w →
  split_ascii_whitespace_aux acc (w ++ rest) = split_ascii_whitespace_aux (rev w ++ acc) rest.
Proof.
  intros Hw. revert acc. induction Hw as [|b w Hb Hw IH]; intros acc; simpl; [done|].
  rewrite Hb, IH. by rewrite <- (assoc_L (++)).
Qed.

Lemma rev_nonempty {A} (l : list A) : l ≠ [] → rev l ≠ [].
Proof. destruct l; simpl; [done|]. intros _ []%app_eq_nil. done. Qed.

Lemma split_word_space w rest :
  is_word w → split_ascii_whitespace (w ++ 32 :: rest) = w :: split_ascii_whitespace rest.
Proof.
  intros [Hne Hw]. unfold split_ascii_whitespace. rewrite split_aux_word by done. simpl.
  rewrite bool_decide_eq_false_2; rewrite app_nil_r; [by rewrite rev_involutive|].
  by apply rev_nonempty.
Qed.

Lemma split_word w : is_word w → split_ascii_whitespace w = [w].
Proof.
  intros [Hne Hw]. unfold split_ascii_whitespace.
  rewrite <- (app_nil_r w) at 1. rewrite split_aux_word by done. simpl.
  rewrite bool_decide_eq_false_2; rewrite app_nil_r; [by rewrite rev_involutive|].
  by apply rev_nonempty.
Qed.

Lemma fmt_int_word z : is_word (fmt_int z).
Proof.
  split; [apply fmt_int_nonempty|]. eapply Forall_impl; [apply fmt_int_bytes|].
  simpl. intros b Hb. unfold is_ascii_whitespace. lia.
Qed.

(** ** UTF-8 of ASCII text *)

Lemma utf8_valid_aux_ascii fuel l :
  (length l ≤ fuel)%nat → Forall (λ b, b < 128) l → utf8_valid_aux fuel l = true.
Proof.
  revert l; induction fuel as [|fuel IH]; intros [|b l] Hf Hl; simpl in *; try done; [lia|].
  inversion Hl; subst. rewrite (proj2 (Z.ltb_lt _ _)) by done. simpl. rewrite drop_0.
  apply IH; [lia|done].
Qed.

Lemma utf8_valid_ascii l : Forall (λ b, b < 128) l → utf8_valid l = true.
Proof. by apply utf8_valid_aux_ascii. Qed.

Arguments to_le_bytes : simpl never.
Arguments str : simpl never.
