(* ===== verification/Types.v ===== *)
(** The type systems of the two sides and the maps between them:
    [MonetType] (the SQL types of a result column), Arrow's [DataType] and
    [Field], the wire widths of [wire.rs], the schema functions of
    [decode.rs] and [encode.rs], and the error values of both.

    [MonetType], [DataType], [TimeUnit] and [Field] belong to crates outside
    the repository; they are data here, with the variants the sources name
    ([OtherDataType] stands for every Arrow type they do not). *)

From stdpp Require Import base list numbers strings gmap.
From S2P Require Import Prelude RustStd.
Local Open Scope Z_scope.

(** ** MonetDB types *)

Inductive MonetType : Type :=
| MBool | MTinyInt | MSmallInt | MInt | MBigInt | MHugeInt | MOid
| MDecimal (precision scale : Z)
| MVarchar (width : Z)
| MReal | MDouble
| MMonthInterval | MDayInterval | MSecInterval
| MTime | MTimeTz | MDate | MTimestamp | MTimestampTz
| MBlob | MUrl | MInet | MInet4 | MInet6 | MJson | MUuid | MGeometry | MXml.

#[global] Instance MonetType_eq_dec : EqDecision MonetType.
Proof. solve_decision. Defined.

(** The number of bytes the server stores a decimal of this precision in. *)
Definition decimal_width (precision : Z) : option Z :=
  if (1 <=? precision) && (precision <=? 2) then Some 1
  else if (3 <=? precision) && (precision <=? 4) then Some 2
  else if (5 <=? precision) && (precision <=? 9) then Some 4
  else if (10 <=? precision) && (precision <=? 18) then Some 8
  else if (19 <=? precision) && (precision <=? 38) then Some 16
  else None.

(** [wire::fixed_wire_width]. *)
Definition fixed_wire_width (data_type : MonetType) : option Z :=
  match data_type with
  | MBool | MTinyInt => Some 1
  | MSmallInt => Some 2
  | MInt | MReal | MMonthInterval | MDate => Some 4
  | MBigInt | MOid | MDouble | MDayInterval | MSecInterval | MTime | MTimeTz => Some 8
  | MTimestamp | MTimestampTz => Some 12
  | MHugeInt | MUuid => Some 16
  | MDecimal precision _ => decimal_width precision
  | MVarchar _ | MBlob | MUrl | MInet | MInet4 | MInet6 | MJson | MGeometry | MXml => None
  end.

(** ** Arrow types *)

Inductive TimeUnit : Type := Second | Millisecond | Microsecond | Nanosecond.

#[global] Instance TimeUnit_eq_dec : EqDecision TimeUnit.
Proof. solve_decision. Defined.

Inductive DataType : Type :=
| DNull | DBoolean
| DInt8 | DInt16 | DInt32 | DInt64
| DUInt8 | DUInt16 | DUInt32 | DUInt64
| DFloat16 | DFloat32 | DFloat64
| DDecimal128 (precision scale : Z)
| DUtf8 | DLargeUtf8 | DUtf8View
| DBinary | DLargeBinary | DBinaryView
| DFixedSizeBinary (width : Z)
| DDate32 | DDate64
| DTime32 (unit : TimeUnit) | DTime64 (unit : TimeUnit)
| DTimestamp (unit : TimeUnit) (timezone : option string)
| DDuration (unit : TimeUnit)
| DDictionary (key value : DataType)
| DOtherDataType (name : string).

#[global] Instance DataType_eq_dec : EqDecision DataType.
Proof. solve_decision. Defined.

(** An Arrow schema field. *)
Record Field : Type := mkField {
  field_name : bytes;
  field_data_type : DataType;
  field_nullable : bool;
  field_metadata : gmap string string;
}.

Definition extension_key : string := "ARROW:extension:name".

(** [field.metadata().get("ARROW:extension:name")]. *)
Definition extension_name (field : Field) : option string := field_metadata field !! extension_key.

Definition has_extension (field : Field) (name : string) : bool :=
  bool_decide (extension_name field = Some name).

(** ** Errors *)

Inductive FrameError : Type :=
| Server (message : bytes)
| Malformed (what : string).

(** [DecodeError]; the errors of the cursor and of Arrow are carried by their text. *)
Inductive DecodeError : Type :=
| DE_Frame (e : FrameError)
| DE_ResultId (expected actual : Z)
| DE_StartRow (expected actual : Z)
| DE_RowCount (requested actual : Z)
| DE_ColumnCount (expected actual : Z)
| DE_Length (expected actual : Z)
| DE_InvalidColumn (message : string)
| DE_InvalidValue (row : nat) (message : string)
| DE_InvalidUtf8 (row : nat)
| DE_InvalidBackref (row : nat)
| DE_Cursor (message : string)
| DE_Unsupported (data_type : MonetType)
| DE_Arrow (message : string).

(** [EncodeError]. *)
Inductive EncodeError : Type :=
| EE_Unsupported (data_type : DataType)
| EE_UnsupportedMonetType (data_type : MonetType)
| EE_InvalidValue (row : nat) (message : string)
| EE_TypeMismatch (expected actual : DataType).

#[global] Instance FrameError_eq_dec : EqDecision FrameError.
Proof. solve_decision. Defined.
#[global] Instance DecodeError_eq_dec : EqDecision DecodeError.
Proof. solve_decision. Defined.
#[global] Instance EncodeError_eq_dec : EqDecision EncodeError.
Proof. solve_decision. Defined.

(** ** From MonetDB to Arrow (decode.rs) *)

Definition decimal_scale (scale : Z) : res DecodeError Z :=
  if signed_range 8 scale then Ok scale
  else Err (DE_InvalidColumn "decimal scale exceeds Arrow's maximum of 127").

Definition decimal_data_type (precision scale : Z) : res DecodeError DataType :=
  if negb ((1 <=? precision) && (precision <=? 38)) || (precision <? scale)
  then Err (DE_InvalidColumn "decimal precision/scale must satisfy 1 <= precision <= 38 and scale <= precision")
  else s ← decimal_scale scale; Ok (DDecimal128 precision s).

Definition data_type_for_monet_type (data_type : MonetType) : res DecodeError DataType :=
  match data_type with
  | MBool => Ok DBoolean
  | MTinyInt => Ok DInt8
  | MSmallInt => Ok DInt16
  | MInt => Ok DInt32
  | MBigInt => Ok DInt64
  | MHugeInt => Ok (DDecimal128 38 0)
  | MOid => Ok DUInt64
  | MDecimal precision scale => decimal_data_type precision scale
  | MVarchar _ | MUrl | MJson | MInet4 | MInet6 => Ok DUtf8
  | MReal => Ok DFloat32
  | MDouble => Ok DFloat64
  | MMonthInterval => Ok DInt32
  | MDayInterval | MSecInterval => Ok (DDuration Millisecond)
  | MTime | MTimeTz => Ok (DTime64 Microsecond)
  | MDate => Ok DDate32
  | MTimestamp => Ok (DTimestamp Microsecond None)
  | MTimestampTz => Ok (DTimestamp Microsecond (Some "UTC"%string))
  | MBlob => Ok DBinary
  | MUuid => Ok (DFixedSizeBinary 16)
  | MGeometry | MInet | MXml => Err (DE_Unsupported data_type)
  end.

(** The extension name [field_for_monet_type] attaches. *)
Definition monet_extension (data_type : MonetType) : option string :=
  match data_type with
  | MJson => Some "arrow.json"
  | MUuid => Some "arrow.uuid"
  | MHugeInt => Some "monetdb.hugeint"
  | MOid => Some "monetdb.oid"
  | MInet4 => Some "monetdb.inet4"
  | MInet6 => Some "monetdb.inet6"
  | MUrl => Some "monetdb.url"
  | MMonthInterval => Some "monetdb.interval_month"
  | MDayInterval => Some "monetdb.interval_day"
  | MTimeTz => Some "monetdb.timetz"
  | _ => None
  end%string.

Definition field_for_monet_type (name : bytes) (data_type : MonetType) : res DecodeError Field :=
  dt ← data_type_for_monet_type data_type;
  Ok (mkField name dt true
        match monet_extension data_type with
        | Some ext => {[ extension_key := ext ]}
        | None => ∅
        end).

(** A column of a result set, as the cursor reports it. *)
Record ResultColumn : Type := mkResultColumn {
  column_name : bytes;
  column_sql_type : MonetType;
}.

Definition field_for_column (column : ResultColumn) : res DecodeError Field :=
  field_for_monet_type (column_name column) (column_sql_type column).

(** [schema_for_columns]: a schema is the list of its fields. *)
Definition schema_for_columns (columns : list ResultColumn) : res DecodeError (list Field) :=
  map_res field_for_column columns.

(** ** From Arrow to MonetDB (encode.rs) *)

Definition is_string_type (t : DataType) : bool :=
  match t with DUtf8 | DLargeUtf8 | DUtf8View => true | _ => false end.

Definition monet_type_for_field (field : Field) : res EncodeError MonetType :=
  match field_data_type field with
  | DNull => Ok (MVarchar 1)
  | DBoolean => Ok MBool
  | DInt8 => Ok MTinyInt
  | DInt16 => Ok MSmallInt
  | DInt32 => if has_extension field "monetdb.interval_month" then Ok MMonthInterval else Ok MInt
  | DInt64 => Ok MBigInt
  | DUInt8 => Ok MSmallInt
  | DUInt16 => Ok MInt
  | DUInt32 => Ok MBigInt
  | DUInt64 => if has_extension field "monetdb.oid" then Ok MOid else Ok MHugeInt
  | DFloat16 | DFloat32 => Ok MReal
  | DFloat64 => Ok MDouble
  | DDecimal128 precision scale as data_type =>
      if (precision =? 38) && (scale =? 0) && has_extension field "monetdb.hugeint"
      then Ok MHugeInt
      else if 0 <=? scale then Ok (MDecimal precision scale)
      else Err (EE_Unsupported data_type)
  | DUtf8 | DLargeUtf8 | DUtf8View =>
      if has_extension field "arrow.json" then Ok MJson
      else if has_extension field "monetdb.inet" then Ok MInet
      else if has_extension field "monetdb.inet4" then Ok MInet4
      else if has_extension field "monetdb.inet6" then Ok MInet6
      else if has_extension field "monetdb.url" then Ok MUrl
      else Ok (MVarchar 0)
  | DDictionary _ value as data_type =>
      if is_string_type value then Ok (MVarchar 0) else Err (EE_Unsupported data_type)
  | DBinary | DLargeBinary | DBinaryView => Ok MBlob
  | DFixedSizeBinary width =>
      if (width =? 16) && has_extension field "arrow.uuid" then Ok MUuid else Ok MBlob
  | DDate32 | DDate64 => Ok MDate
  | DTime64 _ => if has_extension field "monetdb.timetz" then Ok MTimeTz else Ok MTime
  | DTime32 _ => Ok MTime
  | DTimestamp _ (Some _) => Ok MTimestampTz
  | DTimestamp _ None => Ok MTimestamp
  | DDuration _ => if has_extension field "monetdb.interval_day" then Ok MDayInterval else Ok MSecInterval
  | DOtherDataType _ as data_type => Err (EE_Unsupported data_type)
  end.

(** [sql_type_for_field], after the field's MonetDB type is known. *)
Definition sql_type_name (t : MonetType) : bytes :=
  match t with
  | MBool => str "BOOLEAN"
  | MTinyInt => str "TINYINT"
  | MSmallInt => str "SMALLINT"
  | MInt => str "INT"
  | MBigInt => str "BIGINT"
  | MHugeInt => str "HUGEINT"
  | MOid => str "OID"
  | MDecimal precision scale =>
      str "DECIMAL(" ++ fmt_int precision ++ str ", " ++ fmt_int scale ++ str ")"
  | MVarchar width =>
      if 0 <? width then str "VARCHAR(" ++ fmt_int width ++ str ")" else str "STRING"
  | MReal => str "REAL"
  | MDouble => str "DOUBLE"
  | MSecInterval => str "INTERVAL SECOND"
  | MMonthInterval => str "INTERVAL MONTH"
  | MDayInterval => str "INTERVAL DAY"
  | MTime => str "TIME(6)"
  | MTimeTz => str "TIME(6) WITH TIME ZONE"
  | MDate => str "DATE"
  | MTimestamp => str "TIMESTAMP(6)"
  | MTimestampTz => str "TIMESTAMP(6) WITH TIME ZONE"
  | MBlob => str "BLOB"
  | MUrl => str "URL"
  | MInet => str "INET"
  | MInet4 => str "INET4"
  | MInet6 => str "INET6"
  | MJson => str "JSON"
  | MUuid => str "UUID"
  | MGeometry => str "GEOMETRY"
  | MXml => str "XML"
  end.

Definition sql_type_for_field (field : Field) : res EncodeError bytes :=
  t ← monet_type_for_field field; Ok (sql_type_name t).

Definition fixed_encoded_width (field : Field) : res EncodeError (option Z) :=
  if bool_decide (field_data_type field = DNull) then Ok (Some 2)
  else t ← monet_type_for_field field; Ok (fixed_wire_width t).

(** ** The schema maps agree *)

(** The payload of a [MonetType] is in the range of its Rust type. *)
Definition monet_type_ok (t : MonetType) : bool :=
  match t with
  | MDecimal precision scale => unsigned_range 8 precision && unsigned_range 8 scale
  | MVarchar width => unsigned_range 32 width
  | _ => true
  end.

(** What is left of a type on the Arrow side: only a VARCHAR's width is lost. *)
Definition without_width (t : MonetType) : MonetType :=
  match t with MVarchar _ => MVarchar 0 | _ => t end.

Lemma extension_singleton name dt b ext :
  extension_name (mkField name dt b {[ extension_key := ext ]}) = Some ext.
Proof. unfold extension_name. simpl. apply lookup_singleton_eq. Qed.

Lemma extension_none name dt b : extension_name (mkField name dt b ∅) = None.
Proof. apply lookup_empty. Qed.

Lemma has_extension_singleton name dt b ext ext' :
  has_extension (mkField name dt b {[ extension_key := ext ]}) ext' = bool_decide (ext = ext').
Proof.
  unfold has_extension. rewrite extension_singleton. apply bool_decide_ext. naive_solver.
Qed.

Lemma has_extension_none name dt b ext' :
  has_extension (mkField name dt b ∅) ext' = false.
Proof. unfold has_extension. rewrite extension_none. by apply bool_decide_eq_false_2. Qed.

Lemma decimal_data_type_ok precision scale dt :
  decimal_data_type precision scale = Ok dt →
  dt = DDecimal128 precision scale ∧ 1 ≤ precision ≤ 38 ∧ scale ≤ precision.
Proof.
  unfold decimal_data_type, decimal_scale. case_match eqn:E; [done|].
  case_match; intros Hd; res_inv. split; [done|]. bool_prop. lia.
Qed.

Lemma monet_type_of_field name t f :
  monet_type_ok t = true → field_for_monet_type name t = Ok f →
  monet_type_for_field f = Ok (without_width t) ∧ field_data_type f ≠ DNull.
Proof.
  intros Hok H. unfold field_for_monet_type in H. res_inv.
  destruct t; simpl in *; res_inv;
    unfold monet_type_for_field; simpl;
    rewrite ?has_extension_singleton, ?has_extension_none; try done.
  apply decimal_data_type_ok in E as (-> & ? & ?).
  unfold unsigned_range in Hok. bool_prop.
  cbn [field_data_type]. rewrite ?andb_false_r.
  by rewrite (proj2 (Z.leb_le _ _)) by lia.
Qed.

(** The schema maps are inverse: the field a result column is given maps
    back to the column's own MonetDB type (a VARCHAR loses its width, nothing
    else changes) and to its own wire width, so a result re-ingested under its
    own schema creates the columns it was read from. *)
Theorem field_monet_type_roundtrip name t f :
  monet_type_ok t = true → field_for_monet_type name t = Ok f →
  monet_type_for_field f = Ok (without_width t) ∧
  fixed_encoded_width f = Ok (fixed_wire_width t).
Proof.
  intros Hok H. destruct (monet_type_of_field _ _ _ Hok H) as [Ht Hn].
  split; [done|]. unfold fixed_encoded_width.
  rewrite Ht, bool_decide_eq_false_2 by done. by destruct t.
Qed.

Lemma field_monet_type_roundtrip_witness :
  monet_type_for_field
    (mkField (str "id") DUInt64 true {[ extension_key := "monetdb.oid"%string ]}) = Ok MOid ∧
  fixed_encoded_width
    (mkField (str "id") DUInt64 true {[ extension_key := "monetdb.oid"%string ]}) = Ok (Some 8).
Proof. by apply (field_monet_type_roundtrip (str "id") MOid). Defined.
