(* ===== verification/Exportbin.v ===== *)
(** The [Xexportbin] result-set frame ([crates/monetdb-arrow/src/exportbin.rs]):
    parsing a response of the server into its column slices, the error
    messages a response can carry, and the frame layout as a writer produces
    it.  A column slice is the list of its bytes. *)

From stdpp Require Import base list numbers strings sorting.
From S2P Require Import Prelude RustStd Types.
Local Open Scope Z_scope.

Record ExportbinFrame : Type := mkFrame {
  frame_result_id : Z;
  frame_row_count : Z;
  frame_start_row : Z;
  frame_columns : list bytes;
}.

Record ExportbinHeader : Type := mkHeader {
  header_result_id : Z;
  header_column_count : Z;
  header_row_count : Z;
  header_start_row : Z;
}.

Definition HEADER_PREFIX : bytes := str "&6 ".
Definition TOC_ENTRY_SIZE : Z := 16.

(** A half-open range of offsets. *)
Abbreviation range := (Z * Z)%type.

(** [fields.next().ok_or(..)], the rest of the iterator with it. *)
Definition next_field (fields : list bytes) : res FrameError (bytes * list bytes) :=
  match fields with
  | field :: rest => Ok (field, rest)
  | [] => Err (Malformed "block header has too few fields")
  end.

Definition parse_int (parse : bytes → option Z) (field : bytes) : res FrameError Z :=
  ok_or (parse field) (Malformed "block header field is not a number").

(** The header line and the offset of the first byte after it. *)
Definition parse_header (frame : bytes) : res FrameError (ExportbinHeader * Z) :=
  _ ← ensure (starts_with HEADER_PREFIX frame) (Malformed "missing &6 block header");
  line_end ← ok_or (position (λ b, b =? 10) (take (Nat.min (length frame) 128) frame))
               (Malformed "unterminated block header");
  line ← or_panic (slice_get frame (len HEADER_PREFIX) (Z.of_nat line_end));
  _ ← ensure (utf8_valid line) (Malformed "block header is not UTF-8");
  let fields := split_ascii_whitespace line in
  '(field, fields) ← next_field fields; result_id ← parse_int parse_i64 field;
  '(field, fields) ← next_field fields; column_count ← parse_int parse_u64 field;
  '(field, fields) ← next_field fields; row_count ← parse_int parse_u64 field;
  '(field, fields) ← next_field fields; start_row ← parse_int parse_u64 field;
  Ok (mkHeader result_id column_count row_count start_row, Z.of_nat line_end + 1).

(** A [!]-prefixed, NUL-terminated message starting at [offset]. *)
Definition read_error_message (frame : bytes) (offset : Z) : res FrameError bytes :=
  message ← or_panic (slice_get frame offset (len frame));
  let finish := default (length message) (position (λ b, b =? 0) message) in
  let message := take finish message in
  Ok (from_utf8_lossy (default message (strip_prefix [33] message))).

(** The message a negative [toc_pos] points at. *)
Definition find_error_message (frame : bytes) (toc_pos : Z) : res FrameError bytes :=
  let message_end := len frame - 8 in
  let offset :=
    neg ← (if toc_pos =? i64_min then None else Some (- toc_pos));
    offset ← usize_try_from neg;
    if (offset <? message_end) && bool_decide (frame !! Z.to_nat offset = Some 33)
    then Some offset else None in
  offset ← ok_or offset (Malformed "invalid in-frame error offset");
  message ← or_panic (slice_get frame 0 message_end);
  read_error_message message offset.

Definition column_range (start length body_start toc_pos : Z) : res FrameError range :=
  match usize_try_from start, usize_try_from length with
  | Some start, Some length =>
      finish ← ok_or (checked_add start length) (Malformed "column extent overflows");
      if (start <? body_start) || (toc_pos <? finish)
      then Err (Malformed "column data out of bounds")
      else Ok (start, finish)
  | _, _ => Err (Malformed "negative column offset")
  end.

(** One table-of-contents entry. *)
Definition toc_entry (body_start toc_pos : Z) (entry : bytes) : res FrameError range :=
  start ← or_panic (slice_get entry 0 8);
  length ← or_panic (slice_get entry 8 (len entry));
  column_range (i_from_le start) (i_from_le length) body_start toc_pos.

Definition range_start_le (r s : range) : Prop := r.1 ≤ s.1.
#[global] Instance range_start_le_dec r s : Decision (range_start_le r s).
Proof. unfold range_start_le. apply _. Defined.

(** [occupied.windows(2).any(|pair| pair[0].end > pair[1].start)]. *)
Fixpoint any_window_overlaps (l : list range) : bool :=
  match l with
  | r :: ((s :: _) as rest) => (s.1 <? r.2) || any_window_overlaps rest
  | _ => false
  end.

Definition is_occupied (r : range) : bool := r.1 <? r.2.

(** The non-empty ranges, sorted by start, overlap somewhere. *)
Definition ranges_overlap (ranges : list range) : bool :=
  any_window_overlaps (merge_sort range_start_le (filter (λ r, is_occupied r = true) ranges)).

(** [parse_frame] up to the column slices: the header and the ranges. *)
Definition parse_frame_ranges (frame : bytes) : res FrameError (ExportbinHeader * list range) :=
  if bool_decide (head frame = Some 33) then
    message ← read_error_message frame 0; Err (Server message)
  else if len frame <? len HEADER_PREFIX + 8 then Err (Malformed "response too short")
  else
    '(header, body_start) ← parse_header frame;
    trailer ← or_panic (slice_get frame (len frame - 8) (len frame));
    let toc_pos := i_from_le trailer in
    if toc_pos <? 0 then
      message ← find_error_message frame toc_pos; Err (Server message)
    else
      toc_pos ← ok_or (usize_try_from toc_pos)
                  (Malformed "table of contents offset does not fit in memory");
      toc_len ← ok_or (checked_mul (header_column_count header) TOC_ENTRY_SIZE)
                  (Malformed "table of contents length overflows");
      let expected_end := finish ← checked_add toc_pos toc_len; checked_add finish 8 in
      if (len frame / TOC_ENTRY_SIZE <? header_column_count header)
         || (toc_pos <? body_start)
         || negb (bool_decide (expected_end = Some (len frame)))
      then Err (Malformed "table of contents out of bounds")
      else
        toc ← or_panic (slice_get frame toc_pos (toc_pos + toc_len));
        ranges ← map_res (toc_entry body_start toc_pos) (chunks (Z.to_nat TOC_ENTRY_SIZE) toc);
        if ranges_overlap ranges then Err (Malformed "column ranges overlap")
        else Ok (header, ranges).

Definition parse_frame (frame : bytes) : res FrameError ExportbinFrame :=
  '(header, ranges) ← parse_frame_ranges frame;
  columns ← map_res (λ r, or_panic (slice_get frame r.1 r.2)) ranges;
  Ok (mkFrame (header_result_id header) (header_row_count header)
        (header_start_row header) columns).

Definition parse_frame_header (frame : bytes) : res FrameError ExportbinHeader :=
  if bool_decide (head frame = Some 33) then
    message ← read_error_message frame 0; Err (Server message)
  else '(header, _) ← parse_header frame; Ok header.

(** ** The table of contents, read off the frame *)

(** The little-endian word of eight bytes at an offset. *)
Definition word_at (frame : bytes) (offset : Z) : Z := i_from_le (take 8 (drop (Z.to_nat offset) frame)).

(** Range [i] is the one that the two words of entry [i] of the table of contents
    at [toc_pos] give: where the column starts, and its length. *)
Definition ranges_of_toc (frame : bytes) (toc_pos : Z) (ranges : list range) : Prop :=
  ∀ i r, ranges !! i = Some r →
    r.1 = word_at frame (toc_pos + 16 * Z.of_nat i) ∧ r.2 = r.1 + word_at frame (toc_pos + 16 * Z.of_nat i + 8).

(** ** The frame as a writer lays it out *)

(** [while frame.len() % 32 != 0 { frame.push(0) }]. *)
Definition pad32 (frame : bytes) : bytes :=
  frame ++ replicate (Z.to_nat ((- len frame) mod 32)) 0.

(** Every column 32-byte aligned, with its table-of-contents entry. *)
Fixpoint place_columns (frame : bytes) (columns : list bytes) : bytes * list (Z * Z) :=
  match columns with
  | [] => (frame, [])
  | column :: columns =>
      let frame := pad32 frame in
      let '(result, toc) := place_columns (frame ++ column) columns in
      (result, (len frame, len column) :: toc)
  end.

Definition header_line (result_id column_count row_count start_row : Z) : bytes :=
  str "&6 " ++ fmt_int result_id ++ str " " ++ fmt_int column_count ++ str " "
  ++ fmt_int row_count ++ str " " ++ fmt_int start_row ++ [10].

Definition toc_bytes (toc : list (Z * Z)) : bytes :=
  concat ((λ e, to_le_bytes 8 e.1 ++ to_le_bytes 8 e.2) <$> toc).

(** The row count, fixed in the source's builder, is an argument. *)
Definition build_frame (result_id row_count start_row : Z) (columns : list bytes) : bytes :=
  let '(frame, toc) :=
    place_columns (header_line result_id (len columns) row_count start_row) columns in
  let frame := pad32 frame in
  frame ++ toc_bytes toc ++ to_le_bytes 8 (len frame).

(** ** Ranges that do not overlap *)

(** How many of the ranges contain the offset [x]. *)
Definition covers (x : Z) (l : list range) : nat :=
  length (filter (λ r, r.1 ≤ x < r.2) l).

#[global] Instance covers_proper x : Proper ((≡ₚ) ==> (=)) (covers x).
Proof. intros l k Hlk. unfold covers. by rewrite Hlk. Qed.

Lemma covers_cons x r l :
  covers x (r :: l) = Nat.add (if decide (r.1 ≤ x < r.2) then 1%nat else 0%nat) (covers x l).
Proof. unfold covers. rewrite filter_cons. by case_decide. Qed.

(** Empty ranges contain nothing. *)
Lemma covers_occupied x l : covers x (filter (λ r, is_occupied r = true) l) = covers x l.
Proof.
  induction l as [|r l IH]; [done|]. rewrite filter_cons, covers_cons.
  case_decide as Hr; [by rewrite covers_cons, IH|]. rewrite IH.
  unfold is_occupied in Hr. case_decide; [lia|done].
Qed.

(** Ranges in order, each ending before the next begins. *)
Inductive separated : Z → list range → Prop :=
| separated_nil a : separated a []
| separated_cons a r l : a ≤ r.1 → r.1 ≤ r.2 → separated r.2 l → separated a (r :: l).

Lemma separated_weaken a b l : separated a l → b ≤ a → separated b l.
Proof. inversion 1; subst; constructor; try done; lia. Qed.

Lemma separated_covers a l x : separated a l → x < a → covers x l = 0%nat.
Proof.
  induction 1 as [|a r l Har Hr Hl IH]; [done|]. intros Hx. rewrite covers_cons.
  case_decide; [lia|]. apply IH. lia.
Qed.

Lemma separated_covers_le a l x : separated a l → (covers x l ≤ 1)%nat.
Proof.
  induction 1 as [|a r l Har Hr Hl IH]; [unfold covers; simpl; lia|]. rewrite covers_cons.
  case_decide; [|lia]. rewrite (separated_covers r.2) by (done || lia). lia.
Qed.

(** The bytes of separated ranges fit between their bounds. *)
Lemma separated_total a b l :
  separated a l → Forall (λ r, r.2 ≤ b) l → a ≤ b →
  foldr (λ r n, (r.2 - r.1) + n) 0 l ≤ b - a.
Proof.
  induction 1 as [|a r l Har Hr Hl IH]; intros Hb Hab; simpl; [lia|].
  inversion Hb; subst. specialize (IH ltac:(done) ltac:(done)). lia.
Qed.

Lemma no_window_separated l :
  Forall (λ r, r.1 < r.2) l → any_window_overlaps l = false →
  separated (from_option fst 0 (head l)) l.
Proof.
  induction 1 as [|r l Hr Hl IH]; simpl; [constructor|]. intros Hw.
  constructor; [lia..|]. destruct l as [|s l]; [constructor|].
  apply orb_false_iff in Hw as [Hrs Hw]. bool_prop.
  eapply separated_weaken; [by apply IH|done].
Qed.

Lemma overlapping_window_covered l :
  Sorted range_start_le l → Forall (λ r, r.1 < r.2) l →
  any_window_overlaps l = true → ∃ x, (2 ≤ covers x l)%nat.
Proof.
  induction 1 as [|r l Hl IH Hr]; [done|]. inversion 1 as [|?? Hr' Hl']; subst.
  destruct l as [|s l]; [done|]. cbn [any_window_overlaps].
  destruct (Z.ltb_spec s.1 r.2) as [Hs|Hs]; simpl; intros Hw.
  - exists s.1. rewrite !covers_cons. inversion Hr as [|?? Hrs]; subst.
    unfold range_start_le in Hrs. inversion Hl'; subst.
    rewrite !decide_True by lia. lia.
  - destruct (IH Hl' Hw) as [x Hx]. exists x. rewrite covers_cons. lia.
Qed.

#[global] Instance range_start_le_total : Total range_start_le.
Proof. intros r s. unfold range_start_le. lia. Qed.

Abbreviation occupied l := (filter (λ r, is_occupied r = true) l).

Lemma occupied_nonempty l :
  Forall (λ r : range, r.1 < r.2) (merge_sort range_start_le (occupied l)).
Proof.
  rewrite merge_sort_Permutation. apply Forall_forall. intros r.
  rewrite list_elem_of_filter. unfold is_occupied. lia.
Qed.

(** The overlap test finds an overlap exactly when two ranges share a byte. *)
Lemma ranges_overlap_spec l :
  ranges_overlap l = false ↔ ∀ x, (covers x l ≤ 1)%nat.
Proof.
  unfold ranges_overlap. split.
  - intros Hw x. rewrite <- covers_occupied, <- (merge_sort_Permutation range_start_le).
    eapply separated_covers_le, no_window_separated; [apply occupied_nonempty|done].
  - intros Hc. destruct (any_window_overlaps _) eqn:Hw; [|done]. exfalso.
    apply overlapping_window_covered in Hw as [x Hx];
      [|apply Sorted_merge_sort; apply _|apply occupied_nonempty].
    rewrite merge_sort_Permutation, covers_occupied in Hx. specialize (Hc x). lia.
Qed.

Lemma total_Permutation (l k : list range) :
  l ≡ₚ k → foldr (λ r n, (r.2 - r.1) + n) 0 l = foldr (λ r n, (r.2 - r.1) + n) 0 k.
Proof. induction 1; simpl; lia. Qed.

(** Non-overlapping ranges inside [a, b] hold at most [b - a] bytes together. *)
Lemma ranges_total l a b :
  ranges_overlap l = false → a ≤ b → Forall (λ r, a ≤ r.1 ∧ r.1 ≤ r.2 ∧ r.2 ≤ b) l →
  foldr (λ r n, (r.2 - r.1) + n) 0 l ≤ b - a.
Proof.
  intros Hw Hab Hl.
  assert (foldr (λ r n, (r.2 - r.1) + n) 0 l = foldr (λ r n, (r.2 - r.1) + n) 0 (occupied l)) as ->.
  { clear Hw. induction Hl as [|r l Hr Hl IH]; [done|]. rewrite filter_cons. simpl.
    case_decide as Ho; simpl; rewrite IH; [done|]. unfold is_occupied in Ho. lia. }
  rewrite <- (total_Permutation _ _ (merge_sort_Permutation range_start_le (occupied l))).
  pose proof (no_window_separated _ (occupied_nonempty l) Hw) as Hs.
  assert (Forall (λ r : range, a ≤ r.1 ∧ r.2 ≤ b) (merge_sort range_start_le (occupied l))) as Hb.
  { rewrite merge_sort_Permutation. apply Forall_forall. intros r [_ Hr]%list_elem_of_filter.
    rewrite Forall_forall in Hl. apply Hl in Hr. lia. }
  destruct (merge_sort range_start_le (occupied l)) as [|r k] eqn:Hm; [simpl; lia|].
  apply (separated_total a); [|by eapply Forall_impl; [exact Hb|]; naive_solver|done].
  eapply separated_weaken; [exact Hs|]. inversion Hb; subst. simpl. lia.
Qed.

(** ** Parsing is safe and sound *)

Lemma starts_with_app prefix l : starts_with prefix (prefix ++ l) = true.
Proof. unfold starts_with. apply bool_decide_eq_true_2, take_app_length. Qed.

Lemma starts_with_inv prefix l : starts_with prefix l = true → ∃ k, l = prefix ++ k.
Proof.
  unfold starts_with. intros H. bool_prop. exists (drop (length prefix) l).
  rewrite <- H at 1. symmetry. apply take_drop.
Qed.

(** The newline is after the prefix and inside the frame. *)
Lemma header_line_end frame i :
  starts_with HEADER_PREFIX frame = true →
  position (λ b, b =? 10) (take (Nat.min (length frame) 128) frame) = Some i →
  3 ≤ Z.of_nat i < len frame.
Proof.
  intros [k ->]%starts_with_inv Hp.
  pose proof (position_Some _ _ _ Hp) as (l1 & x & l2 & Heq & Hl & Hx & _). bool_prop. subst x.
  assert (length l1 < length (take (Nat.min (length (HEADER_PREFIX ++ k)) 128) (HEADER_PREFIX ++ k)))%nat
    by (rewrite Heq, length_app; simpl; lia).
  rewrite length_take in H. split; [|lia].
  destruct i as [|[|[|i]]]; [..|lia]; exfalso;
    (destruct l1 as [|? [|? [|? ?]]]; simpl in Hl; try lia);
    cbn in Heq; simplify_eq.
Qed.

Lemma next_field_no_panic fields : next_field fields ≠ Panic.
Proof. by destruct fields. Qed.

Lemma parse_header_no_panic frame : parse_header frame ≠ Panic.
Proof.
  unfold parse_header, parse_int. no_panic; try apply next_field_no_panic.
  apply or_panic_no_panic. res_inv.
  pose proof (header_line_end frame a0 ltac:(done) ltac:(done)).
  rewrite slice_get_in by (simpl; lia). eauto.
Qed.

Lemma parse_header_ok frame header body_start :
  parse_header frame = Ok (header, body_start) →
  4 ≤ body_start ≤ len frame ∧ unsigned_range 64 (header_column_count header) = true.
Proof.
  unfold parse_header. intros H. cbn zeta in H. unfold next_field, parse_int in H.
  repeat (res_inv_step; simplify_eq/=; repeat case_match; simplify_eq/=).
  match goal with Hs : starts_with _ _ = true, Hp : position _ _ = Some _ |- _ =>
    pose proof (header_line_end _ _ Hs Hp) as Hi end.
  split; [lia|]. simpl. by eapply parse_int_in_range.
Qed.

Lemma read_error_message_no_panic frame offset :
  0 ≤ offset ≤ len frame → read_error_message frame offset ≠ Panic.
Proof. intros. unfold read_error_message. by rewrite slice_get_in by lia. Qed.

Lemma find_error_message_no_panic frame toc_pos :
  8 ≤ len frame → find_error_message frame toc_pos ≠ Panic.
Proof.
  intros Hl. unfold find_error_message. case_match; cbn [mbind option_bind]; [done|].
  unfold usize_try_from. destruct (unsigned_range _ _) eqn:Hu; cbn [mbind option_bind]; [|done].
  destruct (_ && _) eqn:Hb; [|done]. cbn [ok_or mbind res_bind].
  rewrite slice_get_in by lia. cbn [or_panic mbind res_bind].
  apply read_error_message_no_panic. unfold unsigned_range in Hu. bool_prop.
  rewrite length_take, length_drop. lia.
Qed.

Lemma toc_entry_ok body_start toc_pos entry r :
  toc_entry body_start toc_pos entry = Ok r →
  body_start ≤ r.1 ∧ 0 ≤ r.1 ≤ r.2 ∧ r.2 ≤ toc_pos.
Proof.
  unfold toc_entry, column_range, usize_try_from. intros H. res_inv.
  repeat case_match; simplify_eq. res_inv. case_match; simplify_eq/=.
  unfold checked_add, unsigned_range in *. case_match; simplify_eq. bool_prop. lia.
Qed.

(** An entry of sixteen bytes is the start and the length. *)
Lemma toc_entry_words body_start toc_pos entry r :
  length entry = 16%nat → toc_entry body_start toc_pos entry = Ok r →
  r.1 = i_from_le (take 8 entry) ∧ r.2 = r.1 + i_from_le (drop 8 entry).
Proof.
  intros Hl. unfold toc_entry, column_range, usize_try_from. rewrite !slice_get_in by lia. cbn [or_panic mbind res_bind].
  rewrite (take_ge (drop (Z.to_nat 8) entry)) by (rewrite length_drop; lia). change (drop (Z.to_nat 0) entry) with entry.
  change (Z.to_nat (8 - 0)) with 8%nat. change (Z.to_nat 8) with 8%nat. intros H. repeat case_match; simplify_eq. res_inv.
  case_match; simplify_eq/=. unfold checked_add in *. case_match; simplify_eq. done.
Qed.

Lemma toc_entry_no_panic body_start toc_pos entry :
  length entry = 16%nat → toc_entry body_start toc_pos entry ≠ Panic.
Proof.
  intros Hl. unfold toc_entry, column_range.
  rewrite !slice_get_in by lia. cbn [or_panic mbind res_bind]. no_panic.
Qed.

(** What the checks before the table of contents establish. *)
Lemma toc_bounds (frame : bytes) column_count toc_pos toc_len finish :
  checked_mul column_count TOC_ENTRY_SIZE = Some toc_len →
  checked_add toc_pos toc_len = Some finish → checked_add finish 8 = Some (len frame) →
  toc_len = column_count * 16 ∧ toc_pos + toc_len + 8 = len frame.
Proof.
  unfold checked_mul, checked_add, TOC_ENTRY_SIZE. intros.
  repeat (case_match; simplify_eq/=). lia.
Qed.

Lemma toc_chunks (frame toc : bytes) toc_pos column_count :
  0 ≤ column_count →
  slice_get frame toc_pos (toc_pos + column_count * 16) = Some toc →
  length (chunks (Z.to_nat TOC_ENTRY_SIZE) toc) = Z.to_nat column_count ∧
  Forall (λ c, length c = 16%nat) (chunks (Z.to_nat TOC_ENTRY_SIZE) toc).
Proof.
  intros Hc (? & ? & Hl & _)%slice_get_Some.
  destruct (chunks_spec (Z.to_nat TOC_ENTRY_SIZE) (Z.to_nat column_count) toc)
    as (_ & H1 & H2); [unfold TOC_ENTRY_SIZE; lia..|done].
Qed.

(** A table of contents whose entries are inside the body and disjoint. *)
Definition toc_sound (body_start toc_pos : Z) (ranges : list range) : Prop :=
  Forall (λ r, body_start ≤ r.1 ∧ r.1 ≤ r.2 ∧ r.2 ≤ toc_pos) ranges ∧
  ∀ x, (covers x ranges ≤ 1)%nat.

Lemma toc_entries_ok body_start toc_pos entries ranges :
  map_res (toc_entry body_start toc_pos) entries = Ok ranges →
  Forall (λ r, body_start ≤ r.1 ∧ r.1 ≤ r.2 ∧ r.2 ≤ toc_pos) ranges ∧
  length ranges = length entries.
Proof.
  intros H. split; [|by eapply mapi_res_length].
  apply map_res_ok in H. induction H as [|? r ? ? Hr]; constructor; [|done].
  apply toc_entry_ok in Hr. lia.
Qed.

Lemma toc_entries_words frame toc body_start toc_pos n ranges :
  0 ≤ n → slice_get frame toc_pos (toc_pos + n * 16) = Some toc →
  map_res (toc_entry body_start toc_pos) (chunks (Z.to_nat TOC_ENTRY_SIZE) toc) = Ok ranges →
  ranges_of_toc frame toc_pos ranges.
Proof.
  intros Hn Ht Hr i r Hi. destruct (toc_chunks _ _ _ _ Hn Ht) as [Hlen Hall].
  apply slice_get_Some in Ht as (H0 & _ & _ & ->). apply map_res_ok in Hr.
  destruct (Forall2_lookup_r _ _ _ _ _ Hr Hi) as (c & Hc & He). pose proof (lookup_lt_Some _ _ _ Hc) as Hlt.
  rewrite Forall_lookup in Hall. pose proof (Hall _ _ Hc) as H16. apply toc_entry_words in He as [H1 H2]; [|done].
  apply chunks_exact_lookup in Hc. unfold TOC_ENTRY_SIZE in *. change (Z.to_nat 16) with 16%nat in *. rewrite Hlen in Hlt.
  assert (∀ k, (k ≤ 8)%nat → take 8 (drop k c) = take 8 (drop (Z.to_nat (toc_pos + 16 * Z.of_nat i + Z.of_nat k)) frame)) as Hw.
  { intros k Hk. rewrite Hc, skipn_firstn_comm, take_take, skipn_firstn_comm, drop_drop, skipn_firstn_comm, take_take, drop_drop.
    f_equal; [lia|f_equal; lia]. }
  unfold word_at. rewrite H2, H1. split; [|f_equal; f_equal].
  - f_equal. rewrite <- (drop_0 c) at 1. rewrite Hw by lia. f_equal. f_equal. lia.
  - change 8 with (Z.of_nat 8). rewrite <- (Hw 8%nat) by lia. rewrite take_ge; [done|]. rewrite length_drop. lia.
Qed.

(** The sizes of the column slices add up like the ranges they come from. *)
Lemma columns_total (frame : bytes) (ranges : list range) (columns : list bytes) :
  Forall2 (λ r c, slice_get frame r.1 r.2 = Some c) ranges columns →
  len (concat columns) = foldr (λ r n, (r.2 - r.1) + n) 0 ranges.
Proof.
  induction 1 as [|r c ranges columns Hc Hl IH]; simpl; [done|].
  apply slice_get_Some in Hc as (_ & _ & Hc & _). rewrite length_app. lia.
Qed.

(** What a successful parse has checked. *)
Lemma parse_frame_ranges_inv frame header ranges :
  parse_frame_ranges frame = Ok (header, ranges) →
  ∃ body_start toc_pos,
    parse_header frame = Ok (header, body_start) ∧
    4 ≤ body_start ≤ toc_pos ∧
    toc_pos = word_at frame (len frame - 8) ∧ ranges_of_toc frame toc_pos ranges ∧
    toc_pos + header_column_count header * 16 + 8 = len frame ∧
    len ranges = header_column_count header ∧
    Forall (λ r, body_start ≤ r.1 ∧ r.1 ≤ r.2 ∧ r.2 ≤ toc_pos) ranges ∧
    ranges_overlap ranges = false.
Proof.
  unfold parse_frame_ranges. intros H. case_match; [by res_inv|]. case_match; [done|].
  apply bind_ok in H as ([header' body_start] & Hh & H).
  apply bind_ok in H as (trailer & Ht & H). cbn zeta in H. case_match; [by res_inv|].
  apply bind_ok in H as (toc_pos & Hp & H). apply bind_ok in H as (toc_len & Hm & H).
  case_match eqn:Hc; [done|]. bool_prop.
  match goal with H : _ = Some (len frame) |- _ => apply bind_Some in H as (finish & ? & ?) end.
  apply bind_ok in H as (toc & Htoc & H). apply bind_ok in H as (ranges' & Hr & H).
  case_match eqn:Ho; [done|]. injection H as <- <-.
  apply ok_or_ok in Hp, Hm. apply or_panic_ok in Htoc.
  destruct (parse_header_ok _ _ _ Hh) as [Hbs Hcc]. unfold unsigned_range in Hcc. bool_prop.
  destruct (toc_bounds frame _ _ _ _ ltac:(eassumption) ltac:(eassumption) ltac:(eassumption)) as [-> Hend].
  destruct (toc_chunks frame toc _ _ ltac:(eassumption) ltac:(eassumption)) as [Hn _].
  destruct (toc_entries_ok _ _ _ _ Hr) as [Hin Hlen]. pose proof (toc_entries_words _ _ _ _ _ _ ltac:(eassumption) Htoc Hr).
  assert (toc_pos = word_at frame (len frame - 8)).
  { unfold usize_try_from in Hp. case_match; [|done]. injection Hp as <-. apply or_panic_ok in Ht.
    apply slice_get_Some in Ht as (_ & _ & _ & ->). unfold word_at. do 2 f_equal. lia. }
  exists body_start, toc_pos. split_and!; try done; lia.
Qed.

(** The ranges of a parsed frame can be sliced. *)
Lemma parse_frame_ranges_slices frame header ranges r :
  parse_frame_ranges frame = Ok (header, ranges) → r ∈ ranges →
  ∃ c, slice_get frame r.1 r.2 = Some c.
Proof.
  intros (bs & tp & _ & ? & _ & _ & ? & ? & Hin & _)%parse_frame_ranges_inv Hr.
  rewrite Forall_forall in Hin. apply Hin in Hr. rewrite slice_get_in by lia. eauto.
Qed.

Lemma parse_frame_inv frame p :
  parse_frame frame = Ok p →
  ∃ header ranges,
    parse_frame_ranges frame = Ok (header, ranges) ∧
    Forall2 (λ r c, slice_get frame r.1 r.2 = Some c) ranges (frame_columns p) ∧
    p = mkFrame (header_result_id header) (header_row_count header)
          (header_start_row header) (frame_columns p).
Proof.
  unfold parse_frame. intros H. apply bind_ok in H as ([header ranges] & Hr & H).
  apply bind_ok in H as (columns & Hcol & H). injection H as <-.
  exists header, ranges. split_and!; [done| |done].
  apply map_res_ok in Hcol. eapply Forall2_impl; [exact Hcol|].
  intros r c Hrc. simpl in Hrc. by res_inv.
Qed.

(** C25. A response that parses is cut as its table of contents says: the
    position of the table is the little-endian word in the last eight bytes of the
    frame; the table has one entry per column of the header line and ends eight
    bytes before the frame does; column [i] is the slice of the frame whose start
    and length are the two words of entry [i], at [16 * i] and [16 * i + 8] of the
    table; every slice lies between
    the header line and the table of contents; no byte belongs to two
    columns; the columns together are no longer than that body, so
    decoding cannot read outside the response or amplify it; and the rest of the
    frame's data is the header line's. *)
Theorem parse_frame_sound frame p :
  parse_frame frame = Ok p →
  ∃ header body_start toc_pos ranges,
    parse_header frame = Ok (header, body_start) ∧
    frame_result_id p = header_result_id header ∧ frame_row_count p = header_row_count header ∧
    frame_start_row p = header_start_row header ∧
    toc_pos = word_at frame (len frame - 8) ∧
    toc_pos + 16 * len (frame_columns p) + 8 = len frame ∧
    len (frame_columns p) = header_column_count header ∧
    ranges_of_toc frame toc_pos ranges ∧
    Forall2 (λ r c, slice_get frame r.1 r.2 = Some c) ranges (frame_columns p) ∧
    toc_sound body_start toc_pos ranges ∧
    len (concat (frame_columns p)) ≤ toc_pos - body_start.
Proof.
  intros H. destruct (parse_frame_inv _ _ H) as (header & ranges & Hr & Hcol & Hp).
  destruct (parse_frame_ranges_inv _ _ _ Hr)
    as (body_start & toc_pos & Hh & Hb & Hpos & Htoc & Hend & Hn & Hin & Ho).
  pose proof (Forall2_length _ _ _ Hcol) as Hlen.
  exists header, body_start, toc_pos, ranges. split_and!; try done; try lia; try (by rewrite Hp).
  - split; [done|]. by apply ranges_overlap_spec.
  - rewrite (columns_total _ _ _ Hcol). apply ranges_total; [done|lia|done].
Qed.

Lemma parse_frame_ranges_no_panic frame : parse_frame_ranges frame ≠ Panic.
Proof.
  unfold parse_frame_ranges; no_panic; try apply parse_header_no_panic;
    try (apply read_error_message_no_panic; lia).
  all: bool_prop; unfold HEADER_PREFIX in *; simpl in *.
  - apply or_panic_no_panic. rewrite slice_get_in by lia. eauto.
  - apply find_error_message_no_panic. lia.
  - apply or_panic_no_panic. res_inv.
    destruct (parse_header_ok _ _ _ ltac:(eassumption)) as [? Hc].
    unfold unsigned_range in Hc. bool_prop.
    destruct (toc_bounds frame _ _ _ _ ltac:(eassumption) ltac:(eassumption) ltac:(eassumption)) as [-> ?].
    rewrite slice_get_in by lia. eauto.
  - res_inv. destruct (parse_header_ok _ _ _ ltac:(eassumption)) as [? Hc].
    unfold unsigned_range in Hc. bool_prop.
    destruct (toc_bounds frame _ _ _ _ ltac:(eassumption) ltac:(eassumption) ltac:(eassumption)) as [-> ?].
    destruct (toc_chunks frame _ _ _ ltac:(eassumption) ltac:(eassumption)) as [_ Hl].
    apply mapi_res_no_panic. intros _ entry He. apply toc_entry_no_panic.
    rewrite Forall_forall in Hl. by apply Hl.
Qed.

(** Whatever bytes arrive, parsing them ends in a frame or in an error: no
    slice, index or [expect] of the parser can fail. *)
Lemma parse_frame_no_panic frame : parse_frame frame ≠ Panic.
Proof.
  unfold parse_frame. no_panic; try apply parse_frame_ranges_no_panic.
  apply mapi_res_no_panic. intros _ r Hr. apply or_panic_no_panic. subst.
  by eapply parse_frame_ranges_slices.
Qed.

Lemma parse_frame_header_no_panic frame : parse_frame_header frame ≠ Panic.
Proof.
  unfold parse_frame_header. no_panic; try apply parse_header_no_panic.
  apply read_error_message_no_panic; lia.
Qed.

(** ** What a writer lays out parses back *)

Lemma position_newline (line rest : bytes) :
  Forall (λ b, b ≠ 10) line → (length line < 128)%nat →
  position (λ b, b =? 10)
    (take (Nat.min (length (line ++ 10 :: rest)) 128) (line ++ 10 :: rest)) =
  Some (length line).
Proof.
  intros Hl Hn. rewrite length_app. simpl.
  rewrite take_app_ge by lia.
  destruct (Nat.min (length line + S (length rest)) 128 - length line)%nat eqn:Hk; [lia|].
  simpl. apply position_app_r; [|done].
  eapply Forall_impl; [exact Hl|]. simpl. intros b Hb. lia.
Qed.

(** The text of the header line between the prefix and the newline. *)
Definition header_text (result_id column_count row_count start_row : Z) : bytes :=
  fmt_int result_id ++ 32 :: (fmt_int column_count ++ 32 ::
    (fmt_int row_count ++ 32 :: fmt_int start_row)).

Lemma header_line_text id cc rc sr :
  header_line id cc rc sr = HEADER_PREFIX ++ header_text id cc rc sr ++ [10].
Proof.
  unfold header_line, header_text, HEADER_PREFIX.
  repeat first [rewrite <- app_assoc | rewrite <- app_comm_cons]. reflexivity.
Qed.

Lemma header_text_bytes id cc rc sr :
  Forall (λ b, 48 ≤ b ≤ 57 ∨ b = 45 ∨ b = 32) (header_text id cc rc sr).
Proof.
  assert (∀ z, Forall (λ b, 48 ≤ b ≤ 57 ∨ b = 45 ∨ b = 32) (fmt_int z)) as Hf.
  { intros z. eapply Forall_impl; [apply fmt_int_bytes|]. simpl. lia. }
  unfold header_text. repeat (apply Forall_app; split; [apply Hf|]; constructor; [lia|]). apply Hf.
Qed.

Lemma length_header_text id cc rc sr :
  signed_range 64 id = true → unsigned_range 64 cc = true →
  unsigned_range 64 rc = true → unsigned_range 64 sr = true →
  (length (header_text id cc rc sr) < 124)%nat.
Proof.
  unfold signed_range, unsigned_range, header_text. intros. bool_prop.
  pose proof (length_fmt_int id). pose proof (length_fmt_int cc).
  pose proof (length_fmt_int rc). pose proof (length_fmt_int sr).
  repeat (rewrite length_app; simpl). lia.
Qed.

(** The header a writer puts in front is the one the parser reads. *)
Lemma parse_header_line id cc rc sr rest :
  signed_range 64 id = true → unsigned_range 64 cc = true →
  unsigned_range 64 rc = true → unsigned_range 64 sr = true →
  parse_header (header_line id cc rc sr ++ rest) =
  Ok (mkHeader id cc rc sr, len (header_line id cc rc sr)).
Proof.
  intros Hid Hcc Hrc Hsr.
  pose proof (header_text_bytes id cc rc sr) as Hb.
  pose proof (length_header_text _ _ _ _ Hid Hcc Hrc Hsr) as Hl.
  rewrite header_line_text. set (text := header_text id cc rc sr) in *.
  replace ((HEADER_PREFIX ++ text ++ [10]) ++ rest) with ((HEADER_PREFIX ++ text) ++ 10 :: rest)
    by by rewrite <- !(assoc_L (++)).
  unfold parse_header. rewrite <- (assoc_L (++)), starts_with_app, (assoc_L (++)).
  cbn [ensure mbind res_bind].
  rewrite position_newline; [|apply Forall_app; split|rewrite length_app; simpl; lia];
    [|by repeat constructor|eapply Forall_impl; [exact Hb|]; simpl; lia].
  cbn [ok_or mbind res_bind]. rewrite <- (assoc_L (++)).
  rewrite (slice_get_app HEADER_PREFIX text) by (rewrite ?length_app; lia).
  cbn [or_panic mbind res_bind].
  rewrite utf8_valid_ascii by (eapply Forall_impl; [exact Hb|]; simpl; lia).
  cbn [ensure mbind res_bind]. unfold text, header_text.
  rewrite !split_word_space, split_word by apply fmt_int_word.
  cbn [next_field mbind res_bind].
  unfold parse_int. rewrite parse_i64_fmt, !parse_u64_fmt by done.
  cbn [ok_or mbind res_bind next_field]. f_equal. f_equal.
  rewrite !length_app. unfold text, header_text. simpl. lia.
Qed.

Lemma slice_get_prefix {A} (l k s : list A) a b :
  slice_get l a b = Some s → slice_get (l ++ k) a b = Some s.
Proof.
  intros H. pose proof (slice_get_Some _ _ _ _ H) as (Ha & Hb & _ & ->).
  rewrite slice_get_in by (rewrite ?length_app; lia). f_equal.
  rewrite drop_app_le by lia. apply take_app_le. rewrite length_drop. lia.
Qed.

(** The range a table-of-contents entry names. *)
Definition entry_range (e : Z * Z) : range := (e.1, e.1 + e.2).

Lemma place_columns_spec frame columns result toc :
  place_columns frame columns = (result, toc) →
  (∃ rest, result = frame ++ rest) ∧
  Forall2 (λ e c, slice_get result e.1 (e.1 + e.2) = Some c) toc columns ∧
  separated (len frame) (entry_range <$> toc) ∧
  Forall (λ e, 0 ≤ e.2 ∧ e.1 + e.2 ≤ len result) toc.
Proof.
  revert frame result toc; induction columns as [|c columns IH]; intros frame result toc H; simpl in H.
  { simplify_eq. split_and!; [by exists []; rewrite app_nil_r|constructor..]. }
  destruct (place_columns (pad32 frame ++ c) columns) as [r t] eqn:Hp. simplify_eq.
  destruct (IH _ _ _ Hp) as ([rest ->] & Hs & Hsep & Hb).
  set (pad := pad32 frame) in *.
  assert (len frame ≤ len pad) by (unfold pad, pad32; rewrite length_app; lia).
  split_and!.
  - unfold pad, pad32. exists (replicate (Z.to_nat ((- len frame) mod 32)) 0 ++ c ++ rest).
    by rewrite <- !(assoc_L (++)).
  - constructor; [|done]. simpl. rewrite <- (assoc_L (++)). apply slice_get_app; lia.
  - simpl. constructor; simpl; [lia..|]. eapply separated_weaken; [exact Hsep|].
    rewrite length_app. lia.
  - constructor; [|done]. simpl. rewrite !length_app. lia.
Qed.

Lemma pad32_prefix frame : ∃ rest, pad32 frame = frame ++ rest.
Proof. eexists. reflexivity. Qed.

Lemma length_toc_bytes toc : len (toc_bytes toc) = 16 * len toc.
Proof.
  unfold toc_bytes. rewrite (length_concat_const 16); [rewrite length_fmap; lia|].
  apply Forall_fmap, Forall_true. intros e. unfold compose.
  by rewrite length_app, !length_to_le_bytes.
Qed.

Lemma toc_entry_bytes body_start toc_pos e :
  body_start ≤ e.1 → 0 ≤ e.1 → 0 ≤ e.2 → e.1 + e.2 ≤ toc_pos → toc_pos ≤ isize_max →
  toc_entry body_start toc_pos (to_le_bytes 8 e.1 ++ to_le_bytes 8 e.2) = Ok (entry_range e).
Proof.
  intros H1 H2 H3 H4 H5. unfold isize_max in H5. unfold toc_entry.
  set (l1 := to_le_bytes 8 e.1). set (l2 := to_le_bytes 8 e.2).
  assert (len l1 = 8 ∧ len l2 = 8) as [Hl1 Hl2] by (unfold l1, l2; by rewrite !length_to_le_bytes).
  assert (slice_get (l1 ++ l2) 0 8 = Some l1) as -> by (apply (slice_get_app [] l1 l2); simpl; lia).
  assert (slice_get (l1 ++ l2) 8 (len (l1 ++ l2)) = Some l2) as ->.
  { rewrite <- (app_nil_r l2) at 1. apply (slice_get_app l1 l2 []); rewrite ?length_app; lia. }
  unfold l1, l2.
  cbn [or_panic mbind res_bind].
  rewrite !i64_le by range_lia.
  unfold column_range, usize_try_from, unsigned_range.
  rewrite !(proj2 (Z.leb_le 0 _)), !(proj2 (Z.ltb_lt _ _)) by lia. simpl.
  unfold checked_add, usize_max. rewrite (proj2 (Z.leb_le _ _)) by lia. simpl.
  rewrite !(proj2 (Z.ltb_ge _ _)) by lia. done.
Qed.

Lemma toc_entries_bytes body_start toc_pos toc :
  separated body_start (entry_range <$> toc) → 0 ≤ body_start →
  Forall (λ e, 0 ≤ e.2 ∧ e.1 + e.2 ≤ toc_pos) toc → toc_pos ≤ isize_max →
  map_res (toc_entry body_start toc_pos) (chunks (Z.to_nat TOC_ENTRY_SIZE) (toc_bytes toc)) =
  Ok (entry_range <$> toc).
Proof.
  intros Hsep H0 Hb Hm. unfold toc_bytes.
  rewrite chunks_concat; [|unfold TOC_ENTRY_SIZE; lia|].
  - apply map_res_ok, Forall2_fmap_l, Forall2_fmap_r.
    enough (∀ b, body_start ≤ b → separated b (entry_range <$> toc) →
      Forall2 (λ x y, toc_entry body_start toc_pos (to_le_bytes 8 x.1 ++ to_le_bytes 8 x.2)
                      = Ok (entry_range y)) toc toc) as Hg by by apply (Hg body_start).
    clear Hsep. induction Hb as [|e toc He Hb IH]; intros b Hbs Hsep; [constructor|].
    inversion Hsep; subst. simpl in *. constructor; [apply toc_entry_bytes; lia|].
    eapply (IH (e.1 + e.2)); [lia|done].
  - apply Forall_fmap, Forall_true. intros e. unfold compose.
    by rewrite length_app, !length_to_le_bytes.
Qed.

(** A body, a table of contents and the trailer that points at it. *)
Lemma parse_frame_intro body toc header body_start ranges columns :
  let frame := body ++ toc ++ to_le_bytes 8 (len body) in
  len frame ≤ isize_max → head body = Some 38 → 3 ≤ body_start ≤ len body →
  parse_header frame = Ok (header, body_start) →
  len toc = 16 * header_column_count header →
  map_res (toc_entry body_start (len body)) (chunks (Z.to_nat TOC_ENTRY_SIZE) toc) = Ok ranges →
  ranges_overlap ranges = false →
  Forall2 (λ r c, slice_get frame r.1 r.2 = Some c) ranges columns →
  parse_frame frame =
  Ok (mkFrame (header_result_id header) (header_row_count header) (header_start_row header) columns).
Proof.
  intros frame Hmax Hhd Hbs Hh Htoc Hr Ho Hcol. unfold isize_max in Hmax.
  set (tail := to_le_bytes 8 (len body)) in *.
  assert (len tail = 8) as Htail by (unfold tail; by rewrite length_to_le_bytes).
  assert (len frame = len body + 16 * header_column_count header + 8) as Hlen
    by (unfold frame; rewrite !length_app; lia).
  assert (head frame = Some 38) as Hhd' by (unfold frame; destruct body; done).
  assert (slice_get frame (len frame - 8) (len frame) = Some tail) as Hs1.
  { rewrite Hlen. unfold frame. rewrite <- (app_nil_r tail), !(assoc_L (++)), <- (assoc_L (++) _ tail).
    apply (slice_get_app (body ++ toc) tail []); rewrite ?length_app; lia. }
  assert (slice_get frame (len body) (len body + header_column_count header * 16) = Some toc) as Hs2
    by (apply slice_get_app; lia).
  assert (i_from_le tail = len body) as Hi.
  { apply i64_le. range_lia. }
  unfold parse_frame, parse_frame_ranges.
  rewrite Hhd', bool_decide_eq_false_2 by done. rewrite Hs1, Hh.
  rewrite (proj2 (Z.ltb_ge _ _)) by (unfold HEADER_PREFIX; simpl; lia).
  cbn [or_panic mbind res_bind]. rewrite Hi, (proj2 (Z.ltb_ge _ _)) by lia.
  unfold usize_try_from, unsigned_range, checked_mul, checked_add, usize_max, TOC_ENTRY_SIZE in *.
  rewrite (proj2 (Z.leb_le 0 _)), (proj2 (Z.ltb_lt (len body) _)) by lia.
  cbn [andb ok_or mbind res_bind]. rewrite (proj2 (Z.leb_le (_ * 16) _)) by lia.
  cbn [ok_or mbind res_bind]. rewrite (proj2 (Z.leb_le (len body + _) _)) by lia.
  cbn [mbind option_bind]. rewrite (proj2 (Z.leb_le (_ + 8) _)) by lia.
  rewrite bool_decide_eq_true_2 by (f_equal; lia).
  rewrite (proj2 (Z.ltb_ge (_ / _) _)) by (apply Z.div_le_lower_bound; lia).
  rewrite (proj2 (Z.ltb_ge (len body) _)) by lia. cbn [orb negb].
  rewrite Hs2. cbn [or_panic mbind res_bind]. rewrite Hr. cbn [mbind res_bind]. rewrite Ho.
  assert (map_res (λ r : range, or_panic (E := FrameError) (slice_get frame r.1 r.2)) ranges
          = Ok columns) as Hslices.
  { apply map_res_ok. eapply Forall2_impl; [exact Hcol|]. by intros r c ->. }
  cbn. by rewrite Hslices.
Qed.

(** A frame laid out the way the server does (header line, 32-byte-aligned
    columns, table of contents, trailer) parses to exactly its header fields
    and its columns, whatever the columns hold. *)
Theorem parse_build_frame result_id row_count start_row columns :
  signed_range 64 result_id = true → unsigned_range 64 row_count = true →
  unsigned_range 64 start_row = true →
  len (build_frame result_id row_count start_row columns) ≤ isize_max →
  parse_frame (build_frame result_id row_count start_row columns) =
  Ok (mkFrame result_id row_count start_row columns).
Proof.
  intros Hid Hrc Hsr. unfold build_frame.
  destruct (place_columns _ columns) as [f toc] eqn:Hp.
  destruct (place_columns_spec _ _ _ _ Hp) as ([rest ->] & Hcols & Hsep & Hb).
  set (line := header_line result_id (len columns) row_count start_row) in *.
  destruct (pad32_prefix (line ++ rest)) as [zeros Hz]. rewrite Hz. intros Hmax.
  pose proof (Forall2_length _ _ _ Hcols) as Htoc.
  assert (line = HEADER_PREFIX ++ header_text result_id (len columns) row_count start_row ++ [10])
    as Hline by apply header_line_text.
  assert (3 ≤ len line) by (rewrite Hline, length_app; unfold HEADER_PREFIX; simpl; lia).
  apply (parse_frame_intro ((line ++ rest) ++ zeros) (toc_bytes toc)
           (mkHeader result_id (len columns) row_count start_row) (len line) (entry_range <$> toc)).
  - done.
  - by rewrite Hline.
  - rewrite !length_app. lia.
  - rewrite <- !(assoc_L (++)). apply parse_header_line; try done.
    unfold unsigned_range, isize_max in *. rewrite !length_app, !Nat2Z.inj_add in Hmax.
    rewrite length_toc_bytes in Hmax. lia.
  - rewrite length_toc_bytes. simpl. lia.
  - apply toc_entries_bytes; [done|lia|..].
    + eapply Forall_impl; [exact Hb|]. simpl. intros e He. rewrite (length_app _ zeros). lia.
    + rewrite (length_app (_ ++ zeros)) in Hmax. lia.
  - apply ranges_overlap_spec. intros. by eapply separated_covers_le.
  - apply Forall2_fmap_l. eapply Forall2_impl; [exact Hcols|]. intros e c He.
    unfold entry_range. cbn [fst snd]. rewrite <- (assoc_L (++)). by apply slice_get_prefix.
Qed.

Lemma parse_build_frame_witness :
  parse_frame (build_frame 7 3 100 [to_le_bytes 4 42; str "foo"; []]) =
  Ok (mkFrame 7 3 100 [to_le_bytes 4 42; str "foo"; []]).
Proof. by apply (parse_build_frame 7 3 100 [to_le_bytes 4 42; str "foo"; []]). Defined.

Lemma parse_frame_sound_witness :
  ∃ header body_start toc_pos ranges,
    parse_header (build_frame 7 3 100 [to_le_bytes 4 42; str "foo"]) = Ok (header, body_start) ∧
    7 = header_result_id header ∧ 3 = header_row_count header ∧ 100 = header_start_row header ∧
    toc_pos = word_at (build_frame 7 3 100 [to_le_bytes 4 42; str "foo"])
                (len (build_frame 7 3 100 [to_le_bytes 4 42; str "foo"]) - 8) ∧
    toc_pos + 16 * 2 + 8 = len (build_frame 7 3 100 [to_le_bytes 4 42; str "foo"]) ∧
    2 = header_column_count header ∧
    ranges_of_toc (build_frame 7 3 100 [to_le_bytes 4 42; str "foo"]) toc_pos ranges ∧
    Forall2 (λ r c, slice_get (build_frame 7 3 100 [to_le_bytes 4 42; str "foo"]) r.1 r.2 = Some c)
      ranges [to_le_bytes 4 42; str "foo"] ∧
    toc_sound body_start toc_pos ranges ∧ 7 ≤ toc_pos - body_start.
Proof.
  apply (parse_frame_sound (build_frame 7 3 100 [to_le_bytes 4 42; str "foo"])
           (mkFrame 7 3 100 [to_le_bytes 4 42; str "foo"])).
  vm_compute. reflexivity.
Defined.

(** ** Errors the server reports inside a frame *)

Lemma read_error_message_app before message rest :
  Forall (λ b, b ≠ 0) message →
  read_error_message (before ++ 33 :: message ++ 0 :: rest) (len before) =
  Ok (from_utf8_lossy message).
Proof.
  intros Hm. unfold read_error_message.
  rewrite slice_get_in by (rewrite length_app; simpl; lia).
  rewrite Nat2Z.id, drop_app_length, take_ge.
  2:{ simpl. rewrite !length_app. simpl. rewrite length_app. simpl. lia. }
  cbn [or_panic mbind res_bind]. rewrite app_comm_cons.
  rewrite position_app_r; [|constructor; [done|]; eapply Forall_impl; [exact Hm|]; simpl; lia|done].
  cbn [from_option id]. rewrite take_app_length. unfold strip_prefix, starts_with.
  by rewrite bool_decide_eq_true_2.
Qed.

(** A negative trailer behind a well-formed header line leads to the message lookup. *)
Lemma parse_frame_negative_trailer id cc rc sr body offset :
  let frame := header_line id cc rc sr ++ body in
  signed_range 64 id = true → unsigned_range 64 cc = true →
  unsigned_range 64 rc = true → unsigned_range 64 sr = true → 0 < offset ≤ isize_max →
  parse_frame (frame ++ to_le_bytes 8 (- offset)) =
  (text ← find_error_message (frame ++ to_le_bytes 8 (- offset)) (- offset); Err (Server text)).
Proof.
  intros frame Hid Hcc Hrc Hsr Ho. unfold parse_frame, parse_frame_ranges.
  assert (4 ≤ len frame) as Hline.
  { unfold frame. rewrite header_line_text, !length_app. unfold HEADER_PREFIX. simpl. lia. }
  assert (head (frame ++ to_le_bytes 8 (- offset)) = Some 38) as ->
    by (unfold frame; by rewrite header_line_text).
  rewrite bool_decide_eq_false_2 by done. rewrite length_app, length_to_le_bytes.
  rewrite (proj2 (Z.ltb_ge _ _)) by (unfold HEADER_PREFIX; simpl; lia).
  assert (parse_header (frame ++ to_le_bytes 8 (- offset)) =
    Ok (mkHeader id cc rc sr, len (header_line id cc rc sr))) as ->.
  { unfold frame. rewrite <- !(assoc_L (++)). by apply parse_header_line. }
  cbn [mbind res_bind]. rewrite <- (app_nil_r (to_le_bytes 8 (- offset))) at 1.
  rewrite (slice_get_app frame (to_le_bytes 8 (- offset)) [])
    by (rewrite ?length_to_le_bytes; lia).
  cbn [or_panic mbind res_bind]. rewrite i64_le by range_lia.
  rewrite (proj2 (Z.ltb_lt _ _)) by lia. by destruct (find_error_message _ _).
Qed.

(** The message lookup, by what the frame holds at the offset. *)
Lemma find_error_message_at frame trailer offset :
  0 < offset ≤ isize_max → length trailer = 8%nat →
  find_error_message (frame ++ trailer) (- offset) =
  if bool_decide (frame !! Z.to_nat offset = Some 33) then read_error_message frame offset
  else Err (Malformed "invalid in-frame error offset").
Proof.
  intros Ho Ht. unfold find_error_message.
  rewrite (proj2 (Z.eqb_neq _ _)) by range_lia. cbn [mbind option_bind].
  rewrite Z.opp_involutive. unfold usize_try_from.
  assert (unsigned_range 64 offset = true) as -> by range_lia.
  cbn [mbind option_bind]. rewrite length_app, Ht.
  destruct (Z.ltb_spec offset (Z.of_nat (length frame + 8) - 8)) as [Hlt|Hge].
  - rewrite lookup_app_l by lia. cbn [andb].
    case_bool_decide; [|done]. cbn [ok_or mbind res_bind].
    assert (slice_get (frame ++ trailer) 0 (Z.of_nat (length frame + 8) - 8) = Some frame) as ->
      by (apply (slice_get_app [] frame trailer); simpl; lia). done.
  - cbn [andb]. rewrite (lookup_ge_None_2 frame) by lia. by rewrite bool_decide_eq_false_2.
Qed.

(** A negative trailer points at the server's message: a response whose
    trailer is minus the offset of a [!]-prefixed, NUL-terminated text inside
    the frame is reported as that text, lossily decoded, and never as data;
    a trailer that points at anything else is a malformed frame. *)
Theorem parse_frame_in_frame_error id cc rc sr body message rest :
  let before := header_line id cc rc sr ++ body in
  let frame := before ++ 33 :: message ++ 0 :: rest in
  signed_range 64 id = true → unsigned_range 64 cc = true →
  unsigned_range 64 rc = true → unsigned_range 64 sr = true →
  Forall (λ b, b ≠ 0) message → len frame ≤ isize_max - 8 →
  parse_frame (frame ++ to_le_bytes 8 (- len before)) = Err (Server (from_utf8_lossy message)) ∧
  ∀ offset, 0 < offset ≤ isize_max → frame !! Z.to_nat offset ≠ Some 33 →
    parse_frame (frame ++ to_le_bytes 8 (- offset)) =
    Err (Malformed "invalid in-frame error offset").
Proof.
  intros before frame Hid Hcc Hrc Hsr Hm Hmax.
  assert (0 < len before < len frame) as Hlen.
  { unfold frame, before. rewrite header_line_text, !length_app. unfold HEADER_PREFIX. simpl. lia. }
  assert (frame = header_line id cc rc sr ++ (body ++ 33 :: message ++ 0 :: rest)) as Hf
    by (unfold frame, before; by rewrite <- (assoc_L (++))).
  pose proof (λ offset, parse_frame_negative_trailer id cc rc sr
    (body ++ 33 :: message ++ 0 :: rest) offset Hid Hcc Hrc Hsr) as Hneg.
  cbn zeta in Hneg. rewrite <- Hf in Hneg.
  split; [|intros offset Ho Hb]; rewrite Hneg, find_error_message_at by (done || range_lia).
  - assert (frame !! Z.to_nat (len before) = Some 33) as Hb
      by (rewrite Nat2Z.id; by apply list_lookup_middle).
    rewrite bool_decide_eq_true_2 by done. unfold frame. by rewrite read_error_message_app.
  - by rewrite bool_decide_eq_false_2.
Qed.

Lemma parse_frame_in_frame_error_witness :
  parse_frame (((header_line 1 1 0 0 ++ []) ++ 33 :: str "wrong" ++ [0]) ++ to_le_bytes 8 (-11)) =
    Err (Server (from_utf8_lossy (str "wrong"))) ∧
  parse_frame (((header_line 1 1 0 0 ++ []) ++ 33 :: str "wrong" ++ [0]) ++ to_le_bytes 8 (-1)) =
    Err (Malformed "invalid in-frame error offset").
Proof.
  destruct (parse_frame_in_frame_error 1 1 0 0 [] (str "wrong") []) as [H1 H2];
    [done..|by repeat constructor|done|].
  split; [exact H1|]. apply (H2 1); done.
Defined.
