(* ===== verification/Calendar.v ===== *)
(** Dates: the validity test and the day count of [decode.rs]
    ([valid_ymd], [days_from_civil]) and the interface to the calendar library
    behind [wire::date_from_unix_days].

    The library is outside the repository; the class [Chrono] states what its
    documentation promises of it (a proleptic Gregorian calendar over a fixed
    range of years), and [calendar_chrono] is an executable instance. *)

From stdpp Require Import base list numbers.
From Stdlib Require Import ZArith Zquot Lia.
From S2P Require Import Prelude RustStd.
Local Open Scope Z_scope.

(** A civil date: year, month, day. *)
Record date : Type := mkDate { year : Z; month : Z; day : Z }.

#[global] Instance date_eq_dec : EqDecision date.
Proof. solve_decision. Defined.

Definition DAYS_PER_MONTH : list Z := [31; 28; 31; 30; 31; 30; 31; 31; 30; 31; 30; 31].

Definition is_leap (year : Z) : bool :=
  ((Z.rem year 4 =? 0) && negb (Z.rem year 100 =? 0)) || (Z.rem year 400 =? 0).

(** The length of a month, [None] when the month does not exist. *)
Definition last_day (year month : Z) : option Z :=
  if (month =? 2) && is_leap year then Some 29
  else if 1 <=? month then DAYS_PER_MONTH !! Z.to_nat (month - 1) else None.

Definition valid_ymd (year month day : Z) : bool :=
  if negb ((1 <=? month) && (month <=? 12)) || (day =? 0) then false
  else match last_day year month with Some last => day <=? last | None => false end.

(** Integer division and remainder truncate, as in the source. *)
Definition days_from_civil (year month day : Z) : Z :=
  let year := if month <=? 2 then year - 1 else year in
  let era := Z.quot (if 0 <=? year then year else year - 399) 400 in
  let year_of_era := year - era * 400 in
  let shifted_month := if 2 <? month then month - 3 else month + 9 in
  let day_of_year := Z.quot (153 * shifted_month + 2) 5 + day - 1 in
  let day_of_era :=
    year_of_era * 365 + Z.quot year_of_era 4 - Z.quot year_of_era 100 + day_of_year in
  era * 146097 + day_of_era - 719468.

Definition date_days (d : date) : Z := days_from_civil (year d) (month d) (day d).
Definition date_valid (d : date) : bool := (0 <=? day d) && valid_ymd (year d) (month d) (day d).

(** ** The calendar as a successor function *)

(** The day after [d]. *)
Definition next_day (d : date) : date :=
  match last_day (year d) (month d) with
  | Some last =>
      if day d <? last then mkDate (year d) (month d) (day d + 1)
      else if month d <? 12 then mkDate (year d) (month d + 1) 1
      else mkDate (year d + 1) 1 1
  | None => d
  end.

(** The day before [d]. *)
Definition prev_day (d : date) : date :=
  if 1 <? day d then mkDate (year d) (month d) (day d - 1)
  else if 1 <? month d
       then mkDate (year d) (month d - 1) (default 0 (last_day (year d) (month d - 1)))
       else mkDate (year d - 1) 12 31.

Definition epoch : date := mkDate 1970 1 1.

(** ** The calendar library *)

(** [date_from_unix_days]: 1970-01-01 plus a number of days, through the library. *)
Class Chrono := { date_from_unix_days : Z → option date }.

(** The first and the last day the library represents: 1 January of year
    -262143 and 31 December of year 262142, as days from the epoch. *)
Definition chrono_min : Z := -96465292.
Definition chrono_max : Z := 95026236.

(** What its documentation promises: every day of its range has a date, day 0
    is 1970-01-01, and one day later is the next day of the calendar. *)
Class ChronoLaws `{Chrono} : Prop := {
  chrono_range n : is_Some (date_from_unix_days n) ↔ chrono_min ≤ n ≤ chrono_max;
  chrono_epoch : date_from_unix_days 0 = Some epoch;
  chrono_next n d e :
    date_from_unix_days n = Some d → date_from_unix_days (n + 1) = Some e → e = next_day d;
  chrono_valid n d : date_from_unix_days n = Some d → date_valid d = true;
}.

(** ** The day count *)

Lemma is_leap_mod y :
  is_leap y = ((y mod 4 =? 0) && negb (y mod 100 =? 0)) || (y mod 400 =? 0).
Proof.
  assert (∀ b, b ≠ 0 → (Z.rem y b =? 0) = (y mod b =? 0)) as Hb.
  { intros b Hb. pose proof (Zrem_Zmod_zero y b Hb). lia. }
  unfold is_leap. by rewrite !Hb by lia.
Qed.

(** Days before March of the year [y] of a calendar that starts in March. *)
Definition year_days (y : Z) : Z := 365 * y + y / 4 - y / 100 + y / 400.

(** Days before the month [m], counted from March, and the date's day in it. *)
Definition month_days (m d : Z) : Z := (153 * m + 2) / 5 + d - 1.

Definition march_year (y m : Z) : Z := if m <=? 2 then y - 1 else y.
Definition march_month (m : Z) : Z := if 2 <? m then m - 3 else m + 9.

(** The era arithmetic of the source is the plain count of years and leap days. *)
Lemma days_from_civil_alt y m d :
  1 ≤ m ≤ 12 →
  days_from_civil y m d =
  year_days (march_year y m) + month_days (march_month m) d - 719468.
Proof.
  intros Hm. unfold days_from_civil. fold (march_year y m). fold (march_month m).
  set (Y := march_year y m). cbn zeta.
  assert (Z.quot (if 0 <=? Y then Y else Y - 399) 400 = Y / 400) as ->.
  { destruct (Z.leb_spec 0 Y).
    - by rewrite Z.quot_div_nonneg by lia.
    - replace (Y - 399) with (- (399 - Y)) by lia. rewrite Z.quot_opp_l, Z.quot_div_nonneg by lia.
      divlia. }
  pose proof (Z.mod_pos_bound Y 400 ltac:(lia)).
  assert (Y - Y / 400 * 400 = Y mod 400) as -> by divlia.
  rewrite !Z.quot_div_nonneg by (lia || unfold march_month; case_match; lia).
  unfold year_days, month_days. divlia.
Qed.

Ltac month_cases m :=
  let H := fresh in
  assert (m = 1 ∨ m = 2 ∨ m = 3 ∨ m = 4 ∨ m = 5 ∨ m = 6 ∨ m = 7 ∨ m = 8 ∨ m = 9 ∨ m = 10
          ∨ m = 11 ∨ m = 12) as H by lia;
  destruct_or! H; subst m.

Lemma date_valid_month d : date_valid d = true → 1 ≤ month d ≤ 12 ∧ 1 ≤ day d.
Proof.
  unfold date_valid, valid_ymd. intros H. bool_prop. case_match; [done|]. bool_prop. lia.
Qed.

Lemma last_day_valid y m : 1 ≤ m ≤ 12 → ∃ n, last_day y m = Some n ∧ 28 ≤ n ≤ 31.
Proof.
  intros Hm. unfold last_day. case_match; [by exists 29|].
  month_cases m; eexists; split; (reflexivity || lia).
Qed.

Lemma last_day_cases y m n :
  1 ≤ m ≤ 12 → last_day y m = Some n →
  (m = 2 ∧ (is_leap y = true ∧ n = 29 ∨ is_leap y = false ∧ n = 28)) ∨
  ((m = 4 ∨ m = 6 ∨ m = 9 ∨ m = 11) ∧ n = 30) ∨
  ((m = 1 ∨ m = 3 ∨ m = 5 ∨ m = 7 ∨ m = 8 ∨ m = 10 ∨ m = 12) ∧ n = 31).
Proof.
  intros Hm. unfold last_day. destruct (is_leap y);
    month_cases m; intros [= <-]; naive_solver.
Qed.

(** Validity by the length of the month. *)
Lemma date_valid_iff d n :
  1 ≤ month d ≤ 12 → last_day (year d) (month d) = Some n →
  date_valid d = true ↔ 1 ≤ day d ≤ n.
Proof.
  intros Hm Hn. unfold date_valid, valid_ymd. rewrite Hn. split.
  - intros H. bool_prop. case_match; [done|]. bool_prop. lia.
  - intros H. rewrite (proj2 (Z.leb_le 0 _)) by lia.
    rewrite (proj2 (Z.leb_le 1 _)), (proj2 (Z.leb_le _ 12)), (proj2 (Z.eqb_neq _ _)) by lia.
    simpl. lia.
Qed.

Lemma next_day_valid d : date_valid d = true → date_valid (next_day d) = true.
Proof.
  intros Hv. pose proof (date_valid_month d Hv) as [Hm Hd].
  destruct (last_day_valid (year d) (month d) Hm) as (n & Hn & _).
  pose proof (proj1 (date_valid_iff d n Hm Hn) Hv).
  unfold next_day. rewrite Hn. case_match; bool_prop.
  - apply (date_valid_iff _ n); simpl; [done..|lia].
  - case_match; bool_prop.
    + destruct (last_day_valid (year d) (month d + 1) ltac:(lia)) as (k & Hk & ?).
      apply (date_valid_iff _ k); simpl; [lia|done|lia].
    + done.
Qed.

(** Splits the tests on a known month. *)
Ltac march := unfold march_year, march_month in *; repeat case_match; bool_prop; try lia.

Lemma leap_days y :
  is_leap y = true → y mod 4 = 0 ∧ (y mod 100 ≠ 0 ∨ y mod 400 = 0).
Proof. rewrite is_leap_mod. divlia. Qed.

Lemma common_days y :
  is_leap y = false → (y mod 4 ≠ 0 ∨ y mod 100 = 0) ∧ y mod 400 ≠ 0.
Proof. rewrite is_leap_mod. lia. Qed.

(** The length of a year that starts in March is decided by the next year. *)
Lemma year_days_succ y : year_days (y + 1) = year_days y + if is_leap (y + 1) then 366 else 365.
Proof.
  unfold year_days. destruct (is_leap (y + 1)) eqn:E.
  - apply leap_days in E. divlia.
  - apply common_days in E. divlia.
Qed.

(** One day later counts one more. *)
Lemma date_days_next d : date_valid d = true → date_days (next_day d) = date_days d + 1.
Proof.
  intros Hv. pose proof (date_valid_month d Hv) as [Hm Hd].
  pose proof (last_day_valid (year d) (month d) Hm) as (n & Hn & _).
  pose proof (proj1 (date_valid_iff d n Hm Hn) Hv) as Hdn.
  unfold next_day, date_days. rewrite Hn. apply last_day_cases in Hn; [|done].
  destruct d as [y m d]; cbn [year month day] in *.
  destruct (Z.ltb_spec d n); cbn [year month day].
  { rewrite !days_from_civil_alt by done. unfold month_days. lia. }
  pose proof (year_days_succ (y - 1)) as Hy. rewrite Z.sub_add in Hy.
  destruct (Z.ltb_spec m 12); cbn [year month day].
  - rewrite !days_from_civil_alt by lia. unfold month_days.
    month_cases m; march; divlia.
  - rewrite !days_from_civil_alt by lia. unfold month_days.
    assert (m = 12) as -> by lia. march; replace (y + 1 - 1) with y by lia; divlia.
Qed.

(** The place of a date in its March-year is below the year's length. *)
Lemma month_days_bound d :
  date_valid d = true →
  0 ≤ month_days (march_month (month d)) (day d) <
  year_days (march_year (year d) (month d) + 1) - year_days (march_year (year d) (month d)).
Proof.
  intros Hv. pose proof (date_valid_month d Hv) as [Hm Hd].
  pose proof (last_day_valid (year d) (month d) Hm) as (n & Hn & _).
  pose proof (proj1 (date_valid_iff d n Hm Hn) Hv) as Hdn.
  apply last_day_cases in Hn; [|done]. rewrite year_days_succ.
  destruct d as [y m d]; cbn [year month day] in *. unfold month_days.
  assert (march_year y m + 1 = if m <=? 2 then y else y + 1) as -> by march.
  month_cases m; march; divlia.
Qed.

Lemma year_days_mono y z : y ≤ z → year_days y ≤ year_days z.
Proof.
  intros. unfold year_days. pose proof (Z.div_le_mono y z 4). pose proof (Z.div_le_mono y z 400).
  assert (z / 100 - y / 100 ≤ z - y) by divlia. lia.
Qed.

(** Different valid dates have different day counts. *)
Lemma date_days_inj d e :
  date_valid d = true → date_valid e = true → date_days d = date_days e → d = e.
Proof.
  intros Hd He. pose proof (date_valid_month d Hd) as [Hmd _].
  pose proof (date_valid_month e He) as [Hme _].
  pose proof (month_days_bound d Hd) as Hbd. pose proof (month_days_bound e He) as Hbe.
  pose proof (last_day_valid (year d) (month d) Hmd) as (n & Hn & _).
  pose proof (proj1 (date_valid_iff d n Hmd Hn) Hd) as Hdn.
  pose proof (last_day_valid (year e) (month e) Hme) as (k & Hk & _).
  pose proof (proj1 (date_valid_iff e k Hme Hk) He) as Hek.
  apply last_day_cases in Hn, Hk; [|done..].
  unfold date_days. rewrite !days_from_civil_alt by done. intros Heq.
  set (Y := march_year (year d) (month d)) in *. set (Z := march_year (year e) (month e)) in *.
  assert (Y = Z) as HYZ.
  { destruct (Z.lt_trichotomy Y Z) as [Hlt|[->|Hlt]]; [|done|].
    - pose proof (year_days_mono (Y + 1) Z ltac:(lia)). lia.
    - pose proof (year_days_mono (Z + 1) Y ltac:(lia)). lia. }
  rewrite HYZ in Heq.
  destruct d as [y m d], e as [y' m' d']; cbn [year month day] in *. subst Y Z.
  assert (m = m') as <-; [|f_equal; [|unfold month_days in Heq; lia]].
  - unfold month_days in Heq. clear HYZ Hbd Hbe Hd He.
    month_cases m; month_cases m'; march; divlia.
  - unfold march_year in HYZ. case_match; lia.
Qed.

(** ** The library and the day count agree *)

Section chrono.
Context `{ChronoLaws}.

Lemma chrono_some n d : date_from_unix_days n = Some d → chrono_min ≤ n ≤ chrono_max.
Proof. intros Hn. apply chrono_range. eauto. Qed.

(** A step of the library is a step of the count, in both directions. *)
Lemma chrono_days_step n d e :
  date_from_unix_days n = Some d → date_from_unix_days (n + 1) = Some e →
  date_days d = n ↔ date_days e = n + 1.
Proof.
  intros Hd He. pose proof (chrono_next _ _ _ Hd He) as ->.
  rewrite date_days_next by by eapply chrono_valid. lia.
Qed.

Lemma chrono_days n d : date_from_unix_days n = Some d → date_days d = n.
Proof.
  assert (∀ k, chrono_min ≤ k ≤ chrono_max → ∃ e, date_from_unix_days k = Some e) as Hin.
  { intros k Hk. destruct (proj2 (chrono_range k) Hk) as [e He]. eauto. }
  destruct (Z.le_gt_cases 0 n) as [Hn|Hn].
  - revert n Hn d. apply (natlike_ind (λ n, ∀ d, _ → date_days d = n)).
    + intros d. rewrite chrono_epoch. by intros [= <-].
    + intros n Hn IH e He. pose proof (chrono_some _ _ He).
      destruct (Hin n) as [d Hd]; [unfold chrono_min in *; lia|].
      rewrite <- Z.add_1_r in *. apply (chrono_days_step n d e); [done..|]. by apply IH.
  - replace n with (- (- n)) by lia. assert (0 ≤ - n) as Hk by lia. revert Hk d.
    generalize (- n). clear n Hn.
    apply (natlike_ind (λ n, ∀ d, _ → date_days d = - n)).
    + intros d. simpl. change (- 0) with 0. rewrite chrono_epoch. by intros [= <-].
    + intros n Hn IH e He. pose proof (chrono_some _ _ He).
      destruct (Hin (- n)) as [d Hd]; [unfold chrono_max in *; lia|].
      apply (chrono_days_step _ e d); [done|by replace (- Z.succ n + 1) with (- n) by lia|].
      rewrite (IH d Hd). lia.
Qed.

Lemma chrono_of_days d :
  date_valid d = true → chrono_min ≤ date_days d ≤ chrono_max →
  date_from_unix_days (date_days d) = Some d.
Proof.
  intros Hv Hr. destruct (proj2 (chrono_range _) Hr) as [e He]. rewrite He. f_equal.
  apply date_days_inj; [by eapply chrono_valid|done|]. by apply chrono_days.
Qed.
End chrono.

(** [days_from_civil] counts the days of the Gregorian calendar: the epoch
    has count 0, the day after a valid date counts one more (month ends, leap
    days and century rules included, for negative years as well), two valid
    dates with one count are one date, and so the function is the inverse, on
    the library's whole range, of the library's date for a day number. *)
Theorem days_from_civil_calendar `{ChronoLaws} :
  days_from_civil 1970 1 1 = 0 ∧
  (∀ d, date_valid d = true →
     date_valid (next_day d) = true ∧ date_days (next_day d) = date_days d + 1) ∧
  (∀ d e, date_valid d = true → date_valid e = true → date_days d = date_days e → d = e) ∧
  (∀ n d, date_from_unix_days n = Some d ↔
     chrono_min ≤ n ≤ chrono_max ∧ date_valid d = true ∧ date_days d = n).
Proof.
  split_and!; [done| |exact date_days_inj|].
  - intros d Hd. split; [by apply next_day_valid|by apply date_days_next].
  - intros n d. split.
    + intros Hn. split; [by eapply chrono_some|].
      split; [by eapply chrono_valid|by apply chrono_days].
    + intros (? & Hv & <-). by apply chrono_of_days.
Qed.

(** ** An executable calendar *)

(** [n] days after (before) the epoch by stepping one day at a time. *)
Definition calendar_date (n : Z) : date :=
  if 0 <=? n then Nat.iter (Z.to_nat n) next_day epoch
  else Nat.iter (Z.to_nat (- n)) prev_day epoch.

#[global] Instance calendar_chrono : Chrono := {|
  date_from_unix_days n :=
    if (chrono_min <=? n) && (n <=? chrono_max) then Some (calendar_date n) else None |}.

Lemma prev_day_valid d : date_valid d = true → date_valid (prev_day d) = true.
Proof.
  intros Hv. pose proof (date_valid_month d Hv) as [Hm Hd].
  destruct (last_day_valid (year d) (month d) Hm) as (n & Hn & _).
  pose proof (proj1 (date_valid_iff d n Hm Hn) Hv). unfold prev_day.
  case_match; bool_prop; [apply (date_valid_iff _ n); simpl; [done..|lia]|].
  case_match; bool_prop; [|done].
  destruct (last_day_valid (year d) (month d - 1) ltac:(lia)) as (k & Hk & ?). rewrite Hk.
  apply (date_valid_iff _ k); simpl; [lia|done|lia].
Qed.

Lemma next_prev_day d : date_valid d = true → next_day (prev_day d) = d.
Proof.
  intros Hv. pose proof (date_valid_month d Hv) as [Hm Hd].
  destruct (last_day_valid (year d) (month d) Hm) as (n & Hn & _).
  pose proof (proj1 (date_valid_iff d n Hm Hn) Hv). unfold prev_day.
  destruct d as [y m d]; cbn [year month day] in *.
  destruct (Z.ltb_spec 1 d).
  - unfold next_day. cbn [year month day]. rewrite Hn, (proj2 (Z.ltb_lt _ _)) by lia. f_equal. lia.
  - destruct (Z.ltb_spec 1 m); unfold next_day; cbn [year month day].
    + destruct (last_day_valid y (m - 1) ltac:(lia)) as (k & Hk & ?). rewrite Hk. simpl.
      rewrite Z.ltb_irrefl, (proj2 (Z.ltb_lt _ _)) by lia. f_equal; lia.
    + assert (last_day (y - 1) 12 = Some 31) as -> by (unfold last_day; by destruct (is_leap _)).
      simpl. f_equal; lia.
Qed.

Lemma iter_valid (f : date → date) n d :
  (∀ d, date_valid d = true → date_valid (f d) = true) → date_valid d = true →
  date_valid (Nat.iter n f d) = true.
Proof. intros Hf Hd. induction n; simpl; auto. Qed.

Lemma calendar_date_valid n : date_valid (calendar_date n) = true.
Proof.
  unfold calendar_date. case_match; apply iter_valid; try done;
    [apply next_day_valid|apply prev_day_valid].
Qed.

Lemma calendar_date_next n : calendar_date (n + 1) = next_day (calendar_date n).
Proof.
  unfold calendar_date. destruct (Z.leb_spec 0 n).
  - rewrite (proj2 (Z.leb_le _ _)) by lia. rewrite Z2Nat.inj_add, Nat.add_1_r by lia. done.
  - destruct (Z.leb_spec 0 (n + 1)).
    + assert (n = -1) as -> by lia. done.
    + replace (Z.to_nat (- n)) with (S (Z.to_nat (- (n + 1)))) by lia. simpl.
      rewrite next_prev_day; [done|]. apply iter_valid; [apply prev_day_valid|done].
Qed.

#[global] Instance calendar_chrono_laws : ChronoLaws.
Proof.
  split; simpl.
  - intros n. destruct (_ && _) eqn:E; bool_prop; split; try done; try lia; try eauto.
  - done.
  - intros n d e Hd He. repeat case_match; simplify_eq. apply calendar_date_next.
  - intros n d Hd. case_match; simplify_eq. apply calendar_date_valid.
Qed.

Lemma days_from_civil_calendar_witness :
  date_from_unix_days (-141) = Some (mkDate 1969 8 13).
Proof.
  apply (days_from_civil_calendar (H := calendar_chrono)). by split_and!.
Defined.
