(* ===== verification/Inet.v ===== *)
(** Internet addresses as text: [push_u8_decimal] of [decode.rs] and the
    formatting and parsing of [Ipv4Addr] and [Ipv6Addr] the decoder and the
    encoder call on the standard library. *)

From stdpp Require Import base list numbers strings.
From S2P Require Import Prelude RustStd.
Local Open Scope Z_scope.

(** ** Formatting *)

Definition push_u8_decimal (out : bytes) (value : Z) : bytes :=
  let out := if 100 <=? value then out ++ [48 + Z.quot value 100] else out in
  let out := if 10 <=? value then out ++ [48 + Z.rem (Z.quot value 10) 10] else out in
  out ++ [48 + Z.rem value 10].

(** The dotted quad the decoder writes into its scratch string. *)
Definition fmt_ipv4 (octets : bytes) : bytes :=
  match octets with
  | [a; b; c; d] =>
      push_u8_decimal (push_u8_decimal (push_u8_decimal (push_u8_decimal [] a ++ [46]) b ++ [46]) c
        ++ [46]) d
  | _ => []
  end.

Definition hex_digit (d : Z) : Z := if d <? 10 then 48 + d else 87 + d.

(** [{:x}] of a [u16]: no leading zeros. *)
Definition fmt_hex16 (z : Z) : bytes :=
  let d3 := z / 4096 in let d2 := z / 256 mod 16 in let d1 := z / 16 mod 16 in let d0 := z mod 16 in
  (if 4096 <=? z then [hex_digit d3] else []) ++ (if 256 <=? z then [hex_digit d2] else [])
  ++ (if 16 <=? z then [hex_digit d1] else []) ++ [hex_digit d0].

(** The eight big-endian segments of an IPv6 address. *)
Fixpoint segments (octets : bytes) : list Z :=
  match octets with
  | hi :: lo :: rest => hi * 256 + lo :: segments rest
  | _ => []
  end.

(** The first longest run of zero segments: (start, length). *)
Fixpoint longest_zeros (i : nat) (current longest : nat * nat) (segs : list Z) : nat * nat :=
  match segs with
  | [] => longest
  | seg :: segs =>
      if seg =? 0 then
        let current := (if (current.2 =? 0)%nat then i else current.1, S current.2) in
        longest_zeros (S i) current (if (longest.2 <? current.2)%nat then current else longest) segs
      else longest_zeros (S i) (0%nat, 0%nat) longest segs
  end.

Fixpoint fmt_subslice (segs : list Z) : bytes :=
  match segs with
  | [] => []
  | [seg] => fmt_hex16 seg
  | seg :: rest => fmt_hex16 seg ++ 58 :: fmt_subslice rest
  end.

(** [Display] of an [Ipv6Addr]. *)
Definition fmt_ipv6 (octets : bytes) : bytes :=
  if bool_decide (take 12 octets = replicate 10 0 ++ [255; 255])
  then str "::ffff:" ++ fmt_ipv4 (drop 12 octets)
  else
    let segs := segments octets in
    let '(start, n) := longest_zeros 0 (0%nat, 0%nat) (0%nat, 0%nat) segs in
    if (1 <? n)%nat
    then fmt_subslice (take start segs) ++ [58; 58] ++ fmt_subslice (drop (start + n) segs)
    else fmt_subslice segs.

(** ** Parsing *)

(** A parser returns the rest of its input; on [None] the input is unread. *)
Definition parser (A : Type) : Type := bytes → option (A * bytes).

Definition to_digit (radix b : Z) : option Z :=
  let d := if is_ascii_digit b then Some (b - 48)
           else if is_ascii_lower b then Some (b - 87)
           else if is_ascii_upper b then Some (b - 55) else None in
  d ← d; if d <? radix then Some d else None.

Definition read_given_char (c : Z) : parser unit := λ s,
  match s with b :: s => if b =? c then Some (tt, s) else None | [] => None end.

Definition read_separator {A} (sep : Z) (index : nat) (inner : parser A) : parser A := λ s,
  match index with
  | O => inner s
  | S _ => '(_, s) ← read_given_char sep s; inner s
  end.

(** The digits at the front: their value and count; [None] past [max_digits]. *)
Fixpoint read_digits (radix : Z) (max_digits : nat) (value : Z) (count : nat) (s : bytes)
    : option (Z * nat * bytes) :=
  match s with
  | b :: s' =>
      match to_digit radix b with
      | Some d =>
          if (max_digits <? S count)%nat then None
          else read_digits radix max_digits (value * radix + d) (S count) s'
      | None => Some (value, count, s)
      end
  | [] => Some (value, count, [])
  end.

Definition read_number (radix : Z) (max_digits : nat) (allow_zero_prefix : bool) (max : Z)
    : parser Z := λ s,
  let has_leading_zero := bool_decide (head s = Some 48) in
  '(value, count, rest) ← read_digits radix max_digits 0 0 s;
  if (count =? 0)%nat then None
  else if negb allow_zero_prefix && has_leading_zero && (1 <? count)%nat then None
  else if value <=? max then Some (value, rest) else None.

Fixpoint read_ipv4_groups (n : nat) (i : nat) : parser (list Z) := λ s,
  match n with
  | O => Some ([], s)
  | S n =>
      '(g, s) ← read_separator 46 i (read_number 10 3 false 255) s;
      '(gs, s) ← read_ipv4_groups n (S i) s;
      Some (g :: gs, s)
  end.
Definition read_ipv4_addr : parser (list Z) := read_ipv4_groups 4 0.

(** [read_groups]: the groups read and whether they end in an IPv4 address. *)
Fixpoint read_groups (limit : nat) (n : nat) (i : nat) (s : bytes) : list Z * bool * bytes :=
  match n with
  | O => ([], false, s)
  | S n =>
      let ipv4 := if (i + 1 <? limit)%nat then read_separator 58 i read_ipv4_addr s else None in
      match ipv4 with
      | Some ([a; b; c; d], s) => ([a * 256 + b; c * 256 + d], true, s)
      | _ =>
          match read_separator 58 i (read_number 16 4 true 65535) s with
          | Some (g, s) => let '(gs, v4, s) := read_groups limit n (S i) s in (g :: gs, v4, s)
          | None => ([], false, s)
          end
      end
  end.

Definition read_ipv6_addr : parser (list Z) := λ s,
  let '(head, head_ipv4, s) := read_groups 8 8 0 s in
  if (length head =? 8)%nat then Some (head, s)
  else if head_ipv4 then None
  else
    '(_, s) ← read_given_char 58 s;
    '(_, s) ← read_given_char 58 s;
    let limit := (8 - (length head + 1))%nat in
    let '(tail, _, s) := read_groups limit limit 0 s in
    Some (head ++ replicate (8 - length tail - length head) 0 ++ tail, s).

Definition parse_with {A} (p : parser A) (s : bytes) : option A :=
  match p s with Some (a, []) => Some a | _ => None end.

(** [str::parse::<Ipv4Addr>], as octets. *)
Definition parse_ipv4 (s : bytes) : option bytes :=
  if (15 <? length s)%nat then None else parse_with read_ipv4_addr s.

(** [str::parse::<Ipv6Addr>], as octets. *)
Definition parse_ipv6 (s : bytes) : option bytes :=
  (λ segs, concat ((λ seg, [seg / 256; seg mod 256]) <$> segs)) <$> parse_with read_ipv6_addr s.

(** ** How long the texts are *)

Lemma length_push_u8_decimal out value : (length (push_u8_decimal out value) ≤ length out + 3)%nat.
Proof. unfold push_u8_decimal. cbn zeta. rewrite length_app. repeat case_match; rewrite ?length_app; cbn [length]; lia. Qed.

Lemma length_fmt_ipv4 octets : (length (fmt_ipv4 octets) ≤ 15)%nat.
Proof.
  destruct octets as [|a [|b [|c [|d [|? ?]]]]]; cbn [fmt_ipv4 length]; try lia.
  etransitivity; [apply length_push_u8_decimal|]. rewrite length_app.
  pose proof (length_push_u8_decimal (push_u8_decimal (push_u8_decimal [] a ++ [46]) b ++ [46]) c) as Hc.
  pose proof (length_push_u8_decimal (push_u8_decimal [] a ++ [46]) b) as Hb.
  pose proof (length_push_u8_decimal [] a) as Ha. rewrite length_app in Hc, Hb. cbn [length] in *. lia.
Qed.

Lemma length_fmt_hex16 z : (length (fmt_hex16 z) ≤ 4)%nat.
Proof. unfold fmt_hex16. rewrite !length_app. repeat case_match; cbn [length]; lia. Qed.

Lemma length_fmt_subslice segs : (length (fmt_subslice segs) ≤ 5 * length segs - 1)%nat.
Proof.
  induction segs as [|seg segs IH]; [done|]. pose proof (length_fmt_hex16 seg). cbn [fmt_subslice]. case_match; [cbn [length]; lia|].
  rewrite length_app. cbn [length] in *. lia.
Qed.

Lemma length_segments (k : nat) octets : length octets = (2 * k)%nat → length (segments octets) = k.
Proof.
  revert octets. induction k as [|k IH]; intros [|hi [|lo rest]] Hl; cbn [length] in Hl; try lia; [done|].
  cbn [segments length]. f_equal. apply IH. lia.
Qed.

(** The run of zeros lies inside the segments. *)
Lemma longest_zeros_inside i current longest segs :
  (current.2 = 0 ∨ current.1 + current.2 = i)%nat → (longest.1 + longest.2 ≤ i)%nat →
  ((longest_zeros i current longest segs).1 + (longest_zeros i current longest segs).2 ≤ i + length segs)%nat.
Proof.
  revert i current longest. induction segs as [|seg segs IH]; intros i [cs cn] [ls ln] Hc Hl; cbn [longest_zeros length fst snd] in *; [lia|].
  rewrite <- Nat.add_succ_comm. case_match.
  - apply IH; cbn [fst snd].
    + right. destruct (Nat.eqb_spec cn 0); lia.
    + destruct (_ <? _)%nat; cbn [fst snd]; [|lia]. destruct (Nat.eqb_spec cn 0); lia.
  - apply IH; cbn [fst snd]; [by left|lia].
Qed.

Lemma length_fmt_ipv6 octets : length octets = 16%nat → (length (fmt_ipv6 octets) ≤ 39)%nat.
Proof.
  intros Hl. unfold fmt_ipv6. case_bool_decide.
  - rewrite length_app. pose proof (length_fmt_ipv4 (drop 12 octets)). change (length (str "::ffff:")) with 7%nat. lia.
  - cbn zeta. assert (length (segments octets) = 8%nat) as Hs by by apply (length_segments 8).
    pose proof (longest_zeros_inside 0 (0, 0)%nat (0, 0)%nat (segments octets) ltac:(by left) ltac:(done)) as Hz.
    destruct (longest_zeros _ _ _ _) as [start n]. cbn [fst snd] in Hz. destruct (Nat.ltb_spec 1 n).
    + rewrite !length_app. pose proof (length_fmt_subslice (take start (segments octets))).
      pose proof (length_fmt_subslice (drop (start + n) (segments octets))).
      rewrite length_take in *. rewrite length_drop in *. cbn [length]. lia.
    + pose proof (length_fmt_subslice (segments octets)). lia.
Qed.
