(* ===== verification/ArrowData.v ===== *)
(** Arrow arrays and record batches.

    The Arrow crates are outside the repository.  An array is represented by
    the data the driver hands to the crate's constructors and builders: a
    primitive array by its value buffer and optional validity buffer (a value
    sits under every null), a variable-width array by the sequence of
    [append_value] and [append_null] calls, of which the first panics when an
    offset outgrows 32 bits.  Floats are their bit patterns.
    The checks Arrow itself makes are the class [Arrow]. *)

From stdpp Require Import base list numbers strings gmap.
From S2P Require Import Prelude RustStd Types.
Local Open Scope Z_scope.

(** [true] marks a valid row. *)
Abbreviation validity := (option (list bool)).

Inductive ArrayRef : Type :=
| ANull (rows : nat)
| ABoolean (values : list bool) (nulls : validity)
| APrimitive (data_type : DataType) (values : list Z) (nulls : validity)
| ABytes (data_type : DataType) (values : list (option bytes))
| ADictionary (key : DataType) (keys : list (option nat)) (values : ArrayRef).

Fixpoint array_data_type (a : ArrayRef) : DataType :=
  match a with
  | ANull _ => DNull
  | ABoolean _ _ => DBoolean
  | APrimitive t _ _ => t
  | ABytes t _ => t
  | ADictionary key _ values => DDictionary key (array_data_type values)
  end.

Definition array_len (a : ArrayRef) : nat :=
  match a with
  | ANull rows => rows
  | ABoolean values _ => length values
  | APrimitive _ values _ => length values
  | ABytes _ values => length values
  | ADictionary _ keys _ => length keys
  end.

(** [is_null(row)] of an array with a validity buffer. *)
Definition is_null (nulls : validity) (row : nat) : bool :=
  match nulls with
  | None => false
  | Some v => match v !! row with Some valid => negb valid | None => false end
  end.

(** [has_nulls.then(|| NullBuffer::from(validity))]. *)
Definition null_buffer (valid : list bool) : validity :=
  if existsb negb valid then Some valid else None.

(** The logical rows of a primitive or boolean array. *)
Fixpoint rows_of {A} (row : nat) (values : list A) (nulls : validity) : list (option A) :=
  match values with
  | [] => []
  | v :: values => (if is_null nulls row then None else Some v) :: rows_of (S row) values nulls
  end.
Definition cells {A} (values : list A) (nulls : validity) : list (option A) := rows_of 0 values nulls.

(** [array.slice(start, len)]. *)
Definition slice_nulls (nulls : validity) (start n : nat) : validity :=
  (λ v, take n (drop start v)) <$> nulls.

Definition array_slice (a : ArrayRef) (start n : nat) : ArrayRef :=
  match a with
  | ANull rows => ANull (Nat.min n (rows - start))
  | ABoolean values nulls => ABoolean (take n (drop start values)) (slice_nulls nulls start n)
  | APrimitive t values nulls => APrimitive t (take n (drop start values)) (slice_nulls nulls start n)
  | ABytes t values => ABytes t (take n (drop start values))
  | ADictionary key keys values => ADictionary key (take n (drop start keys)) values
  end.

(** ** Building a variable-width array *)

(** The bytes of the values that were appended. *)
Definition value_bytes_of (values : list (option bytes)) : Z :=
  foldr (λ v n, len (default [] v) + n) 0 values.

(** [append_value] and [append_null] of [StringBuilder] and [BinaryBuilder], whose
    offsets are 32-bit integers: the end of the appended value is the next
    offset, and one that does not fit is a panic. *)
Definition append_value {E} (builder : list (option bytes)) (value : bytes) : res E (list (option bytes)) :=
  let builder := builder ++ [Some value] in
  if i32_max <? value_bytes_of builder then Panic else Ok builder.
Definition append_null (builder : list (option bytes)) : list (option bytes) := builder ++ [None].

(** A record batch: its schema, its columns, its row count. *)
Record RecordBatch : Type := mkRecordBatch {
  batch_schema : list Field;
  batch_columns : list ArrayRef;
  batch_rows : nat;
}.

(** ** The checks of the Arrow crates *)

Class Arrow := {
  (** [Decimal128Array::with_precision_and_scale]: the error's text, if any. *)
  decimal_error : Z → Z → option string;
  (** [RecordBatch::try_new_with_options]. *)
  record_batch_error : list Field → list ArrayRef → nat → option string;
}.

(** What the documentation promises: a decimal type of at most 38 digits with
    a scale inside its precision is accepted, and so is a batch with one array
    of the field's type and of the batch's length per nullable field. *)
Class ArrowLaws `{Arrow} : Prop := {
  decimal_accepts p s : 1 ≤ p ≤ 38 → 0 ≤ s ≤ p → decimal_error p s = None;
  record_batch_accepts schema columns rows :
    Forall2 (λ f a, field_data_type f = array_data_type a ∧ field_nullable f = true ∧
                    array_len a = rows) schema columns →
    record_batch_error schema columns rows = None;
}.

(** An executable instance that checks exactly that. *)
Definition decimal_check (p s : Z) : option string :=
  if (1 <=? p) && (p <=? 38) && (0 <=? s) && (s <=? p) then None
  else Some "invalid decimal precision or scale"%string.

Definition batch_check (schema : list Field) (columns : list ArrayRef) (rows : nat) : option string :=
  if bool_decide (length schema = length columns) &&
     forallb (λ fa, bool_decide (field_data_type fa.1 = array_data_type fa.2)
                    && (array_len fa.2 =? rows)%nat) (zip schema columns)
  then None else Some "column does not match the schema"%string.

#[global] Instance checked_arrow : Arrow :=
  {| decimal_error := decimal_check; record_batch_error := batch_check |}.

#[global] Instance checked_arrow_laws : ArrowLaws.
Proof.
  split; simpl.
  - intros p s Hp Hs. unfold decimal_check. by rewrite !(proj2 (Z.leb_le _ _)) by lia.
  - intros schema columns rows H. unfold batch_check.
    rewrite bool_decide_eq_true_2 by (by eapply Forall2_length). simpl.
    rewrite (proj2 (forallb_forall _ _)); [done|]. intros [f a].
    induction H as [|f' a' fs cs (Ht & Hn & Hl) _ IH]; [done|]. simpl. intros [[= <- <-]|Hin].
    + rewrite Ht, bool_decide_eq_true_2, Hl, Nat.eqb_refl by done. done.
    + by apply IH.
Qed.

(** ** Lemmas on builders *)

Lemma value_bytes_of_app vs ws : value_bytes_of (vs ++ ws) = value_bytes_of vs + value_bytes_of ws.
Proof. induction vs as [|v vs IH]; simpl; lia. Qed.

Lemma value_bytes_of_nonneg vs : 0 ≤ value_bytes_of vs.
Proof. induction vs; simpl; lia. Qed.

Lemma append_value_ok {E} builder value :
  value_bytes_of builder + len value ≤ i32_max → append_value (E := E) builder value = Ok (builder ++ [Some value]).
Proof.
  intros Hb. unfold append_value. rewrite (proj2 (Z.ltb_ge _ _)); [done|]. rewrite value_bytes_of_app. simpl. lia.
Qed.

Lemma append_value_inv {E} builder value builder' :
  append_value (E := E) builder value = Ok builder' →
  builder' = builder ++ [Some value] ∧ value_bytes_of builder' ≤ i32_max.
Proof. unfold append_value. case_match eqn:Hb; [done|]. intros [= <-]. bool_prop. done. Qed.

(** ** Lemmas on validity *)

Lemma existsb_negb_false (valid : list bool) :
  existsb negb valid = false ↔ Forall (λ b, b = true) valid.
Proof.
  induction valid as [|b valid IH]; simpl; [done|].
  rewrite orb_false_iff, IH, Forall_cons, negb_false_iff. done.
Qed.

Lemma length_rows_of {A} row (values : list A) nulls :
  length (rows_of row values nulls) = length values.
Proof. revert row; induction values; intros; simpl; auto. Qed.

Lemma lookup_rows_of {A} row (values : list A) nulls i :
  rows_of row values nulls !! i =
  (λ v, if is_null nulls (row + i) then None else Some v) <$> values !! i.
Proof.
  revert row i; induction values as [|v values IH]; intros row [|i]; simpl; try done.
  - by rewrite Nat.add_0_r.
  - rewrite IH. by replace (row + S i)%nat with (S row + i)%nat by lia.
Qed.

Lemma lookup_cells {A} (values : list A) nulls i :
  cells values nulls !! i = (λ v, if is_null nulls i then None else Some v) <$> values !! i.
Proof. apply lookup_rows_of. Qed.

(** Whether or not the buffer is dropped, the rows are the same. *)
Lemma is_null_null_buffer valid i :
  is_null (null_buffer valid) i = is_null (Some valid) i.
Proof.
  unfold null_buffer. destruct (existsb negb valid) eqn:E; [done|]. simpl.
  apply existsb_negb_false in E. destruct (valid !! i) as [b|] eqn:Hi; [|done].
  rewrite Forall_lookup in E. by rewrite (E i b Hi).
Qed.

Lemma cells_ext {A} (values : list A) n1 n2 :
  (∀ i, (i < length values)%nat → is_null n1 i = is_null n2 i) →
  cells values n1 = cells values n2.
Proof.
  intros H. apply list_eq. intros i. rewrite !lookup_cells.
  destruct (values !! i) as [v|] eqn:Hv; [|done]. simpl.
  rewrite H; [done|]. by eapply lookup_lt_Some.
Qed.

(** A column built row by row has these rows. *)
Lemma cells_of_options {A} (d : A) (rows : list (option A)) :
  cells (default d <$> rows) (null_buffer ((λ o, bool_decide (is_Some o)) <$> rows)) = rows.
Proof.
  apply list_eq. intros i. rewrite lookup_cells, list_lookup_fmap, is_null_null_buffer. simpl.
  rewrite list_lookup_fmap. destruct (rows !! i) as [[a|]|]; done.
Qed.

(** A column whose nulls are a sentinel value has these rows. *)
Lemma cells_of_sentinel {A} (null : A → bool) (values : list A) :
  cells values (null_buffer ((λ v, negb (null v)) <$> values)) =
  (λ v, if null v then None else Some v) <$> values.
Proof.
  apply list_eq. intros i. rewrite lookup_cells, !list_lookup_fmap, is_null_null_buffer. simpl.
  rewrite list_lookup_fmap. destruct (values !! i); simpl; [|done]. by rewrite negb_involutive.
Qed.
