(* ===== verification/Decode.v ===== *)
(** Decoding COPY BINARY column buffers and [Xexportbin] frames into Arrow
    arrays ([crates/monetdb-arrow/src/decode.rs]), for a little-endian target
    (the other branches are in [Endian]).
    Column decoding that runs on a thread pool for large frames computes the
    same list of columns; it is the sequential map here. *)

From stdpp Require Import base list numbers strings gmap.
From S2P Require Import Prelude RustStd Types Calendar Inet Exportbin ArrowData.
Local Open Scope Z_scope.

(** ** Fixed-width columns *)

Definition expect_fixed (data : bytes) (rows width : Z) : res DecodeError unit :=
  expected ← ok_or (checked_mul rows width) (DE_InvalidColumn "column length overflows");
  if bool_decide (len data = expected) then Ok tt else Err (DE_Length expected (len data)).

(** The value buffer is the column reinterpreted; a row is null when its
    value is the type's sentinel. *)
Definition decode_primitive (data_type : DataType) (n : nat) (from_le : bytes → Z)
    (null : Z → bool) (data : bytes) (rows : nat) : res DecodeError ArrayRef :=
  _ ← expect_fixed data (Z.of_nat rows) (Z.of_nat n);
  let values := take rows (from_le <$> chunks n data) in
  Ok (APrimitive data_type values (null_buffer ((λ v, negb (null v)) <$> values))).

Definition invalid_bool (value : Z) : bool := (1 <? value) && negb (value =? 128).

Definition decode_bool (data : bytes) (rows : nat) : res DecodeError ArrayRef :=
  _ ← expect_fixed data (Z.of_nat rows) 1;
  if existsb invalid_bool data then
    row ← or_panic (position invalid_bool data);
    Err (DE_InvalidValue row "boolean is not 0, 1, or the NULL sentinel 0x80")
  else
    let values := (λ b, b =? 1) <$> data in
    let nulls := match position (λ b, b =? 128) data with
                 | Some _ => Some ((λ b, negb (b =? 128)) <$> data)
                 | None => None
                 end in
    Ok (ABoolean values nulls).

Definition decimal_range_message (hugeint : bool) : string :=
  if hugeint then "HUGEINT exceeds Arrow Decimal128's supported 38-digit range"
  else "decimal value exceeds its declared precision".

(** The row check shared by every width: the sentinel is null, anything else
    must be inside the declared precision. *)
Definition decimal_row (limit sentinel : Z) (hugeint : bool) (row : nat) (value : Z)
    : res DecodeError bool :=
  let null := value =? sentinel in
  if negb null && ((value <=? - limit) || (limit <=? value))
  then Err (DE_InvalidValue row (decimal_range_message hugeint))
  else Ok (negb null).

Definition validate_decimal_values (values : list Z) (precision : Z) (hugeint : bool)
    : res DecodeError validity :=
  valid ← mapi_res (decimal_row (10 ^ precision) i128_min hugeint) 0 values;
  Ok (null_buffer valid).

Section with_arrow.
Context `{Arrow}.

(** [Decimal128Array::new(values, nulls).with_precision_and_scale(..)?]. *)
Definition decimal_array (values : list Z) (nulls : validity) (precision scale : Z)
    : res DecodeError ArrayRef :=
  match decimal_error precision scale with
  | Some e => Err (DE_Arrow e)
  | None => Ok (APrimitive (DDecimal128 precision scale) values nulls)
  end.

(** The loop over a backing width below 16 bytes. *)
Definition decode_decimal_width (width : nat) (data : bytes) (precision scale : Z) (hugeint : bool)
    : res DecodeError ArrayRef :=
  let values := i_from_le <$> chunks width data in
  valid ← mapi_res (decimal_row (10 ^ precision) (- 2 ^ (8 * Z.of_nat width - 1)) hugeint) 0 values;
  decimal_array values (null_buffer valid) precision scale.

Definition decode_decimal (data : bytes) (rows : nat) (precision scale : Z) (hugeint : bool)
    : res DecodeError ArrayRef :=
  if negb ((1 <=? precision) && (precision <=? 38)) || (scale <? 0) || (precision <? scale)
  then Err (DE_InvalidColumn "decimal precision/scale must satisfy 1 <= precision <= 38 and 0 <= scale <= precision")
  else
    width ← or_panic (if hugeint then Some 16 else decimal_width precision);
    _ ← expect_fixed data (Z.of_nat rows) width;
    if width =? 16 then
      let values := i_from_le <$> chunks 16 data in
      nulls ← validate_decimal_values values precision hugeint;
      decimal_array values nulls precision scale
    else decode_decimal_width (Z.to_nat width) data precision scale hugeint.

(** ** Dates and times *)

Definition all_byte (b : Z) (l : bytes) : bool := forallb (λ x, x =? b) l.

(** Four bytes: day, month, little-endian year; all 0xff is null. *)
Definition date_value (row : nat) (value : bytes) : res DecodeError (option Z) :=
  match value with
  | [day; month; _; _] =>
      if month =? u8_max then
        if all_byte u8_max value then Ok None
        else Err (DE_InvalidValue row "date has a partial NULL sentinel")
      else
        let year := i_from_le (drop 2 value) in
        if negb (valid_ymd year month day)
        then Err (DE_InvalidValue row "invalid Gregorian date")
        else
          let days := days_from_civil year month day in
          if signed_range 32 days then Ok (Some days)
          else Err (DE_InvalidValue row "date is outside Arrow's Date32 range")
  | _ => Panic
  end.

(** Eight bytes: microseconds, seconds, minutes, hours, padding. *)
Definition time_value (row : nat) (value : bytes) : res DecodeError (option Z) :=
  match value with
  | [_; _; _; _; second; minute; hour; _] =>
      let micros := u_from_le (take 4 value) in
      if micros =? u32_max then
        if all_byte u8_max value then Ok None
        else Err (DE_InvalidValue row "time has a partial NULL sentinel")
      else if (1000000 <=? micros) || (60 <=? second) || (60 <=? minute) || (24 <=? hour)
      then Err (DE_InvalidValue row "invalid time of day")
      else Ok (Some (((hour * 60 + minute) * 60 + second) * 1000000 + micros))
  | _ => Panic
  end.

(** A column built value by value: a null row stores 0. *)
Definition option_column (data_type : DataType) (rows : list (option Z)) : ArrayRef :=
  APrimitive data_type (default 0 <$> rows) (null_buffer ((λ o, bool_decide (is_Some o)) <$> rows)).

Definition decode_date (data : bytes) (rows : nat) : res DecodeError ArrayRef :=
  _ ← expect_fixed data (Z.of_nat rows) 4;
  values ← mapi_res date_value 0 (chunks 4 data);
  Ok (option_column DDate32 values).

Definition decode_time (data : bytes) (rows : nat) : res DecodeError ArrayRef :=
  _ ← expect_fixed data (Z.of_nat rows) 8;
  values ← mapi_res time_value 0 (chunks 8 data);
  Ok (option_column (DTime64 Microsecond) values).

Definition timestamp_value (row : nat) (value : bytes) : res DecodeError (option Z) :=
  time ← time_value row (take 8 value);
  date ← date_value row (drop 8 value);
  match date, time with
  | None, None => Ok None
  | Some date, Some time => Ok (Some (date * 86400000000 + time))
  | _, _ => Err (DE_InvalidValue row "timestamp has mismatched date/time NULL sentinels")
  end.

Definition decode_timestamp (data : bytes) (rows : nat) (utc : bool) : res DecodeError ArrayRef :=
  _ ← expect_fixed data (Z.of_nat rows) 12;
  values ← mapi_res timestamp_value 0 (chunks 12 data);
  Ok (option_column (DTimestamp Microsecond (if utc then Some "UTC"%string else None)) values).

(** ** Strings *)

(** [long_backref]: seven bits per byte, low first, until a byte below 0x80.
    Returns the distance and the bytes consumed. *)
Fixpoint long_backref_loop (row : nat) (index : nat) (distance shift : Z) (l : bytes)
    : res DecodeError (Z * nat) :=
  match l with
  | [] => Err (DE_InvalidBackref row)
  | byte :: l =>
      let low := Z.land byte 127 in
      if Z.shiftr usize_max shift <? low then Err (DE_InvalidBackref row)
      else
        let part := Z.shiftl low shift in
        distance ← ok_or (checked_add distance part) (DE_InvalidBackref row);
        if byte <? 128 then Ok (distance, S index)
        else if shift + 7 <? 64 then long_backref_loop row (S index) distance (shift + 7) l
        else Err (DE_InvalidBackref row)
  end.
Definition long_backref (row : nat) (l : bytes) : res DecodeError (Z * nat) :=
  long_backref_loop row 0 0 0 l.

(** The NUL-terminated literal at [pos]: its text and the position after it. *)
Definition literal_at (data : bytes) (row pos : nat) : res DecodeError (bytes * nat) :=
  let tail := drop pos data in
  finish ← ok_or (position (λ b, b =? 0) tail) (DE_InvalidValue row "string is not NUL-terminated");
  let value := take finish tail in
  _ ← ensure (utf8_valid value) (DE_InvalidUtf8 row);
  Ok (value, (pos + finish + 1)%nat).

Definition offset_limit_message : string :=
  "UTF-8 column exceeds Arrow's 32-bit offset limit; lower adbc.monetdb.read_batch_rows".

(** The fast path: [None] as soon as a back-reference appears. *)
Fixpoint strings_without_backrefs (data : bytes) (n row pos : nat) (value_bytes : Z)
    (acc : list (option bytes)) : res DecodeError (option (list (option bytes))) :=
  match n with
  | O => if (pos =? length data)%nat then Ok (Some acc)
         else Err (DE_Length (Z.of_nat pos) (len data))
  | S n =>
      first ← ok_or (data !! pos) (DE_Length (Z.of_nat pos + 1) (len data));
      if first =? 128 then
        '(distance, consumed) ← long_backref row (drop (pos + 1) data);
        if negb (distance =? 0) then Ok None
        else strings_without_backrefs data n (S row) (pos + (consumed + 1)) value_bytes (append_null acc)
      else if (129 <=? first) && (first <=? 191) then Ok None
      else
        '(value, pos) ← literal_at data row pos;
        value_bytes ← ok_or (checked_add value_bytes (len value))
                        (DE_InvalidValue row "UTF-8 column length overflows");
        if i32_max <? value_bytes then Err (DE_InvalidValue row offset_limit_message)
        else acc ← append_value acc value; strings_without_backrefs data n (S row) pos value_bytes acc
  end.

(** [history.get(row.checked_sub(distance)?)]. *)
Definition backref (history : list (option bytes)) (row : nat) (distance : Z)
    : res DecodeError (option bytes) :=
  index ← ok_or (checked_sub (Z.of_nat row) distance) (DE_InvalidBackref row);
  ok_or (history !! Z.to_nat index) (DE_InvalidBackref row).

(** The value of one row and the position after it. *)
Definition string_value (data : bytes) (row pos : nat) (history : list (option bytes))
    : res DecodeError (option bytes * nat) :=
  first ← ok_or (data !! pos) (DE_Length (Z.of_nat pos + 1) (len data));
  if first =? 128 then
    '(distance, consumed) ← long_backref row (drop (pos + 1) data);
    if distance =? 0 then Ok (None, (pos + (consumed + 1))%nat)
    else value ← backref history row distance; Ok (value, (pos + (consumed + 1))%nat)
  else if (129 <=? first) && (first <=? 191) then
    value ← backref history row (first - 128); Ok (value, (pos + 1)%nat)
  else '(value, pos) ← literal_at data row pos; Ok (Some value, pos).

Definition expansion_limit (data : bytes) : Z := Z.max (saturating_mul (len data) 16) (1024 * 1024).

(** The reference decoder; the history has the rows the builder has. *)
Fixpoint strings_with_backrefs (data : bytes) (n row pos : nat) (value_bytes : Z)
    (history : list (option bytes)) : res DecodeError (list (option bytes)) :=
  match n with
  | O => if (pos =? length data)%nat then Ok history
         else Err (DE_Length (Z.of_nat pos) (len data))
  | S n =>
      '(value, pos) ← string_value data row pos history;
      match value with
      | Some text =>
          value_bytes ← ok_or (checked_add value_bytes (len text))
                          (DE_InvalidValue row "UTF-8 column length overflows");
          if (i32_max <? value_bytes) || (expansion_limit data <? value_bytes)
          then Err (DE_InvalidValue row
                 "UTF-8 back-references expand beyond the allowed wire-size multiple")
          else history ← append_value history text; strings_with_backrefs data n (S row) pos value_bytes history
      | None => strings_with_backrefs data n (S row) pos value_bytes (append_null history)
      end
  end.

Definition decode_strings_without_backrefs (data : bytes) (rows : nat)
    : res DecodeError (option (list (option bytes))) := strings_without_backrefs data rows 0 0 0 [].

Definition decode_strings_with_backrefs (data : bytes) (rows : nat)
    : res DecodeError (list (option bytes)) := strings_with_backrefs data rows 0 0 0 [].

Definition decode_strings (data : bytes) (rows : nat) : res DecodeError (list (option bytes)) :=
  if (length data <? rows)%nat then
    Err (DE_InvalidColumn "string column contains fewer encoded bytes than declared rows")
  else if i32_max <? len data then Err (DE_InvalidColumn offset_limit_message)
  else
    array ← decode_strings_without_backrefs data rows;
    match array with
    | Some array => Ok array
    | None => decode_strings_with_backrefs data rows
    end.

(** ** Blobs, UUIDs, addresses *)

Fixpoint blob_loop (data : bytes) (n row : nat) (pos value_bytes : Z) (acc : list (option bytes))
    : res DecodeError (list (option bytes)) :=
  match n with
  | O => if pos =? len data then Ok acc else Err (DE_Length pos (len data))
  | S n =>
      header_end ← ok_or (checked_add pos 8) (DE_InvalidValue row "BLOB header offset overflows");
      header ← ok_or (slice_get data pos header_end) (DE_Length header_end (len data));
      let length := i_from_le header in
      let pos := pos + 8 in
      if length =? -1 then blob_loop data n (S row) pos value_bytes (append_null acc)
      else if length <? -1 then
        Err (DE_InvalidValue row "BLOB length is negative but is not the -1 NULL sentinel")
      else
        length ← ok_or (usize_try_from length) (DE_InvalidValue row "blob length does not fit in memory");
        value_end ← ok_or (checked_add pos length) (DE_InvalidValue row "BLOB value offset overflows");
        value ← ok_or (slice_get data pos value_end) (DE_Length value_end (len data));
        value_bytes ← ok_or (checked_add value_bytes length)
                        (DE_InvalidValue row "BLOB column length overflows");
        if i32_max <? value_bytes
        then Err (DE_InvalidValue row "BLOB column exceeds Arrow's 32-bit offset limit")
        else acc ← append_value acc value; blob_loop data n (S row) (pos + length) value_bytes acc
  end.

Definition decode_blob (data : bytes) (rows : nat) : res DecodeError ArrayRef :=
  minimum ← ok_or (checked_mul (Z.of_nat rows) 8) (DE_InvalidColumn "BLOB header length overflows");
  if len data <? minimum then Err (DE_Length minimum (len data))
  else if i32_max <? saturating_sub (len data) minimum
  then Err (DE_InvalidColumn "BLOB column exceeds Arrow's 32-bit offset limit")
  else ABytes DBinary <$> blob_loop data rows 0 0 0 [].

(** An all-zero cell is null. *)
Definition zero_null (cell : bytes) : option bytes := if all_byte 0 cell then None else Some cell.

Definition decode_uuid (data : bytes) (rows : nat) : res DecodeError ArrayRef :=
  _ ← expect_fixed data (Z.of_nat rows) 16;
  Ok (ABytes (DFixedSizeBinary 16) (zero_null <$> chunks 16 data)).

(** Nothing limits the text of the addresses before it is appended. *)
Fixpoint inet_loop (text : bytes → bytes) (cells : list bytes) (acc : list (option bytes)) : res DecodeError (list (option bytes)) :=
  match cells with
  | [] => Ok acc
  | cell :: cells =>
      if all_byte 0 cell then inet_loop text cells (append_null acc)
      else acc ← append_value acc (text cell); inet_loop text cells acc
  end.

Definition decode_inet (data : bytes) (rows : nat) : res DecodeError ArrayRef :=
  width ← (if len data =? saturating_mul (Z.of_nat rows) 4 then Ok 4%nat
           else if len data =? saturating_mul (Z.of_nat rows) 16 then Ok 16%nat
           else Err (DE_InvalidColumn "INET column length is neither 4 nor 16 bytes per row"));
  let text (cell : bytes) := if (width =? 4)%nat then fmt_ipv4 cell else fmt_ipv6 cell in
  ABytes DUtf8 <$> inet_loop text (chunks width data) [].

(** ** One column *)

(** [f32::is_nan] and [f64::is_nan] on the bits. *)
Definition f32_is_nan (bits : Z) : bool := 2139095040 <? Z.land bits 2147483647.
Definition f64_is_nan (bits : Z) : bool := 9218868437227405312 <? Z.land bits 9223372036854775807.

Definition decode_column (data_type : MonetType) (data : bytes) (rows : nat) : res DecodeError ArrayRef :=
  match data_type with
  | MBool => decode_bool data rows
  | MTinyInt => decode_primitive DInt8 1 i_from_le (λ v, v =? i8_min) data rows
  | MSmallInt => decode_primitive DInt16 2 i_from_le (λ v, v =? i16_min) data rows
  | MInt => decode_primitive DInt32 4 i_from_le (λ v, v =? i32_min) data rows
  | MBigInt => decode_primitive DInt64 8 i_from_le (λ v, v =? i64_min) data rows
  | MHugeInt => decode_decimal data rows 38 0 true
  | MOid => decode_primitive DUInt64 8 u_from_le (λ v, v =? 2 ^ 63) data rows
  | MDecimal precision scale =>
      scale ← decimal_scale scale; decode_decimal data rows precision scale false
  | MVarchar _ | MUrl | MJson => ABytes DUtf8 <$> decode_strings data rows
  | MReal => decode_primitive DFloat32 4 u_from_le f32_is_nan data rows
  | MDouble => decode_primitive DFloat64 8 u_from_le f64_is_nan data rows
  | MMonthInterval => decode_primitive DInt32 4 i_from_le (λ v, v =? i32_min) data rows
  | MDayInterval | MSecInterval =>
      decode_primitive (DDuration Millisecond) 8 i_from_le (λ v, v =? i64_min) data rows
  | MTime | MTimeTz => decode_time data rows
  | MDate => decode_date data rows
  | MTimestamp => decode_timestamp data rows false
  | MTimestampTz => decode_timestamp data rows true
  | MBlob => decode_blob data rows
  | MUuid => decode_uuid data rows
  | MInet4 | MInet6 => decode_inet data rows
  | MGeometry | MInet | MXml => Err (DE_Unsupported data_type)
  end.

(** ** Frames *)

Definition validate_frame (frame : ExportbinFrame) (columns : list ResultColumn)
    (expected_result_id expected_start_row : Z) (requested_rows : nat) : res DecodeError nat :=
  if negb (unsigned_range 64 (frame_result_id frame) && (frame_result_id frame =? expected_result_id))
  then Err (DE_ResultId expected_result_id (frame_result_id frame))
  else if negb (frame_start_row frame =? expected_start_row)
  then Err (DE_StartRow expected_start_row (frame_start_row frame))
  else if negb (length columns =? length (frame_columns frame))%nat
  then Err (DE_ColumnCount (len columns) (len (frame_columns frame)))
  else
    row_count ← ok_or (usize_try_from (frame_row_count frame))
                  (DE_InvalidValue 0 "row count does not fit in memory");
    if Z.of_nat requested_rows <? row_count then Err (DE_RowCount (Z.of_nat requested_rows) row_count)
    else Ok (Z.to_nat row_count).

Definition record_batch (schema : list Field) (arrays : list ArrayRef) (row_count : nat)
    : res DecodeError RecordBatch :=
  match record_batch_error schema arrays row_count with
  | Some e => Err (DE_Arrow e)
  | None => Ok (mkRecordBatch schema arrays row_count)
  end.

Definition decode_columns (columns : list ResultColumn) (data : list bytes) (row_count : nat)
    : res DecodeError (list ArrayRef) :=
  map_res (λ '(column, bytes), decode_column (column_sql_type column) bytes row_count)
    (zip columns data).

Definition decode_frame_with_schema (frame : bytes) (columns : list ResultColumn)
    (expected_result_id expected_start_row : Z) (requested_rows : nat) (schema : list Field)
    : res DecodeError RecordBatch :=
  frame ← map_err DE_Frame (parse_frame frame);
  row_count ← validate_frame frame columns expected_result_id expected_start_row requested_rows;
  arrays ← decode_columns columns (frame_columns frame) row_count;
  record_batch schema arrays row_count.

Definition decode_frame (frame : bytes) (columns : list ResultColumn)
    (expected_result_id expected_start_row : Z) (requested_rows : nat) : res DecodeError RecordBatch :=
  schema ← schema_for_columns columns;
  decode_frame_with_schema frame columns expected_result_id expected_start_row requested_rows schema.

(** ** Sharing the response buffer *)

(** The alignment a column needs to be adopted, for the types that can be. *)
Definition adopt_alignment (data_type : MonetType) : option Z :=
  match data_type with
  | MTinyInt => Some 1
  | MSmallInt => Some 2
  | MInt | MReal | MMonthInterval => Some 4
  | MBigInt | MOid | MDouble | MDayInterval | MSecInterval => Some 8
  | MHugeInt => Some 16
  | MDecimal precision _ => if (19 <=? precision) && (precision <=? 38) then Some 16 else None
  | _ => None
  end.

(** [expect_fixed], then the value buffer is the slice itself when the
    address [base + start] is aligned, and the copy decoder is used otherwise. *)
Definition adopt_primitive (base : Z) (data_type : DataType) (n : nat) (from_le : bytes → Z)
    (null : Z → bool) (buffer : bytes) (r : range) (rows : nat)
    : res DecodeError (option ArrayRef) :=
  data ← or_panic (slice_get buffer r.1 r.2);
  _ ← expect_fixed data (Z.of_nat rows) (Z.of_nat n);
  if negb ((base + r.1) mod Z.of_nat n =? 0) then Ok None
  else
    let values := take rows (from_le <$> chunks n data) in
    Ok (Some (APrimitive data_type values (null_buffer ((λ v, negb (null v)) <$> values)))).

Definition adopt_decimal (base : Z) (buffer : bytes) (r : range) (rows : nat)
    (precision scale : Z) (hugeint : bool) : res DecodeError (option ArrayRef) :=
  data ← or_panic (slice_get buffer r.1 r.2);
  _ ← expect_fixed data (Z.of_nat rows) 16;
  if negb ((base + r.1) mod 16 =? 0) then Ok None
  else
    let values := take rows (i_from_le <$> chunks 16 data) in
    nulls ← validate_decimal_values values precision hugeint;
    array ← decimal_array values nulls precision scale;
    Ok (Some array).

Definition decode_owned_column (base : Z) (buffer : bytes) (r : range) (data_type : MonetType)
    (rows : nat) : res DecodeError ArrayRef :=
  adopted ←
    match data_type with
    | MTinyInt => adopt_primitive base DInt8 1 i_from_le (λ v, v =? i8_min) buffer r rows
    | MSmallInt => adopt_primitive base DInt16 2 i_from_le (λ v, v =? i16_min) buffer r rows
    | MInt => adopt_primitive base DInt32 4 i_from_le (λ v, v =? i32_min) buffer r rows
    | MBigInt => adopt_primitive base DInt64 8 i_from_le (λ v, v =? i64_min) buffer r rows
    | MOid => adopt_primitive base DUInt64 8 u_from_le (λ v, v =? 2 ^ 63) buffer r rows
    | MReal => adopt_primitive base DFloat32 4 u_from_le f32_is_nan buffer r rows
    | MDouble => adopt_primitive base DFloat64 8 u_from_le f64_is_nan buffer r rows
    | MMonthInterval => adopt_primitive base DInt32 4 i_from_le (λ v, v =? i32_min) buffer r rows
    | MDayInterval | MSecInterval =>
        adopt_primitive base (DDuration Millisecond) 8 i_from_le (λ v, v =? i64_min) buffer r rows
    | MHugeInt => adopt_decimal base buffer r rows 38 0 true
    | MDecimal precision scale =>
        if (19 <=? precision) && (precision <=? 38) then
          scale ← decimal_scale scale; adopt_decimal base buffer r rows precision scale false
        else Ok None
    | _ => Ok None
    end;
  match adopted with
  | Some array => Ok array
  | None => data ← or_panic (slice_get buffer r.1 r.2); decode_column data_type data rows
  end.

(** [bytes.len()] summed over the columns, saturating. *)
Definition column_bytes (columns : list bytes) : Z :=
  foldl (λ total column, saturating_add total (len column)) 0 columns.

Definition adoption_is_worthwhile (adoptable_bytes frame_bytes : Z) : bool :=
  (0 <? frame_bytes) && (frame_bytes - frame_bytes / 4 <=? adoptable_bytes).

(** [filter_map] over the columns whose start is aligned, then the fold. *)
Definition adoptable (base : Z) (column : ResultColumn) (r : range) : option Z :=
  alignment ← adopt_alignment (column_sql_type column);
  if ((base + r.1) mod 2 ^ 64) mod alignment =? 0 then Some (r.2 - r.1) else None.

Definition should_adopt_frame (base : Z) (columns : list ResultColumn) (ranges : list range)
    (frame_bytes : Z) : bool :=
  if frame_bytes =? 0 then false
  else
    let adoptable_bytes :=
      foldl saturating_add 0 (omap (λ '(column, r), adoptable base column r) (zip columns ranges)) in
    adoption_is_worthwhile adoptable_bytes frame_bytes.

(** [base] is the address of the response's allocation; the ranges the code
    recovers from the slices' pointers are the parsed ones. *)
Definition decode_frame_owned_with_schema (base : Z) (frame : bytes) (columns : list ResultColumn)
    (expected_result_id expected_start_row : Z) (requested_rows : nat) (schema : list Field)
    : res DecodeError RecordBatch :=
  parsed ← map_err DE_Frame (parse_frame frame);
  row_count ← validate_frame parsed columns expected_result_id expected_start_row requested_rows;
  '(_, ranges) ← map_err DE_Frame (parse_frame_ranges frame);
  let frame_bytes := column_bytes (frame_columns parsed) in
  if negb (should_adopt_frame base columns ranges frame_bytes) then
    arrays ← decode_columns columns (frame_columns parsed) row_count;
    record_batch schema arrays row_count
  else
    arrays ← map_res (λ '(column, r),
               decode_owned_column base frame r (column_sql_type column) row_count)
             (zip columns ranges);
    record_batch schema arrays row_count.

Definition decode_frame_owned (base : Z) (frame : bytes) (columns : list ResultColumn)
    (expected_result_id expected_start_row : Z) (requested_rows : nat) : res DecodeError RecordBatch :=
  schema ← schema_for_columns columns;
  decode_frame_owned_with_schema base frame columns expected_result_id expected_start_row
    requested_rows schema.
End with_arrow.

(** ** Sizing a response *)

(** Whether a fixed-width type is counted as adoptable; [None] is the
    [unreachable!] arm. *)
Definition owned_type (data_type : MonetType) : option bool :=
  match data_type with
  | MTinyInt | MSmallInt | MInt | MReal | MMonthInterval | MBigInt | MOid | MDouble
  | MDayInterval | MSecInterval | MHugeInt => Some true
  | MDecimal precision _ => Some ((19 <=? precision) && (precision <=? 38))
  | MBool | MUuid | MTime | MTimeTz | MDate | MTimestamp | MTimestampTz => Some false
  | MVarchar _ | MBlob | MUrl | MInet | MInet4 | MInet6 | MJson | MGeometry | MXml => None
  end.

Fixpoint prefers_owned_types_loop (types : list MonetType) (adoptable_bytes frame_bytes : Z)
    : res DecodeError bool :=
  match types with
  | [] => Ok (adoption_is_worthwhile adoptable_bytes frame_bytes)
  | data_type :: types =>
      match fixed_wire_width data_type with
      | None => Ok false
      | Some width =>
          owned ← or_panic (owned_type data_type);
          prefers_owned_types_loop types
            (if (owned : bool) then saturating_add adoptable_bytes width else adoptable_bytes)
            (saturating_add frame_bytes width)
      end
  end.
Definition prefers_owned_types (types : list MonetType) : res DecodeError bool :=
  prefers_owned_types_loop types 0 0.

Definition prefers_owned_frame (columns : list ResultColumn) : res DecodeError bool :=
  prefers_owned_types (column_sql_type <$> columns).

(** The accumulation over the columns. *)
Fixpoint owned_capacity_loop (rows : Z) (columns : list ResultColumn) (capacity : Z) : option Z :=
  match columns with
  | [] => Some capacity
  | column :: columns =>
      width ← fixed_wire_width (column_sql_type column);
      capacity ← checked_add capacity 31;
      payload ← checked_mul rows width;
      capacity ← checked_add capacity payload;
      owned_capacity_loop rows columns capacity
  end.

Definition owned_frame_capacity (columns : list ResultColumn) (rows : Z) : option Z :=
  capacity ← owned_capacity_loop rows columns 128;
  capacity ← checked_add capacity 31;
  toc ← checked_mul (len columns) 16;
  capacity ← checked_add capacity toc;
  checked_add capacity 8.

Definition estimated_frame_bytes_per_row (columns : list ResultColumn) (variable_value_bytes : Z) : Z :=
  foldl (λ (total : Z) (column : ResultColumn),
    let width :=
      match fixed_wire_width (column_sql_type column) with
      | Some width => width
      | None => saturating_add variable_value_bytes
                  (match column_sql_type column with MBlob => 8 | _ => 1 end)
      end in
    saturating_add total width) 0 columns.
