(* ===== verification/DecodeProofs.v ===== *)
(** Properties of the decoder of [Decode.v]: the string fast path against the
    reference decoder and its expansion bound, absence of panics, the type and
    the length of every decoded column, the shared-buffer path against the
    copy path, and the capacity reserved for a response. *)

From stdpp Require Import base list numbers strings gmap.
From S2P Require Import Prelude RustStd Types Calendar Inet Exportbin ArrowData Decode.
Local Open Scope Z_scope.

(** ** Strings *)

Lemma long_backref_loop_consumed row index distance shift l d n :
  long_backref_loop row index distance shift l = Ok (d, n) →
  (index < n ≤ index + length l)%nat.
Proof.
  revert index distance shift; induction l as [|b l IH]; intros index distance shift H; simpl in H; [done|].
  case_match; [done|]. res_inv. case_match; res_inv; simpl; [lia|].
  case_match; [|done]. apply IH in H. lia.
Qed.

Lemma long_backref_consumed row l d n :
  long_backref row l = Ok (d, n) → (0 < n ≤ length l)%nat.
Proof. intros H. apply long_backref_loop_consumed in H. lia. Qed.

Lemma literal_at_spec data row pos value pos' :
  (pos ≤ length data)%nat → literal_at data row pos = Ok (value, pos') →
  (pos' = pos + length value + 1 ∧ pos' ≤ length data)%nat ∧ utf8_valid value = true.
Proof.
  intros Hpos. unfold literal_at. intros H. res_inv.
  match goal with E : position _ _ = _ |- _ => apply position_Some in E as (l1 & x & l2 & Hd & <- & _ & _) end.
  assert (length data - pos = length l1 + S (length l2))%nat as Hlen.
  { rewrite <- length_drop, Hd, length_app. done. }
  split; [|done]. rewrite length_take, length_drop. lia.
Qed.

(** From any row on, the fast path either gives up or does what the reference
    decoder does: literals never outgrow the column. *)
Lemma fast_path_agrees data n row pos value_bytes acc :
  len data ≤ i32_max → value_bytes ≤ Z.of_nat pos → (pos ≤ length data)%nat →
  strings_without_backrefs data n row pos value_bytes acc = Ok None ∨
  strings_without_backrefs data n row pos value_bytes acc =
    Some <$> strings_with_backrefs data n row pos value_bytes acc.
Proof.
  intros Hmax. revert row pos value_bytes acc.
  induction n as [|n IH]; intros row pos value_bytes acc Hv Hpos; simpl; [right; by destruct (pos =? length data)%nat|].
  unfold string_value at 1. destruct (data !! pos) as [first|] eqn:Hfirst; simpl; [|by right].
  apply lookup_lt_Some in Hfirst.
  destruct (first =? 128) eqn:E128.
  - destruct (long_backref row (drop (pos + 1) data)) as [[d k]| |] eqn:Hb; simpl; [|by right..].
    apply long_backref_consumed in Hb. rewrite length_drop in Hb.
    destruct (d =? 0) eqn:Ed; simpl; [|by left]. apply IH; lia.
  - destruct ((129 <=? first) && (first <=? 191)); [by left|].
    destruct (literal_at data row pos) as [[value pos']| |] eqn:Hl; simpl; [|by right..].
    apply literal_at_spec in Hl as [[-> Hpos'] _]; [|lia].
    unfold checked_add, expansion_limit, saturating_mul.
    rewrite (proj2 (Z.leb_le _ _)) by range_lia. simpl.
    rewrite (proj2 (Z.ltb_ge i32_max _)) by range_lia.
    rewrite (proj2 (Z.ltb_ge (Z.max _ _) _)) by range_lia. simpl.
    destruct (append_value acc value) as [acc'| |]; cbn [mbind res_bind]; [apply IH; lia|by right..].
Qed.

(** The string decoder tries a path without back-references first and
    starts over when one appears.  On every input the result, error included,
    is that of the reference decoder run from the start. *)
Theorem decode_strings_reference data rows :
  decode_strings data rows =
  if (length data <? rows)%nat then
    Err (DE_InvalidColumn "string column contains fewer encoded bytes than declared rows")
  else if i32_max <? len data then Err (DE_InvalidColumn offset_limit_message)
  else decode_strings_with_backrefs data rows.
Proof.
  unfold decode_strings. do 2 (case_match; [done|]). bool_prop.
  unfold decode_strings_without_backrefs, decode_strings_with_backrefs.
  destruct (fast_path_agrees data rows 0 0 0 []) as [-> | ->]; [lia..|done|].
  by destruct (strings_with_backrefs _ _ _ _ _ _).
Qed.

Lemma strings_with_backrefs_bounds data n row pos value_bytes history vs :
  value_bytes = value_bytes_of history → row = length history →
  strings_with_backrefs data n row pos value_bytes history = Ok vs →
  length vs = (row + n)%nat ∧
  (value_bytes_of vs ≤ Z.max (value_bytes_of history) (Z.min i32_max (expansion_limit data))).
Proof.
  revert row pos value_bytes history.
  induction n as [|n IH]; intros row pos vb history -> -> H; simpl in H.
  { case_match; [|done]. res_inv. lia. }
  apply bind_ok in H as ([v pos'] & _ & H).
  assert (∀ vb history', history' = history ++ [v] → vb = value_bytes_of history' →
            strings_with_backrefs data n (S (length history)) pos' vb history' = Ok vs →
            length vs = (length history + S n)%nat ∧
            value_bytes_of vs ≤ Z.max (value_bytes_of history + len (default [] v))
                                  (Z.min i32_max (expansion_limit data))) as Hrest.
  { intros vb history' -> Hvb Hr. apply IH in Hr as [Hlen Hle]; [|done|rewrite length_app; simpl; lia].
    rewrite value_bytes_of_app in Hle. simpl in Hle. split; lia. }
  destruct v as [text|]; [|apply Hrest in H; [simpl in H; lia|done|unfold append_null; rewrite value_bytes_of_app; simpl; lia]].
  apply bind_ok in H as (vb & Hvb & H). apply ok_or_ok in Hvb.
  unfold checked_add in Hvb. do 2 (case_match; simplify_eq). bool_prop.
  apply bind_ok in H as (history' & [-> _]%append_value_inv & H).
  apply Hrest in H; [simpl in H; lia|done|rewrite value_bytes_of_app; simpl; lia].
Qed.

(** C28. However a response uses back-references, a decoded string column has
    the declared number of rows and its text stays within Arrow's 32-bit
    offsets and within 16 times the wire size or one mebibyte. *)
Theorem decode_strings_expansion data rows vs :
  decode_strings data rows = Ok vs →
  length vs = rows ∧ value_bytes_of vs ≤ i32_max ∧
  value_bytes_of vs ≤ Z.max (16 * len data) (1024 * 1024).
Proof.
  unfold decode_strings. do 2 (case_match; [done|]). intros Hd. bool_prop.
  assert (strings_with_backrefs data rows 0 0 0 [] = Ok vs) as Hvs.
  { revert Hd. unfold decode_strings_without_backrefs, decode_strings_with_backrefs.
    destruct (fast_path_agrees data rows 0 0 0 []) as [-> | ->]; [lia..|done|].
    by destruct (strings_with_backrefs _ _ _ _ _ _). }
  apply strings_with_backrefs_bounds in Hvs as [Hl Hb]; [|done..]. simpl in Hl, Hb.
  unfold expansion_limit, saturating_mul in Hb. unfold i32_max in *. split; [done|lia].
Qed.

Lemma decode_strings_expansion_witness :
  length [Some (str "ab"); Some (str "ab"); None] = 3%nat ∧
  value_bytes_of [Some (str "ab"); Some (str "ab"); None] ≤ i32_max ∧
  value_bytes_of [Some (str "ab"); Some (str "ab"); None] ≤
    Z.max (16 * len [97; 98; 0; 129; 128; 0]) (1024 * 1024).
Proof. apply decode_strings_expansion. vm_compute. reflexivity. Defined.

(** ** The shape of a decoded column *)

Lemma expect_fixed_ok data rows width :
  0 ≤ rows → 0 ≤ width → is_ok (expect_fixed data rows width) = true ↔
  len data = rows * width ∧ rows * width ≤ usize_max.
Proof.
  intros. unfold expect_fixed, checked_mul. destruct (Z.leb_spec (rows * width) usize_max); simpl.
  - case_bool_decide; simpl; [naive_solver|]. split; [done|]. naive_solver.
  - split; [done|]. lia.
Qed.

Lemma expect_fixed_inv data rows width u :
  0 ≤ rows → 0 ≤ width → expect_fixed data rows width = Ok u → len data = rows * width.
Proof. intros. apply expect_fixed_ok; [lia..|]. by rewrite H1. Qed.

Lemma expect_fixed_chunks data (rows n : nat) u :
  (0 < n)%nat → expect_fixed data (Z.of_nat rows) (Z.of_nat n) = Ok u →
  length (chunks n data) = rows ∧ Forall (λ c, length c = n) (chunks n data) ∧
  concat (chunks n data) = data.
Proof.
  intros Hn H. apply expect_fixed_inv in H; [|lia..].
  destruct (chunks_spec n rows data) as (? & ? & ?); [lia|lia|]. done.
Qed.

Lemma decode_primitive_ok dt n from_le null data rows a :
  (0 < n)%nat → decode_primitive dt n from_le null data rows = Ok a →
  array_data_type a = dt ∧ array_len a = rows.
Proof.
  intros Hn. unfold decode_primitive. intros H. res_inv. split; [done|]. simpl.
  destruct (expect_fixed_chunks data rows n _ Hn E) as (Hl & _).
  rewrite length_take, length_fmap, Hl. lia.
Qed.

Lemma decode_bool_ok data rows a :
  decode_bool data rows = Ok a → array_data_type a = DBoolean ∧ array_len a = rows.
Proof.
  unfold decode_bool. intros H. res_inv. case_match; res_inv. split; [done|]. simpl.
  apply expect_fixed_inv in E; [|lia..]. rewrite length_fmap. lia.
Qed.

(** A column that is one result per chunk. *)
Lemma chunked_column_ok {B} (n : nat) (f : nat → bytes → res DecodeError B) data rows u vs :
  (0 < n)%nat → expect_fixed data (Z.of_nat rows) (Z.of_nat n) = Ok u →
  mapi_res f 0 (chunks n data) = Ok vs → length vs = rows.
Proof.
  intros Hn He Hm. destruct (expect_fixed_chunks data rows n u Hn He) as (Hl & _).
  apply mapi_res_length in Hm. lia.
Qed.

Lemma blob_loop_length data n row pos vb acc vs :
  blob_loop data n row pos vb acc = Ok vs → length vs = (length acc + n)%nat.
Proof.
  revert row pos vb acc; induction n as [|n IH]; intros row pos vb acc H; simpl in H.
  { case_match; [|done]. res_inv. lia. }
  apply bind_ok in H as (he & _ & H). apply bind_ok in H as (header & _ & H).
  case_match. { apply IH in H. unfold append_null in H. rewrite length_app in H. simpl in H. lia. }
  case_match; [done|]. apply bind_ok in H as (l & _ & H). apply bind_ok in H as (ve & _ & H).
  apply bind_ok in H as (v & _ & H). apply bind_ok in H as (vb' & _ & H).
  case_match; [done|]. apply bind_ok in H as (acc' & [-> _]%append_value_inv & H).
  apply IH in H. rewrite length_app in H. simpl in H. lia.
Qed.

(** What the addresses of an INET column are, and when the builder takes them. *)
Definition inet_texts (text : bytes → bytes) (cells : list bytes) : list (option bytes) :=
  (λ cell, text <$> zero_null cell) <$> cells.

Lemma inet_texts_cons text cell cells :
  inet_texts text (cell :: cells) = (if all_byte 0 cell then None else Some (text cell)) :: inet_texts text cells.
Proof. cbn. unfold zero_null. by destruct (all_byte 0 cell). Qed.

Lemma inet_loop_eq text cells acc :
  value_bytes_of acc ≤ i32_max →
  inet_loop text cells acc =
  if i32_max <? value_bytes_of (acc ++ inet_texts text cells) then Panic else Ok (acc ++ inet_texts text cells).
Proof.
  revert acc. induction cells as [|cell cells IH]; intros acc Hacc; cbn [inet_loop].
  { change (inet_texts text []) with ([] : list (option bytes)). rewrite app_nil_r. by rewrite (proj2 (Z.ltb_ge _ _)) by lia. }
  rewrite inet_texts_cons, cons_middle, app_assoc. destruct (all_byte 0 cell).
  - apply IH. rewrite value_bytes_of_app. simpl. lia.
  - unfold append_value. destruct (Z.ltb_spec i32_max (value_bytes_of (acc ++ [Some (text cell)]))) as [Hb|Hb]; cbn [mbind res_bind].
    + symmetry. apply Z.ltb_lt in Hb as Ht. case_match eqn:Hc; [done|]. rewrite value_bytes_of_app in Hc. bool_prop.
      pose proof (value_bytes_of_nonneg (inet_texts text cells)). lia.
    + by apply IH.
Qed.

Lemma inet_texts_bytes (n : nat) text cells :
  Forall (λ cell, (length (text cell) ≤ n)%nat) cells → value_bytes_of (inet_texts text cells) ≤ Z.of_nat n * len cells.
Proof.
  induction 1 as [|cell cells Hc _ IH]; [cbn; lia|].
  rewrite inet_texts_cons. destruct (all_byte 0 cell); cbn [value_bytes_of foldr default length]; fold (value_bytes_of (inet_texts text cells)); unfold id; lia.
Qed.

Lemma decode_strings_rows data rows vs : decode_strings data rows = Ok vs → length vs = rows.
Proof.
  unfold decode_strings. do 2 (case_match; [done|]). intros Hd. bool_prop.
  revert Hd. unfold decode_strings_without_backrefs, decode_strings_with_backrefs.
  destruct (fast_path_agrees data rows 0 0 0 []) as [-> | ->]; [lia..|simpl|].
  - intros Hvs. apply strings_with_backrefs_bounds in Hvs as [Hl _]; done.
  - destruct (strings_with_backrefs _ _ _ _ _ _) as [ws| |] eqn:Hvs; simpl; [|done..].
    intros [= ->]. apply strings_with_backrefs_bounds in Hvs as [Hl _]; done.
Qed.

Section with_arrow_laws.
Context `{ArrowLaws}.

(** A decimal column of an admissible type has no error of Arrow's. *)
Lemma decimal_array_ok values nulls precision scale :
  1 ≤ precision ≤ 38 → 0 ≤ scale ≤ precision →
  decimal_array values nulls precision scale =
  Ok (APrimitive (DDecimal128 precision scale) values nulls).
Proof. intros. unfold decimal_array. by rewrite decimal_accepts. Qed.

Lemma decimal_width_cases precision :
  1 ≤ precision ≤ 38 →
  ∃ n : nat, decimal_width precision = Some (Z.of_nat n) ∧
    n ∈ [1; 2; 4; 8; 16]%nat ∧ 10 ^ precision ≤ 2 ^ (8 * Z.of_nat n - 1).
Proof.
  intros Hp. unfold decimal_width.
  assert (∀ (n : nat) k, 1 ≤ precision ≤ k → 10 ^ k ≤ 2 ^ (8 * Z.of_nat n - 1) →
            10 ^ precision ≤ 2 ^ (8 * Z.of_nat n - 1)) as Hle.
  { intros n k Hk Hn. transitivity (10 ^ k); [|done]. apply Z.pow_le_mono_r; lia. }
  repeat (case_match; bool_prop).
  - exists 1%nat. split_and!; [done|set_solver|apply (Hle _ 2); [lia|by vm_compute]].
  - exists 2%nat. split_and!; [done|set_solver|apply (Hle _ 4); [lia|by vm_compute]].
  - exists 4%nat. split_and!; [done|set_solver|apply (Hle _ 9); [lia|by vm_compute]].
  - exists 8%nat. split_and!; [done|set_solver|apply (Hle _ 18); [lia|by vm_compute]].
  - exists 16%nat. split_and!; [done|set_solver|apply (Hle _ 38); [lia|by vm_compute]].
  - exfalso. repeat match goal with H : _ && _ = false |- _ => apply andb_false_iff in H as [?|?] end;
      bool_prop; lia.
Qed.

(** [decode_decimal] for an admissible type: one check of the length, one of
    every row, whatever the width. *)
Lemma decode_decimal_eq data rows precision scale (hugeint : bool) n :
  1 ≤ precision ≤ 38 → 0 ≤ scale ≤ precision →
  (if hugeint then Some 16 else decimal_width precision) = Some (Z.of_nat n) →
  decode_decimal data rows precision scale hugeint =
  (_ ← expect_fixed data (Z.of_nat rows) (Z.of_nat n);
   let values := i_from_le <$> chunks n data in
   valid ← mapi_res (decimal_row (10 ^ precision) (- 2 ^ (8 * Z.of_nat n - 1)) hugeint) 0 values;
   Ok (APrimitive (DDecimal128 precision scale) values (null_buffer valid))).
Proof.
  intros Hp Hs Hn. unfold decode_decimal.
  rewrite !(proj2 (Z.leb_le _ _)), !(proj2 (Z.ltb_ge _ _)) by lia. cbn [negb andb orb].
  rewrite Hn. cbn [or_panic mbind res_bind].
  destruct (expect_fixed data _ _); cbn [mbind res_bind]; [|done..].
  destruct (Z.eqb_spec (Z.of_nat n) 16) as [Hw|Hw].
  - replace n with 16%nat by lia. unfold validate_decimal_values.
    change (- 2 ^ (8 * Z.of_nat 16 - 1)) with i128_min.
    destruct (mapi_res _ _ _); cbn [mbind res_bind]; [|done..]. by apply decimal_array_ok.
  - unfold decode_decimal_width. rewrite Nat2Z.id.
    destruct (mapi_res _ _ _); cbn [mbind res_bind]; [|done..]. by apply decimal_array_ok.
Qed.

Lemma decode_decimal_ok data rows precision scale hugeint a :
  1 ≤ precision ≤ 38 → 0 ≤ scale ≤ precision →
  decode_decimal data rows precision scale hugeint = Ok a →
  array_data_type a = DDecimal128 precision scale ∧ array_len a = rows.
Proof.
  intros Hp Hs. destruct (decimal_width_cases precision Hp) as (n & Hn & Hn' & _).
  assert (∃ m, (0 < m)%nat ∧ (if hugeint then Some 16 else decimal_width precision) = Some (Z.of_nat m))
    as (m & Hm & Hw).
  { destruct hugeint; [by exists 16%nat; split; [lia|]|]. exists n. split; [|done]. set_unfold. lia. }
  rewrite (decode_decimal_eq _ _ _ _ _ m) by done. intros Hd. res_inv. split; [done|]. simpl.
  destruct (expect_fixed_chunks data rows m _ Hm E) as (Hl & _). by rewrite length_fmap.
Qed.

Lemma decode_inet_ok data rows a :
  len data ≤ isize_max → decode_inet data rows = Ok a →
  array_data_type a = DUtf8 ∧ array_len a = rows.
Proof.
  intros Hmax. unfold decode_inet. intros Hd. res_inv. split; [done|]. simpl.
  match goal with E : inet_loop _ _ _ = Ok _ |- _ => rewrite inet_loop_eq in E by done; case_match; [done|]; injection E as <- end.
  unfold inet_texts. cbn [app]. rewrite length_fmap.
  unfold saturating_mul in E.
  destruct (Z.eqb_spec (len data) (Z.min (Z.of_nat rows * 4) usize_max)) as [H4|H4].
  { simplify_eq. destruct (chunks_spec 4 rows data) as (_ & ? & _); [lia|range_lia|done]. }
  destruct (Z.eqb_spec (len data) (Z.min (Z.of_nat rows * 16) usize_max)) as [H16|H16]; [|done].
  simplify_eq. destruct (chunks_spec 16 rows data) as (_ & ? & _); [lia|range_lia|done].
Qed.

(** The data type of a column whose type the schema admits. *)
Lemma decimal_scale_ok scale s : decimal_scale scale = Ok s → s = scale.
Proof. unfold decimal_scale. case_match; intros; by res_inv. Qed.

Definition is_inet (t : MonetType) : bool := match t with MInet4 | MInet6 => true | _ => false end.

Lemma decode_column_shape t data rows dt a :
  monet_type_ok t = true → (is_inet t = true → len data ≤ isize_max) → data_type_for_monet_type t = Ok dt →
  decode_column t data rows = Ok a → array_data_type a = dt ∧ array_len a = rows.
Proof.
  intros Hok Hmax Hdt Hd.
  destruct t; simpl in Hdt, Hd; simplify_eq;
    try (eapply decode_primitive_ok; [|exact Hd]; lia);
    try (by apply decode_bool_ok in Hd);
    try (apply decode_inet_ok in Hd; [done|by apply Hmax]);
    try (eapply decode_decimal_ok; [| |exact Hd]; lia);
    try (res_inv; split; [done|]; by eapply decode_strings_rows).
  - apply decimal_data_type_ok in Hdt as (-> & ? & ?).
    res_inv. apply decimal_scale_ok in E as ->.
    simpl in Hok. bool_prop. unfold unsigned_range in *. bool_prop.
    eapply decode_decimal_ok; [| |exact Hd]; lia.
  - unfold decode_time in Hd. res_inv. split; [done|]. simpl. rewrite length_fmap.
    by eapply (chunked_column_ok 8); [lia|..].
  - unfold decode_time in Hd. res_inv. split; [done|]. simpl. rewrite length_fmap.
    by eapply (chunked_column_ok 8); [lia|..].
  - unfold decode_date in Hd. res_inv. split; [done|]. simpl. rewrite length_fmap.
    by eapply (chunked_column_ok 4); [lia|..].
  - unfold decode_timestamp in Hd. res_inv. split; [done|]. simpl. rewrite length_fmap.
    by eapply (chunked_column_ok 12); [lia|..].
  - unfold decode_timestamp in Hd. res_inv. split; [done|]. simpl. rewrite length_fmap.
    by eapply (chunked_column_ok 12); [lia|..].
  - unfold decode_blob in Hd. apply bind_ok in Hd as (m & _ & Hd). do 2 (case_match; [done|]).
    res_inv. split; [done|]. by apply blob_loop_length in E.
  - unfold decode_uuid in Hd. res_inv. split; [done|]. simpl. rewrite length_fmap.
    by destruct (expect_fixed_chunks data rows 16 _ ltac:(lia) E) as (Hl & _).
Qed.

(** ** Decoding neither panics nor trips a check of Arrow's *)

(** Outcomes a well-typed column can have. *)
Definition clean {A} (r : res DecodeError A) : Prop :=
  match r with Panic | Err (DE_Arrow _) => False | _ => True end.

Lemma clean_bind {A B} (f : A → res DecodeError B) m :
  clean m → (∀ a, m = Ok a → clean (f a)) → clean (m ≫= f).
Proof. destruct m; simpl; [intros _ Hf; by apply Hf|done..]. Qed.

Lemma clean_fmap {A B} (f : A → B) m : clean m → clean (f <$> m).
Proof. by destruct m. Qed.

Lemma clean_ok_or {A} (o : option A) e : clean (Err (A := A) e) → clean (ok_or o e).
Proof. by destruct o. Qed.

Lemma clean_mapi {A B} (f : nat → A → res DecodeError B) i l :
  (∀ j x, x ∈ l → clean (f j x)) → clean (mapi_res f i l).
Proof.
  revert i; induction l as [|x l IH]; intros i Hf; simpl; [done|].
  apply clean_bind; [apply Hf; set_solver|]. intros y _.
  apply clean_bind; [apply IH; intros; apply Hf; set_solver|]. done.
Qed.

Ltac clean_step :=
  match goal with
  | |- clean (Ok _) => exact I
  | |- clean (Err _) => exact I
  | |- clean (ok_or _ _) => apply clean_ok_or
  | |- clean (ensure ?b _) => destruct b; exact I
  | |- clean (mbind _ _) => apply clean_bind; [|intros ? ?]
  | |- clean (fmap _ _) => apply clean_fmap
  | |- clean (mapi_res _ _ _) => apply clean_mapi; intros ? ? ?
  | |- clean (match ?x with _ => _ end) => destruct x eqn:?
  end.
Ltac cleaning := repeat (clean_step; cbn zeta in *).

Lemma clean_expect_fixed data rows width : clean (expect_fixed data rows width).
Proof. unfold expect_fixed. cleaning. Qed.

Lemma clean_long_backref_loop row i d s l : clean (long_backref_loop row i d s l).
Proof. revert i d s; induction l as [|b l IH]; intros; simpl; [done|]. cleaning. apply IH. Qed.

Lemma clean_long_backref row l : clean (long_backref row l).
Proof. apply clean_long_backref_loop. Qed.

(** The counter of a decoder is the size of what it has appended, so that the
    limit it checks keeps the builder's offsets in range. *)
Lemma clean_append acc value : value_bytes_of acc + len value ≤ i32_max → clean (append_value acc value).
Proof. intros Hb. by rewrite append_value_ok. Qed.

Lemma append_value_counts {E} acc value acc' :
  append_value (E := E) acc value = Ok acc' → value_bytes_of acc' = value_bytes_of acc + len value.
Proof. intros [-> _]%append_value_inv. rewrite value_bytes_of_app. simpl. lia. Qed.

Lemma append_null_counts acc : value_bytes_of (append_null acc) = value_bytes_of acc.
Proof. unfold append_null. rewrite value_bytes_of_app. simpl. lia. Qed.

Lemma checked_add_ok {E} a b (e : E) c : ok_or (checked_add a b) e = Ok c → c = a + b.
Proof. unfold checked_add. case_match; cbn; [|done]. by intros [= <-]. Qed.

Ltac clean_count :=
  subst; rewrite ?append_null_counts;
  repeat match goal with
  | E : ok_or (checked_add _ _) _ = Ok _ |- _ => apply checked_add_ok in E
  | E : append_value _ _ = Ok _ |- _ => apply append_value_counts in E
  | E : ok_or (slice_get _ _ _) _ = Ok _ |- _ => apply ok_or_ok, slice_get_Some in E as (_ & _ & E & _)
  | E : (_ || _) = false |- _ => apply orb_false_iff in E as [? ?]
  end; bool_prop; subst; lia.

Lemma clean_strings_without_backrefs data n row pos vb acc :
  vb = value_bytes_of acc → clean (strings_without_backrefs data n row pos vb acc).
Proof.
  revert row pos vb acc; induction n as [|n IH]; intros row pos vb acc Hvb; simpl; unfold literal_at; cleaning;
    lazymatch goal with
    | |- clean (long_backref _ _) => apply clean_long_backref
    | |- clean (append_value _ _) => apply clean_append
    | |- clean (strings_without_backrefs _ _ _ _ _ _) => apply IH
    end; clean_count.
Qed.

Lemma clean_strings_with_backrefs data n row pos vb acc :
  vb = value_bytes_of acc → clean (strings_with_backrefs data n row pos vb acc).
Proof.
  revert row pos vb acc; induction n as [|n IH]; intros row pos vb acc Hvb; simpl; unfold string_value, literal_at, backref;
    cleaning;
    lazymatch goal with
    | |- clean (long_backref _ _) => apply clean_long_backref
    | |- clean (append_value _ _) => apply clean_append
    | |- clean (strings_with_backrefs _ _ _ _ _ _) => apply IH
    end; clean_count.
Qed.

Lemma clean_blob_loop data n row pos vb acc : vb = value_bytes_of acc → clean (blob_loop data n row pos vb acc).
Proof.
  revert row pos vb acc; induction n as [|n IH]; intros row pos vb acc Hvb; simpl; cleaning;
    lazymatch goal with
    | |- clean (append_value _ _) => apply clean_append
    | |- clean (blob_loop _ _ _ _ _ _) => apply IH
    end; clean_count.
Qed.

Lemma clean_date_value row c : length c = 4%nat → clean (date_value row c).
Proof. intros Hc. destruct c as [|? [|? [|? [|? [|? ?]]]]]; try done. unfold date_value. cleaning. Qed.

Lemma clean_time_value row c : length c = 8%nat → clean (time_value row c).
Proof.
  intros Hc. do 8 (destruct c as [|? c]; [done|]). destruct c; [|done]. unfold time_value. cleaning.
Qed.

Lemma clean_timestamp_value row c : length c = 12%nat → clean (timestamp_value row c).
Proof.
  intros Hc. unfold timestamp_value. cleaning.
  - apply clean_time_value. rewrite length_take. lia.
  - apply clean_date_value. rewrite length_drop. lia.
Qed.

Lemma clean_decode_decimal data rows precision scale hugeint :
  clean (decode_decimal data rows precision scale hugeint).
Proof.
  destruct (decide (1 ≤ precision ≤ 38 ∧ 0 ≤ scale ≤ precision)) as [[Hp Hs]|Hno].
  - destruct (decimal_width_cases precision Hp) as (n & Hn & _).
    rewrite (decode_decimal_eq _ _ _ _ _ (if hugeint then 16 else n)%nat) by (done || by destruct hugeint).
    unfold decimal_row. cleaning. apply clean_expect_fixed.
  - unfold decode_decimal. case_match; [done|]. bool_prop. exfalso. apply Hno. lia.
Qed.

Lemma clean_decode_bool data rows : clean (decode_bool data rows).
Proof.
  unfold decode_bool. cleaning; try apply clean_expect_fixed.
  unfold or_panic. destruct (position _ _) eqn:Hp; [done|]. apply position_None in Hp.
  match goal with E : existsb _ _ = true |- _ => apply existsb_exists in E as (x & Hin & Hx) end.
  rewrite Forall_forall in Hp. apply list_elem_of_In in Hin. rewrite Hp in Hx by done. done.
Qed.

(** The largest number of rows whose addresses, of at most 39 characters, fit. *)
Definition inet_rows_fit (rows : nat) : Prop := 39 * Z.of_nat rows ≤ i32_max.

Lemma decode_inet_values data rows :
  inet_rows_fit rows → len data = Z.of_nat rows * 4 ∨ len data = Z.of_nat rows * 16 →
  ∃ n text, (n = 4%nat ∨ n = 16%nat) ∧ decode_inet data rows = Ok (ABytes DUtf8 (inet_texts text (chunks n data))).
Proof.
  unfold inet_rows_fit. intros Hfit Hlen. assert (Z.of_nat rows * 16 ≤ usize_max) by range_lia.
  assert (∀ (n : nat) text, (n = 4 ∨ n = 16)%nat → len data = Z.of_nat rows * Z.of_nat n →
            (∀ c, length c = n → (length (text c) ≤ 39)%nat) →
            inet_loop text (chunks n data) [] = Ok (inet_texts text (chunks n data))) as Hloop.
  { intros n text Hn Hd Ht. destruct (chunks_spec n rows data) as (_ & Hl & Hall); [lia|lia|].
    rewrite inet_loop_eq by done. cbn [app]. rewrite (proj2 (Z.ltb_ge _ _)); [done|].
    etransitivity; [apply (inet_texts_bytes 39)|lia]. eapply Forall_impl; [exact Hall|]. intros c Hc. by apply Ht. }
  unfold decode_inet, saturating_mul. rewrite !Z.min_l by lia.
  destruct (Z.eqb_spec (len data) (Z.of_nat rows * 4)) as [H4|H4]; cbn [mbind res_bind].
  - exists 4%nat, fmt_ipv4. split; [by left|]. cbn [Nat.eqb]. rewrite (Hloop 4%nat); [done|by left|done|].
    intros c _. pose proof (length_fmt_ipv4 c). lia.
  - destruct Hlen as [|Hlen]; [done|]. rewrite (proj2 (Z.eqb_eq _ _) Hlen). cbn [mbind res_bind].
    exists 16%nat, fmt_ipv6. split; [by right|]. cbn [Nat.eqb]. rewrite (Hloop 16%nat); [done|by right|done|].
    intros c. apply length_fmt_ipv6.
Qed.

Lemma clean_decode_inet data rows : inet_rows_fit rows → clean (decode_inet data rows).
Proof.
  intros Hfit. destruct (decide (len data = Z.of_nat rows * 4 ∨ len data = Z.of_nat rows * 16)) as [Hlen|Hlen].
  { by destruct (decode_inet_values data rows Hfit Hlen) as (n & text & _ & ->). }
  unfold decode_inet, saturating_mul. unfold inet_rows_fit in Hfit. rewrite !Z.min_l by range_lia.
  rewrite !(proj2 (Z.eqb_neq _ _)) by lia. done.
Qed.

(** Without a bound on the rows an INET column overflows the builder. *)
Lemma decode_inet_overflows rows :
  i32_max < 7 * Z.of_nat rows → Z.of_nat rows * 4 ≤ usize_max →
  decode_column MInet4 (concat (replicate rows [1; 1; 1; 1])) rows = Panic.
Proof.
  intros Hover Hmax. cbn [decode_column]. unfold decode_inet, saturating_mul. rewrite !Z.min_l by range_lia.
  assert (Forall (λ c : bytes, length c = 4%nat) (replicate rows [1; 1; 1; 1])) as Hall by by apply Forall_replicate.
  assert (len (concat (replicate rows [1; 1; 1; 1])) = Z.of_nat rows * 4) as Hlen.
  { clear. induction rows as [|rows IH]; [done|]. cbn [replicate concat]. rewrite length_app. cbn [length]. lia. }
  rewrite (proj2 (Z.eqb_eq _ _) Hlen). cbn [mbind res_bind Nat.eqb]. rewrite (chunks_concat 4) by (done || lia).
  rewrite inet_loop_eq by done. cbn [app].
  change (inet_texts _ (replicate rows [1; 1; 1; 1])) with (inet_texts fmt_ipv4 (replicate rows [1; 1; 1; 1])).
  assert (value_bytes_of (inet_texts fmt_ipv4 (replicate rows [1; 1; 1; 1])) = 7 * Z.of_nat rows) as Hv.
  { clear. induction rows as [|rows IH]; [done|]. cbn [replicate]. rewrite inet_texts_cons.
    change (value_bytes_of (?v :: ?vs)) with (len (default [] v) + value_bytes_of vs). rewrite IH.
    change (len (default [] _)) with 7. lia. }
  pose proof (proj2 (Z.ltb_lt _ _) Hover) as Hb. rewrite <- Hv in Hb. by rewrite Hb.
Qed.

Lemma clean_decode_column t data rows : (is_inet t = true → inet_rows_fit rows) → clean (decode_column t data rows).
Proof.
  intros Hinet. destruct t; simpl; try (by apply clean_decode_inet, Hinet);
    unfold decode_primitive, decode_date, decode_time, decode_timestamp, decode_blob,
    decode_uuid, decode_strings, decimal_scale; cleaning;
    lazymatch goal with
    | |- True => exact I
    | |- clean (decode_bool _ _) => apply clean_decode_bool
    | |- clean (expect_fixed _ _ _) => apply clean_expect_fixed
    | |- clean (decode_decimal _ _ _ _ _) => apply clean_decode_decimal
    | |- clean (decode_strings_without_backrefs _ _) => by apply clean_strings_without_backrefs
    | |- clean (decode_strings_with_backrefs _ _) => by apply clean_strings_with_backrefs
    | |- clean (blob_loop _ _ _ _ _ _) => by apply clean_blob_loop
    | E : expect_fixed _ _ 4 = Ok _ |- _ =>
        apply clean_date_value; destruct (expect_fixed_chunks _ _ 4 _ ltac:(lia) E) as (_ & Hc & _);
        rewrite Forall_forall in Hc; by apply Hc
    | E : expect_fixed _ _ 8 = Ok _ |- _ =>
        apply clean_time_value; destruct (expect_fixed_chunks _ _ 8 _ ltac:(lia) E) as (_ & Hc & _);
        rewrite Forall_forall in Hc; by apply Hc
    | E : expect_fixed _ _ 12 = Ok _ |- _ =>
        apply clean_timestamp_value; destruct (expect_fixed_chunks _ _ 12 _ ltac:(lia) E) as (_ & Hc & _);
        rewrite Forall_forall in Hc; by apply Hc
    end.
Qed.

(** What [decode_columns] returns fits the schema of its columns. *)
Definition fits (rows : nat) (f : Field) (a : ArrayRef) : Prop :=
  field_data_type f = array_data_type a ∧ field_nullable f = true ∧ array_len a = rows.

Definition column_ok (column : ResultColumn) : Prop := monet_type_ok (column_sql_type column) = true.

(** No more than [rows] rows are asked for of a result with an INET column than an
    array of addresses can take: 55,063,683 of them. *)
Definition inet_columns_fit (columns : list ResultColumn) (rows : nat) : Prop :=
  Forall (λ column, is_inet (column_sql_type column) = true → inet_rows_fit rows) columns.

Lemma inet_columns_fit_le columns rows rows' :
  (rows' ≤ rows)%nat → inet_columns_fit columns rows → inet_columns_fit columns rows'.
Proof. unfold inet_columns_fit, inet_rows_fit. intros Hle Hf. eapply Forall_impl; [exact Hf|]. intros c Hc Hi. specialize (Hc Hi). lia. Qed.

Lemma field_for_column_ok column f :
  field_for_column column = Ok f →
  data_type_for_monet_type (column_sql_type column) = Ok (field_data_type f) ∧ field_nullable f = true.
Proof.
  unfold field_for_column, field_for_monet_type. intros Hf. res_inv. split; done.
Qed.

Lemma decode_columns_fit columns data rows schema arrays :
  Forall column_ok columns → Forall (λ d, len d ≤ isize_max) data → length columns = length data →
  schema_for_columns columns = Ok schema → decode_columns columns data rows = Ok arrays →
  Forall2 (fits rows) schema arrays.
Proof.
  unfold schema_for_columns, decode_columns. rewrite !map_res_ok.
  intros Hcols Hdata Hlen Hs. revert data arrays Hdata Hlen.
  induction Hs as [|c f columns schema Hf Hs IH]; intros data arrays Hdata Hlen Ha.
  { simpl in Ha. inversion Ha. constructor. }
  destruct data as [|d data]; [done|]. simpl in Ha.
  inversion Ha as [|? a ? arrays' Hda Ha']; subst. inversion Hcols; inversion Hdata; simplify_eq/=.
  constructor; [|by eapply IH; [..|done|lia|]; eauto].
  apply field_for_column_ok in Hf as [Ht Hn].
  destruct (decode_column_shape _ _ _ _ _ H3 (λ _, H7) Ht Hda) as [? ?]. done.
Qed.

Lemma validate_frame_ok p columns id start requested rows :
  validate_frame p columns id start requested = Ok rows →
  frame_result_id p = id ∧ frame_start_row p = start ∧
  length columns = length (frame_columns p) ∧ (rows ≤ requested)%nat ∧
  Z.of_nat rows = frame_row_count p.
Proof.
  unfold validate_frame. do 3 (case_match; [done|]). intros Hv.
  apply bind_ok in Hv as (n & Hn & Hv). apply ok_or_ok in Hn.
  unfold usize_try_from in Hn. case_match; simplify_eq. case_match; simplify_eq.
  bool_prop. unfold unsigned_range in *. bool_prop.
  repeat match goal with H : (_ =? _)%nat = true |- _ => apply Nat.eqb_eq in H end.
  split_and!; lia.
Qed.

Lemma clean_validate_frame p columns id start requested :
  clean (validate_frame p columns id start requested).
Proof. unfold validate_frame. cleaning. Qed.

Lemma clean_schema columns : clean (schema_for_columns columns).
Proof.
  apply clean_mapi. intros _ c _. unfold field_for_column, field_for_monet_type. cleaning.
  unfold data_type_for_monet_type, decimal_data_type, decimal_scale. cleaning.
Qed.

Lemma parse_frame_columns_size frame p :
  parse_frame frame = Ok p → len frame ≤ isize_max →
  Forall (λ d, len d ≤ isize_max) (frame_columns p).
Proof.
  intros Hp Hmax. destruct (parse_frame_inv _ _ Hp) as (header & ranges & _ & Hcol & _).
  clear Hp. induction Hcol as [|r c ranges columns Hrc _ IH]; constructor; [|done].
  apply slice_get_Some in Hrc. lia.
Qed.

(** The path through [decode_frame] once the frame is parsed and validated. *)
Lemma decode_frame_inv frame columns id start requested batch :
  decode_frame frame columns id start requested = Ok batch →
  ∃ schema p rows arrays,
    schema_for_columns columns = Ok schema ∧ parse_frame frame = Ok p ∧
    validate_frame p columns id start requested = Ok rows ∧
    decode_columns columns (frame_columns p) rows = Ok arrays ∧
    batch = mkRecordBatch schema arrays rows.
Proof.
  unfold decode_frame, decode_frame_with_schema, record_batch. intros Hd. res_inv.
  case_match; res_inv; [done|]. by eauto 10.
Qed.

(** With the schema of its columns, a frame decodes cleanly. *)
Lemma decode_with_schema_clean frame columns id start requested schema :
  len frame ≤ isize_max → Forall column_ok columns → inet_columns_fit columns requested →
  schema_for_columns columns = Ok schema →
  clean (decode_frame_with_schema frame columns id start requested schema).
Proof.
  intros Hmax Hcols Hinet Hs. unfold decode_frame_with_schema, record_batch. cleaning.
  - pose proof (parse_frame_no_panic frame). unfold map_err. by destruct (parse_frame frame).
  - apply clean_validate_frame.
  - unfold decode_columns. apply clean_mapi. intros _ [c d] Hin%elem_of_zip_l. apply clean_decode_column.
    match goal with Hv : validate_frame _ _ _ _ _ = Ok _ |- _ => apply validate_frame_ok in Hv as (_ & _ & _ & Hle & _) end.
    pose proof (inet_columns_fit_le _ _ _ Hle Hinet) as Hf. unfold inet_columns_fit in Hf. rewrite Forall_forall in Hf. by apply Hf.
  - res_inv. destruct (validate_frame_ok _ _ _ _ _ _ H2) as (_ & _ & Hlen & _ & _).
    rewrite record_batch_accepts in Heqo; [done|].
    eapply (decode_columns_fit columns (frame_columns a)); try done.
    by eapply parse_frame_columns_size.
Qed.

(** C16. For every response that fits in memory and every list of result
    columns, decoding ends in a batch or in one of the decoder's own errors:
    nothing panics, and no array or batch is built that Arrow's constructors
    refuse, because the checks made first are enough; in particular the limits
    on the bytes of strings and blobs keep the 32-bit offsets of Arrow's builders
    in range, where they would panic.  The exception is a column of addresses, which
    is decoded with no such limit: if there is one, the rows asked for must be
    at most 55,063,683. *)
Theorem decode_frame_clean frame columns id start requested :
  len frame ≤ isize_max → Forall column_ok columns → inet_columns_fit columns requested →
  clean (decode_frame frame columns id start requested) ∧ parse_frame_header frame ≠ Panic.
Proof.
  intros Hmax Hcols Hinet. split; [|apply parse_frame_header_no_panic].
  unfold decode_frame. pose proof (clean_schema columns) as Hc. apply clean_bind; [done|]. intros schema Hs.
  by apply decode_with_schema_clean.
Qed.

(** C29. A decoded batch is the frame that was asked for and has the shape its
    schema announces: the frame's result id and start row are the expected
    ones, it holds no more rows than were requested, and every column has its
    field's Arrow type and the batch's number of rows. *)
Theorem decode_frame_typed frame columns id start requested batch :
  len frame ≤ isize_max → Forall column_ok columns →
  decode_frame frame columns id start requested = Ok batch →
  schema_for_columns columns = Ok (batch_schema batch) ∧
  Forall2 (fits (batch_rows batch)) (batch_schema batch) (batch_columns batch) ∧
  (batch_rows batch ≤ requested)%nat ∧
  ∃ p, parse_frame frame = Ok p ∧ frame_result_id p = id ∧ frame_start_row p = start ∧
    Z.of_nat (batch_rows batch) = frame_row_count p.
Proof.
  intros Hmax Hcols Hd.
  destruct (decode_frame_inv _ _ _ _ _ _ Hd) as (schema & p & rows & arrays & Hs & Hp & Hv & Ha & ->).
  destruct (validate_frame_ok _ _ _ _ _ _ Hv) as (Hid & Hstart & Hlen & Hle & Hrows). simpl.
  split_and!; [done| |done|by exists p].
  eapply (decode_columns_fit columns (frame_columns p)); try done.
  by eapply parse_frame_columns_size.
Qed.

(** ** Sharing the response buffer changes nothing *)

(** The copy decoder is the fallback of an adopted column. *)
Definition or_decode (buffer : bytes) (r : range) (t : MonetType) (rows : nat)
    (adopted : option ArrayRef) : res DecodeError ArrayRef :=
  match adopted with
  | Some array => Ok array
  | None => data ← or_panic (slice_get buffer r.1 r.2); decode_column t data rows
  end.

Lemma adopt_primitive_eq base dt n from_le null buffer r t rows data :
  slice_get buffer r.1 r.2 = Some data →
  decode_column t data rows = decode_primitive dt n from_le null data rows →
  adopt_primitive base dt n from_le null buffer r rows ≫= or_decode buffer r t rows =
  decode_column t data rows.
Proof.
  intros Hs Ht. unfold adopt_primitive, or_decode. rewrite Hs, Ht. unfold decode_primitive. simpl.
  destruct (expect_fixed data _ _) eqn:He; simpl; [|done..].
  case_match; simpl; [|done]. rewrite Ht. unfold decode_primitive. by rewrite He.
Qed.

Lemma adopt_decimal_eq base buffer r t rows data precision scale (hugeint : bool) :
  slice_get buffer r.1 r.2 = Some data →
  1 ≤ precision ≤ 38 → 0 ≤ scale ≤ precision →
  (if hugeint then Some 16 else decimal_width precision) = Some 16 →
  decode_column t data rows = decode_decimal data rows precision scale hugeint →
  adopt_decimal base buffer r rows precision scale hugeint ≫= or_decode buffer r t rows =
  decode_column t data rows.
Proof.
  intros Hs Hp Hsc Hw Ht. unfold adopt_decimal, or_decode. rewrite Hs. simpl.
  pose proof (decode_decimal_eq data rows precision scale hugeint 16 Hp Hsc Hw) as Hd.
  change (Z.of_nat 16) with 16 in Hd. change (- 2 ^ (8 * 16 - 1)) with i128_min in Hd.
  destruct (expect_fixed data _ _) as [u|e|] eqn:He; simpl; [|by rewrite Ht, Hd..].
  destruct (negb _); simpl; [done|]. rewrite Ht, Hd. simpl.
  destruct (expect_fixed_chunks data rows 16 u ltac:(lia) He) as (Hl & _).
  rewrite take_ge by (rewrite length_fmap; lia).
  unfold validate_decimal_values.
  destruct (mapi_res _ _ _); simpl; [|done..]. by rewrite decimal_array_ok.
Qed.

Lemma decode_owned_column_eq base buffer r t rows dt data :
  monet_type_ok t = true → data_type_for_monet_type t = Ok dt →
  slice_get buffer r.1 r.2 = Some data →
  decode_owned_column base buffer r t rows = decode_column t data rows.
Proof.
  intros Hok Hdt Hs. unfold decode_owned_column.
  change (λ adopted, match adopted with
                     | Some array => Ok array
                     | None => data ← or_panic (slice_get buffer r.1 r.2); decode_column t data rows
                     end) with (or_decode buffer r t rows).
  destruct t; try (by apply adopt_primitive_eq); try (by simpl; rewrite Hs).
  - by apply adopt_decimal_eq.
  - simpl in Hdt. apply decimal_data_type_ok in Hdt as (-> & Hp & Hle).
    simpl in Hok. unfold unsigned_range in Hok. bool_prop.
    destruct ((19 <=? precision) && (precision <=? 38)) eqn:Hwide; [|by simpl; rewrite Hs].
    assert (decimal_scale scale = Ok scale) as Hsc
      by (unfold decimal_scale, signed_range; by rewrite (proj2 (Z.leb_le _ _)), (proj2 (Z.ltb_lt _ _)) by lia).
    rewrite Hsc. cbn [mbind res_bind]. apply (adopt_decimal_eq _ _ _ _ _ _ _ _ false); try done.
    + bool_prop. unfold decimal_width. repeat (case_match; bool_prop; try lia); done.
    + simpl. by rewrite Hsc.
Qed.

Lemma decode_owned_columns_eq base frame columns schema ranges data rows :
  Forall column_ok columns → schema_for_columns columns = Ok schema →
  Forall2 (λ r c, slice_get frame r.1 r.2 = Some c) ranges data →
  map_res (λ '(column, r), decode_owned_column base frame r (column_sql_type column) rows)
    (zip columns ranges) = decode_columns columns data rows.
Proof.
  intros Hcols Hs. unfold schema_for_columns in Hs. apply map_res_ok in Hs.
  unfold decode_columns, map_res. generalize 0%nat. revert ranges data.
  induction Hs as [|c f columns schema Hf Hs IH]; intros ranges data i Hr; [done|].
  destruct Hr as [|r d ranges data Hrd Hr]; [done|]. simpl.
  inversion Hcols; subst. apply field_for_column_ok in Hf as [Ht _].
  rewrite (decode_owned_column_eq _ _ _ _ _ _ d H3 Ht Hrd).
  destruct (decode_column _ _ _); simpl; [|done..]. by rewrite (IH H4 ranges data).
Qed.

Lemma decode_owned_with_schema_eq base frame columns id start requested schema :
  Forall column_ok columns → schema_for_columns columns = Ok schema →
  decode_frame_owned_with_schema base frame columns id start requested schema =
  decode_frame_with_schema frame columns id start requested schema.
Proof.
  intros Hcols Hs. unfold decode_frame_owned_with_schema, decode_frame_with_schema.
  destruct (parse_frame frame) as [p| |] eqn:Hp; simpl; [|done..].
  destruct (parse_frame_inv _ _ Hp) as (header & ranges & -> & Hcol & _).
  destruct (validate_frame p _ _ _ _) as [rows| |]; simpl; [|done..].
  destruct (should_adopt_frame _ _ _ _); simpl; [|done].
  by rewrite (decode_owned_columns_eq _ _ _ schema _ (frame_columns p)).
Qed.

(** C26. Sharing the response's allocation with the arrays is an optimisation
    only: at any address of the buffer, with any mix of aligned and unaligned
    columns, the owned decoder returns the batch (or the error) of the copying
    decoder. *)
Theorem decode_frame_owned_eq base frame columns id start requested :
  Forall column_ok columns →
  decode_frame_owned base frame columns id start requested =
  decode_frame frame columns id start requested.
Proof.
  intros Hcols. unfold decode_frame_owned, decode_frame.
  destruct (schema_for_columns columns) as [schema| |] eqn:Hs; simpl; [|done..].
  by apply decode_owned_with_schema_eq.
Qed.
End with_arrow_laws.

(** A one-row response of an INT and a VARCHAR column. *)
Definition sample_columns : list ResultColumn :=
  [mkResultColumn (str "n") MInt; mkResultColumn (str "s") (MVarchar 3)].
Definition sample_frame : bytes := build_frame 7 1 0 [to_le_bytes 4 42; str "foo" ++ [0]].
Definition sample_batch : RecordBatch :=
  mkRecordBatch [mkField (str "n") DInt32 true ∅; mkField (str "s") DUtf8 true ∅]
    [APrimitive DInt32 [42] None; ABytes DUtf8 [Some (str "foo")]] 1.

Lemma decode_frame_clean_witness :
  clean (decode_frame sample_frame sample_columns 7 0 10) ∧ parse_frame_header sample_frame ≠ Panic.
Proof. apply decode_frame_clean; [by vm_compute|by repeat constructor|by repeat constructor]. Defined.

Lemma decode_frame_typed_witness :
  decode_frame sample_frame sample_columns 7 0 10 = Ok sample_batch ∧
  Forall2 (fits 1) (batch_schema sample_batch) (batch_columns sample_batch).
Proof.
  assert (decode_frame sample_frame sample_columns 7 0 10 = Ok sample_batch) as Hd
    by (vm_compute; reflexivity).
  split; [exact Hd|].
  by destruct (decode_frame_typed sample_frame sample_columns 7 0 10 sample_batch)
    as (_ & Hf & _); [vm_compute|repeat constructor| |].
Defined.

Lemma decode_frame_owned_eq_witness :
  decode_frame_owned 4096 sample_frame sample_columns 7 0 10 =
  decode_frame sample_frame sample_columns 7 0 10.
Proof. apply decode_frame_owned_eq. by repeat constructor. Defined.

(** ** The capacity reserved for a response *)

Lemma pad32_length frame : len (pad32 frame) ≤ len frame + 31.
Proof.
  unfold pad32. rewrite length_app, length_replicate.
  pose proof (Z.mod_pos_bound (- len frame) 32 ltac:(lia)). lia.
Qed.

Lemma place_columns_length frame columns :
  len (place_columns frame columns).1 ≤ len frame + foldr (λ c n, 31 + len c + n) 0 columns ∧
  length (place_columns frame columns).2 = length columns.
Proof.
  revert frame; induction columns as [|c columns IH]; intros frame; simpl; [lia|].
  specialize (IH (pad32 frame ++ c)). destruct (place_columns (pad32 frame ++ c) columns) as [f toc].
  simpl in *. rewrite length_app in IH. pose proof (pad32_length frame). lia.
Qed.

Lemma owned_capacity_loop_spec rows columns capacity result (data : list bytes) :
  owned_capacity_loop rows columns capacity = Some result →
  Forall2 (λ column d, Some (len d) = (λ w, rows * w) <$> fixed_wire_width (column_sql_type column))
    columns data →
  result = capacity + foldr (λ c n, 31 + len c + n) 0 data.
Proof.
  intros Hc Hd. revert capacity Hc.
  induction Hd as [|column d columns data Hcd _ IH]; intros capacity Hc; simpl in *; [simplify_eq; lia|].
  destruct (fixed_wire_width _) as [w|]; simplify_eq/=.
  unfold checked_add, checked_mul in Hc. repeat (case_match; simplify_eq/=).
  apply IH in Hc. lia.
Qed.

(** The capacity reserved for an owned response is enough: a frame of
    fixed-width columns with the given number of rows, whatever its ids, is
    never longer. *)
Theorem owned_frame_capacity_enough columns rows capacity result_id start_row (data : list bytes) :
  owned_frame_capacity columns rows = Some capacity →
  Forall2 (λ column d, Some (len d) = (λ w, rows * w) <$> fixed_wire_width (column_sql_type column))
    columns data →
  signed_range 64 result_id = true → unsigned_range 64 rows = true →
  unsigned_range 64 start_row = true → len columns ≤ isize_max →
  len (build_frame result_id rows start_row data) ≤ capacity.
Proof.
  intros Hc Hd Hid Hrows Hsr Hcols. unfold owned_frame_capacity in Hc.
  destruct (owned_capacity_loop rows columns 128) as [c1|] eqn:Hl; simplify_eq/=.
  apply (owned_capacity_loop_spec _ _ _ _ data) in Hl; [|done].
  unfold checked_add, checked_mul in Hc. repeat (case_match; simplify_eq/=).
  unfold build_frame. pose proof (Forall2_length _ _ _ Hd) as Hlen.
  pose proof (place_columns_length (header_line result_id (len data) rows start_row) data) as Hp.
  assert (len (header_line result_id (len data) rows start_row) ≤ 128) as Hh.
  { rewrite header_line_text, !length_app.
    pose proof (length_header_text result_id (len data) rows start_row) as Ht.
    specialize (Ht Hid ltac:(range_lia) Hrows Hsr). simpl. lia. }
  destruct (place_columns _ data) as [f toc]. cbn [fst snd] in Hp.
  pose proof (pad32_length f). rewrite !length_app, length_to_le_bytes, Nat2Z.inj_add, Nat2Z.inj_add.
  rewrite length_toc_bytes. lia.
Qed.

Lemma owned_frame_capacity_enough_witness :
  len (build_frame 7 2 0 [to_le_bytes 4 1 ++ to_le_bytes 4 2; [1; 0]]) ≤ 271.
Proof.
  apply (owned_frame_capacity_enough
           [mkResultColumn (str "a") MInt; mkResultColumn (str "b") MBool] 2 271 7 0);
    [reflexivity|repeat constructor|reflexivity..|by vm_compute].
Defined.

(** The arm [prefers_owned_types] marks as unreachable is. *)
Lemma prefers_owned_types_no_panic types : prefers_owned_types types ≠ Panic.
Proof.
  unfold prefers_owned_types. generalize 0 at 1. generalize 0.
  induction types as [|t types IH]; intros a b; simpl; [done|].
  destruct (fixed_wire_width t) eqn:Hw; [|done]. destruct t; simpl in *; try done; apply IH.
Qed.
