(* ===== verification/Encode.v ===== *)
(** Encoding Arrow columns for COPY BINARY
    ([crates/monetdb-arrow/src/encode.rs]), for a little-endian target
    (the other branches are in [Endian]).

    Every encoder appends to its output buffer, so it is modelled by the bytes
    it appends.  Reserving memory ahead of the loops ([try_reserve_exact],
    [reserve_strings]) has no effect on the bytes and is not modelled. *)

From stdpp Require Import base list numbers strings gmap.
From S2P Require Import Prelude RustStd Types Calendar Inet ArrowData.
Local Open Scope Z_scope.

(** [f32::from(f16)] of the [half] crate, on bit patterns. *)
Class Half := { f32_from_f16 : Z → Z }.

(** ** Access to arrays *)

(** [downcast]: the array has the representation its type announces. *)
Definition downcast_primitive (array : ArrayRef) (expected : DataType)
    : res EncodeError (list Z * validity) :=
  match array with
  | APrimitive _ values nulls => Ok (values, nulls)
  | _ => Err (EE_TypeMismatch expected (array_data_type array))
  end.

Definition downcast_bytes (array : ArrayRef) (expected : DataType)
    : res EncodeError (list (option bytes)) :=
  match array with
  | ABytes _ values => Ok values
  | _ => Err (EE_TypeMismatch expected (array_data_type array))
  end.

Definition downcast_boolean (array : ArrayRef) : res EncodeError (list bool * validity) :=
  match array with
  | ABoolean values nulls => Ok (values, nulls)
  | _ => Err (EE_TypeMismatch DBoolean (array_data_type array))
  end.

Definition downcast_null (array : ArrayRef) : res EncodeError nat :=
  match array with
  | ANull rows => Ok rows
  | _ => Err (EE_TypeMismatch DNull (array_data_type array))
  end.

(** [for row in 0..array.len()], appending the bytes of each row. *)
Definition encode_rows {A} (f : nat → A → res EncodeError bytes) (rows : list A) : res EncodeError bytes :=
  @concat Z <$> mapi_res f 0 rows.

(** ** Fixed-width values *)

Definition is_null_free (nulls : validity) (rows : nat) : bool :=
  forallb (λ row, negb (is_null nulls row)) (seq 0 rows).

(** [out[offset..offset + width].copy_from_slice(null)]. *)
Definition copy_from_slice (out : bytes) (offset : nat) (src : bytes) : bytes :=
  take offset out ++ src ++ drop (offset + length src) out.

(** The value buffer is copied whole, then the null rows are overwritten. *)
Fixpoint overwrite_nulls (width : nat) (null : bytes) (nulls : validity) (rows row : nat)
    (out : bytes) : bytes :=
  match rows with
  | O => out
  | S rows =>
      let out := if is_null nulls row then copy_from_slice out (row * width) null else out in
      overwrite_nulls width null nulls rows (S row) out
  end.

Definition copy_native_with_nulls (width : nat) (values : list Z) (nulls : validity) (null : bytes)
    : bytes :=
  let out := concat (to_le_bytes width <$> values) in
  if is_null_free nulls (length values) then out
  else overwrite_nulls width null nulls (length values) 0 out.

(** The first row that is not null and whose value fails the test. *)
Definition check_rows (bad : Z → bool) (message : string) (values : list Z) (nulls : validity)
    : res EncodeError unit :=
  _ ← mapi_res (λ row cell,
        match cell with
        | Some value => ensure (negb (bad value)) (EE_InvalidValue row message)
        | None => Ok tt
        end) 0 (cells values nulls);
  Ok tt.

Definition sentinel_message : string := "value collides with MonetDB's NULL sentinel".

Definition encode_primitive (width : nat) (null : Z) (values : list Z) (nulls : validity)
    : res EncodeError bytes :=
  _ ← check_rows (λ v, v =? null) sentinel_message values nulls;
  Ok (copy_native_with_nulls width values nulls (to_le_bytes width null)).

(** The [unsigned!] macro: a wider signed wire type. *)
Definition encode_unsigned (width : nat) (values : list Z) (nulls : validity) : res EncodeError bytes :=
  encode_rows (λ _ cell,
    Ok (to_le_bytes width (match cell with None => - 2 ^ (8 * Z.of_nat width - 1) | Some v => v end)))
    (cells values nulls).

Definition encode_bool (values : list bool) (nulls : validity) : bytes :=
  (λ cell, match cell with None => 128 | Some b => if b : bool then 1 else 0 end) <$> cells values nulls.

Definition encode_oid (values : list Z) (nulls : validity) : res EncodeError bytes :=
  encode_rows (λ row cell,
    match cell with
    | None => Ok (to_le_bytes 8 (2 ^ 63))
    | Some value =>
        if 2 ^ 63 <=? value
        then Err (EE_InvalidValue row "OID is outside MonetDB's non-NULL range")
        else Ok (to_le_bytes 8 value)
    end) (cells values nulls).

(** [is_finite], on the bits: the exponent is not all ones. *)
Definition f32_is_finite (bits : Z) : bool := negb (Z.land bits 2139095040 =? 2139095040).
Definition f64_is_finite (bits : Z) : bool :=
  negb (Z.land bits 9218868437227405312 =? 9218868437227405312).
(** The bits of [f32::NAN] and [f64::NAN]. *)
Definition f32_NAN : Z := 2143289344.
Definition f64_NAN : Z := 9221120237041090560.

Definition finite_message : string := "non-finite floats are outside MonetDB's supported value domain".

Definition encode_f32 (values : list Z) (nulls : validity) : res EncodeError bytes :=
  _ ← check_rows (λ v, negb (f32_is_finite v)) finite_message values nulls;
  Ok (copy_native_with_nulls 4 values nulls (to_le_bytes 4 f32_NAN)).

Definition encode_f64 (values : list Z) (nulls : validity) : res EncodeError bytes :=
  _ ← check_rows (λ v, negb (f64_is_finite v)) finite_message values nulls;
  Ok (copy_native_with_nulls 8 values nulls (to_le_bytes 8 f64_NAN)).

Definition encode_f16 `{Half} (values : list Z) (nulls : validity) : res EncodeError bytes :=
  encode_rows (λ row cell,
    match cell with
    | None => Ok (to_le_bytes 4 f32_NAN)
    | Some value =>
        let value := f32_from_f16 value in
        if negb (f32_is_finite value) then Err (EE_InvalidValue row finite_message)
        else Ok (to_le_bytes 4 value)
    end) (cells values nulls).

(** ** Decimals *)

(** The [narrow!] macro at one width. *)
Definition decimal_narrow (width : nat) (row : nat) (value : option Z) : res EncodeError bytes :=
  let bits := 8 * Z.of_nat width in
  let minimum := - 2 ^ (bits - 1) in
  wire ← match value with
         | None => Ok minimum
         | Some value =>
             if signed_range bits value then Ok value
             else Err (EE_InvalidValue row "decimal does not fit its MonetDB backing integer")
         end;
  if bool_decide (is_Some value) && (wire =? minimum)
  then Err (EE_InvalidValue row "decimal collides with MonetDB's NULL sentinel")
  else Ok (to_le_bytes width wire).

Definition encode_decimal_row (precision : Z) (enforce_precision : bool) (row : nat) (value : option Z)
    : res EncodeError bytes :=
  let limit := 10 ^ precision in
  if match value with
     | Some value => enforce_precision && ((value <=? - limit) || (limit <=? value))
     | None => false
     end
  then Err (EE_InvalidValue row "decimal value exceeds its declared precision")
  else
    width ← or_panic (decimal_width precision);
    decimal_narrow (Z.to_nat width) row value.

Definition encode_decimal (precision : Z) (enforce_precision : bool) (values : list Z) (nulls : validity)
    : res EncodeError bytes :=
  if negb ((1 <=? precision) && (precision <=? 38))
  then Err (EE_InvalidValue 0 "decimal precision must be 1..=38")
  else encode_rows (encode_decimal_row precision enforce_precision) (cells values nulls).

(** ** Strings *)

(** The long form: seven bits per byte, low first; a 64-bit distance has at
    most ten groups. *)
Fixpoint backref_groups (fuel : nat) (distance : Z) : bytes :=
  match fuel with
  | O => []
  | S fuel =>
      let chunk := Z.land distance 127 in
      let distance := Z.shiftr distance 7 in
      if distance =? 0 then [chunk] else Z.lor chunk 128 :: backref_groups fuel distance
  end.

Definition append_backref (distance : Z) : bytes :=
  if distance <=? 63 then [128 + distance] else 128 :: backref_groups 10 distance.

(** The loop's state: the last row of every value seen, the last null row. *)
Record string_state : Type := mkStringState {
  seen : gmap bytes nat;
  last_null : option nat;
}.

Definition encode_string_row (row : nat) (value : option bytes) (st : string_state)
    : res EncodeError (bytes * string_state) :=
  match value with
  | Some value =>
      if existsb (λ b, b =? 0) value then Err (EE_InvalidValue row "string contains a NUL byte")
      else
        let st' := mkStringState (<[value := row]> (seen st)) (last_null st) in
        match seen st !! value with
        | Some previous => Ok (append_backref (Z.of_nat (row - previous)), st')
        | None => Ok (value ++ [0], st')
        end
  | None =>
      let st' := mkStringState (seen st) (Some row) in
      match last_null st with
      | Some previous =>
          if (row - previous <? 64)%nat then Ok (append_backref (Z.of_nat (row - previous)), st')
          else Ok ([128; 0], st')
      | None => Ok ([128; 0], st')
      end
  end.

Fixpoint encode_strings_loop (row : nat) (values : list (option bytes)) (st : string_state)
    : res EncodeError bytes :=
  match values with
  | [] => Ok []
  | value :: values =>
      '(out, st) ← encode_string_row row value st;
      rest ← encode_strings_loop (S row) values st;
      Ok (out ++ rest)
  end.

Definition encode_strings (values : list (option bytes)) : res EncodeError bytes :=
  encode_strings_loop 0 values (mkStringState ∅ None).

(** ** Dictionaries *)

Definition dictionary_key_type (key : DataType) : bool :=
  match key with
  | DInt8 | DInt16 | DInt32 | DInt64 | DUInt8 | DUInt16 | DUInt32 | DUInt64 => true
  | _ => false
  end.

(** The strings a dictionary array stands for, after the check of its keys. *)
Definition dictionary_strings (array : ArrayRef) : res EncodeError (list (option bytes)) :=
  match array with
  | ADictionary key keys (ABytes value_type values) =>
      if is_string_type value_type then
        mapi_res (λ row key,
          match key with
          | None => Ok None
          | Some k =>
              value ← ok_or (values !! k)
                        (EE_InvalidValue row "dictionary key is outside the dictionary values");
              Ok value
          end) 0 keys
      else Err (EE_Unsupported (array_data_type array))
  | ADictionary _ _ _ => Err (EE_Unsupported (array_data_type array))
  | _ => Err (EE_TypeMismatch (array_data_type array) (array_data_type array))
  end.

Definition encode_dictionary (array : ArrayRef) (key : DataType) : res EncodeError bytes :=
  if dictionary_key_type key then strings ← dictionary_strings array; encode_strings strings
  else Err (EE_Unsupported (array_data_type array)).

(** ** Blobs, UUIDs, addresses *)

Definition encode_blob (value : option bytes) : bytes :=
  match value with
  | None => to_le_bytes 8 (-1)
  | Some value => to_le_bytes 8 (len value) ++ value
  end.

Definition encode_blobs (values : list (option bytes)) : bytes := concat (encode_blob <$> values).

Definition encode_uuid (values : list (option bytes)) : res EncodeError bytes :=
  encode_rows (λ row value,
    match value with
    | None => Ok (replicate 16 0)
    | Some value =>
        if forallb (λ b, b =? 0) value
        then Err (EE_InvalidValue row "all-zero UUID is MonetDB's NULL sentinel")
        else Ok value
    end) values.

Definition encode_addresses (width : nat) (parse : bytes → option bytes) (invalid_message : string)
    (values : list (option bytes)) : res EncodeError bytes :=
  encode_rows (λ row value,
    octets ← match value with
             | None => Ok (replicate width 0)
             | Some value => ok_or (parse value) (EE_InvalidValue row invalid_message)
             end;
    if bool_decide (is_Some value) && forallb (λ b, b =? 0) octets
    then Err (EE_InvalidValue row "address collides with MonetDB's NULL sentinel")
    else Ok octets) values.

(** ** Dates, times, timestamps, durations *)

Section with_chrono.
Context `{Chrono}.

Definition date_from_days (days : Z) (row : nat) : res EncodeError date :=
  ok_or (date_from_unix_days days) (EE_InvalidValue row "date is outside chrono's range").

Definition append_date (days : Z) (row : nat) : res EncodeError bytes :=
  date ← date_from_days days row;
  if year date <? -4712
  then Err (EE_InvalidValue row "date is earlier than MonetDB's minimum year -4712")
  else
    year ← (if signed_range 16 (year date) then Ok (year date)
            else Err (EE_InvalidValue row "date year is outside MonetDB's range"));
    Ok ([day date; month date] ++ to_le_bytes 2 year).

Definition encode_date32 (values : list Z) (nulls : validity) : res EncodeError bytes :=
  encode_rows (λ row cell,
    match cell with
    | None => Ok (replicate 4 255)
    | Some value => append_date value row
    end) (cells values nulls).

Definition encode_date64 (values : list Z) (nulls : validity) : res EncodeError bytes :=
  encode_rows (λ row cell,
    match cell with
    | None => Ok (replicate 4 255)
    | Some value =>
        if negb (Z.rem value 86400000 =? 0)
        then Err (EE_InvalidValue row "Date64 is not a whole day")
        else append_date (Z.quot value 86400000) row
    end) (cells values nulls).

Definition append_time (micros : Z) (row : nat) : res EncodeError bytes :=
  if negb ((0 <=? micros) && (micros <? 86400000000))
  then Err (EE_InvalidValue row "time is outside one day")
  else
    let seconds := Z.quot micros 1000000 in
    Ok (to_le_bytes 4 (Z.rem micros 1000000)
        ++ [Z.rem seconds 60; Z.rem (Z.quot seconds 60) 60; Z.quot seconds 3600; 0]).

Definition encode_time_values (factor : Z) (values : list Z) (nulls : validity) : res EncodeError bytes :=
  encode_rows (λ row cell,
    match cell with
    | None => Ok (replicate 8 255)
    | Some value => append_time (value * factor) row
    end) (cells values nulls).

Definition encode_time32 (array : ArrayRef) (unit : TimeUnit) : res EncodeError bytes :=
  match unit with
  | Second => '(values, nulls) ← downcast_primitive array (DTime32 unit);
              encode_time_values 1000000 values nulls
  | Millisecond => '(values, nulls) ← downcast_primitive array (DTime32 unit);
                   encode_time_values 1000 values nulls
  | _ => Err (EE_Unsupported (DTime32 unit))
  end.

(** Nanoseconds must be whole microseconds. *)
Definition encode_nanos (width : nat) (append : Z → nat → res EncodeError bytes) (message : string)
    (values : list Z) (nulls : validity) : res EncodeError bytes :=
  encode_rows (λ row cell,
    match cell with
    | None => Ok (replicate width 255)
    | Some value =>
        if negb (Z.rem value 1000 =? 0) then Err (EE_InvalidValue row message)
        else append (Z.quot value 1000) row
    end) (cells values nulls).

Definition encode_time64 (array : ArrayRef) (unit : TimeUnit) : res EncodeError bytes :=
  match unit with
  | Microsecond => '(values, nulls) ← downcast_primitive array (DTime64 unit);
                   encode_time_values 1 values nulls
  | Nanosecond => '(values, nulls) ← downcast_primitive array (DTime64 unit);
                  encode_nanos 8 append_time "time is not microsecond-aligned" values nulls
  | _ => Err (EE_Unsupported (DTime64 unit))
  end.

(** [rem_euclid] and [div_euclid] by a positive number. *)
Definition append_timestamp (micros : Z) (row : nat) : res EncodeError bytes :=
  time ← append_time (micros mod 86400000000) row;
  date ← append_date (micros / 86400000000) row;
  Ok (time ++ date).

Definition encode_timestamp_values (factor : Z) (values : list Z) (nulls : validity) : res EncodeError bytes :=
  encode_rows (λ row cell,
    match cell with
    | None => Ok (replicate 12 255)
    | Some value =>
        micros ← ok_or (i64_checked_mul value factor)
                   (EE_InvalidValue row "timestamp overflows microseconds");
        append_timestamp micros row
    end) (cells values nulls).

Definition encode_timestamp (array : ArrayRef) (unit : TimeUnit) : res EncodeError bytes :=
  '(values, nulls) ← downcast_primitive array (array_data_type array);
  match unit with
  | Second => encode_timestamp_values 1000000 values nulls
  | Millisecond => encode_timestamp_values 1000 values nulls
  | Microsecond => encode_timestamp_values 1 values nulls
  | Nanosecond => encode_nanos 12 append_timestamp "timestamp is not microsecond-aligned" values nulls
  end.

Definition encode_duration_row (multiplier divisor : Z) (require_whole_days : bool) (row : nat)
    (cell : option Z) : res EncodeError bytes :=
  match cell with
  | None => Ok (to_le_bytes 8 i64_min)
  | Some value =>
      if negb (Z.rem value divisor =? 0)
      then Err (EE_InvalidValue row "duration is not millisecond-aligned")
      else
        value ← ok_or (i64_checked_mul (Z.quot value divisor) multiplier)
                  (EE_InvalidValue row "duration overflows milliseconds");
        if value =? i64_min
        then Err (EE_InvalidValue row "duration collides with MonetDB's NULL sentinel")
        else if require_whole_days && negb (Z.rem value 86400000 =? 0)
        then Err (EE_InvalidValue row "INTERVAL DAY value is not a whole day")
        else Ok (to_le_bytes 8 value)
  end.

Definition encode_duration_values (multiplier divisor : Z) (require_whole_days : bool) (values : list Z)
    (nulls : validity) : res EncodeError bytes :=
  encode_rows (encode_duration_row multiplier divisor require_whole_days) (cells values nulls).

Definition encode_duration (array : ArrayRef) (unit : TimeUnit) (require_whole_days : bool)
    : res EncodeError bytes :=
  '(values, nulls) ← downcast_primitive array (DDuration unit);
  match unit with
  | Second => encode_duration_values 1000 1 require_whole_days values nulls
  | Millisecond => encode_duration_values 1 1 require_whole_days values nulls
  | Microsecond => encode_duration_values 1 1000 require_whole_days values nulls
  | Nanosecond => encode_duration_values 1 1000000 require_whole_days values nulls
  end.

(** ** One column *)

Definition column_fixed_wire_width (field : Field) (data_type : DataType) : res EncodeError (option Z) :=
  if bool_decide (data_type = DNull) then Ok (Some 2) else fixed_encoded_width field.

Definition checked_encoded_size (rows width : Z) : res EncodeError Z :=
  ok_or (checked_mul rows width) (EE_InvalidValue 0 "encoded column length overflows").

(** [signed!], [unsigned!] and the float encoders behind their [downcast]. *)
Definition with_primitive (array : ArrayRef) (expected : DataType)
    (encode : list Z → validity → res EncodeError bytes) : res EncodeError bytes :=
  '(values, nulls) ← downcast_primitive array expected; encode values nulls.

Definition encode_inet (array : ArrayRef) (monet_type : MonetType) : option (res EncodeError bytes) :=
  if is_string_type (array_data_type array) then
    match monet_type with
    | MInet4 => Some (values ← downcast_bytes array (array_data_type array);
                      encode_addresses 4 parse_ipv4 "value is not a valid IPv4 address" values)
    | MInet6 => Some (values ← downcast_bytes array (array_data_type array);
                      encode_addresses 16 parse_ipv6 "value is not a valid IPv6 address" values)
    | MInet => Some (Err (EE_UnsupportedMonetType MInet))
    | _ => None
    end
  else None.

(** A NULL array is one null string per row. *)
Definition encode_null (rows : nat) : res EncodeError bytes :=
  encoded_len ← ok_or (checked_mul (Z.of_nat rows) 2)
                  (EE_InvalidValue 0 "NULL column is too large to encode");
  Ok (concat (replicate (Z.to_nat encoded_len / 2) [128; 0])).

Definition encode_by_type `{Half} (array : ArrayRef) (monet_type : MonetType) : res EncodeError bytes :=
  let dt := array_data_type array in
  match dt with
  | DNull => rows ← downcast_null array; encode_null rows
  | DBoolean => '(values, nulls) ← downcast_boolean array; Ok (encode_bool values nulls)
  | DInt8 => with_primitive array dt (encode_primitive 1 i8_min)
  | DInt16 => with_primitive array dt (encode_primitive 2 i16_min)
  | DInt32 => with_primitive array dt (encode_primitive 4 i32_min)
  | DInt64 => with_primitive array dt (encode_primitive 8 i64_min)
  | DUInt8 => with_primitive array dt (encode_unsigned 2)
  | DUInt16 => with_primitive array dt (encode_unsigned 4)
  | DUInt32 => with_primitive array dt (encode_unsigned 8)
  | DUInt64 =>
      if bool_decide (monet_type = MOid) then with_primitive array dt encode_oid
      else with_primitive array dt (encode_unsigned 16)
  | DFloat16 => with_primitive array dt encode_f16
  | DFloat32 => with_primitive array dt encode_f32
  | DFloat64 => with_primitive array dt encode_f64
  | DDecimal128 precision _ =>
      with_primitive array dt (encode_decimal precision (negb (bool_decide (monet_type = MHugeInt))))
  | DUtf8 | DLargeUtf8 | DUtf8View => values ← downcast_bytes array dt; encode_strings values
  | DDictionary key _ => encode_dictionary array key
  | DBinary | DLargeBinary | DBinaryView => values ← downcast_bytes array dt; Ok (encode_blobs values)
  | DFixedSizeBinary width =>
      if (width =? 16) && bool_decide (monet_type = MUuid)
      then values ← downcast_bytes array dt; encode_uuid values
      else values ← downcast_bytes array dt; Ok (encode_blobs values)
  | DDate32 => with_primitive array dt encode_date32
  | DDate64 => with_primitive array dt encode_date64
  | DTime32 unit => encode_time32 array unit
  | DTime64 unit => encode_time64 array unit
  | DTimestamp unit _ => encode_timestamp array unit
  | DDuration unit => encode_duration array unit (bool_decide (monet_type = MDayInterval))
  | _ => Err (EE_Unsupported dt)
  end.

Definition encode_column `{Half} (field : Field) (array : ArrayRef) : res EncodeError bytes :=
  monet_type ← monet_type_for_field field;
  width ← column_fixed_wire_width field (array_data_type array);
  _ ← match width with
      | Some width => checked_encoded_size (Z.of_nat (array_len array)) width
      | None => Ok 0
      end;
  match encode_inet array monet_type with
  | Some result => result
  | None => encode_by_type array monet_type
  end.

(** ** Sizes *)

(** [try_fold] with [checked_add]. *)
Fixpoint try_sum (message : string) (rows : nat) (total : Z) (sizes : list Z) : res EncodeError Z :=
  match sizes with
  | [] => Ok total
  | size :: sizes =>
      total ← ok_or (checked_add total size) (EE_InvalidValue rows message);
      try_sum message rows total sizes
  end.

Definition estimated_strings (values : list (option bytes)) (rows : nat) : res EncodeError Z :=
  try_sum "encoded string column length overflows" rows 0
    ((λ value, match value with None => 2 | Some v => saturating_add (len v) 1 end) <$> values).

Definition estimated_blobs (values : list (option bytes)) (rows : nat) : res EncodeError Z :=
  try_sum "encoded BLOB column length overflows" rows 0
    ((λ value, saturating_add 8 (match value with None => 0 | Some v => len v end)) <$> values).

Definition estimated_dictionary_strings (array : ArrayRef) (key : DataType) : res EncodeError Z :=
  if dictionary_key_type key
  then strings ← dictionary_strings array; estimated_strings strings (array_len array)
  else Err (EE_Unsupported (array_data_type array)).

Definition estimated_encoded_size (field : Field) (array : ArrayRef) : res EncodeError Z :=
  let dt := array_data_type array in
  width ← column_fixed_wire_width field dt;
  match width with
  | Some width => checked_encoded_size (Z.of_nat (array_len array)) width
  | None =>
      match dt with
      | DUtf8 | DLargeUtf8 | DUtf8View =>
          values ← downcast_bytes array dt; estimated_strings values (array_len array)
      | DDictionary key _ => estimated_dictionary_strings array key
      | DBinary | DLargeBinary | DBinaryView | DFixedSizeBinary _ =>
          values ← downcast_bytes array dt; estimated_blobs values (array_len array)
      | _ => Err (EE_Unsupported dt)
      end
  end.

(** ** Bounded pieces *)

(** The [signed!] scan: the first sentinel decides. *)
Fixpoint sentinel_scan (null : Z) (row : nat) (rows : list (Z * bool)) : res EncodeError bool :=
  match rows with
  | [] => Ok true
  | (value, missing) :: rows =>
      if value =? null then
        if missing : bool then Ok false else Err (EE_InvalidValue row sentinel_message)
      else sentinel_scan null (S row) rows
  end.

Definition with_missing (values : list Z) (nulls : validity) : list (Z * bool) :=
  imap (λ row v, (v, is_null nulls row)) values.

Definition borrow_signed (width : nat) (null : Z) (values : list Z) (nulls : validity)
    : res EncodeError (option bytes) :=
  sentinel_free ← sentinel_scan null 0 (with_missing values nulls);
  if (sentinel_free : bool) && is_null_free nulls (length values)
  then Ok (Some (concat (to_le_bytes width <$> values))) else Ok None.

Definition borrow_float (width : nat) (finite : Z → bool) (values : list Z) (nulls : validity)
    : res EncodeError (option bytes) :=
  _ ← check_rows (λ v, negb (finite v)) finite_message values nulls;
  if is_null_free nulls (length values)
  then Ok (Some (concat (to_le_bytes width <$> values))) else Ok None.

(** The array's own buffer, when it already is the wire format. *)
Definition borrowed_wire_bytes (array : ArrayRef) : res EncodeError (option bytes) :=
  let dt := array_data_type array in
  let signed (width : nat) (null : Z) :=
    '(values, nulls) ← downcast_primitive array dt; borrow_signed width null values nulls in
  match dt with
  | DInt8 => signed 1%nat i8_min
  | DInt16 => signed 2%nat i16_min
  | DInt32 => signed 4%nat i32_min
  | DInt64 => signed 8%nat i64_min
  | DFloat32 => '(values, nulls) ← downcast_primitive array dt; borrow_float 4 f32_is_finite values nulls
  | DFloat64 => '(values, nulls) ← downcast_primitive array dt; borrow_float 8 f64_is_finite values nulls
  | _ => Ok None
  end.

Inductive ChunkedEncodeError (E : Type) : Type :=
| CE_Encode (error : EncodeError)
| CE_Sink (error : E).
Arguments CE_Encode {E} error.
Arguments CE_Sink {E} error.

Section chunks.
Context `{Half} {Sink E : Type} (emit : Sink → bytes → res E Sink).

Definition rows_per_chunk (target_bytes rows estimated : Z) : Z :=
  if estimated =? 0 then Z.max rows 1
  else Z.min (Z.max 1 (saturating_mul target_bytes rows / estimated)) (Z.max rows 1).

(** The bytes of one piece: the array's own buffer when it can be borrowed. *)
Definition piece_bytes (field : Field) (slice : ArrayRef) : res EncodeError bytes :=
  borrowed ← borrowed_wire_bytes slice;
  match borrowed with
  | Some data => Ok data
  | None => encode_column field slice
  end.

(** One piece is encoded, counted, and emitted. *)
Definition emit_piece (field : Field) (slice : ArrayRef) (total : Z) (sink : Sink)
    : res (ChunkedEncodeError E) (Z * Sink) :=
  data ← map_err CE_Encode (piece_bytes field slice);
  total ← ok_or (checked_add total (len data))
            (CE_Encode (EE_InvalidValue 0 "encoded column length overflows"));
  sink ← map_err CE_Sink (emit sink data);
  Ok (total, sink).

(** [for start in (0..array.len()).step_by(step)]; [fuel] bounds the pieces
    by the rows. *)
Fixpoint emit_pieces (fuel : nat) (field : Field) (array : ArrayRef) (step start : nat) (total : Z)
    (sink : Sink) : res (ChunkedEncodeError E) (Z * Sink) :=
  match fuel with
  | O => Ok (total, sink)
  | S fuel =>
      if (start <? array_len array)%nat then
        let n := Nat.min (array_len array - start) step in
        '(total, sink) ← emit_piece field (array_slice array start n) total sink;
        emit_pieces fuel field array step (start + step) total sink
      else Ok (total, sink)
  end.

Fixpoint encode_column_chunks_loop (field : Field) (arrays : list ArrayRef) (target_bytes total : Z)
    (sink : Sink) : res (ChunkedEncodeError E) (Z * Sink) :=
  match arrays with
  | [] => Ok (total, sink)
  | array :: arrays =>
      estimated ← map_err CE_Encode (estimated_encoded_size field array);
      let step := rows_per_chunk target_bytes (Z.of_nat (array_len array)) estimated in
      '(total, sink) ← emit_pieces (array_len array) field array (Z.to_nat step) 0 total sink;
      encode_column_chunks_loop field arrays target_bytes total sink
  end.

Definition encode_column_chunks (field : Field) (arrays : list ArrayRef) (target_bytes : Z) (sink : Sink)
    : res (ChunkedEncodeError E) (Z * Sink) :=
  encode_column_chunks_loop field arrays target_bytes 0 sink.
End chunks.
End with_chrono.
