(* ===== verification/StringCodec.v ===== *)
(** Strings through the wire and back: the back-reference compression of
    [encode.rs] against the decoder of [decode.rs]. *)

From stdpp Require Import base list numbers strings gmap.
From S2P Require Import Prelude RustStd Types Calendar Inet Exportbin ArrowData Decode DecodeProofs Encode.
Local Open Scope Z_scope.

(** ** Back-references *)

Lemma backref_low d : 0 ≤ Z.land d 127 < 128.
Proof. change 127 with (Z.ones 7). rewrite Z.land_ones by lia. by apply Z.mod_pos_bound. Qed.

Lemma backref_split d : d = Z.land d 127 + 128 * Z.shiftr d 7.
Proof.
  change 127 with (Z.ones 7). rewrite Z.land_ones, Z.shiftr_div_pow2 by lia.
  pose proof (Z.div_mod d (2 ^ 7)). lia.
Qed.

(** A group with its continuation bit set. *)
Lemma backref_continued d :
  Z.lor (Z.land d 127) 128 = Z.land d 127 + 128 ∧
  Z.land (Z.lor (Z.land d 127) 128) 127 = Z.land d 127.
Proof.
  split.
  - rewrite <- Z.lxor_lor, <- Z.add_nocarry_lxor; [done|..]; by rewrite <- Z.land_assoc, Z.land_0_r.
  - rewrite Z.land_lor_distr_l, <- Z.land_assoc. simpl. by rewrite Z.lor_0_r.
Qed.

(** The part a group contributes stays inside a [usize]. *)
Lemma backref_part low shift :
  0 ≤ shift → 0 ≤ low → low * 2 ^ shift < 2 ^ 63 →
  (Z.shiftr usize_max shift <? low) = false ∧ Z.shiftl low shift = low * 2 ^ shift.
Proof.
  intros Hs Hl Hb. rewrite Z.shiftl_mul_pow2, Z.shiftr_div_pow2 by lia. split; [|done].
  apply Z.ltb_ge, Z.div_le_lower_bound; [by apply Z.pow_pos_nonneg|]. range_lia.
Qed.

(** Decoding the groups of a distance gives it back and consumes them all. *)
Lemma long_backref_groups fuel row d acc shift index rest :
  0 ≤ d < 2 ^ (7 * Z.of_nat fuel) → (0 < fuel)%nat → 0 ≤ shift → 0 ≤ acc →
  acc + d * 2 ^ shift < 2 ^ 63 →
  long_backref_loop row index acc shift (backref_groups fuel d ++ rest) =
  Ok (acc + d * 2 ^ shift, (index + length (backref_groups fuel d))%nat).
Proof.
  revert d acc shift index; induction fuel as [|fuel IH]; intros d acc shift index Hd Hf Hs Ha Hb; [lia|].
  cbn [backref_groups]. pose proof (backref_low d) as Hlow. pose proof (backref_split d) as Hsplit.
  set (low := Z.land d 127) in *. set (high := Z.shiftr d 7) in *.
  assert (0 < 2 ^ shift) as Hpos by (by apply Z.pow_pos_nonneg).
  assert (0 ≤ high) as Hhigh by lia.
  assert (low * 2 ^ shift ≤ d * 2 ^ shift) as Hle by nia.
  destruct (backref_part low shift) as [Hpart1 Hpart2]; [lia..|].
  assert (checked_add acc (low * 2 ^ shift) = Some (acc + low * 2 ^ shift)) as Hadd.
  { unfold checked_add. rewrite (proj2 (Z.leb_le _ _)); [done|]. range_lia. }
  destruct (Z.eqb_spec high 0) as [Hz|Hz].
  - simpl. assert (Z.land low 127 = low) as ->.
    { unfold low. by rewrite <- Z.land_assoc. }
    rewrite Hpart1, Hpart2, Hadd. simpl. rewrite (proj2 (Z.ltb_lt _ _)) by lia.
    f_equal. f_equal; [nia|lia].
  - destruct (backref_continued d) as [Hc1 Hc2]. fold low in Hc1, Hc2. simpl.
    rewrite Hc2, Hpart1, Hpart2, Hadd. simpl. rewrite Hc1.
    rewrite (proj2 (Z.ltb_ge (low + 128) 128)) by lia.
    assert (128 * 2 ^ shift = 2 ^ (shift + 7)) as Hpow by (rewrite Z.pow_add_r by lia; lia).
    assert (shift + 7 < 63) as Hshift.
    { apply (Z.pow_lt_mono_r_iff 2); [lia..|]. nia. }
    rewrite (proj2 (Z.ltb_lt (shift + 7) 64)) by lia.
    rewrite IH; [f_equal; f_equal; [nia|cbn [length]; lia]|..|lia|nia|nia].
    + split; [lia|]. rewrite Nat2Z.inj_succ in Hd.
      replace (7 * Z.succ (Z.of_nat fuel)) with (7 + 7 * Z.of_nat fuel) in Hd by lia.
      rewrite Z.pow_add_r in Hd by lia. lia.
    + destruct fuel; [|lia]. exfalso. change (7 * Z.of_nat 1) with 7 in Hd. lia.
Qed.

#[local] Arguments backref_groups : simpl never.

Lemma long_backref_append row d rest :
  64 ≤ d < 2 ^ 63 →
  long_backref row (backref_groups 10 d ++ rest) = Ok (d, length (backref_groups 10 d)).
Proof.
  intros Hd. unfold long_backref. rewrite long_backref_groups by lia.
  f_equal. f_equal; lia.
Qed.

(** Text never starts with a byte the wire format uses for back-references. *)
Lemma utf8_valid_first b l : utf8_valid (b :: l) = true → b < 128 ∨ 192 ≤ b.
Proof.
  unfold utf8_valid. cbn [length utf8_valid_aux utf8_step].
  destruct (Z.ltb_spec b 128); [lia|]. destruct (Z.leb_spec 192 b); [lia|].
  rewrite !(proj2 (Z.leb_gt _ b)) by lia. done.
Qed.

(** ** One row *)

(** The state of the encoder, read against the rows [history] of which the
    current block began at row [base]. *)
Record state_ok (base row : nat) (st : string_state) (history : list (option bytes)) : Prop := {
  state_row : length history = (base + row)%nat;
  state_seen v r : seen st !! v = Some r → (r < row)%nat ∧ history !! (base + r)%nat = Some (Some v);
  state_null r : last_null st = Some r → (r < row)%nat ∧ history !! (base + r)%nat = Some None;
}.

Lemma backref_history history (row previous : nat) v :
  (previous < row)%nat → history !! previous = Some v →
  backref history row (Z.of_nat (row - previous)) = Ok v.
Proof.
  intros Hlt Hv. unfold backref, checked_sub. rewrite (proj2 (Z.leb_le _ _)) by lia. simpl.
  replace (Z.to_nat (Z.of_nat row - Z.of_nat (row - previous))) with previous by lia. by rewrite Hv.
Qed.

(** A back-reference in either form reads as the row it points at. *)
Lemma string_value_backref pre rest history (row previous : nat) v :
  (previous < row)%nat → Z.of_nat row < 2 ^ 63 → history !! previous = Some v →
  let out := append_backref (Z.of_nat (row - previous)) in
  string_value (pre ++ out ++ rest) row (length pre) history = Ok (v, (length pre + length out)%nat).
Proof.
  intros Hlt Hrow Hv out. unfold string_value.
  pose proof (backref_history _ _ _ _ Hlt Hv) as Hb. unfold out, append_backref.
  set (d := Z.of_nat (row - previous)) in *. destruct (Z.leb_spec d 63) as [Hd|Hd].
  - rewrite lookup_app_r, Nat.sub_diag by lia. cbn [app lookup list_lookup ok_or mbind res_bind length].
    rewrite (proj2 (Z.eqb_neq _ _)), (proj2 (Z.leb_le _ _)), (proj2 (Z.leb_le _ _)) by lia. simpl.
    replace (128 + d - 128) with d by lia. by rewrite Hb.
  - rewrite lookup_app_r, Nat.sub_diag by lia. cbn [app lookup list_lookup ok_or mbind res_bind length].
    rewrite Z.eqb_refl, drop_app_ge by lia.
    replace (length pre + 1 - length pre)%nat with 1%nat by lia. cbn [drop]. rewrite drop_0.
    rewrite long_backref_append by lia. simpl. rewrite (proj2 (Z.eqb_neq _ _)) by lia. rewrite Hb. simpl.
    f_equal. f_equal. lia.
Qed.

Lemma string_value_null pre rest history row :
  string_value (pre ++ [128; 0] ++ rest) row (length pre) history = Ok (None, (length pre + 2)%nat).
Proof.
  unfold string_value. rewrite lookup_app_r, Nat.sub_diag by lia. simpl.
  rewrite drop_app_ge by lia. by replace (length pre + 1 - length pre)%nat with 1%nat by lia.
Qed.

Lemma no_nul_position value rest :
  existsb (λ b, b =? 0) value = false →
  position (λ b, b =? 0) (value ++ 0 :: rest) = Some (length value).
Proof.
  intros Hv. apply position_app_r; [|done]. apply Forall_forall. intros b Hb.
  destruct (b =? 0) eqn:E; [|done]. rewrite <- not_true_iff_false in Hv. exfalso. apply Hv.
  apply existsb_exists. exists b. split; [by apply list_elem_of_In|done].
Qed.

Lemma string_value_literal pre rest history row value :
  utf8_valid value = true → existsb (λ b, b =? 0) value = false →
  string_value (pre ++ (value ++ [0]) ++ rest) row (length pre) history =
  Ok (Some value, (length pre + length (value ++ [0%Z]))%nat).
Proof.
  intros Hu Hz. unfold string_value. rewrite <- app_assoc. cbn [app].
  assert (literal_at (pre ++ value ++ 0 :: rest) row (length pre) =
          Ok (value, (length pre + length (value ++ [0%Z]))%nat)) as Hlit.
  { unfold literal_at. rewrite drop_app_length, no_nul_position by done. simpl.
    rewrite take_app_length, Hu. simpl. rewrite length_app. simpl. f_equal. f_equal. lia. }
  rewrite lookup_app_r, Nat.sub_diag by lia. rewrite Hlit.
  destruct value as [|b value]; simpl; [done|]. apply utf8_valid_first in Hu.
  rewrite (proj2 (Z.eqb_neq _ _)) by lia.
  destruct ((129 <=? b) && (b <=? 191)) eqn:E; [bool_prop; lia|done].
Qed.

Lemma append_backref_nonempty d : append_backref d ≠ [].
Proof. unfold append_backref. by case_match. Qed.

(** One step of the encoder is read back by one step of the decoder. *)
Lemma encode_string_row_ok base row value st out st' pre rest history :
  encode_string_row row value st = Ok (out, st') → state_ok base row st history →
  utf8_valid (default [] value) = true → Z.of_nat (base + row) < 2 ^ 63 →
  string_value (pre ++ out ++ rest) (base + row) (length pre) history =
    Ok (value, (length pre + length out)%nat) ∧
  out ≠ [] ∧ state_ok base (S row) st' (history ++ [value]).
Proof.
  intros He [Hrow Hseen Hnull] Hu Hmax.
  assert (∀ r w, (r < row)%nat ∧ history !! (base + r)%nat = Some w →
            (r < S row)%nat ∧ (history ++ [value]) !! (base + r)%nat = Some w) as Hkeep.
  { intros r w [Hr Hw]. split; [lia|]. by apply lookup_app_l_Some. }
  assert ((history ++ [value]) !! (base + row)%nat = Some value) as Hlast
    by (rewrite <- Hrow; apply list_lookup_middle; done).
  assert (∀ r w, (r < row)%nat ∧ history !! (base + r)%nat = Some w →
            string_value (pre ++ append_backref (Z.of_nat (row - r)) ++ rest) (base + row) (length pre) history
            = Ok (w, (length pre + length (append_backref (Z.of_nat (row - r))))%nat)) as Hback.
  { intros r w [Hr Hw]. replace (row - r)%nat with (base + row - (base + r))%nat by lia.
    apply string_value_backref; [lia|lia|done]. }
  destruct value as [value|]; simpl in He, Hu.
  - destruct (existsb _ value) eqn:Hz; [done|].
    assert (state_ok base (S row) (mkStringState (<[value:=row]> (seen st)) (last_null st))
              (history ++ [Some value])) as Hst.
    { split; simpl; [rewrite length_app; simpl; lia| |].
      - intros v r. destruct (decide (v = value)) as [->|Hne].
        + rewrite lookup_insert_eq. intros [= <-]. split; [lia|done].
        + rewrite lookup_insert_ne by done. intros Hv. by apply Hkeep, Hseen.
      - intros r Hr. by apply Hkeep, Hnull. }
    destruct (seen st !! value) as [previous|] eqn:Hprev; simplify_eq.
    + split_and!; [by apply Hback, Hseen|apply append_backref_nonempty|done].
    + split_and!; [by apply string_value_literal|by destruct value|done].
  - assert (state_ok base (S row) (mkStringState (seen st) (Some row)) (history ++ [None])) as Hst.
    { split; simpl; [rewrite length_app; simpl; lia| |].
      - intros v r Hv. by apply Hkeep, Hseen.
      - intros r [= <-]. split; [lia|done]. }
    destruct (last_null st) as [previous|] eqn:Hprev; [case_match|]; simplify_eq;
      (split_and!; [|try apply append_backref_nonempty; done|done]);
      solve [by apply Hback, Hnull | apply string_value_null].
Qed.

(** ** Whole columns *)

Definition text_ok (value : option bytes) : Prop := utf8_valid (default [] value) = true.

(** The text of a column the decoder will expand, for a wire size. *)
Definition text_fits (values : list (option bytes)) (wire : Z) : Prop :=
  value_bytes_of values ≤ i32_max ∧ value_bytes_of values ≤ Z.max (16 * wire) (1024 * 1024).

Lemma strings_with_backrefs_row data n row pos value pos' history :
  string_value data row pos history = Ok (value, pos') → text_fits (history ++ [value]) (len data) →
  strings_with_backrefs data (S n) row pos (value_bytes_of history) history =
  strings_with_backrefs data n (S row) pos' (value_bytes_of (history ++ [value])) (history ++ [value]).
Proof.
  intros Hv [H1 H2]. cbn [strings_with_backrefs]. rewrite Hv. cbn [mbind res_bind].
  destruct value as [text|]; [|rewrite value_bytes_of_app; simpl; by rewrite !Z.add_0_r].
  rewrite append_value_ok by (rewrite value_bytes_of_app in H1; simpl in H1; lia). rewrite value_bytes_of_app in *. simpl in *.
  unfold checked_add, expansion_limit, saturating_mul.
  rewrite (proj2 (Z.leb_le _ _)) by range_lia. simpl.
  rewrite (proj2 (Z.ltb_ge i32_max _)) by range_lia.
  rewrite (proj2 (Z.ltb_ge (Z.max _ _) _)) by range_lia. simpl. by rewrite Z.add_0_r.
Qed.

Lemma text_fits_prefix vs ws wire : text_fits (vs ++ ws) wire → text_fits vs wire.
Proof.
  unfold text_fits. rewrite value_bytes_of_app. pose proof (value_bytes_of_nonneg ws). lia.
Qed.

Lemma encode_strings_loop_ok n base row values st data history pre rest :
  encode_strings_loop row values st = Ok data → state_ok base row st history →
  Forall text_ok values → text_fits (history ++ values) (len (pre ++ data ++ rest)) →
  Z.of_nat (base + row + length values) < 2 ^ 63 →
  strings_with_backrefs (pre ++ data ++ rest) (length values + n) (base + row) (length pre)
    (value_bytes_of history) history =
  strings_with_backrefs (pre ++ data ++ rest) n (base + row + length values) (length (pre ++ data))
    (value_bytes_of (history ++ values)) (history ++ values).
Proof.
  revert row st data history pre; induction values as [|value values IH];
    intros row st data history pre He Hst Hok Hfit Hmax; simpl in He.
  { res_inv. by rewrite !app_nil_r, !Nat.add_0_r. }
  apply bind_ok in He as ([out st'] & Hrow & He). apply bind_ok in He as (tail & Htail & He).
  injection He as <-. inversion Hok as [|?? Hv Hvs]; subst. simpl in Hmax.
  rewrite <- (app_assoc out) in *.
  destruct (encode_string_row_ok base row value st out st' pre (tail ++ rest) history)
    as (Hval & _ & Hst'); [done..|lia|].
  cbn [length Nat.add]. rewrite (cons_middle value), (app_assoc history) in Hfit |- *.
  rewrite (strings_with_backrefs_row _ _ _ _ _ _ _ Hval (text_fits_prefix _ _ _ Hfit)).
  rewrite <- length_app, (app_assoc pre) in *. rewrite <- Nat.add_succ_r.
  rewrite (IH (S row) st' tail (history ++ [value]) (pre ++ out)); try done; [|lia].
  rewrite !app_assoc. f_equal. simpl. lia.
Qed.

Lemma encode_strings_loop_length row values st data :
  encode_strings_loop row values st = Ok data → (length values ≤ length data)%nat.
Proof.
  revert row st data; induction values as [|value values IH]; intros row st data He; simpl in He.
  { res_inv. simpl. lia. }
  apply bind_ok in He as ([out st'] & Hrow & He). apply bind_ok in He as (tail & Htail & He).
  injection He as <-. apply IH in Htail. rewrite length_app.
  assert (out ≠ []); [|destruct out; [done|]; simpl in *; lia].
  unfold encode_string_row in Hrow. repeat case_match; simplify_eq/=; try apply append_backref_nonempty; try done.
  by intros [_ ?]%app_eq_nil.
Qed.

Lemma encode_blocks_ok n blocks pieces history pre :
  Forall2 (λ block piece, encode_strings block = Ok piece) blocks pieces →
  Forall text_ok (concat blocks) →
  text_fits (history ++ concat blocks) (len (pre ++ concat pieces)) →
  Z.of_nat (length history + length (concat blocks)) < 2 ^ 63 →
  strings_with_backrefs (pre ++ concat pieces) (length (concat blocks) + n) (length history) (length pre)
    (value_bytes_of history) history =
  strings_with_backrefs (pre ++ concat pieces) n (length (history ++ concat blocks))
    (length (pre ++ concat pieces)) (value_bytes_of (history ++ concat blocks)) (history ++ concat blocks).
Proof.
  intros Hb. revert history pre. induction Hb as [|block piece blocks pieces Hp _ IH];
    intros history pre Hok Hfit Hmax; simpl in *; [by rewrite !app_nil_r|].
  apply Forall_app in Hok as [Hok1 Hok2]. rewrite length_app in Hmax |- *.
  rewrite (app_assoc history) in Hfit |- *. rewrite <- Nat.add_assoc.
  pose proof (encode_strings_loop_ok (length (concat blocks) + n) (length history) 0 block
                (mkStringState ∅ None) piece history pre (concat pieces) Hp) as Hstep.
  rewrite Nat.add_0_r in Hstep. rewrite Hstep.
  - rewrite <- length_app, (app_assoc pre). apply IH; [done|by rewrite <- (app_assoc pre)|rewrite length_app; lia].
  - split; [simpl; lia| |done]. intros v r. simpl. by rewrite lookup_empty.
  - done.
  - by apply (text_fits_prefix _ (concat blocks)).
  - lia.
Qed.

(** Encoded blocks, one after the other, decode to their rows. *)
Lemma decode_encoded_blocks blocks pieces :
  Forall2 (λ block piece, encode_strings block = Ok piece) blocks pieces →
  Forall text_ok (concat blocks) → len (concat pieces) ≤ i32_max →
  text_fits (concat blocks) (len (concat pieces)) →
  decode_strings (concat pieces) (length (concat blocks)) = Ok (concat blocks).
Proof.
  intros Hp Hok Hlen Hfit.
  assert (length (concat blocks) ≤ length (concat pieces))%nat as Hrows.
  { clear -Hp. induction Hp as [|b p bs ps Hbp _ IH]; simpl; [lia|].
    rewrite !length_app. apply encode_strings_loop_length in Hbp. lia. }
  unfold decode_strings. rewrite (proj2 (Nat.ltb_ge _ _)), (proj2 (Z.ltb_ge _ _)) by lia.
  assert (strings_with_backrefs (concat pieces) (length (concat blocks)) 0 0 0 [] = Ok (concat blocks)) as Hd.
  { pose proof (encode_blocks_ok 0 blocks pieces [] [] Hp Hok Hfit) as Hb. simpl in Hb.
    rewrite Nat.add_0_r in Hb. rewrite Hb by range_lia. simpl. by rewrite Nat.eqb_refl. }
  unfold decode_strings_without_backrefs, decode_strings_with_backrefs.
  destruct (fast_path_agrees (concat pieces) (length (concat blocks)) 0 0 0 []) as [-> | ->]; [lia..|done|].
  by rewrite Hd.
Qed.

(** A run of null strings, written without back-references. *)
Lemma strings_nulls n row history pre :
  value_bytes_of history = 0 →
  strings_with_backrefs (pre ++ concat (replicate n [128; 0])) n row (length pre) 0 history =
  Ok (history ++ replicate n None).
Proof.
  revert row history pre; induction n as [|n IH]; intros row history pre Hv; simpl.
  { by rewrite !app_nil_r, Nat.eqb_refl. }
  rewrite (string_value_null pre (concat (replicate n [128; 0]))). cbn [mbind res_bind].
  unfold append_null. specialize (IH (S row) (history ++ [None]) (pre ++ [128; 0])).
  rewrite length_app, <- !app_assoc in IH. simpl in IH. rewrite IH; [done|].
  rewrite value_bytes_of_app. simpl. lia.
Qed.

Lemma decode_null_strings rows :
  len (concat (replicate rows [128; 0])) ≤ i32_max →
  decode_strings (concat (replicate rows [128; 0])) rows = Ok (replicate rows None).
Proof.
  intros Hlen.
  assert (length (concat (replicate rows [128; 0])) = (rows * 2)%nat) as Hl.
  { rewrite (length_concat_const 2), length_replicate; [done|]. by apply Forall_replicate. }
  unfold decode_strings. rewrite (proj2 (Nat.ltb_ge _ _)), (proj2 (Z.ltb_ge _ _)) by lia.
  pose proof (strings_nulls rows 0 [] [] eq_refl) as Hd. cbn [app length] in Hd.
  unfold decode_strings_without_backrefs, decode_strings_with_backrefs.
  destruct (fast_path_agrees (concat (replicate rows [128; 0])) rows 0 0 0 []) as [-> | ->]; [lia..|done|].
  by rewrite Hd.
Qed.

(** Encoding succeeds on text without NUL bytes. *)
Definition nul_free (value : option bytes) : Prop := existsb (λ b, b =? 0) (default [] value) = false.

Lemma encode_strings_loop_total row values st :
  Forall nul_free values → ∃ data, encode_strings_loop row values st = Ok data.
Proof.
  intros Hv. revert row st. induction Hv as [|value values Hz _ IH]; intros row st; simpl; [eauto|].
  assert (∃ out st', encode_string_row row value st = Ok (out, st')) as (out & st' & ->).
  { unfold encode_string_row. unfold nul_free in Hz. destruct value as [v|]; simpl in Hz; [rewrite Hz|];
      repeat case_match; eauto. }
  simpl. destruct (IH (S row) st') as [rest ->]. simpl. eauto.
Qed.

(** String columns survive the wire: a column of valid UTF-8 text without
    NUL bytes, cut into any blocks, is always encoded; the blocks, written one
    after the other with back-references inside each of them, decode to the
    same rows, nulls included.  The only limits are the decoder's own on the
    size of a column. *)
Theorem strings_roundtrip blocks :
  Forall text_ok (concat blocks) → Forall nul_free (concat blocks) →
  ∃ pieces, Forall2 (λ block piece, encode_strings block = Ok piece) blocks pieces ∧
    (len (concat pieces) ≤ i32_max → text_fits (concat blocks) (len (concat pieces)) →
     decode_strings (concat pieces) (length (concat blocks)) = Ok (concat blocks)).
Proof.
  intros Hok Hz.
  assert (∃ pieces, Forall2 (λ block piece, encode_strings block = Ok piece) blocks pieces) as [pieces Hp].
  { clear Hok. induction blocks as [|block blocks IH]; [by exists []|]. simpl in Hz.
    apply Forall_app in Hz as [Hz1 Hz2]. destruct (IH Hz2) as [pieces Hp].
    destruct (encode_strings_loop_total 0 block (mkStringState ∅ None) Hz1) as [piece Hpiece].
    exists (piece :: pieces). by constructor. }
  exists pieces. split; [done|]. intros. by apply decode_encoded_blocks.
Qed.

(** Two blocks with a repeated value, a repeated null and a long distance. *)
Definition sample_block : list (option bytes) :=
  [Some (str "a"); None] ++ replicate 70 (Some []) ++ [Some (str "a"); None; None].

Lemma strings_roundtrip_witness :
  ∃ piece, encode_strings sample_block = Ok piece ∧
    decode_strings (concat [piece; piece]) (length (concat [sample_block; sample_block])) =
    Ok (concat [sample_block; sample_block]).
Proof.
  destruct (strings_roundtrip [sample_block; sample_block]) as (pieces & Hp & Hd);
    [repeat constructor..|].
  apply Forall2_cons_inv_l in Hp as (piece & pieces1 & Hp1 & Hp2 & ->).
  apply Forall2_cons_inv_l in Hp2 as (piece2 & pieces2 & Hp3 & Hp4 & ->).
  apply Forall2_nil_inv_l in Hp4 as ->.
  assert (piece2 = piece) as -> by congruence.
  exists piece. split; [exact Hp1|].
  assert (match encode_strings sample_block with
          | Ok p => len (concat [p; p]) <=? i32_max | _ => false end = true) as Hsize
    by (vm_compute; reflexivity).
  rewrite Hp1 in Hsize. apply Z.leb_le in Hsize.
  apply Hd; [exact Hsize|]. split; [vm_compute; discriminate|].
  transitivity (1024 * 1024); [vm_compute; discriminate|apply Z.le_max_r].
Defined.
