(* ===== verification/Codec.v ===== *)
(** Whole columns through the wire and back: what [encode_column] writes,
    [decode_column] reads as the same rows. *)

From stdpp Require Import base list numbers strings gmap.
From S2P Require Import Prelude RustStd Types Calendar Inet Exportbin ArrowData Decode DecodeProofs Encode StringCodec.
Local Open Scope Z_scope.

(** ** Rows of fixed width *)

Lemma encode_rows_ok {A} (f : nat → A → res EncodeError bytes) rows data :
  encode_rows f rows = Ok data →
  ∃ outs, mapi_res f 0 rows = Ok outs ∧ data = concat outs.
Proof. unfold encode_rows. intros H. res_inv. by exists a. Qed.

(** Pieces that are the rows of a column with [n]-byte cells. *)
Definition cells_written {A} (n : nat) (read : bytes → A) (rows : list A) (outs : list bytes) : Prop :=
  Forall2 (λ row out, length out = n ∧ read out = row) rows outs.

Lemma cells_written_length {A} n (read : bytes → A) rows outs :
  cells_written n read rows outs → length outs = length rows.
Proof. intros H. symmetry. by eapply Forall2_length. Qed.

Lemma cells_written_width {A} n (read : bytes → A) rows outs :
  cells_written n read rows outs → Forall (λ o, length o = n) outs.
Proof. induction 1 as [|row out rows outs [Hn _] _ IH]; by constructor. Qed.

Lemma cells_written_read {A} n (read : bytes → A) rows outs :
  cells_written n read rows outs → read <$> outs = rows.
Proof. induction 1 as [|row out rows outs [_ Hr] _ IH]; simpl; by f_equal. Qed.

Lemma cells_written_expect {A} n (read : bytes → A) rows outs :
  (0 < n)%nat → cells_written n read rows outs → len rows * Z.of_nat n ≤ usize_max →
  expect_fixed (concat outs) (len rows) (Z.of_nat n) = Ok tt ∧ chunks n (concat outs) = outs.
Proof.
  intros Hn Hw Hmax. pose proof (cells_written_width _ _ _ _ Hw) as Hwidth.
  pose proof (cells_written_length _ _ _ _ Hw) as Hlen. split; [|by apply chunks_concat].
  unfold expect_fixed, checked_mul. rewrite (proj2 (Z.leb_le _ _)) by lia. simpl.
  rewrite bool_decide_eq_true_2; [done|]. rewrite (length_concat_const n) by done. lia.
Qed.

(** A per-row encoder whose every output reads back as its row. *)
Lemma mapi_cells_written {A B} n (read : bytes → B) (g : A → B) (f : nat → A → res EncodeError bytes) i rows outs :
  (∀ row cell out, cell ∈ rows → f row cell = Ok out → length out = n ∧ read out = g cell) →
  mapi_res f i rows = Ok outs → cells_written n read (g <$> rows) outs.
Proof.
  revert i outs; induction rows as [|cell rows IH]; intros i outs Hf H; simpl in H; res_inv; simpl.
  { constructor. }
  constructor; [eapply Hf; [set_solver|done]|].
  eapply IH; [|done]. intros; eapply Hf; [set_solver|done].
Qed.

(** ** The in-place null patch *)

Definition patch (null : bytes) (nulls : validity) (row : nat) (out : bytes) : bytes :=
  if is_null nulls row then null else out.

Lemma copy_from_slice_block (width : nat) (pre : list bytes) (out : bytes) (post : list bytes) src :
  Forall (λ o, length o = width) pre → length out = width → length src = width →
  copy_from_slice (concat (pre ++ out :: post)) (length pre * width) src =
  concat (pre ++ src :: post).
Proof.
  intros Hpre Ho Hs. unfold copy_from_slice. rewrite !concat_app. simpl.
  assert (length (concat pre) = (length pre * width)%nat) as Hl by (by apply length_concat_const).
  rewrite take_app_length' by done. f_equal. f_equal.
  rewrite drop_app_ge by lia. replace (_ - _)%nat with (length out) by lia. apply drop_app_length.
Qed.

Lemma overwrite_nulls_blocks width null nulls done todo :
  Forall (λ o, length o = width) done → Forall (λ o, length o = width) todo → length null = width →
  overwrite_nulls width null nulls (length todo) (length done) (concat (done ++ todo)) =
  concat (done ++ imap (λ i o, patch null nulls (length done + i) o) todo).
Proof.
  intros Hd Ht Hn. revert done Hd. induction Ht as [|o todo Ho Ht IH]; intros blocks Hd; simpl; [done|].
  unfold patch at 1. rewrite Nat.add_0_r.
  assert (∀ o', length o' = width →
            overwrite_nulls width null nulls (length todo) (S (length blocks)) (concat (blocks ++ o' :: todo)) =
            concat (blocks ++ o' :: imap (λ i o, patch null nulls (length blocks + S i) o) todo)) as Hstep.
  { intros o' Ho'. specialize (IH (blocks ++ [o'])). rewrite length_app in IH. simpl in IH.
    rewrite Nat.add_1_r, <- !app_assoc in IH. simpl in IH. rewrite IH by (apply Forall_app; by repeat constructor).
    do 3 f_equal. apply imap_ext. intros i x _. by rewrite Nat.add_succ_r. }
  destruct (is_null nulls (length blocks)); [|by apply Hstep].
  rewrite copy_from_slice_block by done. by apply Hstep.
Qed.

Lemma imap_rows_of {A B} (f : option A → B) (values : list A) nulls row :
  f <$> rows_of row values nulls =
  imap (λ i v, if is_null nulls (row + i) then f None else f (Some v)) values.
Proof.
  revert row; induction values as [|v values IH]; intros row; simpl; [done|].
  rewrite Nat.add_0_r. f_equal; [by case_match|]. rewrite IH. apply imap_ext.
  intros i x _. simpl. by rewrite Nat.add_succ_r.
Qed.

(** The copy of the value buffer with the null rows overwritten is the row by
    row encoding. *)
Lemma copy_native_with_nulls_rows width values nulls null :
  length null = width →
  copy_native_with_nulls width values nulls null =
  concat ((λ cell, match cell with Some v => to_le_bytes width v | None => null end) <$> cells values nulls).
Proof.
  intros Hn. unfold copy_native_with_nulls, cells. rewrite imap_rows_of. simpl.
  assert (Forall (λ o, length o = width) (to_le_bytes width <$> values)) as Hw.
  { apply Forall_fmap, Forall_true. intros v. apply length_to_le_bytes. }
  assert (overwrite_nulls width null nulls (length values) 0 (concat (to_le_bytes width <$> values)) =
          concat (imap (λ i v, if is_null nulls i then null else to_le_bytes width v) values)) as Ho.
  { pose proof (overwrite_nulls_blocks width null nulls [] _ (Forall_nil_2 _) Hw Hn) as Hb. simpl in Hb.
    rewrite length_fmap in Hb. rewrite Hb, imap_fmap. done. }
  destruct (is_null_free nulls (length values)) eqn:Hfree; [|done].
  f_equal. rewrite <- (imap_const (to_le_bytes width)). apply imap_ext. intros i v Hi.
  unfold is_null_free in Hfree. rewrite forallb_forall in Hfree.
  specialize (Hfree i). rewrite negb_true_iff in Hfree. rewrite Hfree; [done|].
  apply in_seq. apply lookup_lt_Some in Hi. lia.
Qed.

(** ** Logical rows *)

(** A value of a row, independent of how the array stores it. *)
Inductive value : Type :=
| VBool (b : bool)
| VInt (z : Z)
| VBytes (s : bytes).

Definition dictionary_row (values : list (option bytes)) (key : option nat) : option bytes :=
  k ← key; v ← values !! k; v.

Definition on_rows {A B} (f : A → B) (rows : list (option A)) : list (option B) :=
  (λ row : option A, f <$> row) <$> rows.

Definition array_rows (array : ArrayRef) : list (option value) :=
  match array with
  | ANull rows => replicate rows None
  | ABoolean values nulls => on_rows VBool (cells values nulls)
  | APrimitive _ values nulls => on_rows VInt (cells values nulls)
  | ABytes _ values => on_rows VBytes values
  | ADictionary _ keys (ABytes _ values) => (λ key, VBytes <$> dictionary_row values key) <$> keys
  | ADictionary _ keys _ => replicate (length keys) None
  end.

(** ** Decoders on written rows *)

Definition unless {A} (null : A → bool) (v : A) : option A := if null v then None else Some v.

Lemma decode_primitive_written dt n from_le null rows outs :
  (0 < n)%nat → cells_written n (λ o, unless null (from_le o)) rows outs →
  len rows * Z.of_nat n ≤ usize_max →
  ∃ a, decode_primitive dt n from_le null (concat outs) (length rows) = Ok a ∧
    array_rows a = on_rows VInt rows.
Proof.
  intros Hn Hw Hmax. destruct (cells_written_expect _ _ _ _ Hn Hw Hmax) as [He Hc].
  unfold decode_primitive. rewrite He, Hc. simpl. eexists. split; [done|]. simpl.
  pose proof (cells_written_length _ _ _ _ Hw) as Hlen.
  rewrite take_ge by (rewrite length_fmap; lia). rewrite cells_of_sentinel.
  rewrite <- (cells_written_read _ _ _ _ Hw), <- list_fmap_compose. done.
Qed.

(** Cells read by a fallible decoder. *)
Definition cells_decoded (n : nat) (g : nat → bytes → res DecodeError (option Z))
    (rows : list (option Z)) (outs : list bytes) : Prop :=
  Forall2 (λ cell out, length out = n ∧ ∀ row, g row out = Ok cell) rows outs.

Lemma cells_decoded_ok n g rows outs i :
  (0 < n)%nat → cells_decoded n g rows outs → len rows * Z.of_nat n ≤ usize_max →
  expect_fixed (concat outs) (len rows) (Z.of_nat n) = Ok tt ∧
  mapi_res g i (chunks n (concat outs)) = Ok rows.
Proof.
  intros Hn Hd Hmax.
  assert (cells_written n (λ o, match g 0%nat o with Ok c => c | _ => None end) rows outs) as Hw.
  { eapply Forall2_impl; [exact Hd|]. simpl. intros cell out [Hl Hg]. by rewrite Hg. }
  destruct (cells_written_expect _ _ _ _ Hn Hw Hmax) as [He Hc]. split; [done|]. rewrite Hc.
  clear -Hd. revert i. induction Hd as [|cell out rows outs [_ Hg] _ IH]; intros i; simpl; [done|].
  rewrite Hg. simpl. by rewrite IH.
Qed.

Lemma mapi_cells_decoded {A} n g (h : A → option Z) (f : nat → A → res EncodeError bytes) i rows outs :
  (∀ row cell out, cell ∈ rows → f row cell = Ok out →
     length out = n ∧ ∀ row, g row out = Ok (h cell)) →
  mapi_res f i rows = Ok outs → cells_decoded n g (h <$> rows) outs.
Proof.
  revert i outs; induction rows as [|cell rows IH]; intros i outs Hf H; simpl in H; res_inv; simpl.
  { constructor. }
  constructor; [eapply Hf; [set_solver|done]|].
  eapply IH; [|done]. intros; eapply Hf; [set_solver|done].
Qed.

Lemma option_column_rows dt rows : array_rows (option_column dt rows) = on_rows VInt rows.
Proof. unfold option_column. simpl. by rewrite cells_of_options. Qed.

(** ** Integers *)

(** A sentinel-coded integer cell: the row, or the sentinel for a null. *)
Lemma signed_cell n null cell :
  (0 < n)%nat → signed_range (8 * Z.of_nat n) null = true →
  (∀ v, cell = Some v → v ≠ null ∧ signed_range (8 * Z.of_nat n) v = true) →
  unless (λ v, v =? null) (i_from_le (to_le_bytes n (default null cell))) = cell.
Proof.
  intros Hn Hnull Hv. destruct cell as [v|]; simpl.
  - destruct (Hv v eq_refl). rewrite i_from_le_to_le_id by done. unfold unless.
    by rewrite (proj2 (Z.eqb_neq _ _)).
  - rewrite i_from_le_to_le_id by done. unfold unless. by rewrite Z.eqb_refl.
Qed.

Lemma check_rows_ok bad message values nulls u :
  check_rows bad message values nulls = Ok u →
  Forall (λ cell, ∀ v, cell = Some v → bad v = false) (cells values nulls).
Proof.
  unfold check_rows. intros H. apply bind_ok in H as (l & H & _).
  apply mapi_res_ok in H. revert l H. generalize 0%nat.
  induction (cells values nulls) as [|cell rows IH]; intros i l H; [constructor|].
  simpl in H. inversion H as [|? ? ? ? Hc Hrest]; subst. constructor; [|by eapply IH].
  intros v ->. simpl in Hc. unfold ensure in Hc. case_match; [|done]. by apply negb_true_iff.
Qed.

(** A row of a primitive array is one of its values. *)
Lemma cells_values {A} (P : A → Prop) (values : list A) nulls :
  Forall P values → Forall (λ cell, ∀ v, cell = Some v → P v) (cells values nulls).
Proof.
  unfold cells. generalize 0%nat. intros i HP. revert i.
  induction HP as [|v values Hv _ IH]; intros i; simpl; constructor; [|done].
  case_match; [done|]. by intros w [= <-].
Qed.

Lemma length_cells {A} (values : list A) nulls : length (cells values nulls) = length values.
Proof. apply length_rows_of. Qed.

(** Cells that are the little-endian bytes of a value or of the null. *)
Lemma le_cells_written {A} n (read : bytes → A) (rows : list (option Z)) null (g : option Z → A) :
  Forall (λ cell, read (to_le_bytes n (default null cell)) = g cell) rows →
  cells_written n read (g <$> rows)
    ((λ cell, match cell with Some v => to_le_bytes n v | None => to_le_bytes n null end) <$> rows).
Proof.
  induction 1 as [|cell rows Hc _ IH]; simpl; constructor; [|done].
  destruct cell; simpl in Hc; by rewrite length_to_le_bytes.
Qed.

Lemma encode_primitive_roundtrip dt n null values nulls data :
  (0 < n)%nat → null = - 2 ^ (8 * Z.of_nat n - 1) →
  Forall (λ v, signed_range (8 * Z.of_nat n) v = true) values →
  encode_primitive n null values nulls = Ok data → len values * Z.of_nat n ≤ usize_max →
  ∃ a, decode_primitive dt n i_from_le (λ v, v =? null) data (length values) = Ok a ∧
    array_rows a = on_rows VInt (cells values nulls).
Proof.
  intros Hn Hnull Hr He Hmax. unfold encode_primitive in He. apply bind_ok in He as (u & Hc & He).
  injection He as <-. apply check_rows_ok in Hc.
  rewrite copy_native_with_nulls_rows by apply length_to_le_bytes.
  rewrite <- (length_cells values nulls) in *. apply (cells_values _ _ nulls) in Hr.
  assert (signed_range (8 * Z.of_nat n) null = true) as Hnr.
  { unfold signed_range. rewrite Hnull. assert (0 < 2 ^ (8 * Z.of_nat n - 1)) by (apply Z.pow_pos_nonneg; lia).
    rewrite (proj2 (Z.leb_le _ _)), (proj2 (Z.ltb_lt _ _)) by lia. done. }
  apply decode_primitive_written; [done| |done].
  rewrite <- (list_fmap_id (cells values nulls)) at 1. apply le_cells_written. rewrite Forall_forall in Hc, Hr |- *. intros cell Hin.
  apply signed_cell; [done..|]. intros v Hv. split; [|by eapply Hr].
  apply Z.eqb_neq. by eapply Hc.
Qed.

(** The null of an [n]-byte signed wire integer. *)
Definition wire_min (n : nat) : Z := - 2 ^ (8 * Z.of_nat n - 1).

Lemma wire_min_range n : (0 < n)%nat → signed_range (8 * Z.of_nat n) (wire_min n) = true.
Proof.
  intros Hn. unfold signed_range, wire_min.
  assert (0 < 2 ^ (8 * Z.of_nat n - 1)) by (apply Z.pow_pos_nonneg; lia).
  rewrite (proj2 (Z.leb_le _ _)), (proj2 (Z.ltb_lt _ _)) by lia. done.
Qed.

Definition le_cell (n : nat) (null : Z) (cell : option Z) : bytes := to_le_bytes n (default null cell).

Lemma signed_written n rows :
  (0 < n)%nat →
  Forall (λ cell, ∀ v, cell = Some v → v ≠ wire_min n ∧ signed_range (8 * Z.of_nat n) v = true) rows →
  cells_written n (λ o, unless (λ v, v =? wire_min n) (i_from_le o)) rows (le_cell n (wire_min n) <$> rows).
Proof.
  intros Hn. induction 1 as [|cell rows Hc _ IH]; simpl; constructor; [|done]. unfold le_cell.
  rewrite length_to_le_bytes. split; [done|]. apply signed_cell; [done|by apply wire_min_range|done].
Qed.

Lemma encode_unsigned_rows n values nulls :
  encode_unsigned n values nulls = Ok (concat (le_cell n (wire_min n) <$> cells values nulls)).
Proof.
  unfold encode_unsigned, encode_rows.
  rewrite (mapi_res_pure _ (le_cell n (wire_min n))); [done|]. by intros j [v|] _.
Qed.

Lemma encode_unsigned_roundtrip dt n values nulls data :
  (0 < n)%nat → Forall (λ v, 0 ≤ v < 2 ^ (8 * Z.of_nat n - 1)) values →
  encode_unsigned n values nulls = Ok data → len values * Z.of_nat n ≤ usize_max →
  ∃ a, decode_primitive dt n i_from_le (λ v, v =? wire_min n) data (length values) = Ok a ∧
    array_rows a = on_rows VInt (cells values nulls).
Proof.
  intros Hn Hr He Hmax. rewrite encode_unsigned_rows in He. injection He as <-.
  rewrite <- (length_cells values nulls) in *. apply decode_primitive_written; [done| |done].
  apply signed_written; [done|]. eapply Forall_impl; [by apply cells_values|]. simpl.
  intros cell Hc v Hv. specialize (Hc v Hv). unfold wire_min, signed_range.
  rewrite (proj2 (Z.leb_le _ _)), (proj2 (Z.ltb_lt _ _)) by lia. split; [lia|done].
Qed.

Lemma encode_bool_roundtrip values nulls :
  len values ≤ usize_max →
  ∃ a, decode_bool (encode_bool values nulls) (length values) = Ok a ∧
    array_rows a = on_rows VBool (cells values nulls).
Proof.
  intros Hmax. unfold decode_bool, encode_bool, expect_fixed, checked_mul.
  rewrite <- (length_cells values nulls) in *. rewrite Z.mul_1_r, (proj2 (Z.leb_le _ _)) by lia. simpl.
  rewrite length_fmap, bool_decide_eq_true_2 by done. simpl.
  set (rows := cells values nulls). clearbody rows.
  set (wire := λ cell : option bool, match cell with None => 128 | Some true => 1 | Some false => 0 end).
  change (λ cell : option bool, _) with wire.
  replace (existsb invalid_bool (wire <$> rows)) with false.
  2:{ symmetry. apply not_true_iff_false. intros Hx. apply existsb_exists in Hx as (x & Hin & Hx).
      apply list_elem_of_In, list_elem_of_fmap in Hin as ([[]|] & -> & _); done. }
  eexists. split; [reflexivity|]. simpl. unfold on_rows.
  rewrite (cells_ext _ _ (Some ((λ b, negb (b =? 128)) <$> (wire <$> rows)))).
  - apply list_eq. intros i. rewrite !list_lookup_fmap, lookup_cells, !list_lookup_fmap. simpl.
    rewrite !list_lookup_fmap. by destruct (rows !! i) as [[[]|]|].
  - intros i Hi. destruct (position _ _) eqn:Hp; [done|]. apply position_None in Hp. simpl.
    rewrite list_lookup_fmap. destruct ((wire <$> rows) !! i) as [b|] eqn:Hb; [|done]. simpl.
    rewrite Forall_lookup in Hp. by rewrite (Hp i b Hb).
Qed.

Lemma encode_oid_roundtrip values nulls data :
  Forall (λ v, 0 ≤ v) values → encode_oid values nulls = Ok data →
  len values * 8 ≤ usize_max →
  ∃ a, decode_primitive DUInt64 8 u_from_le (λ v, v =? 2 ^ 63) data (length values) = Ok a ∧
    array_rows a = on_rows VInt (cells values nulls).
Proof.
  intros Hr He Hmax. apply encode_rows_ok in He as (outs & He & ->).
  rewrite <- (length_cells values nulls) in *. apply decode_primitive_written; [lia| |done].
  apply (mapi_cells_written 8 (λ o, unless (λ v, v =? 2 ^ 63) (u_from_le o)) id) in He;
    [by rewrite list_fmap_id in He|].
  apply (cells_values _ _ nulls) in Hr. rewrite Forall_forall in Hr.
  intros row [v|] out Hin H; simpl in H.
  - case_match; simplify_eq. bool_prop. rewrite length_to_le_bytes. split; [done|].
    specialize (Hr _ Hin v eq_refl). rewrite u_from_le_to_le_id by range_lia.
    unfold unless, id. by rewrite (proj2 (Z.eqb_neq _ _)) by lia.
  - simplify_eq. rewrite length_to_le_bytes. done.
Qed.

(** ** Floats *)

(** An exponent that is not all ones leaves the magnitude at or below the
    infinities: a finite number is no NaN. *)
Lemma finite_exponent e m bits :
  0 ≤ e → 0 ≤ m → Z.land bits (Z.shiftl (Z.ones e) m) ≠ Z.shiftl (Z.ones e) m →
  Z.land bits (Z.ones (e + m)) ≤ Z.shiftl (Z.ones e) m.
Proof.
  intros He Hm Hne. apply Z.nlt_ge. intros Hgt. apply Hne.
  set (x := Z.land bits (Z.ones (e + m))) in *.
  assert (0 ≤ x < 2 ^ (e + m)) as Hx.
  { unfold x. rewrite Z.land_ones by lia. apply Z.mod_pos_bound, Z.pow_pos_nonneg; lia. }
  assert (Z.shiftr x m = Z.ones e) as Hhigh.
  { rewrite Z.shiftl_mul_pow2 in Hgt by lia. rewrite Z.shiftr_div_pow2 by lia.
    rewrite Z.pow_add_r in Hx by lia. rewrite Z.ones_equiv in *.
    assert (0 < 2 ^ m) by (by apply Z.pow_pos_nonneg).
    apply Z.le_antisymm; [|apply Z.div_le_lower_bound; lia].
    apply Z.lt_le_pred, Z.div_lt_upper_bound; lia. }
  apply Z.bits_inj'. intros i Hi. rewrite Z.land_spec, Z.shiftl_spec by done.
  destruct (Z.leb_spec m i); [|rewrite (Z.testbit_neg_r _ (i - m)) by lia; by rewrite andb_false_r].
  destruct (Z.ltb_spec (i - m) e);
    [|rewrite Z.ones_spec_high by lia; by rewrite andb_false_r].
  rewrite (Z.ones_spec_low e) by lia. rewrite andb_true_r.
  assert (Z.testbit (Z.shiftr x m) (i - m) = true) as Hb by (rewrite Hhigh; apply Z.ones_spec_low; lia).
  rewrite Z.shiftr_spec in Hb by lia. replace (i - m + m) with i in Hb by lia.
  unfold x in Hb. rewrite Z.land_spec in Hb. by apply andb_true_iff in Hb as [? _].
Qed.

Lemma f32_finite_not_nan v : f32_is_finite v = true → f32_is_nan v = false.
Proof.
  unfold f32_is_finite, f32_is_nan. intros H. bool_prop. apply Z.ltb_ge.
  by apply (finite_exponent 8 23 v).
Qed.

Lemma f64_finite_not_nan v : f64_is_finite v = true → f64_is_nan v = false.
Proof.
  unfold f64_is_finite, f64_is_nan. intros H. bool_prop. apply Z.ltb_ge.
  by apply (finite_exponent 11 52 v).
Qed.

(** Cells of bits with a NaN for the nulls. *)
Lemma float_written n nan is_nan rows :
  is_nan nan = true → 0 ≤ nan < 2 ^ (8 * Z.of_nat n) →
  Forall (λ cell, ∀ v, cell = Some v → is_nan v = false ∧ 0 ≤ v < 2 ^ (8 * Z.of_nat n)) rows →
  cells_written n (λ o, unless is_nan (u_from_le o)) rows (le_cell n nan <$> rows).
Proof.
  intros Hnan Hr. induction 1 as [|cell rows Hc _ IH]; simpl; constructor; [|done].
  unfold le_cell. rewrite length_to_le_bytes. split; [done|]. unfold unless.
  destruct cell as [v|]; simpl.
  - destruct (Hc v eq_refl) as [Hv Hb]. rewrite u_from_le_to_le_id by done. by rewrite Hv.
  - rewrite u_from_le_to_le_id by done. by rewrite Hnan.
Qed.

(** [encode_f32] and [encode_f64] share their shape. *)
Lemma encode_float_roundtrip dt n nan (is_finite is_nan : Z → bool) values nulls data :
  (0 < n)%nat → is_nan nan = true → 0 ≤ nan < 2 ^ (8 * Z.of_nat n) →
  (∀ v, is_finite v = true → is_nan v = false) →
  Forall (λ v, 0 ≤ v < 2 ^ (8 * Z.of_nat n)) values →
  (_ ← check_rows (λ v, negb (is_finite v)) finite_message values nulls;
   Ok (copy_native_with_nulls n values nulls (to_le_bytes n nan))) = Ok data →
  len values * Z.of_nat n ≤ usize_max →
  ∃ a, decode_primitive dt n u_from_le is_nan data (length values) = Ok a ∧
    array_rows a = on_rows VInt (cells values nulls).
Proof.
  intros Hn Hnan Hnr Hfin Hr He Hmax. apply bind_ok in He as (u & Hc & He). injection He as <-.
  apply check_rows_ok in Hc. rewrite copy_native_with_nulls_rows by apply length_to_le_bytes.
  rewrite <- (length_cells values nulls) in *. apply (cells_values _ _ nulls) in Hr.
  apply decode_primitive_written; [done| |done].
  rewrite (list_fmap_ext _ (le_cell n nan) (cells values nulls)) by (by intros ? [] ?).
  apply float_written; [done..|]. rewrite Forall_forall in Hc, Hr |- *. intros cell Hin v Hv.
  split; [|by eapply Hr]. apply Hfin. specialize (Hc _ Hin v Hv). by apply negb_false_iff.
Qed.

(** ** Half-precision floats *)

(** The crate widens a half to a 32-bit pattern. *)
Class HalfLaws `{Half} : Prop := { f32_from_f16_range b : 0 ≤ f32_from_f16 b < 2 ^ 32 }.

(** An instance: sign, exponent rebiased by 112, mantissa shifted by 13; a
    subnormal is normalised. *)
#[global] Instance ieee_half : Half := {|
  f32_from_f16 bits :=
    let sign := Z.land bits 32768 in
    let exponent := Z.land (Z.shiftr bits 10) 31 in
    let mantissa := Z.land bits 1023 in
    Z.land (Z.lor (Z.shiftl sign 16)
      (if exponent =? 0 then
         if mantissa =? 0 then 0
         else let k := Z.log2 mantissa in
              Z.shiftl (k + 103) 23 + (Z.shiftl mantissa (23 - k) - 8388608)
       else if exponent =? 31 then 2139095040 + Z.shiftl mantissa 13
       else Z.shiftl (exponent + 112) 23 + Z.shiftl mantissa 13)) 4294967295 |}.

#[global] Instance ieee_half_laws : HalfLaws.
Proof.
  split. intros b. unfold f32_from_f16, ieee_half. change 4294967295 with (Z.ones 32).
  rewrite Z.land_ones by lia. by apply Z.mod_pos_bound.
Qed.

Lemma encode_f16_roundtrip `{HalfLaws} values nulls data :
  encode_f16 values nulls = Ok data → len values * 4 ≤ usize_max →
  ∃ a, decode_primitive DFloat32 4 u_from_le f32_is_nan data (length values) = Ok a ∧
    array_rows a = on_rows (λ v, VInt (f32_from_f16 v)) (cells values nulls).
Proof.
  intros He Hmax. apply encode_rows_ok in He as (outs & He & ->).
  rewrite <- (length_cells values nulls) in *.
  apply (mapi_cells_written 4 (λ o, unless f32_is_nan (u_from_le o)) (fmap f32_from_f16)) in He.
  - destruct (decode_primitive_written DFloat32 4 u_from_le f32_is_nan _ _ ltac:(lia) He)
      as (a & Ha & Hrows); [by rewrite length_fmap|].
    rewrite length_fmap in Ha. exists a. split; [done|]. rewrite Hrows. unfold on_rows.
    rewrite <- list_fmap_compose. apply list_fmap_ext. by intros ? [] ?.
  - intros row [v|] out _ Ho; simpl in Ho; [|simplify_eq; by rewrite length_to_le_bytes].
    case_match; simplify_eq. bool_prop. rewrite length_to_le_bytes. split; [done|].
    rewrite u_from_le_to_le_id by apply f32_from_f16_range. unfold unless.
    by rewrite f32_finite_not_nan.
Qed.

(** ** Decimals *)

Section decimals.
Context `{ArrowLaws}.

Definition below (limit : Z) (cell : option Z) : Prop := ∀ v, cell = Some v → - limit < v < limit.

Lemma decimal_rows_ok limit sentinel hugeint i rows outs n :
  cells_written n (λ o, unless (λ v, v =? sentinel) (i_from_le o)) rows outs →
  Forall (below limit) rows →
  mapi_res (decimal_row limit sentinel hugeint) i (i_from_le <$> outs) =
  Ok ((λ v, negb (v =? sentinel)) <$> (i_from_le <$> outs)).
Proof.
  intros Hw. revert i. induction Hw as [|cell out rows outs [_ Hr] _ IH]; intros i Hb; simpl; [done|].
  inversion Hb as [|?? Hc Hcs]; subst. rewrite IH by done. unfold decimal_row, unless in *.
  destruct (i_from_le out =? sentinel); simpl; [done|].
  specialize (Hc _ eq_refl). rewrite !(proj2 (Z.leb_gt _ _)) by lia. done.
Qed.

Lemma decode_decimal_written precision scale (hugeint : bool) n rows outs :
  1 ≤ precision ≤ 38 → 0 ≤ scale ≤ precision →
  (if hugeint then Some 16 else decimal_width precision) = Some (Z.of_nat n) → (0 < n)%nat →
  cells_written n (λ o, unless (λ v, v =? wire_min n) (i_from_le o)) rows outs →
  Forall (below (10 ^ precision)) rows → len rows * Z.of_nat n ≤ usize_max →
  ∃ a, decode_decimal (concat outs) (length rows) precision scale hugeint = Ok a ∧
    array_rows a = on_rows VInt rows.
Proof.
  intros Hp Hs Hn Hpos Hw Hb Hmax. rewrite (decode_decimal_eq _ _ _ _ _ n) by done.
  destruct (cells_written_expect _ _ _ _ Hpos Hw Hmax) as [-> ->]. cbn [mbind res_bind].
  rewrite (decimal_rows_ok _ _ _ _ rows _ n) by done. simpl. eexists. split; [done|]. simpl.
  rewrite cells_of_sentinel, <- (cells_written_read _ _ _ _ Hw), <- list_fmap_compose. done.
Qed.

Lemma decimal_narrow_ok n row cell out :
  decimal_narrow n row cell = Ok out →
  out = le_cell n (wire_min n) cell ∧
  ∀ v, cell = Some v → v ≠ wire_min n ∧ signed_range (8 * Z.of_nat n) v = true.
Proof.
  unfold decimal_narrow, wire_min. intros He. apply bind_ok in He as (w & Hw & He).
  destruct cell as [v|]; simpl in *.
  - case_match; simplify_eq. case_match; simplify_eq. bool_prop.
    split; [done|]. intros ? [= <-]. done.
  - simplify_eq. split; [done|]. by intros ?.
Qed.

Lemma encode_decimal_rows precision enforce n i rows outs :
  decimal_width precision = Some (Z.of_nat n) →
  mapi_res (encode_decimal_row precision enforce) i rows = Ok outs →
  outs = le_cell n (wire_min n) <$> rows ∧
  Forall (λ cell, ∀ v, cell = Some v → v ≠ wire_min n ∧ signed_range (8 * Z.of_nat n) v = true) rows ∧
  (enforce = true → Forall (below (10 ^ precision)) rows).
Proof.
  intros Hw. revert i outs; induction rows as [|cell rows IH]; intros i outs He; simpl in He; res_inv.
  { repeat constructor. }
  destruct (IH _ _ ltac:(eassumption)) as (-> & Hr & Hb).
  match goal with E : encode_decimal_row _ _ _ _ = _ |- _ => unfold encode_decimal_row in E;
    destruct (match cell with Some _ => _ | None => _ end) eqn:Hlim in E; [done|];
    rewrite Hw in E; cbn [or_panic mbind res_bind] in E; rewrite Nat2Z.id in E;
    apply decimal_narrow_ok in E as [-> Hv] end.
  split_and!; [done|by constructor|]. intros ->. constructor; [|by apply Hb].
  intros v ->. simpl in Hlim. bool_prop. lia.
Qed.

Lemma encode_decimal_roundtrip precision scale (hugeint : bool) values nulls data n :
  1 ≤ precision ≤ 38 → 0 ≤ scale ≤ precision → decimal_width precision = Some (Z.of_nat n) →
  (hugeint = true → precision = 38) →
  (hugeint = true → Forall (below (10 ^ 38)) (cells values nulls)) →
  encode_decimal precision (negb hugeint) values nulls = Ok data →
  len values * Z.of_nat n ≤ usize_max →
  ∃ a, decode_decimal data (length values) precision scale hugeint = Ok a ∧
    array_rows a = on_rows VInt (cells values nulls).
Proof.
  intros Hp Hs Hw Hh Hb He Hmax. unfold encode_decimal in He. case_match; [done|].
  apply encode_rows_ok in He as (outs & He & ->).
  destruct (encode_decimal_rows _ _ n _ _ _ Hw He) as (-> & Hr & Hb').
  assert (0 < n)%nat as Hn.
  { destruct (decimal_width_cases precision Hp) as (m & Hm & Hin & _).
    assert (n = m) as -> by (rewrite Hw in Hm; simplify_eq; lia). set_unfold. lia. }
  rewrite <- (length_cells values nulls) in *. apply (decode_decimal_written _ _ _ n); try done.
  - destruct hugeint; [|done]. rewrite Hh in Hw by done. exact Hw.
  - by apply signed_written.
  - destruct hugeint; [rewrite Hh by done; by apply Hb|by apply Hb'].
Qed.

(** An unsigned 64-bit column is stored as HUGEINT. *)
Lemma encode_u64_roundtrip values nulls data :
  Forall (λ v, 0 ≤ v < 2 ^ 64) values → encode_unsigned 16 values nulls = Ok data →
  len values * 16 ≤ usize_max →
  ∃ a, decode_decimal data (length values) 38 0 true = Ok a ∧
    array_rows a = on_rows VInt (cells values nulls).
Proof.
  intros Hr He Hmax. rewrite encode_unsigned_rows in He. injection He as <-.
  rewrite <- (length_cells values nulls) in *. apply (cells_values _ _ nulls) in Hr.
  apply (decode_decimal_written _ _ _ 16); [lia|lia|done|lia| | |done].
  - apply signed_written; [lia|]. eapply Forall_impl; [exact Hr|]. intros cell Hc v Hv.
    specialize (Hc v Hv). unfold wire_min. change (8 * Z.of_nat 16) with 128. machine_bounds. split; lia.
  - assert (2 ^ 64 < 10 ^ 38) by (by vm_compute).
    eapply Forall_impl; [exact Hr|]. intros cell Hc v Hv. specialize (Hc v Hv). simpl in Hc. lia.
Qed.
End decimals.

(** ** Dates and times *)

Lemma Ok_inj {E A} (a b : A) : @Ok E A a = Ok b → a = b.
Proof. congruence. Qed.

Section dates.
Context `{ChronoLaws}.

(** A day that is written reads back as the same day: the writer's calendar
    and the reader's day count agree. *)
Lemma append_date_ok days row out :
  append_date days row = Ok out →
  length out = 4%nat ∧ ∀ row', date_value row' out = Ok (Some days).
Proof.
  unfold append_date, date_from_days. intros He. apply bind_ok in He as (d & Hd & He).
  apply ok_or_ok in Hd. case_match; [done|]. apply bind_ok in He as (y & Hy & He).
  case_match; [|done]. injection Hy as <-. injection He as <-.
  pose proof (chrono_days _ _ Hd) as Hdays. pose proof (chrono_some _ _ Hd) as Hrange.
  pose proof (chrono_valid _ _ Hd) as Hvalid. pose proof (date_valid_month _ Hvalid) as [Hm _].
  pose proof (length_to_le_bytes 2 (year d)) as Hl.
  destruct (to_le_bytes 2 (year d)) as [|b0 [|b1 [|]]] eqn:Hb; try done.
  split; [done|]. intros row'. unfold date_value. cbn [app drop]. rewrite <- Hb.
  rewrite i_from_le_to_le_id by (done || lia).
  unfold date_valid in Hvalid. apply andb_true_iff in Hvalid as [_ Hymd]. rewrite Hymd.
  rewrite (proj2 (Z.eqb_neq (month d) u8_max)) by range_lia. simpl.
  unfold date_days in Hdays. rewrite Hdays.
  replace (signed_range 32 days) with true; [done|]. unfold chrono_min, chrono_max in Hrange.
  symmetry. range_lia.
Qed.

Lemma append_time_ok micros row out :
  append_time micros row = Ok out →
  length out = 8%nat ∧ ∀ row', time_value row' out = Ok (Some micros).
Proof.
  unfold append_time. case_match; [done|]. bool_prop. intros He. apply Ok_inj in He as <-.
  rewrite length_app, length_to_le_bytes. split; [done|]. intros row'.
  rewrite (Z.quot_div_nonneg micros), (Z.rem_mod_nonneg micros) by lia.
  set (us := micros mod 1000000).
  assert (0 ≤ us < 1000000) as Hus by (apply Z.mod_pos_bound; lia).
  pose proof (length_to_le_bytes 4 us) as Hl.
  destruct (to_le_bytes 4 us) as [|b0 [|b1 [|b2 [|b3 [|]]]]] eqn:Hb; try done.
  unfold time_value. cbn [app take]. rewrite <- Hb, u_from_le_to_le_id by lia.
  rewrite (proj2 (Z.eqb_neq us u32_max)) by range_lia.
  assert (0 ≤ micros / 1000000 < 86400) as Hs.
  { split; [apply Z.div_pos; lia|]. apply Z.div_lt_upper_bound; lia. }
  set (s := micros / 1000000) in *.
  rewrite (Z.quot_div_nonneg s 60), (Z.quot_div_nonneg s 3600), (Z.rem_mod_nonneg s 60),
    (Z.rem_mod_nonneg (s / 60) 60) by (try apply Z.div_pos; lia).
  assert (0 ≤ s / 3600 < 24) by divlia.
  assert (s / 60 / 60 = s / 3600) as Hh by (rewrite Z.div_div by lia; done).
  pose proof (Z.mod_pos_bound s 60 ltac:(lia)). pose proof (Z.mod_pos_bound (s / 60) 60 ltac:(lia)).
  rewrite !(proj2 (Z.leb_gt _ _)) by lia. simpl. f_equal. f_equal.
  pose proof (Z.div_mod micros 1000000 ltac:(lia)) as Hdiv. fold s us in Hdiv.
  pose proof (Z.div_mod s 60 ltac:(lia)). pose proof (Z.div_mod (s / 60) 60 ltac:(lia)). lia.
Qed.

Lemma append_timestamp_ok micros row out :
  append_timestamp micros row = Ok out →
  length out = 12%nat ∧ ∀ row', timestamp_value row' out = Ok (Some micros).
Proof.
  unfold append_timestamp. intros He. apply bind_ok in He as (time & Ht & He).
  apply bind_ok in He as (date & Hd & He). injection He as <-.
  apply append_time_ok in Ht as [Hlt Ht]. apply append_date_ok in Hd as [Hld Hd].
  rewrite length_app. split; [lia|]. intros row'. unfold timestamp_value.
  rewrite take_app_length', drop_app_length' by done. rewrite Ht, Hd. simpl.
  f_equal. f_equal. pose proof (Z.div_mod micros 86400000000 ltac:(lia)). lia.
Qed.

(** The wire null of each kind. *)
Lemma wire_nulls row :
  date_value row (replicate 4 255) = Ok None ∧ time_value row (replicate 8 255) = Ok None ∧
  timestamp_value row (replicate 12 255) = Ok None.
Proof. done. Qed.

(** A column of optional cells: nulls as 0xff, values converted and appended. *)
Lemma optional_column_written n (g : nat → bytes → res DecodeError (option Z)) (convert : Z → Z)
    (f : nat → option Z → res EncodeError bytes) rows data :
  (∀ row, f row None = Ok (replicate n 255)) → (∀ row, g row (replicate n 255) = Ok None) →
  (∀ row v out, Some v ∈ rows → f row (Some v) = Ok out →
     length out = n ∧ ∀ row', g row' out = Ok (Some (convert v))) →
  (0 < n)%nat → encode_rows f rows = Ok data → len rows * Z.of_nat n ≤ usize_max →
  expect_fixed data (len rows) (Z.of_nat n) = Ok tt ∧
  mapi_res g 0 (chunks n data) = Ok ((λ cell : option Z, convert <$> cell) <$> rows).
Proof.
  intros Hnone Hnull Hsome Hn He Hmax. apply encode_rows_ok in He as (outs & He & ->).
  apply (mapi_cells_decoded n g (fmap convert)) in He.
  - rewrite <- (length_fmap (fmap (M := option) convert) rows) in *. by apply cells_decoded_ok.
  - intros row [v|] out Hin Ho; [by eapply Hsome|]. rewrite Hnone in Ho. simplify_eq.
    rewrite length_replicate. split; [done|]. intros. apply Hnull.
Qed.
End dates.

(** ** Durations *)

Lemma encode_duration_roundtrip multiplier divisor whole values nulls data :
  encode_duration_values multiplier divisor whole values nulls = Ok data →
  len values * 8 ≤ usize_max →
  ∃ a, decode_primitive (DDuration Millisecond) 8 i_from_le (λ v, v =? i64_min) data (length values) = Ok a ∧
    array_rows a = on_rows (λ v, VInt (Z.quot v divisor * multiplier)) (cells values nulls).
Proof.
  intros He Hmax. apply encode_rows_ok in He as (outs & He & ->).
  rewrite <- (length_cells values nulls) in *.
  apply (mapi_cells_written 8 (λ o, unless (λ v, v =? i64_min) (i_from_le o))
           (fmap (λ v, Z.quot v divisor * multiplier))) in He.
  - destruct (decode_primitive_written (DDuration Millisecond) 8 i_from_le (λ v, v =? i64_min) _ _
                ltac:(lia) He) as (a & Ha & Hrows); [by rewrite length_fmap|].
    rewrite length_fmap in Ha. exists a. split; [done|]. rewrite Hrows. unfold on_rows.
    rewrite <- list_fmap_compose. apply list_fmap_ext. by intros ? [] ?.
  - intros row [v|] out _ Ho; simpl in Ho; [|simplify_eq; by rewrite length_to_le_bytes].
    case_match; [done|]. apply bind_ok in Ho as (w & Hw & Ho). apply ok_or_ok in Hw.
    unfold i64_checked_mul in Hw. case_match; simplify_eq. do 2 (case_match; simplify_eq). bool_prop.
    rewrite length_to_le_bytes. split; [done|]. rewrite i_from_le_to_le_id by (done || lia).
    unfold unless. by rewrite (proj2 (Z.eqb_neq _ _)).
Qed.

(** ** Blobs *)

Lemma encode_blob_length v : len (encode_blob v) = 8 + len (default [] v).
Proof. destruct v; cbn [encode_blob default]; rewrite ?length_app, length_to_le_bytes; simpl; lia. Qed.

Lemma encode_blobs_cons v vs : encode_blobs (v :: vs) = encode_blob v ++ encode_blobs vs.
Proof. done. Qed.

Lemma encode_blobs_length vs : len (encode_blobs vs) = 8 * len vs + value_bytes_of vs.
Proof.
  induction vs as [|v vs IH]; [done|]. rewrite encode_blobs_cons.
  rewrite length_app, Nat2Z.inj_add, IH, encode_blob_length. simpl. lia.
Qed.

Lemma blob_loop_ok row acc vs pre :
  value_bytes_of (acc ++ vs) ≤ i32_max → len (pre ++ encode_blobs vs) ≤ isize_max →
  blob_loop (pre ++ encode_blobs vs) (length vs) row (len pre) (value_bytes_of acc) acc = Ok (acc ++ vs).
Proof.
  revert row acc pre; induction vs as [|v vs IH]; intros row acc pre Hb Hmax; cbn [blob_loop length].
  { change (encode_blobs []) with ([] : bytes). rewrite app_nil_r, app_nil_r, Z.eqb_refl. done. }
  rewrite encode_blobs_cons in *.
  specialize (IH (S row) (acc ++ [v]) (pre ++ encode_blob v)). rewrite <- !app_assoc in IH. simpl in IH.
  specialize (IH Hb Hmax). rewrite value_bytes_of_app in Hb. simpl in Hb.
  pose proof (value_bytes_of_nonneg acc). pose proof (value_bytes_of_nonneg vs).
  pose proof (encode_blob_length v) as Hl.
  rewrite !length_app, !Nat2Z.inj_add in Hmax. unfold isize_max in Hmax.
  unfold checked_add. rewrite (proj2 (Z.leb_le (len pre + 8) _)) by range_lia. cbn [ok_or mbind res_bind].
  rewrite value_bytes_of_app in IH. simpl in IH. rewrite Z.add_0_r, length_app, Nat2Z.inj_add, Hl in IH.
  destruct v as [v|]; cbn [encode_blob default id] in *.
  - rewrite <- app_assoc in IH |- *.
    rewrite (slice_get_app pre (to_le_bytes 8 (len v)) (v ++ encode_blobs vs))
      by (rewrite ?length_to_le_bytes; lia).
    cbn [ok_or mbind res_bind]. rewrite i64_le by range_lia.
    rewrite (proj2 (Z.eqb_neq _ _)), (proj2 (Z.ltb_ge _ _)) by lia.
    unfold usize_try_from, unsigned_range.
    rewrite (proj2 (Z.leb_le 0 _)), (proj2 (Z.ltb_lt _ _)) by lia. cbn [andb ok_or mbind res_bind].
    rewrite (proj2 (Z.leb_le (len pre + 8 + _) _)) by range_lia. cbn [ok_or mbind res_bind].
    rewrite (app_assoc pre) at 1. rewrite (slice_get_app (pre ++ to_le_bytes 8 (len v)) v (encode_blobs vs))
      by (rewrite length_app, length_to_le_bytes; lia).
    cbn [ok_or mbind res_bind]. rewrite (proj2 (Z.leb_le _ _)) by range_lia. cbn [ok_or mbind res_bind].
    rewrite (proj2 (Z.ltb_ge i32_max _)) by lia. rewrite append_value_ok by lia. cbn [mbind res_bind]. rewrite <- IH. f_equal. lia.
  - rewrite (slice_get_app pre (to_le_bytes 8 (-1)) (encode_blobs vs)) by (rewrite ?length_to_le_bytes; lia).
    cbn [ok_or mbind res_bind]. change (i_from_le (to_le_bytes 8 (-1))) with (-1). simpl.
    rewrite <- IH. f_equal; simpl; lia.
Qed.

Lemma encode_blobs_roundtrip vs :
  len (encode_blobs vs) ≤ i32_max →
  decode_blob (encode_blobs vs) (length vs) = Ok (ABytes DBinary vs).
Proof.
  intros Hmax. pose proof (encode_blobs_length vs) as Hl. pose proof (value_bytes_of_nonneg vs).
  unfold decode_blob, checked_mul, saturating_sub.
  rewrite (proj2 (Z.leb_le _ _)) by range_lia. cbn [ok_or mbind res_bind].
  rewrite (proj2 (Z.ltb_ge _ _)) by lia. rewrite (proj2 (Z.ltb_ge i32_max _)) by lia.
  assert (blob_loop (encode_blobs vs) (length vs) 0 0 0 [] = Ok vs) as ->; [|done].
  apply (blob_loop_ok 0 [] vs []); cbn [app]; range_lia.
Qed.

(** ** UUIDs and addresses *)

Lemma encode_uuid_roundtrip values data :
  Forall (λ v, ∀ s, v = Some s → length s = 16%nat) values → encode_uuid values = Ok data →
  len values * 16 ≤ usize_max →
  decode_uuid data (length values) = Ok (ABytes (DFixedSizeBinary 16) values).
Proof.
  intros Hw He Hmax. apply encode_rows_ok in He as (outs & He & ->).
  apply (mapi_cells_written 16 zero_null id) in He.
  - rewrite list_fmap_id in He. destruct (cells_written_expect 16 _ _ _ ltac:(lia) He Hmax) as [Hf Hc].
    unfold decode_uuid. change (Z.of_nat 16) with 16 in Hf. rewrite Hf, Hc. simpl.
    by rewrite (cells_written_read _ _ _ _ He).
  - rewrite Forall_forall in Hw. intros row [v|] out Hin Ho; simpl in Ho; [|by simplify_eq].
    destruct (forallb _ v) eqn:Hz; simplify_eq. split; [by eapply Hw|]. unfold zero_null, all_byte. by rewrite Hz.
Qed.


Lemma read_ipv4_length n i s gs s' : read_ipv4_groups n i s = Some (gs, s') → length gs = n.
Proof.
  revert i s gs; induction n as [|n IH]; intros i s gs H; simpl in H; [by simplify_eq|].
  apply bind_Some in H as ([g s1] & _ & H). apply bind_Some in H as ([gs1 s2] & H1 & H).
  simplify_eq. simpl. f_equal. by eapply IH.
Qed.

Lemma read_groups_length limit n i s :
  (n + i = limit)%nat → (length (read_groups limit n i s).1.1 ≤ n)%nat.
Proof.
  revert i s; induction n as [|n IH]; intros i s Hn; simpl; [lia|].
  assert (length (match read_separator 58 i (read_number 16 4 true 65535) s with
                  | Some (g, s) => let '(gs, v4, s) := read_groups limit n (S i) s in (g :: gs, v4, s)
                  | None => ([], false, s)
                  end).1.1 ≤ S n)%nat as Hhex.
  { destruct (read_separator _ _ _ s) as [[g s']|]; [|simpl; lia].
    specialize (IH (S i) s'). destruct (read_groups limit n (S i) s') as [[gs v4] s'']. simpl in *. lia. }
  destruct (Nat.ltb_spec (i + 1) limit) as [Hi|Hi]; [|done].
  destruct (read_separator 58 i read_ipv4_addr s) as [[gs s']|]; [|done].
  do 5 (destruct gs as [|? gs]; try done). simpl. lia.
Qed.

Lemma parse_ipv4_length s octets : parse_ipv4 s = Some octets → length octets = 4%nat.
Proof.
  unfold parse_ipv4, parse_with. case_match; [done|]. intros Hp. repeat (case_match; simplify_eq).
  by eapply read_ipv4_length.
Qed.

Lemma read_ipv6_length s gs s' : read_ipv6_addr s = Some (gs, s') → length gs = 8%nat.
Proof.
  unfold read_ipv6_addr. pose proof (read_groups_length 8 8 0 s) as Hh.
  destruct (read_groups 8 8 0 s) as [[hd v4] s1]. simpl in Hh. specialize (Hh eq_refl).
  destruct (Nat.eqb_spec (length hd) 8) as [Hl|Hl]; [by intros [= <- _]|].
  destruct v4; [done|]. intros H. apply bind_Some in H as ([_ s2] & _ & H).
  apply bind_Some in H as ([_ s3] & _ & H).
  pose proof (read_groups_length (8 - (length hd + 1)) (8 - (length hd + 1)) 0 s3 ltac:(lia)) as Ht.
  destruct (read_groups _ _ 0 s3) as [[tl v4] s4]. simpl in Ht. simplify_eq.
  rewrite !length_app, length_replicate. lia.
Qed.

Lemma parse_ipv6_length s octets : parse_ipv6 s = Some octets → length octets = 16%nat.
Proof.
  unfold parse_ipv6, parse_with. intros H. apply fmap_Some in H as (segs & H & ->).
  repeat (case_match; simplify_eq). apply read_ipv6_length in H0.
  rewrite (length_concat_const 2); [rewrite length_fmap; lia|]. by apply Forall_fmap, Forall_true.
Qed.

(** The standard text of the addresses of a column. *)
Definition address_rows (parse : bytes → option bytes) (fmt : bytes → bytes) (values : list (option bytes)) : list (option bytes) :=
  (λ v : option bytes, (λ s, fmt (default [] (parse s))) <$> v) <$> values.

Lemma address_rows_bytes parse fmt values :
  (∀ s, (length (fmt (default [] (parse s))) ≤ 39)%nat) → value_bytes_of (address_rows parse fmt values) ≤ 39 * len values.
Proof.
  intros Hf. induction values as [|[s|] values IH]; [done|..]; cbn [address_rows fmap list_fmap value_bytes_of foldr length];
    fold (address_rows parse fmt values); fold (value_bytes_of (address_rows parse fmt values)); [|simpl; lia].
  specialize (Hf s). simpl. lia.
Qed.

(** An address is stored by its octets and read back in its standard text. *)
Lemma encode_addresses_roundtrip (width : nat) parse fmt message values data :
  (width = 4 ∧ fmt = fmt_ipv4 ∨ width = 16 ∧ fmt = fmt_ipv6)%nat →
  (∀ s octets, parse s = Some octets → length octets = width) →
  encode_addresses width parse message values = Ok data → len data ≤ usize_max →
  value_bytes_of (address_rows parse fmt values) ≤ i32_max →
  decode_inet data (length values) = Ok (ABytes DUtf8 (address_rows parse fmt values)).
Proof.
  intros Hw Hlen He Hmax Hfit. apply encode_rows_ok in He as (outs & He & ->).
  assert (0 < width)%nat as Hpos by lia.
  apply (mapi_cells_written width zero_null (fmap (λ s, default [] (parse s)))) in He.
  - pose proof (cells_written_width _ _ _ _ He) as Hwidth.
    pose proof (cells_written_length _ _ _ _ He) as Hl. rewrite length_fmap in Hl.
    assert (len (concat outs) = len values * Z.of_nat width) as Hsize
      by (rewrite (length_concat_const width) by done; lia).
    destruct (cells_written_expect width _ _ _ Hpos He) as [_ Hc]; [rewrite length_fmap; lia|].
    rewrite Hsize in Hmax.
    assert (inet_loop fmt outs [] = Ok (address_rows parse fmt values)) as Hloop.
    { assert (inet_texts fmt outs = address_rows parse fmt values) as Ht.
      { unfold inet_texts, address_rows. apply list_eq. intros i. rewrite !list_lookup_fmap.
        pose proof (f_equal (.!! i) (cells_written_read _ _ _ _ He)) as Hi. simpl in Hi. rewrite !list_lookup_fmap in Hi.
        destruct (outs !! i), (values !! i) as [[]|]; simplify_eq/=; try done; by rewrite Hi. }
      rewrite inet_loop_eq by done. cbn [app]. rewrite Ht. by rewrite (proj2 (Z.ltb_ge _ _)) by exact Hfit. }
    unfold decode_inet, saturating_mul. rewrite Hsize.
    destruct Hw as [[-> ->]|[-> ->]]; change (Z.of_nat 4) with 4 in *; change (Z.of_nat 16) with 16 in *;
      [rewrite (proj2 (Z.eqb_eq _ _)) by lia | destruct (Z.eqb_spec (len values * 16) (Z.min (len values * 4) usize_max)) as [Hz|Hz];
        [| rewrite (proj2 (Z.eqb_eq _ _)) by lia]]; cbn [mbind res_bind].
    2:{ destruct values; [|simpl in Hz; lia]. simpl in Hl. by destruct outs. }
    all: rewrite Hc; exact (f_equal (fmap (ABytes DUtf8)) Hloop).
  - intros row [s|] out _ Ho; simpl in Ho.
    + destruct (parse s) as [octets|] eqn:Hp; simpl in Ho; [|done].
      destruct (forallb _ octets) eqn:Hz; simplify_eq. split; [by eapply Hlen|].
      simpl. rewrite Hp. unfold zero_null, all_byte. by rewrite Hz.
    + simplify_eq. rewrite length_replicate. split; [done|]. unfold zero_null, all_byte.
      assert (forallb (λ x, x =? 0) (replicate width 0) = true) as ->; [|done].
      clear. induction width; done.
Qed.

(** ** Columns *)

(** The value MonetDB holds for an Arrow value, as the decoder presents it:
    temporal units become the wire's, halves are widened, addresses take their
    standard text. *)
Definition wire_int `{Half} (dt : DataType) (v : Z) : Z :=
  match dt with
  | DFloat16 => f32_from_f16 v
  | DDate64 => Z.quot v 86400000
  | DTime32 Second | DTimestamp Second _ => v * 1000000
  | DTime32 Millisecond | DTimestamp Millisecond _ => v * 1000
  | DTime64 Nanosecond | DTimestamp Nanosecond _ => Z.quot v 1000
  | DDuration Second => v * 1000
  | DDuration Microsecond => Z.quot v 1000
  | DDuration Nanosecond => Z.quot v 1000000
  | _ => v
  end.

Definition wire_text (t : MonetType) (s : bytes) : bytes :=
  match t with
  | MInet4 => fmt_ipv4 (default [] (parse_ipv4 s))
  | MInet6 => fmt_ipv6 (default [] (parse_ipv6 s))
  | _ => s
  end.

Definition wire_value `{Half} (t : MonetType) (dt : DataType) (v : value) : value :=
  match v with
  | VBool b => VBool b
  | VInt z => VInt (wire_int dt z)
  | VBytes s => VBytes (wire_text t s)
  end.

(** The values a buffer of an Arrow type can hold. *)
Definition native_ok (dt : DataType) (v : Z) : Prop :=
  match dt with
  | DInt8 => signed_range 8 v = true
  | DInt16 => signed_range 16 v = true
  | DInt32 => signed_range 32 v = true
  | DInt64 => signed_range 64 v = true
  | DUInt8 => 0 ≤ v < 2 ^ 8
  | DUInt16 => 0 ≤ v < 2 ^ 16
  | DUInt32 | DFloat32 => 0 ≤ v < 2 ^ 32
  | DUInt64 | DFloat64 => 0 ≤ v < 2 ^ 64
  | _ => True
  end.

Definition array_ok (array : ArrayRef) : Prop :=
  match array with
  | APrimitive dt values _ => Forall (native_ok dt) values
  | ABytes (DFixedSizeBinary width) values => Forall (λ v, ∀ s, v = Some s → len s = width) values
  | ABytes dt values => is_string_type dt = true → Forall text_ok values
  | ADictionary _ _ (ABytes _ values) => Forall text_ok values
  | _ => True
  end.

Definition text_rows (array : ArrayRef) : list (option bytes) :=
  (λ row, match row with Some (VBytes s) => Some s | _ => None end) <$> array_rows array.

(** The decoder's size limits, for the types of variable width: of the bytes on the
    wire, of the text they stand for, and of the text of addresses. *)
Definition size_ok (t : MonetType) (array : ArrayRef) (data : bytes) : Prop :=
  match fixed_wire_width t with
  | Some _ => True
  | None => len data ≤ i32_max ∧ text_fits (text_rows array) (len data) ∧
            (is_inet t = true → inet_rows_fit (array_len array))
  end.

(** A HUGEINT of more than 38 digits has no Arrow value. *)
Definition hugeint_ok (t : MonetType) (array : ArrayRef) : Prop :=
  t = MHugeInt → Forall (λ row, ∀ z, row = Some (VInt z) → - 10 ^ 38 < z < 10 ^ 38) (array_rows array).

Lemma on_rows_compose {A B C} (f : B → C) (g : A → B) rows :
  on_rows f (on_rows g rows) = on_rows (λ v, f (g v)) rows.
Proof. unfold on_rows. rewrite <- list_fmap_compose. apply list_fmap_ext. by intros ? [] ?. Qed.

Section columns.
Context `{ChronoLaws, ArrowLaws, HalfLaws}.

(** A temporal column: its decoder on the written cells. *)
Lemma temporal_roundtrip (n : nat) (g : nat → bytes → res DecodeError (option Z)) dt (convert : Z → Z)
    (values : list Z) nulls (f : nat → option Z → res EncodeError bytes) data
    (decode : bytes → nat → res DecodeError ArrayRef) :
  (∀ data rows, decode data rows =
     (_ ← expect_fixed data (Z.of_nat rows) (Z.of_nat n);
      values ← mapi_res g 0 (chunks n data); Ok (option_column dt values))) →
  (∀ row, f row None = Ok (replicate n 255)) → (∀ row, g row (replicate n 255) = Ok None) →
  (∀ row v out, f row (Some v) = Ok out →
     length out = n ∧ ∀ row', g row' out = Ok (Some (convert v))) →
  (0 < n)%nat → encode_rows f (cells values nulls) = Ok data → len values * Z.of_nat n ≤ usize_max →
  ∃ a, decode data (length values) = Ok a ∧
    array_rows a = on_rows (λ v, VInt (convert v)) (cells values nulls).
Proof.
  intros Hdec Hnone Hnull Hsome Hn He Hmax. rewrite <- (length_cells values nulls) in *.
  destruct (optional_column_written n g convert f (cells values nulls) data) as [Hf Hm]; [try done..|].
  { intros row v out _ Ho. by eapply Hsome. }
  eexists. rewrite Hdec, Hf. cbn [mbind res_bind]. rewrite Hm. cbn [mbind res_bind].
  split; [done|]. rewrite option_column_rows. unfold on_rows.
  rewrite <- list_fmap_compose. apply list_fmap_ext. by intros ? [] ?.
Qed.

Lemma nanos_cell (n : nat) (g : nat → bytes → res DecodeError (option Z)) append message row v out :
  (∀ micros row out, append micros row = Ok out →
     length out = n ∧ ∀ row', g row' out = Ok (Some micros)) →
  (if negb (Z.rem v 1000 =? 0) then Err (EE_InvalidValue row message)
   else append (Z.quot v 1000) row) = Ok out →
  length out = n ∧ ∀ row', g row' out = Ok (Some (Z.quot v 1000)).
Proof. intros Ha Ho. case_match; [done|]. by eapply Ha. Qed.

Lemma date_column_roundtrip dt values nulls data :
  dt = DDate32 ∧ encode_date32 values nulls = Ok data ∨ dt = DDate64 ∧ encode_date64 values nulls = Ok data →
  len values * 4 ≤ usize_max →
  ∃ a, decode_date data (length values) = Ok a ∧
    array_rows a = on_rows (λ v, VInt (wire_int dt v)) (cells values nulls).
Proof.
  intros He Hmax. destruct He as [[-> He]|[-> He]];
    (refine (temporal_roundtrip 4 date_value DDate32 _ values nulls _ data decode_date _ _ _ _ _ He Hmax);
      [done|done|intros; apply wire_nulls| |lia]).
  - intros row v out Ho. by eapply append_date_ok.
  - intros row v out Ho. simpl in Ho. case_match; [done|]. by eapply append_date_ok.
Qed.

Lemma time_column_roundtrip dt array unit values nulls data :
  array = APrimitive dt values nulls →
  dt = DTime32 unit ∧ encode_time32 array unit = Ok data ∨ dt = DTime64 unit ∧ encode_time64 array unit = Ok data →
  len values * 8 ≤ usize_max →
  ∃ a, decode_time data (length values) = Ok a ∧
    array_rows a = on_rows (λ v, VInt (wire_int dt v)) (cells values nulls).
Proof.
  intros -> He Hmax.
  destruct He as [[-> He]|[-> He]]; destruct unit; simpl in He; try done;
    (refine (temporal_roundtrip 8 time_value (DTime64 Microsecond) _ values nulls _ data decode_time
               _ _ _ _ _ He Hmax); [done|done|intros; apply wire_nulls| |lia]);
    intros row v out Ho; simpl in Ho |- *.
  - by eapply append_time_ok.
  - by eapply append_time_ok.
  - rewrite Z.mul_1_r in Ho. by eapply append_time_ok.
  - eapply (nanos_cell 8 time_value append_time); [apply append_time_ok|exact Ho].
Qed.

Lemma timestamp_column_roundtrip utc array unit tz values nulls data :
  array = APrimitive (DTimestamp unit tz) values nulls → encode_timestamp array unit = Ok data →
  len values * 12 ≤ usize_max →
  ∃ a, decode_timestamp data (length values) utc = Ok a ∧
    array_rows a = on_rows (λ v, VInt (wire_int (DTimestamp unit tz) v)) (cells values nulls).
Proof.
  intros -> He Hmax. unfold encode_timestamp in He. cbn [downcast_primitive mbind res_bind] in He.
  assert (∀ factor row v out,
    (micros ← ok_or (i64_checked_mul v factor) (EE_InvalidValue row "timestamp overflows microseconds");
     append_timestamp micros row) = Ok out →
    length out = 12%nat ∧ ∀ row', timestamp_value row' out = Ok (Some (v * factor))) as Hcell.
  { intros factor row v out Ho. apply bind_ok in Ho as (m & Hm & Ho). apply ok_or_ok in Hm.
    unfold i64_checked_mul in Hm. case_match; simplify_eq. by eapply append_timestamp_ok. }
  destruct unit; (refine (temporal_roundtrip 12 timestamp_value
      (DTimestamp Microsecond (if utc then Some "UTC"%string else None)) _ values nulls _ data
      (λ d r, decode_timestamp d r utc) _ _ _ _ _ He Hmax); [done|done|intros; apply wire_nulls| |lia]);
    intros row v out Ho; simpl in Ho |- *.
  - by eapply Hcell.
  - by eapply Hcell.
  - rewrite <- (Z.mul_1_r v). by eapply Hcell.
  - eapply (nanos_cell 12 timestamp_value append_timestamp); [apply append_timestamp_ok|exact Ho].
Qed.

(** What it means that [data] decodes to the rows of [array]. *)
Definition decodes_to (t : MonetType) (array : ArrayRef) (data : bytes) : Prop :=
  ∃ a, decode_column t data (array_len array) = Ok a ∧
    array_rows a = on_rows (wire_value t (array_data_type array)) (array_rows array).

(** Enough room for the rows of a fixed-width type. *)
Definition rows_fit (t : MonetType) (rows : nat) : Prop :=
  ∀ w, fixed_wire_width t = Some w → Z.of_nat rows * w ≤ usize_max.

Lemma decimal_column_roundtrip field t dt precision scale values nulls data :
  monet_type_for_field field = Ok t → field_data_type field = DDecimal128 precision scale →
  data_type_for_monet_type t = Ok dt →
  encode_decimal precision (negb (bool_decide (t = MHugeInt))) values nulls = Ok data →
  hugeint_ok t (APrimitive (DDecimal128 precision scale) values nulls) → rows_fit t (length values) →
  decodes_to t (APrimitive (DDecimal128 precision scale) values nulls) data.
Proof.
  intros Ht Hf Hdt He Hh Hfit. unfold decodes_to. cbn [array_len array_rows array_data_type].
  rewrite on_rows_compose. cbn [wire_value wire_int].
  unfold monet_type_for_field in Ht. rewrite Hf in Ht.
  destruct ((precision =? 38) && (scale =? 0) && _) eqn:Hhuge.
  - simplify_eq. bool_prop. subst. rewrite bool_decide_eq_true_2 in He by done.
    apply (encode_decimal_roundtrip 38 0 true values nulls data 16); try done; [|by apply (Hfit 16)].
    intros _. specialize (Hh eq_refl). cbn [array_rows] in Hh. unfold on_rows in Hh.
    rewrite Forall_fmap in Hh. eapply Forall_impl; [exact Hh|]. intros cell Hc v ->. by apply Hc.
  - destruct (Z.leb_spec 0 scale) as [Hs|Hs]; [|done]. simplify_eq.
    rewrite bool_decide_eq_false_2 in He by done.
    apply decimal_data_type_ok in Hdt as (-> & Hp & Hsp).
    destruct (decimal_width_cases precision Hp) as (n & Hn & _).
    cbn [decode_column]. unfold decimal_scale, signed_range.
    rewrite (proj2 (Z.leb_le _ _)), (proj2 (Z.ltb_lt _ _)) by lia. cbn [andb mbind res_bind].
    apply (encode_decimal_roundtrip precision scale false values nulls data n); try done. by apply Hfit.
Qed.

Lemma duration_column_roundtrip unit (whole : bool) values nulls data :
  encode_duration (APrimitive (DDuration unit) values nulls) unit whole = Ok data →
  len values * 8 ≤ usize_max →
  ∃ a, decode_primitive (DDuration Millisecond) 8 i_from_le (λ v, v =? i64_min) data (length values) = Ok a ∧
    array_rows a = on_rows (λ v, VInt (wire_int (DDuration unit) v)) (cells values nulls).
Proof.
  intros He Hmax. unfold encode_duration in He. cbn [downcast_primitive mbind res_bind] in He.
  destruct unit; destruct (encode_duration_roundtrip _ _ _ _ _ _ He Hmax) as (a & Ha & Hrows);
    exists a; (split; [done|]); rewrite Hrows; unfold on_rows; apply list_fmap_ext; intros ? [v|] _; simpl;
    rewrite ?Z.quot_1_r, ?Z.mul_1_r; done.
Qed.

Lemma primitive_column_roundtrip field t dt dt' values nulls data :
  monet_type_for_field field = Ok t → field_data_type field = dt →
  data_type_for_monet_type t = Ok dt' → Forall (native_ok dt) values →
  encode_by_type (APrimitive dt values nulls) t = Ok data →
  hugeint_ok t (APrimitive dt values nulls) → rows_fit t (length values) →
  decodes_to t (APrimitive dt values nulls) data.
Proof.
  intros Ht Hf Hdt Hr He Hh Hfit.
  destruct dt; try done; try (by eapply decimal_column_roundtrip);
    unfold decodes_to; cbn [array_len array_rows array_data_type]; rewrite on_rows_compose; cbn [wire_value];
    unfold monet_type_for_field in Ht; rewrite Hf in Ht; repeat case_match; simplify_eq; cbn [decode_column];
    cbn [encode_by_type array_data_type with_primitive downcast_primitive mbind res_bind] in He.
  all: try (by eapply encode_primitive_roundtrip; [lia|reflexivity|exact Hr|exact He|by apply Hfit]).
  all: try (by eapply encode_unsigned_roundtrip; [lia|eapply Forall_impl; [exact Hr|]; simpl; lia|exact He|by apply Hfit]).
  all: try (by apply date_column_roundtrip; [tauto|by apply (Hfit 4)]).
  all: try (by eapply time_column_roundtrip; [reflexivity|tauto|by apply (Hfit 8)]).
  all: try (by eapply timestamp_column_roundtrip; [reflexivity|exact He|by apply (Hfit 12)]).
  all: try (by eapply duration_column_roundtrip; [exact He|by apply (Hfit 8)]).
  - apply encode_oid_roundtrip; [|exact He|by apply (Hfit 8)].
    eapply Forall_impl; [exact Hr|]. simpl. lia.
  - by apply encode_u64_roundtrip; [exact Hr|exact He|apply (Hfit 16)].
  - by apply encode_f16_roundtrip; [exact He|apply (Hfit 4)].
  - by apply (encode_float_roundtrip DFloat32 4 f32_NAN f32_is_finite f32_is_nan);
      [lia|reflexivity|done|apply f32_finite_not_nan|exact Hr|exact He|apply (Hfit 4)].
  - by apply (encode_float_roundtrip DFloat64 8 f64_NAN f64_is_finite f64_is_nan);
      [lia|reflexivity|done|apply f64_finite_not_nan|exact Hr|exact He|apply (Hfit 8)].
  - by destruct (_ && _) in He.
  - by destruct (_ && _) in He.
  - unfold encode_dictionary in He. by case_match.
Qed.

(** ** Strings, blobs, dictionaries *)


(** A column whose type is read by the string decoder. *)
Definition is_text (t : MonetType) : bool :=
  match t with MVarchar _ | MUrl | MJson => true | _ => false end.

Lemma strings_column t values data :
  is_text t = true → Forall text_ok values → encode_strings values = Ok data → len data ≤ i32_max →
  text_fits values (len data) →
  decode_column t data (length values) = Ok (ABytes DUtf8 values).
Proof.
  intros Ht Hok He Hlen Hfit. pose proof (decode_encoded_blocks [values] [data]) as Hd.
  cbn [concat] in Hd. rewrite !app_nil_r in Hd. specialize (Hd ltac:(by repeat constructor) Hok Hlen Hfit).
  destruct t; try done; cbn [decode_column]; by rewrite Hd.
Qed.

Lemma text_wire t dt rows :
  is_text t = true → on_rows (wire_value t dt) (on_rows VBytes rows) = on_rows VBytes rows.
Proof. intros Ht. rewrite on_rows_compose. unfold wire_value, wire_text. by destruct t. Qed.

Lemma text_rows_on_bytes array values : array_rows array = on_rows VBytes values → text_rows array = values.
Proof.
  intros Hr. unfold text_rows. rewrite Hr. unfold on_rows. rewrite <- list_fmap_compose.
  rewrite <- (list_fmap_id values) at 2. apply list_fmap_ext. by intros ? [] ?.
Qed.

(** A NULL column is one null string per row. *)
Lemma null_column_roundtrip field t rows data :
  monet_type_for_field field = Ok t → field_data_type field = DNull →
  encode_by_type (ANull rows) t = Ok data → size_ok t (ANull rows) data → decodes_to t (ANull rows) data.
Proof.
  intros Ht Hf He Hsize. unfold monet_type_for_field in Ht. rewrite Hf in Ht. simplify_eq.
  cbn [encode_by_type array_data_type downcast_null mbind res_bind] in He.
  unfold encode_null in He. apply bind_ok in He as (n & Hn & He). apply ok_or_ok in Hn.
  assert (n = Z.of_nat rows * 2) as -> by (unfold checked_mul in Hn; case_match; congruence).
  replace (Z.to_nat (Z.of_nat rows * 2) / 2)%nat with rows in He
    by (rewrite Z2Nat.inj_mul, Nat2Z.id by lia; symmetry; apply Nat.div_mul; lia).
  apply Ok_inj in He as <-.
  destruct Hsize as [Hlen _].
  pose proof (decode_null_strings rows) as Hd. specialize (Hd Hlen).
  exists (ABytes DUtf8 (replicate rows None)). cbn [decode_column array_len]. rewrite Hd.
  split; [done|]. cbn [array_rows]. unfold on_rows. by rewrite !fmap_replicate.
Qed.

Lemma boolean_column_roundtrip field t values nulls data :
  monet_type_for_field field = Ok t → field_data_type field = DBoolean →
  encode_by_type (ABoolean values nulls) t = Ok data → rows_fit t (length values) →
  decodes_to t (ABoolean values nulls) data.
Proof.
  intros Ht Hf He Hfit. unfold monet_type_for_field in Ht. rewrite Hf in Ht. simplify_eq.
  cbn [encode_by_type array_data_type downcast_boolean mbind res_bind] in He. apply Ok_inj in He as <-.
  destruct (encode_bool_roundtrip values nulls) as (a & Ha & Hr).
  { specialize (Hfit 1 eq_refl). lia. }
  exists a. split; [done|]. rewrite Hr. cbn [array_rows]. by rewrite on_rows_compose.
Qed.

(** Blobs of every Arrow type, and UUIDs. *)
Lemma binary_column_roundtrip field t dt values data :
  monet_type_for_field field = Ok t → field_data_type field = dt → is_string_type dt = false →
  array_ok (ABytes dt values) → encode_by_type (ABytes dt values) t = Ok data →
  size_ok t (ABytes dt values) data → rows_fit t (length values) →
  decodes_to t (ABytes dt values) data.
Proof.
  intros Ht Hf Hs Hok He Hsize Hfit. unfold decodes_to. cbn [array_len array_rows array_data_type].
  unfold monet_type_for_field in Ht. rewrite Hf in Ht.
  assert (∀ t', t = t' → t' = MBlob ∨ t' = MUuid →
            on_rows (wire_value t dt) (on_rows VBytes values) = on_rows VBytes values) as Hw.
  { intros t' -> Hcase. rewrite on_rows_compose. by destruct Hcase as [-> | ->]. }
  destruct dt; try done; repeat case_match; simplify_eq; try done;
    cbn [encode_by_type array_data_type downcast_bytes mbind res_bind] in He; try discriminate He.
  all: try (exists (ABytes DBinary values); rewrite (Hw MBlob) by auto; apply Ok_inj in He as <-; destruct Hsize as [Hlen _];
            cbn [decode_column]; rewrite encode_blobs_roundtrip by done; done).
  - bool_prop. subst. rewrite (Hw MUuid) by auto. cbn in He.
    exists (ABytes (DFixedSizeBinary 16) values). split; [|done]. cbn [decode_column].
    apply encode_uuid_roundtrip; [|exact He|by apply (Hfit 16)].
    eapply Forall_impl; [exact Hok|]. simpl. intros v Hv s ->. specialize (Hv s eq_refl). lia.
  - destruct (_ && bool_decide _) eqn:Hu in He; [bool_prop; done|].
    exists (ABytes DBinary values); rewrite (Hw MBlob) by auto; apply Ok_inj in He as <-; destruct Hsize as [Hlen _];
      cbn [decode_column]; rewrite encode_blobs_roundtrip by done; done.
  - by destruct unit.
  - by destruct unit.
  - by destruct unit.
  - unfold encode_dictionary in He. by case_match.
Qed.

Lemma dictionary_strings_rows key keys vt values strings :
  dictionary_strings (ADictionary key keys (ABytes vt values)) = Ok strings →
  strings = dictionary_row values <$> keys.
Proof.
  unfold dictionary_strings. case_match; [|done]. intros Hm.
  apply mapi_res_ok in Hm. revert Hm. generalize 0%nat. revert strings.
  induction keys as [|k keys IH]; intros strings i Hm; simpl in Hm; inversion Hm as [|? s ? ss Hk Hks]; subst; [done|].
  simpl. f_equal; [|by eapply IH]. simpl in Hk. unfold dictionary_row.
  destruct k as [k|]; simpl in *; [|by simplify_eq]. by destruct (values !! k); simplify_eq/=.
Qed.

Lemma dictionary_text_ok values keys :
  Forall text_ok values → Forall text_ok (dictionary_row values <$> keys).
Proof.
  intros Hok. apply Forall_fmap, Forall_true. intros [k|]; [|done]. unfold compose, dictionary_row. simpl.
  destruct (values !! k) as [v|] eqn:Hv; [|done]. simpl. by eapply Forall_lookup_1 in Hv.
Qed.

Lemma dictionary_column_roundtrip field t key keys vt values data :
  monet_type_for_field field = Ok t →
  field_data_type field = array_data_type (ADictionary key keys (ABytes vt values)) →
  Forall text_ok values → encode_by_type (ADictionary key keys (ABytes vt values)) t = Ok data →
  size_ok t (ADictionary key keys (ABytes vt values)) data →
  decodes_to t (ADictionary key keys (ABytes vt values)) data.
Proof.
  intros Ht Hf Hok He Hsize. cbn [array_data_type] in Hf.
  unfold monet_type_for_field in Ht. rewrite Hf in Ht. case_match; simplify_eq.
  cbn [encode_by_type array_data_type] in He. unfold encode_dictionary in He. case_match; [|done].
  apply bind_ok in He as (strings & Hstr & He).
  pose proof (dictionary_strings_rows _ _ _ _ _ Hstr) as Hrows.
  assert (array_rows (ADictionary key keys (ABytes vt values)) = on_rows VBytes strings) as Hr.
  { cbn [array_rows]. rewrite Hrows. unfold on_rows. by rewrite <- list_fmap_compose. }
  destruct Hsize as (Hlen & Hfit & _). rewrite (text_rows_on_bytes _ _ Hr) in Hfit.
  exists (ABytes DUtf8 strings).
  replace (array_len _) with (length strings) by (rewrite Hrows, length_fmap; done).
  rewrite (strings_column (MVarchar 0) strings) by (try done; rewrite Hrows; by apply dictionary_text_ok).
  split; [done|]. rewrite Hr, text_wire by done. done.
Qed.

Lemma on_rows_text t dt (f : bytes → bytes) rows :
  (∀ s, wire_text t s = f s) →
  on_rows VBytes ((λ v : option bytes, f <$> v) <$> rows) = on_rows (wire_value t dt) (on_rows VBytes rows).
Proof.
  intros Hf. rewrite on_rows_compose. unfold on_rows. rewrite <- list_fmap_compose.
  apply list_fmap_ext. intros ? [s|] _; [|done]. simpl. by rewrite Hf.
Qed.

Lemma text_column_roundtrip field t dt dt' values data :
  monet_type_for_field field = Ok t → field_data_type field = dt → is_string_type dt = true →
  data_type_for_monet_type t = Ok dt' →
  Forall text_ok values →
  match encode_inet (ABytes dt values) t with
  | Some result => result
  | None => encode_by_type (ABytes dt values) t
  end = Ok data →
  size_ok t (ABytes dt values) data → decodes_to t (ABytes dt values) data.
Proof.
  intros Ht Hf Hs Hdt Hok He Hsize. unfold encode_inet in He. cbn [array_data_type] in He. rewrite Hs in He.
  assert (is_text t = true ∨ t = MInet4 ∨ t = MInet6 ∨ t = MInet) as Hcase.
  { unfold monet_type_for_field in Ht. rewrite Hf in Ht. destruct dt; try done; repeat case_match; simplify_eq; auto. }
  unfold decodes_to. cbn [array_len array_data_type].
  destruct Hcase as [Htext|[-> |[-> | ->]]]; [|..|done].
  - assert (encode_strings values = Ok data) as Hstr.
    { destruct t; try done; destruct dt; try done;
        by cbn [encode_by_type array_data_type downcast_bytes mbind res_bind] in He. }
    exists (ABytes DUtf8 values). cbn [array_rows]. rewrite text_wire by done. split; [|done].
    assert (fixed_wire_width t = None) as Hw by (by destruct t).
    unfold size_ok in Hsize. rewrite Hw in Hsize. destruct Hsize as (Hlen & Hfit & _).
    rewrite (text_rows_on_bytes _ values) in Hfit by done. by apply strings_column.
  - destruct Hsize as (Hlen & _ & Hrows). specialize (Hrows eq_refl). cbn [decode_column]. cbn [downcast_bytes mbind res_bind] in He.
    rewrite (encode_addresses_roundtrip 4 parse_ipv4 fmt_ipv4 _ _ _ ltac:(by left) parse_ipv4_length He); [|range_lia|].
    2: { etransitivity; [apply address_rows_bytes|exact Hrows]. intros s. pose proof (length_fmt_ipv4 (default [] (parse_ipv4 s))). lia. }
    eexists. split; [reflexivity|]. cbn [array_rows]. by apply on_rows_text.
  - destruct Hsize as (Hlen & _ & Hrows). specialize (Hrows eq_refl). cbn [decode_column]. cbn [downcast_bytes mbind res_bind] in He.
    rewrite (encode_addresses_roundtrip 16 parse_ipv6 fmt_ipv6 _ _ _ ltac:(by right) parse_ipv6_length He); [|range_lia|].
    2: { etransitivity; [apply address_rows_bytes|exact Hrows]. intros s. destruct (parse_ipv6 s) as [octets|] eqn:Hp; [|by vm_compute; lia].
         by apply length_fmt_ipv6, (parse_ipv6_length s). }
    eexists. split; [reflexivity|]. cbn [array_rows]. by apply on_rows_text.
Qed.

(** The steps of [encode_column] before the type is dispatched. *)
Lemma encode_column_inv field array t data :
  monet_type_for_field field = Ok t → field_data_type field = array_data_type array →
  encode_column field array = Ok data →
  rows_fit t (array_len array) ∧
  match encode_inet array t with Some result => result | None => encode_by_type array t end = Ok data.
Proof.
  intros Ht Hf He. unfold encode_column in He. rewrite Ht in He. cbn [mbind res_bind] in He.
  apply bind_ok in He as (width & Hw & He). apply bind_ok in He as (u & Hu & He). split; [|done].
  intros w Htw. unfold column_fixed_wire_width, fixed_encoded_width in Hw. rewrite Hf, Ht in Hw.
  unfold monet_type_for_field in Ht. rewrite Hf in Ht.
  case_bool_decide as Hn; [rewrite Hn in Ht; by simplify_eq/=|]. simpl in Hw. rewrite Htw in Hw. simplify_eq.
  unfold checked_encoded_size, checked_mul in Hu.
  destruct (Z.leb_spec (Z.of_nat (array_len array) * w) usize_max); [done|]. discriminate Hu.
Qed.

(** C1. What the driver writes, it reads, within the decoder's limits.  For every
    Arrow column the encoder
    accepts, of any supported type, with any nulls and any values under the
    nulls, the bytes it writes decode (as the MonetDB type the field stands
    for) to the same rows, after the documented conversions: temporal units,
    widened halves, standard text of addresses.  The field describes the array
    and the array is well formed.  The limits, which the encoder does not have
    and which are hypotheses ([size_ok], [hugeint_ok]): the bytes of a column of
    strings, blobs or addresses are at most 2^31 - 1; its text is at most 2^31 - 1
    bytes and at most the larger of 16 times the bytes on the wire and one
    mebibyte; a column of addresses has at most 55,063,683 rows; and a HUGEINT
    is smaller in magnitude than 10^38.  (A column of 100,000 equal texts of 100
    bytes is accepted by the encoder, which shortens them to references, and
    refused by the decoder.) *)
Theorem column_roundtrip field array t dt data :
  monet_type_for_field field = Ok t → data_type_for_monet_type t = Ok dt →
  field_data_type field = array_data_type array → array_ok array →
  encode_column field array = Ok data →
  size_ok t array data → hugeint_ok t array →
  decodes_to t array data.
Proof.
  intros Ht Hdt Hf Hok He Hsize Hhuge.
  destruct (encode_column_inv _ _ _ _ Ht Hf He) as [Hfit Hb]. clear He.
  destruct array as [rows|values nulls|adt values nulls|adt values|key keys values].
  - by eapply null_column_roundtrip.
  - by eapply boolean_column_roundtrip.
  - assert (encode_inet (APrimitive adt values nulls) t = None ∨ is_string_type adt = true) as Hi.
    { unfold encode_inet. simpl. destruct (is_string_type adt); auto. }
    destruct Hi as [Hi|Hi]; [rewrite Hi in Hb; by eapply primitive_column_roundtrip|].
    unfold encode_inet in Hb. simpl in Hb. rewrite Hi in Hb. destruct adt, t; done.
  - destruct (is_string_type adt) eqn:Hs.
    + eapply text_column_roundtrip; try done. by destruct adt; try done; apply Hok.
    + eapply binary_column_roundtrip; try done. unfold encode_inet in Hb. simpl in Hb. by rewrite Hs in Hb.
  - assert (∃ vt strings, values = ABytes vt strings) as (vt & strings & ->).
    { cbn in Hb. unfold encode_dictionary in Hb. case_match; [|done].
      destruct values; simpl in Hb; try done. eauto. }
    by eapply dictionary_column_roundtrip.
Qed.
End columns.

(** A column of unsigned 64-bit values with a null, and one of addresses. *)
Lemma column_roundtrip_witness :
  decodes_to MHugeInt (APrimitive DUInt64 [7; 18446744073709551615] (Some [true; false]))
    (to_le_bytes 16 7 ++ to_le_bytes 16 i128_min).
Proof.
  apply (column_roundtrip (mkField (str "v") DUInt64 true ∅) _ MHugeInt (DDecimal128 38 0)).
  - reflexivity.
  - reflexivity.
  - reflexivity.
  - repeat constructor; lia.
  - vm_compute. reflexivity.
  - exact I.
  - intros _. apply Forall_cons; split; [|apply Forall_cons; split; [|apply Forall_nil; exact I]].
    + intros z Hz. injection Hz as <-. vm_compute. split; reflexivity.
    + intros z Hz. discriminate Hz.
Defined.
