(* ===== verification/Chunked.v ===== *)
(** Encoding a column in bounded pieces ([encode_column_chunks] of
    [crates/monetdb-arrow/src/encode.rs]): borrowing an array's buffer against
    encoding it, and the pieces against the column. *)

From stdpp Require Import base list numbers strings gmap.
From S2P Require Import Prelude RustStd Types Calendar Inet Exportbin ArrowData Decode DecodeProofs Encode StringCodec Codec.
Local Open Scope Z_scope.

(** ** Borrowing *)

Lemma is_null_free_spec nulls n : is_null_free nulls n = true ↔ ∀ i, (i < n)%nat → is_null nulls i = false.
Proof.
  unfold is_null_free. rewrite forallb_forall. split.
  - intros H i Hi. specialize (H i). rewrite negb_true_iff in H. apply H, in_seq. lia.
  - intros H i [_ Hi]%in_seq. rewrite negb_true_iff. apply H. lia.
Qed.

(** The check of the rows, by recursion over the values. *)
Fixpoint check_values (bad : Z → bool) (message : string) (row : nat) (rows : list (Z * bool))
    : res EncodeError unit :=
  match rows with
  | [] => Ok tt
  | (v, missing) :: rows =>
      if negb missing && bad v then Err (EE_InvalidValue row message)
      else check_values bad message (S row) rows
  end.

Lemma check_rows_values bad message values nulls :
  check_rows bad message values nulls = check_values bad message 0 (with_missing values nulls).
Proof.
  unfold check_rows, cells, with_missing.
  assert (∀ row, (_ ← mapi_res (λ row cell,
                     match cell with
                     | Some value => ensure (negb (bad value)) (EE_InvalidValue row message)
                     | None => Ok tt
                     end) row (rows_of row values nulls); Ok tt) =
                 check_values bad message row (imap (λ i v, (v, is_null nulls (row + i))) values)) as Hgen.
  { induction values as [|v values IH]; intros row; simpl; [done|]. rewrite Nat.add_0_r.
    rewrite (imap_ext _ (λ i v, (v, is_null nulls (S row + i))) values)
      by (intros i x _; simpl; by rewrite Nat.add_succ_r).
    rewrite <- IH. destruct (is_null nulls row); simpl;
      [|destruct (bad v); simpl; [done|]]; by destruct (mapi_res _ _ _). }
  apply (Hgen 0%nat).
Qed.

(** The sentinel scan finds what the check finds, up to a sentinel under a null. *)
Lemma sentinel_scan_check null row rows :
  match sentinel_scan null row rows with
  | Ok true => check_values (λ v, v =? null) sentinel_message row rows = Ok tt
  | Ok false => True
  | Err e => check_values (λ v, v =? null) sentinel_message row rows = Err e
  | Panic => False
  end.
Proof.
  revert row; induction rows as [|[v missing] rows IH]; intros row; simpl; [done|].
  destruct (v =? null) eqn:Hv; [by destruct missing|]. rewrite andb_false_r. apply IH.
Qed.

Lemma borrow_signed_eq width null values nulls :
  match borrow_signed width null values nulls with
  | Ok (Some data) => encode_primitive width null values nulls = Ok data
  | Ok None => True
  | Err e => encode_primitive width null values nulls = Err e
  | Panic => False
  end.
Proof.
  unfold borrow_signed, encode_primitive. rewrite check_rows_values.
  pose proof (sentinel_scan_check null 0 (with_missing values nulls)) as Hs.
  destruct (sentinel_scan _ _ _) as [[]|e|]; simpl; [|done| |done].
  - destruct (is_null_free nulls (length values)) eqn:Hf; [|done]. rewrite Hs. simpl.
    unfold copy_native_with_nulls. by rewrite Hf.
  - by rewrite Hs.
Qed.

Lemma borrow_float_eq width finite nan values nulls :
  match borrow_float width finite values nulls with
  | Ok (Some data) =>
      (_ ← check_rows (λ v, negb (finite v)) finite_message values nulls;
       Ok (copy_native_with_nulls width values nulls nan)) = Ok data
  | Ok None => True
  | Err e =>
      (_ ← check_rows (λ v, negb (finite v)) finite_message values nulls;
       Ok (copy_native_with_nulls width values nulls nan)) = Err e
  | Panic => False
  end.
Proof.
  unfold borrow_float. rewrite check_rows_values.
  assert (∀ row rows, check_values (λ v, negb (finite v)) finite_message row rows ≠ Panic) as Hp.
  { intros row rows. revert row. induction rows as [|[v m] rows IH]; intros row; simpl; [done|].
    case_match; [done|apply IH]. }
  specialize (Hp 0%nat (with_missing values nulls)).
  destruct (check_values _ _ _ _); simpl; [|done..].
  destruct (is_null_free nulls (length values)) eqn:Hf; [|done].
  unfold copy_native_with_nulls. by rewrite Hf.
Qed.

Section pieces.
Context `{Chrono, Half}.

(** The rows of the array fit in memory at the field's fixed width. *)
Definition fits_memory (field : Field) (array : ArrayRef) : Prop :=
  ∀ w, column_fixed_wire_width field (array_data_type array) = Ok (Some w) →
    Z.of_nat (array_len array) * w ≤ usize_max.

Lemma encode_column_numeric field array t w :
  field_data_type field = array_data_type array → monet_type_for_field field = Ok t →
  array_data_type array ≠ DNull → is_string_type (array_data_type array) = false →
  fixed_wire_width t = Some w → fits_memory field array →
  encode_column field array = encode_by_type array t.
Proof.
  intros Hf Ht Hn Hs Hw Hfit. unfold encode_column. rewrite Ht. cbn [mbind res_bind].
  assert (column_fixed_wire_width field (array_data_type array) = Ok (Some w)) as Hc.
  { unfold column_fixed_wire_width, fixed_encoded_width.
    rewrite Hf, bool_decide_eq_false_2, Ht by done. simpl. by rewrite Hw. }
  rewrite Hc. cbn [mbind res_bind]. unfold checked_encoded_size, checked_mul.
  rewrite (proj2 (Z.leb_le _ _)) by (by apply Hfit). cbn [ok_or mbind res_bind].
  unfold encode_inet. by rewrite Hs.
Qed.

Lemma piece_bytes_borrowed field array t w width null :
  field_data_type field = array_data_type array → monet_type_for_field field = Ok t →
  array_data_type array ≠ DNull → is_string_type (array_data_type array) = false →
  fixed_wire_width t = Some w → fits_memory field array →
  borrowed_wire_bytes array =
    ('(values, nulls) ← downcast_primitive array (array_data_type array); borrow_signed width null values nulls) →
  encode_by_type array t =
    with_primitive array (array_data_type array) (encode_primitive width null) →
  piece_bytes field array = encode_column field array.
Proof.
  intros Hf Ht Hn Hs Hw Hfit Hb He. unfold piece_bytes.
  rewrite (encode_column_numeric _ _ t w) by done. rewrite Hb, He. unfold with_primitive.
  destruct (downcast_primitive array _) as [[values nulls]|e|]; simpl; [|done..].
  pose proof (borrow_signed_eq width null values nulls) as Heq.
  by destruct (borrow_signed _ _ _ _) as [[data|]|e|]; simpl; rewrite ?Heq.
Qed.

Lemma piece_bytes_borrowed_float field array t w width finite nan :
  field_data_type field = array_data_type array → monet_type_for_field field = Ok t →
  array_data_type array ≠ DNull → is_string_type (array_data_type array) = false →
  fixed_wire_width t = Some w → fits_memory field array →
  borrowed_wire_bytes array =
    ('(values, nulls) ← downcast_primitive array (array_data_type array); borrow_float width finite values nulls) →
  encode_by_type array t =
    with_primitive array (array_data_type array) (λ values nulls,
      _ ← check_rows (λ v, negb (finite v)) finite_message values nulls;
      Ok (copy_native_with_nulls width values nulls nan)) →
  piece_bytes field array = encode_column field array.
Proof.
  intros Hf Ht Hn Hs Hw Hfit Hb He. unfold piece_bytes.
  rewrite (encode_column_numeric _ _ t w) by done. rewrite Hb, He. unfold with_primitive.
  destruct (downcast_primitive array _) as [[values nulls]|e|]; simpl; [|done..].
  pose proof (borrow_float_eq width finite nan values nulls) as Heq.
  by destruct (borrow_float _ _ _ _) as [[data|]|e|]; simpl; rewrite ?Heq.
Qed.

(** Sending an array's own buffer is the same as encoding it, in its errors
    too: the row that collides with the null sentinel or is not finite is the
    row the encoder reports. *)
Lemma piece_bytes_eq field array :
  field_data_type field = array_data_type array → fits_memory field array →
  piece_bytes field array = encode_column field array.
Proof.
  intros Hf Hfit. destruct (array_data_type array) eqn:Hdt;
    try (unfold piece_bytes, borrowed_wire_bytes; rewrite Hdt; reflexivity).
  - eapply (piece_bytes_borrowed field array MTinyInt 1); rewrite ?Hdt; try done;
      [by unfold monet_type_for_field; rewrite Hf|by unfold borrowed_wire_bytes; rewrite Hdt
      |by unfold encode_by_type; rewrite Hdt].
  - eapply (piece_bytes_borrowed field array MSmallInt 2); rewrite ?Hdt; try done;
      [by unfold monet_type_for_field; rewrite Hf|by unfold borrowed_wire_bytes; rewrite Hdt
      |by unfold encode_by_type; rewrite Hdt].
  - eapply (piece_bytes_borrowed field array
             (if has_extension field "monetdb.interval_month" then MMonthInterval else MInt) 4); rewrite ?Hdt; try done;
      [unfold monet_type_for_field; rewrite Hf; by destruct (has_extension _ _)|by destruct (has_extension _ _)
      |by unfold borrowed_wire_bytes; rewrite Hdt|by unfold encode_by_type; rewrite Hdt].
  - eapply (piece_bytes_borrowed field array MBigInt 8); rewrite ?Hdt; try done;
      [by unfold monet_type_for_field; rewrite Hf|by unfold borrowed_wire_bytes; rewrite Hdt
      |by unfold encode_by_type; rewrite Hdt].
  - eapply (piece_bytes_borrowed_float field array MReal 4); rewrite ?Hdt; try done;
      [by unfold monet_type_for_field; rewrite Hf|by unfold borrowed_wire_bytes; rewrite Hdt
      |by unfold encode_by_type; rewrite Hdt].
  - eapply (piece_bytes_borrowed_float field array MDouble 8); rewrite ?Hdt; try done;
      [by unfold monet_type_for_field; rewrite Hf|by unfold borrowed_wire_bytes; rewrite Hdt
      |by unfold encode_by_type; rewrite Hdt].
Qed.

(** ** Slices *)

Lemma cells_slice {A} (values : list A) nulls start n :
  cells (take n (drop start values)) (slice_nulls nulls start n) = take n (drop start (cells values nulls)).
Proof.
  apply list_eq. intros i. rewrite lookup_cells.
  destruct (decide (i < n)%nat) as [Hi|Hi].
  - rewrite !lookup_take_lt, !lookup_drop by done. rewrite lookup_cells.
    assert (is_null (slice_nulls nulls start n) i = is_null nulls (start + i)) as ->; [|done].
    destruct nulls as [v|]; [|done]. simpl. by rewrite lookup_take_lt, lookup_drop by done.
  - by rewrite !lookup_take_ge by lia.
Qed.

Lemma array_rows_slice array start n :
  array_rows (array_slice array start n) = take n (drop start (array_rows array)).
Proof.
  destruct array as [rows|values nulls|dt values nulls|dt values|key keys values]; simpl; unfold on_rows.
  - by rewrite drop_replicate, take_replicate.
  - by rewrite cells_slice, fmap_take, fmap_drop.
  - by rewrite cells_slice, fmap_take, fmap_drop.
  - by rewrite fmap_take, fmap_drop.
  - destruct values; rewrite ?fmap_take, ?fmap_drop; try done;
      rewrite length_take, length_drop, drop_replicate, take_replicate; f_equal; lia.
Qed.

Lemma array_len_slice array start n :
  array_len (array_slice array start n) = Nat.min n (array_len array - start).
Proof. by destruct array; simpl; rewrite ?length_take, ?length_drop. Qed.

Lemma array_slice_type array start n : array_data_type (array_slice array start n) = array_data_type array.
Proof. by destruct array. Qed.

Lemma length_array_rows array : length (array_rows array) = array_len array.
Proof.
  destruct array as [rows|values nulls|dt values nulls|dt values|key keys values]; simpl; unfold on_rows;
    rewrite ?length_replicate, ?length_fmap, ?length_cells; try done.
  destruct values; by rewrite ?length_replicate, ?length_fmap.
Qed.

Lemma fits_memory_slice field array start n :
  fits_memory field array → fits_memory field (array_slice array start n).
Proof.
  intros Hfit w Hw. rewrite array_slice_type in Hw. specialize (Hfit w Hw). rewrite array_len_slice.
  assert (0 ≤ w) as Hw0.
  { unfold column_fixed_wire_width, fixed_encoded_width in Hw.
    repeat (case_bool_decide; simplify_eq; [lia|]). res_inv. unfold fixed_wire_width, decimal_width in *.
    repeat case_match; simplify_eq; lia. }
  nia.
Qed.

(** ** All the pieces *)

Section sink.
Context {Sink E : Type} (emit : Sink → bytes → res E Sink).

(** Emitting pieces one after the other. *)
Fixpoint emit_all (sink : Sink) (pieces : list bytes) : res E Sink :=
  match pieces with
  | [] => Ok sink
  | piece :: pieces => sink ← emit sink piece; emit_all sink pieces
  end.

Lemma emit_all_app sink p1 p2 s1 :
  emit_all sink p1 = Ok s1 → emit_all sink (p1 ++ p2) = emit_all s1 p2.
Proof.
  revert sink; induction p1 as [|p p1 IH]; intros sink Hp; simpl in *; [by simplify_eq|].
  apply bind_ok in Hp as (s & Hs & Hp). rewrite Hs. simpl. by apply IH.
Qed.

(** Between two states of the sink, the pieces of consecutive slices holding
    the rows were emitted and counted. *)
Definition written (field : Field) (rows : list (option value)) (total : Z) (sink : Sink) (total' : Z)
    (sink' : Sink) : Prop :=
  ∃ slices pieces,
    Forall2 (λ slice piece, encode_column field slice = Ok piece) slices pieces ∧
    concat (array_rows <$> slices) = rows ∧
    emit_all sink pieces = Ok sink' ∧ total' = total + len (concat pieces) ∧
    (pieces = [] ∨ total' ≤ usize_max).

Lemma written_nil field total sink : written field [] total sink total sink.
Proof. exists [], []. simpl. split_and!; auto; lia. Qed.

Lemma written_app field r1 r2 t0 s0 t1 s1 t2 s2 :
  written field r1 t0 s0 t1 s1 → written field r2 t1 s1 t2 s2 → written field (r1 ++ r2) t0 s0 t2 s2.
Proof.
  intros (l1 & p1 & He1 & <- & Hs1 & -> & Hm1) (l2 & p2 & He2 & <- & Hs2 & -> & Hm2).
  exists (l1 ++ l2), (p1 ++ p2). split_and!.
  - by apply Forall2_app.
  - by rewrite fmap_app, concat_app.
  - by rewrite (emit_all_app _ _ _ s1).
  - rewrite concat_app, length_app. lia.
  - destruct Hm2 as [-> |Hm2]; [|by right]. rewrite app_nil_r. simpl. destruct Hm1; [by left|right; lia].
Qed.

Lemma emit_piece_written field slice total sink total' sink' :
  field_data_type field = array_data_type slice → fits_memory field slice →
  emit_piece emit field slice total sink = Ok (total', sink') →
  written field (array_rows slice) total sink total' sink'.
Proof.
  intros Hf Hfit He. unfold emit_piece in He. rewrite piece_bytes_eq in He by done.
  apply bind_ok in He as (data & Hd & He). apply bind_ok in He as (t & Ht & He).
  apply bind_ok in He as (s & Hs & He). injection He as <- <-.
  unfold map_err in Hd, Hs. repeat case_match; simplify_eq. apply ok_or_ok in Ht.
  unfold checked_add in Ht. case_match; simplify_eq. bool_prop.
  exists [slice], [data]. split_and!.
  - by repeat constructor.
  - simpl. by rewrite app_nil_r.
  - simpl. by match goal with Hs : emit _ _ = Ok _ |- _ => rewrite Hs end.
  - simpl. rewrite app_nil_r. done.
  - by right.
Qed.

Lemma emit_pieces_written fuel field array step start total sink total' sink' :
  field_data_type field = array_data_type array → fits_memory field array → (0 < step)%nat →
  (array_len array - start ≤ fuel)%nat →
  emit_pieces emit fuel field array step start total sink = Ok (total', sink') →
  written field (drop start (array_rows array)) total sink total' sink'.
Proof.
  intros Hf Hfit Hstep. revert start total sink. induction fuel as [|fuel IH]; intros start total sink Hfuel He; simpl in He.
  { simplify_eq. rewrite drop_ge by (rewrite length_array_rows; lia). apply written_nil. }
  destruct (Nat.ltb_spec start (array_len array)) as [Hs|Hs].
  - apply bind_ok in He as ([t s] & Hp & He).
    apply IH in He; [|lia]. apply emit_piece_written in Hp;
      [|by rewrite array_slice_type|by apply fits_memory_slice].
    rewrite array_rows_slice in Hp.
    rewrite <- (take_drop (Nat.min (array_len array - start) step) (drop start (array_rows array))).
    eapply written_app; [exact Hp|]. rewrite drop_drop.
    destruct (decide (step ≤ array_len array - start)%nat).
    + by rewrite Nat.min_r by lia.
    + rewrite drop_ge in He by (rewrite length_array_rows; lia).
      by rewrite drop_ge by (rewrite length_array_rows; lia).
  - simplify_eq. rewrite drop_ge by (rewrite length_array_rows; lia). apply written_nil.
Qed.

Lemma estimated_fits field array n :
  estimated_encoded_size field array = Ok n → fits_memory field array.
Proof.
  intros He w Hw. unfold estimated_encoded_size in He. rewrite Hw in He. simpl in He.
  unfold checked_encoded_size, checked_mul in He.
  destruct (Z.leb_spec (Z.of_nat (array_len array) * w) usize_max); [done|]. discriminate He.
Qed.

Lemma rows_per_chunk_pos target rows estimated : 1 ≤ rows_per_chunk target rows estimated.
Proof. unfold rows_per_chunk. case_match; lia. Qed.

Lemma encode_column_chunks_written field arrays target total sink total' sink' :
  Forall (λ array, field_data_type field = array_data_type array) arrays →
  encode_column_chunks_loop emit field arrays target total sink = Ok (total', sink') →
  written field (concat (array_rows <$> arrays)) total sink total' sink'.
Proof.
  intros Hf. revert total sink. induction Hf as [|array arrays Ha _ IH]; intros total sink He; simpl in He.
  { simplify_eq. apply written_nil. }
  apply bind_ok in He as (n & Hn & He). unfold map_err in Hn. repeat case_match; simplify_eq.
  apply bind_ok in He as ([t s] & Hp & He). simpl.
  pose proof (rows_per_chunk_pos target (Z.of_nat (array_len array)) n).
  apply emit_pieces_written in Hp; [|done|by eapply estimated_fits|lia|lia]. rewrite drop_0 in Hp.
  eapply written_app; [exact Hp|]. by apply IH.
Qed.

End sink.
End pieces.

(** A column sent in bounded pieces is the column: the pieces are the
    encodings of consecutive slices, emitted in order, whose rows are all the
    rows of all the chunks, each once, whether a piece was borrowed from the
    array or encoded, and whatever the target size; the count returned is
    that of the bytes emitted. *)
Theorem encode_column_chunks_rows `{Chrono, Half} field arrays target total pieces :
  Forall (λ array, field_data_type field = array_data_type array) arrays →
  encode_column_chunks (E := unit) (λ sink data, Ok (sink ++ [data])) field arrays target [] =
    Ok (total, pieces) →
  ∃ slices,
    Forall2 (λ slice piece, encode_column field slice = Ok piece) slices pieces ∧
    concat (array_rows <$> slices) = concat (array_rows <$> arrays) ∧
    total = len (concat pieces).
Proof.
  intros Hf He. apply encode_column_chunks_written in He; [|done].
  destruct He as (slices & out & Hs & Hrows & Hemit & -> & _).
  assert (∀ sink, emit_all (E := unit) (λ sink data, Ok (sink ++ [data])) sink out = Ok (sink ++ out)) as Hall.
  { clear. induction out as [|p out IH]; intros sink; simpl; [by rewrite app_nil_r|].
    rewrite IH. by rewrite <- app_assoc. }
  rewrite Hall in Hemit. injection Hemit as <-. by exists slices.
Qed.

Lemma encode_column_chunks_rows_witness :
  ∃ slices,
    Forall2 (λ slice piece, encode_column (mkField (str "n") DInt32 true ∅) slice = Ok piece) slices
      [to_le_bytes 4 1 ++ to_le_bytes 4 2; to_le_bytes 4 3; to_le_bytes 4 i32_min] ∧
    concat (array_rows <$> slices) = [Some (VInt 1); Some (VInt 2); Some (VInt 3); None] ∧
    16 = len (concat [to_le_bytes 4 1 ++ to_le_bytes 4 2; to_le_bytes 4 3; to_le_bytes 4 i32_min]).
Proof.
  apply (encode_column_chunks_rows (mkField (str "n") DInt32 true ∅)
           [APrimitive DInt32 [1; 2; 3] None; APrimitive DInt32 [4] (Some [false])] 8).
  - repeat constructor.
  - vm_compute. reflexivity.
Defined.
