(* ===== verification/Inline.v ===== *)
(** Inline result rows ([decode_inline_rows] of
    [crates/monetdb-arrow/src/decode.rs]): the text rows of a MAPI response are
    rewritten as wire values, column by column, and decoded like a frame.

    The cursor belongs to the client library.  A cell of the current row is
    represented by what each of its typed getters returns ([InlineCell]); a
    cursor is the sequence of rows its [next_row] steps through. *)

From stdpp Require Import base list numbers strings gmap.
From S2P Require Import Prelude RustStd Types Calendar Inet Exportbin ArrowData Decode.
Local Open Scope Z_scope.

(** ** What the cursor reports *)

Record RawTime : Type := mkRawTime { microseconds : Z; seconds : Z; minutes : Z; hours : Z }.
Record RawDate : Type := mkRawDate { raw_day : Z; raw_month : Z; raw_year : Z }.

(** A getter: an error of the cursor, or a value that may be NULL. *)
Abbreviation getter A := (res string (option A)).

(** A decimal is seen only through its [at_scale]; widths are in bits. *)
Record InlineCell : Type := mkInlineCell {
  get_str : getter bytes;
  get_bool : getter bool;
  get_int : Z → getter Z;
  get_float : Z → getter Z;
  get_decimal : Z → getter (Z → option Z);
  get_time : getter RawTime;
  get_time_tz : getter (RawTime * Z);
  get_date : getter RawDate;
  get_timestamp : getter (RawDate * RawTime);
  get_timestamp_tz : getter (RawDate * RawTime * Z);
  get_blob : getter bytes;
}.

(** A row gives a cell for every column index; [next_row] may fail. *)
Abbreviation inline_row := (nat → InlineCell).
Abbreviation inline_cursor := (list (res string inline_row)).

(** ** The libraries behind the conversions *)

(** A time of day of the calendar library, by its fields. *)
Record NaiveTime : Type := mkNaiveTime { hour : Z; minute : Z; second : Z; nanosecond : Z }.

Class InlineLibs := {
  (** [NaiveDate::from_ymd_opt] and [NaiveTime::from_hms_micro_opt]. *)
  from_ymd_opt : Z → Z → Z → option date;
  from_hms_micro_opt : Z → Z → Z → Z → option NaiveTime;
  (** [FixedOffset::east_opt(..).is_some()]. *)
  east_opt : Z → bool;
  (** [offset.from_local_datetime(..).single()], then [naive_utc()]. *)
  local_to_utc : Z → date → NaiveTime → option (date * NaiveTime);
  (** [Uuid::parse_str], as bytes. *)
  parse_uuid : bytes → option bytes;
}.

Definition invalid {A} (message : string) : res DecodeError A := Err (DE_InvalidValue 0 message).

Definition required {A} (value : option A) : res DecodeError A :=
  ok_or value (DE_InvalidValue 0 "non-NULL inline value decoded as NULL").

(** [required(cursor.get(..)?)?]. *)
Definition fetch {A} (value : getter A) : res DecodeError A :=
  value ← map_err DE_Cursor value; required value.

Definition strip_suffix (suffix l : bytes) : option bytes :=
  if bool_decide (drop (length l - length suffix) l = suffix)
  then Some (take (length l - length suffix) l) else None.

Definition parse_inline_oid (rendered : bytes) : res DecodeError Z :=
  ok_or (parse_u64 (default rendered (strip_suffix (str "@0") rendered)))
    (DE_InvalidValue 0 "invalid inline OID").

(** The width in bytes of a decimal's backing integer. *)
Definition decimal_backing (precision : Z) : res DecodeError nat :=
  if (1 <=? precision) && (precision <=? 2) then Ok 1%nat
  else if (3 <=? precision) && (precision <=? 4) then Ok 2%nat
  else if (5 <=? precision) && (precision <=? 9) then Ok 4%nat
  else if (10 <=? precision) && (precision <=? 18) then Ok 8%nat
  else if (19 <=? precision) && (precision <=? 38) then Ok 16%nat
  else Err (DE_InvalidColumn "decimal precision must be between 1 and 38").

Definition signed_min (n : nat) : Z := - 2 ^ (8 * Z.of_nat n - 1).

Definition append_null_wire_value (data_type : MonetType) : res DecodeError bytes :=
  match data_type with
  | MBool => Ok [128]
  | MTinyInt => Ok (to_le_bytes 1 i8_min)
  | MSmallInt => Ok (to_le_bytes 2 i16_min)
  | MInt | MMonthInterval => Ok (to_le_bytes 4 i32_min)
  | MBigInt | MDayInterval | MSecInterval => Ok (to_le_bytes 8 i64_min)
  | MHugeInt => Ok (to_le_bytes 16 i128_min)
  | MOid => Ok (to_le_bytes 8 (2 ^ 63))
  | MDecimal precision _ => n ← decimal_backing precision; Ok (to_le_bytes n (signed_min n))
  | MVarchar _ | MUrl | MJson => Ok [128; 0]
  | MReal => Ok (to_le_bytes 4 2143289344)
  | MDouble => Ok (to_le_bytes 8 9221120237041090560)
  | MTime | MTimeTz => Ok (replicate 8 255)
  | MDate => Ok (replicate 4 255)
  | MTimestamp | MTimestampTz => Ok (replicate 12 255)
  | MBlob => Ok (to_le_bytes 8 (-1))
  | MUuid => Ok (replicate 16 0)
  | MInet4 => Ok (replicate 4 0)
  | MInet6 => Ok (replicate 16 0)
  | MGeometry | MInet | MXml => Err (DE_Unsupported data_type)
  end.

(** Every width but the widest is narrowed first; the value is an [i128]. *)
Definition append_decimal_wire_value (value precision : Z) : res DecodeError bytes :=
  n ← decimal_backing precision;
  if negb (signed_range (8 * Z.of_nat n) value)
  then invalid "decimal value does not fit its backing integer"
  else if value =? signed_min n then invalid "decimal value collides with the wire NULL sentinel"
  else Ok (to_le_bytes n value).

Definition append_time_wire (value : RawTime) : bytes :=
  to_le_bytes 4 (microseconds value) ++ [seconds value; minutes value; hours value; 0].

Definition append_date_wire (value : RawDate) : bytes :=
  [raw_day value; raw_month value] ++ to_le_bytes 2 (raw_year value).

Definition append_timestamp_wire (date : RawDate) (time : RawTime) : bytes :=
  append_time_wire time ++ append_date_wire date.

Section with_libs.
Context `{InlineLibs}.

Definition raw_time_from_naive (value : NaiveTime) : RawTime :=
  mkRawTime (nanosecond value / 1000) (second value) (minute value) (hour value).

Definition naive_date (value : RawDate) (row : nat) : res DecodeError date :=
  ok_or (from_ymd_opt (raw_year value) (raw_month value) (raw_day value))
    (DE_InvalidValue row "invalid Gregorian date").

Definition naive_time (value : RawTime) (row : nat) : res DecodeError NaiveTime :=
  ok_or (from_hms_micro_opt (hours value) (minutes value) (seconds value) (microseconds value))
    (DE_InvalidValue row "invalid time of day").

Definition fixed_offset (seconds_east : Z) : res DecodeError Z :=
  if east_opt seconds_east then Ok seconds_east else invalid "invalid UTC offset".

Definition raw_date_from_naive (value : date) : res DecodeError RawDate :=
  if signed_range 16 (year value) then Ok (mkRawDate (day value) (month value) (year value))
  else invalid "timestamp year does not fit MonetDB's wire format".

Definition normalize_time (value : RawTime) (seconds_east : Z) : res DecodeError RawTime :=
  reference ← ok_or (from_ymd_opt 2000 1 2) (DE_InvalidValue 0 "could not construct reference date");
  time ← naive_time value 0;
  offset ← fixed_offset seconds_east;
  utc ← ok_or (local_to_utc offset reference time) (DE_InvalidValue 0 "invalid time zone conversion");
  Ok (raw_time_from_naive utc.2).

Definition normalize_timestamp (d : RawDate) (t : RawTime) (seconds_east : Z)
    : res DecodeError (RawDate * RawTime) :=
  d ← naive_date d 0;
  t ← naive_time t 0;
  offset ← fixed_offset seconds_east;
  utc ← ok_or (local_to_utc offset d t) (DE_InvalidValue 0 "invalid timestamp time zone conversion");
  d ← raw_date_from_naive utc.1;
  Ok (d, raw_time_from_naive utc.2).

(** The bytes pushed for one cell. *)
Definition append_inline_wire_value (cell : InlineCell) (data_type : MonetType) : res DecodeError bytes :=
  text ← map_err DE_Cursor (get_str cell);
  if bool_decide (text = None) then append_null_wire_value data_type
  else
    let int (n : nat) := v ← fetch (get_int cell (8 * Z.of_nat n)); Ok (to_le_bytes n v) in
    match data_type with
    | MBool => b ← fetch (get_bool cell); Ok [if b : bool then 1 else 0]
    | MTinyInt => int 1%nat
    | MSmallInt => int 2%nat
    | MInt | MMonthInterval => int 4%nat
    | MBigInt => int 8%nat
    | MHugeInt => int 16%nat
    | MOid =>
        rendered ← fetch (get_str cell); v ← parse_inline_oid rendered; Ok (to_le_bytes 8 v)
    | MDecimal precision scale =>
        decimal ← fetch (get_decimal cell 128);
        value ← ok_or (decimal scale)
                  (DE_InvalidValue 0 "decimal text has more fractional digits than its declared scale");
        append_decimal_wire_value value precision
    | MVarchar _ | MUrl | MJson => value ← fetch (get_str cell); Ok (value ++ [0])
    | MReal => v ← fetch (get_float cell 32); Ok (to_le_bytes 4 v)
    | MDouble => v ← fetch (get_float cell 64); Ok (to_le_bytes 8 v)
    | MDayInterval | MSecInterval =>
        decimal ← fetch (get_decimal cell 64);
        value ← ok_or (decimal 3)
                  (DE_InvalidValue 0 "interval text is not representable in milliseconds");
        Ok (to_le_bytes 8 value)
    | MTime => v ← fetch (get_time cell); Ok (append_time_wire v)
    | MTimeTz => v ← fetch (get_time_tz cell); t ← normalize_time v.1 v.2; Ok (append_time_wire t)
    | MDate => v ← fetch (get_date cell); Ok (append_date_wire v)
    | MTimestamp => v ← fetch (get_timestamp cell); Ok (append_timestamp_wire v.1 v.2)
    | MTimestampTz =>
        v ← fetch (get_timestamp_tz cell);
        dt ← normalize_timestamp v.1.1 v.1.2 v.2;
        Ok (append_timestamp_wire dt.1 dt.2)
    | MBlob =>
        value ← fetch (get_blob cell);
        if signed_range 64 (len value) then Ok (to_le_bytes 8 (len value) ++ value)
        else invalid "BLOB length does not fit on the wire"
    | MUuid => s ← fetch (get_str cell); ok_or (parse_uuid s) (DE_InvalidValue 0 "invalid UUID text")
    | MInet4 => s ← fetch (get_str cell); ok_or (parse_ipv4 s) (DE_InvalidValue 0 "invalid INET4 address")
    | MInet6 => s ← fetch (get_str cell); ok_or (parse_ipv6 s) (DE_InvalidValue 0 "invalid INET6 address")
    | MInet | MGeometry | MXml => Err (DE_Unsupported data_type)
    end.

(** One row: every column's bytes are pushed on its own buffer. *)
Fixpoint append_inline_row (row : inline_row) (index : nat) (columns : list ResultColumn)
    (buffers : list bytes) : res DecodeError (list bytes) :=
  match columns, buffers with
  | column :: columns, buffer :: buffers =>
      out ← append_inline_wire_value (row index) (column_sql_type column);
      buffers ← append_inline_row row (S index) columns buffers;
      Ok ((buffer ++ out) :: buffers)
  | [], _ => Ok buffers
  | _, [] => Panic
  end.

(** [while cursor.next_row()?]. *)
Fixpoint inline_loop (columns : list ResultColumn) (expected_rows rows : nat) (buffers : list bytes)
    (cursor : inline_cursor) : res DecodeError (nat * list bytes) :=
  match cursor with
  | [] => Ok (rows, buffers)
  | next :: cursor =>
      row ← map_err DE_Cursor next;
      if (expected_rows <=? rows)%nat
      then Err (DE_InvalidValue rows "inline result contained more rows than reported")
      else
        buffers ← append_inline_row row 0 columns buffers;
        inline_loop columns expected_rows (S rows) buffers cursor
  end.

(** [RecordBatch::try_new]: the row count is the first column's; without a
    column Arrow has no row count and refuses. *)
Definition record_batch_try_new `{Arrow} (schema : list Field) (arrays : list ArrayRef)
    : res DecodeError RecordBatch :=
  match arrays with
  | [] => Err (DE_Arrow "must either specify a row count or at least one column")
  | array :: _ => record_batch schema arrays (array_len array)
  end.

Definition decode_inline_rows `{Arrow} (cursor : inline_cursor) (columns : list ResultColumn)
    (expected_rows : nat) : res DecodeError RecordBatch :=
  fields ← map_res field_for_column columns;
  '(rows, buffers) ← inline_loop columns expected_rows 0 ((λ _, []) <$> columns) cursor;
  if negb (rows =? expected_rows)%nat
  then Err (DE_RowCount (Z.of_nat expected_rows) (Z.of_nat rows))
  else
    arrays ← decode_columns columns buffers rows;
    record_batch_try_new fields arrays.
End with_libs.
