(* ===== verification/InlineProofs.v ===== *)
(** Inline rows decode to the values their cells report. *)

From stdpp Require Import base list numbers strings gmap.
From S2P Require Import Prelude RustStd Types Calendar Inet Exportbin ArrowData Decode DecodeProofs Encode StringCodec Codec Inline.
Local Open Scope Z_scope.

(** ** What the libraries promise *)

(** Nanoseconds from the epoch to a local date and time. *)
Definition instant (d : date) (t : NaiveTime) : Z :=
  (date_days d * 86400 + (hour t * 60 + minute t) * 60 + second t) * 1000000000 + nanosecond t.

Definition naive_time_ok (t : NaiveTime) : Prop :=
  0 ≤ hour t < 24 ∧ 0 ≤ minute t < 60 ∧ 0 ≤ second t < 60 ∧ 0 ≤ nanosecond t < 1000000000.

(** A constructor keeps its fields and refuses an impossible date; converting
    to UTC subtracts the offset; a parsed UUID has 16 bytes. *)
Class InlineLibsLaws `{InlineLibs} : Prop := {
  from_ymd_some y m d r : from_ymd_opt y m d = Some r → r = mkDate y m d;
  from_hms_some h m s us r : from_hms_micro_opt h m s us = Some r → r = mkNaiveTime h m s (us * 1000);
  local_to_utc_some offset d t d' t' :
    naive_time_ok t → local_to_utc offset d t = Some (d', t') →
    date_valid d' = true ∧ naive_time_ok t' ∧ instant d' t' = instant d t - offset * 1000000000;
  parse_uuid_length s octets : parse_uuid s = Some octets → length octets = 16%nat;
}.

(** ** The value of a cell *)

Definition got {A} (value : getter A) : option A :=
  match value with Ok (Some a) => Some a | _ => None end.

Definition keep {A} (b : bool) (a : A) : option A := if b then Some a else None.

Definition raw_time_ok (t : RawTime) : bool :=
  (0 <=? microseconds t) && (microseconds t <? 1000000) && (0 <=? seconds t) && (seconds t <? 60)
  && (0 <=? minutes t) && (minutes t <? 60) && (0 <=? hours t) && (hours t <? 24).

Definition raw_date_ok (d : RawDate) : bool :=
  (0 <=? raw_day d) && valid_ymd (raw_year d) (raw_month d) (raw_day d) && signed_range 16 (raw_year d).

(** Microseconds into the day, and days and microseconds from the epoch. *)
Definition time_micros (t : RawTime) : Z :=
  ((hours t * 60 + minutes t) * 60 + seconds t) * 1000000 + microseconds t.
Definition date_count (d : RawDate) : Z := days_from_civil (raw_year d) (raw_month d) (raw_day d).
Definition timestamp_micros (d : RawDate) (t : RawTime) : Z := date_count d * 86400000000 + time_micros t.

Section values.
Context `{InlineLibs}.

(** An integer cell: in the range of its type, and not the NULL sentinel. *)
Definition int_value (n : nat) (cell : InlineCell) : option Z :=
  v ← got (get_int cell (8 * Z.of_nat n));
  keep (signed_range (8 * Z.of_nat n) v && negb (v =? signed_min n)) v.

Definition float_value (bits : Z) (is_nan : Z → bool) (cell : InlineCell) : option Z :=
  v ← got (get_float cell bits); keep (unsigned_range bits v && negb (is_nan v)) v.

(** The number a non-NULL cell of a numeric or temporal type stands for; a
    time zone is removed by subtracting its offset. *)
Definition present_int (t : MonetType) (cell : InlineCell) : option Z :=
  match t with
  | MTinyInt => int_value 1 cell
  | MSmallInt => int_value 2 cell
  | MInt | MMonthInterval => int_value 4 cell
  | MBigInt => int_value 8 cell
  | MHugeInt =>
      v ← got (get_int cell 128); keep ((- 10 ^ 38 <? v) && (v <? 10 ^ 38)) v
  | MOid =>
      s ← got (get_str cell);
      match parse_inline_oid s with Ok v => keep (negb (v =? 2 ^ 63)) v | _ => None end
  | MDecimal p s =>
      d ← got (get_decimal cell 128); v ← d s;
      keep ((1 <=? p) && (p <=? 38) && (0 <=? s) && (s <=? p) && (- 10 ^ p <? v) && (v <? 10 ^ p)) v
  | MReal => float_value 32 f32_is_nan cell
  | MDouble => float_value 64 f64_is_nan cell
  | MDayInterval | MSecInterval =>
      d ← got (get_decimal cell 64); v ← d 3;
      keep (signed_range 64 v && negb (v =? signed_min 8)) v
  | MTime => t ← got (get_time cell); keep (raw_time_ok t) (time_micros t)
  | MTimeTz =>
      v ← got (get_time_tz cell);
      keep (raw_time_ok v.1 && is_ok (normalize_time v.1 v.2))
        ((time_micros v.1 - v.2 * 1000000) mod 86400000000)
  | MDate => d ← got (get_date cell); keep (raw_date_ok d) (date_count d)
  | MTimestamp =>
      v ← got (get_timestamp cell);
      keep (raw_date_ok v.1 && raw_time_ok v.2) (timestamp_micros v.1 v.2)
  | MTimestampTz =>
      v ← got (get_timestamp_tz cell);
      keep (raw_time_ok v.1.2 && is_ok (normalize_timestamp v.1.1 v.1.2 v.2))
        (timestamp_micros v.1.1 v.1.2 - v.2 * 1000000)
  | _ => None
  end.

Definition nonzero (octets : bytes) : bool := negb (forallb (λ b, b =? 0) octets).

(** The bytes of a non-NULL cell of a variable-width or address type. *)
Definition present_bytes (t : MonetType) (cell : InlineCell) : option bytes :=
  match t with
  | MVarchar _ | MUrl | MJson =>
      s ← got (get_str cell); keep (utf8_valid s && negb (existsb (λ b, b =? 0) s)) s
  | MBlob => got (get_blob cell)
  | MUuid => s ← got (get_str cell); octets ← parse_uuid s; keep (nonzero octets) octets
  | MInet4 => s ← got (get_str cell); octets ← parse_ipv4 s; keep (nonzero octets) (fmt_ipv4 octets)
  | MInet6 => s ← got (get_str cell); octets ← parse_ipv6 s; keep (nonzero octets) (fmt_ipv6 octets)
  | _ => None
  end.

(** The row a cell stands for, [None] where its text is not a value of the type. *)
Definition nullable {A} (cell : InlineCell) (present : option A) : option (option A) :=
  match get_str cell with
  | Ok None => Some None
  | Ok (Some _) => Some <$> present
  | _ => None
  end.

Definition as_row {A} (f : A → value) (row : option (option A)) : option (option value) :=
  (λ v : option A, f <$> v) <$> row.

Definition inline_value (t : MonetType) (cell : InlineCell) : option (option value) :=
  match t with
  | MBool => as_row VBool (nullable cell (got (get_bool cell)))
  | MVarchar _ | MUrl | MJson | MBlob | MUuid | MInet4 | MInet6 =>
      as_row VBytes (nullable cell (present_bytes t cell))
  | MGeometry | MInet | MXml => None
  | _ => as_row VInt (nullable cell (present_int t cell))
  end.
End values.

(** ** Cells on the wire *)

Definition signed_read (n : nat) (_ : nat) (out : bytes) : res DecodeError (option Z) :=
  Ok (unless (λ v, v =? signed_min n) (i_from_le out)).

(** How the decoder reads a fixed-width column: the width and the value of a cell. *)
Definition int_format (t : MonetType) : nat * (nat → bytes → res DecodeError (option Z)) :=
  match t with
  | MTinyInt => (1%nat, signed_read 1)
  | MSmallInt => (2%nat, signed_read 2)
  | MInt | MMonthInterval => (4%nat, signed_read 4)
  | MBigInt | MDayInterval | MSecInterval => (8%nat, signed_read 8)
  | MHugeInt => (16%nat, signed_read 16)
  | MDecimal p _ => let n := match decimal_backing p with Ok n => n | _ => 0%nat end in (n, signed_read n)
  | MOid => (8%nat, λ _ o, Ok (unless (λ v, v =? 2 ^ 63) (u_from_le o)))
  | MReal => (4%nat, λ _ o, Ok (unless f32_is_nan (u_from_le o)))
  | MDouble => (8%nat, λ _ o, Ok (unless f64_is_nan (u_from_le o)))
  | MTime | MTimeTz => (8%nat, time_value)
  | MDate => (4%nat, date_value)
  | _ => (12%nat, timestamp_value)
  end.

Definition precision_of (t : MonetType) : option Z :=
  match t with MHugeInt => Some 38 | MDecimal p _ => Some p | _ => None end.

(** A piece that reads as the row [z]. *)
Definition int_cell (t : MonetType) (z : option Z) (out : bytes) : Prop :=
  length out = (int_format t).1 ∧ (∀ row, (int_format t).2 row out = Ok z) ∧
  ∀ p, precision_of t = Some p → below (10 ^ p) z.

Definition is_int_type (t : MonetType) : bool :=
  match t with
  | MBool | MVarchar _ | MUrl | MJson | MBlob | MUuid | MInet | MInet4 | MInet6 | MGeometry | MXml => false
  | _ => true
  end.

Lemma got_fetch {A} (g : getter A) a : got g = Some a → fetch g = Ok a.
Proof. unfold got, fetch. destruct g as [[]| |]; try done. by intros [= ->]. Qed.

Lemma keep_some {A} b (a a' : A) : keep b a = Some a' → b = true ∧ a = a'.
Proof. unfold keep. destruct b; [|done]. by intros [= ->]. Qed.

Lemma signed_read_ok n row v :
  (0 < n)%nat → signed_range (8 * Z.of_nat n) v = true → v ≠ signed_min n →
  signed_read n row (to_le_bytes n v) = Ok (Some v).
Proof.
  intros Hn Hr Hne. unfold signed_read, unless. rewrite i_from_le_to_le_id by done.
  by rewrite (proj2 (Z.eqb_neq _ _)).
Qed.

Lemma signed_read_null n row : (0 < n)%nat → signed_read n row (to_le_bytes n (signed_min n)) = Ok None.
Proof.
  intros Hn. unfold signed_read, unless. rewrite i_from_le_to_le_id by (done || by apply wire_min_range).
  by rewrite Z.eqb_refl.
Qed.

Lemma below_none limit : below limit None.
Proof. by intros v. Qed.

Lemma time_wire_ok row t :
  raw_time_ok t = true → length (append_time_wire t) = 8%nat ∧
  time_value row (append_time_wire t) = Ok (Some (time_micros t)).
Proof.
  unfold raw_time_ok. intros Hok. bool_prop. unfold append_time_wire, time_value.
  pose proof (length_to_le_bytes 4 (microseconds t)) as Hl. rewrite length_app, Hl. split; [done|].
  destruct (to_le_bytes 4 (microseconds t)) as [|b0 [|b1 [|b2 [|b3 [|]]]]] eqn:Hb; try done.
  cbn [app take]. rewrite <- Hb, u_from_le_to_le_id by lia.
  rewrite (proj2 (Z.eqb_neq _ u32_max)) by range_lia. by rewrite !(proj2 (Z.leb_gt _ _)) by lia.
Qed.

(** Every year of the wire has its days in range. *)
Lemma date_count_range d : raw_date_ok d = true → signed_range 32 (date_count d) = true.
Proof.
  unfold raw_date_ok. intros Hok. bool_prop.
  set (e := mkDate (raw_year d) (raw_month d) (raw_day d)).
  assert (date_valid e = true) as Hv by (unfold date_valid; simpl; rewrite (proj2 (Z.leb_le _ _)); done).
  pose proof (date_valid_month e Hv) as [Hm _]. pose proof (month_days_bound e Hv) as Hb.
  rewrite year_days_succ in Hb. unfold date_count. rewrite days_from_civil_alt by done. simpl in *.
  assert (-32769 ≤ march_year (raw_year d) (raw_month d) ≤ 32767) as Hy
    by (unfold march_year; destruct (raw_month d <=? 2); range_lia).
  revert Hb Hy. generalize (march_year (raw_year d) (raw_month d)). intros y Hb Hy.
  assert (- 20000000 ≤ year_days y ≤ 20000000) by (unfold year_days; divlia).
  assert (0 ≤ month_days (march_month (raw_month d)) (raw_day d) < 366) by (destruct (is_leap (y + 1)); lia).
  range_lia.
Qed.

Lemma date_wire_ok row d :
  raw_date_ok d = true → length (append_date_wire d) = 4%nat ∧
  date_value row (append_date_wire d) = Ok (Some (date_count d)).
Proof.
  intros Hok. pose proof (date_count_range _ Hok) as Hr. unfold raw_date_ok in Hok. bool_prop.
  unfold append_date_wire, date_value. pose proof (length_to_le_bytes 2 (raw_year d)) as Hl.
  destruct (to_le_bytes 2 (raw_year d)) as [|b0 [|b1 [|]]] eqn:Hb; try done. split; [done|].
  cbn [app drop]. rewrite <- Hb, i_from_le_to_le_id by (done || lia).
  assert (1 ≤ raw_month d ≤ 12) as Hm.
  { match goal with H : valid_ymd _ _ _ = true |- _ => unfold valid_ymd in H end.
    case_match eqn:E; [done|]. bool_prop. lia. }
  rewrite (proj2 (Z.eqb_neq _ u8_max)) by range_lia.
  match goal with H : valid_ymd _ _ _ = true |- _ => rewrite H end. simpl. fold (date_count d). by rewrite Hr.
Qed.

Lemma timestamp_wire_ok row d t :
  raw_date_ok d = true → raw_time_ok t = true → length (append_timestamp_wire d t) = 12%nat ∧
  timestamp_value row (append_timestamp_wire d t) = Ok (Some (timestamp_micros d t)).
Proof.
  intros Hd Ht. destruct (date_wire_ok row d Hd) as [Hl1 H1], (time_wire_ok row t Ht) as [Hl2 H2].
  unfold append_timestamp_wire, timestamp_value. rewrite length_app, Hl1, Hl2. split; [done|].
  rewrite take_app_length', drop_app_length' by done. by rewrite H1, H2.
Qed.

(** ** Time zones *)

Section cells.
Context `{InlineLibsLaws}.

Definition naive_of (t : RawTime) : NaiveTime :=
  mkNaiveTime (hours t) (minutes t) (seconds t) (microseconds t * 1000).

Lemma raw_time_naive t : raw_time_ok t = true → naive_time_ok (naive_of t).
Proof. unfold raw_time_ok, naive_time_ok. intros Hok. bool_prop. simpl. lia. Qed.

(** A UTC time that is a whole number of microseconds. *)
Lemma raw_time_back t :
  naive_time_ok t → nanosecond t mod 1000 = 0 →
  raw_time_ok (raw_time_from_naive t) = true ∧
  time_micros (raw_time_from_naive t) * 1000 =
    ((hour t * 60 + minute t) * 60 + second t) * 1000000000 + nanosecond t.
Proof.
  intros (Hh & Hm & Hs & Hn) Hmod. unfold raw_time_from_naive, raw_time_ok, time_micros. simpl.
  assert (nanosecond t / 1000 < 1000000) by divlia. assert (0 ≤ nanosecond t / 1000) by divlia.
  split; [|divlia]. by rewrite !(proj2 (Z.leb_le _ _)), !(proj2 (Z.ltb_lt _ _)) by lia.
Qed.

Lemma instant_micros d t :
  instant d (naive_of t) = (date_days d * 86400000000 + time_micros t) * 1000.
Proof. unfold instant, time_micros. simpl. lia. Qed.

(** What the conversion yields: the same instant, with the offset removed. *)
Lemma utc_ok offset d t d' t' :
  raw_time_ok t = true → local_to_utc offset d (naive_of t) = Some (d', t') →
  date_valid d' = true ∧ raw_time_ok (raw_time_from_naive t') = true ∧
  date_days d' * 86400000000 + time_micros (raw_time_from_naive t') =
    date_days d * 86400000000 + time_micros t - offset * 1000000.
Proof.
  intros Hok Hutc. pose proof (instant_micros d t) as Hi.
  destruct (local_to_utc_some _ _ _ _ _ (raw_time_naive _ Hok) Hutc) as (Hv & Ht' & Heq).
  assert (nanosecond t' mod 1000 = 0) as Hmod by (unfold instant in Heq at 1; divlia).
  destruct (raw_time_back _ Ht' Hmod) as [Hr Hm]. split_and!; [done..|]. unfold instant in Heq at 1. lia.
Qed.

Lemma time_micros_range t : raw_time_ok t = true → 0 ≤ time_micros t < 86400000000.
Proof. unfold raw_time_ok, time_micros. intros Hok. bool_prop. lia. Qed.

Lemma normalize_time_ok t offset t' :
  raw_time_ok t = true → normalize_time t offset = Ok t' →
  raw_time_ok t' = true ∧ time_micros t' = (time_micros t - offset * 1000000) mod 86400000000.
Proof.
  intros Hok Hn. unfold normalize_time, naive_time, fixed_offset in Hn.
  apply bind_ok in Hn as (reference & Href & Hn). apply bind_ok in Hn as (time & Ht & Hn).
  apply bind_ok in Hn as (off & Hoff & Hn). apply bind_ok in Hn as ([d' u] & Hu & Hn).
  injection Hn as <-. apply ok_or_ok in Ht, Hu. apply from_hms_some in Ht as ->.
  destruct (east_opt offset) in Hoff; [|done]. injection Hoff as <-.
  destruct (utc_ok _ _ _ _ _ Hok Hu) as (_ & Hr & Heq). split; [done|].
  pose proof (time_micros_range _ Hr). simpl. divlia.
Qed.

Lemma normalize_timestamp_ok d t offset d' t' :
  raw_time_ok t = true → normalize_timestamp d t offset = Ok (d', t') →
  raw_date_ok d' = true ∧ raw_time_ok t' = true ∧
  timestamp_micros d' t' = timestamp_micros d t - offset * 1000000.
Proof.
  intros Hok Hn. unfold normalize_timestamp, naive_date, naive_time, fixed_offset in Hn.
  apply bind_ok in Hn as (D & Hd & Hn). apply bind_ok in Hn as (T & Ht & Hn).
  apply bind_ok in Hn as (off & Hoff & Hn). apply bind_ok in Hn as ([D' T'] & Hu & Hn).
  apply bind_ok in Hn as (r & Hr & Hn). injection Hn as <- <-.
  apply ok_or_ok in Hd, Ht, Hu. apply from_ymd_some in Hd as ->. apply from_hms_some in Ht as ->.
  destruct (east_opt offset) in Hoff; [|done]. injection Hoff as <-.
  unfold raw_date_from_naive in Hr. simpl in Hr. destruct (signed_range 16 (year D')) eqn:Hy in Hr; [|done].
  injection Hr as <-. destruct (utc_ok _ _ _ _ _ Hok Hu) as (Hv & Htime & Heq).
  unfold date_valid in Hv. apply andb_true_iff in Hv as [Hv1 Hv2].
  split_and!; [|done|]; unfold raw_date_ok, timestamp_micros, date_count; simpl.
  - by rewrite Hv1, Hv2, Hy.
  - unfold date_days in Heq. simpl in Heq. lia.
Qed.

(** ** Fixed-width cells *)

(** A type the driver decodes. *)
Definition type_ok (t : MonetType) : Prop :=
  match t with
  | MDecimal p s => 1 ≤ p ≤ 38 ∧ 0 ≤ s ≤ p
  | MGeometry | MInet | MXml => False
  | _ => True
  end.

Lemma decimal_backing_ok p :
  1 ≤ p ≤ 38 →
  ∃ n, decimal_backing p = Ok n ∧ decimal_width p = Some (Z.of_nat n) ∧ (0 < n)%nat ∧ 10 ^ p ≤ - signed_min n.
Proof.
  intros Hp. destruct (decimal_width_cases p Hp) as (n & Hn & Hin & Hle). exists n.
  unfold signed_min. rewrite Z.opp_involutive. pose proof Hn as Hn'. unfold decimal_width in Hn. unfold decimal_backing.
  repeat (case_match; [injection Hn as Hn; split_and!; [f_equal; lia|done|lia|done]|]). done.
Qed.

Lemma null_int_cell t :
  is_int_type t = true → type_ok t →
  ∃ out, append_null_wire_value t = Ok out ∧ int_cell t None out.
Proof.
  intros Ht Hok.
  assert (∀ n, (0 < n)%nat → length (to_le_bytes n (signed_min n)) = n ∧
    (∀ row, signed_read n row (to_le_bytes n (signed_min n)) = Ok None)) as Hs.
  { intros n Hn. rewrite length_to_le_bytes. split; [done|]. intros. by apply signed_read_null. }
  unfold int_cell. destruct t; try done; simpl; try (eexists; split; [reflexivity|]; split_and!;
    [by vm_compute|by intros; vm_compute|by intros]).
  destruct (decimal_backing_ok _ (proj1 Hok)) as (n & -> & _ & Hn & _). simpl.
  eexists. split; [done|]. split_and!; [by apply Hs..|]. intros. apply below_none.
Qed.

Lemma option_bind_some {A B} (f : A → option B) (m : option A) b :
  m ≫= f = Some b → ∃ a, m = Some a ∧ f a = Some b.
Proof. destruct m; simpl; [eauto|done]. Qed.

(** A cell of a signed integer type. *)
Lemma signed_int_cell n v row :
  (0 < n)%nat → signed_range (8 * Z.of_nat n) v = true → negb (v =? signed_min n) = true →
  length (to_le_bytes n v) = n ∧ signed_read n row (to_le_bytes n v) = Ok (Some v).
Proof.
  intros Hn Hr Hne. bool_prop. rewrite length_to_le_bytes. split; [done|]. by apply signed_read_ok.
Qed.

Lemma unsigned_cell n (null : Z → bool) v :
  unsigned_range (8 * Z.of_nat n) v = true → negb (null v) = true →
  length (to_le_bytes n v) = n ∧ unless null (u_from_le (to_le_bytes n v)) = Some v.
Proof.
  intros Hr Hn. rewrite length_to_le_bytes. split; [done|]. unfold unsigned_range in Hr. bool_prop.
  rewrite u_from_le_to_le_id by lia. unfold unless. by rewrite Hn.
Qed.

Lemma decimal_cell p v :
  1 ≤ p ≤ 38 → - 10 ^ p < v < 10 ^ p →
  ∃ n out, decimal_backing p = Ok n ∧ append_decimal_wire_value v p = Ok out ∧ length out = n ∧
    ∀ row, signed_read n row out = Ok (Some v).
Proof.
  intros Hp Hv. destruct (decimal_backing_ok p Hp) as (n & Hn & _ & Hpos & Hle).
  exists n, (to_le_bytes n v). unfold append_decimal_wire_value. rewrite Hn. cbn [mbind res_bind].
  assert (signed_range (8 * Z.of_nat n) v = true) as Hr.
  { unfold signed_range. unfold signed_min in Hle. rewrite (proj2 (Z.leb_le _ _)), (proj2 (Z.ltb_lt _ _)) by lia. done. }
  assert ((v =? signed_min n) = false) as Hne by (apply Z.eqb_neq; lia).
  rewrite Hr, Hne. split_and!; [done..|apply length_to_le_bytes|]. intros row.
  apply signed_read_ok; [done..|]. bool_prop. done.
Qed.

Lemma int_value_cell n cell z :
  (0 < n)%nat → int_value n cell = Some z →
  ∃ out, (v ← fetch (get_int cell (8 * Z.of_nat n)); Ok (to_le_bytes n v)) = Ok out ∧
    length out = n ∧ ∀ row, signed_read n row out = Ok (Some z).
Proof.
  intros Hn Hz. apply option_bind_some in Hz as (v & Hv & Hz). apply got_fetch in Hv.
  apply keep_some in Hz as [Hk ->]. apply andb_true_iff in Hk as [Hr Hne]. rewrite Hv.
  eexists. split; [done|]. split; [by apply (signed_int_cell n z 0)|]. intros. by apply signed_int_cell.
Qed.

Lemma float_value_cell n (is_nan : Z → bool) cell z :
  float_value (8 * Z.of_nat n) is_nan cell = Some z →
  ∃ out, (v ← fetch (get_float cell (8 * Z.of_nat n)); Ok (to_le_bytes n v)) = Ok out ∧
    length out = n ∧ unless is_nan (u_from_le out) = Some z.
Proof.
  intros Hz. apply option_bind_some in Hz as (v & Hv & Hz). apply got_fetch in Hv.
  apply keep_some in Hz as [Hk ->]. apply andb_true_iff in Hk as [Hr Hne]. rewrite Hv.
  eexists. split; [done|]. by apply unsigned_cell.
Qed.

Lemma parse_u64_range s v : parse_u64 s = Some v → unsigned_range 64 v = true.
Proof. apply parse_int_in_range. Qed.

(** A piece appended for a non-NULL cell. *)
Definition appended (t : MonetType) (cell : InlineCell) (z : Z) : Prop :=
  ∃ out, append_inline_wire_value cell t = Ok out ∧ int_cell t (Some z) out.

Lemma present_numeric t cell z text :
  t ∈ [MTinyInt; MSmallInt; MInt; MMonthInterval; MBigInt; MReal; MDouble; MHugeInt; MOid] →
  get_str cell = Ok (Some text) → present_int t cell = Some z → appended t cell z.
Proof.
  intros Ht Hs Hz. unfold appended, append_inline_wire_value. rewrite Hs. cbn [map_err mbind res_bind].
  rewrite bool_decide_eq_false_2 by done. unfold int_cell.
  set_unfold in Ht. destruct_or! Ht; subst t; cbn [present_int int_format fst snd precision_of] in *.
  1-5: apply int_value_cell in Hz as (out & -> & Hl & Hr); [by exists out|lia].
  1: destruct (float_value_cell 4 _ _ _ Hz) as (out & Ho & Hl & Hr).
  2: destruct (float_value_cell 8 _ _ _ Hz) as (out & Ho & Hl & Hr).
  1-2: exists out; split_and!; [done..| |done]; intros; by rewrite Hr.
  - apply option_bind_some in Hz as (v & Hv & Hz). apply got_fetch in Hv.
    apply keep_some in Hz as [Hk ->]. apply andb_true_iff in Hk as [Hlo Hhi].
    apply Z.ltb_lt in Hlo, Hhi. assert (10 ^ 38 < 2 ^ 127) as Hp by (by vm_compute).
    change (8 * Z.of_nat 16) with 128. rewrite Hv. cbn [mbind res_bind]. eexists. split; [done|].
    split_and!; [apply length_to_le_bytes| |].
    + intros row. apply signed_read_ok; [lia| |].
      * change (8 * Z.of_nat 16) with 128. unfold signed_range. change (128 - 1) with 127.
        rewrite (proj2 (Z.leb_le _ _)), (proj2 (Z.ltb_lt _ _)) by lia. done.
      * unfold signed_min. change (8 * Z.of_nat 16 - 1) with 127. lia.
    + intros p [= <-] v' [= <-]. exact (conj Hlo Hhi).
  - apply option_bind_some in Hz as (v & Hv & Hz). rewrite Hs in Hv. injection Hv as <-.
    cbn [fetch map_err mbind res_bind required ok_or]. unfold parse_inline_oid in *.
    destruct (parse_u64 _) as [w|] eqn:Hw; [|done]. cbn [ok_or mbind res_bind] in *.
    apply keep_some in Hz as [Hk ->]. apply parse_u64_range in Hw.
    eexists. split; [done|]. destruct (unsigned_cell 8 (λ v, v =? 2 ^ 63) z Hw Hk) as [Hl Hu].
    split_and!; [done| |done]. intros. by rewrite Hu.
Qed.

Lemma present_decimal p sc cell z text :
  get_str cell = Ok (Some text) → present_int (MDecimal p sc) cell = Some z → appended (MDecimal p sc) cell z.
Proof.
  intros Hs Hz. unfold appended, append_inline_wire_value. rewrite Hs. cbn [map_err mbind res_bind].
  rewrite bool_decide_eq_false_2 by done. unfold int_cell. cbn [present_int int_format fst snd precision_of] in *.
  apply option_bind_some in Hz as (d & Hd & Hz). apply got_fetch in Hd. rewrite Hd.
  apply option_bind_some in Hz as (v & Hv & Hz). cbn [mbind res_bind]. rewrite Hv. cbn [ok_or mbind res_bind].
  apply keep_some in Hz as [Hk ->]. bool_prop.
  destruct (decimal_cell p z) as (n & out & -> & -> & Hl & Hr); [lia..|]. exists out.
  split_and!; [done..|]. intros p' [= <-] v' [= <-]. by split.
Qed.

Lemma present_interval t cell z text :
  t ∈ [MDayInterval; MSecInterval] →
  get_str cell = Ok (Some text) → present_int t cell = Some z → appended t cell z.
Proof.
  intros Ht Hs Hz. unfold appended, append_inline_wire_value. rewrite Hs. cbn [map_err mbind res_bind].
  rewrite bool_decide_eq_false_2 by done. unfold int_cell.
  set_unfold in Ht. destruct_or! Ht; subst t; cbn [present_int int_format fst snd precision_of] in *.
  all: apply option_bind_some in Hz as (d & Hd & Hz); apply got_fetch in Hd; rewrite Hd.
  all: apply option_bind_some in Hz as (v & Hv & Hz); cbn [mbind res_bind]; rewrite Hv.
  all: apply keep_some in Hz as [Hk ->]; apply andb_true_iff in Hk as [Hr Hne].
  all: cbn [ok_or mbind res_bind]; eexists; split; [done|].
  all: split_and!; [by apply length_to_le_bytes|intros; apply signed_int_cell; [lia|done..]|done].
Qed.

Lemma present_temporal t cell z text :
  t ∈ [MTime; MTimeTz; MDate; MTimestamp; MTimestampTz] →
  get_str cell = Ok (Some text) → present_int t cell = Some z → appended t cell z.
Proof.
  intros Ht Hs Hz. unfold appended, append_inline_wire_value. rewrite Hs. cbn [map_err mbind res_bind].
  rewrite bool_decide_eq_false_2 by done. unfold int_cell.
  set_unfold in Ht. destruct_or! Ht; subst t; cbn [present_int int_format fst snd precision_of] in *.
  all: apply option_bind_some in Hz as (v & Hv & Hz); apply got_fetch in Hv; rewrite Hv.
  all: apply keep_some in Hz as [Hk <-]; cbn [mbind res_bind].
  - eexists. split; [done|]. split_and!; [by apply (time_wire_ok 0)|intros; by apply time_wire_ok|done].
  - apply andb_true_iff in Hk as [Hok Hn]. destruct (normalize_time v.1 v.2) as [t'| |] eqn:Ht'; try done.
    destruct (normalize_time_ok _ _ _ Hok Ht') as [Hok' <-]. cbn [mbind res_bind].
    eexists. split; [done|]. split_and!; [by apply (time_wire_ok 0)|intros; by apply time_wire_ok|done].
  - eexists. split; [done|]. split_and!; [by apply (date_wire_ok 0)|intros; by apply date_wire_ok|done].
  - apply andb_true_iff in Hk as [Hd Ht].
    eexists. split; [done|]. split_and!; [by apply (timestamp_wire_ok 0)|intros; by apply timestamp_wire_ok|done].
  - apply andb_true_iff in Hk as [Hok Hn].
    destruct (normalize_timestamp v.1.1 v.1.2 v.2) as [[d' t']| |] eqn:Ht'; try done.
    destruct (normalize_timestamp_ok _ _ _ _ _ Hok Ht') as (Hd & Ht & <-). cbn [mbind res_bind fst snd].
    eexists. split; [done|]. split_and!; [by apply (timestamp_wire_ok 0)|intros; by apply timestamp_wire_ok|done].
Qed.

(** A fixed-width cell, NULL or not, is written as a piece that reads as its row. *)
Lemma append_int_ok t cell z :
  is_int_type t = true → type_ok t → nullable cell (present_int t cell) = Some z →
  ∃ out, append_inline_wire_value cell t = Ok out ∧ int_cell t z out.
Proof.
  intros Ht Hok Hz. unfold nullable in Hz. destruct (get_str cell) as [[text|]| |] eqn:Hs; try done.
  - destruct (present_int t cell) as [v|] eqn:Hv; [|done]. injection Hz as <-. fold (appended t cell v).
    destruct t; try done; first [eapply present_numeric; [set_solver|done..]|by eapply present_decimal
      |eapply present_interval; [set_solver|done..]|eapply present_temporal; [set_solver|done..]].
  - injection Hz as <-. destruct (null_int_cell t Ht Hok) as (out & Ho & Hc). exists out. split; [|done].
    unfold append_inline_wire_value. rewrite Hs. simpl. exact Ho.
Qed.
End cells.

(** ** Columns *)

Lemma int_cells_written t n from_le null zs outs :
  int_format t = (n, λ _ o, Ok (unless null (from_le o))) → Forall2 (int_cell t) zs outs →
  cells_written n (λ o, unless null (from_le o)) zs outs.
Proof.
  intros Hf Hc. eapply Forall2_impl; [exact Hc|]. intros z out (Hl & Hr & _). rewrite Hf in Hl, Hr.
  split; [done|]. specialize (Hr 0%nat). simpl in Hr. congruence.
Qed.

Lemma int_cells_decoded t n g zs outs :
  int_format t = (n, g) → Forall2 (int_cell t) zs outs → cells_decoded n g zs outs.
Proof.
  intros Hf Hc. eapply Forall2_impl; [exact Hc|]. intros z out (Hl & Hr & _). by rewrite Hf in Hl, Hr.
Qed.

Lemma int_cells_below t p zs outs :
  precision_of t = Some p → Forall2 (int_cell t) zs outs → Forall (below (10 ^ p)) zs.
Proof. intros Hp Hc. induction Hc as [|z out zs outs (_ & _ & Hb) _ IH]; constructor; auto. Qed.

Section columns.
Context `{ArrowLaws}.

Lemma temporal_column n g dt zs outs (decode : bytes → nat → res DecodeError ArrayRef) :
  (∀ data rows, decode data rows =
     (_ ← expect_fixed data (Z.of_nat rows) (Z.of_nat n);
      values ← mapi_res g 0 (chunks n data); Ok (option_column dt values))) →
  (0 < n)%nat → cells_decoded n g zs outs → len zs * Z.of_nat n ≤ usize_max →
  ∃ a, decode (concat outs) (length zs) = Ok a ∧ array_rows a = on_rows VInt zs.
Proof.
  intros Hd Hn Hc Hmax. rewrite Hd. destruct (cells_decoded_ok _ _ _ _ 0 Hn Hc Hmax) as [-> ->].
  eexists. split; [done|]. apply option_column_rows.
Qed.

Lemma int_column t zs outs :
  is_int_type t = true → type_ok t → Forall2 (int_cell t) zs outs → len zs * 16 ≤ usize_max →
  ∃ a, decode_column t (concat outs) (length zs) = Ok a ∧ array_rows a = on_rows VInt zs.
Proof.
  intros Ht Hok Hc Hmax. destruct t; try done; cbn [decode_column].
  all: try (apply decode_primitive_written; [lia| |lia];
    match type of Hc with Forall2 (int_cell ?t) _ _ => by apply (int_cells_written t) end).
  - eapply (decode_decimal_written 38 0 true 16); [lia|lia|done|lia| | |lia].
    + by apply (int_cells_written MHugeInt).
    + by apply (int_cells_below MHugeInt _ _ outs).
  - destruct Hok as [Hp Hs]. destruct (decimal_backing_ok _ Hp) as (n & Hn & Hw & Hpos & _).
    unfold decimal_scale. replace (signed_range 8 scale) with true by (symmetry; range_lia). cbn [mbind res_bind].
    assert (n ≤ 16)%nat by (unfold decimal_backing in Hn; repeat case_match; simplify_eq; lia).
    eapply (decode_decimal_written _ _ false n); [lia|lia|done|done| | |nia].
    + apply (int_cells_written (MDecimal precision scale)); [|done]. unfold int_format. by rewrite Hn.
    + by apply (int_cells_below (MDecimal precision scale) _ _ outs).
  - apply (temporal_column 8 time_value (DTime64 Microsecond)); [done|lia|by apply (int_cells_decoded MTime)|lia].
  - apply (temporal_column 8 time_value (DTime64 Microsecond)); [done|lia|by apply (int_cells_decoded MTimeTz)|lia].
  - apply (temporal_column 4 date_value DDate32); [done|lia|by apply (int_cells_decoded MDate)|lia].
  - apply (temporal_column 12 timestamp_value (DTimestamp Microsecond None) _ _
             (λ data rows, decode_timestamp data rows false));
      [done|lia|by apply (int_cells_decoded MTimestamp)|lia].
  - apply (temporal_column 12 timestamp_value (DTimestamp Microsecond (Some "UTC"%string)) _ _
             (λ data rows, decode_timestamp data rows true));
      [done|lia|by apply (int_cells_decoded MTimestampTz)|lia].
Qed.
End columns.

(** ** Booleans and variable-width cells *)

(** A column of pieces: what [decode_column] makes of them. *)
Definition decodes_as `{Arrow} (t : MonetType) (outs : list bytes) (rows : list (option value)) : Prop :=
  ∃ a, decode_column t (concat outs) (length rows) = Ok a ∧ array_rows a = rows.

Definition bool_byte (cell : option bool) : Z :=
  match cell with None => 128 | Some true => 1 | Some false => 0 end.

Lemma concat_singletons {A B} (f : A → B) (l : list A) : concat ((λ x, [f x]) <$> l) = f <$> l.
Proof. induction l as [|x l IH]; [done|]. rewrite !fmap_cons. cbn [concat app]. by f_equal. Qed.

Lemma encode_rows_pieces {A} (f : nat → A → res EncodeError bytes) rows outs :
  Forall2 (λ row out, ∀ i, f i row = Ok out) rows outs → encode_rows f rows = Ok (concat outs).
Proof.
  intros Hp. unfold encode_rows. enough (∀ i, mapi_res f i rows = Ok outs) as -> by done.
  induction Hp as [|row out rows outs Hf _ IH]; intros i; simpl; [done|]. by rewrite Hf, IH.
Qed.

(** The bytes a text or blob cell takes on the wire. *)
Definition text_piece (v : option bytes) : bytes := match v with Some s => s ++ [0] | None => [128; 0] end.

Section pieces.
Context `{ArrowLaws, InlineLibsLaws}.

Lemma bool_column rows :
  len rows ≤ usize_max → decodes_as MBool ((λ b, [bool_byte b]) <$> rows) (on_rows VBool rows).
Proof.
  intros Hmax. unfold decodes_as. cbn [decode_column].
  set (values := default false <$> rows). set (nulls := null_buffer ((λ o, bool_decide (is_Some o)) <$> rows)).
  assert (cells values nulls = rows) as Hc by apply cells_of_options.
  destruct (encode_bool_roundtrip values nulls) as (a & Ha & Hr); [unfold values; by rewrite length_fmap|].
  exists a. rewrite Hc in Hr. split; [|done]. unfold encode_bool in Ha. rewrite Hc in Ha.
  unfold values in Ha. rewrite length_fmap in Ha. unfold on_rows. rewrite length_fmap.
  by rewrite concat_singletons.
Qed.

Lemma text_column t rows :
  is_text t = true → Forall text_ok rows → Forall nul_free rows → len (concat (text_piece <$> rows)) ≤ i32_max →
  decodes_as t (text_piece <$> rows) (on_rows VBytes rows).
Proof.
  intros Ht Hok Hnul Hmax. unfold decodes_as, on_rows. rewrite length_fmap.
  assert (Forall2 (λ block piece, encode_strings block = Ok piece) ((λ v, [v]) <$> rows) (text_piece <$> rows)) as Hp.
  { apply Forall2_fmap_2, Forall_Forall2_diag, Forall_forall. intros v Hv. rewrite Forall_forall in Hnul.
    specialize (Hnul _ Hv). unfold nul_free in Hnul. destruct v as [s|]; [|done].
    simpl in *. unfold encode_strings. simpl. rewrite Hnul, lookup_empty; simpl; by rewrite app_nil_r. }
  assert (value_bytes_of rows ≤ len (concat (text_piece <$> rows))) as Hb.
  { clear. induction rows as [|v rows IH]; [done|]. rewrite fmap_cons. cbn [concat]. rewrite length_app.
    change (value_bytes_of (v :: rows)) with (value_bytes_of ([v] ++ rows)). rewrite value_bytes_of_app.
    destruct v; unfold value_bytes_of at 1; simpl; rewrite ?length_app; simpl; lia. }
  pose proof (decode_encoded_blocks _ _ Hp) as Hd. rewrite (concat_singletons id), list_fmap_id in Hd.
  exists (ABytes DUtf8 rows). split; [|done].
  destruct t; try done; cbn [decode_column]; rewrite Hd; try done; unfold text_fits; lia.
Qed.

Lemma blob_column rows :
  len (concat (encode_blob <$> rows)) ≤ i32_max → decodes_as MBlob (encode_blob <$> rows) (on_rows VBytes rows).
Proof.
  intros Hmax. unfold decodes_as, on_rows. rewrite length_fmap. exists (ABytes DBinary rows). split; [|done].
  by apply encode_blobs_roundtrip.
Qed.

(** ** A column of cells *)

Lemma Forall2_choice {A B C} (P : A → C → Prop) (Q : B → C → Prop) l k :
  Forall2 (λ a b, ∃ c, P a c ∧ Q b c) l k → ∃ cs, Forall2 P l cs ∧ Forall2 Q k cs.
Proof.
  induction 1 as [|a b l k (c & HP & HQ) _ (cs & IH1 & IH2)]; [by exists []|].
  exists (c :: cs). by split; constructor.
Qed.

Lemma as_row_inv {A} (f : A → value) (h : InlineCell → option (option A)) cs vs :
  Forall2 (λ cell v, as_row f (h cell) = Some v) cs vs →
  ∃ rows, vs = on_rows f rows ∧ Forall2 (λ cell row, h cell = Some row) cs rows.
Proof.
  induction 1 as [|cell v cs vs Hv _ (rows & -> & IH)]; [by exists []|].
  unfold as_row in Hv. destruct (h cell) as [row|] eqn:Hr; [|done]. injection Hv as <-.
  exists (row :: rows). split; [done|]. by constructor.
Qed.

(** An upper bound of the bytes a variable-width column takes. *)
Definition variable_bytes (vs : list (option value)) : Z :=
  foldr (λ v n, 8 + len (match v with Some (VBytes s) => s | _ => [] end) + n) 0 vs.

(** The column is within the limits of its offsets and of the address space. *)
Definition column_fits (t : MonetType) (vs : list (option value)) : Prop :=
  len vs * 16 ≤ usize_max ∧
  match t with MVarchar _ | MUrl | MJson | MBlob | MInet4 | MInet6 => variable_bytes vs ≤ i32_max | _ => True end.

(** The pieces of a column, and what they decode to. *)
Definition column_pieces (t : MonetType) (cs : list InlineCell) (vs : list (option value)) : Prop :=
  ∃ outs, Forall2 (λ cell out, append_inline_wire_value cell t = Ok out) cs outs ∧ decodes_as t outs vs.

Lemma append_null_cell cell t : get_str cell = Ok None → append_inline_wire_value cell t = append_null_wire_value t.
Proof. intros Hs. unfold append_inline_wire_value. by rewrite Hs. Qed.

(** A column whose cells are each written as [piece] of their row. *)
Lemma pieces_column {A} t (f : A → value) (h : InlineCell → option (option A)) (piece : option A → bytes) cs rows :
  Forall2 (λ cell row, h cell = Some row) cs rows →
  (∀ cell row, row ∈ rows → h cell = Some row → append_inline_wire_value cell t = Ok (piece row)) →
  decodes_as t (piece <$> rows) (on_rows f rows) → column_pieces t cs (on_rows f rows).
Proof.
  intros Hr Hp Hd. exists (piece <$> rows). split; [|done]. apply Forall2_fmap_r.
  clear Hd. induction Hr as [|cell row cs rows Hc _ IH]; constructor.
  - apply Hp; [set_solver|done].
  - apply IH. intros; apply Hp; [set_solver|done].
Qed.

Lemma bool_cells cs vs :
  Forall2 (λ cell v, inline_value MBool cell = Some v) cs vs → len vs * 16 ≤ usize_max → column_pieces MBool cs vs.
Proof.
  intros Hv Hmax. apply as_row_inv in Hv as (rows & -> & Hr). unfold on_rows in Hmax. rewrite length_fmap in Hmax.
  eapply (pieces_column _ _ _ (λ b, [bool_byte b])); [exact Hr| |apply bool_column; lia].
  intros cell row _ Hc. unfold nullable in Hc. destruct (get_str cell) as [[text|]| |] eqn:Hs; try done.
  - destruct (got (get_bool cell)) as [b|] eqn:Hb; [|done]. injection Hc as <-. apply got_fetch in Hb.
    unfold append_inline_wire_value. rewrite Hs. simpl. rewrite Hb. by destruct b.
  - injection Hc as <-. by apply append_null_cell.
Qed.

Lemma int_cells t cs vs :
  is_int_type t = true → type_ok t →
  Forall2 (λ cell v, as_row VInt (nullable cell (present_int t cell)) = Some v) cs vs →
  len vs * 16 ≤ usize_max → column_pieces t cs vs.
Proof.
  intros Ht Hok Hv Hmax. apply as_row_inv in Hv as (rows & -> & Hr).
  unfold on_rows in Hmax. rewrite length_fmap in Hmax.
  destruct (Forall2_choice (λ cell out, append_inline_wire_value cell t = Ok out) (int_cell t) cs rows)
    as (outs & Ho & Hc).
  { eapply Forall2_impl; [exact Hr|]. intros. by apply append_int_ok. }
  exists outs. split; [done|]. unfold decodes_as, on_rows. rewrite length_fmap. by apply int_column.
Qed.

Lemma value_bytes_variable rows : value_bytes_of rows ≤ variable_bytes (on_rows VBytes rows).
Proof.
  induction rows as [|v rows IH]; [done|]. unfold on_rows in *. rewrite fmap_cons. cbn [value_bytes_of variable_bytes foldr].
  fold (value_bytes_of rows) (variable_bytes ((λ row : option bytes, VBytes <$> row) <$> rows)). destruct v; simpl; lia.
Qed.

Lemma variable_bytes_rows rows :
  len (concat (text_piece <$> rows)) ≤ variable_bytes (on_rows VBytes rows) ∧
  len (concat (encode_blob <$> rows)) ≤ variable_bytes (on_rows VBytes rows) ∧
  Forall (λ v, len (default [] v) ≤ variable_bytes (on_rows VBytes rows)) rows ∧
  0 ≤ variable_bytes (on_rows VBytes rows).
Proof.
  induction rows as [|v rows (IH1 & IH2 & IH3 & IH4)]; [done|]. unfold on_rows in *. rewrite !fmap_cons.
  cbn [variable_bytes foldr concat]. fold (variable_bytes ((λ row : option bytes, VBytes <$> row) <$> rows)).
  rewrite !length_app. pose proof (encode_blob_length v). split_and!.
  - destruct v; simpl; rewrite ?length_app; simpl; lia.
  - destruct v; simpl in *; lia.
  - constructor; [destruct v; simpl; lia|]. eapply Forall_impl; [exact IH3|]. simpl. intros. destruct v; simpl; lia.
  - destruct v; simpl; lia.
Qed.

Lemma text_cells t cs vs :
  is_text t = true → Forall2 (λ cell v, inline_value t cell = Some v) cs vs →
  variable_bytes vs ≤ i32_max → column_pieces t cs vs.
Proof.
  intros Ht Hv Hmax.
  assert (Forall2 (λ cell v, as_row VBytes (nullable cell (present_bytes t cell)) = Some v) cs vs) as Hv'
    by (by destruct t).
  apply as_row_inv in Hv' as (rows & -> & Hr). clear Hv.
  assert (∀ cell row, nullable cell (present_bytes t cell) = Some row →
    append_inline_wire_value cell t = Ok (text_piece row) ∧ text_ok row ∧ nul_free row) as Hcell.
  { intros cell row Hc. unfold nullable in Hc. destruct (get_str cell) as [[text|]| |] eqn:Hs; try done.
    - assert (present_bytes t cell = keep (utf8_valid text && negb (existsb (λ b, b =? 0) text)) text) as Hp
        by (destruct t; try done; cbn [present_bytes]; by rewrite Hs).
      rewrite Hp in Hc. destruct (keep _ _) as [s|] eqn:Hk; [|done]. injection Hc as <-.
      apply keep_some in Hk as [Hk <-]. apply andb_true_iff in Hk as [Hu Hn]. apply negb_true_iff in Hn.
      split_and!; [|done..]. unfold append_inline_wire_value. rewrite Hs. by destruct t.
    - injection Hc as <-. rewrite append_null_cell by done. split_and!; [by destruct t|done..]. }
  assert (Forall (λ row, text_ok row ∧ nul_free row) rows) as Hrows.
  { clear -Hr Hcell. induction Hr as [|cell row cs rows Hc _ IH]; constructor; [by eapply Hcell|done]. }
  apply Forall_and in Hrows as [Hok Hnul]. destruct (variable_bytes_rows rows) as (Hb & _).
  eapply (pieces_column _ _ _ text_piece); [exact Hr|intros cell row _ Hc; by apply Hcell|].
  apply text_column; try done. lia.
Qed.

Lemma blob_cells cs vs :
  Forall2 (λ cell v, inline_value MBlob cell = Some v) cs vs → variable_bytes vs ≤ i32_max →
  column_pieces MBlob cs vs.
Proof.
  intros Hv Hmax. apply as_row_inv in Hv as (rows & -> & Hr).
  destruct (variable_bytes_rows rows) as (_ & Hb & Hlen & _). rewrite Forall_forall in Hlen.
  eapply (pieces_column _ _ _ encode_blob); [exact Hr| |apply blob_column; lia].
  intros cell row Hin Hc. specialize (Hlen _ Hin). unfold nullable in Hc.
  destruct (get_str cell) as [[text|]| |] eqn:Hs; try done.
  - destruct (present_bytes MBlob cell) as [s|] eqn:Hp; [|done]. injection Hc as <-. apply got_fetch in Hp.
    unfold append_inline_wire_value. rewrite Hs. simpl in *. rewrite Hp. simpl.
    replace (signed_range 64 (len s)) with true by (symmetry; range_lia). done.
  - injection Hc as <-. by apply append_null_cell.
Qed.

(** The wire form of a UUID or address cell, and what it decodes to. *)
Lemma uuid_cells cs vs :
  Forall2 (λ cell v, inline_value MUuid cell = Some v) cs vs → len vs * 16 ≤ usize_max → column_pieces MUuid cs vs.
Proof.
  intros Hv Hmax. apply as_row_inv in Hv as (rows & -> & Hr). unfold on_rows in Hmax. rewrite length_fmap in Hmax.
  set (piece := default (replicate 16 0)).
  assert (∀ cell row, nullable cell (present_bytes MUuid cell) = Some row →
    append_inline_wire_value cell MUuid = Ok (piece row) ∧
    ∀ s, row = Some s → length s = 16%nat ∧ forallb (λ b, b =? 0) s = false) as Hcell.
  { intros cell row Hc. unfold nullable in Hc. destruct (get_str cell) as [[text|]| |] eqn:Hs; try done.
    - cbn [present_bytes] in Hc. rewrite Hs in Hc. simpl in Hc.
      destruct (parse_uuid text) as [octets|] eqn:Hp; simpl in Hc; [|done].
      destruct (keep _ _) as [s|] eqn:Hk; [|done]. injection Hc as <-. apply keep_some in Hk as [Hk <-].
      unfold append_inline_wire_value. rewrite Hs. simpl. rewrite Hp. split; [done|].
      intros s [= <-]. split; [by eapply parse_uuid_length|]. by apply negb_true_iff.
    - injection Hc as <-. by rewrite append_null_cell. }
  assert (Forall (λ row, ∀ s, row = Some s → length s = 16%nat ∧ forallb (λ b, b =? 0) s = false) rows) as Hrows.
  { clear -Hr Hcell. induction Hr as [|cell row cs rows Hc _ IH]; constructor; [by eapply Hcell|done]. }
  eapply (pieces_column _ _ _ piece); [exact Hr|intros cell row _ Hc; by apply Hcell|].
  unfold decodes_as, on_rows. rewrite length_fmap. exists (ABytes (DFixedSizeBinary 16) rows). split; [|done].
  apply encode_uuid_roundtrip; [|apply encode_rows_pieces|done].
  - eapply Forall_impl; [exact Hrows|]. intros row Hrow s Hs. by apply Hrow.
  - apply Forall2_fmap_r, Forall_Forall2_diag. eapply Forall_impl; [exact Hrows|].
    intros [s|] Hrow i; [|done]. destruct (Hrow s eq_refl) as [_ Hz]. by rewrite Hz.
Qed.

(** The two address types: width, parser, printer. *)
Inductive address_type : MonetType → nat → (bytes → option bytes) → (bytes → bytes) → Prop :=
| address_inet4 : address_type MInet4 4 parse_ipv4 fmt_ipv4
| address_inet6 : address_type MInet6 16 parse_ipv6 fmt_ipv6.

Definition address_text (parse : bytes → option bytes) (fmt : bytes → bytes) (v : option bytes) : option bytes :=
  (λ s, fmt (default [] (parse s))) <$> v.

(** What one address cell is written as: a cell of [encode_addresses]. *)
Lemma address_cell t width parse fmt cell v :
  address_type t width parse fmt → inline_value t cell = Some v →
  ∃ source, ∃ out, append_inline_wire_value cell t = Ok out ∧
    v = VBytes <$> address_text parse fmt source ∧
    out = match source with Some s => default [] (parse s) | None => replicate width 0 end ∧
    ∀ s, source = Some s → ∃ octets, parse s = Some octets ∧ forallb (λ b, b =? 0) octets = false.
Proof.
  intros Ht Hv.
  assert (inline_value t cell = as_row VBytes (nullable cell (present_bytes t cell))) as Hi by (by destruct Ht).
  rewrite Hi in Hv. unfold as_row, nullable in Hv. destruct (get_str cell) as [[text|]| |] eqn:Hs; try done.
  - assert (present_bytes t cell = (octets ← parse text; keep (nonzero octets) (fmt octets))) as Hp
      by (destruct Ht; cbn [present_bytes]; by rewrite Hs).
    rewrite Hp in Hv. destruct (parse text) as [octets|] eqn:Ho; simpl in Hv; [|done].
    destruct (keep _ _) as [s|] eqn:Hk; [|done]. injection Hv as <-. apply keep_some in Hk as [Hk <-].
    apply negb_true_iff in Hk. exists (Some text), octets. unfold append_inline_wire_value. rewrite Hs.
    simpl. rewrite Ho. split_and!; [destruct Ht; simpl; by rewrite Ho|done..|]. intros s [= <-]. by exists octets.
  - injection Hv as <-. exists None, (replicate width 0). rewrite append_null_cell by done.
    split_and!; [by destruct Ht|done..].
Qed.

Lemma address_cells t width parse fmt cs vs :
  address_type t width parse fmt → Forall2 (λ cell v, inline_value t cell = Some v) cs vs →
  len vs * 16 ≤ usize_max → variable_bytes vs ≤ i32_max → column_pieces t cs vs.
Proof.
  intros Ht Hv Hmax Hfit.
  destruct (Forall2_choice (λ cell so, append_inline_wire_value cell t = Ok so.2)
    (λ v so, v = VBytes <$> address_text parse fmt so.1 ∧
       so.2 = match so.1 with Some s => default [] (parse s) | None => replicate width 0 end ∧
       ∀ s, so.1 = Some s → ∃ octets, parse s = Some octets ∧ forallb (λ b, b =? 0) octets = false) cs vs)
    as (pairs & Ha & Hp).
  { eapply Forall2_impl; [exact Hv|]. intros cell v Hc.
    destruct (address_cell _ _ _ _ _ _ Ht Hc) as (source & out & Ho). by exists (source, out). }
  exists (pairs.*2). split; [by apply Forall2_fmap_r|].
  assert (vs = on_rows VBytes (address_text parse fmt <$> pairs.*1)) as ->.
  { clear -Hp. induction Hp as [|v so vs pairs (-> & _) _ IH]; [done|]. simpl. by f_equal. }
  assert (length pairs = length cs) as Hl by (apply Forall2_length in Ha; lia).
  unfold decodes_as, on_rows in *. rewrite !length_fmap in *.
  exists (ABytes DUtf8 (address_text parse fmt <$> pairs.*1)). split; [|done].
  assert (∀ s octets, parse s = Some octets → length octets = width) as Hwidth
    by (destruct Ht; [apply parse_ipv4_length|apply parse_ipv6_length]).
  assert (∃ m, encode_addresses width parse m (pairs.*1) = Ok (concat (pairs.*2))) as (m & He).
  { exists EmptyString. apply encode_rows_pieces, Forall2_fmap_2, Forall_Forall2_diag. clear -Hp.
    induction Hp as [|v so vs pairs (_ & Ho & Hs) _ IH]; constructor; [|done]. intros i. rewrite Ho.
    destruct so as [[s|] o]; simpl in *; [|done]. destruct (Hs s eq_refl) as (octets & -> & Hz). simpl. by rewrite Hz. }
  assert (len (concat pairs.*2) ≤ usize_max) as Hsize.
  { rewrite (length_concat_const width); [rewrite length_fmap; destruct Ht; lia|].
    apply Forall_fmap. clear -Hp Hwidth. induction Hp as [|v [[s|] o] vs pairs (_ & Ho & Hs) _ IH];
      constructor; try done; simpl in *; subst o; [|apply length_replicate].
    destruct (Hs s eq_refl) as (octets & Hoct & _). rewrite Hoct. simpl. by eapply Hwidth. }
  apply (encode_addresses_roundtrip _ _ fmt) in He; [|destruct Ht; [by left|by right]|done|done|].
  2: { etransitivity; [apply (value_bytes_variable (address_text parse fmt <$> pairs.*1))|exact Hfit]. }
  rewrite length_fmap in He. destruct Ht; simpl; exact He.
Qed.

(** Every column whose cells are values of its type is written, and decodes to them. *)
Lemma column_cells t cs vs :
  type_ok t → Forall2 (λ cell v, inline_value t cell = Some v) cs vs → column_fits t vs → column_pieces t cs vs.
Proof.
  intros Hok Hv [Hmax Hfit]. destruct t;
    try (by apply int_cells); try (by apply text_cells); try (by apply blob_cells).
  - by apply bool_cells.
  - by eapply address_cells; [constructor|..].
  - by eapply address_cells; [constructor|..].
  - by apply uuid_cells.
Qed.

Lemma column_type_ok c f : column_ok c → field_for_column c = Ok f → type_ok (column_sql_type c).
Proof.
  intros Hc Hf. apply field_for_column_ok in Hf as [Hf _]. unfold column_ok in Hc.
  destruct (column_sql_type c); try done. simpl in *. apply decimal_data_type_ok in Hf as (_ & Hp & Hs).
  unfold unsigned_range in Hc. bool_prop. lia.
Qed.

(** ** The loop over the rows *)

(** The pieces of every column, column by column, for the rows. *)
Fixpoint pieces_of (index : nat) (columns : list ResultColumn) (pieces : list (list bytes))
    (rows : list inline_row) : Prop :=
  match columns, pieces with
  | [], [] => True
  | c :: columns, outs :: pieces =>
      Forall2 (λ (row : inline_row) out, append_inline_wire_value (row index) (column_sql_type c) = Ok out) rows outs ∧
      pieces_of (S index) columns pieces rows
  | _, _ => False
  end.

Lemma append_row_ok row rows index columns pieces buffers :
  pieces_of index columns pieces (row :: rows) → length buffers = length columns →
  ∃ outs pieces', append_inline_row row index columns buffers = Ok (zip_with app buffers outs) ∧
    pieces = zip_with cons outs pieces' ∧ length outs = length columns ∧ pieces_of index columns pieces' rows.
Proof.
  revert index pieces buffers; induction columns as [|c columns IH]; intros index [|outs pieces] [|b buffers] Hp Hl;
    try done; simpl in *.
  { by exists [], []. }
  destruct Hp as [Hc Hp]. inversion Hc as [|? out ? outs' Ho Hrest]; subst.
  destruct (IH (S index) pieces buffers Hp ltac:(lia)) as (os & ps & Hr & -> & Hlen & Hps).
  exists (out :: os), (outs' :: ps). rewrite Ho. cbn [mbind res_bind]. rewrite Hr. simpl. split_and!; try done. lia.
Qed.

Lemma pieces_of_nil index columns pieces buffers :
  pieces_of index columns pieces [] → length buffers = length columns →
  zip_with (λ b outs, b ++ concat outs) buffers pieces = buffers.
Proof.
  revert index pieces buffers; induction columns as [|c columns IH]; intros index [|outs pieces] [|b buffers] Hp Hl;
    try done; simpl in *. destruct Hp as [Hc Hp]. inversion Hc; subst. simpl. rewrite app_nil_r. f_equal.
  eapply IH; [exact Hp|lia].
Qed.

Lemma inline_loop_ok columns expected k rows pieces buffers :
  pieces_of 0 columns pieces rows → length buffers = length columns → (k + length rows ≤ expected)%nat →
  inline_loop columns expected k buffers (Ok <$> rows) =
  Ok ((k + length rows)%nat, zip_with (λ b outs, b ++ concat outs) buffers pieces).
Proof.
  revert k pieces buffers; induction rows as [|row rows IH]; intros k pieces buffers Hp Hl Hk.
  { simpl. by rewrite (pieces_of_nil _ _ _ _ Hp Hl), Nat.add_0_r. }
  destruct (append_row_ok _ _ _ _ _ _ Hp Hl) as (outs & ps & Hr & -> & Hlen & Hps).
  cbn [fmap list_fmap inline_loop map_err mbind res_bind]. simpl in Hk.
  rewrite (proj2 (Nat.leb_gt _ _)) by lia. rewrite Hr. cbn [mbind res_bind]. rewrite (IH _ ps); [|done| |lia].
  - f_equal. f_equal; [simpl; lia|]. clear. revert outs ps.
    induction buffers as [|b buffers IH]; intros [|o outs] [|p ps]; try done. simpl. rewrite <- app_assoc. by f_equal.
  - rewrite length_zip_with. lia.
Qed.

(** ** The batch *)

Lemma inline_array_fits c f data vs a :
  column_ok c → field_for_column c = Ok f → decode_column (column_sql_type c) data (length vs) = Ok a →
  array_rows a = vs → fits (length vs) f a.
Proof.
  intros Hc Hf Hd Hr. apply field_for_column_ok in Hf as [Ht Hn]. unfold fits.
  destruct (is_inet (column_sql_type c)) eqn:Hi.
  - assert (∃ l, a = ABytes DUtf8 l ∧ field_data_type f = DUtf8) as (l & -> & Hdt).
    { destruct (column_sql_type c); try done; simpl in Ht; injection Ht as Ht; cbn [decode_column] in Hd;
        unfold decode_inet in Hd; apply bind_ok in Hd as (w & _ & Hd);
        cbn zeta in Hd; destruct (inet_loop _ _ _); simplify_eq/=; eauto. }
    simpl in Hr. subst vs. unfold on_rows. by rewrite length_fmap.
  - destruct (decode_column_shape _ _ _ _ _ Hc ltac:(by rewrite Hi) Ht Hd) as [-> ->]. done.
Qed.

(** What is asked of the cells of a column. *)
Definition column_values (c : ResultColumn) (index : nat) (rows : list inline_row) (vs : list (option value)) : Prop :=
  Forall2 (λ (row : inline_row) v, inline_value (column_sql_type c) (row index) = Some v) rows vs ∧
  column_fits (column_sql_type c) vs.

Lemma inline_columns index columns schema (values : list (list (option value))) rows :
  Forall column_ok columns → Forall2 (λ c f, field_for_column c = Ok f) columns schema →
  length values = length columns →
  (∀ i c vs, columns !! i = Some c → values !! i = Some vs → column_values c (index + i) rows vs) →
  ∃ pieces arrays, pieces_of index columns pieces rows ∧
    Forall2 (λ '(c, data) a, decode_column (column_sql_type c) data (length rows) = Ok a)
      (zip columns ((λ outs : list bytes, concat outs) <$> pieces)) arrays ∧
    array_rows <$> arrays = values ∧ Forall2 (fits (length rows)) schema arrays.
Proof.
  intros Hok Hs. revert index values Hok. induction Hs as [|c f columns schema Hf _ IH];
    intros index [|vs values] Hok Hl Hv; try done.
  { exists [], []. split_and!; try done; constructor. }
  inversion Hok as [|?? Hc Hcs]; subst.
  destruct (IH (S index) values Hcs) as (pieces & arrays & Hp & Hd & Hr & Hfit); [simpl in *; lia| |].
  { intros i c' vs' Hi Hvs. specialize (Hv (S i) c' vs' Hi Hvs). by rewrite Nat.add_succ_r in Hv. }
  destruct (Hv 0%nat c vs eq_refl eq_refl) as [Hvs Hfits]. rewrite Nat.add_0_r in Hvs.
  pose proof (Forall2_length _ _ _ Hvs) as Hlen.
  destruct (column_cells (column_sql_type c) ((λ row : inline_row, row index) <$> rows) vs)
    as (outs & Ho & a & Ha & Hrows); [by eapply column_type_ok|by apply Forall2_fmap_l|done|].
  apply Forall2_fmap_l in Ho. exists (outs :: pieces), (a :: arrays). simpl. rewrite Hlen. split_and!; try done.
  - constructor; [done|]. by rewrite <- Hlen.
  - by f_equal.
  - constructor; [by eapply inline_array_fits|]. by rewrite <- Hlen.
Qed.

(** C24. Inline rows decode to what their cells say: when every cell is NULL or
    a value of its column's type, the batch is returned with the schema of
    the columns and, column by column, exactly the values of the cells: NULL
    where the cell is NULL, numbers, texts and bytes unchanged, times and
    timestamps with a zone moved to UTC, addresses in their canonical text.  The
    column fits: its text or bytes (of addresses the canonical text) with eight
    bytes a row are at most 2^31 - 1. *)
Theorem inline_rows_decode columns schema rows values :
  columns ≠ [] → Forall column_ok columns → schema_for_columns columns = Ok schema →
  length values = length columns →
  (∀ i c vs, columns !! i = Some c → values !! i = Some vs → column_values c i rows vs) →
  ∃ arrays, decode_inline_rows (Ok <$> rows) columns (length rows) =
      Ok (mkRecordBatch schema arrays (length rows)) ∧
    array_rows <$> arrays = values.
Proof.
  intros Hne Hok Hs Hl Hv. unfold schema_for_columns in Hs. pose proof (proj1 (map_res_ok _ _ _) Hs) as Hs'.
  destruct (inline_columns 0 columns schema values rows Hok Hs' Hl Hv) as (pieces & arrays & Hp & Hd & Hr & Hfit).
  exists arrays. split; [|done]. unfold decode_inline_rows. rewrite Hs. cbn [mbind res_bind].
  rewrite (inline_loop_ok _ _ _ _ pieces) by (try done; by rewrite length_fmap).
  cbn [mbind res_bind Nat.add]. rewrite Nat.eqb_refl. cbn [negb].
  assert (zip_with (λ b outs, b ++ concat outs) ((λ _, []) <$> columns) pieces = (λ outs : list bytes, concat outs) <$> pieces) as ->.
  { clear -Hp. revert pieces Hp. generalize 0%nat. induction columns as [|c columns IH]; intros k [|outs pieces] Hp;
      try done. simpl in *. f_equal. by eapply IH, Hp. }
  assert (decode_columns columns ((λ outs : list bytes, concat outs) <$> pieces) (length rows) = Ok arrays) as ->.
  { apply map_res_ok. eapply Forall2_impl; [exact Hd|]. by intros [c data] a. }
  cbn [mbind res_bind].
  unfold record_batch_try_new, record_batch. destruct arrays as [|a arrays].
  { destruct columns; [done|]. by destruct values. }
  assert (array_len a = length rows) as -> by (inversion Hfit as [|? ? ? ? (_ & _ & ?)]; by subst).
  by rewrite record_batch_accepts.
Qed.
End pieces.

(** ** An executable instance *)

Lemma calendar_date_days n : date_days (calendar_date n) = n.
Proof.
  assert (∀ k, 0 ≤ k → date_days (calendar_date k) = k ∧ date_days (calendar_date (- k)) = - k) as Hk.
  { apply (natlike_ind (λ k, _ ∧ _)); [done|]. intros k Hk [IH1 IH2]. split.
    - rewrite <- Z.add_1_r, calendar_date_next, date_days_next by apply calendar_date_valid. lia.
    - pose proof (calendar_date_next (- Z.succ k)) as Hn. replace (- Z.succ k + 1) with (- k) in Hn by lia.
      rewrite Hn, date_days_next in IH2 by apply calendar_date_valid. lia. }
  destruct (Z.le_gt_cases 0 n); [by apply Hk|]. replace n with (- (- n)) at 1 by lia.
  rewrite (proj2 (Hk (- n) ltac:(lia))). lia.
Qed.

Definition hex_value (b : Z) : option Z :=
  if is_ascii_digit b then Some (b - 48)
  else if (97 <=? b) && (b <=? 102) then Some (b - 87)
  else if (65 <=? b) && (b <=? 70) then Some (b - 55) else None.

Fixpoint hex_pairs (l : bytes) : option bytes :=
  match l with
  | [] => Some []
  | a :: b :: l => x ← hex_value a; y ← hex_value b; rest ← hex_pairs l; Some (16 * x + y :: rest)
  | _ => None
  end.

#[global] Instance calendar_libs : InlineLibs := {|
  from_ymd_opt y m d := if valid_ymd y m d then Some (mkDate y m d) else None;
  from_hms_micro_opt h m s us :=
    if (0 <=? h) && (h <? 24) && (0 <=? m) && (m <? 60) && (0 <=? s) && (s <? 60) && (0 <=? us)
       && ((us <? 1000000) || (s =? 59) && (us <? 2000000))
    then Some (mkNaiveTime h m s (us * 1000)) else None;
  east_opt offset := (-86400 <? offset) && (offset <? 86400);
  local_to_utc offset d t :=
    let total := date_days d * 86400 + (hour t * 60 + minute t) * 60 + second t - offset in
    let rest := total mod 86400 in
    Some (calendar_date (total / 86400), mkNaiveTime (rest / 3600) (rest / 60 mod 60) (rest mod 60) (nanosecond t));
  parse_uuid s :=
    octets ← hex_pairs (filter (λ b, b ≠ 45) s); if (length octets =? 16)%nat then Some octets else None |}.

#[global] Instance calendar_libs_laws : InlineLibsLaws.
Proof.
  split; simpl.
  - intros y m d r Hr. case_match; by simplify_eq.
  - intros h m s us r Hr. case_match; by simplify_eq.
  - intros offset d t d' t' Ht Hu. injection Hu as <- <-. split; [apply calendar_date_valid|].
    unfold naive_time_ok, instant in *. simpl. rewrite calendar_date_days.
    set (total := date_days d * 86400 + (hour t * 60 + minute t) * 60 + second t - offset).
    pose proof (Z.mod_pos_bound total 86400 ltac:(lia)). pose proof (Z.div_mod total 86400 ltac:(lia)).
    set (rest := total mod 86400) in *. split; [|divlia].
    split_and!; try (apply Z.mod_pos_bound; lia); try tauto; divlia.
  - intros s octets Ho. apply option_bind_some in Ho as (o & _ & Ho).
    destruct (Nat.eqb_spec (length o) 16) in Ho; [|done]. by injection Ho as <-.
Qed.

(** ** Concrete rows *)

(** A cell none of whose getters but [get_str] has been filled in. *)
Definition text_cell (s : option bytes) : InlineCell :=
  mkInlineCell (Ok s) (Ok None) (λ _, Ok None) (λ _, Ok None) (λ _, Ok None) (Ok None) (Ok None) (Ok None)
    (Ok None) (Ok None) (Ok None).
Definition int_text_cell (v : Z) : InlineCell :=
  mkInlineCell (Ok (Some (fmt_int v))) (Ok None) (λ _, Ok (Some v)) (λ _, Ok None) (λ _, Ok None) (Ok None) (Ok None)
    (Ok None) (Ok None) (Ok None) (Ok None).
Definition timestamp_tz_cell (d : RawDate) (t : RawTime) (offset : Z) : InlineCell :=
  mkInlineCell (Ok (Some [])) (Ok None) (λ _, Ok None) (λ _, Ok None) (λ _, Ok None) (Ok None) (Ok None)
    (Ok None) (Ok None) (Ok (Some (d, t, offset))) (Ok None).

Definition inline_sample_columns : list ResultColumn :=
  [mkResultColumn (str "i") MInt; mkResultColumn (str "s") (MVarchar 0); mkResultColumn (str "t") MTimestampTz;
   mkResultColumn (str "a") MInet4].
Definition inline_sample_rows : list inline_row :=
  [λ i, match i with
        | 0 => int_text_cell 42 | 1 => text_cell (Some (str "one"))
        | 2 => timestamp_tz_cell (mkRawDate 1 1 1970) (mkRawTime 5 0 30 0) 3600
        | _ => text_cell (Some (str "10.0.0.1")) end%nat;
   λ i, text_cell None].
Definition inline_sample_values : list (list (option value)) :=
  [[Some (VInt 42); None]; [Some (VBytes (str "one")); None]; [Some (VInt (-1799999995)); None];
   [Some (VBytes (str "10.0.0.1")); None]].

Lemma inline_rows_decode_witness :
  ∃ schema arrays, schema_for_columns inline_sample_columns = Ok schema ∧
    decode_inline_rows (Ok <$> inline_sample_rows) inline_sample_columns 2 = Ok (mkRecordBatch schema arrays 2) ∧
    array_rows <$> arrays = inline_sample_values.
Proof.
  destruct (schema_for_columns inline_sample_columns) as [schema| |] eqn:Hs;
    [|by vm_compute in Hs|by vm_compute in Hs].
  destruct (inline_rows_decode inline_sample_columns schema inline_sample_rows inline_sample_values)
    as (arrays & Ha & Hr); [done|by repeat constructor|done|done| |by exists schema, arrays].
  intros i c vs Hc Hv. do 4 (destruct i as [|i]; [injection Hc as <-; injection Hv as <-;
    split; [by repeat (constructor; [by vm_compute|])|by split; vm_compute]|]). done.
Defined.
