(* ===== verification/Errors.v ===== *)
(** Errors of the driver and their classification
    ([crates/adbc-monetdb/src/driver.rs]): the error record, statuses from
    SQLSTATEs, the errors of a cursor, diagnostics as JSON, and the merging of
    an error with that of its recovery.  The file starts with the operations
    on characters of a string that the driver uses. *)

From stdpp Require Import base list numbers strings.
From S2P Require Import Prelude RustStd.
Local Open Scope Z_scope.

(** ** Characters of a string *)

(** The scalar value at the front of a valid sequence of [n] bytes. *)
Definition decode_char (l : bytes) : Z :=
  match l with
  | b0 :: l =>
      if b0 <? 128 then b0
      else if b0 <? 224 then Z.land b0 31 * 64 + Z.land (front l) 63
      else if b0 <? 240 then
        Z.land b0 15 * 4096 + Z.land (front l) 63 * 64 + Z.land (front (drop 1 l)) 63
      else
        Z.land b0 7 * 262144 + Z.land (front l) 63 * 4096 + Z.land (front (drop 1 l)) 63 * 64
        + Z.land (front (drop 2 l)) 63
  | [] => 0
  end.

(** [str::chars], as the byte sequences of the characters. *)
Fixpoint chars_aux (fuel : nat) (l : bytes) : list bytes :=
  match fuel, l with
  | _, [] => []
  | O, _ => []
  | S fuel, _ => let n := match utf8_step l with inl n => n | inr n => n end in
                 take n l :: chars_aux fuel (drop n l)
  end.
Definition chars (l : bytes) : list bytes := chars_aux (length l) l.

(** ** [Debug] of a string *)

(** The Unicode tables that [char::escape_debug_ext] consults. *)
Class CharTables := { is_grapheme_extended : Z → bool; is_printable : Z → bool }.

Definition debug_hex_digit (n : Z) : Z := if n <? 10 then 48 + n else 87 + n.

Fixpoint debug_hex_digits (fuel : nat) (n : Z) (acc : bytes) : bytes :=
  match fuel with
  | O => acc
  | S fuel => let acc := debug_hex_digit (n mod 16) :: acc in if n / 16 =? 0 then acc else debug_hex_digits fuel (n / 16) acc
  end.

(** A code point has at most six hexadecimal digits. *)
Definition unicode_escape (c : Z) : bytes := str "\u{" ++ debug_hex_digits 6 c [] ++ str "}".

(** One character of the text: its bytes. *)
Definition debug_char `{CharTables} (char : bytes) : bytes :=
  let c := decode_char char in
  if c =? 0 then str "\0"
  else if c =? 9 then str "\t"
  else if c =? 13 then str "\r"
  else if c =? 10 then str "\n"
  else if (c =? 34) || (c =? 92) then 92 :: char
  else if is_grapheme_extended c then unicode_escape c
  else if is_printable c then char
  else unicode_escape c.

(** [{:?}]. *)
Definition fmt_debug `{CharTables} (text : bytes) : bytes := [34] ++ concat (debug_char <$> chars text) ++ [34].

(** [char::is_whitespace]: the White_Space property. *)
Definition char_is_whitespace (c : Z) : bool :=
  (9 <=? c) && (c <=? 13) || (c =? 32) || (c =? 133) || (c =? 160) || (c =? 5760)
  || (8192 <=? c) && (c <=? 8202) || (c =? 8232) || (c =? 8233) || (c =? 8239) || (c =? 8287)
  || (c =? 12288).

Fixpoint drop_while {A} (p : A → bool) (l : list A) : list A :=
  match l with
  | x :: l' => if p x then drop_while p l' else l
  | [] => []
  end.

(** [str::trim]. *)
Definition trim (l : bytes) : bytes :=
  let blank c := char_is_whitespace (decode_char c) in
  concat (rev (drop_while blank (rev (drop_while blank (chars l))))).

(** [str::trim_end], [str::trim_end_matches] of a character, [str::ends_with],
    [str::contains]. *)
Definition trim_end (l : bytes) : bytes :=
  concat (rev (drop_while (λ c, char_is_whitespace (decode_char c)) (rev (chars l)))).
Definition trim_end_matches (b : Z) (l : bytes) : bytes := rev (drop_while (λ c, c =? b) (rev l)).
Definition ends_with (suffix l : bytes) : bool := starts_with (rev suffix) (rev l).
Fixpoint contains (needle l : bytes) : bool :=
  starts_with needle l || match l with [] => false | _ :: l => contains needle l end.

(** ** The error record *)

(** [adbc_core]'s status codes that the driver uses. *)
Inductive Status : Type :=
| Unknown | NotImplemented | NotFound | AlreadyExists | InvalidArguments | InvalidState | InvalidData
| Integrity | Internal | IO | Cancelled | Timeout | Unauthenticated | Unauthorized.

#[global] Instance Status_eq_dec : EqDecision Status.
Proof. solve_decision. Defined.

(** [adbc_core::error::Error]; an SQLSTATE is five characters, all zero when
    there is none. *)
Record Error : Type := mkErrorWith {
  error_message : bytes;
  error_status : Status;
  error_vendor_code : Z;
  error_sqlstate : list Z;
  error_details : option (list (bytes * bytes));
}.

Definition no_sqlstate : list Z := [0; 0; 0; 0; 0].

(** [Error::with_message_and_status], also [error] and [map_display]. *)
Definition mkError (message : bytes) (status : Status) : Error :=
  mkErrorWith message status 0 no_sqlstate None.
Definition error (message : string) (status : Status) : Error := mkError (str message) status.

Definition with_message (e : Error) (message : bytes) : Error :=
  mkErrorWith message (error_status e) (error_vendor_code e) (error_sqlstate e) (error_details e).
Definition with_sqlstate (e : Error) (sqlstate : list Z) : Error :=
  mkErrorWith (error_message e) (error_status e) (error_vendor_code e) sqlstate (error_details e).

(** [adbc_core::constants::ADBC_ERROR_VENDOR_CODE_PRIVATE_DATA], [INT32_MIN] in the ADBC header. *)
Definition vendor_code_private_data : Z := i32_min.

Definition attach_error_detail (e : Error) (key : string) (detail : bytes) : Error :=
  mkErrorWith (error_message e) (error_status e) vendor_code_private_data (error_sqlstate e)
    (Some (default [] (error_details e) ++ [(str key, detail)])).

Definition not_implemented (what : bytes) : Error :=
  mkError (str "adbc-monetdb: " ++ what ++ str " is not implemented") NotImplemented.
Definition unknown_option (key : bytes) : Error :=
  mkError (str "unknown or unset option '" ++ key ++ [39]) NotFound.

(** ** SQLSTATEs *)

Definition parse_sqlstate (sqlstate : bytes) : option (list Z) :=
  if (length sqlstate =? 5)%nat && forallb is_ascii_alphanumeric sqlstate then Some sqlstate else None.

Definition sqlstate_string (e : Error) : option bytes :=
  if existsb (λ c, negb (c =? 0)) (error_sqlstate e) then Some (error_sqlstate e) else None.

Definition is_code (sqlstate : bytes) (code : string) : bool := bool_decide (sqlstate = str code).

(** The texts of a conflict that MonetDB reports under other SQLSTATEs than class 40. *)
Definition is_transaction_conflict (sqlstate message : bytes) : bool :=
  (is_code sqlstate "42000" || is_code sqlstate "25000" || is_code sqlstate "25S01")
  && (ends_with (str "conflict with another transaction") (trim_end message)
      || ends_with (str "conflicts with another transaction") (trim_end message)
      || ends_with (str "transaction conflict detected") (trim_end message)
      || ends_with (str "transaction conflict detected while setting default value") (trim_end message)
      || ends_with (str "failed due to transaction conflict") (trim_end message)
      || starts_with (str "TRANSACTION CONFLICT in storage_api.") message).

Definition sqlstate_status (sqlstate : option bytes) (message : bytes) : Status :=
  match sqlstate with
  | None => Unknown
  | Some code =>
      let eq_code := is_code code in
      let class p := starts_with (str p) code in
      if is_transaction_conflict code message then Unknown
      else if eq_code "42000" && contains (str "access denied") message then Unauthorized
      else if eq_code "42S02" || eq_code "42S22" || eq_code "3F000" || eq_code "42703" then NotFound
      else if eq_code "42S01" || eq_code "42710" then AlreadyExists
      else if eq_code "40002" then Integrity
      else if eq_code "42501" then Unauthorized
      else if eq_code "28000" then Unauthenticated
      else if eq_code "57014" then Cancelled
      else if eq_code "HYT00" || eq_code "HYT01" then Timeout
      else if eq_code "2DM30" then InvalidState
      else if class "23" then Integrity
      else if class "25" || class "2D" then InvalidState
      else if class "28" then Unauthorized
      else if class "42" then InvalidArguments
      else Unknown
  end.

(** ** Errors of a cursor *)

(** The constructors of the client library's [CursorError] that the driver
    matches on, with the text a payload displays as. *)
Inductive CursorError : Type :=
| CE_Closed
| CE_Cancelled
| CE_Timeout
| CE_IO (detail : bytes)
| CE_Framing (detail : bytes)
| CE_BadReply (detail : bytes)
| CE_Conversion (detail : bytes)
| CE_InvalidRange (detail : bytes)
| CE_ResultNotResident (detail : bytes)
| CE_FileTransfer (detail : bytes)
| CE_UploadComplete
| CE_UploadRefused (detail : bytes)
| CE_PreparedResult
| CE_NoResultSet
| CE_Metadata (detail : bytes)
| CE_Poisoned
| CE_Server (sqlstate : option bytes) (message : bytes).

(** [Display] of a [CursorError], in the client library. *)
Class CursorDisplay := { cursor_error_text : CursorError → bytes }.

Definition cursor_error_terminal (e : CursorError) : bool :=
  match e with
  | CE_Closed | CE_Cancelled | CE_Timeout | CE_IO _ | CE_Framing _ | CE_BadReply _ | CE_Poisoned => true
  | _ => false
  end.

Definition cursor_error_status (e : CursorError) : Status :=
  match e with
  | CE_Closed | CE_NoResultSet => InvalidState
  | CE_Cancelled => Cancelled
  | CE_Timeout => Timeout
  | CE_IO _ => IO
  | CE_Framing _ | CE_BadReply _ => InvalidData
  | CE_Conversion _ | CE_InvalidRange _ | CE_ResultNotResident _ => InvalidData
  | CE_FileTransfer _ | CE_UploadComplete | CE_UploadRefused _ => InvalidData
  | CE_PreparedResult => InvalidState
  | CE_Metadata _ | CE_Poisoned => Internal
  | CE_Server sqlstate message => sqlstate_status sqlstate message
  end.

Definition map_cursor_error `{CursorDisplay} (e : CursorError) : Error :=
  let result := mkError (cursor_error_text e) (cursor_error_status e) in
  let result :=
    match e with
    | CE_Server (Some sqlstate) _ =>
        match parse_sqlstate sqlstate with Some code => with_sqlstate result code | None => result end
    | _ => result
    end in
  if cursor_error_terminal e
  then attach_error_detail result "adbc.monetdb.connection_terminal" (str "true") else result.

Definition combine_atomic_error {A} `{CursorDisplay} (result : res Error A) (secondary : res CursorError unit)
    (context : bytes) : res Error A :=
  match secondary with
  | Ok tt => result
  | Err secondary =>
      match result with
      | Err root =>
          Err (with_message root (error_message root ++ str "; " ++ context ++ str " also failed: "
                                  ++ cursor_error_text secondary))
      | Ok _ =>
          let secondary := map_cursor_error secondary in
          Err (with_message secondary (context ++ str " failed: " ++ error_message secondary))
      | Panic => Panic
      end
  | Panic => Panic
  end.

Definition combine_error {A B} (result : res Error A) (secondary : res Error B) (context : bytes)
    : res Error A :=
  match secondary with
  | Ok _ => result
  | Err secondary =>
      match result with
      | Err root =>
          Err (with_message root (error_message root ++ str "; " ++ context ++ str " also failed: "
                                  ++ error_message secondary))
      | Ok _ => Err (with_message secondary (context ++ str " failed: " ++ error_message secondary))
      | Panic => Panic
      end
  | Panic => Panic
  end.

(** ** What an error says about a prepared statement *)

Definition permits_literal_parameter_fallback (e : Error) : bool :=
  bool_decide (is_Some (sqlstate_string e))
  || bool_decide (error_message e = str "unknown MonetDB prepared type 'any'")
  || starts_with (str "invalid structural split in PREPARE metadata") (error_message e).

Definition transient_prepare_diagnostic (e : Error) : bool :=
  let class := take 2 (error_sqlstate e) in
  is_code class "25" || is_code class "40" || is_code class "HY"
  || is_transaction_conflict (error_sqlstate e) (error_message e).

Definition prepared_statement_missing (e : Error) : bool :=
  is_code (error_sqlstate e) "42000" && contains (str "EXEC: PREPARED Statement missing") (error_message e).

Definition remote_prepared_execution_failed (e : Error) : bool :=
  contains (str "Exception occurred in the remote server, please check the log there") (error_message e).

(** ** Diagnostics as JSON *)

Definition hex4 (c : Z) : bytes :=
  let digit d := if d <? 10 then 48 + d else 87 + d in
  [digit (c / 4096 mod 16); digit (c / 256 mod 16); digit (c / 16 mod 16); digit (c mod 16)].

(** [char::is_control]: the general category Cc. *)
Definition char_is_control (c : Z) : bool := (c <? 32) || (127 <=? c) && (c <? 160).

Definition json_escape (c : bytes) : bytes :=
  let code := decode_char c in
  if code =? 34 then [92; 34]
  else if code =? 92 then [92; 92]
  else if code =? 10 then [92; 110]
  else if code =? 13 then [92; 114]
  else if code =? 9 then [92; 116]
  else if char_is_control code then [92; 117] ++ hex4 code
  else c.

Definition json_string (value : bytes) : bytes := [34] ++ concat (json_escape <$> chars value) ++ [34].

Definition quoted_key (key : string) : bytes := [34] ++ str key ++ [34; 58].

Definition diagnostic_json (e : Error) : bytes :=
  [123] ++ quoted_key "message" ++ json_string (error_message e) ++ [44]
  ++ quoted_key "sqlstate" ++ match sqlstate_string e with Some s => json_string s | None => str "null" end
  ++ [125].

Definition attach_prepare_diagnostic (execution prepare : Error) : Error :=
  attach_error_detail execution "adbc.monetdb.prepare_error" (diagnostic_json prepare).
