(* ===== verification/SqlScan.v ===== *)
(** The SQL scanner of [crates/adbc-monetdb/src/driver/parameters.rs]: the
    lexer that finds statements and parameter slots, the tracking of
    procedural blocks, and the queries the driver asks of a scan.  A query is
    the list of its UTF-8 bytes. *)

From stdpp Require Import base list numbers strings.
From S2P Require Import Prelude RustStd Errors.
Local Open Scope Z_scope.

(** ** Characters *)

(** [char::is_alphanumeric], by scalar value: a table of the Unicode standard. *)
Class Unicode := { char_is_alphanumeric : Z → bool }.

(** [str::is_char_boundary]: an offset a slice of a string may start or end at. *)
Definition is_char_boundary (query : bytes) (index : nat) : bool :=
  match query !! index with
  | Some b => negb (is_cont b)
  | None => (index =? length query)%nat
  end.

(** [&query[start..end]]: panics out of range and inside a character. *)
Definition str_slice (query : bytes) (start finish : nat) : res Error bytes :=
  if (start <=? finish)%nat && (finish <=? length query)%nat
     && is_char_boundary query start && is_char_boundary query finish
  then Ok (take (finish - start) (drop start query)) else Panic.

(** [next_char]: the offset after the character at [index]. *)
Definition next_char (query : bytes) (index : nat) : res Error nat :=
  if is_char_boundary query index then
    match drop index query with
    | [] => Panic
    | rest => match utf8_step rest with inl n => Ok (index + n)%nat | inr _ => Panic end
    end
  else Panic.

Definition is_identifier_start (byte : Z) : bool := is_ascii_alphabetic byte || (byte =? 95).
Definition is_identifier_continue (byte : Z) : bool := is_identifier_start byte || is_ascii_digit byte.

Fixpoint count_while {A} (p : A → bool) (l : list A) : nat :=
  match l with
  | x :: l => if p x then S (count_while p l) else O
  | [] => O
  end.

(** [while bytes.get(end).is_some_and(is_identifier_continue) { end += 1 }]. *)
Definition identifier_end (query : bytes) (index : nat) : nat :=
  (index + count_while is_identifier_continue (drop index query))%nat.

Definition word_is (word : bytes) (keyword : string) : bool := eq_ignore_ascii_case word (str keyword).

(** ** Procedural blocks *)

Inductive CreatePrefix : Type := Start | Create | Or | Replace | Modifier | Procedural | Other.
Inductive ProceduralBlock : Type := Begin | Case | If | While.

#[global] Instance CreatePrefix_eq_dec : EqDecision CreatePrefix.
Proof. solve_decision. Defined.
#[global] Instance ProceduralBlock_eq_dec : EqDecision ProceduralBlock.
Proof. solve_decision. Defined.

Record ProceduralScan : Type := mkProceduralScan {
  prefix : CreatePrefix;
  active : bool;
  blocks : list ProceduralBlock;
  block_statement_start : bool;
  after_end : option ProceduralBlock;
}.

(** [ProceduralScan::new], also [reset]. The stack's top is the head. *)
Definition procedural_new : ProceduralScan := mkProceduralScan Start false [] true None.

Definition is_routine_keyword (word : bytes) : bool :=
  word_is word "function" || word_is word "procedure" || word_is word "trigger".

Definition is_routine_modifier (word : bytes) : bool :=
  word_is word "aggregate" || word_is word "filter" || word_is word "loader" || word_is word "window".

Definition terminates_block (word : bytes) (block : ProceduralBlock) : bool :=
  match block with
  | Begin => false
  | Case => word_is word "case"
  | If => word_is word "if"
  | While => word_is word "while"
  end.

Definition next_prefix (p : CreatePrefix) (word : bytes) : CreatePrefix :=
  match p with
  | Start => if word_is word "create" then Create else Other
  | Create =>
      if word_is word "or" then Or
      else if is_routine_keyword word then Procedural
      else if is_routine_modifier word then Modifier else Other
  | Replace =>
      if is_routine_keyword word then Procedural
      else if is_routine_modifier word then Modifier else Other
  | Or => if word_is word "replace" then Replace else Other
  | Modifier => if word_is word "function" then Procedural else Other
  | Procedural => Procedural
  | Other => Other
  end.

Definition observe_word (p : ProceduralScan) (word : bytes) : ProceduralScan :=
  if negb (active p) then
    let prefix' := next_prefix (prefix p) word in
    if bool_decide (prefix' = Procedural) && word_is word "begin"
    then mkProceduralScan prefix' true (Begin :: blocks p) true (after_end p)
    else mkProceduralScan prefix' false (blocks p) (block_statement_start p) (after_end p)
  else
    let p' := mkProceduralScan (prefix p) true (blocks p) (block_statement_start p) None in
    if match after_end p with Some block => terminates_block word block | None => false end then p'
    else if word_is word "end" then
      mkProceduralScan (prefix p) true (tail (blocks p)) false (head (blocks p))
    else if word_is word "case" then mkProceduralScan (prefix p) true (Case :: blocks p) false None
    else if word_is word "if" && block_statement_start p then
      mkProceduralScan (prefix p) true (If :: blocks p) false None
    else if word_is word "while" then mkProceduralScan (prefix p) true (While :: blocks p) false None
    else
      mkProceduralScan (prefix p) true (blocks p)
        (word_is word "then" || word_is word "else" || word_is word "elseif" || word_is word "do") None.

(** Whether a semicolon is inside a block, and the state after it. *)
Definition semicolon_is_internal (p : ProceduralScan) : bool * ProceduralScan :=
  if active p && negb (bool_decide (blocks p = []))
  then (true, mkProceduralScan (prefix p) true (blocks p) true None)
  else (false, p).

(** ** The lexer *)

Inductive LexState : Type :=
| Normal | SingleQuote | EscapedSingleQuote | RawSingleQuote | DoubleQuote | LineComment | BlockComment.

#[global] Instance LexState_eq_dec : EqDecision LexState.
Proof. solve_decision. Defined.

Abbreviation span := (nat * nat)%type.

Record ScannedSlot : Type := mkScannedSlot {
  slot_range : span;
  slot_name : option span;
  slot_bare : bool;
}.

Record QueryScan : Type := mkQueryScan {
  scan_statements : list span;
  scan_slots : list ScannedSlot;
  scan_first_keyword : option span;
  scan_has_data_change : bool;
}.

(** The local variables of the loop. *)
Record scan_state : Type := mkScanState {
  lex : LexState;
  index : nat;
  statement_start : nat;
  statement_has_code : bool;
  statements : list span;
  slots : list ScannedSlot;
  first_keyword : option span;
  has_data_change : bool;
  procedural : ProceduralScan;
  bare_integer_parameter : bool;
  fetch_row_count : bool;
}.

Definition scan_init : scan_state :=
  mkScanState Normal 0 0 false [] [] None false procedural_new false false.

(** Only the lexer's state and the offset move. *)
Definition advance (st : scan_state) (lex' : LexState) (index' : nat) : scan_state :=
  mkScanState lex' index' (statement_start st) (statement_has_code st) (statements st) (slots st)
    (first_keyword st) (has_data_change st) (procedural st) (bare_integer_parameter st)
    (fetch_row_count st).

(** A token: the statement has code, the row-count flags are cleared. *)
Definition token (st : scan_state) (lex' : LexState) (index' : nat) : scan_state :=
  mkScanState lex' index' (statement_start st) true (statements st) (slots st)
    (first_keyword st) (has_data_change st) (procedural st) false false.

Definition add_slot (st : scan_state) (finish : nat) (name : option span) : scan_state :=
  mkScanState Normal finish (statement_start st) true (statements st)
    (slots st ++ [mkScannedSlot (index st, finish) name (bare_integer_parameter st)])
    (first_keyword st) (has_data_change st) (procedural st) false false.

Definition is_bare_integer_keyword (word : bytes) : bool :=
  word_is word "limit" || word_is word "offset" || word_is word "sample" || word_is word "seed".

Definition is_data_change (word : bytes) : bool :=
  bool_decide (to_ascii_uppercase word ∈ [str "INSERT"; str "UPDATE"; str "DELETE"; str "MERGE"; str "TRUNCATE"]).

Definition scan_semicolon (st : scan_state) : scan_state :=
  let '(internal, p) := semicolon_is_internal (procedural st) in
  if internal then
    mkScanState Normal (index st + 1) (statement_start st) (statement_has_code st) (statements st)
      (slots st) (first_keyword st) (has_data_change st) p (bare_integer_parameter st)
      (fetch_row_count st)
  else
    mkScanState Normal (index st + 1) (index st + 1) false
      (if statement_has_code st then statements st ++ [(statement_start st, index st)] else statements st)
      (slots st) (first_keyword st) (has_data_change st) procedural_new false false.

Section with_unicode.
Context `{Unicode}.

(** A named parameter: [:] and an ASCII identifier not continued by another
    alphanumeric character. *)
Definition scan_named (query : bytes) (st : scan_state) : res Error scan_state :=
  let finish := identifier_end query (index st + 2) in
  rest ← str_slice query finish (length query);
  let continued :=
    match rest with
    | b :: _ => negb (b <? 128) && char_is_alphanumeric (decode_char rest)
    | [] => false
    end in
  if continued then Err (error "named parameter identifiers must be ASCII" InvalidArguments)
  else Ok (add_slot st finish (Some (index st + 1, finish)%nat)).

Definition scan_word (query : bytes) (st : scan_state) : res Error scan_state :=
  let finish := identifier_end query (index st + 1) in
  word ← str_slice query (index st) finish;
  Ok (mkScanState Normal finish (statement_start st) true (statements st) (slots st)
        (Some (default (index st, finish) (first_keyword st)))
        (has_data_change st || is_data_change word)
        (observe_word (procedural st) word)
        (is_bare_integer_keyword word
         || fetch_row_count st && (word_is word "first" || word_is word "next"))
        (word_is word "fetch")).

Definition is_byte_in (cs : list Z) (b : option Z) : bool :=
  match b with Some b => bool_decide (b ∈ cs) | None => false end.

(** The [match] on (current, next, third), in its order. *)
Definition scan_normal (query : bytes) (st : scan_state) (current : Z) : res Error scan_state :=
  let i := index st in
  let next := query !! (i + 1)%nat in
  let third := query !! (i + 2)%nat in
  if current =? 59 then Ok (scan_semicolon st)
  else if is_ascii_whitespace current then i' ← next_char query i; Ok (advance st Normal i')
  else if (current =? 45) && is_byte_in [45] next then Ok (advance st LineComment (i + 2))
  else if current =? 35 then Ok (advance st LineComment (i + 1))
  else if (current =? 47) && is_byte_in [42] next then Ok (advance st BlockComment (i + 2))
  else if current =? 63 then Ok (add_slot st (i + 1) None)
  else if (current =? 58)
          && match next with Some b => is_identifier_start b | None => false end
          && negb (match i with O => false | S j => is_byte_in [58] (query !! j) end)
  then scan_named query st
  else if bool_decide (current ∈ [114; 82; 120; 88]) && is_byte_in [39] next
  then Ok (token st RawSingleQuote (i + 2))
  else if bool_decide (current ∈ [101; 69]) && is_byte_in [39] next
  then Ok (token st EscapedSingleQuote (i + 2))
  else if bool_decide (current ∈ [117; 85]) && is_byte_in [38] next && is_byte_in [39] third
  then Ok (token st RawSingleQuote (i + 3))
  else if bool_decide (current ∈ [117; 85]) && is_byte_in [38] next && is_byte_in [34] third
  then Ok (token st DoubleQuote (i + 3))
  else if current =? 39 then Ok (token st SingleQuote (i + 1))
  else if current =? 34 then Ok (token st DoubleQuote (i + 1))
  else if is_identifier_start current then scan_word query st
  else i' ← next_char query i; Ok (token st Normal i').

(** Inside a quote: a doubled [quote] stays inside, a single one ends it. *)
Definition close_quote (st : scan_state) (quote current : Z) (next : option Z) (i' : nat) : scan_state :=
  if current =? quote then
    if is_byte_in [quote] next then advance st (lex st) (i' + 1) else advance st Normal i'
  else advance st (lex st) i'.

Definition scan_step (query : bytes) (st : scan_state) : res Error scan_state :=
  current ← or_panic (query !! index st);
  let next := query !! (index st + 1)%nat in
  match lex st with
  | Normal => scan_normal query st current
  | SingleQuote =>
      if (current =? 92) && is_byte_in [39] next then
        Err (error "backslash-escaped quotes in ordinary SQL strings depend on the server's raw_strings setting; use E'...' or R'...'" InvalidArguments)
      else i' ← next_char query (index st); Ok (close_quote st 39 current next i')
  | EscapedSingleQuote =>
      i' ← next_char query (index st);
      if (current =? 92) && (i' <? length query)%nat then
        i'' ← next_char query i'; Ok (advance st EscapedSingleQuote i'')
      else Ok (close_quote st 39 current next i')
  | RawSingleQuote => i' ← next_char query (index st); Ok (close_quote st 39 current next i')
  | DoubleQuote => i' ← next_char query (index st); Ok (close_quote st 34 current next i')
  | LineComment =>
      i' ← next_char query (index st);
      Ok (advance st (if current =? 10 then Normal else LineComment) i')
  | BlockComment =>
      i' ← next_char query (index st);
      if (current =? 42) && is_byte_in [47] next then Ok (advance st Normal (i' + 1))
      else Ok (advance st BlockComment i')
  end.

(** [while index < bytes.len()]; running out of [fuel] is a [Panic], which
    [scan_query] is shown never to reach. *)
Fixpoint scan_loop (fuel : nat) (query : bytes) (st : scan_state) : res Error scan_state :=
  if (length query <=? index st)%nat then Ok st
  else
    match fuel with
    | O => Panic
    | S fuel => st ← scan_step query st; scan_loop fuel query st
    end.

Definition scan_query (query : bytes) : res Error QueryScan :=
  st ← scan_loop (length query) query scan_init;
  if negb (bool_decide (lex st = Normal) || bool_decide (lex st = LineComment)) then
    Err (error "query contains an unterminated quoted string, identifier, or comment" InvalidArguments)
  else
    Ok (mkQueryScan
          (if statement_has_code st then statements st ++ [(statement_start st, length query)]
           else statements st)
          (slots st) (first_keyword st) (has_data_change st)).

(** ** What the driver asks of a scan *)

Definition read_only_keyword (word : bytes) : bool :=
  bool_decide (to_ascii_uppercase word ∈
    [str "SELECT"; str "WITH"; str "VALUES"; str "TABLE"; str "EXPLAIN"; str "PLAN"; str "COMMIT";
     str "ROLLBACK"; str "SAVEPOINT"; str "RELEASE"; str "START"; str "BEGIN"]).

Definition statement_may_modify (query : bytes) : res Error bool :=
  scan ← scan_query query;
  if scan_has_data_change scan then Ok true
  else
    match scan_first_keyword scan with
    | None => Ok true
    | Some r => word ← str_slice query r.1 r.2; Ok (negb (read_only_keyword word))
    end.

Definition statement_slices (query : bytes) (scan : QueryScan) : res Error (list bytes) :=
  if bool_decide (scan_statements scan = []) then Err (error "SQL query is empty" InvalidArguments)
  else map_res (λ r : span, text ← str_slice query r.1 r.2; Ok (trim text)) (scan_statements scan).

Definition unbound_statements (query : bytes) : res Error (list bytes) :=
  scan ← scan_query query;
  if negb (bool_decide (length (scan_slots scan) = 0%nat))
  then Err (error "parameters are not bound" InvalidState)
  else statement_slices query scan.

Definition parameterized_statements (query : bytes) : res Error (list bytes) :=
  scan ← scan_query query; statement_slices query scan.
End with_unicode.

(** ** Valid UTF-8, suffix by suffix *)

Lemma utf8_step_length l n : utf8_step l = inl n → (0 < n ≤ length l)%nat.
Proof.
  destruct l as [|b l]; [done|]. cbn [utf8_step].
  assert (∀ k, is_cont (front (drop k l)) = true → (k < length l)%nat) as Hf.
  { intros k Hk. destruct (decide (k < length l)%nat); [done|]. by rewrite drop_ge in Hk by lia. }
  assert (∀ lead k, second_ok lead (front (drop k l)) = true → (k < length l)%nat) as Hs.
  { intros lead k Hk. destruct (decide (k < length l)%nat); [done|]. rewrite drop_ge in Hk by lia.
    unfold second_ok in Hk. simpl in Hk. repeat case_match; done. }
  pose proof (Hf 0%nat) as Hf0. rewrite drop_0 in Hf0. pose proof (Hf 1%nat). pose proof (Hf 2%nat).
  pose proof (Hs b 0%nat) as Hs0. rewrite drop_0 in Hs0.
  repeat case_match; intros [= <-]; bool_prop; simpl; naive_solver lia.
Qed.

Lemma utf8_valid_aux_fuel fuel l :
  (length l ≤ fuel)%nat → utf8_valid_aux fuel l = utf8_valid_aux (length l) l.
Proof.
  revert fuel l. enough (∀ n l f1 f2, (length l ≤ n)%nat → (length l ≤ f1)%nat → (length l ≤ f2)%nat →
    utf8_valid_aux f1 l = utf8_valid_aux f2 l) as Hg by (intros fuel l Hl; by apply (Hg (length l))).
  induction n as [|n IH]; intros l f1 f2 Hn H1 H2; (destruct l as [|b l]; [by destruct f1, f2|]); [simpl in Hn; lia|].
  destruct f1 as [|f1], f2 as [|f2]; try (simpl in *; lia). cbn [utf8_valid_aux].
  destruct (utf8_step (b :: l)) as [k|] eqn:Hk; [|done]. apply utf8_step_length in Hk.
  apply IH; rewrite length_drop; simpl in *; lia.
Qed.

(** A valid, non-empty text starts with a character whose rest is valid. *)
Lemma utf8_valid_step l :
  utf8_valid l = true → l ≠ [] →
  ∃ n, utf8_step l = inl n ∧ (0 < n ≤ length l)%nat ∧ utf8_valid (drop n l) = true.
Proof.
  unfold utf8_valid. destruct l as [|b l]; [done|]. intros Hv _. cbn [length utf8_valid_aux] in Hv.
  destruct (utf8_step (b :: l)) as [n|] eqn:Hn; [|done]. exists n.
  pose proof (utf8_step_length _ _ Hn) as Hl. split_and!; [done|lia|lia|].
  rewrite <- (utf8_valid_aux_fuel (length l)); [done|]. rewrite length_drop. simpl in *. lia.
Qed.

Lemma utf8_valid_lead b l : utf8_valid (b :: l) = true → is_cont b = false.
Proof.
  intros Hv. destruct (utf8_valid_step (b :: l) Hv) as (n & Hn & _); [done|].
  cbn [utf8_step] in Hn. unfold is_cont.
  destruct (Z.ltb_spec b 128); [rewrite (proj2 (Z.leb_gt _ _)) by lia; done|].
  destruct (Z.leb_spec b 191); [|by rewrite andb_false_r].
  rewrite !(proj2 (Z.leb_gt _ b)) in Hn by lia. done.
Qed.

Lemma utf8_valid_ascii_tail b l : b < 128 → utf8_valid (b :: l) = true → utf8_valid l = true.
Proof.
  intros Hb Hv. destruct (utf8_valid_step (b :: l) Hv) as (n & Hn & _ & Hd); [done|].
  cbn [utf8_step] in Hn. rewrite (proj2 (Z.ltb_lt _ _)) in Hn by done. injection Hn as <-.
  exact Hd.
Qed.

(** A position the scanner may stand at. *)
Definition position_ok (query : bytes) (i : nat) : Prop :=
  (i ≤ length query)%nat ∧ utf8_valid (drop i query) = true.

Lemma position_boundary query i : position_ok query i → is_char_boundary query i = true.
Proof.
  intros [Hi Hv]. unfold is_char_boundary. destruct (query !! i) as [b|] eqn:Hb.
  - rewrite (drop_S _ _ _ Hb) in Hv. apply utf8_valid_lead in Hv. by rewrite Hv.
  - apply lookup_ge_None in Hb. apply Nat.eqb_eq. lia.
Qed.

Lemma next_char_ok query i :
  position_ok query i → (i < length query)%nat →
  ∃ i', next_char query i = Ok i' ∧ (i < i')%nat ∧ position_ok query i'.
Proof.
  intros Hp Hi. unfold next_char. rewrite position_boundary by done. destruct Hp as [_ Hv].
  assert (drop i query ≠ []) as Hne.
  { intros Hn. apply (f_equal length) in Hn. rewrite length_drop in Hn. simpl in Hn. lia. }
  destruct (utf8_valid_step _ Hv Hne) as (n & Hn & Hl & Hd). rewrite length_drop in Hl.
  exists (i + n)%nat. destruct (drop i query) as [|b rest] eqn:Hr; [done|]. rewrite Hn.
  split; [done|]. split; [lia|]. split; [lia|]. rewrite <- drop_drop, Hr. done.
Qed.

(** An ASCII byte is a character of its own. *)
Lemma position_ascii query i b :
  position_ok query i → query !! i = Some b → b < 128 → position_ok query (i + 1).
Proof.
  intros [Hi Hv] Hb Hlt. pose proof (lookup_lt_Some _ _ _ Hb). split; [lia|].
  rewrite (drop_S _ _ _ Hb) in Hv. rewrite Nat.add_1_r. by eapply utf8_valid_ascii_tail.
Qed.

Lemma next_char_ascii query i b :
  position_ok query i → query !! i = Some b → b < 128 → next_char query i = Ok (i + 1)%nat.
Proof.
  intros Hp Hb Hlt. unfold next_char. rewrite position_boundary by done. rewrite (drop_S _ _ _ Hb).
  cbn [utf8_step]. by rewrite (proj2 (Z.ltb_lt _ _)).
Qed.
