(* ===== verification/SqlScanProofs.v ===== *)
(** Properties of the SQL scanner: it terminates without panicking on every
    text, and what it reports are well-formed, ordered pieces of the query. *)

From stdpp Require Import base list numbers strings gmap.
From S2P Require Import Prelude RustStd Errors SqlScan.
Local Open Scope Z_scope.

(** ** Positions *)

Lemma count_while_spec {A} (p : A → bool) l :
  (count_while p l ≤ length l)%nat ∧ Forall (λ x, p x = true) (take (count_while p l) l) ∧
  match drop (count_while p l) l with x :: _ => p x = false | [] => True end.
Proof.
  induction l as [|x l IH]; simpl; [split_and!; [lia|constructor|done]|].
  destruct (p x) eqn:Hx; simpl; [|split_and!; [lia|constructor|done]].
  destruct IH as (H1 & H2 & H3). split_and!; [lia|by constructor|done].
Qed.

Lemma identifier_continue_ascii b : is_identifier_continue b = true → b < 128.
Proof.
  unfold is_identifier_continue, is_identifier_start, is_ascii_alphabetic, is_ascii_upper,
    is_ascii_lower, is_ascii_digit. lia.
Qed.

Lemma identifier_start_continue b : is_identifier_start b = true → is_identifier_continue b = true.
Proof. unfold is_identifier_continue. by intros ->. Qed.

Lemma position_ascii_run query i n :
  position_ok query i → (i + n ≤ length query)%nat → Forall (λ b, b < 128) (take n (drop i query)) →
  position_ok query (i + n).
Proof.
  revert i; induction n as [|n IH]; intros i Hp Hn Ha; [by rewrite Nat.add_0_r|].
  destruct (query !! i) as [b|] eqn:Hb; [|apply lookup_ge_None in Hb; lia].
  rewrite (drop_S _ _ _ Hb) in Ha. simpl in Ha. inversion Ha; subst.
  replace (i + S n)%nat with ((i + 1) + n)%nat by lia. apply IH; [by eapply position_ascii|lia|].
  by rewrite Nat.add_1_r.
Qed.

Lemma identifier_end_ok query i :
  position_ok query i →
  (i ≤ identifier_end query i ≤ length query)%nat ∧ position_ok query (identifier_end query i) ∧
  Forall (λ b, is_identifier_continue b = true) (take (identifier_end query i - i) (drop i query)).
Proof.
  intros Hp. unfold identifier_end.
  destruct (count_while_spec is_identifier_continue (drop i query)) as (Hl & Hf & _).
  rewrite length_drop in Hl. destruct Hp as [Hi Hv].
  set (n := count_while is_identifier_continue (drop i query)) in *.
  replace (i + n - i)%nat with n by lia. split_and!; [lia|lia| |done].
  apply position_ascii_run; [done|lia|]. eapply Forall_impl; [exact Hf|]. apply identifier_continue_ascii.
Qed.

Lemma str_slice_ok query a b :
  position_ok query a → position_ok query b → (a ≤ b)%nat →
  str_slice query a b = Ok (take (b - a) (drop a query)).
Proof.
  intros Ha Hb Hab. unfold str_slice.
  rewrite !position_boundary by done. destruct Hb as [Hb _].
  rewrite (proj2 (Nat.leb_le _ _)), (proj2 (Nat.leb_le _ _)) by lia. done.
Qed.

Lemma position_end query : position_ok query (length query).
Proof. split; [lia|]. by rewrite drop_ge by lia. Qed.

Lemma is_byte_in_Some b o : is_byte_in [b] o = true → o = Some b.
Proof. destruct o; simpl; [|done]. intros H. bool_prop. set_solver. Qed.

Lemma is_byte_in_elem (cs : list Z) b : bool_decide (b ∈ cs) = true → b ∈ cs.
Proof. by intros ?%bool_decide_eq_true. Qed.

(** ** One step *)

(** A word the scanner reads: an identifier, at its offset. *)
Definition word_at (query : bytes) (i finish : nat) (word : bytes) : Prop :=
  word = take (finish - i) (drop i query) ∧ (i < finish)%nat ∧ position_ok query finish ∧
  match word with
  | b :: rest => is_identifier_start b = true ∧ Forall (λ c, is_identifier_continue c = true) rest
  | [] => False
  end.

(** The kinds of step: moving the position, a token, the end of a statement,
    a slot, a word, an error.  Every step moves forward to a position between
    characters. *)
Inductive step_spec (query : bytes) (st : scan_state) : res Error scan_state → Prop :=
| step_advance lex' i' :
    (index st < i')%nat → position_ok query i' → step_spec query st (Ok (advance st lex' i'))
| step_token lex' i' :
    lex st = Normal → (index st < i')%nat → position_ok query i' →
    step_spec query st (Ok (token st lex' i'))
| step_semicolon :
    lex st = Normal → query !! index st = Some 59 → position_ok query (index st + 1) →
    step_spec query st (Ok (scan_semicolon st))
| step_positional :
    lex st = Normal → query !! index st = Some 63 → position_ok query (index st + 1) →
    step_spec query st (Ok (add_slot st (index st + 1) None))
| step_named finish name :
    lex st = Normal → query !! index st = Some 58 → word_at query (index st + 1) finish name →
    step_spec query st (Ok (add_slot st finish (Some (index st + 1, finish)%nat)))
| step_word finish word :
    lex st = Normal → word_at query (index st) finish word →
    step_spec query st
      (Ok (mkScanState Normal finish (statement_start st) true (statements st) (slots st)
             (Some (default (index st, finish) (first_keyword st)))
             (has_data_change st || is_data_change word)
             (observe_word (procedural st) word)
             (is_bare_integer_keyword word
              || fetch_row_count st && (word_is word "first" || word_is word "next"))
             (word_is word "fetch")))
| step_error e : error_status e = InvalidArguments → step_spec query st (Err e).

Lemma step_next_char query st (f : nat → res Error scan_state) :
  position_ok query (index st) → (index st < length query)%nat →
  (∀ i', next_char query (index st) = Ok i' → (index st < i')%nat → position_ok query i' →
     step_spec query st (f i')) →
  step_spec query st (i' ← next_char query (index st); f i').
Proof.
  intros Hp Hi Hf. destruct (next_char_ok query _ Hp Hi) as (i' & Hn & Hlt & Hp'). rewrite Hn. simpl. by apply Hf.
Qed.

Lemma close_quote_spec query st quote current i' :
  position_ok query (index st) → query !! index st = Some current → quote < 128 →
  next_char query (index st) = Ok i' → (index st < i')%nat → position_ok query i' →
  step_spec query st (Ok (close_quote st quote current (query !! (index st + 1)%nat) i')).
Proof.
  intros Hp Hc Hq Hn Hlt Hp'. unfold close_quote.
  destruct (Z.eqb_spec current quote) as [->|]; [|by apply step_advance].
  rewrite (next_char_ascii query (index st) quote) in Hn by done. injection Hn as <-.
  destruct (is_byte_in [quote] _) eqn:Hb; [|by apply step_advance]. apply is_byte_in_Some in Hb.
  apply step_advance; [lia|]. by eapply position_ascii.
Qed.

Lemma ascii_member (cs : list Z) b : bool_decide (b ∈ cs) = true → Forall (λ c, c < 128) cs → b < 128.
Proof. intros Hb%is_byte_in_elem Hf. rewrite Forall_forall in Hf. by apply Hf. Qed.

Lemma two_ascii query i b c :
  position_ok query i → query !! i = Some b → b < 128 → query !! (i + 1)%nat = Some c → c < 128 →
  position_ok query (i + 2).
Proof.
  intros Hp Hb Hlt Hc Hlt'. replace (i + 2)%nat with (i + 1 + 1)%nat by lia.
  eapply position_ascii; [by eapply position_ascii|done|done].
Qed.

Lemma three_ascii query i b c d :
  position_ok query i → query !! i = Some b → b < 128 → query !! (i + 1)%nat = Some c → c < 128 →
  query !! (i + 2)%nat = Some d → d < 128 → position_ok query (i + 3).
Proof.
  intros Hp Hb Hlt Hc Hlt' Hd Hlt''. replace (i + 3)%nat with (i + 2 + 1)%nat by lia.
  eapply position_ascii; [by eapply two_ascii|done|done].
Qed.

Lemma identifier_word query i b :
  position_ok query i → query !! i = Some b → is_identifier_start b = true →
  word_at query i (identifier_end query (i + 1))
    (take (identifier_end query (i + 1) - i) (drop i query)).
Proof.
  intros Hp Hb Hs. assert (b < 128) as Hlt by (by apply identifier_continue_ascii, identifier_start_continue).
  pose proof (position_ascii _ _ _ Hp Hb Hlt) as Hp1.
  destruct (identifier_end_ok query (i + 1) Hp1) as (Hi & He & Hf).
  split_and!; [done|lia|done|]. rewrite (drop_S _ _ _ Hb).
  replace (identifier_end query (i + 1) - i)%nat with (S (identifier_end query (i + 1) - (i + 1))) by lia.
  cbn [take]. rewrite Nat.add_1_r in *. done.
Qed.

(** ** What a scan reports *)

(** Non-empty spans in order, from [lo] to at most [hi]. *)
Inductive ordered : nat → list span → nat → Prop :=
| ordered_nil lo hi : (lo ≤ hi)%nat → ordered lo [] hi
| ordered_cons lo r l hi : (lo ≤ r.1)%nat → (r.1 < r.2)%nat → ordered r.2 l hi → ordered lo (r :: l) hi.

Lemma ordered_weaken lo l hi hi' : ordered lo l hi → (hi ≤ hi')%nat → ordered lo l hi'.
Proof. induction 1; intros; constructor; try done; [lia|by auto]. Qed.

Lemma ordered_snoc lo l a b hi :
  ordered lo l a → (a < b)%nat → (b ≤ hi)%nat → ordered lo (l ++ [(a, b)]) hi.
Proof.
  induction 1 as [lo a Hlo|lo r l a Hlo Hr Hl IH]; intros Hab Hb; simpl; constructor; simpl; try done; try lia.
  - by constructor.
  - by apply IH.
Qed.

Lemma ordered_bounds lo l hi :
  ordered lo l hi → (lo ≤ hi)%nat ∧ Forall (λ r, lo ≤ r.1 ∧ r.1 < r.2 ∧ r.2 ≤ hi)%nat l.
Proof.
  induction 1 as [lo hi Hlo|lo r l hi Hlo Hr Hl [IH1 IH2]]; [done|]. split; [lia|].
  constructor; [lia|]. eapply Forall_impl; [exact IH2|]. simpl. lia.
Qed.

(** Both ends of a span are between characters. *)
Definition span_ok (query : bytes) (r : span) : Prop := position_ok query r.1 ∧ position_ok query r.2.

(** A slot is a [?], or a [:] with the identifier that names it. *)
Definition slot_ok (query : bytes) (slot : ScannedSlot) : Prop :=
  let '(a, b) := slot_range slot in
  span_ok query (a, b) ∧
  match slot_name slot with
  | None => query !! a = Some 63 ∧ b = (a + 1)%nat
  | Some (c, d) => query !! a = Some 58 ∧ c = (a + 1)%nat ∧ d = b ∧ ∃ name, word_at query c d name
  end.

(** A statement ends at a semicolon or at the end of the query. *)
Definition statement_ok (query : bytes) (r : span) : Prop :=
  span_ok query r ∧ (query !! r.2 = Some 59 ∨ r.2 = length query).

Record scan_inv (query : bytes) (st : scan_state) : Prop := {
  inv_index : position_ok query (index st);
  inv_start : (statement_start st ≤ index st)%nat ∧ position_ok query (statement_start st);
  inv_code : statement_has_code st = true → (statement_start st < index st)%nat;
  inv_statements :
    ordered 0 (statements st) (statement_start st) ∧ Forall (statement_ok query) (statements st);
  inv_slots : ordered 0 (slot_range <$> slots st) (index st) ∧ Forall (slot_ok query) (slots st);
  inv_keyword : ∀ r, first_keyword st = Some r → span_ok query r ∧ (r.1 ≤ r.2)%nat;
}.

Lemma scan_inv_init query : utf8_valid query = true → scan_inv query scan_init.
Proof. intros Hv. split; simpl; repeat split; try constructor; try done; lia. Qed.

(** Moving forward keeps the invariant. *)
Lemma scan_inv_move query st st' :
  scan_inv query st → (index st < index st')%nat → position_ok query (index st') →
  statement_start st' = statement_start st → statements st' = statements st → slots st' = slots st →
  (∀ r, first_keyword st' = Some r → first_keyword st = Some r ∨ r = (index st, index st')) →
  scan_inv query st'.
Proof.
  intros [Hi [Hs1 Hs2] Hc [Ho1 Ho2] [Hl1 Hl2] Hk] Hlt Hp E1 E2 E3 E4.
  split; rewrite ?E1, ?E2, ?E3; try done.
  - split; [lia|done].
  - lia.
  - split; [|done]. eapply ordered_weaken; [exact Hl1|lia].
  - intros r Hr. destruct (E4 r Hr) as [Hr'| ->]; [by apply Hk|]. split; [done|]. simpl. lia.
Qed.

Lemma scan_inv_add_slot query st finish name :
  scan_inv query st → (index st < finish)%nat → position_ok query finish →
  slot_ok query (mkScannedSlot (index st, finish) name (bare_integer_parameter st)) →
  scan_inv query (add_slot st finish name).
Proof.
  intros [Hi [Hs1 Hs2] Hc [Ho1 Ho2] [Hl1 Hl2] Hk] Hlt Hp Hslot. split; simpl; try done.
  - split; [lia|done].
  - lia.
  - rewrite fmap_app. split; [by apply ordered_snoc|]. apply Forall_app. split; [done|]. by apply Forall_singleton.
Qed.

Lemma scan_inv_semicolon query st :
  scan_inv query st → query !! index st = Some 59 → position_ok query (index st + 1) →
  scan_inv query (scan_semicolon st).
Proof.
  intros Hinv Hc Hp. unfold scan_semicolon. destruct (semicolon_is_internal _) as [[] p].
  { apply (scan_inv_move query st); simpl; try done; try lia. intros r Hr. by left. }
  destruct Hinv as [Hi [Hs1 Hs2] Hcode [Ho1 Ho2] [Hl1 Hl2] Hk]. split; simpl; try done.
  - destruct (statement_has_code st) eqn:Hcd.
    + split; [apply ordered_snoc; [done|by apply Hcode|lia]|].
      apply Forall_app. split; [done|]. constructor; [|constructor]. split; [done|]. by left.
    + split; [|done]. eapply ordered_weaken; [exact Ho1|lia].
  - split; [|done]. eapply ordered_weaken; [exact Hl1|lia].
Qed.

Lemma scan_inv_step query s s' :
  scan_inv query s → position_ok query (index s) → (index s < length query)%nat →
  step_spec query s (Ok s') → scan_inv query s'.
Proof.
  intros Hinv Hp Hi Hs.
  inversion Hs as [lex' i' Hlt Hp'|lex' i' Hl Hlt Hp'|Hl Hc Hp'|Hl Hc Hp'|finish name Hl Hc Hw
                  |finish word Hl Hw|e He]; subst.
  - apply (scan_inv_move query s); simpl; try done. intros r Hr. by left.
  - apply (scan_inv_move query s); simpl; try done. intros r Hr. by left.
  - by apply scan_inv_semicolon.
  - apply scan_inv_add_slot; try done; try lia.
  - pose proof Hw as (_ & Hlt & Hp' & _). apply scan_inv_add_slot; try done; try lia.
    unfold slot_ok. simpl. split; [done|]. split_and!; [done..|by exists name].
  - pose proof Hw as (_ & Hlt & Hp' & _). apply (scan_inv_move query s); simpl; try done.
    intros r Hr. destruct (first_keyword s); simplify_eq/=; auto.
Qed.

(** ** Every step is of a kind *)

Section with_unicode.
Context `{Unicode}.

Lemma scan_named_spec query st b :
  position_ok query (index st) → lex st = Normal → query !! index st = Some 58 →
  query !! (index st + 1)%nat = Some b → is_identifier_start b = true →
  step_spec query st (scan_named query st).
Proof.
  intros Hp Hl Hc Hn Hb. pose proof (position_ascii _ _ _ Hp Hc ltac:(lia)) as Hp1.
  pose proof (identifier_word query (index st + 1) b Hp1 Hn Hb) as Hw.
  unfold scan_named. replace (index st + 2)%nat with (index st + 1 + 1)%nat by lia.
  destruct (Hw) as (_ & _ & Hfin & _).
  rewrite str_slice_ok; [|done|apply position_end|apply Hfin]. cbn [mbind res_bind].
  case_match; [by apply step_error|]. by eapply step_named.
Qed.

Lemma scan_word_spec query st b :
  position_ok query (index st) → lex st = Normal → query !! index st = Some b →
  is_identifier_start b = true → step_spec query st (scan_word query st).
Proof.
  intros Hp Hl Hc Hb. pose proof (identifier_word query (index st) b Hp Hc Hb) as Hw.
  unfold scan_word. destruct (Hw) as (_ & Hlt & Hfin & _).
  rewrite str_slice_ok by (done || lia). cbn [mbind res_bind]. by apply step_word.
Qed.

Lemma scan_normal_spec query st current :
  position_ok query (index st) → query !! index st = Some current → lex st = Normal →
  step_spec query st (scan_normal query st current).
Proof.
  intros Hp Hc Hl. pose proof (lookup_lt_Some _ _ _ Hc) as Hi. unfold scan_normal.
  set (i := index st) in *.
  assert (current < 128 → position_ok query (i + 1)) as Hp1 by (intros; by eapply position_ascii).
  destruct (Z.eqb_spec current 59) as [->|_]; [apply step_semicolon; auto with lia|].
  destruct (is_ascii_whitespace current).
  { apply step_next_char; [done..|]. intros i' _ Hlt Hp'. by apply step_advance. }
  assert (∀ b lex', current < 128 → b < 128 → is_byte_in [b] (query !! (i + 1)%nat) = true →
            step_spec query st (Ok (advance st lex' (i + 2))) ∧ step_spec query st (Ok (token st lex' (i + 2)))) as H2.
  { intros b lex' Hlt Hb Hn%is_byte_in_Some.
    split; [apply step_advance|apply step_token]; try done; try lia; by eapply two_ascii. }
  assert (∀ b c lex', current < 128 → b < 128 → c < 128 → is_byte_in [b] (query !! (i + 1)%nat) = true →
            is_byte_in [c] (query !! (i + 2)%nat) = true → step_spec query st (Ok (token st lex' (i + 3)))) as H3.
  { intros b c lex' Hlt Hb Hcb Hn%is_byte_in_Some Ht%is_byte_in_Some.
    apply step_token; try done; try lia. by eapply three_ascii. }
  destruct (_ && _) eqn:E1; [bool_prop; subst; by eapply H2; [..|done]|clear E1].
  destruct (Z.eqb_spec current 35) as [->|_]; [apply step_advance; auto with lia|].
  destruct (_ && _) eqn:E1; [bool_prop; subst; by eapply H2; [..|done]|clear E1].
  destruct (Z.eqb_spec current 63) as [->|_]; [apply step_positional; auto with lia|].
  destruct (_ && negb _) eqn:E1.
  { apply andb_true_iff in E1 as [E1 _]. apply andb_true_iff in E1 as [E1 E2]. bool_prop. subst.
    destruct (query !! (i + 1)%nat) as [b|] eqn:Hb; [|done]. by eapply scan_named_spec. }
  clear E1.
  destruct (_ && _) eqn:E1.
  { apply andb_true_iff in E1 as [E1 E2]. eapply H2; [|..|exact E2]; [|done].
    eapply ascii_member; [exact E1|]. by repeat constructor. }
  clear E1. destruct (_ && _) eqn:E1.
  { apply andb_true_iff in E1 as [E1 E2]. eapply H2; [|..|exact E2]; [|done].
    eapply ascii_member; [exact E1|]. by repeat constructor. }
  clear E1. destruct (_ && _ && is_byte_in [39] _) eqn:E1.
  { apply andb_true_iff in E1 as [E1 E2]. apply andb_true_iff in E1 as [E0 E1].
    eapply H3; [|..|exact E1|exact E2]; [|done|done]. eapply ascii_member; [exact E0|]. by repeat constructor. }
  clear E1. destruct (_ && _ && is_byte_in [34] _) eqn:E1.
  { apply andb_true_iff in E1 as [E1 E2]. apply andb_true_iff in E1 as [E0 E1].
    eapply H3; [|..|exact E1|exact E2]; [|done|done]. eapply ascii_member; [exact E0|]. by repeat constructor. }
  clear E1.
  destruct (Z.eqb_spec current 39) as [->|_]; [apply step_token; auto with lia|].
  destruct (Z.eqb_spec current 34) as [->|_]; [apply step_token; auto with lia|].
  destruct (is_identifier_start current) eqn:Hs; [by eapply scan_word_spec|].
  apply step_next_char; [done..|]. intros i' _ Hlt Hp'. by apply step_token.
Qed.

Lemma scan_step_spec query st :
  position_ok query (index st) → (index st < length query)%nat → step_spec query st (scan_step query st).
Proof.
  intros Hp Hi. destruct (query !! index st) as [current|] eqn:Hc; [|apply lookup_ge_None in Hc; lia].
  unfold scan_step. rewrite Hc. cbn [or_panic mbind res_bind].
  destruct (lex st) eqn:Hl; [by apply scan_normal_spec|..].
  - case_match; [by apply step_error|]. apply step_next_char; [done..|]. intros. by apply close_quote_spec.
  - apply step_next_char; [done..|]. intros i' Hn Hlt Hp'.
    destruct (_ && _) eqn:E; [|by apply close_quote_spec]. apply andb_true_iff in E as [_ E].
    apply Nat.ltb_lt in E. destruct (next_char_ok query i' Hp' E) as (i'' & -> & Hlt' & Hp'').
    apply step_advance; [lia|done].
  - apply step_next_char; [done..|]. intros. by apply close_quote_spec.
  - apply step_next_char; [done..|]. intros. by apply close_quote_spec.
  - apply step_next_char; [done..|]. intros. by apply step_advance.
  - apply step_next_char; [done..|]. intros i' Hn Hlt Hp'.
    destruct (_ && _) eqn:E; [|by apply step_advance]. apply andb_true_iff in E as [E1 E2]. bool_prop. subst.
    apply is_byte_in_Some in E2. rewrite (next_char_ascii query (index st) 42) in Hn by done.
    injection Hn as <-. apply step_advance; [lia|]. by eapply position_ascii.
Qed.

Lemma scan_semicolon_index st : index (scan_semicolon st) = (index st + 1)%nat.
Proof. unfold scan_semicolon. destruct (semicolon_is_internal _) as [[] ?]; done. Qed.

(** Every step that succeeds moves on, to a position between characters. *)
Lemma step_spec_index query st r :
  step_spec query st r → r ≠ Panic ∧
  ∀ st', r = Ok st' → (index st < index st')%nat ∧ position_ok query (index st').
Proof.
  destruct 1 as [lex' i'|lex' i'|Hl Hc Hp|Hl Hc Hp|finish name Hl Hc Hw|finish word Hl Hw|e];
    (split; [done|]); intros st' Hst; simplify_eq; simpl; try done.
  - rewrite scan_semicolon_index. split; [lia|done].
  - split; [lia|done].
  - destruct Hw as (_ & ? & ? & _). split; [lia|done].
  - destruct Hw as (_ & ? & ? & _). done.
Qed.

(** ** The loop *)

(** An invariant of the steps holds of the final state; the loop returns. *)
Lemma scan_loop_invariant (P : scan_state → Prop) query fuel st :
  (∀ s s', P s → position_ok query (index s) → (index s < length query)%nat →
     step_spec query s (Ok s') → P s') →
  P st → position_ok query (index st) → (length query - index st ≤ fuel)%nat →
  scan_loop fuel query st ≠ Panic ∧
  ∀ st', scan_loop fuel query st = Ok st' → P st' ∧ index st' = length query.
Proof.
  intros Hstep. revert st. induction fuel as [|fuel IH]; intros st HP Hp Hf; simpl.
  { destruct (Nat.leb_spec (length query) (index st)); [|lia]. split; [done|].
    intros st' [= <-]. destruct Hp. split; [done|lia]. }
  destruct (Nat.leb_spec (length query) (index st)).
  { split; [done|]. intros st' [= <-]. destruct Hp. split; [done|lia]. }
  pose proof (scan_step_spec query st Hp ltac:(lia)) as Hs.
  destruct (step_spec_index _ _ _ Hs) as [Hnp Hidx].
  destruct (scan_step query st) as [st1| |] eqn:Hst; simpl; [|done..].
  destruct (Hidx st1 eq_refl) as [Hlt Hp1]. apply IH; [|done|lia].
  by eapply Hstep.
Qed.

(** The loop stops within one step per byte, never slices inside a character
    and never reads past the end. *)
Lemma scan_query_no_panic query : utf8_valid query = true → scan_query query ≠ Panic.
Proof.
  intros Hv. unfold scan_query.
  destruct (scan_loop_invariant (λ _, True) query (length query) scan_init) as [Hnp _];
    [done..|by split; [simpl; lia|]|simpl; lia|].
  destruct (scan_loop _ _ _); simpl; [case_match|..]; done.
Qed.

Lemma scan_query_inv query scan :
  utf8_valid query = true → scan_query query = Ok scan →
  ordered 0 (scan_statements scan) (length query) ∧ Forall (statement_ok query) (scan_statements scan) ∧
  ordered 0 (slot_range <$> scan_slots scan) (length query) ∧ Forall (slot_ok query) (scan_slots scan) ∧
  (∀ r, scan_first_keyword scan = Some r → span_ok query r ∧ (r.1 ≤ r.2)%nat).
Proof.
  intros Hv Hscan. unfold scan_query in Hscan. apply bind_ok in Hscan as (st & Hst & Hscan).
  destruct (scan_loop_invariant (scan_inv query) query (length query) scan_init) as [_ Hinv].
  { intros. by eapply scan_inv_step. }
  { by apply scan_inv_init. }
  { by split; [simpl; lia|]. }
  { simpl. lia. }
  destruct (Hinv st Hst) as [[Hi [Hs1 Hs2] Hc [Ho1 Ho2] [Hl1 Hl2] Hk] Hidx].
  case_match; [done|]. injection Hscan as <-. rewrite Hidx in *. simpl.
  destruct (statement_has_code st) eqn:Hcd; split_and!; try done.
  - apply ordered_snoc; [done|by apply Hc|done].
  - apply Forall_app. split; [done|]. constructor; [|constructor].
    split; [split; [done|apply position_end]|]. by right.
  - by eapply ordered_weaken.
Qed.

(** What a scan reports are pieces of the query: the statements are
    non-empty, in order, disjoint, cut between characters, and each ends at a
    semicolon or at the end; the slots are in order and disjoint, and each is
    a question mark or a colon followed by the identifier that names it. *)
Theorem scan_query_pieces query scan :
  utf8_valid query = true → scan_query query = Ok scan →
  ordered 0 (scan_statements scan) (length query) ∧ Forall (statement_ok query) (scan_statements scan) ∧
  ordered 0 (slot_range <$> scan_slots scan) (length query) ∧ Forall (slot_ok query) (scan_slots scan).
Proof.
  intros Hv Hscan. destruct (scan_query_inv _ _ Hv Hscan) as (H1 & H2 & H3 & H4 & _). done.
Qed.

(** C36. The scanner is total on text: for every valid UTF-8 query, however it
    ends, the scan stops within one step per byte without slicing inside a
    character or reading past the end; and so do the questions the driver asks
    of a scan (may the query modify data, which are its statements). *)
Theorem scan_query_total query :
  utf8_valid query = true →
  scan_query query ≠ Panic ∧ statement_may_modify query ≠ Panic ∧ unbound_statements query ≠ Panic ∧
  parameterized_statements query ≠ Panic.
Proof.
  intros Hv.
  pose proof (scan_query_no_panic query Hv) as Hnp. split; [done|].
  assert (∀ scan, scan_query query = Ok scan → statement_slices query scan ≠ Panic) as Hslices.
  { intros scan Hscan. destruct (scan_query_inv _ _ Hv Hscan) as (Ho & Hs & _).
    unfold statement_slices. case_match; [done|]. apply mapi_res_no_panic. intros _ r Hr.
    apply ordered_bounds in Ho as [_ Ho]. rewrite Forall_forall in Ho, Hs.
    destruct (Hs r Hr) as [[Ha Hb] _]. specialize (Ho r Hr). rewrite str_slice_ok by (done || lia). done. }
  unfold statement_may_modify, unbound_statements, parameterized_statements.
  destruct (scan_query query) as [scan| |] eqn:Hscan; simpl; [|done..]. split_and!.
  - case_match; [done|]. destruct (scan_first_keyword scan) as [r|] eqn:Hk; [|done].
    destruct (scan_query_inv _ _ Hv Hscan) as (_ & _ & _ & _ & Hkw). destruct (Hkw r Hk) as [[Ha Hb] Hle].
    by rewrite str_slice_ok.
  - case_match; [done|]. by apply Hslices.
  - by apply Hslices.
Qed.
End with_unicode.

(** An instance of the table, for closed examples: the letters from U+00C0 on. *)
#[global] Instance letters_from_c0 : Unicode := {| char_is_alphanumeric c := 192 <=? c |}.

Definition sample_query : bytes := str "SELECT :a, '?;' -- ?" ++ [10] ++ str "; SELECT ?".

Lemma scan_query_total_witness :
  scan_query sample_query ≠ Panic ∧ statement_may_modify sample_query ≠ Panic ∧
  unbound_statements sample_query ≠ Panic ∧ parameterized_statements sample_query ≠ Panic.
Proof. apply scan_query_total. vm_compute. reflexivity. Defined.

Lemma scan_query_pieces_witness :
  ordered 0 [(0, 21); (22, 31)]%nat 31 ∧ Forall (statement_ok sample_query) [(0, 21); (22, 31)]%nat ∧
  ordered 0 [(7, 9); (30, 31)]%nat 31 ∧
  Forall (slot_ok sample_query)
    [mkScannedSlot (7, 9)%nat (Some (8, 9)%nat) false; mkScannedSlot (30, 31)%nat None false].
Proof.
  apply (scan_query_pieces sample_query
           (mkQueryScan [(0, 21); (22, 31)]%nat
              [mkScannedSlot (7, 9)%nat (Some (8, 9)%nat) false; mkScannedSlot (30, 31)%nat None false]
              (Some (0, 6)%nat) false)).
  - vm_compute. reflexivity.
  - vm_compute. reflexivity.
Defined.
