(* ===== verification/Template.v ===== *)
(** Query templates and SQL literals
    ([crates/adbc-monetdb/src/driver/parameters.rs]): compiling a query with
    parameters, rendering bound values into it, and the text of every kind of
    value. *)

From stdpp Require Import base list numbers strings gmap.
From S2P Require Import Prelude RustStd Types Calendar ArrowData Errors SqlScan.
Local Open Scope Z_scope.

(** ** Templates *)

Inductive ParameterLayout : Type :=
| Positional (count : nat)
| Named (names : list bytes).

Definition layout_count (layout : ParameterLayout) : nat :=
  match layout with Positional count => count | Named names => length names end.

Definition layout_field_names (layout : ParameterLayout) : list bytes :=
  match layout with
  | Positional count => (λ i, fmt_int (Z.of_nat i)) <$> seq 0 count
  | Named names => names
  end.

Definition layout_is_named (layout : ParameterLayout) : bool :=
  match layout with Named _ => true | Positional _ => false end.

Inductive ParameterSlot : Type :=
| PositionalSlot (index : nat)
| NamedSlot (index : nat).

Record TemplateSlot : Type := mkTemplateSlot {
  parameter : ParameterSlot;
  bare_integer_literal : bool;
}.

Record QueryTemplate : Type := mkQueryTemplate {
  template_query : bytes;
  template_segments : list span;
  template_slots : list TemplateSlot;
  template_layout : ParameterLayout;
}.

(** The variables of the loop over the scanned slots. *)
Record compile_state : Type := mkCompileState {
  segment_start : nat;
  segments : list span;
  compiled : list TemplateSlot;
  positional_count : nat;
  named : list bytes;
  named_indices : gmap bytes nat;
}.

Definition mixed_error : Error :=
  error "positional and named parameters cannot be mixed" InvalidArguments.

Definition compile_slot (query : bytes) (st : compile_state) (scanned : ScannedSlot)
    : res Error compile_state :=
  let segs := segments st ++ [(segment_start st, (slot_range scanned).1)] in
  match slot_name scanned with
  | None =>
      if negb (bool_decide (named st = [])) then Err mixed_error
      else
        Ok (mkCompileState (slot_range scanned).2 segs
              (compiled st ++ [mkTemplateSlot (PositionalSlot (positional_count st)) (slot_bare scanned)])
              (S (positional_count st)) (named st) (named_indices st))
  | Some name_range =>
      if (0 <? positional_count st)%nat then Err mixed_error
      else
        name ← str_slice query name_range.1 name_range.2;
        let '(name_index, named', indices') :=
          match named_indices st !! name with
          | Some i => (i, named st, named_indices st)
          | None => (length (named st), named st ++ [name],
                     <[name := length (named st)]> (named_indices st))
          end in
        Ok (mkCompileState (slot_range scanned).2 segs
              (compiled st ++ [mkTemplateSlot (NamedSlot name_index) (slot_bare scanned)])
              (positional_count st) named' indices')
  end.

Fixpoint compile_slots (query : bytes) (st : compile_state) (scanned : list ScannedSlot)
    : res Error compile_state :=
  match scanned with
  | [] => Ok st
  | s :: scanned => st ← compile_slot query st s; compile_slots query st scanned
  end.

Definition compile_query `{Unicode} (query : bytes) : res Error QueryTemplate :=
  scan ← scan_query query;
  if (1 <? length (scan_statements scan))%nat
  then Err (error "multiple SQL statements are not supported" InvalidArguments)
  else
    st ← compile_slots query (mkCompileState 0 [] [] 0 [] ∅) (scan_slots scan);
    Ok (mkQueryTemplate query (segments st ++ [(segment_start st, length query)]) (compiled st)
          (if bool_decide (named st = []) then Positional (positional_count st) else Named (named st))).

(** The loop of [render] over segments and slots. *)
Fixpoint render_loop (query : bytes) (segs : list span) (slots : list TemplateSlot)
    (resolve : TemplateSlot → res Error bytes) : res Error bytes :=
  match segs, slots with
  | seg :: segs, slot :: slots =>
      text ← str_slice query seg.1 seg.2;
      value ← resolve slot;
      rest ← render_loop query segs slots resolve;
      Ok (text ++ value ++ rest)
  | _, _ => Ok []
  end.

Definition render (template : QueryTemplate) (resolve : TemplateSlot → res Error bytes) : res Error bytes :=
  output ← render_loop (template_query template) (template_segments template) (template_slots template) resolve;
  match last (template_segments template) with
  | Some seg => tail ← str_slice (template_query template) seg.1 seg.2; Ok (output ++ tail)
  | None => Ok output
  end.

Definition render_nulls (template : QueryTemplate) : res Error bytes :=
  render template (λ _, Ok (str "NULL")).

(** ** Literals *)

(** Text that other crates and the formatter produce: [Display] of a date, of
    an Arrow and of a MonetDB type, [LowerExp] of a double (on bits), and the
    widening of a half. *)
Class SqlFormat := {
  fmt_date : date → bytes;
  fmt_data_type : DataType → bytes;
  fmt_monet_type : MonetType → bytes;
  fmt_f64_exp : Z → bytes;
  f64_from_f16 : Z → Z;
}.

(** [f64::from] of a single, on bits: the exponent is rebiased, a subnormal
    becomes normal. *)
Definition f64_from_f32 (bits : Z) : Z :=
  let sign := Z.shiftl (Z.shiftr bits 31) 63 in
  let exponent := Z.land (Z.shiftr bits 23) 255 in
  let mantissa := Z.land bits 8388607 in
  if exponent =? 255 then sign + Z.shiftl 2047 52 + Z.shiftl mantissa 29
  else if exponent =? 0 then
    if mantissa =? 0 then sign
    else
      let top := Z.log2 mantissa in
      sign + Z.shiftl (top + 874) 52 + Z.shiftl (mantissa - 2 ^ top) (52 - top)
  else sign + Z.shiftl (exponent + 896) 52 + Z.shiftl mantissa 29.

(** [{:0width$}] of a non-negative integer. *)
Definition fmt_pad (width : nat) (z : Z) : bytes :=
  let digits := fmt_int z in replicate (width - length digits) 48 ++ digits.

(** [driver::quote_raw_string]: [R'...'] with every quote doubled. *)
Definition double_char (c : Z) (value : bytes) : bytes := concat ((λ b, if b =? c then [c; c] else [b]) <$> value).
Definition double_quotes : bytes → bytes := double_char 39.
Definition quote_raw_string (value : bytes) : bytes := [82; 39] ++ double_quotes value ++ [39].

Definition quote_string (value : bytes) : res Error bytes :=
  if existsb (λ b, b =? 0) value then Err (error "string parameter contains a NUL byte" InvalidData)
  else Ok (quote_raw_string value).

Definition hex_char (d : Z) : Z := if d <? 10 then 48 + d else 87 + d.
Definition hex_byte (b : Z) : bytes := [hex_char (Z.shiftr b 4); hex_char (Z.land b 15)].

Definition blob_literal (value : bytes) : bytes :=
  str "BLOB '" ++ concat (hex_byte <$> value) ++ [39].

Definition uuid_literal (value : bytes) : bytes :=
  str "UUID '"
  ++ concat (imap (λ i b, (if bool_decide (i ∈ [4; 6; 8; 10]%nat) then [45] else []) ++ hex_byte b) value)
  ++ [39].

(** [digits.insert_str(0, ..)] and the decimal point [scale] digits from the end. *)
Definition decimal_literal (value scale : Z) : res Error bytes :=
  if scale <? 0
  then Err (error "negative-scale decimal parameters are not supported" NotImplemented)
  else
    let scale := Z.to_nat scale in
    let digits := fmt_int (Z.abs value) in
    let digits :=
      if (0 <? scale)%nat then
        let padded := if (length digits <=? scale)%nat
                      then replicate (scale + 1 - length digits) 48 ++ digits else digits in
        take (length padded - scale) padded ++ [46] ++ drop (length padded - scale) padded
      else digits in
    Ok ((if value <? 0 then [45] else []) ++ digits).

Definition format_time (micros : Z) : res Error bytes :=
  if negb ((0 <=? micros) && (micros <? 86400000000))
  then Err (error "time parameter is outside one day" InvalidData)
  else
    let seconds := Z.quot micros 1000000 in
    Ok (fmt_pad 2 (Z.quot seconds 3600) ++ [58] ++ fmt_pad 2 (Z.rem (Z.quot seconds 60) 60) ++ [58]
        ++ fmt_pad 2 (Z.rem seconds 60) ++ [46] ++ fmt_pad 6 (Z.rem micros 1000000)).

Definition interval_fraction (millis : Z) : bytes :=
  if millis =? 0 then [] else [46] ++ fmt_pad 3 millis.

Definition sign_text (negative : bool) : bytes := if negative then [45] else [].

Definition duration_text (millis : Z) : bytes :=
  let absolute := Z.abs millis in
  str "INTERVAL '" ++ sign_text (millis <? 0) ++ fmt_int (absolute / 1000)
  ++ interval_fraction (absolute mod 1000) ++ str "' SECOND".

Definition day_interval_text (millis : Z) : bytes :=
  let absolute := Z.abs millis in
  let total_seconds := absolute / 1000 in
  str "INTERVAL '" ++ sign_text (millis <? 0) ++ fmt_int (total_seconds / 86400) ++ [32]
  ++ fmt_pad 2 (total_seconds / 3600 mod 24) ++ [58] ++ fmt_pad 2 (total_seconds / 60 mod 60) ++ [58]
  ++ fmt_pad 2 (total_seconds mod 60) ++ interval_fraction (absolute mod 1000)
  ++ str "' DAY TO SECOND".

Definition fmt_unit (unit : TimeUnit) : bytes :=
  match unit with
  | Second => str "Second" | Millisecond => str "Millisecond"
  | Microsecond => str "Microsecond" | Nanosecond => str "Nanosecond"
  end.

Section literals.
Context `{Chrono, SqlFormat}.

(** [downcast(array, expected)?.value(row)]; an offset past the end panics. *)
Definition downcast_error {A} (array : ArrayRef) (expected : DataType) : res Error A :=
  Err (mkError (str "expected Arrow parameter type " ++ fmt_data_type expected ++ str ", found "
                ++ fmt_data_type (array_data_type array)) InvalidData).

Definition int_value (array : ArrayRef) (expected : DataType) (row : nat) : res Error Z :=
  match array with
  | APrimitive _ values _ => or_panic (values !! row)
  | _ => downcast_error array expected
  end.

Definition bool_value (array : ArrayRef) (row : nat) : res Error bool :=
  match array with
  | ABoolean values _ => or_panic (values !! row)
  | _ => downcast_error array DBoolean
  end.

Definition bytes_value (array : ArrayRef) (expected : DataType) (row : nat) : res Error bytes :=
  match array with
  | ABytes _ values => v ← or_panic (values !! row); Ok (default [] v)
  | _ => downcast_error array expected
  end.

(** [Array::is_null]: the array's own validity, not the dictionary's values. *)
Definition array_is_null (array : ArrayRef) (row : nat) : bool :=
  match array with
  | ANull _ => false
  | ABoolean _ nulls => is_null nulls row
  | APrimitive _ _ nulls => is_null nulls row
  | ABytes _ values => bool_decide (values !! row = Some None)
  | ADictionary _ keys _ => bool_decide (keys !! row = Some None)
  end.

Definition f64_finite (bits : Z) : bool :=
  negb (Z.land bits 9218868437227405312 =? 9218868437227405312).

Definition float_literal (bits : Z) : res Error bytes :=
  if f64_finite bits then Ok (fmt_f64_exp bits)
  else Err (error "non-finite float parameters are not supported by MonetDB" InvalidData).

Definition date_from_days (days : Z) : res Error date :=
  ok_or (date_from_unix_days days) (error "date parameter is out of range" InvalidData).

Definition date_literal (days : Z) : res Error bytes :=
  d ← date_from_days days; Ok (str "DATE '" ++ fmt_date d ++ [39]).

Definition time_text (keyword suffix : string) (micros : Z) : res Error bytes :=
  text ← format_time micros; Ok (str keyword ++ str " '" ++ text ++ str suffix ++ [39]).

Definition time32_literal (array : ArrayRef) (unit : TimeUnit) (row : nat) : res Error bytes :=
  micros ←
    match unit with
    | Second => v ← int_value array (DTime32 unit) row; Ok (v * 1000000)
    | Millisecond => v ← int_value array (DTime32 unit) row; Ok (v * 1000)
    | _ => Err (mkError (str "invalid Time32 unit " ++ fmt_unit unit) InvalidData)
    end;
  time_text "TIME" "" micros.

(** Nanoseconds, when they are whole microseconds. *)
Definition whole_micros (nanos : Z) (message : string) : res Error Z :=
  if negb (Z.rem nanos 1000 =? 0) then Err (error message InvalidData) else Ok (Z.quot nanos 1000).

Definition time64_literal (array : ArrayRef) (unit : TimeUnit) (timezone : bool) (row : nat) : res Error bytes :=
  micros ←
    match unit with
    | Microsecond => int_value array (DTime64 unit) row
    | Nanosecond => v ← int_value array (DTime64 unit) row;
                    whole_micros v "time parameter is not microsecond-aligned"
    | _ => Err (mkError (str "invalid Time64 unit " ++ fmt_unit unit) InvalidData)
    end;
  if timezone then time_text "TIMETZ" "+00:00" micros else time_text "TIME" "" micros.

(** The date of a [DateTime] is that of its day counted from the epoch. *)
Definition timestamp_literal (array : ArrayRef) (unit : TimeUnit) (timezone : bool) (row : nat)
    : res Error bytes :=
  v ← int_value array (array_data_type array) row;
  let scaled (factor : Z) :=
    ok_or (i64_checked_mul v factor) (error "timestamp parameter overflows" InvalidData) in
  micros ←
    match unit with
    | Second => scaled 1000000
    | Millisecond => scaled 1000
    | Microsecond => scaled 1
    | Nanosecond => whole_micros v "timestamp parameter is not microsecond-aligned"
    end;
  d ← ok_or (date_from_unix_days (micros / 86400000000))
        (error "timestamp parameter is out of range" InvalidData);
  time ← format_time (micros mod 86400000000);
  Ok (str (if timezone then "TIMESTAMPTZ" else "TIMESTAMP") ++ str " '" ++ fmt_date d ++ [32] ++ time
      ++ str (if timezone then "+00:00" else "") ++ [39]).

Definition duration_millis (array : ArrayRef) (unit : TimeUnit) (row : nat) : res Error Z :=
  v ← int_value array (DDuration unit) row;
  let whole (divisor : Z) :=
    if negb (Z.rem v divisor =? 0)
    then Err (error "duration parameter is not millisecond-aligned" InvalidData)
    else Ok (Z.quot v divisor) in
  match unit with
  | Second => ok_or (i64_checked_mul v 1000) (error "duration parameter overflows" InvalidData)
  | Millisecond => Ok v
  | Microsecond => whole 1000
  | Nanosecond => whole 1000000
  end.

(** [literal] below the dictionary case. *)
Definition plain_literal (field : Field) (array : ArrayRef) (row : nat) : res Error bytes :=
  let dt := array_data_type array in
  let int := v ← int_value array dt row; Ok (fmt_int v) in
  if array_is_null array row then Ok (str "NULL")
  else
    match dt with
    | DNull => Ok (str "NULL")
    | DBoolean => b ← bool_value array row; Ok (if b : bool then str "TRUE" else str "FALSE")
    | DInt8 | DInt16 | DInt64 | DUInt8 | DUInt16 | DUInt32 => int
    | DInt32 =>
        if has_extension field "monetdb.interval_month"
        then v ← int_value array dt row; Ok (str "INTERVAL '" ++ fmt_int v ++ str "' MONTH")
        else int
    | DUInt64 =>
        if has_extension field "monetdb.oid" then
          v ← int_value array dt row;
          if 2 ^ 63 <=? v then Err (error "OID parameter must be less than 2^63" InvalidData)
          else Ok (fmt_int v)
        else int
    | DFloat16 => v ← int_value array dt row; float_literal (f64_from_f16 v)
    | DFloat32 => v ← int_value array dt row; float_literal (f64_from_f32 v)
    | DFloat64 => v ← int_value array dt row; float_literal v
    | DDecimal128 _ scale => v ← int_value array dt row; decimal_literal v scale
    | DUtf8 | DLargeUtf8 | DUtf8View => v ← bytes_value array dt row; quote_string v
    | DBinary | DLargeBinary | DBinaryView => v ← bytes_value array dt row; Ok (blob_literal v)
    | DFixedSizeBinary width =>
        v ← bytes_value array dt row;
        if (width =? 16) && has_extension field "arrow.uuid" then Ok (uuid_literal v)
        else Ok (blob_literal v)
    | DDate32 => v ← int_value array dt row; date_literal v
    | DDate64 =>
        v ← int_value array dt row;
        if negb (Z.rem v 86400000 =? 0)
        then Err (error "Date64 parameter is not a whole day" InvalidData)
        else date_literal (Z.quot v 86400000)
    | DTime32 unit => time32_literal array unit row
    | DTime64 unit => time64_literal array unit (has_extension field "monetdb.timetz") row
    | DTimestamp unit timezone => timestamp_literal array unit (bool_decide (is_Some timezone)) row
    | DDuration unit =>
        millis ← duration_millis array unit row;
        if has_extension field "monetdb.interval_day" then Ok (day_interval_text millis)
        else Ok (duration_text millis)
    | _ => Err (mkError (str "Arrow parameter type " ++ fmt_data_type dt ++ str " is not supported")
                  NotImplemented)
    end.

Definition is_dictionary_key (key : DataType) : bool :=
  match key with
  | DInt8 | DInt16 | DInt32 | DInt64 | DUInt8 | DUInt16 | DUInt32 | DUInt64 => true
  | _ => false
  end.

(** [literal]; a dictionary's value is rendered as a value of its own array,
    under the field's metadata. *)
Fixpoint literal (field : Field) (array : ArrayRef) (row : nat) : res Error bytes :=
  match array with
  | ADictionary key keys values =>
      if array_is_null array row then Ok (str "NULL")
      else if negb (is_dictionary_key key) then
        Err (mkError (str "dictionary key type " ++ fmt_data_type key ++ str " is not supported")
               NotImplemented)
      else
        k ← or_panic (keys !! row);
        match k with
        | None => Ok (str "NULL")
        | Some k =>
            if (array_len values <=? k)%nat then
              Err (mkError (str "dictionary parameter key " ++ fmt_int (Z.of_nat k)
                            ++ str " is outside the values array of length "
                            ++ fmt_int (Z.of_nat (array_len values))) InvalidData)
            else
              literal (mkField [] (array_data_type values) true (field_metadata field)) values k
        end
  | _ => plain_literal field array row
  end.

Definition value_dependent_literal_type (field : Field) : bool :=
  match field_data_type field with
  | DInt32 => negb (has_extension field "monetdb.interval_month")
  | DInt8 | DInt16 | DInt64 | DUInt8 | DUInt16 | DUInt32 | DUInt64 | DFloat16 | DFloat32
  | DDecimal128 _ _ => true
  | _ => false
  end.

(** [Display] of an [EncodeError]. *)
Definition encode_error_text (e : EncodeError) : bytes :=
  match e with
  | EE_Unsupported dt => str "Arrow type " ++ fmt_data_type dt ++ str " is not supported"
  | EE_UnsupportedMonetType t =>
      str "MonetDB type " ++ fmt_monet_type t ++ str " is not supported for COPY BINARY encoding"
  | EE_InvalidValue row message => str "invalid value at row " ++ fmt_int (Z.of_nat row) ++ str ": " ++ str message
  | EE_TypeMismatch expected actual =>
      str "expected Arrow type " ++ fmt_data_type expected ++ str ", found " ++ fmt_data_type actual
  end.

(** [Display] of a [FrameError]. *)
Definition fmt_frame_error (e : FrameError) : bytes :=
  match e with
  | Server message => str "server error: " ++ message
  | Malformed what => str "malformed Xexportbin frame: " ++ str what
  end.

(** [Display] of a [DecodeError]; what concerns reading takes the text of an
    error as an argument, and this is the one the driver has. *)
Definition fmt_decode_error (e : DecodeError) : bytes :=
  let at_row (row : nat) := str " at row " ++ fmt_int (Z.of_nat row) in
  match e with
  | DE_Frame e => fmt_frame_error e
  | DE_ResultId expected actual => str "frame has result id " ++ fmt_int actual ++ str "; expected " ++ fmt_int expected
  | DE_StartRow expected actual => str "frame starts at row " ++ fmt_int actual ++ str "; expected " ++ fmt_int expected
  | DE_RowCount requested actual =>
      str "frame contains " ++ fmt_int actual ++ str " rows; at most " ++ fmt_int requested ++ str " were requested"
  | DE_ColumnCount expected actual =>
      str "result metadata has " ++ fmt_int expected ++ str " columns but frame has " ++ fmt_int actual
  | DE_Length expected actual => str "column has " ++ fmt_int actual ++ str " bytes; expected " ++ fmt_int expected
  | DE_InvalidColumn message => str "invalid column: " ++ str message
  | DE_InvalidValue row message => str "invalid value" ++ at_row row ++ str ": " ++ str message
  | DE_InvalidUtf8 row => str "invalid UTF-8" ++ at_row row
  | DE_InvalidBackref row => str "invalid string back-reference" ++ at_row row
  | DE_Cursor message => str message
  | DE_Unsupported data_type =>
      str "MonetDB type " ++ fmt_monet_type data_type
      ++ match data_type with
         | MGeometry | MInet | MXml => str " is not available through Xexportbin; cast the column to VARCHAR in SQL"
         | _ => str " is not supported by the binary protocol"
         end
  | DE_Arrow message => str message
  end.

Definition typed_template_literal (field : Field) (array : ArrayRef) (row : nat) (value : bytes)
    : res Error bytes :=
  if bool_decide (field_data_type field = DNull) then Ok value
  else if negb (array_is_null array row || value_dependent_literal_type field) then Ok value
  else
    data_type ← map_err (λ e, mkError (encode_error_text e) NotImplemented) (sql_type_for_field field);
    Ok (str "CAST(" ++ value ++ str " AS " ++ data_type ++ str ")").

(** ** Rendering a row *)

Record TemplateArgument : Type := mkTemplateArgument {
  argument_literal : bytes;
  argument_typed : bytes;
}.

Definition argument_render (argument : TemplateArgument) (bare : bool) : bytes :=
  if bare then argument_literal argument else argument_typed argument.

Definition render_arguments (batch : RecordBatch) (row : nat) : res Error (list bytes) :=
  if (batch_rows batch <=? row)%nat then Err (error "parameter row is out of bounds" InvalidArguments)
  else map_res (λ '(array, field), literal field array row) (zip (batch_columns batch) (batch_schema batch)).

Definition render_template_arguments (batch : RecordBatch) (row : nat) : res Error (list TemplateArgument) :=
  if (batch_rows batch <=? row)%nat then Err (error "parameter row is out of bounds" InvalidArguments)
  else
    map_res (λ '(array, field),
      text ← literal field array row;
      typed ← typed_template_literal field array row text;
      Ok (mkTemplateArgument text typed)) (zip (batch_columns batch) (batch_schema batch)).

(** The map from field names to values; a duplicate name is an error. *)
Fixpoint named_values (fields : list (Field * TemplateArgument)) (values : gmap bytes TemplateArgument)
    : res Error (gmap bytes TemplateArgument) :=
  match fields with
  | [] => Ok values
  | (field, value) :: fields =>
      match values !! field_name field with
      | Some _ =>
          Err (mkError (str "bound parameter name '" ++ field_name field ++ str "' is duplicated")
                 InvalidArguments)
      | None => named_values fields (<[field_name field := value]> values)
      end
  end.

Definition unbound_error (name : bytes) : Error :=
  mkError (str "named parameter '" ++ name ++ str "' was not bound") InvalidArguments.

(** The name reported for a value no parameter takes: [HashMap::keys] has no
    fixed order, the map's own order is used here. *)
Definition extra_name (values : gmap bytes TemplateArgument) (names : list bytes) : option bytes :=
  head (filter (λ name, name ∉ names) (fst <$> map_to_list values)).

Definition render_row (template : QueryTemplate) (batch : RecordBatch) (row : nat) (bind_by_name : bool)
    : res Error bytes :=
  values ← render_template_arguments batch row;
  match template_layout template with
  | Positional count =>
      if bind_by_name then Err (error "positional parameters cannot be bound by name" InvalidArguments)
      else if negb (count =? length values)%nat then
        Err (mkError (str "query has " ++ fmt_int (Z.of_nat count) ++ str " positional parameters but "
                      ++ fmt_int (len values) ++ str " values were bound") InvalidArguments)
      else
        render template (λ slot,
          match parameter slot with
          | PositionalSlot index =>
              value ← or_panic (values !! index);
              Ok (argument_render value (bare_integer_literal slot))
          | NamedSlot _ => Panic
          end)
  | Named names =>
      if negb bind_by_name then
        Err (error "named parameters require adbc.monetdb.bind_by_name" InvalidArguments)
      else
        nvalues ← named_values (zip (batch_schema batch) values) ∅;
        match head (filter (λ name, nvalues !! name = None) names) with
        | Some missing => Err (unbound_error missing)
        | None =>
            if (length names <? size nvalues)%nat then
              extra ← or_panic (extra_name nvalues names);
              Err (mkError (str "bound parameter '" ++ extra ++ str "' is not present in the query")
                     InvalidArguments)
            else
              render template (λ slot,
                match parameter slot with
                | NamedSlot index =>
                    name ← or_panic (names !! index);
                    value ← ok_or (nvalues !! name) (unbound_error name);
                    Ok (argument_render value (bare_integer_literal slot))
                | PositionalSlot _ => Panic
                end)
        end
  end.
End literals.
