(* ===== verification/TemplateProofs.v ===== *)
(** Properties of query templates: what compiling keeps of a query, what
    rendering puts into it, and the layout of its parameters. *)

From stdpp Require Import base list numbers strings gmap.
From S2P Require Import Prelude RustStd Types Calendar ArrowData Errors SqlScan SqlScanProofs Template.
Local Open Scope Z_scope.

(** ** Compiling *)

(** Texts with values between them; the texts are one more. *)
Fixpoint interleave (texts values : list bytes) : bytes :=
  match texts, values with
  | text :: texts, value :: values => text ++ value ++ interleave texts values
  | texts, _ => concat texts
  end.

Definition slice (query : bytes) (r : span) : bytes := take (r.2 - r.1) (drop r.1 query).

(** The slots agree with the layout: positions count up from zero, names are
    listed once each, in the order they first appear, and a slot points at
    the name it is written with. *)
Definition slot_agrees (query : bytes) (names : list bytes) (position : nat) (scanned : ScannedSlot)
    (slot : TemplateSlot) : Prop :=
  bare_integer_literal slot = slot_bare scanned ∧
  match slot_name scanned, parameter slot with
  | None, PositionalSlot i => i = position
  | Some r, NamedSlot i => names !! i = Some (slice query r)
  | _, _ => False
  end.

Record compile_inv (query : bytes) (done : list ScannedSlot) (st : compile_state) : Prop := {
  ci_segments : length (segments st) = length done;
  ci_start : position_ok query (segment_start st);
  ci_pieces :
    interleave (slice query <$> segments st) ((λ s, slice query (slot_range s)) <$> done)
    = take (segment_start st) query;
  ci_spans : Forall (λ r, span_ok query r ∧ (r.1 ≤ r.2)%nat) (segments st);
  ci_order : ordered 0 (slot_range <$> done) (segment_start st);
  ci_slots : Forall2 (λ p slot, slot_agrees query (named st) p.1 p.2 slot)
               (zip (seq 0 (length done)) done) (compiled st);
  ci_nodup : NoDup (named st);
  ci_indices : ∀ name i, named_indices st !! name = Some i ↔ named st !! i = Some name;
  ci_kind : match named st with
            | [] => positional_count st = length done
            | _ => positional_count st = 0%nat ∧ Forall (λ s, is_Some (slot_name s)) done
            end;
}.

Lemma interleave_snoc texts values text value :
  length texts = length values →
  interleave (texts ++ [text]) (values ++ [value]) = interleave texts values ++ text ++ value.
Proof.
  revert values; induction texts as [|t texts IH]; intros [|v values] Hl; simpl in *; try done.
  { by rewrite !app_nil_r. }
  rewrite IH by lia. by rewrite <- !app_assoc.
Qed.

Lemma take_slices query a b c :
  (a ≤ b)%nat → (b ≤ c)%nat → take a query ++ slice query (a, b) ++ slice query (b, c) = take c query.
Proof.
  intros Hab Hbc. unfold slice. simpl.
  assert (∀ x y, (x ≤ y)%nat → take x query ++ take (y - x) (drop x query) = take y query) as Hstep.
  { intros x y Hxy. rewrite <- (take_drop x (take y query)) at 1. rewrite take_take, Nat.min_l by lia.
    f_equal. rewrite skipn_firstn_comm. done. }
  rewrite app_assoc, Hstep by lia. by apply Hstep.
Qed.

Lemma seq_snoc (done : list ScannedSlot) s :
  zip (seq 0 (length (done ++ [s]))) (done ++ [s]) = zip (seq 0 (length done)) done ++ [(length done, s)].
Proof.
  rewrite length_app, seq_app. simpl. rewrite zip_with_app by (by rewrite length_seq). done.
Qed.

Lemma slot_agrees_mono query names names' i s slot :
  slot_agrees query names i s slot → (∀ k name, names !! k = Some name → names' !! k = Some name) →
  slot_agrees query names' i s slot.
Proof.
  intros [Hb Hp] Hmono. split; [done|]. destruct (slot_name s), (parameter slot); try done. by apply Hmono.
Qed.

(** The parts of the invariant that do not depend on the kind of the slot. *)
Lemma compile_pieces query done st s :
  compile_inv query done st → slot_ok query s → (segment_start st ≤ (slot_range s).1)%nat →
  ((slot_range s).1 < (slot_range s).2)%nat →
  let segs := segments st ++ [(segment_start st, (slot_range s).1)] in
  length segs = length (done ++ [s]) ∧ position_ok query (slot_range s).2 ∧
  interleave (slice query <$> segs) ((λ s, slice query (slot_range s)) <$> (done ++ [s]))
    = take (slot_range s).2 query ∧
  Forall (λ r, span_ok query r ∧ (r.1 ≤ r.2)%nat) segs ∧
  ordered 0 (slot_range <$> (done ++ [s])) (slot_range s).2.
Proof.
  intros [H1 H2 H3 H4 H5 _ _ _ _] Hok Hle Hlt segs. unfold segs.
  destruct s as [[a b] name bare]. unfold slot_ok in Hok. simpl in *. destruct Hok as [[Ha Hb] _]. simpl in *.
  split_and!.
  - rewrite !length_app. simpl. lia.
  - done.
  - rewrite !fmap_app. simpl. rewrite interleave_snoc by (by rewrite !length_fmap).
    rewrite H3. apply take_slices; lia.
  - apply Forall_app. split; [done|]. by apply Forall_singleton.
  - rewrite fmap_app. simpl. apply ordered_snoc; [|lia|lia]. by eapply ordered_weaken.
Qed.

Lemma compile_slot_inv query done st s st' :
  compile_inv query done st → slot_ok query s → (segment_start st ≤ (slot_range s).1)%nat →
  ((slot_range s).1 < (slot_range s).2)%nat → compile_slot query st s = Ok st' →
  compile_inv query (done ++ [s]) st'.
Proof.
  intros Hinv Hok Hle Hlt Hc.
  destruct (compile_pieces _ _ _ _ Hinv Hok Hle Hlt) as (P1 & P2 & P3 & P4 & P5).
  destruct Hinv as [_ _ _ _ _ Hs Hn Hi Hk]. unfold compile_slot in Hc.
  destruct (slot_name s) as [r|] eqn:Hname.
  - case_match; [done|]. apply bind_ok in Hc as (name & Hslice & Hc).
    assert (name = slice query r) as ->.
    { unfold str_slice in Hslice. destruct (_ && _ && _ && _) in Hslice; [|done]. by injection Hslice as <-. }
    assert (positional_count st = 0%nat) as Hp0.
    { destruct (Nat.ltb_spec 0 (positional_count st)); [done|lia]. }
    destruct (named_indices st !! slice query r) as [i|] eqn:Hfound; injection Hc as <-; split; simpl; try done.
    + rewrite seq_snoc. apply Forall2_app; [done|]. constructor; [|constructor].
      split; [done|]. simpl. rewrite Hname. by apply Hi.
    + apply Hi in Hfound. destruct (named st); [done|]. split; [done|].
      apply Forall_app. split; [by apply Hk|]. apply Forall_singleton. by rewrite Hname.
    + rewrite seq_snoc. apply Forall2_app; [|constructor; [|constructor]].
      * eapply Forall2_impl; [exact Hs|]. intros p slot Ha. eapply slot_agrees_mono; [exact Ha|].
        intros k nm Hk'. by apply lookup_app_l_Some.
      * split; [done|]. simpl. rewrite Hname. by rewrite lookup_app_r, Nat.sub_diag by lia.
    + apply NoDup_app. split_and!; [done| |apply NoDup_singleton]. intros nm Hin Hin'.
      apply list_elem_of_singleton in Hin' as ->. apply list_elem_of_lookup in Hin as [i Hin].
      apply Hi in Hin. congruence.
    + intros nm i. destruct (decide (nm = slice query r)) as [->|Hne].
      * rewrite lookup_insert_eq. split; [intros [= <-]; by rewrite lookup_app_r, Nat.sub_diag by lia|].
        intros Hl. apply lookup_app_Some in Hl as [Hl|[Hl1 Hl2]]; [apply Hi in Hl; congruence|].
        apply list_lookup_singleton_Some in Hl2 as [Hl2 _]. f_equal. lia.
      * rewrite lookup_insert_ne, Hi by done. split; [by apply lookup_app_l_Some|].
        intros Hl. apply lookup_app_Some in Hl as [Hl|[Hl1 Hl2]]; [done|].
        apply list_lookup_singleton_Some in Hl2 as [_ Hl2]. congruence.
    + assert (Forall (λ s, is_Some (slot_name s)) (done ++ [s])) as Hall.
      { apply Forall_app. split; [|apply Forall_singleton; by rewrite Hname].
        destruct (named st); [|by apply Hk]. destruct done; [by constructor|]. simpl in Hk. lia. }
      by destruct (named st).
  - destruct (bool_decide_reflect (named st = [])) as [Hnil|]; [|done]. cbn [negb] in Hc.
    injection Hc as <-. rewrite Hnil in *. split; simpl; try done.
    + rewrite seq_snoc. apply Forall2_app; [done|]. constructor; [|constructor].
      split; [done|]. simpl. by rewrite Hname.
    + rewrite length_app. simpl. lia.
Qed.

Lemma compile_slot_start query st s st' :
  compile_slot query st s = Ok st' → segment_start st' = (slot_range s).2.
Proof.
  unfold compile_slot. destruct (slot_name s) as [r|].
  - destruct (0 <? positional_count st)%nat; [done|]. intros H. apply bind_ok in H as (name & _ & H).
    by destruct (named_indices st !! name); injection H as <-.
  - destruct (negb _); [done|]. by intros [= <-].
Qed.

Lemma compile_slots_inv query done rest st st' hi :
  compile_inv query done st → Forall (slot_ok query) rest →
  ordered (segment_start st) (slot_range <$> rest) hi → compile_slots query st rest = Ok st' →
  compile_inv query (done ++ rest) st' ∧ (segment_start st' ≤ hi)%nat.
Proof.
  revert done st; induction rest as [|s rest IH]; intros done st Hinv Hok Ho Hc; simpl in Hc.
  { injection Hc as <-. rewrite app_nil_r. split; [done|]. by destruct (ordered_bounds _ _ _ Ho). }
  apply bind_ok in Hc as (st1 & H1 & Hc). simpl in Ho.
  inversion Ho as [|lo r l hi' Hle Hlt Hrest]; subst. inversion Hok; subst.
  assert (segment_start st1 = (slot_range s).2) as Hstart.
  { by eapply compile_slot_start. }
  destruct (IH (done ++ [s]) st1) as [Hi Hb]; try done.
  - by eapply compile_slot_inv.
  - by rewrite Hstart.
  - by rewrite <- app_assoc in Hi.
Qed.

Lemma compile_inv_init query : utf8_valid query = true → compile_inv query [] (mkCompileState 0 [] [] 0 [] ∅).
Proof.
  intros Hv. split; simpl; try constructor; try done; try lia.
Qed.

Section with_unicode.
Context `{Unicode}.

(** What [compile_query] has made of a query. *)
Definition compiled_from (query : bytes) (scan : QueryScan) (t : QueryTemplate) : Prop :=
  ∃ st, compile_inv query (scan_slots scan) st ∧ (segment_start st ≤ length query)%nat ∧
    (length (scan_statements scan) ≤ 1)%nat ∧ Forall (slot_ok query) (scan_slots scan) ∧
    t = mkQueryTemplate query (segments st ++ [(segment_start st, length query)]) (compiled st)
          (if bool_decide (named st = []) then Positional (positional_count st) else Named (named st)).

Lemma compile_query_inv query t :
  utf8_valid query = true → compile_query query = Ok t →
  ∃ scan, scan_query query = Ok scan ∧ compiled_from query scan t.
Proof.
  intros Hv Hc. unfold compile_query in Hc. apply bind_ok in Hc as (scan & Hscan & Hc).
  destruct (scan_query_inv _ _ Hv Hscan) as (_ & _ & Ho & Hok & _).
  destruct (Nat.ltb_spec 1 (length (scan_statements scan))); [done|].
  apply bind_ok in Hc as (st & Hst & Hc). injection Hc as <-.
  destruct (compile_slots_inv query [] (scan_slots scan) _ st (length query)
              (compile_inv_init query Hv) Hok Ho Hst) as [Hinv Hle].
  exists scan. split; [done|]. exists st. split_and!; try done; lia.
Qed.

(** ** Rendering *)

Lemma render_loop_ok query segs slots values resolve last_seg :
  Forall (λ r, span_ok query r ∧ (r.1 ≤ r.2)%nat) segs → length segs = length slots →
  Forall2 (λ slot value, resolve slot = Ok value) slots values →
  ∃ out, render_loop query (segs ++ [last_seg]) slots resolve = Ok out ∧
    ∀ tail, out ++ tail = interleave (slice query <$> segs) values ++ tail.
Proof.
  intros Hs Hl Hr. revert slots values Hl Hr. induction Hs as [|seg segs [[Ha Hb] Hle] _ IH];
    intros slots values Hl Hr; destruct slots as [|slot slots]; try done; inversion Hr as [|? value ? values' Hv Hr']; subst.
  { by exists []. }
  simpl. rewrite str_slice_ok by done. simpl. rewrite Hv. simpl.
  destruct (IH slots values' ltac:(simpl in Hl; lia) Hr') as (out & Ho & Ht). rewrite Ho. simpl.
  eexists. split; [done|]. intros tail. rewrite <- !app_assoc. by rewrite Ht.
Qed.

(** The parts of the query around the slots, and the slots. *)
Definition around (t : QueryTemplate) : list bytes := slice (template_query t) <$> template_segments t.

Lemma interleave_last texts values text :
  length texts = length values → interleave (texts ++ [text]) values = interleave texts values ++ text.
Proof.
  revert values; induction texts as [|x texts IH]; intros [|v values] Hl; simpl in *; try done.
  { by rewrite app_nil_r. }
  rewrite IH by lia. by rewrite <- !app_assoc.
Qed.

Lemma render_interleave query scan t resolve values :
  compiled_from query scan t →
  Forall2 (λ slot value, resolve slot = Ok value) (template_slots t) values →
  render t resolve = Ok (interleave (around t) values).
Proof.
  intros (st & Hinv & Hle & _ & _ & ->) Hr. destruct Hinv as [H1 H2 _ H4 _ H6 _ _ _].
  assert (length (compiled st) = length (scan_slots scan)) as Hlen.
  { apply Forall2_length in H6. rewrite length_zip_with, length_seq in H6. lia. }
  unfold render, around. simpl in *.
  destruct (render_loop_ok query (segments st) (compiled st) values resolve
              (segment_start st, length query) H4 ltac:(lia) Hr) as (out & -> & Ht).
  cbn [mbind res_bind]. rewrite last_snoc. simpl. rewrite str_slice_ok by (done || apply position_end).
  simpl. f_equal. rewrite Ht, fmap_app. simpl. symmetry. apply interleave_last.
  rewrite length_fmap. apply Forall2_length in Hr. lia.
Qed.

(** A template is its query: the parts around the slots, with the slots'
    own text between them, are the query, byte for byte; and rendering any
    values leaves the parts as they are and puts the values in the slots'
    places, in order.  A template has at most one statement. *)
Theorem compile_render query t :
  utf8_valid query = true → compile_query query = Ok t →
  ∃ scan, scan_query query = Ok scan ∧ (length (scan_statements scan) ≤ 1)%nat ∧
    length (template_slots t) = length (scan_slots scan) ∧
    interleave (around t) ((λ s, slice query (slot_range s)) <$> scan_slots scan) = query ∧
    ∀ resolve values,
      Forall2 (λ slot value, resolve slot = Ok value) (template_slots t) values →
      render t resolve = Ok (interleave (around t) values).
Proof.
  intros Hv Hc. destruct (compile_query_inv _ _ Hv Hc) as (scan & Hscan & Hfrom).
  exists scan. pose proof Hfrom as (st & Hinv & Hle & Hone & _ & ->).
  destruct Hinv as [H1 H2 H3 H4 _ H6 _ _ _]. simpl. split_and!; try done.
  - apply Forall2_length in H6. rewrite length_zip_with, length_seq in H6. lia.
  - unfold around. simpl. rewrite fmap_app. simpl. rewrite interleave_last by (by rewrite !length_fmap).
    rewrite H3. unfold slice. simpl. rewrite <- length_drop, firstn_all. apply take_drop.
  - intros resolve values Hr. by eapply render_interleave.
Qed.

End with_unicode.

(** ** Binding a row *)

(** What Arrow guarantees of a batch: a column per field, of the batch's length. *)
Definition batch_ok (batch : RecordBatch) : Prop :=
  length (batch_columns batch) = length (batch_schema batch) ∧
  Forall (λ a, array_len a = batch_rows batch) (batch_columns batch).

Section binding.
Context `{Unicode, Chrono, SqlFormat}.

Lemma lookup_no_panic {A} (l : list A) i : (i < length l)%nat → @or_panic Error A (l !! i) ≠ Panic.
Proof. intros Hi. by apply or_panic_no_panic, lookup_lt_is_Some. Qed.

Lemma int_value_no_panic array dt row : (row < array_len array)%nat → int_value array dt row ≠ Panic.
Proof. destruct array; simpl; try done. apply lookup_no_panic. Qed.

Lemma bool_value_no_panic array row : (row < array_len array)%nat → bool_value array row ≠ Panic.
Proof. destruct array; simpl; try done. apply lookup_no_panic. Qed.

Lemma bytes_value_no_panic array dt row : (row < array_len array)%nat → bytes_value array dt row ≠ Panic.
Proof. destruct array; simpl; try done. intros Hr. apply bind_no_panic; [by apply lookup_no_panic|done]. Qed.

Lemma format_time_no_panic micros : format_time micros ≠ Panic.
Proof. unfold format_time. by destruct (negb _). Qed.

Lemma whole_micros_no_panic v m : whole_micros v m ≠ Panic.
Proof. unfold whole_micros. by destruct (negb _). Qed.

Lemma decimal_literal_no_panic v s : decimal_literal v s ≠ Panic.
Proof. unfold decimal_literal. by destruct (s <? 0). Qed.

Hint Resolve int_value_no_panic bool_value_no_panic bytes_value_no_panic format_time_no_panic
  whole_micros_no_panic decimal_literal_no_panic : rust.

Lemma plain_literal_no_panic field array row :
  (row < array_len array)%nat → plain_literal field array row ≠ Panic.
Proof.
  intros Hr. unfold plain_literal, float_literal, quote_string, date_literal, date_from_days, time32_literal,
    time64_literal, time_text, timestamp_literal, duration_millis.
  no_panic; auto with rust.
Qed.

Lemma literal_no_panic field array row : (row < array_len array)%nat → literal field array row ≠ Panic.
Proof.
  revert field row. induction array as [| | | |key keys values IH]; intros field row Hr;
    try by apply plain_literal_no_panic.
  cbn [literal]. destruct (array_is_null _ _); [done|]. destruct (negb _); [done|].
  apply bind_no_panic; [by apply lookup_no_panic|]. intros [k|] _; [|done].
  destruct (Nat.leb_spec (array_len values) k); [done|]. by apply IH.
Qed.

Lemma zip_columns batch array field row :
  batch_ok batch → (row < batch_rows batch)%nat →
  (array, field) ∈ zip (batch_columns batch) (batch_schema batch) → (row < array_len array)%nat.
Proof.
  intros [_ Hf] Hr Hin. apply elem_of_zip_l in Hin. rewrite Forall_forall in Hf. by rewrite (Hf _ Hin).
Qed.

Lemma typed_template_literal_no_panic field array row value :
  typed_template_literal field array row value ≠ Panic.
Proof.
  unfold typed_template_literal, sql_type_for_field, monet_type_for_field. no_panic.
Qed.

Lemma render_template_arguments_no_panic batch row :
  batch_ok batch → render_template_arguments batch row ≠ Panic.
Proof.
  intros Hb. unfold render_template_arguments. destruct (Nat.leb_spec (batch_rows batch) row); [done|].
  apply mapi_res_no_panic. intros _ [array field] Hin. no_panic.
  - apply literal_no_panic. by eapply zip_columns.
  - apply typed_template_literal_no_panic.
Qed.

Lemma render_template_arguments_length batch row args :
  batch_ok batch → render_template_arguments batch row = Ok args → length args = length (batch_schema batch).
Proof.
  intros [Hl _]. unfold render_template_arguments. destruct (_ <=? _)%nat; [done|]. intros Hm.
  apply mapi_res_length in Hm. rewrite Hm, length_zip_with. lia.
Qed.

(** The map of the bound names: each name once, with its own column's value. *)
Lemma named_values_spec fields values m :
  named_values fields values = Ok m →
  size m = (size values + length fields)%nat ∧
  ∀ name a, m !! name = Some a ↔ values !! name = Some a ∨ ∃ f, (f, a) ∈ fields ∧ field_name f = name.
Proof.
  revert values; induction fields as [|[f a] fields IH]; intros values Hm; simpl in Hm.
  { injection Hm as <-. split; [simpl; lia|]. set_solver. }
  destruct (values !! field_name f) eqn:Hf; [done|]. destruct (IH _ Hm) as [Hs Hl]. split.
  { rewrite Hs, map_size_insert_None by done. simpl. lia. }
  intros name b. rewrite Hl. destruct (decide (name = field_name f)) as [->|Hne].
  - rewrite lookup_insert_eq. split.
    + intros [[= ->]|(g & Hg & Hn)]; right; [exists f|exists g]; set_solver.
    + intros [Hv|(g & Hg & Hn)]; [congruence|]. apply elem_of_cons in Hg as [[= -> ->]|Hg]; [by left|].
      right. by exists g.
  - rewrite lookup_insert_ne by done. split; [naive_solver set_solver|].
    intros [Hv|(g & Hg & Hn)]; [by left|]. apply elem_of_cons in Hg as [[= -> ->]|Hg]; [done|].
    right. by exists g.
Qed.

Lemma named_values_no_panic fields values : named_values fields values ≠ Panic.
Proof.
  revert values; induction fields as [|[f a] fields IH]; intros values; simpl; [done|].
  by destruct (values !! field_name f).
Qed.

(** The [expect] in [render_row]: more bound names than parameters leaves one over. *)
Lemma extra_name_some (values : gmap bytes TemplateArgument) names :
  (length names < size values)%nat → is_Some (extra_name values names).
Proof.
  intros Hl. unfold extra_name. destruct (filter _ _) as [|x l] eqn:Hf; [exfalso|by exists x].
  assert (∀ name, name ∈ fst <$> map_to_list values → name ∈ names) as Hin.
  { intros name Hn. destruct (decide (name ∈ names)); [done|].
    assert (name ∈ filter (λ name, name ∉ names) (fst <$> map_to_list values)) as Hx
      by (by apply list_elem_of_filter).
    rewrite Hf in Hx. by apply elem_of_nil in Hx. }
  assert (fst <$> map_to_list values ⊆+ names) as Hsub.
  { apply NoDup_submseteq; [apply NoDup_fst_map_to_list|done]. }
  apply submseteq_length in Hsub. rewrite length_fmap, length_map_to_list in Hsub. lia.
Qed.

(** The slots of a template and those of its scan, one by one. *)
Lemma compiled_slot_lookup query scan t i slot :
  compiled_from query scan t → template_slots t !! i = Some slot →
  ∃ s, scan_slots scan !! i = Some s ∧ bare_integer_literal slot = slot_bare s ∧
    match template_layout t with
    | Positional count => slot_name s = None ∧ parameter slot = PositionalSlot i ∧ (i < count)%nat
    | Named names => ∃ r j, slot_name s = Some r ∧ parameter slot = NamedSlot j ∧ names !! j = Some (slice query r)
    end.
Proof.
  intros (st & [_ _ _ _ _ Hs _ _ Hk] & _ & _ & _ & ->) Hi. simpl in *.
  destruct (Forall2_lookup_r _ _ _ _ _ Hs Hi) as ([p s] & Hz & Hb & Ha).
  apply lookup_zip_Some in Hz as [Hp Hsc]. apply lookup_seq in Hp as [-> Hlt].
  exists s. split_and!; [done|done|]. simpl in *.
  destruct (slot_name s) as [r|] eqn:Hname, (parameter slot) as [j|j]; try done.
  - destruct (named st) as [|x l] eqn:Hn; [done|]. rewrite bool_decide_eq_false_2 by done.
    by exists r, j.
  - subst j. destruct (named st) as [|x l] eqn:Hn.
    + rewrite bool_decide_eq_true_2 by done. split_and!; [done|done|lia].
    + exfalso. destruct Hk as [_ Hall]. destruct (Forall_lookup_1 _ _ _ _ Hall Hsc) as [r Hr]. congruence.
Qed.

(** The value a slot takes: a positional slot that of its own column, a named
    slot that of the column with its name; the bare literal after a row-count
    keyword, the typed one elsewhere. *)
Definition bound_to (query : bytes) (batch : RecordBatch) (args : list TemplateArgument)
    (i : nat) (s : ScannedSlot) (value : bytes) : Prop :=
  ∃ a, value = argument_render a (slot_bare s) ∧
    match slot_name s with
    | None => args !! i = Some a
    | Some r => ∃ c f, batch_schema batch !! c = Some f ∧ field_name f = slice query r ∧ args !! c = Some a
    end.

(** If every slot resolves, the template renders. *)
Lemma render_resolved query scan t resolve (P : nat → ScannedSlot → bytes → Prop) :
  compiled_from query scan t →
  (∀ i slot s, template_slots t !! i = Some slot → scan_slots scan !! i = Some s →
     ∃ v, resolve slot = Ok v ∧ P i s v) →
  ∃ values, render t resolve = Ok (interleave (around t) values) ∧ length values = length (scan_slots scan) ∧
    ∀ i s, scan_slots scan !! i = Some s → ∃ v, values !! i = Some v ∧ P i s v.
Proof.
  intros Hfrom Hres.
  assert (length (template_slots t) = length (scan_slots scan)) as Hlen.
  { destruct Hfrom as (st & [_ _ _ _ _ H6 _ _ _] & _ & _ & _ & ->). apply Forall2_length in H6.
    rewrite length_zip_with, length_seq in H6. simpl. lia. }
  set (value slot := match resolve slot with Ok v => v | _ => [] end).
  exists (value <$> template_slots t). split_and!.
  - eapply render_interleave; [exact Hfrom|]. apply Forall2_fmap_r, Forall_Forall2_diag, Forall_lookup.
    intros i slot Hi. destruct (compiled_slot_lookup _ _ _ _ _ Hfrom Hi) as (s & Hs & _).
    destruct (Hres _ _ _ Hi Hs) as (v & Hv & _). unfold value. simpl. by rewrite Hv.
  - by rewrite length_fmap.
  - intros i s Hs. destruct (lookup_lt_is_Some_2 (template_slots t) i) as [slot Hi].
    { rewrite Hlen. by eapply lookup_lt_Some. }
    destruct (Hres _ _ _ Hi Hs) as (v & Hv & HP). exists v. split; [|done].
    rewrite list_lookup_fmap, Hi. simpl. unfold value. by rewrite Hv.
Qed.

(** The columns of the batch are the parameters of the layout, by name where
    the layout has names. *)
Definition columns_match (layout : ParameterLayout) (batch : RecordBatch) (args : list TemplateArgument) : Prop :=
  length args = layout_count layout ∧
  match layout with
  | Positional _ => True
  | Named names => field_name <$> batch_schema batch ≡ₚ names
  end.

Lemma render_row_positional query scan t count batch row args :
  compiled_from query scan t → template_layout t = Positional count →
  render_template_arguments batch row = Ok args → length args = count →
  ∃ values, render_row t batch row false = Ok (interleave (around t) values) ∧
    length values = length (scan_slots scan) ∧
    ∀ i s, scan_slots scan !! i = Some s → ∃ v, values !! i = Some v ∧ bound_to query batch args i s v.
Proof.
  intros Hfrom Hlay Hargs Hl. unfold render_row. rewrite Hargs, Hlay. cbn [mbind res_bind].
  rewrite <- Hl, Nat.eqb_refl. cbn [negb]. eapply render_resolved; [exact Hfrom|].
  intros i slot s Hi Hs. destruct (compiled_slot_lookup _ _ _ _ _ Hfrom Hi) as (s' & Hs' & Hb & Hp).
  rewrite Hs in Hs'. injection Hs' as <-. rewrite Hlay in Hp. destruct Hp as (Hname & -> & Hlt).
  destruct (lookup_lt_is_Some_2 args i) as [a Ha]; [lia|]. rewrite Ha. simpl.
  eexists. split; [done|]. exists a. by rewrite Hb, Hname.
Qed.

Lemma render_row_named query scan t names batch row args m :
  compiled_from query scan t → template_layout t = Named names → batch_ok batch →
  render_template_arguments batch row = Ok args →
  named_values (zip (batch_schema batch) args) ∅ = Ok m → (∀ name, name ∈ names → is_Some (m !! name)) →
  (size m ≤ length names)%nat →
  ∃ values, render_row t batch row true = Ok (interleave (around t) values) ∧
    length values = length (scan_slots scan) ∧
    ∀ i s, scan_slots scan !! i = Some s → ∃ v, values !! i = Some v ∧ bound_to query batch args i s v.
Proof.
  intros Hfrom Hlay Hb Hargs Hm Hall Hsize. unfold render_row. rewrite Hargs, Hlay. cbn [mbind res_bind negb].
  rewrite Hm. cbn [mbind res_bind]. destruct (filter _ names) as [|x l] eqn:Hf.
  2: { assert (x ∈ filter (λ name, m !! name = None) names) as Hx by (rewrite Hf; set_solver).
       apply list_elem_of_filter in Hx as [Hx Hin]. destruct (Hall _ Hin). congruence. }
  cbn [head]. destruct (Nat.ltb_spec (length names) (size m)); [lia|].
  eapply render_resolved; [exact Hfrom|].
  intros i slot s Hi Hs. destruct (compiled_slot_lookup _ _ _ _ _ Hfrom Hi) as (s' & Hs' & Hbare & Hp).
  rewrite Hs in Hs'. injection Hs' as <-. rewrite Hlay in Hp. destruct Hp as (r & j & Hname & -> & Hj).
  rewrite Hj. cbn [or_panic mbind res_bind]. destruct (Hall (slice query r)) as [a Ha].
  { by eapply list_elem_of_lookup_2. }
  rewrite Ha. simpl. eexists. split; [done|]. exists a. rewrite Hbare, Hname. split; [done|].
  apply (named_values_spec _ _ _ Hm) in Ha as [Ha|(f & Hfa & Hn)]; [by rewrite lookup_empty in Ha|].
  apply list_elem_of_lookup in Hfa as [c Hc]. apply lookup_zip_Some in Hc as [Hc1 Hc2].
  by exists c, f.
Qed.

(** A row that is bound: the arguments, and the values of the slots. *)
Definition row_bound (query : bytes) (scan : QueryScan) (t : QueryTemplate) (batch : RecordBatch)
    (row : nat) (by_name : bool) (out : bytes) : Prop :=
  ∃ args values,
    render_template_arguments batch row = Ok args ∧ by_name = layout_is_named (template_layout t) ∧
    columns_match (template_layout t) batch args ∧ out = interleave (around t) values ∧
    length values = length (scan_slots scan) ∧
    ∀ i s, scan_slots scan !! i = Some s → ∃ v, values !! i = Some v ∧ bound_to query batch args i s v.

Lemma names_permutation (m : gmap bytes TemplateArgument) batch args names :
  named_values (zip (batch_schema batch) args) ∅ = Ok m → length args = length (batch_schema batch) →
  NoDup names → (∀ name, name ∈ names → is_Some (m !! name)) → (size m ≤ length names)%nat →
  length args = length names ∧ field_name <$> batch_schema batch ≡ₚ names.
Proof.
  intros Hm Hl Hn Hall Hs. destruct (named_values_spec _ _ _ Hm) as [Hsize Hlook].
  rewrite map_size_empty, length_zip_with in Hsize. simpl in Hsize.
  assert (names ⊆+ field_name <$> batch_schema batch) as Hsub.
  { apply NoDup_submseteq; [done|]. intros name Hin. destruct (Hall _ Hin) as [a Ha].
    apply Hlook in Ha as [Ha|(f & Hf & <-)]; [by rewrite lookup_empty in Ha|].
    apply list_elem_of_fmap. exists f. split; [done|]. by apply elem_of_zip_l in Hf. }
  pose proof (submseteq_length _ _ Hsub) as Hle. rewrite length_fmap in Hle.
  split; [lia|]. symmetry. apply submseteq_length_Permutation; [done|]. rewrite length_fmap. lia.
Qed.

Lemma compiled_names_nodup query scan t names :
  compiled_from query scan t → template_layout t = Named names → NoDup names.
Proof.
  intros (st & [_ _ _ _ _ _ Hn _ _] & _ & _ & _ & ->). simpl. by case_bool_decide; intros [= <-].
Qed.

Lemma render_row_cases query scan t batch row by_name :
  compiled_from query scan t → batch_ok batch →
  (∃ e, render_row t batch row by_name = Err e) ∨
  (∃ out, render_row t batch row by_name = Ok out ∧ row_bound query scan t batch row by_name out).
Proof.
  intros Hfrom Hb. destruct (render_template_arguments batch row) as [args|e|] eqn:Hargs.
  2: { left. exists e. unfold render_row. by rewrite Hargs. }
  2: { by apply render_template_arguments_no_panic in Hargs. }
  pose proof (render_template_arguments_length _ _ _ Hb Hargs) as Hl.
  destruct (template_layout t) as [count|names] eqn:Hlay.
  - destruct by_name; [left; eexists; unfold render_row; by rewrite Hargs, Hlay|].
    destruct (Nat.eqb_spec count (length args)) as [->|Hne].
    + right. destruct (render_row_positional _ _ _ _ _ _ _ Hfrom Hlay Hargs eq_refl) as (values & Hr & Hv & Hall).
      exists (interleave (around t) values). split; [done|]. exists args, values. rewrite Hlay. by split_and!.
    + left. eexists. unfold render_row. rewrite Hargs, Hlay. cbn [mbind res_bind].
      by rewrite (proj2 (Nat.eqb_neq _ _) Hne).
  - destruct by_name; [|left; eexists; unfold render_row; by rewrite Hargs, Hlay].
    destruct (named_values (zip (batch_schema batch) args) ∅) as [m|e|] eqn:Hm.
    2: { left. exists e. unfold render_row. rewrite Hargs, Hlay. cbn [mbind res_bind negb]. by rewrite Hm. }
    2: { by apply named_values_no_panic in Hm. }
    destruct (filter (λ name, m !! name = None) names) as [|x l] eqn:Hf.
    2: { left. exists (unbound_error x). unfold render_row. rewrite Hargs, Hlay. cbn [mbind res_bind negb].
         rewrite Hm. cbn [mbind res_bind]. by rewrite Hf. }
    destruct (Nat.ltb_spec (length names) (size m)) as [Hlt|Hge].
    + destruct (extra_name_some m names Hlt) as [x Hx]. left. eexists. unfold render_row.
      rewrite Hargs, Hlay. cbn [mbind res_bind negb]. rewrite Hm. cbn [mbind res_bind]. rewrite Hf. cbn [head].
      rewrite (proj2 (Nat.ltb_lt _ _) Hlt), Hx. done.
    + right. assert (∀ name, name ∈ names → is_Some (m !! name)) as Hall.
      { intros name Hin. destruct (m !! name) eqn:Hn; [done|].
        assert (name ∈ filter (λ name, m !! name = None) names) as Hx by (by apply list_elem_of_filter).
        rewrite Hf in Hx. by apply elem_of_nil in Hx. }
      destruct (render_row_named _ _ _ _ _ _ _ _ Hfrom Hlay Hb Hargs Hm Hall Hge) as (values & Hr & Hv & Hbound).
      exists (interleave (around t) values). split; [done|]. exists args, values. rewrite Hlay.
      split_and!; try done. eapply names_permutation; try done. by eapply compiled_names_nodup.
Qed.

(** C17. Binding a row to a template never panics: slots and layout agree, and
    a surplus name can always be reported.  When it succeeds, the parameter
    columns of the batch are exactly the query's parameters (one per [?], or
    one per distinct name), and every slot has received the text of its own
    parameter: of the column at its position, or of the column of its name. *)
Theorem render_row_binds query t batch row by_name :
  utf8_valid query = true → compile_query query = Ok t → batch_ok batch →
  render_row t batch row by_name ≠ Panic ∧
  ∃ scan, scan_query query = Ok scan ∧
    ∀ out, render_row t batch row by_name = Ok out → row_bound query scan t batch row by_name out.
Proof.
  intros Hv Hc Hb. destruct (compile_query_inv _ _ Hv Hc) as (scan & Hscan & Hfrom).
  destruct (render_row_cases _ _ _ _ row by_name Hfrom Hb) as [(e & He)|(out & Ho & Hbound)].
  - rewrite He. split; [done|]. by exists scan.
  - rewrite Ho. split; [done|]. exists scan. split; [done|]. by intros out' [= <-].
Qed.
End binding.

(** ** Concrete inputs *)

(** An executable instance of the formatter: ISO dates, and type names left empty. *)
#[global] Instance iso_format : SqlFormat := {|
  fmt_date d := fmt_pad 4 (year d) ++ [45] ++ fmt_pad 2 (month d) ++ [45] ++ fmt_pad 2 (day d);
  fmt_data_type _ := [];
  fmt_monet_type _ := [];
  fmt_f64_exp bits := fmt_int bits;
  f64_from_f16 bits := bits |}.

Definition sample_query : bytes :=
  str "SELECT ':x' FROM t WHERE a = :x AND b < :y AND c = :x LIMIT :n -- ?".
Definition sample_template : QueryTemplate :=
  Eval vm_compute in
    match compile_query sample_query with Ok t => t | _ => mkQueryTemplate [] [] [] (Positional 0) end.

Lemma compile_render_witness :
  utf8_valid sample_query = true ∧ compile_query sample_query = Ok sample_template ∧
  ∃ scan, scan_query sample_query = Ok scan ∧
    interleave (around sample_template) ((λ s, slice sample_query (slot_range s)) <$> scan_slots scan) = sample_query ∧
    render_nulls sample_template =
      Ok (str "SELECT ':x' FROM t WHERE a = NULL AND b < NULL AND c = NULL LIMIT NULL -- ?").
Proof.
  assert (utf8_valid sample_query = true) as Hv by (by vm_compute).
  assert (compile_query sample_query = Ok sample_template) as Hc by (by vm_compute).
  split_and!; [done..|]. destruct (compile_render _ _ Hv Hc) as (scan & Hscan & _ & _ & Hq & Hr).
  exists scan. split_and!; [done..|]. unfold render_nulls.
  rewrite (Hr _ [str "NULL"; str "NULL"; str "NULL"; str "NULL"]) by (by repeat constructor).
  by vm_compute.
Defined.

Definition plain_field (name : string) (dt : DataType) : Field := mkField (str name) dt true ∅.
Definition sample_batch : RecordBatch :=
  mkRecordBatch [plain_field "n" DInt64; plain_field "x" DUtf8; plain_field "y" DInt32]
    [APrimitive DInt64 [10; 20] None; ABytes DUtf8 [Some (str "it's"); Some (str ":y")];
     APrimitive DInt32 [7; 0] (Some [true; false])] 2.

Lemma render_row_binds_witness :
  batch_ok sample_batch ∧
  render_row sample_template sample_batch 0 true =
    Ok (str "SELECT ':x' FROM t WHERE a = R'it''s' AND b < CAST(7 AS INT) AND c = R'it''s' LIMIT 10 -- ?") ∧
  render_row sample_template sample_batch 1 true =
    Ok (str "SELECT ':x' FROM t WHERE a = R':y' AND b < CAST(NULL AS INT) AND c = R':y' LIMIT 20 -- ?") ∧
  render_row sample_template sample_batch 1 false ≠ Panic.
Proof.
  assert (batch_ok sample_batch) as Hb by (split; [done|]; repeat constructor).
  split_and!; [done|by vm_compute|by vm_compute|].
  apply (render_row_binds sample_query); [by vm_compute..|done].
Defined.
