(* ===== verification/Literals.v ===== *)
(** The text of a literal: what a server reads in it, and what the scanner
    makes of it inside a query. *)

From stdpp Require Import base list numbers strings gmap.
From S2P Require Import Prelude RustStd Types Calendar ArrowData Errors SqlScan SqlScanProofs Template TemplateProofs.
Local Open Scope Z_scope.

(** ** Strings *)

(** How a quoted text is read after its opening quote [q]: a doubled quote is a
    quote, a single one ends it.  The value and the text after it. *)
Fixpoint read_quoted (q : Z) (l : bytes) : option (bytes * bytes) :=
  match l with
  | [] => None
  | b :: rest =>
      if b =? q then
        match rest with
        | c :: rest' => if c =? q then '(v, post) ← read_quoted q rest'; Some (q :: v, post) else Some ([], rest)
        | [] => Some ([], [])
        end
      else '(v, post) ← read_quoted q rest; Some (b :: v, post)
  end.

Definition read_raw : bytes → option (bytes * bytes) := read_quoted 39.

Lemma read_quoted_double q v post :
  head post ≠ Some q → read_quoted q (double_char q v ++ q :: post) = Some (v, post).
Proof.
  intros Hp. unfold double_char. induction v as [|b v IH].
  { destruct post as [|b post]; simpl in *; rewrite Z.eqb_refl; [done|].
    rewrite (proj2 (Z.eqb_neq _ _)) by congruence. done. }
  rewrite fmap_cons. cbn [concat]. destruct (Z.eqb_spec b q) as [->|Hb]; cbn [app read_quoted].
  - rewrite Z.eqb_refl. by rewrite IH.
  - rewrite (proj2 (Z.eqb_neq _ _)) by done. by rewrite IH.
Qed.

(** ** Characters inside a quoted text *)

Lemma double_char_app q v w : double_char q (v ++ w) = double_char q v ++ double_char q w.
Proof. unfold double_char. by rewrite fmap_app, concat_app. Qed.

Lemma double_char_id q v : Forall (λ b, b ≠ q) v → double_char q v = v.
Proof.
  unfold double_char. induction 1 as [|b v Hb _ IH]; [done|]. rewrite fmap_cons.
  cbn [concat]. rewrite (proj2 (Z.eqb_neq _ _)) by done. cbn [app]. by f_equal.
Qed.

Lemma double_char_quote q v : double_char q (q :: v) = q :: q :: double_char q v.
Proof. unfold double_char. rewrite fmap_cons. cbn [concat]. by rewrite Z.eqb_refl. Qed.

(** A character is read from its own bytes, and none but the first is ASCII. *)
Lemma utf8_step_local l n rest :
  utf8_step l = inl n →
  utf8_step (take n l ++ rest) = inl n ∧ Forall (λ b, 128 ≤ b) (tail (take n l)).
Proof.
  destruct l as [|b l]; [done|]. cbn [utf8_step].
  assert (∀ c, is_cont c = true → 128 ≤ c) as Hc by (unfold is_cont; intros; bool_prop; lia).
  assert (∀ c d, second_ok c d = true → 128 ≤ d) as Hs.
  { unfold second_ok. intros c d Hd. repeat case_match; bool_prop; try lia. by apply Hc. }
  assert (is_cont 0 = false) as H0 by done. assert (∀ c, second_ok c 0 = false) as H1.
  { intros c. unfold second_ok. by repeat case_match. }
  destruct (b <? 128) eqn:E1; [intros [= <-]; simpl; by rewrite E1|].
  destruct ((194 <=? b) && (b <=? 223)) eqn:E2.
  { destruct (is_cont (front l)) eqn:F1; [|done]. intros [= <-]. destruct l as [|c l]; [done|].
    simpl in *. rewrite E1, E2, F1. split; [done|]. repeat constructor. by apply Hc. }
  destruct ((224 <=? b) && (b <=? 239)) eqn:E3.
  { destruct (second_ok b (front l)) eqn:F1; [|done]. destruct (is_cont (front (drop 1 l))) eqn:F2; [|done].
    intros [= <-]. destruct l as [|c [|d l]]; simpl in *; [by rewrite H1 in F1|done|].
    rewrite E1, E2, E3, F1, F2. split; [done|]. repeat constructor; [by eapply Hs|by apply Hc]. }
  destruct ((240 <=? b) && (b <=? 244)) eqn:E4; [|done].
  destruct (second_ok b (front l)) eqn:F1; [|done]. destruct (is_cont (front (drop 1 l))) eqn:F2; [|done].
  destruct (is_cont (front (drop 2 l))) eqn:F3; [|done].
  intros [= <-]. destruct l as [|c [|d [|e l]]]; simpl in *; [by rewrite H1 in F1|done|done|].
  rewrite E1, E2, E3, E4, F1, F2, F3. split; [done|]. repeat constructor; [by eapply Hs|by apply Hc..].
Qed.

(** ** The scanner inside a raw string *)

Section with_unicode.
Context `{Unicode}.

(** Steps of the scanner's loop. *)
Definition scan_to (query : bytes) : scan_state → scan_state → Prop :=
  rtc (λ s s', (index s < length query)%nat ∧ scan_step query s = Ok s').

(** The number of steps does not matter: any fuel that is enough gives the same. *)
Lemma scan_loop_fuel query fuel1 fuel2 st :
  position_ok query (index st) →
  (length query - index st ≤ fuel1)%nat → (length query - index st ≤ fuel2)%nat →
  scan_loop fuel1 query st = scan_loop fuel2 query st.
Proof.
  revert fuel2 st. induction fuel1 as [|fuel1 IH]; intros [|fuel2] st Hp H1 H2; simpl;
    destruct (Nat.leb_spec (length query) (index st)); try done; try lia.
  destruct (step_spec_index _ _ _ (scan_step_spec query st Hp ltac:(lia))) as [_ Hidx].
  destruct (scan_step query st) as [st1| |] eqn:Hst; simpl; [|done..].
  destruct (Hidx st1 eq_refl) as [Hlt Hp1]. by apply IH; [|lia..].
Qed.

Lemma scan_to_loop query st st' :
  scan_to query st st' → position_ok query (index st) →
  position_ok query (index st') ∧ (index st ≤ index st')%nat ∧
  scan_loop (length query) query st = scan_loop (length query) query st'.
Proof.
  induction 1 as [st|st st1 st' [Hlt Hstep] _ IH]; intros Hp; [done|].
  destruct (step_spec_index _ _ _ (scan_step_spec query st Hp Hlt)) as [_ Hidx].
  rewrite Hstep in Hidx. destruct (Hidx st1 eq_refl) as [Hlt1 Hp1].
  destruct (IH Hp1) as (Hp' & Hle & Hl). split_and!; [done|lia|]. rewrite <- Hl.
  rewrite (scan_loop_fuel query (length query) (S (length query)) st) by (done || lia).
  assert (scan_loop (S (length query)) query st = scan_loop (length query) query st1) as ->; [|done].
  cbn [scan_loop]. rewrite (proj2 (Nat.leb_gt _ _)) by lia. by rewrite Hstep.
Qed.

Lemma position_app pre rest : utf8_valid rest = true → position_ok (pre ++ rest) (length pre).
Proof. intros Hv. split; [rewrite length_app; lia|]. by rewrite drop_app_length. Qed.

Lemma utf8_valid_ascii_cons b rest : b < 128 → utf8_valid rest = true → utf8_valid (b :: rest) = true.
Proof.
  intros Hb Hv. unfold utf8_valid in *. cbn [length utf8_valid_aux utf8_step].
  by rewrite (proj2 (Z.ltb_lt _ _)).
Qed.

Lemma utf8_valid_char_app l n rest :
  utf8_step l = inl n → (0 < n ≤ length l)%nat → utf8_valid rest = true → utf8_valid (take n l ++ rest) = true.
Proof.
  intros Hn Hpos Hv. destruct (utf8_step_local l n rest Hn) as [Hstep _]. unfold utf8_valid.
  assert (length (take n l) = n) as Hl by (rewrite length_take; lia).
  destruct (take n l ++ rest) as [|b m] eqn:Hm; [done|]. cbn [length utf8_valid_aux]. rewrite Hstep, <- Hm.
  rewrite drop_app_length' by done. apply (f_equal length) in Hm. rewrite length_app in Hm. simpl in Hm.
  rewrite utf8_valid_aux_fuel by lia. exact Hv.
Qed.

Lemma utf8_step_ascii q v : q < 128 → utf8_step (q :: v) = inl 1%nat.
Proof. intros Hq. cbn [utf8_step]. by rewrite (proj2 (Z.ltb_lt _ _)). Qed.

Lemma advance_advance st l1 i1 l2 i2 : advance (advance st l1 i1) l2 i2 = advance st l2 i2.
Proof. done. Qed.

Section quoted.
(** A state of the lexer that a doubled quote [q] does not leave. *)
Context (state : LexState) (q : Z).
Hypothesis quote_ascii : q < 128.
Hypothesis quoted_step : ∀ query st, lex st = state →
  scan_step query st =
    (current ← or_panic (query !! index st);
     i' ← next_char query (index st);
     Ok (close_quote st q current (query !! (index st + 1)%nat) i')).

(** A first character that is no quote: its bytes, doubled or not. *)
Lemma double_char_first b v n :
  utf8_step (b :: v) = inl n → (0 < n)%nat → b ≠ q →
  Forall (λ b, b ≠ q) (take n (b :: v)) ∧
  double_char q (b :: v) = take n (b :: v) ++ double_char q (drop n (b :: v)).
Proof.
  intros Hn Hpos Hb. destruct (utf8_step_local _ _ [] Hn) as [_ Ht].
  assert (Forall (λ b, b ≠ q) (take n (b :: v))) as Hq.
  { destruct n as [|n]; [lia|]. cbn [take tail] in *. constructor; [done|].
    eapply Forall_impl; [exact Ht|]. simpl. lia. }
  split; [done|]. rewrite <- (double_char_id q (take n (b :: v))) by done.
  by rewrite <- double_char_app, take_drop.
Qed.

Lemma double_char_valid v rest :
  utf8_valid v = true → utf8_valid rest = true → utf8_valid (double_char q v ++ rest) = true.
Proof.
  induction v as [v IH] using (induction_ltof1 _ length); unfold ltof in IH. intros Hv Hr.
  destruct v as [|b v]; [done|]. destruct (utf8_valid_step (b :: v) Hv) as (n & Hn & Hpos & Hrest); [done|].
  destruct (Z.eq_dec b q) as [->|Hb].
  - rewrite utf8_step_ascii in Hn by done. injection Hn as <-. cbn [drop] in Hrest. rewrite double_char_quote.
    cbn [app]. do 2 (apply utf8_valid_ascii_cons; [done|]). apply IH; [simpl; lia|done..].
  - destruct (double_char_first b v n Hn ltac:(lia) Hb) as [_ ->]. rewrite <- app_assoc.
    apply utf8_valid_char_app; [done..|]. apply IH; [rewrite length_drop; lia|done..].
Qed.

(** A character that is no quote is passed over. *)
Lemma quoted_char_step pre l rest st n :
  lex st = state → index st = length pre → utf8_step l = inl n → (0 < n ≤ length l)%nat →
  Forall (λ b, b ≠ q) (take n l) → utf8_valid (take n l ++ rest) = true →
  scan_step (pre ++ take n l ++ rest) st = Ok (advance st state (length pre + n)).
Proof.
  intros Hl Hi Hn Hpos Hq Hv. destruct (utf8_step_local l n rest Hn) as [Hstep _].
  destruct l as [|b l]; [done|]. destruct n as [|n]; [lia|]. cbn [take] in *.
  apply Forall_cons in Hq as [Hb _]. rewrite quoted_step, Hi by done.
  cbn [app]. rewrite (list_lookup_middle pre _ b _ eq_refl). cbn [or_panic mbind res_bind].
  unfold next_char. rewrite position_boundary by (by apply position_app). rewrite drop_app_length.
  cbn [app] in Hstep |- *. rewrite Hstep. cbn [mbind res_bind]. unfold close_quote.
  by rewrite (proj2 (Z.eqb_neq _ _)), Hl.
Qed.

Lemma quoted_quote_step pre rest st :
  lex st = state → index st = length pre → utf8_valid rest = true →
  scan_step (pre ++ q :: rest) st =
  Ok (if is_byte_in [q] (head rest) then advance st state (length pre + 2)
      else advance st Normal (length pre + 1)).
Proof.
  intros Hl Hi Hv. rewrite quoted_step, Hi by done.
  rewrite (list_lookup_middle pre _ q _ eq_refl). cbn [or_panic mbind res_bind].
  assert ((pre ++ q :: rest) !! (length pre + 1)%nat = head rest) as Hnext.
  { rewrite lookup_app_r by lia. replace (length pre + 1 - length pre)%nat with 1%nat by lia. by destruct rest. }
  rewrite (next_char_ascii _ _ q); [| |by apply list_lookup_middle|done].
  - cbn [mbind res_bind]. rewrite Hnext. unfold close_quote. rewrite Z.eqb_refl, Hl.
    destruct (is_byte_in [q] (head rest)); [|done]. by rewrite <- Nat.add_assoc.
  - apply position_app. by apply utf8_valid_ascii_cons.
Qed.

(** The body of a quoted text: whatever it is, the scanner comes out right
    after the closing quote, having changed nothing else. *)
Lemma quoted_body_scanned pre v post st :
  lex st = state → index st = length pre → utf8_valid v = true → utf8_valid post = true →
  head post ≠ Some q →
  scan_to (pre ++ double_char q v ++ q :: post) st
    (advance st Normal (length pre + length (double_char q v) + 1)).
Proof.
  revert pre st. induction v as [v IH] using (induction_ltof1 _ length); unfold ltof in IH.
  intros pre st Hl Hi Hv Hp Hh. destruct (decide (v = [])) as [->|Hne].
  { apply rtc_once. simpl. split; [rewrite length_app; simpl; lia|]. rewrite quoted_quote_step by done.
    destruct post as [|b post]; simpl in *; rewrite ?Nat.add_0_r; [done|].
    by rewrite bool_decide_eq_false_2 by (rewrite list_elem_of_singleton; congruence). }
  destruct v as [|b v]; [done|]. destruct (utf8_valid_step (b :: v) Hv Hne) as (n & Hn & Hpos & Hrest).
  assert (utf8_valid (q :: post) = true) as Hpost by (by apply utf8_valid_ascii_cons).
  destruct (Z.eq_dec b q) as [->|Hb].
  - rewrite utf8_step_ascii in Hn by done. injection Hn as <-. cbn [drop] in Hrest. rewrite double_char_quote. cbn [app].
    eapply rtc_l; [split; [rewrite length_app; simpl; lia|apply quoted_quote_step; [done..|]]|].
    { apply utf8_valid_ascii_cons; [done|]. by apply double_char_valid. }
    cbn [head is_byte_in]. rewrite bool_decide_eq_true_2 by set_solver.
    pose proof (IH v ltac:(simpl; lia) (pre ++ [q; q]) (advance st state (length pre + 2))) as IH'.
    rewrite <- app_assoc, length_app in IH'. simpl in IH'. rewrite advance_advance in IH'. cbn [length].
    replace (length pre + S (S (length (double_char q v))) + 1)%nat
      with (length pre + 2 + length (double_char q v) + 1)%nat by lia. by apply IH'.
  - destruct (double_char_first b v n Hn ltac:(lia) Hb) as [Hq ->]. rewrite <- app_assoc.
    assert (length (take n (b :: v)) = n) as Hlen by (rewrite length_take; lia).
    eapply rtc_l; [split; [rewrite !length_app; lia|apply quoted_char_step; try done]|].
    { apply utf8_valid_char_app; [done..|]. by apply double_char_valid. }
    pose proof (IH (drop n (b :: v)) ltac:(rewrite length_drop; lia) (pre ++ take n (b :: v))
                  (advance st state (length pre + n))) as IH'.
    rewrite <- app_assoc, !length_app, Hlen, advance_advance in IH'. rewrite (length_app (take n (b :: v))), Hlen.
    rewrite Nat.add_assoc. by apply IH'.
Qed.
End quoted.

Lemma raw_quoted_step query st : lex st = RawSingleQuote →
  scan_step query st =
    (current ← or_panic (query !! index st);
     i' ← next_char query (index st);
     Ok (close_quote st 39 current (query !! (index st + 1)%nat) i')).
Proof. intros Hl. unfold scan_step. by rewrite Hl. Qed.

(** A whole raw string literal, from code to code. *)
Lemma raw_string_steps pre v post st :
  lex st = Normal → index st = length pre → utf8_valid v = true → utf8_valid post = true →
  head post ≠ Some 39 →
  scan_to (pre ++ quote_raw_string v ++ post) st (token st Normal (length pre + length (quote_raw_string v))).
Proof.
  intros Hl Hi Hv Hp Hh. unfold quote_raw_string, double_quotes. rewrite <- !app_assoc. cbn [app].
  assert (scan_step (pre ++ 82 :: 39 :: double_char 39 v ++ 39 :: post) st
          = Ok (token st RawSingleQuote (length pre + 2))) as Hstep.
  { unfold scan_step. rewrite Hi, (list_lookup_middle pre _ 82 _ eq_refl), Hl.
    cbn [or_panic mbind res_bind]. unfold scan_normal. rewrite Hi.
    assert ((pre ++ 82 :: 39 :: double_char 39 v ++ 39 :: post) !! (length pre + 1)%nat = Some 39) as ->.
    { rewrite lookup_app_r by lia. by replace (length pre + 1 - length pre)%nat with 1%nat by lia. }
    done. }
  eapply rtc_l; [split; [rewrite length_app; simpl; lia|exact Hstep]|].
  pose proof (quoted_body_scanned RawSingleQuote 39 ltac:(lia) raw_quoted_step (pre ++ [82; 39]) v post (token st RawSingleQuote (length pre + 2))) as Hb.
  rewrite <- app_assoc, length_app in Hb. simpl in Hb.
  replace (length pre + length (82%Z :: 39%Z :: double_char 39 v ++ [39%Z]))%nat
    with (length pre + 2 + length (double_char 39 v) + 1)%nat by (simpl; rewrite length_app; simpl; lia).
  by apply Hb.
Qed.

(** C40. A quoted string stays one.  Where the scanner stands in code exactly
    at the start of the literal, and no quote follows the literal, the literal
    for any UTF-8 text, with whatever quotes, semicolons, question marks,
    comment openers or backslashes, is passed over by the scanner as a single
    token.  No slot is found in it, no statement ends in it, the lexer is back
    in code right after it, and what is read there is the text.  A literal
    written directly after a word is not covered: the scanner then takes its
    first letter for the end of the word ([glued_literal] below). *)
Theorem raw_string_opaque pre v post st :
  lex st = Normal → index st = length pre → utf8_valid v = true → utf8_valid post = true →
  head post ≠ Some 39 →
  let query := pre ++ quote_raw_string v ++ post in
  scan_loop (length query) query st =
    scan_loop (length query) query (token st Normal (length pre + length (quote_raw_string v))) ∧
  read_raw (drop (length pre + 2) query) = Some (v, post).
Proof.
  intros Hl Hi Hv Hp Hh query. split.
  - apply scan_to_loop; [by apply raw_string_steps|]. rewrite Hi. apply position_app.
    unfold quote_raw_string. rewrite <- !app_assoc. cbn [app].
    do 2 (apply utf8_valid_ascii_cons; [lia|]). apply double_char_valid; [lia|done|].
    by apply utf8_valid_ascii_cons; [lia|].
  - unfold query, quote_raw_string. rewrite drop_app_ge by lia.
    replace (length pre + 2 - length pre)%nat with 2%nat by lia. rewrite <- !app_assoc. cbn [app drop].
    rewrite drop_0. by apply read_quoted_double.
Qed.
End with_unicode.

Lemma raw_string_opaque_witness :
  let v := str "x'; DROP TABLE t; -- ?" in
  let st := mkScanState Normal 7 0 true [] [] (Some (0, 6)%nat) false procedural_new false false in
  let query := str "SELECT " ++ quote_raw_string v ++ str ", ?" in
  scan_loop (length query) query st =
    scan_loop (length query) query (token st Normal (7 + length (quote_raw_string v))) ∧
  read_raw (drop 9 query) = Some (v, str ", ?").
Proof. intros v st query. apply (raw_string_opaque (str "SELECT ") v (str ", ?") st); by vm_compute. Defined.

(** ** Numbers *)

(** A decimal text: the digits as one integer, and how many follow the point. *)
Definition read_unsigned_decimal (body : bytes) : option (Z * Z) :=
  match position (λ b, b =? 46) body with
  | None => v ← dec_value body; Some (v, 0)
  | Some i =>
      if (i =? 0)%nat then None
      else v ← dec_value (take i body ++ drop (S i) body); Some (v, len (drop (S i) body))
  end.

Definition read_decimal (text : bytes) : option (Z * Z) :=
  match text with
  | b :: body => if b =? 45 then '(v, s) ← read_unsigned_decimal body; Some (- v, s) else read_unsigned_decimal text
  | [] => None
  end.

Lemma dec_value_zeros k l : l ≠ [] → dec_value (replicate k 48 ++ l) = dec_value l.
Proof.
  intros Hl. assert (∀ k l, dec_value_aux 0 (replicate k 48 ++ l) = dec_value_aux 0 l) as Haux.
  { clear. induction k as [|k IH]; intros l; [done|]. exact (IH l). }
  unfold dec_value. destruct l as [|b l]; [done|]. destruct k as [|k]; [done|]. exact (Haux (S k) (b :: l)).
Qed.

Lemma digits_no_point l : Forall (λ b, is_ascii_digit b = true) l → Forall (λ b, (b =? 46) = false) l.
Proof. intros Hl. eapply Forall_impl; [exact Hl|]. simpl. intros b Hb. apply is_ascii_digit_range in Hb. apply Z.eqb_neq. lia. Qed.

Lemma zeros_digits k : Forall (λ b, is_ascii_digit b = true) (replicate k 48).
Proof. by apply Forall_replicate. Qed.

(** The digits with a point put [scale] places from the end. *)
Lemma pointed_digits digits (scale : nat) v :
  Forall (λ b, is_ascii_digit b = true) digits → (0 < scale < length digits)%nat → dec_value digits = Some v →
  read_unsigned_decimal
    (take (length digits - scale) digits ++ [46] ++ drop (length digits - scale) digits) = Some (v, Z.of_nat scale).
Proof.
  intros Hd Hs Hv. set (n := (length digits - scale)%nat).
  assert (length (take n digits) = n) as Hl by (rewrite length_take; unfold n; lia).
  unfold read_unsigned_decimal. cbn [app]. rewrite position_app_r; [|apply digits_no_point; by apply Forall_take|done].
  rewrite Hl. destruct (Nat.eqb_spec n 0); [unfold n in *; lia|].
  rewrite take_app_length' by done. rewrite drop_app_ge by lia.
  replace (S n - length (take n digits))%nat with 1%nat by lia. cbn [app drop]. rewrite drop_0, take_drop, Hv.
  simpl. f_equal. f_equal. rewrite length_drop. unfold n. lia.
Qed.

Lemma decimal_body v (scale : nat) :
  0 ≤ v →
  read_unsigned_decimal
    (let digits := dec_digits v in
     if (0 <? scale)%nat then
       let padded := if (length digits <=? scale)%nat
                     then replicate (scale + 1 - length digits) 48 ++ digits else digits in
       take (length padded - scale) padded ++ [46] ++ drop (length padded - scale) padded
     else digits) = Some (v, Z.of_nat scale).
Proof.
  intros Hv. pose proof (dec_digits_digits v Hv) as Hd. pose proof (dec_value_digits v Hv) as Hval.
  pose proof (dec_digits_nonempty v Hv) as Hne. cbn zeta. destruct (Nat.ltb_spec 0 scale).
  - destruct (Nat.leb_spec (length (dec_digits v)) scale); apply pointed_digits; try done; try lia.
    + apply Forall_app. split; [apply zeros_digits|done].
    + rewrite length_app, length_replicate. lia.
    + by rewrite dec_value_zeros.
  - unfold read_unsigned_decimal. rewrite (proj2 (position_None _ _)) by (by apply digits_no_point).
    rewrite Hval. simpl. f_equal. f_equal. lia.
Qed.

Lemma decimal_body_digit v (scale : nat) :
  0 ≤ v → ∃ b body, 48 ≤ b ≤ 57 ∧
    (let digits := dec_digits v in
     if (0 <? scale)%nat then
       let padded := if (length digits <=? scale)%nat
                     then replicate (scale + 1 - length digits) 48 ++ digits else digits in
       take (length padded - scale) padded ++ [46] ++ drop (length padded - scale) padded
     else digits) = b :: body.
Proof.
  intros Hv. destruct (dec_digits_cons v Hv) as (b & l & Hl & Hb). rewrite Hl. cbn zeta.
  destruct (Nat.ltb_spec 0 scale); [|by exists b, l].
  destruct (Nat.leb_spec (length (b :: l)) scale).
  - rewrite length_app, length_replicate. replace (scale + 1 - length (b :: l) + length (b :: l) - scale)%nat
      with 1%nat by lia.
    destruct (scale + 1 - length (b :: l))%nat as [|k] eqn:Hk; [lia|]. exists 48. eexists. by split; [lia|].
  - destruct (length (b :: l) - scale)%nat as [|k] eqn:Hk; [lia|]. exists b. eexists. by split.
Qed.

(** A decimal parameter is written as exactly its value: reading the
    text as a number gives the unscaled integer and the scale, sign, leading
    zeros and the position of the point included; a negative scale is
    refused. *)
Theorem decimal_literal_value value scale :
  match decimal_literal value scale with
  | Ok text => 0 ≤ scale ∧ read_decimal text = Some (value, scale)
  | Err e => scale < 0 ∧ error_status e = NotImplemented
  | Panic => False
  end.
Proof.
  unfold decimal_literal. destruct (Z.ltb_spec scale 0); [done|]. split; [done|].
  assert (fmt_int (Z.abs value) = dec_digits (Z.abs value)) as ->.
  { unfold fmt_int. by rewrite (proj2 (Z.ltb_ge _ _)) by lia. }
  pose proof (decimal_body (Z.abs value) (Z.to_nat scale) ltac:(lia)) as Hb.
  destruct (decimal_body_digit (Z.abs value) (Z.to_nat scale) ltac:(lia)) as (b & body & Hd & Heq).
  rewrite Z2Nat.id in Hb by done. cbn zeta in *. rewrite Heq in *.
  destruct (Z.ltb_spec value 0); cbn [app read_decimal].
  - rewrite Z.eqb_refl, Hb. simpl. f_equal. f_equal. lia.
  - rewrite (proj2 (Z.eqb_neq _ _)) by lia. rewrite Hb. f_equal. f_equal. lia.
Qed.

(** ** Binary strings *)

Definition hex_digit_value (b : Z) : option Z :=
  if is_ascii_digit b then Some (b - 48)
  else if (97 <=? b) && (b <=? 102) then Some (b - 87) else None.

Fixpoint read_hex (l : bytes) : option bytes :=
  match l with
  | [] => Some []
  | a :: b :: l => x ← hex_digit_value a; y ← hex_digit_value b; rest ← read_hex l; Some (16 * x + y :: rest)
  | _ => None
  end.

Lemma hex_char_value d : 0 ≤ d < 16 → hex_digit_value (hex_char d) = Some d.
Proof.
  intros Hd. unfold hex_digit_value, hex_char, is_ascii_digit.
  destruct (Z.ltb_spec d 10); repeat case_match; bool_prop; try (f_equal; lia); lia.
Qed.

Lemma read_hex_bytes v : bytes_ok v → read_hex (concat (hex_byte <$> v)) = Some v.
Proof.
  induction 1 as [|b v Hb _ IH]; [done|]. rewrite fmap_cons. cbn [concat hex_byte app read_hex].
  change 15 with (Z.ones 4). rewrite Z.shiftr_div_pow2, Z.land_ones by lia. change (2 ^ 4) with 16.
  rewrite !hex_char_value by divlia. cbn [mbind option_bind]. rewrite IH. simpl. f_equal. f_equal. divlia.
Qed.

(** A BLOB parameter is written as its bytes: two lower-case hexadecimal
    digits each, which read back as exactly the value; a UUID the same, with
    hyphens after bytes 4, 6, 8 and 10. *)
Theorem binary_literal_value value :
  bytes_ok value →
  (∃ digits, blob_literal value = str "BLOB '" ++ digits ++ [39] ∧ read_hex digits = Some value) ∧
  (length value = 16%nat →
   ∃ groups, (length <$> groups) = [8; 4; 4; 4; 12]%nat ∧ read_hex (concat groups) = Some value ∧
     uuid_literal value = str "UUID '" ++ interleave groups (replicate 4 [45]) ++ [39]).
Proof.
  intros Hb. split; [eexists; split; [done|by apply read_hex_bytes]|]. intros Hl.
  pose proof (read_hex_bytes value Hb) as Hread. clear Hb.
  destruct value as [|a0 [|a1 [|a2 [|a3 [|a4 [|a5 [|a6 [|a7 value]]]]]]]]; try done.
  destruct value as [|a8 [|a9 [|a10 [|a11 [|a12 [|a13 [|a14 [|a15 [|? ?]]]]]]]]]; try done.
  pose (hex l := concat (hex_byte <$> l)).
  exists [hex [a0; a1; a2; a3]; hex [a4; a5]; hex [a6; a7]; hex [a8; a9]; hex [a10; a11; a12; a13; a14; a15]].
  split_and!; [reflexivity|exact Hread|reflexivity].
Qed.

Lemma binary_literal_value_witness :
  let value := [18; 52; 86; 120; 154; 188; 222; 240; 1; 2; 3; 4; 5; 6; 7; 255] in
  bytes_ok value ∧ uuid_literal value = str "UUID '12345678-9abc-def0-0102-0304050607ff'" ∧
  (∃ digits, blob_literal value = str "BLOB '" ++ digits ++ [39] ∧ read_hex digits = Some value).
Proof.
  intros value. assert (bytes_ok value) as Hb by (by repeat constructor).
  split_and!; [done|by vm_compute|]. apply (binary_literal_value value Hb).
Defined.

(** ** Where a literal meets the text around it

    [render] puts a value in the place of its slot and nothing around it, so
    the bytes next to the slot can change what the value is. *)

Definition rendered (query : string) (field : Field) (array : ArrayRef) `{SqlFormat} : res Error bytes :=
  template ← compile_query (str query);
  render_row template (mkRecordBatch [field] [array] 1) 0 false.

(** A parameter right after a keyword: one word where there were two. *)
Theorem glued_literal :
  rendered "SELECT a FROM t LIMIT?" (plain_field "0" DInt64) (APrimitive DInt64 [5] None) =
    Ok (str "SELECT a FROM t LIMIT5") ∧
  rendered "SELECT a FROM t WHERE b LIKE?" (plain_field "0" DUtf8) (ABytes DUtf8 [Some (str "x%")]) =
    Ok (str "SELECT a FROM t WHERE b LIKER'x%'").
Proof. split; by vm_compute. Qed.

(** The bits of the double -5. *)
Definition minus_five : Z := 13840687554816376832.

(** A negative double after a minus sign: the two signs start a comment, and
    the value and the rest of the line are gone from the statement.  A
    negative integer in the same place is inside a [CAST]. *)
Theorem negative_double_comment (F : SqlFormat) :
  fmt_f64_exp minus_five = str "-5e0" →
  rendered "SELECT a -? FROM t" (plain_field "0" DFloat64) (APrimitive DFloat64 [minus_five] None) =
    Ok (str "SELECT a --5e0 FROM t").
Proof.
  intros Hf. unfold rendered.
  assert (compile_query (str "SELECT a -? FROM t") =
    Ok (mkQueryTemplate (str "SELECT a -? FROM t") [(0, 10); (11, 18)]%nat
          [mkTemplateSlot (PositionalSlot 0) false] (Positional 1))) as -> by (by vm_compute).
  assert (render_template_arguments
            (mkRecordBatch [plain_field "0" DFloat64] [APrimitive DFloat64 [minus_five] None] 1) 0 =
          Ok [mkTemplateArgument (str "-5e0") (str "-5e0")]) as Hargs.
  { assert (literal (plain_field "0" DFloat64) (APrimitive DFloat64 [minus_five] None) 0 = Ok (str "-5e0")) as Hl.
    { cbn -[f64_finite minus_five]. unfold float_literal.
      assert (f64_finite minus_five = true) as -> by (by vm_compute). by rewrite Hf. }
    unfold render_template_arguments. cbn -[literal minus_five]. by rewrite Hl. }
  cbn [mbind res_bind]. unfold render_row. rewrite Hargs. by vm_compute.
Qed.

(** A formatter that writes that one double as Rust does. *)
Definition exp_format : SqlFormat := {|
  fmt_date := fmt_date;
  fmt_data_type := fmt_data_type;
  fmt_monet_type := fmt_monet_type;
  fmt_f64_exp bits := if bits =? minus_five then str "-5e0" else fmt_int bits;
  f64_from_f16 := f64_from_f16 |}.

Lemma negative_double_comment_witness :
  @fmt_f64_exp exp_format minus_five = str "-5e0" ∧
  @rendered "SELECT a -? FROM t" (plain_field "0" DFloat64) (APrimitive DFloat64 [minus_five] None) exp_format =
    Ok (str "SELECT a --5e0 FROM t").
Proof.
  assert (@fmt_f64_exp exp_format minus_five = str "-5e0") as Hf by (by vm_compute).
  split; [done|]. exact (negative_double_comment exp_format Hf).
Defined.
