(* ===== verification/ErrorsProofs.v ===== *)
(** The JSON diagnostics of the driver read back as the texts they carry. *)

From stdpp Require Import base list numbers strings.
From S2P Require Import Prelude RustStd Errors SqlScan Literals.
Local Open Scope Z_scope.

(** ** JSON text reads back *)

(** UTF-8 of a scalar value below [2^11]. *)
Definition encode_char_small (c : Z) : bytes := if c <? 128 then [c] else [192 + c / 64; 128 + c mod 64].

Definition hex_nibble (b : Z) : option Z :=
  if is_ascii_digit b then Some (b - 48) else if (97 <=? b) && (b <=? 102) then Some (b - 87) else None.

Definition read_hex4 (l : bytes) : option (Z * bytes) :=
  match l with
  | a :: b :: c :: d :: l =>
      a ← hex_nibble a; b ← hex_nibble b; c ← hex_nibble c; d ← hex_nibble d;
      Some (((a * 16 + b) * 16 + c) * 16 + d, l)
  | _ => None
  end.

(** A reader of JSON strings (RFC 8259, escapes of other characters than the
    ones written left out): the text up to the closing quote, and what is
    after it. *)
Fixpoint read_json (fuel : nat) (l : bytes) : option (bytes * bytes) :=
  match fuel, l with
  | S fuel, b :: l =>
      if b =? 34 then Some ([], l)
      else if b =? 92 then
        match l with
        | e :: l =>
            '(piece, l) ← (if e =? 34 then Some ([34], l)
                           else if e =? 92 then Some ([92], l)
                           else if e =? 110 then Some ([10], l)
                           else if e =? 114 then Some ([13], l)
                           else if e =? 116 then Some ([9], l)
                           else if e =? 117 then '(c, l) ← read_hex4 l; Some (encode_char_small c, l)
                           else None);
            '(v, post) ← read_json fuel l; Some (piece ++ v, post)
        | [] => None
        end
      else if b <? 32 then None
      else '(v, post) ← read_json fuel l; Some (b :: v, post)
  | _, _ => None
  end.

Lemma read_json_fuel fuel fuel' l r :
  read_json fuel l = Some r → (fuel ≤ fuel')%nat → read_json fuel' l = Some r.
Proof.
  revert fuel' l r. induction fuel as [|fuel IH]; intros [|fuel'] l r Hr Hle; try done; try lia.
  destruct l as [|b l]; [done|]. cbn [read_json] in *. destruct (b =? 34); [done|].
  destruct (b =? 92).
  - destruct l as [|e l]; [done|]. apply bind_Some in Hr as ([piece l'] & Hp & Hr). rewrite Hp. cbn [mbind option_bind].
    apply bind_Some in Hr as ([v post] & Hv & Hr). by rewrite (IH fuel' _ _ Hv) by lia.
  - destruct (b <? 32); [done|]. apply bind_Some in Hr as ([v post] & Hv & Hr). by rewrite (IH fuel' _ _ Hv) by lia.
Qed.

(** Bytes that stand for themselves in a JSON string. *)
Lemma read_json_plain l fuel rest v post :
  Forall (λ b, 32 ≤ b ∧ b ≠ 34 ∧ b ≠ 92) l → read_json fuel rest = Some (v, post) →
  read_json (length l + fuel) (l ++ rest) = Some (l ++ v, post).
Proof.
  intros Hl Hr. induction Hl as [|b l (H1 & H2 & H3) _ IH]; [done|]. cbn [length Nat.add app read_json].
  rewrite (proj2 (Z.eqb_neq b 34)), (proj2 (Z.eqb_neq b 92)), (proj2 (Z.ltb_ge b 32)) by done. by rewrite IH.
Qed.

Lemma read_hex4_hex4 c rest : 0 ≤ c < 65536 → read_hex4 (hex4 c ++ rest) = Some (c, rest).
Proof.
  intros Hc. assert (∀ d, 0 ≤ d < 16 → hex_nibble (if d <? 10 then 48 + d else 87 + d) = Some d) as Hd.
  { intros d Hd. unfold hex_nibble, is_ascii_digit.
    destruct (Z.ltb_spec d 10); repeat case_match; bool_prop; try (f_equal; lia); lia. }
  unfold hex4, read_hex4. cbn [app]. rewrite !Hd by (apply Z.mod_pos_bound; lia). cbn [mbind option_bind].
  f_equal. f_equal. divlia.
Qed.

Lemma read_json_control c fuel rest v post :
  0 ≤ c < 65536 → read_json fuel rest = Some (v, post) →
  read_json (6 + fuel) (([92; 117] ++ hex4 c) ++ rest) = Some (encode_char_small c ++ v, post).
Proof.
  intros Hc Hr. assert (∀ n l, read_json (S n) (92 :: 117 :: l) =
    '(c, l) ← read_hex4 l; '(v, post) ← read_json n l; Some (encode_char_small c ++ v, post)) as Hs.
  { intros n l. cbn [read_json Z.eqb Pos.eqb]. by destruct (read_hex4 l) as [[]|]. }
  rewrite <- app_assoc. cbn [Nat.add]. cbn [app]. rewrite Hs, read_hex4_hex4 by done. cbn [mbind option_bind].
  by rewrite (read_json_fuel fuel (S (S (S (S (S fuel))))) rest (v, post) Hr ltac:(lia)).
Qed.

(** What a character of valid UTF-8 looks like: an ASCII byte, two bytes with
    the scalar value below [2^11] they encode, or bytes that are all above
    ASCII with a value that is not a control character. *)
Definition char_shape (c : bytes) : Prop :=
  (∃ b, c = [b] ∧ b < 128) ∨
  (Forall (λ b, 128 ≤ b) c ∧
   (decode_char c < 2048 → 128 ≤ decode_char c ∧ c = encode_char_small (decode_char c)) ∧ 128 ≤ decode_char c).

Ltac open_ifs H :=
  repeat match type of H with
  | context [if ?x then _ else _] => let E := fresh "E" in destruct x eqn:E; bool_prop; try done
  end.

Lemma utf8_char_shape l n : utf8_step l = inl n → char_shape (take n l).
Proof.
  intros Hn. pose proof (utf8_step_length _ _ Hn) as Hl. destruct l as [|b l]; [done|]. cbn [utf8_step] in Hn.
  destruct (Z.ltb_spec b 128); [injection Hn as <-; left; by exists b|]. right.
  assert (∀ c, Z.land c 31 = c mod 32) as L5 by (intros; by rewrite <- (Z.land_ones _ 5)).
  assert (∀ c, Z.land c 63 = c mod 64) as L6 by (intros; by rewrite <- (Z.land_ones _ 6)).
  assert (∀ c, Z.land c 15 = c mod 16) as L4 by (intros; by rewrite <- (Z.land_ones _ 4)).
  assert (∀ c, Z.land c 7 = c mod 8) as L3 by (intros; by rewrite <- (Z.land_ones _ 3)).
  assert (∀ c d, second_ok c d = true → 128 ≤ d ≤ 191 ∧ (c = 224 → 160 ≤ d) ∧ (c = 240 → 144 ≤ d)) as Hs.
  { unfold second_ok, is_cont. intros c d Hd. open_ifs Hd; lia. }
  unfold is_cont in Hn. unfold encode_char_small.
  destruct l as [|b1 l]; [by repeat case_match; simplify_eq/=; bool_prop; try lia|]. cbn [front drop] in Hn.
  destruct ((194 <=? b) && (b <=? 223)) eqn:E2; bool_prop.
  { case_match; [|done]. injection Hn as <-. bool_prop. cbn [take decode_char front]. rewrite L5, L6.
    rewrite (proj2 (Z.ltb_ge b 128)), (proj2 (Z.ltb_lt b 224)) by lia.
    split_and!; [by repeat constructor| |divlia]. intros _. split; [divlia|].
    rewrite (proj2 (Z.ltb_ge _ 128)) by divlia. f_equal; [|f_equal]; divlia. }
  assert (∀ c, 2048 ≤ c → (c < 2048 → 128 ≤ c ∧ take n (b :: b1 :: l) = (if c <? 128 then [c] else [192 + c / 64; 128 + c mod 64])) ∧ 128 ≤ c) as Hbig by (intros; split; lia).
  destruct l as [|b2 l]; [by repeat case_match; simplify_eq/=; bool_prop; try lia|]. cbn [front drop] in Hn.
  destruct ((224 <=? b) && (b <=? 239)) eqn:E3; bool_prop.
  { open_ifs Hn; injection Hn as <-; cbn [take decode_char front drop] in *; rewrite ?take_0 in *;
      rewrite (proj2 (Z.ltb_ge b 128)), (proj2 (Z.ltb_ge b 224)), (proj2 (Z.ltb_lt b 240)) by lia;
      destruct (Hs b b1) as (? & ? & ?); [done|];
      (split; [repeat constructor; lia|apply Hbig; rewrite L4, !L6; divlia]). }
  destruct l as [|b3 l]; [by repeat case_match; simplify_eq/=; bool_prop; try lia|]. cbn [front drop] in Hn.
  open_ifs Hn; injection Hn as <-; cbn [take decode_char front drop] in *; rewrite ?take_0 in *;
      rewrite (proj2 (Z.ltb_ge b 128)), (proj2 (Z.ltb_ge b 224)), (proj2 (Z.ltb_ge b 240)) by lia;
      destruct (Hs b b1) as (? & ? & ?); [done|];
      (split; [repeat constructor; lia|apply Hbig; rewrite L3, !L6; divlia]).
Qed.

Lemma read_json_char c fuel rest v post :
  char_shape c → Forall (λ b, 0 ≤ b) c → read_json fuel rest = Some (v, post) →
  read_json (length (json_escape c) + fuel) (json_escape c ++ rest) = Some (c ++ v, post).
Proof.
  intros Hc Hb Hr. unfold json_escape.
  assert (∀ e x, (e = 34 ∧ x = 34) ∨ (e = 92 ∧ x = 92) ∨ (e = 110 ∧ x = 10) ∨ (e = 114 ∧ x = 13) ∨ (e = 116 ∧ x = 9) →
    read_json (2 + fuel) ([92; e] ++ rest) = Some ([x] ++ v, post)) as Hshort.
  { intros e x He. apply (read_json_fuel (S fuel)); [|lia]. cbn [app read_json Z.eqb Pos.eqb].
    destruct He as [[-> ->]|[[-> ->]|[[-> ->]|[[-> ->]|[-> ->]]]]]; cbn [Z.eqb Pos.eqb mbind option_bind]; by rewrite Hr. }
  destruct Hc as [(b & -> & Hlt)|(Hhigh & Hsmall & Hge)].
  - apply Forall_cons in Hb as [Hb _]. simpl in Hb. cbn [decode_char]. rewrite (proj2 (Z.ltb_lt b 128)) by done.
    destruct (Z.eqb_spec b 34) as [->|]; [apply Hshort; tauto|].
    destruct (Z.eqb_spec b 92) as [->|]; [apply Hshort; tauto|].
    destruct (Z.eqb_spec b 10) as [->|]; [apply Hshort; tauto|].
    destruct (Z.eqb_spec b 13) as [->|]; [apply Hshort; tauto|].
    destruct (Z.eqb_spec b 9) as [->|]; [apply Hshort; tauto|].
    destruct (char_is_control b) eqn:Hctl; unfold char_is_control in Hctl.
    + etransitivity; [exact (read_json_control b fuel rest v post ltac:(lia) Hr)|]. unfold encode_char_small.
      by rewrite (proj2 (Z.ltb_lt b 128)).
    + apply orb_false_iff in Hctl as [Hctl _]. apply Z.ltb_ge in Hctl.
      apply read_json_plain; [|done]. by constructor.
  - rewrite !(proj2 (Z.eqb_neq (decode_char c) _)) by lia.
    destruct (char_is_control (decode_char c)) eqn:Hctl.
    + unfold char_is_control in Hctl. apply orb_true_iff in Hctl as [Hctl|Hctl]; bool_prop; [lia|].
      etransitivity; [exact (read_json_control (decode_char c) fuel rest v post ltac:(lia) Hr)|].
      by destruct (Hsmall ltac:(lia)) as [_ <-].
    + apply read_json_plain; [|done]. eapply Forall_impl; [exact Hhigh|]. simpl. lia.
Qed.

Lemma read_json_chars fuel l post :
  utf8_valid l = true → Forall (λ b, 0 ≤ b) l → (length l ≤ fuel)%nat →
  let text := concat (json_escape <$> chars_aux fuel l) in
  read_json (S (length text)) (text ++ 34 :: post) = Some (l, post).
Proof.
  revert l. induction fuel as [|fuel IH]; intros l Hv Hb Hf; cbn zeta.
  { by destruct l; [|simpl in Hf; lia]. }
  destruct l as [|b l]; [done|].
  destruct (utf8_valid_step _ Hv ltac:(done)) as (n & Hn & Hl & Hd). cbn [chars_aux]. rewrite Hn.
  rewrite fmap_cons. cbn [concat]. rewrite length_app, <- app_assoc.
  replace (S (length (json_escape (take n (b :: l))) + length (concat (json_escape <$> chars_aux fuel (drop n (b :: l))))))%nat
    with (length (json_escape (take n (b :: l))) + S (length (concat (json_escape <$> chars_aux fuel (drop n (b :: l))))))%nat by lia.
  rewrite (read_json_char _ _ _ (drop n (b :: l)) post).
  - by rewrite take_drop.
  - by apply utf8_char_shape.
  - by apply Forall_take.
  - apply IH; [done|by apply Forall_drop|]. rewrite length_drop. simpl in *. lia.
Qed.

(** A diagnostic's text is a JSON string that reads back as exactly the
    text, for every text: quotes, backslashes and control characters, those
    of two bytes included, are escaped so that nothing in it ends the string
    or the document around it. *)
Theorem json_string_reads_back value post :
  bytes_ok value → utf8_valid value = true →
  ∃ body, json_string value ++ post = 34 :: body ∧
    read_json (S (length body)) body = Some (value, post).
Proof.
  intros Hb Hv. exists (concat (json_escape <$> chars value) ++ 34 :: post).
  split; [unfold json_string; by rewrite <- !app_assoc|].
  eapply read_json_fuel; [apply (read_json_chars (length value)); [done|by eapply Forall_impl; [exact Hb|]; simpl; lia|done]|].
  unfold chars. rewrite !length_app. simpl. lia.
Qed.

Lemma json_string_reads_back_witness :
  let value := str "no such table" ++ [32; 34; 97; 92; 34; 10; 27; 194; 133; 226; 130; 172] in
  bytes_ok value ∧ utf8_valid value = true ∧
  json_string value =
    [34] ++ str "no such table " ++ [92; 34; 97; 92; 92; 92; 34; 92; 110] ++ [92] ++ str "u001b" ++ [92]
    ++ str "u0085" ++ [226; 130; 172; 34] ∧
  ∃ body, json_string value ++ [125] = 34 :: body ∧ read_json (S (length body)) body = Some (value, [125]).
Proof.
  intros value. assert (bytes_ok value) as Hb by (by repeat constructor).
  assert (utf8_valid value = true) as Hv by (by vm_compute).
  split_and!; [done..|by vm_compute|]. exact (json_string_reads_back value [125] Hb Hv).
Defined.
