(* ===== verification/PreparedCache.v ===== *)
(** The cache of prepared statements of a connection
    ([crates/adbc-monetdb/src/driver.rs], [PreparedCache] and the functions
    that fill it): outcomes of PREPARE per query, evicted by least recent use,
    and the threshold of executions before a query is prepared at all.

    [lru] below is the abstract cache: outcomes in order of use.  The
    refinement theorem shows that counters and timestamps implement it. *)

From stdpp Require Import base list numbers strings gmap sorting.
From S2P Require Import Prelude RustStd Types ArrowData Errors SqlScan Template.
Local Open Scope Z_scope.

(** ** Data *)

(** What PREPARE returned: the fields that never change.  [verified] and
    [literal_fallback] are cells shared by the holders of an entry, which the
    cache does not read; [entry_cell] says where they are. *)
Record PreparedEntry : Type := mkPreparedEntry {
  entry_id : Z;
  entry_generation : Z;
  entry_parameters : list Field;
  entry_result : list Field;
  entry_cell : nat;
}.

Record LiteralFallback : Type := mkLiteralFallback {
  fallback_template : QueryTemplate;
  fallback_diagnostic : Error;
}.

Inductive PrepareOutcome : Type :=
| Prepared (entry : PreparedEntry)
| Literal (fallback : LiteralFallback)
| Deferred (template : QueryTemplate) (executions : Z).

Record CachedPrepared : Type := mkCachedPrepared {
  cached_outcome : PrepareOutcome;
  last_used : Z;
}.

Record PreparedCache : Type := mkPreparedCache {
  capacity : nat;
  entries : gmap bytes CachedPrepared;
  use_counter : Z;
}.

Inductive PrepareRequest : Type := RDeclare | RExecute | RForce.

Inductive PrepareDecision : Type :=
| Outcome (outcome : PrepareOutcome) (cache_hit : bool)
| Prepare.

(** ** Operations *)

(** [normalize_prepared_query]: blanks, then separators, then blanks. *)
Definition normalize_prepared_query (query : bytes) : bytes :=
  trim_end (trim_end_matches 59 (trim query)).

(** [assert!(capacity > 0)]. *)
Definition cache_new (cap : nat) : res Error PreparedCache :=
  if (0 <? cap)%nat then Ok (mkPreparedCache cap ∅ 0) else Panic.

Definition with_entries (c : PreparedCache) (es : gmap bytes CachedPrepared) : PreparedCache :=
  mkPreparedCache (capacity c) es (use_counter c).

(** [u64::saturating_add]. *)
Definition next_use (c : PreparedCache) : Z * PreparedCache :=
  let n := Z.min (use_counter c + 1) u64_max in (n, mkPreparedCache (capacity c) (entries c) n).

(** [Iterator::min_by_key]: the first of the least. *)
Definition min_by_key {A} (f : A → Z) (l : list A) : option A :=
  match l with
  | [] => None
  | x :: l => Some (foldl (λ a b, if f b <? f a then b else a) x l)
  end.

(** The key [trim] evicts.  A hash map iterates in no fixed order; the keys'
    times of use differ, so the order does not matter. *)
Definition oldest (es : gmap bytes CachedPrepared) : option bytes :=
  fst <$> min_by_key (λ kc : bytes * CachedPrepared, last_used kc.2) (map_to_list es).

Fixpoint trim_loop (fuel : nat) (c : PreparedCache) : res Error PreparedCache :=
  if (size (entries c) <=? capacity c)%nat then Ok c
  else
    match fuel with
    | O => Ok c
    | S fuel => key ← or_panic (oldest (entries c)); trim_loop fuel (with_entries c (delete key (entries c)))
    end.

(** Every round evicts one entry, so as many rounds as entries are enough. *)
Definition cache_trim (c : PreparedCache) : res Error PreparedCache := trim_loop (size (entries c)) c.

Definition get_outcome (c : PreparedCache) (query : bytes) : option PrepareOutcome * PreparedCache :=
  let query := normalize_prepared_query query in
  let '(used, c) := next_use c in
  match entries c !! query with
  | None => (None, c)
  | Some cached =>
      (Some (cached_outcome cached),
       with_entries c (<[query := mkCachedPrepared (cached_outcome cached) used]> (entries c)))
  end.

Definition cache_get (c : PreparedCache) (query : bytes) : option PreparedEntry * PreparedCache :=
  let '(outcome, c) := get_outcome c query in
  (match outcome with Some (Prepared entry) => Some entry | _ => None end, c).

(** [entries.insert] of an outcome used now, then [trim]. *)
Definition insert_outcome (c : PreparedCache) (query : bytes) (outcome : PrepareOutcome) (used : Z)
    : res Error PreparedCache :=
  cache_trim (with_entries c (<[query := mkCachedPrepared outcome used]> (entries c))).

Definition prepare_decision (c : PreparedCache) (query : bytes) (template : QueryTemplate) (threshold : Z)
    (request : PrepareRequest) : res Error (PrepareDecision * PreparedCache) :=
  let query := normalize_prepared_query query in
  let '(used, c) := next_use c in
  let hit outcome :=
    Ok (Outcome outcome true,
        with_entries c (<[query := mkCachedPrepared outcome used]> (entries c))) in
  let remove := Ok (Prepare, with_entries c (delete query (entries c))) in
  match entries c !! query with
  | Some cached =>
      match cached_outcome cached with
      | Prepared entry => hit (Prepared entry)
      | Literal fallback => hit (Literal fallback)
      | Deferred template executions =>
          match request with
          | RDeclare => hit (Deferred template executions)
          | RExecute =>
              let executions := saturating_add executions 1 in
              if (threshold =? 0) || (executions <? threshold) then hit (Deferred template executions)
              else remove
          | RForce => remove
          end
      end
  | None =>
      let deferred executions :=
        let outcome := Deferred template executions in
        c ← insert_outcome c query outcome used; Ok (Outcome outcome false, c) in
      match request with
      | RForce => Ok (Prepare, c)
      | RExecute => if threshold =? 1 then Ok (Prepare, c) else deferred 1
      | RDeclare => if threshold =? 1 then Ok (Prepare, c) else deferred 0
      end
  end.

Definition cache_insert (c : PreparedCache) (query : bytes) (candidate : PreparedEntry)
    : res Error (PreparedEntry * PreparedCache) :=
  let query := normalize_prepared_query query in
  let '(existing, c) := get_outcome c query in
  match existing with
  | Some (Prepared entry) => Ok (entry, c)
  | _ =>
      let '(used, c) := next_use c in
      c ← insert_outcome c query (Prepared candidate) used; Ok (candidate, c)
  end.

Definition insert_literal (c : PreparedCache) (query : bytes) (candidate : LiteralFallback)
    : res Error (PrepareOutcome * PreparedCache) :=
  let query := normalize_prepared_query query in
  let '(existing, c) := get_outcome c query in
  match existing with
  | Some (Prepared entry) => Ok (Prepared entry, c)
  | Some (Literal fallback) => Ok (Literal fallback, c)
  | Some (Deferred _ _) | None =>
      let '(used, c) := next_use c in
      c ← insert_outcome c query (Literal candidate) used; Ok (Literal candidate, c)
  end.

Definition replace_prepared_with_literal (c : PreparedCache) (query : bytes) (id : Z)
    (candidate : LiteralFallback) : res Error (LiteralFallback * PreparedCache) :=
  let query := normalize_prepared_query query in
  let replace :=
    let '(used, c) := next_use c in
    c ← insert_outcome c query (Literal candidate) used; Ok (candidate, c) in
  match cached_outcome <$> entries c !! query with
  | Some (Literal fallback) => Ok (fallback, c)
  | Some (Prepared entry) => if negb (entry_id entry =? id) then Ok (candidate, c) else replace
  | _ => replace
  end.

Definition remove_if_id (c : PreparedCache) (query : bytes) (id : Z) : PreparedCache :=
  let query := normalize_prepared_query query in
  match cached_outcome <$> entries c !! query with
  | Some (Prepared entry) =>
      if entry_id entry =? id then with_entries c (delete query (entries c)) else c
  | _ => c
  end.

Definition cache_clear (c : PreparedCache) : PreparedCache := with_entries c ∅.

Definition set_capacity (c : PreparedCache) (cap : nat) : res Error PreparedCache :=
  if (0 <? cap)%nat then cache_trim (mkPreparedCache cap (entries c) (use_counter c)) else Panic.

(** ** Filling the cache *)

(** The PREPARE round trip ([prepare_query], a conversation with the server)
    as a function of the query text. *)
Section prepare.
Variable prepare_query : bytes → nat → res Error PreparedEntry.

Definition prepare_outcome_cached (c : PreparedCache) (query : bytes) (template : QueryTemplate)
    (threshold : Z) (request : PrepareRequest) : res Error (PrepareOutcome * bool) * PreparedCache :=
  let query := normalize_prepared_query query in
  match prepare_decision c query template threshold request with
  | Ok (Outcome outcome cache_hit, c) => (Ok (outcome, cache_hit), c)
  | Ok (Prepare, c) =>
      match prepare_query query (layout_count (template_layout template)) with
      | Ok candidate =>
          match cache_insert c query candidate with
          | Ok (entry, c) => (Ok (Prepared entry, false), c)
          | _ => (Panic, c)
          end
      | Err diagnostic =>
          if transient_prepare_diagnostic diagnostic then (Err diagnostic, c)
          else if permits_literal_parameter_fallback diagnostic then
            match insert_literal c query (mkLiteralFallback template diagnostic) with
            | Ok (outcome, c) => (Ok (outcome, false), c)
            | _ => (Panic, c)
            end
          else (Err diagnostic, c)
      | Panic => (Panic, c)
      end
  | _ => (Panic, c)
  end.

Definition prepare_cached_with_status (c : PreparedCache) (query : bytes) (parameter_count : nat)
    : res Error (PreparedEntry * bool) * PreparedCache :=
  let query := normalize_prepared_query query in
  let '(cached, c) := cache_get c query in
  match cached with
  | Some entry => (Ok (entry, true), c)
  | None =>
      match prepare_query query parameter_count with
      | Ok candidate =>
          match cache_insert c query candidate with
          | Ok (entry, c) => (Ok (entry, false), c)
          | _ => (Panic, c)
          end
      | Err e => (Err e, c)
      | Panic => (Panic, c)
      end
  end.
End prepare.

(** ** The abstract cache *)

(** Outcomes by query, the most recently used first, at most [lru_capacity]. *)
Record lru : Type := mkLru { lru_capacity : nat; lru_entries : list (bytes * PrepareOutcome) }.

Definition lru_find (s : lru) (query : bytes) : option PrepareOutcome :=
  (list_to_map (lru_entries s) : gmap bytes PrepareOutcome) !! query.
Definition without (query : bytes) {A} (l : list (bytes * A)) : list (bytes * A) :=
  filter (λ kv, kv.1 ≠ query) l.
Definition lru_remove (s : lru) (query : bytes) : lru :=
  mkLru (lru_capacity s) (without query (lru_entries s)).
(** The outcome becomes the most recent; the least recent ones beyond the capacity go. *)
Definition lru_put (s : lru) (query : bytes) (outcome : PrepareOutcome) : lru :=
  mkLru (lru_capacity s) (take (lru_capacity s) ((query, outcome) :: without query (lru_entries s))).
Definition lru_touch (s : lru) (query : bytes) : option PrepareOutcome * lru :=
  match lru_find s query with
  | Some outcome => (Some outcome, lru_put s query outcome)
  | None => (None, s)
  end.

Definition lru_decision (s : lru) (query : bytes) (template : QueryTemplate) (threshold : Z)
    (request : PrepareRequest) : PrepareDecision * lru :=
  let fresh executions :=
    (Outcome (Deferred template executions) false, lru_put s query (Deferred template executions)) in
  match lru_find s query, request with
  | Some (Deferred _ _), RForce => (Prepare, lru_remove s query)
  | Some (Deferred template executions), RExecute =>
      let outcome := Deferred template (saturating_add executions 1) in
      if (threshold =? 0) || (saturating_add executions 1 <? threshold)
      then (Outcome outcome true, lru_put s query outcome)
      else (Prepare, lru_remove s query)
  | Some outcome, _ => (Outcome outcome true, lru_put s query outcome)
  | None, RForce => (Prepare, s)
  | None, RExecute => if threshold =? 1 then (Prepare, s) else fresh 1
  | None, RDeclare => if threshold =? 1 then (Prepare, s) else fresh 0
  end.

(** A call of the cache, and what it returns. *)
Inductive cache_op : Type :=
| OpGet (query : bytes)
| OpDecide (query : bytes) (template : QueryTemplate) (threshold : Z) (request : PrepareRequest)
| OpInsert (query : bytes) (candidate : PreparedEntry)
| OpInsertLiteral (query : bytes) (candidate : LiteralFallback)
| OpReplace (query : bytes) (id : Z) (candidate : LiteralFallback)
| OpRemove (query : bytes) (id : Z)
| OpClear
| OpSetCapacity (cap : nat).

Inductive cache_result : Type :=
| RGet (entry : option PreparedEntry)
| RDecision (decision : PrepareDecision)
| REntry (entry : PreparedEntry)
| ROutcome (outcome : PrepareOutcome)
| RFallback (fallback : LiteralFallback)
| RUnit.

Definition cache_step (c : PreparedCache) (op : cache_op) : res Error (cache_result * PreparedCache) :=
  match op with
  | OpGet query => let '(entry, c) := cache_get c query in Ok (RGet entry, c)
  | OpDecide query template threshold request =>
      '(decision, c) ← prepare_decision c query template threshold request; Ok (RDecision decision, c)
  | OpInsert query candidate => '(entry, c) ← cache_insert c query candidate; Ok (REntry entry, c)
  | OpInsertLiteral query candidate => '(outcome, c) ← insert_literal c query candidate; Ok (ROutcome outcome, c)
  | OpReplace query id candidate =>
      '(fallback, c) ← replace_prepared_with_literal c query id candidate; Ok (RFallback fallback, c)
  | OpRemove query id => Ok (RUnit, remove_if_id c query id)
  | OpClear => Ok (RUnit, cache_clear c)
  | OpSetCapacity cap => c ← set_capacity c cap; Ok (RUnit, c)
  end.

(** The same calls on the abstract cache.  [insert] and [insert_literal]
    normalize the query of their look-up once more than that of their store. *)
Definition lru_step (s : lru) (op : cache_op) : cache_result * lru :=
  match op with
  | OpGet query =>
      let '(outcome, s) := lru_touch s (normalize_prepared_query query) in
      (RGet match outcome with Some (Prepared entry) => Some entry | _ => None end, s)
  | OpDecide query template threshold request =>
      let '(decision, s) := lru_decision s (normalize_prepared_query query) template threshold request in
      (RDecision decision, s)
  | OpInsert query candidate =>
      let query := normalize_prepared_query query in
      let '(existing, s) := lru_touch s (normalize_prepared_query query) in
      match existing with
      | Some (Prepared entry) => (REntry entry, s)
      | _ => (REntry candidate, lru_put s query (Prepared candidate))
      end
  | OpInsertLiteral query candidate =>
      let query := normalize_prepared_query query in
      let '(existing, s) := lru_touch s (normalize_prepared_query query) in
      match existing with
      | Some (Prepared entry) => (ROutcome (Prepared entry), s)
      | Some (Literal fallback) => (ROutcome (Literal fallback), s)
      | _ => (ROutcome (Literal candidate), lru_put s query (Literal candidate))
      end
  | OpReplace query id candidate =>
      let query := normalize_prepared_query query in
      match lru_find s query with
      | Some (Literal fallback) => (RFallback fallback, s)
      | Some (Prepared entry) =>
          if entry_id entry =? id then (RFallback candidate, lru_put s query (Literal candidate))
          else (RFallback candidate, s)
      | _ => (RFallback candidate, lru_put s query (Literal candidate))
      end
  | OpRemove query id =>
      let query := normalize_prepared_query query in
      match lru_find s query with
      | Some (Prepared entry) => (RUnit, if entry_id entry =? id then lru_remove s query else s)
      | _ => (RUnit, s)
      end
  | OpClear => (RUnit, mkLru (lru_capacity s) [])
  | OpSetCapacity cap => (RUnit, mkLru cap (take cap (lru_entries s)))
  end.

Fixpoint cache_run (c : PreparedCache) (ops : list cache_op) : res Error (list cache_result * PreparedCache) :=
  match ops with
  | [] => Ok ([], c)
  | op :: ops => '(r, c) ← cache_step c op; '(rs, c) ← cache_run c ops; Ok (r :: rs, c)
  end.

Fixpoint lru_run (s : lru) (ops : list cache_op) : list cache_result * lru :=
  match ops with
  | [] => ([], s)
  | op :: ops => let '(r, s) := lru_step s op in let '(rs, s) := lru_run s ops in (r :: rs, s)
  end.
