(* ===== verification/PreparedCacheProofs.v ===== *)
(** The prepared-statement cache implements the abstract least-recently-used
    cache, defers preparation for exactly as many executions as configured,
    and never records a verdict from a passing failure. *)

From stdpp Require Import base list numbers strings gmap sorting.
From S2P Require Import Prelude RustStd Types ArrowData Errors SqlScan Template PreparedCache.
Local Open Scope Z_scope.

(** ** Association lists without a key *)

Section without.
Context {A : Type}.
Implicit Types l : list (bytes * A).

Lemma without_cons_ne q k a l : k ≠ q → without q ((k, a) :: l) = (k, a) :: without q l.
Proof. intros Hk. unfold without. by rewrite filter_cons_True. Qed.

Lemma without_cons_eq q a l : without q ((q, a) :: l) = without q l.
Proof. unfold without. rewrite filter_cons_False by (simpl; tauto). done. Qed.

Ltac without_case q k := destruct (decide (k = q)) as [->|]; [rewrite !without_cons_eq|rewrite !without_cons_ne by done].

Lemma without_list_to_map q l :
  (list_to_map (without q l) : gmap bytes A) = delete q (list_to_map l).
Proof.
  induction l as [|[k a] l IH]; [simpl; by rewrite delete_empty|]. without_case q k; rewrite !list_to_map_cons, ?IH.
  - by rewrite delete_insert_eq.
  - by rewrite delete_insert_ne.
Qed.

Lemma without_sublist q l : without q l `sublist_of` l.
Proof. apply sublist_filter. Qed.

Lemma without_notin q l : q ∉ (without q l).*1.
Proof. intros ([k a] & -> & Hin)%list_elem_of_fmap. by apply list_elem_of_filter in Hin as [? _]. Qed.

Lemma without_id q l : q ∉ l.*1 → without q l = l.
Proof.
  induction l as [|[k a] l IH]; [done|]. rewrite fmap_cons, not_elem_of_cons. intros [Hk Hl].
  rewrite without_cons_ne by (simpl in *; congruence). by rewrite IH.
Qed.

Lemma without_length q l : NoDup l.*1 → q ∈ l.*1 → S (length (without q l)) = length l.
Proof.
  induction l as [|[k a] l IH]; [by intros _ ?%elem_of_nil|]. rewrite fmap_cons, NoDup_cons, elem_of_cons.
  intros [Hk Hnd] Hq. without_case q k; cbn [fst length] in *.
  - by rewrite (without_id q l).
  - destruct Hq as [->|Hq]; [done|]. by rewrite IH.
Qed.

Lemma without_fmap {B} (f : A → B) q l :
  filter (λ kv, kv.1 ≠ q) (prod_map id f <$> l) = prod_map id f <$> without q l.
Proof.
  induction l as [|[k a] l IH]; [done|]. rewrite fmap_cons. destruct (decide (k = q)) as [->|].
  - rewrite without_cons_eq, filter_cons_False by (simpl; tauto). done.
  - rewrite without_cons_ne, filter_cons_True, fmap_cons by done. by rewrite IH.
Qed.
End without.

Lemma Forall_sublist {A} (P : A → Prop) l l' : l' `sublist_of` l → Forall P l → Forall P l'.
Proof. induction 1; intros Hl; [done| |]; apply Forall_cons in Hl as [? ?]; [constructor|]; auto. Qed.

Lemma StronglySorted_sublist {A} (R : relation A) l l' :
  l' `sublist_of` l → StronglySorted R l → StronglySorted R l'.
Proof.
  induction 1 as [|x l' l Hs IH|x l' l Hs IH]; intros Hl; [done| |]; apply StronglySorted_inv in Hl as [Hl Hx].
  - constructor; [by apply IH|]. by eapply Forall_sublist.
  - by apply IH.
Qed.

(** ** Times of use *)

(** The entries of a cache in order of use, the most recent first. *)
Definition later (a b : bytes * CachedPrepared) : Prop := last_used b.2 < last_used a.2.
Record timeline (c : PreparedCache) (cs : list (bytes * CachedPrepared)) : Prop := {
  tl_nodup : NoDup cs.*1;
  tl_entries : entries c = list_to_map cs;
  tl_sorted : StronglySorted later cs;
  tl_used : Forall (λ kc, last_used kc.2 ≤ use_counter c) cs;
}.

(** The abstract cache a cache stands for. *)
Definition represents (c : PreparedCache) (s : lru) : Prop :=
  lru_capacity s = capacity c ∧ (0 < capacity c)%nat ∧
  ∃ cs, timeline c cs ∧ (length cs ≤ capacity c)%nat ∧
        lru_entries s = prod_map id cached_outcome <$> cs.

Lemma min_by_key_spec {A} (f : A → Z) l x :
  min_by_key f l = Some x → x ∈ l ∧ ∀ y, y ∈ l → f x ≤ f y.
Proof.
  destruct l as [|a l]; [done|]. intros [= <-]. revert a. induction l as [|b l IH]; intros a; simpl.
  { split; [set_solver|]. intros y Hy. apply list_elem_of_singleton in Hy as ->. lia. }
  destruct (IH (if f b <? f a then b else a)) as [Hin Hmin]. split.
  - apply elem_of_cons in Hin as [->|Hin]; [destruct (f b <? f a)|]; set_solver.
  - intros y Hy. assert (f (if f b <? f a then b else a) ≤ f a ∧ f (if f b <? f a then b else a) ≤ f b) as [H1 H2]
      by (destruct (Z.ltb_spec (f b) (f a)); lia).
    specialize (Hmin (if f b <? f a then b else a) ltac:(set_solver)) as H3.
    apply elem_of_cons in Hy as [->|Hy]; [lia|]. apply elem_of_cons in Hy as [->|Hy]; [lia|].
    apply Hmin. set_solver.
Qed.

(** The key evicted is the last of the timeline, in whatever order the map is walked. *)
Lemma oldest_last c cs kc : timeline c (cs ++ [kc]) → oldest (entries c) = Some kc.1.
Proof.
  intros Ht. unfold oldest. pose proof (tl_nodup _ _ Ht) as Hnd. rewrite (tl_entries _ _ Ht).
  pose proof (map_to_list_to_map (M := gmap bytes) _ Hnd) as Hp.
  destruct (min_by_key _ _) as [x|] eqn:Hm.
  - apply min_by_key_spec in Hm as [Hin Hmin]. simpl. f_equal. rewrite Hp in Hin.
    apply elem_of_app in Hin as [Hin|Hin]; [|by apply list_elem_of_singleton in Hin as ->].
    pose proof (tl_sorted _ _ Ht) as Hs. apply StronglySorted_app in Hs as (Hs & _ & _).
    specialize (Hs x kc Hin (proj2 (list_elem_of_singleton _ _) eq_refl)). unfold later in Hs.
    specialize (Hmin kc). rewrite Hp in Hmin. specialize (Hmin ltac:(set_solver)). lia.
  - exfalso. destruct (map_to_list _) as [|x l]; [|done]. apply Permutation_length in Hp. rewrite length_app in Hp.
    simpl in Hp. lia.
Qed.

Lemma timeline_size c cs : timeline c cs → size (entries c) = length cs.
Proof. intros Ht. rewrite (tl_entries _ _ Ht). apply map_size_list_to_map, Ht. Qed.

Lemma timeline_remove c cs q : timeline c cs → timeline (with_entries c (delete q (entries c))) (without q cs).
Proof.
  intros [Hnd He Hs Hu]. pose proof (without_sublist q cs) as Hsub. constructor; cbn [with_entries entries use_counter].
  - eapply sublist_NoDup; [exact Hnd|]. by apply fmap_sublist.
  - by rewrite without_list_to_map, He.
  - by eapply StronglySorted_sublist.
  - by eapply Forall_sublist.
Qed.

Lemma timeline_put c cs q o :
  timeline c cs → use_counter c < u64_max →
  let c' := (next_use c).2 in
  timeline (with_entries c' (<[q := mkCachedPrepared o (next_use c).1]> (entries c')))
    ((q, mkCachedPrepared o (next_use c).1) :: without q cs).
Proof.
  intros Ht Hc. cbn [next_use fst snd]. rewrite Z.min_l by lia.
  destruct (timeline_remove _ _ q Ht) as [Hnd He Hs Hu]. cbn [with_entries entries use_counter] in *.
  constructor; cbn [with_entries entries use_counter].
  - rewrite fmap_cons. constructor; [apply without_notin|done].
  - rewrite list_to_map_cons, <- He. by rewrite insert_delete_eq.
  - constructor; [done|]. eapply Forall_impl; [exact Hu|]. unfold later. simpl. lia.
  - constructor; [simpl; lia|]. eapply Forall_impl; [exact Hu|]. simpl. lia.
Qed.

Lemma without_last {A} (cs : list (bytes * A)) kc : NoDup (cs ++ [kc]).*1 → without kc.1 (cs ++ [kc]) = cs.
Proof.
  intros Hnd. unfold without. rewrite filter_app, filter_cons_False by tauto. cbn [filter list_filter].
  rewrite app_nil_r. apply (without_id kc.1 cs). rewrite fmap_app, NoDup_app in Hnd. destruct Hnd as (_ & Hd & _).
  intros Hin. apply (Hd _ Hin). simpl. set_solver.
Qed.

Lemma trim_timeline fuel c cs :
  timeline c cs → (length cs ≤ fuel)%nat →
  ∃ c', trim_loop fuel c = Ok c' ∧ capacity c' = capacity c ∧ use_counter c' = use_counter c ∧
        timeline c' (take (capacity c) cs).
Proof.
  revert c cs. induction fuel as [|fuel IH]; intros c cs Ht Hf; cbn [trim_loop]; rewrite (timeline_size _ _ Ht).
  { destruct cs; [|simpl in Hf; lia]. exists c. by rewrite take_nil. }
  destruct (Nat.leb_spec (length cs) (capacity c)) as [Hle|Hgt].
  { exists c. by rewrite take_ge. }
  destruct cs as [|kc cs _] using rev_ind; [simpl in Hgt; lia|]. rewrite length_app in *. simpl in Hf, Hgt.
  rewrite (oldest_last _ _ _ Ht). cbn [or_panic mbind res_bind].
  pose proof (timeline_remove _ _ kc.1 Ht) as Hr. rewrite without_last in Hr by apply Ht.
  destruct (IH _ _ Hr ltac:(lia)) as (c' & Hc & Hcap & Hu & Ht'). exists c'. split_and!; [done..|].
  rewrite take_app_le by lia. done.
Qed.

Lemma cache_trim_timeline c cs :
  timeline c cs → ∃ c', cache_trim c = Ok c' ∧ capacity c' = capacity c ∧ use_counter c' = use_counter c ∧
    timeline c' (take (capacity c) cs).
Proof. intros Ht. apply trim_timeline; [done|]. by rewrite (timeline_size _ _ Ht). Qed.

(** ** The operations on a represented cache *)

Section represented.
Context (c : PreparedCache) (s : lru).
Hypothesis Hrep : represents c s.

Lemma rep_find q : cached_outcome <$> entries c !! q = lru_find s q.
Proof.
  destruct Hrep as (_ & _ & cs & Ht & _ & Hl). unfold lru_find. rewrite Hl, list_to_map_fmap, lookup_fmap.
  by rewrite (tl_entries _ _ Ht).
Qed.

Lemma rep_remove q : represents (with_entries c (delete q (entries c))) (lru_remove s q).
Proof.
  destruct Hrep as (Hcap & Hpos & cs & Ht & Hlen & Hl). split_and!; [done..|]. exists (without q cs). split_and!.
  - by apply timeline_remove.
  - pose proof (sublist_length _ _ (without_sublist q cs)). simpl. lia.
  - cbn [lru_remove lru_entries]. rewrite Hl. apply without_fmap.
Qed.

Lemma rep_clear : represents (cache_clear c) (mkLru (lru_capacity s) []).
Proof.
  destruct Hrep as (Hcap & Hpos & _). split_and!; [done..|]. exists []. split_and!; [|simpl; lia|done].
  constructor; by repeat constructor.
Qed.

Lemma rep_set_capacity cap :
  (0 < cap)%nat → ∃ c', set_capacity c cap = Ok c' ∧ use_counter c' = use_counter c ∧
    represents c' (mkLru cap (take cap (lru_entries s))).
Proof.
  intros Hpos. destruct Hrep as (_ & _ & cs & [H1 H2 H3 H4] & Hlen & Hl). unfold set_capacity.
  rewrite (proj2 (Nat.ltb_lt _ _)) by done.
  destruct (cache_trim_timeline (mkPreparedCache cap (entries c) (use_counter c)) cs) as (c' & Hc & Hcap & Hu & Ht').
  { by constructor. }
  exists c'. split_and!; [done..|]. cbn [capacity] in *. split_and!; [done|lia|]. eexists. split_and!; [done| |].
  - rewrite length_take. lia.
  - by rewrite Hl, fmap_take.
Qed.

Hypothesis Hcounter : use_counter c < u64_max.

Lemma next_use_counter : use_counter (next_use c).2 = use_counter c + 1.
Proof. simpl. lia. Qed.

Lemma rep_next_use : represents (next_use c).2 s.
Proof.
  destruct Hrep as (Hcap & Hpos & cs & [H1 H2 H3 H4] & Hlen & Hl). split_and!; [done..|]. exists cs. split_and!; [|done..].
  constructor; [done..|]. eapply Forall_impl; [exact H4|]. simpl. lia.
Qed.

Lemma rep_hit q o :
  is_Some (lru_find s q) →
  let c1 := (next_use c).2 in
  represents (with_entries c1 (<[q := mkCachedPrepared o (next_use c).1]> (entries c1))) (lru_put s q o).
Proof.
  intros Hin. destruct Hrep as (Hcap & Hpos & cs & Ht & Hlen & Hl).
  assert (S (length (without q cs)) = length cs) as Hw.
  { apply without_length; [apply Ht|]. destruct (decide (q ∈ cs.*1)) as [|Hn]; [done|].
    exfalso. apply not_elem_of_list_to_map_1 in Hn. rewrite <- rep_find, (tl_entries _ _ Ht), Hn in Hin. by destruct Hin. }
  split_and!; [done..|]. eexists. split_and!; [by apply timeline_put| |].
  - simpl in *. lia.
  - cbn [lru_put lru_entries]. rewrite Hcap, take_ge, Hl, fmap_cons; [|rewrite Hl, length_cons].
    + f_equal. apply without_fmap.
    + unfold without. rewrite without_fmap, length_fmap. simpl in *. lia.
Qed.

Lemma rep_insert q o :
  ∃ c', insert_outcome (next_use c).2 q o (next_use c).1 = Ok c' ∧ use_counter c' = use_counter c + 1 ∧
        represents c' (lru_put s q o).
Proof.
  destruct Hrep as (Hcap & Hpos & cs & Ht & Hlen & Hl).
  destruct (cache_trim_timeline _ _ (timeline_put _ _ q o Ht Hcounter)) as (c' & Hc & Hcap' & Hu & Ht').
  exists c'. split_and!; [done| |]; cbn [with_entries capacity use_counter] in *.
  { rewrite Hu. by apply next_use_counter. }
  split_and!; [cbn [lru_put lru_capacity]; by rewrite Hcap, Hcap'|simpl in Hcap'; lia|]. eexists. split_and!; [done| |].
  - rewrite length_take, Hcap'. simpl. lia.
  - cbn [lru_put lru_entries]. rewrite Hl, fmap_take, fmap_cons, Hcap. f_equal. f_equal. apply without_fmap.
Qed.
End represented.

Lemma rep_get_outcome c s q :
  represents c s → use_counter c < u64_max →
  let r := lru_touch s (normalize_prepared_query q) in
  ∃ c', get_outcome c q = (r.1, c') ∧ represents c' r.2 ∧ use_counter c' = use_counter c + 1.
Proof.
  intros Hr Hc. unfold get_outcome, lru_touch. set (nq := normalize_prepared_query q).
  pose proof (rep_find _ _ Hr nq) as Hf. pose proof (next_use_counter c Hc) as Hu.
  destruct (next_use c) as [used c1] eqn:Hn. assert (entries c1 = entries c) as He by (by injection Hn as <- <-).
  rewrite He. destruct (entries c !! nq) as [cached|] eqn:Hq; simpl in Hf; rewrite <- Hf; eexists; split_and!; try done.
  - rewrite <- He. pose proof (rep_hit _ _ Hr Hc nq (cached_outcome cached)) as Hh. rewrite Hn in Hh. apply Hh. by rewrite <- Hf.
  - pose proof (rep_next_use _ _ Hr Hc) as H. by rewrite Hn in H.
Qed.

Definition op_ok (op : cache_op) : Prop :=
  match op with OpSetCapacity cap => (0 < cap)%nat | _ => True end.

(** What a step keeps: the result, the representation, and two uses at most. *)
Definition step_refines (c : PreparedCache) (m : res Error (cache_result * PreparedCache))
    (a : cache_result * lru) : Prop :=
  ∃ c', m = Ok (a.1, c') ∧ represents c' a.2 ∧ use_counter c' ≤ use_counter c + 2.

Lemma step_refines_insert c c1 s q o r :
  represents c1 s → use_counter c1 < u64_max → use_counter c1 ≤ use_counter c + 1 →
  step_refines c
    (let '(used, c) := next_use c1 in c ← insert_outcome c q o used; Ok (r, c)) (r, lru_put s q o).
Proof.
  intros Hr Hc Hle. destruct (rep_insert _ _ Hr Hc q o) as (c' & Hi & Hu & Hr').
  destruct (next_use c1) as [used c2] eqn:Hn. cbn [fst snd] in Hi. rewrite Hi. cbn [mbind res_bind].
  exists c'. split_and!; [done..|lia].
Qed.

Lemma bind_insert {A B} (m : res Error PreparedCache) (a : A) (f : A → B) :
  ('(x, c) ← (c ← m; Ok (a, c)); Ok (f x, c)) = (c ← m; Ok (f a, c)) :> res Error (B * PreparedCache).
Proof. by destruct m. Qed.

Lemma decide_refines c s q t th request :
  represents c s → use_counter c + 2 ≤ u64_max →
  step_refines c (cache_step c (OpDecide q t th request)) (lru_step s (OpDecide q t th request)).
Proof.
  intros Hr Hc. cbn [cache_step lru_step]. unfold prepare_decision. set (nq := normalize_prepared_query q).
  pose proof (rep_find _ _ Hr nq) as Hf. pose proof (rep_next_use _ _ Hr ltac:(lia)) as Hr1.
  pose proof (rep_remove _ _ Hr1 nq) as Hrem. pose proof (next_use_counter c ltac:(lia)) as Hu.
  pose proof (rep_hit _ _ Hr ltac:(lia) nq) as Hhit.
  pose proof (λ o r, step_refines_insert c c s nq o r Hr ltac:(lia) ltac:(lia)) as Hins.
  destruct (next_use c) as [used c1] eqn:Hn. cbn [fst snd] in *.
  assert (entries c1 = entries c) as He by (by injection Hn as <- <-). rewrite <- He in Hf.
  unfold lru_decision. rewrite <- Hf in *. destruct (entries c1 !! nq) as [cached|] eqn:Hq; simpl in *.
  - assert (∀ o, step_refines c (Ok (RDecision (Outcome o true), with_entries c1 (<[nq := mkCachedPrepared o used]> (entries c1))))
      (RDecision (Outcome o true), lru_put s nq o)) as Ho.
    { intros o. eexists. split_and!; [done|by apply Hhit|cbn [with_entries use_counter]; lia]. }
    assert (step_refines c (Ok (RDecision Prepare, with_entries c1 (delete nq (entries c1)))) (RDecision Prepare, lru_remove s nq)) as Hp.
    { eexists. split_and!; [done..|cbn [with_entries use_counter]; lia]. }
    destruct (cached_outcome cached) as [e|f|t' n]; [destruct request; apply Ho|destruct request; apply Ho|].
    destruct request; [apply Ho| |apply Hp]. cbn zeta. case_match; [apply Ho|apply Hp].
  - assert (step_refines c (Ok (RDecision Prepare, c1)) (RDecision Prepare, s)) as Hp.
    { eexists. split_and!; [done..|lia]. }
    destruct request; [| |apply Hp]; (case_match; [apply Hp|]); cbn zeta;
      rewrite (bind_insert (insert_outcome c1 nq _ used) _ RDecision); apply Hins.
Qed.

Lemma cache_step_refines c s op :
  represents c s → use_counter c + 2 ≤ u64_max → op_ok op →
  step_refines c (cache_step c op) (lru_step s op).
Proof.
  intros Hr Hc Hop. destruct op as [q|q t th request|q e|q f|q id f|q id| |cap].
  - cbn [cache_step lru_step]. unfold cache_get.
    destruct (rep_get_outcome c s q Hr ltac:(lia)) as (c' & Hg & Hr' & Hu). rewrite Hg.
    destruct (lru_touch s _) as [o s']. eexists. split_and!; [done..|lia].
  - by apply decide_refines.
  - cbn [cache_step lru_step]. unfold cache_insert. set (nq := normalize_prepared_query q).
    destruct (rep_get_outcome c s nq Hr ltac:(lia)) as (c' & Hg & Hr' & Hu). rewrite Hg.
    destruct (lru_touch s _) as [o s']. cbn [fst snd] in *.
    pose proof (step_refines_insert c c' s' nq (Prepared e) (REntry e) Hr' ltac:(lia) ltac:(lia)) as Hi.
    destruct (next_use c') as [used c2] eqn:Hn.
    destruct o as [[e'|f|t n]|]; [eexists; split_and!; [done..|lia]|..]; rewrite bind_insert; exact Hi.
  - cbn [cache_step lru_step]. unfold insert_literal. set (nq := normalize_prepared_query q).
    destruct (rep_get_outcome c s nq Hr ltac:(lia)) as (c' & Hg & Hr' & Hu). rewrite Hg.
    destruct (lru_touch s _) as [o s']. cbn [fst snd] in *.
    pose proof (step_refines_insert c c' s' nq (Literal f) (ROutcome (Literal f)) Hr' ltac:(lia) ltac:(lia)) as Hi.
    destruct (next_use c') as [used c2] eqn:Hn.
    destruct o as [[e'|f'|t n]|]; [eexists; split_and!; [done..|lia]|eexists; split_and!; [done..|lia]|..];
      rewrite bind_insert; exact Hi.
  - cbn [cache_step lru_step]. unfold replace_prepared_with_literal. set (nq := normalize_prepared_query q).
    rewrite (rep_find _ _ Hr nq).
    pose proof (step_refines_insert c c s nq (Literal f) (RFallback f) Hr ltac:(lia) ltac:(lia)) as Hi.
    destruct (next_use c) as [used c2] eqn:Hn.
    destruct (lru_find s nq) as [[e'|f'|t n]|].
    + destruct (entry_id e' =? id); simpl; [rewrite bind_insert; exact Hi|eexists; split_and!; [done..|lia]].
    + eexists; split_and!; [done..|lia].
    + rewrite bind_insert; exact Hi.
    + rewrite bind_insert; exact Hi.
  - cbn [cache_step lru_step]. unfold remove_if_id. set (nq := normalize_prepared_query q). rewrite (rep_find _ _ Hr nq).
    destruct (lru_find s nq) as [[e'|f'|t n]|]; try (eexists; split_and!; [done..|lia]).
    destruct (entry_id e' =? id); eexists; split_and!; try done; try lia; [by apply rep_remove|cbn [with_entries use_counter]; lia].
  - eexists. split_and!; [done|by apply rep_clear|simpl; lia].
  - cbn [cache_step lru_step]. destruct (rep_set_capacity _ _ Hr cap Hop) as (c' & Hs & Hu & Hr'). rewrite Hs.
    eexists. split_and!; [done..|lia].
Qed.

Lemma cache_run_refines ops c s :
  represents c s → use_counter c + 2 * len ops ≤ u64_max → Forall op_ok ops →
  ∃ c', cache_run c ops = Ok ((lru_run s ops).1, c') ∧ represents c' (lru_run s ops).2.
Proof.
  revert c s. induction ops as [|op ops IH]; intros c s Hr Hc Hops; [by exists c|].
  apply Forall_cons in Hops as [Hop Hops]. cbn [length] in Hc. rewrite Nat2Z.inj_succ in Hc.
  destruct (cache_step_refines c s op Hr ltac:(lia) Hop) as (c1 & Hs & Hr1 & Hu).
  cbn [cache_run lru_run]. rewrite Hs. cbn [mbind res_bind]. destruct (lru_step s op) as [r s1]. cbn [fst snd] in *.
  destruct (IH c1 s1 Hr1 ltac:(lia) Hops) as (c' & Hrun & Hr'). rewrite Hrun. cbn [mbind res_bind].
  destruct (lru_run s1 ops). by exists c'.
Qed.

Lemma represents_new cap : (0 < cap)%nat → ∃ c, cache_new cap = Ok c ∧ represents c (mkLru cap []) ∧ use_counter c = 0.
Proof.
  intros Hcap. unfold cache_new. rewrite (proj2 (Nat.ltb_lt _ _)) by done.
  eexists. split; [reflexivity|]. split; [|done]. split; [done|]. split; [done|].
  exists []. split_and!; [|simpl; lia|done]. constructor; by repeat constructor.
Qed.

(** C22. The cache is a least-recently-used cache.  From an empty cache, any
    sequence of calls (fewer than [2^63] of them) returns what the abstract
    cache returns, without panicking, and leaves the same outcomes in the
    same order of use: every look-up agrees, and there are never more entries
    than the capacity.  The queries evicted are therefore always the ones
    whose last use is the longest ago. *)
Theorem cache_refines_lru cap ops :
  (0 < cap)%nat → Forall op_ok ops → 2 * len ops ≤ u64_max →
  ∃ c0 c, cache_new cap = Ok c0 ∧
    let s := (lru_run (mkLru cap []) ops).2 in
    cache_run c0 ops = Ok ((lru_run (mkLru cap []) ops).1, c) ∧
    represents c s ∧ (size (entries c) ≤ capacity c)%nat ∧
    ∀ query, cached_outcome <$> entries c !! query = lru_find s query.
Proof.
  intros Hcap Hops Hlen. destruct (represents_new cap Hcap) as (c0 & Hn & Hr0 & Hu0).
  destruct (cache_run_refines ops c0 _ Hr0 ltac:(lia) Hops) as (c & Hrun & Hr).
  exists c0, c. cbn zeta. split; [done|]. split; [done|]. split; [done|]. split; [|by apply rep_find].
  destruct Hr as (_ & _ & cs & Ht & Hl & _). by rewrite (timeline_size _ _ Ht).
Qed.

Definition empty_template (query : string) : QueryTemplate := mkQueryTemplate (str query) [] [] (Positional 0).
Definition sample_entry (id : Z) : PreparedEntry := mkPreparedEntry id 0 [] [] 0.

(** Three queries in a cache of two: the one not used in between is evicted. *)
Lemma cache_refines_lru_witness :
  let ops := [OpInsert (str "a;") (sample_entry 1); OpInsert (str "b") (sample_entry 2); OpGet (str " a ");
              OpInsert (str "c") (sample_entry 3); OpGet (str "b"); OpGet (str "a")] in
  (lru_run (mkLru 2 []) ops).1 =
    [REntry (sample_entry 1); REntry (sample_entry 2); RGet (Some (sample_entry 1)); REntry (sample_entry 3);
     RGet None; RGet (Some (sample_entry 1))] ∧
  ∃ c0 c, cache_new 2 = Ok c0 ∧ cache_run c0 ops = Ok ((lru_run (mkLru 2 []) ops).1, c) ∧
    (size (entries c) ≤ 2)%nat.
Proof.
  intros ops. split; [by vm_compute|].
  destruct (cache_refines_lru 2 ops) as (c0 & c & Hn & Hrun & Hr & Hs & _); [lia|by repeat constructor|vm_compute; congruence|].
  exists c0, c. split_and!; [done..|]. assert (capacity c = 2%nat) as Hcap; [|by rewrite Hcap in Hs].
  destruct Hr as (Hcap & _). rewrite <- Hcap. by vm_compute.
Defined.

(** ** The threshold *)

Lemma lru_run_app s ops1 ops2 :
  lru_run s (ops1 ++ ops2) =
    ((lru_run s ops1).1 ++ (lru_run (lru_run s ops1).2 ops2).1, (lru_run (lru_run s ops1).2 ops2).2).
Proof.
  revert s. induction ops1 as [|op ops1 IH]; intros s; [apply surjective_pairing|].
  cbn [app lru_run]. destruct (lru_step s op) as [r s1]. rewrite IH. destruct (lru_run s1 ops1). by cbn [fst snd].
Qed.

Section threshold.
Variable (N : gset bytes) (cap th : nat) (template_of : bytes → QueryTemplate).
Hypothesis (Hcap : (size N ≤ cap)%nat) (Hth : (2 ≤ th)%nat) (Hth_max : Z.of_nat th ≤ usize_max).

(** The state of a query executed [k] times: deferred, or forgotten when the
    count has just reached the threshold. *)
Definition deferral (o : option PrepareOutcome) (k : nat) : Prop :=
  if decide (k mod th = 0)%nat then o = None
  else ∃ template, o = Some (Deferred template (Z.of_nat (k mod th))).

Record deferring (s : lru) (count : bytes → nat) : Prop := {
  df_capacity : lru_capacity s = cap;
  df_nodup : NoDup (lru_entries s).*1;
  df_keys : ∀ key, key ∈ (lru_entries s).*1 → key ∈ N;
  df_state : ∀ key, deferral (lru_find s key) (count key);
}.

(** A query of the group takes its place without evicting another. *)
Lemma deferring_put s count q o :
  deferring s count → q ∈ N →
  let s' := lru_put s q o in
  lru_entries s' = (q, o) :: without q (lru_entries s) ∧ NoDup (lru_entries s').*1 ∧
  (∀ key, key ∈ (lru_entries s').*1 → key ∈ N).
Proof.
  intros [Hc Hnd Hk _] Hq s'.
  assert (NoDup ((q, o) :: without q (lru_entries s)).*1) as Hnd'.
  { rewrite fmap_cons. constructor; [apply without_notin|]. eapply sublist_NoDup; [exact Hnd|].
    apply fmap_sublist, without_sublist. }
  assert (∀ key, key ∈ ((q, o) :: without q (lru_entries s)).*1 → key ∈ N) as Hk'.
  { intros x Hx. rewrite fmap_cons in Hx. apply elem_of_cons in Hx as [->|Hx]; [done|]. apply Hk.
    eapply elem_of_submseteq; [exact Hx|]. by apply sublist_submseteq, fmap_sublist, without_sublist. }
  assert (lru_entries s' = (q, o) :: without q (lru_entries s)) as He; [|by rewrite He].
  unfold s', lru_put. cbn [lru_entries]. rewrite take_ge; [done|].
  rewrite Hc, <- (length_fmap fst), <- (size_list_to_set (C := gset bytes)) by done.
  etransitivity; [|exact Hcap]. apply subseteq_size. intros x Hx. apply Hk'. by apply elem_of_list_to_set in Hx.
Qed.

Lemma succ_mod n : (S n mod th = if decide (S (n mod th) = th) then 0 else S (n mod th))%nat.
Proof.
  pose proof (Nat.div_mod_eq n th) as Hd. pose proof (Nat.mod_upper_bound n th ltac:(lia)) as Hb.
  case_decide as He; symmetry.
  - apply (Nat.mod_unique _ _ (S (n / th))); [lia|]. nia.
  - apply (Nat.mod_unique _ _ (n / th)); lia.
Qed.

Definition counted (count : bytes → nat) (q key : bytes) : nat :=
  if decide (key = q) then S (count key) else count key.

(** What the [k]-th execution of a query is answered. *)
Definition answers (r : option cache_result) (k : nat) : Prop :=
  if decide (k mod th = 0)%nat then r = Some (RDecision Prepare)
  else ∃ template hit, r = Some (RDecision (Outcome (Deferred template (Z.of_nat (k mod th))) hit)).

Lemma deferring_put_step s count q o :
  deferring s count → q ∈ N → deferral (Some o) (S (count q)) → deferring (lru_put s q o) (counted count q).
Proof.
  intros Hd Hq Ho. destruct (deferring_put s count q o Hd Hq) as (He & Hnd & Hk).
  constructor; [apply Hd|done..|]. intros key. unfold lru_find, counted. rewrite He, list_to_map_cons, without_list_to_map.
  rewrite insert_delete_eq. case_decide as Hkey; [subst; by rewrite lookup_insert_eq|].
  rewrite lookup_insert_ne by congruence. apply Hd.
Qed.

Lemma deferring_remove_step s count q :
  deferring s count → (S (count q) mod th = 0)%nat → deferring (lru_remove s q) (counted count q).
Proof.
  intros [Hc Hnd Hk Hs] Ho. constructor; [done|..].
  - eapply sublist_NoDup; [exact Hnd|]. apply fmap_sublist, without_sublist.
  - intros key Hin. apply Hk. eapply elem_of_submseteq; [exact Hin|].
    by apply sublist_submseteq, fmap_sublist, without_sublist.
  - intros key. unfold lru_find, lru_remove, counted. cbn [lru_entries]. rewrite without_list_to_map.
    case_decide as Hkey; [|rewrite lookup_delete_ne by congruence; apply Hs].
    subst. rewrite lookup_delete_eq. unfold deferral. by rewrite decide_True.
Qed.

Definition execute (q : bytes) : cache_op := OpDecide q (template_of q) (Z.of_nat th) RExecute.

Lemma deferring_step s count q :
  let nq := normalize_prepared_query q in
  deferring s count → nq ∈ N →
  deferring (lru_step s (execute q)).2 (counted count nq) ∧
  answers (Some (lru_step s (execute q)).1) (S (count nq)).
Proof.
  intros nq Hd Hq. cbn [lru_step execute]. fold nq. unfold lru_decision. pose proof (df_state _ _ Hd nq) as Hs.
  pose proof (succ_mod (count nq)) as Hm. pose proof (Nat.mod_upper_bound (count nq) th ltac:(lia)) as Hb.
  unfold answers. rewrite Hm. unfold deferral in Hs. destruct (decide (count nq mod th = 0)%nat) as [Hz|Hz].
  - rewrite Hs. rewrite Hz in *. rewrite (decide_False (P := (1 = th)%nat)) in * by lia.
    rewrite (proj2 (Z.eqb_neq _ _)) by lia. cbn [fst snd]. rewrite decide_False by lia. split; [|by eexists _, false].
    apply deferring_put_step; [done..|]. unfold deferral. rewrite Hm, decide_False by lia. by eexists.
  - destruct Hs as [t Hs]. rewrite Hs. unfold saturating_add. rewrite Z.min_l by lia.
    rewrite (proj2 (Z.eqb_neq (Z.of_nat th) 0)) by lia. cbn [orb].
    destruct (Z.ltb_spec (Z.of_nat (count nq mod th) + 1) (Z.of_nat th)) as [Hlt|Hge]; cbn [fst snd].
    + rewrite (decide_False (P := (S (count nq mod th) = th)%nat)) in * by lia. rewrite decide_False by lia.
      replace (Z.of_nat (count nq mod th) + 1) with (Z.of_nat (S (count nq mod th))) by lia. split; [|by eexists _, true].
      apply deferring_put_step; [done..|]. unfold deferral. rewrite Hm, decide_False by lia. by eexists.
    + rewrite (decide_True (P := (S (count nq mod th) = th)%nat)) in * by lia. rewrite decide_True by done.
      split; [|done]. by apply deferring_remove_step.
Qed.

Definition executions (qs : list bytes) (key : bytes) : nat :=
  length (filter (λ q, normalize_prepared_query q = key) qs).

Lemma deferring_run s count qs :
  deferring s count → (∀ q, q ∈ qs → normalize_prepared_query q ∈ N) →
  deferring (lru_run s (execute <$> qs)).2 (λ key, count key + executions qs key)%nat.
Proof.
  revert s count. induction qs as [|q qs IH]; intros s count Hd Hqs.
  { destruct Hd as [H1 H2 H3 H4]. constructor; try done. intros key. rewrite Nat.add_0_r. apply H4. }
  rewrite fmap_cons. cbn [lru_run]. destruct (deferring_step s count q Hd) as [Hd1 _]; [apply Hqs; set_solver|].
  destruct (lru_step s (execute q)) as [r s1]. cbn [fst snd] in *.
  specialize (IH s1 _ Hd1 ltac:(set_solver)). destruct (lru_run s1 _) as [rs s2]. cbn [fst snd] in *.
  destruct IH as [H1 H2 H3 H4]. constructor; try done. intros key. specialize (H4 key).
  unfold executions, counted in *. destruct (decide (normalize_prepared_query q = key)) as [Hk|Hk].
  - rewrite filter_cons_True by done. rewrite decide_True in H4 by done. cbn [length]. by rewrite Nat.add_succ_r.
  - rewrite filter_cons_False by done. by rewrite decide_False in H4 by congruence.
Qed.
End threshold.

(** C37. A query is prepared when, and only when, it has been executed as often
    as the threshold says.  In a run of execute requests, from a new cache that
    can hold all the different queries of the run (evicting a deferred query
    forgets its count), with a threshold of at least two, and as long as no
    outcome of a PREPARE is stored, the [k]-th execution of a query is answered
    by its literal form and the count of executions so far, except that every
    [threshold]-th one calls for PREPARE, however the executions of the other
    queries are interleaved. *)
Theorem prepared_at_threshold cap th template_of qs q :
  (2 ≤ th)%nat → Z.of_nat th ≤ usize_max → 2 * (len qs + 1) ≤ u64_max →
  (size (list_to_set (normalize_prepared_query <$> qs ++ [q]) : gset bytes) ≤ cap)%nat →
  ∃ c0 rs c, cache_new cap = Ok c0 ∧
    cache_run c0 (execute th template_of <$> qs ++ [q]) = Ok (rs, c) ∧
    answers th (last rs) (S (executions qs (normalize_prepared_query q))).
Proof.
  intros Hth Hmax Hlen Hcap. set (N := list_to_set _ : gset bytes) in Hcap.
  assert (∀ x, x ∈ qs ++ [q] → normalize_prepared_query x ∈ N) as HN.
  { intros x Hx. apply elem_of_list_to_set. by apply list_elem_of_fmap_2. }
  assert (0 < cap)%nat as Hpos.
  { assert (size N ≠ 0%nat); [|lia]. intros Hz. apply size_empty_inv in Hz. specialize (HN q ltac:(set_solver)).
    by rewrite Hz in HN. }
  destruct (represents_new cap Hpos) as (c0 & Hn & Hr0 & Hu0).
  destruct (cache_run_refines (execute th template_of <$> qs ++ [q]) c0 _ Hr0) as (c & Hrun & _).
  { rewrite length_fmap, length_app. simpl. lia. }
  { apply Forall_fmap, Forall_true. done. }
  exists c0, (lru_run (mkLru cap []) (execute th template_of <$> qs ++ [q])).1, c. split_and!; [done..|].
  rewrite fmap_app, lru_run_app. cbn [fst].
  pose proof (deferring_run N cap th template_of Hcap Hth Hmax (mkLru cap []) (λ _, 0%nat) qs) as Hd.
  rewrite fmap_cons, fmap_nil.
  destruct (deferring_step N cap th template_of Hcap Hth Hmax (lru_run (mkLru cap []) (execute th template_of <$> qs)).2
    (λ key, 0 + executions qs key)%nat q) as [_ Ha].
  - apply Hd; [|set_solver]. constructor; [done|constructor|by intros ? ?%elem_of_nil|].
    intros key. unfold deferral. by rewrite Nat.Div0.mod_0_l.
  - apply HN. set_solver.
  - cbn [lru_run]. destruct (lru_step _ (execute th template_of q)) as [r s']. cbn [fst] in *. by rewrite last_snoc.
Qed.

Lemma prepared_at_threshold_witness :
  ∃ c0 rs c, cache_new 2 = Ok c0 ∧
    cache_run c0 (execute 2 (λ _, empty_template "a") <$> [str "a"; str "b"] ++ [str "a;"]) = Ok (rs, c) ∧
    last rs = Some (RDecision Prepare).
Proof.
  destruct (prepared_at_threshold 2 2 (λ _, empty_template "a") [str "a"; str "b"] (str "a;"))
    as (c0 & rs & c & Hn & Hrun & Ha); [lia|by vm_compute|by vm_compute|vm_compute; lia|].
  exists c0, rs, c. split_and!; [done..|]. by vm_compute in Ha.
Defined.

(** ** Verdicts *)

Lemma lru_find_put_inv s q o key x :
  NoDup (lru_entries s).*1 → lru_find (lru_put s q o) key = Some x →
  (key = q ∧ x = o) ∨ lru_find s key = Some x.
Proof.
  intros Hnd Hf. unfold lru_find, lru_put in *. cbn [lru_entries] in Hf.
  set (l := (q, o) :: without q (lru_entries s)) in Hf.
  assert (NoDup l.*1) as Hl.
  { unfold l. rewrite fmap_cons. constructor; [apply without_notin|]. eapply sublist_NoDup; [exact Hnd|].
    apply fmap_sublist, without_sublist. }
  apply elem_of_list_to_map_2, elem_of_take in Hf as (i & Hf & _). apply list_elem_of_lookup_2 in Hf.
  apply (elem_of_list_to_map_1 (M := gmap bytes)) in Hf; [|done]. unfold l in Hf.
  rewrite list_to_map_cons, without_list_to_map, insert_delete_eq in Hf.
  destruct (decide (key = q)) as [->|Hk]; [rewrite lookup_insert_eq in Hf; left; by injection Hf|].
  rewrite lookup_insert_ne in Hf by congruence. by right.
Qed.

Lemma lru_find_remove_inv s q key x : lru_find (lru_remove s q) key = Some x → lru_find s key = Some x.
Proof.
  unfold lru_find, lru_remove. cbn [lru_entries]. rewrite without_list_to_map. by intros [_ ?]%lookup_delete_Some.
Qed.

Lemma lru_find_touch_inv s q key x :
  NoDup (lru_entries s).*1 → lru_find (lru_touch s q).2 key = Some x → lru_find s key = Some x.
Proof.
  intros Hnd. unfold lru_touch. destruct (lru_find s q) eqn:Hq; [|done]. cbn [snd].
  by intros [[-> ->]|?]%lru_find_put_inv.
Qed.

Lemma lru_decision_verdicts s q t th request key f :
  NoDup (lru_entries s).*1 → lru_find (lru_decision s q t th request).2 key = Some (Literal f) →
  lru_find s key = Some (Literal f).
Proof.
  intros Hnd. unfold lru_decision.
  destruct (lru_find s q) as [[e|f'|t' n]|] eqn:Hq; destruct request; repeat case_match; cbn [snd]; intros Hf;
    try (by apply lru_find_remove_inv in Hf); try done; by destruct (lru_find_put_inv _ _ _ _ _ Hnd Hf) as [[-> [= ->]]|?].
Qed.

Lemma represents_nodup c s : represents c s → NoDup (lru_entries s).*1.
Proof.
  intros (_ & _ & cs & Ht & _ & ->). pose proof (tl_nodup _ _ Ht) as Hnd. rewrite <- list_fmap_compose.
  erewrite list_fmap_ext; [exact Hnd|]. by intros ? [] ?.
Qed.

Lemma lru_touch_nodup s q : NoDup (lru_entries s).*1 → NoDup (lru_entries (lru_touch s q).2).*1.
Proof.
  intros Hnd. unfold lru_touch. destruct (lru_find s q); [|done]. cbn [snd lru_put lru_entries].
  eapply sublist_NoDup; [|apply fmap_sublist, sublist_take]. rewrite fmap_cons.
  constructor; [apply without_notin|]. eapply sublist_NoDup; [exact Hnd|]. apply fmap_sublist, without_sublist.
Qed.

(** Only an inserted literal can be a new verdict. *)
Lemma lru_insert_verdicts s q key f :
  NoDup (lru_entries s).*1 →
  (∀ c, lru_find (lru_step s (OpInsert q c)).2 key = Some (Literal f) → lru_find s key = Some (Literal f)) ∧
  (∀ g, lru_find (lru_step s (OpInsertLiteral q g)).2 key = Some (Literal f) →
     lru_find s key = Some (Literal f) ∨ (key = normalize_prepared_query q ∧ f = g)).
Proof.
  intros Hnd. set (nq := normalize_prepared_query (normalize_prepared_query q)).
  pose proof (lru_touch_nodup s nq Hnd) as Hr. pose proof (lru_find_touch_inv s nq key (Literal f) Hnd) as Ht.
  cbn [lru_step]. fold nq. destruct (lru_touch s nq) as [o s1]. cbn [snd] in *. split; intros c.
  - destruct o as [[]|]; cbn [snd]; try done; by intros [[-> ?]|?]%lru_find_put_inv; auto.
  - destruct o as [[]|]; cbn [snd]; auto; intros [[-> [= ->]]|?]%lru_find_put_inv; auto.
Qed.

(** ** What a failed PREPARE says *)

Definition of_class (e : Error) (class : string) : Prop := ∃ subclass, error_sqlstate e = str class ++ subclass.

(** A failure that describes the connection at that moment: the state of the
    transaction, a transaction rolled back, exhausted resources, or a conflict
    with another transaction, which MonetDB reports under three more codes. *)
Inductive passing (e : Error) : Prop :=
| passing_transaction_state : of_class e "25" → passing e
| passing_rollback : of_class e "40" → passing e
| passing_resources : of_class e "HY" → passing e
| passing_conflict text :
    error_sqlstate e ∈ str <$> ["42000"; "25000"; "25S01"]%string →
    text ∈ str <$> ["conflict with another transaction"; "conflicts with another transaction"; "transaction conflict detected";
                    "transaction conflict detected while setting default value"; "failed due to transaction conflict"]%string →
    text `suffix_of` trim_end (error_message e) → passing e
| passing_storage_conflict :
    error_sqlstate e ∈ str <$> ["42000"; "25000"; "25S01"]%string →
    str "TRANSACTION CONFLICT in storage_api." `prefix_of` error_message e → passing e.

(** A failure that speaks of the statement: the server gave a SQLSTATE, or its
    metadata cannot be read for a reason the statement has. *)
Inductive of_statement (e : Error) : Prop :=
| with_code c : c ∈ error_sqlstate e → c ≠ 0 → of_statement e
| with_any_type : error_message e = str "unknown MonetDB prepared type 'any'" → of_statement e
| with_split_metadata : str "invalid structural split in PREPARE metadata" `prefix_of` error_message e → of_statement e.

Lemma starts_with_prefix p l : starts_with p l = true ↔ p `prefix_of` l.
Proof.
  unfold starts_with. rewrite bool_decide_eq_true. split; [intros <-; apply prefix_take|].
  intros [k ->]. by rewrite take_app_length.
Qed.

Lemma ends_with_suffix p l : ends_with p l = true ↔ p `suffix_of` l.
Proof.
  unfold ends_with. rewrite starts_with_prefix, suffix_prefix_reverse. unfold reverse. by rewrite <- !rev_alt.
Qed.

Lemma is_code_class e class :
  length (str class) = 2%nat → is_code (take 2 (error_sqlstate e)) class = true ↔ of_class e class.
Proof.
  intros Hl. unfold is_code, of_class. rewrite bool_decide_eq_true. split.
  - intros <-. exists (drop 2 (error_sqlstate e)). by rewrite take_drop.
  - intros [k ->]. by rewrite <- Hl, take_app_length.
Qed.

Lemma conflict_exact code message :
  is_transaction_conflict code message = true ↔
  code ∈ str <$> ["42000"; "25000"; "25S01"]%string ∧
  ((∃ text, text ∈ str <$> ["conflict with another transaction"; "conflicts with another transaction"; "transaction conflict detected";
                    "transaction conflict detected while setting default value"; "failed due to transaction conflict"]%string ∧
      text `suffix_of` trim_end message) ∨ str "TRANSACTION CONFLICT in storage_api." `prefix_of` message).
Proof.
  unfold is_transaction_conflict, is_code. rewrite andb_true_iff, !orb_true_iff, !bool_decide_eq_true, !ends_with_suffix, starts_with_prefix.
  rewrite !fmap_cons, fmap_nil, !elem_of_cons, elem_of_nil. setoid_rewrite elem_of_cons. repeat setoid_rewrite elem_of_cons.
  setoid_rewrite elem_of_nil. split.
  - intros [Hc Hm]. split; [tauto|]. destruct Hm as [[[[[Hm|Hm]|Hm]|Hm]|Hm]|Hm]; [left; eexists; split; [|exact Hm]; tauto..|by right].
  - intros [Hc [(text & Ht & Hm)|Hm]]; (split; [tauto|]); [|by right].
    destruct Ht as [->|[->|[->|[->|[->|[]]]]]]; tauto.
Qed.

Lemma transient_exact e : transient_prepare_diagnostic e = true ↔ passing e.
Proof.
  unfold transient_prepare_diagnostic. rewrite !orb_true_iff, !is_code_class, conflict_exact by done. split.
  - intros [[[?|?]|?]|(Hc & [(text & Ht & Hm)|Hm])]; eauto using passing.
  - intros [| | |text Hc Ht Hm|Hc Hm]; [tauto..|right|right]; (split; [done|]); eauto.
Qed.

Lemma permits_exact e : permits_literal_parameter_fallback e = true ↔ of_statement e.
Proof.
  unfold permits_literal_parameter_fallback, sqlstate_string. rewrite !orb_true_iff, !bool_decide_eq_true, starts_with_prefix.
  assert (is_Some (if existsb (λ c, negb (c =? 0)) (error_sqlstate e) then Some (error_sqlstate e) else None) ↔
          ∃ c, c ∈ error_sqlstate e ∧ c ≠ 0) as ->.
  { destruct (existsb _ _) eqn:Hx.
    - apply existsb_exists in Hx as (c & Hc & Hn). split; [|by eexists]. intros _. exists c.
      rewrite list_elem_of_In. split; [done|]. intros ->. done.
    - split; [by intros []|]. intros (c & Hc & Hn). exfalso. apply not_true_iff_false in Hx. apply Hx, existsb_exists.
      exists c. rewrite <- list_elem_of_In. split; [done|]. rewrite (proj2 (Z.eqb_neq _ _)); done. }
  split; [intros [[(c & ? & ?)|?]|?]; eauto using of_statement|]. intros [c ? ?| |]; [left; left; eauto|tauto|tauto].
Qed.

(** C38. Only a lasting refusal is remembered.  Asking for the outcome of a
    statement does not panic.  It fails exactly when the cache calls for PREPARE
    (the query is unknown or deferred often enough) and PREPARE fails with a
    diagnostic that either describes a passing state of the connection (SQLSTATE
    class 25, 40 or HY, or one of the texts of a transaction conflict) or does
    not speak of the statement at all (no SQLSTATE, such as a lost connection);
    that diagnostic is returned as it is.  And a query recorded as one to be
    sent with literals was recorded before, or is this one, with its template,
    after PREPARE failed with a diagnostic of the statement that is not a
    passing one. *)
Theorem literal_verdict_lasting prepare_query c s query template threshold request :
  represents c s → use_counter c + 4 ≤ u64_max → (∀ q n, prepare_query q n ≠ Panic) →
  let nq := normalize_prepared_query query in
  let answer := prepare_query nq (layout_count (template_layout template)) in
  let '(r, c') := prepare_outcome_cached prepare_query c query template threshold request in
  r ≠ Panic ∧
  (∀ diagnostic, r = Err diagnostic ↔
     (lru_decision s (normalize_prepared_query nq) template threshold request).1 = Prepare ∧
     answer = Err diagnostic ∧ (passing diagnostic ∨ ¬ of_statement diagnostic)) ∧
  ∀ key fallback, cached_outcome <$> entries c' !! key = Some (Literal fallback) →
    cached_outcome <$> entries c !! key = Some (Literal fallback) ∨
    (key = normalize_prepared_query nq ∧ fallback_template fallback = template ∧
     answer = Err (fallback_diagnostic fallback) ∧
     ¬ passing (fallback_diagnostic fallback) ∧ of_statement (fallback_diagnostic fallback)).
Proof.
  intros Hr Hu Hp nq. unfold prepare_outcome_cached. fold nq. cbn zeta.
  destruct (cache_step_refines c s (OpDecide nq template threshold request) Hr ltac:(lia) I) as (c1 & Hs & Hr1 & Hu1).
  pose proof (represents_nodup _ _ Hr) as Hnd. pose proof (represents_nodup _ _ Hr1) as Hnd1.
  assert (∀ key f, lru_find (lru_step s (OpDecide nq template threshold request)).2 key = Some (Literal f) →
    cached_outcome <$> entries c !! key = Some (Literal f)) as Hold.
  { intros key f. rewrite (rep_find _ _ Hr). cbn [lru_step].
    pose proof (lru_decision_verdicts s (normalize_prepared_query nq) template threshold request key f Hnd) as Hd.
    by destruct (lru_decision _ _ _ _ _). }
  assert (∀ key f, cached_outcome <$> entries c1 !! key = Some (Literal f) →
    cached_outcome <$> entries c !! key = Some (Literal f)) as Hkept.
  { intros key f. rewrite (rep_find _ _ Hr1). apply Hold. }
  cbn [cache_step] in Hs. destruct (prepare_decision c nq template threshold request) as [[d c1']| |]; [|done..].
  injection Hs as Hd ->. assert (d = (lru_decision s (normalize_prepared_query nq) template threshold request).1) as Hd'.
  { cbn [lru_step] in Hd. destruct (lru_decision _ _ _ _ _). by injection Hd. }
  rewrite <- Hd'. clear Hd Hd'.
  destruct d as [o hit|]; [split_and!; [done|split; [done|by intros (? & _)]|by auto]|].
  destruct (prepare_query nq _) as [candidate|diagnostic|] eqn:Hq; [|..|by destruct (Hp nq (layout_count (template_layout template)))].
  - destruct (cache_step_refines c1 _ (OpInsert nq candidate) Hr1 ltac:(lia) I) as (c2 & Hs2 & Hr2 & _).
    cbn [cache_step] in Hs2. destruct (cache_insert c1 nq candidate) as [[e c2']| |]; [|done..]. injection Hs2 as _ ->.
    split_and!; [done|split; [done|by intros (_ & ? & _)]|]. intros key f. rewrite (rep_find _ _ Hr2). intros Hf. left. apply Hold.
    exact (proj1 (lru_insert_verdicts _ nq key f Hnd1) candidate Hf).
  - pose proof (transient_exact diagnostic) as Ht. pose proof (permits_exact diagnostic) as Hperm.
    assert (passing diagnostic ∨ ¬ of_statement diagnostic →
      ∀ d', Err diagnostic = Err d' :> res Error (PrepareOutcome * bool) ↔
            Prepare = Prepare ∧ Err diagnostic = Err d' :> res Error PreparedEntry ∧ (passing d' ∨ ¬ of_statement d')) as Hret.
    { intros Hpass d'. split; [by intros [= <-]|]. by intros (_ & [= <-] & _). }
    destruct (transient_prepare_diagnostic diagnostic); [split_and!; [done|apply Hret; left; by apply Ht|by auto]|].
    destruct (permits_literal_parameter_fallback diagnostic).
    2: { split_and!; [done|apply Hret; right; intros Hs; by apply Hperm in Hs|by auto]. }
    assert (¬ passing diagnostic) as Hnp by (intros Hs; by apply Ht in Hs). assert (of_statement diagnostic) as Hst by (by apply Hperm).
    set (fb := mkLiteralFallback template diagnostic).
    destruct (cache_step_refines c1 _ (OpInsertLiteral nq fb) Hr1 ltac:(lia) I) as (c2 & Hs2 & Hr2 & _).
    cbn [cache_step] in Hs2. destruct (insert_literal c1 nq fb) as [[e c2']| |]; [|done..]. injection Hs2 as _ ->.
    split_and!; [done|split; [done|intros (_ & [= <-] & [?|?]); done]|]. intros key f. rewrite (rep_find _ _ Hr2). intros Hf.
    destruct (proj2 (lru_insert_verdicts _ nq key f Hnd1) fb Hf) as [Hf'|[-> ->]]; [left; by apply Hold|by right].
Qed.

(** The server in an aborted transaction, and one that cannot prepare the statement. *)
Definition aborted : Error := with_sqlstate (error "Current transaction is aborted" InvalidState) (str "25005").
Definition refused : Error := with_sqlstate (error "syntax error" InvalidArguments) (str "42000").

Lemma literal_verdict_lasting_witness :
  (prepare_outcome_cached (λ _ _, Err aborted) (mkPreparedCache 2 ∅ 0) (str "q;") (empty_template "q") 1 RExecute).1
    = Err aborted ∧
  (let '(r, c) := prepare_outcome_cached (λ _ _, Err refused) (mkPreparedCache 2 ∅ 0) (str "q;") (empty_template "q") 1 RExecute in
   r = Ok (Literal (mkLiteralFallback (empty_template "q") refused), false) ∧
   ∀ key fallback, cached_outcome <$> entries c !! key = Some (Literal fallback) →
     key = str "q" ∧ ¬ passing (fallback_diagnostic fallback)).
Proof.
  assert (represents (mkPreparedCache 2 ∅ 0) (mkLru 2 [])) as Hr.
  { destruct (represents_new 2 ltac:(lia)) as (c0 & Hn & Hr & _). by injection Hn as <-. }
  split.
  { pose proof (literal_verdict_lasting (λ _ _, Err aborted) _ _ (str "q;") (empty_template "q") 1 RExecute Hr) as Ht.
    destruct (prepare_outcome_cached _ _ _ _ _ _) as [r c]. destruct Ht as (_ & He & _); [vm_compute; congruence|done|].
    apply He. split; [by vm_compute|]. split; [done|]. left. apply passing_transaction_state. by exists (str "005"). }
  pose proof (literal_verdict_lasting (λ _ _, Err refused) _ _ (str "q;") (empty_template "q") 1 RExecute Hr) as Ht.
  destruct (prepare_outcome_cached _ _ _ _ _ _) as [r c] eqn:Hc. split.
  - vm_compute in Hc. injection Hc as <- _. by vm_compute.
  - intros key f Hf. destruct Ht as (_ & _ & Hv); [vm_compute; congruence|done|].
    destruct (Hv key f Hf) as [Ho|(-> & _ & _ & Ho & _)]; [|by split]. simpl in Ho. by rewrite lookup_empty in Ho.
Defined.
