(* ===== verification/EncodeProofs.v ===== *)
(** Encoding never panics, whatever the array and the field. *)

From stdpp Require Import base list numbers strings gmap.
From S2P Require Import Prelude RustStd Types Calendar Inet ArrowData Encode.
Local Open Scope Z_scope.

Lemma fmap_no_panic {E A B} (f : A → B) (r : res E A) : r ≠ Panic → f <$> r ≠ Panic.
Proof. by destruct r. Qed.

Lemma encode_rows_no_panic {A} (f : nat → A → res EncodeError bytes) rows :
  (∀ row x, f row x ≠ Panic) → encode_rows f rows ≠ Panic.
Proof. intros Hf. apply fmap_no_panic, mapi_res_no_panic. auto. Qed.

(** [no_panic], through the loops over rows and the helpers of the encoder. *)
Create HintDb encode_no_panic.
Ltac encode_step :=
  match goal with
  | |- encode_rows _ _ ≠ Panic => apply encode_rows_no_panic; intros
  | |- mapi_res _ _ _ ≠ Panic => apply mapi_res_no_panic; intros
  | |- _ => no_panic_step
  | |- _ => solve [auto with encode_no_panic]
  end.
Ltac encode_no_panic := intros; repeat (encode_step; cbn zeta in *).

Lemma check_rows_no_panic bad message values nulls : check_rows bad message values nulls ≠ Panic.
Proof. unfold check_rows. encode_no_panic. Qed.

Lemma encode_strings_loop_no_panic row values st : encode_strings_loop row values st ≠ Panic.
Proof.
  revert row st. induction values as [|value values IH]; intros row st; cbn [encode_strings_loop]; [done|].
  apply bind_no_panic; [unfold encode_string_row; encode_no_panic|]. intros [out st'] _. encode_no_panic.
Qed.

Lemma encode_decimal_no_panic precision enforce values nulls : encode_decimal precision enforce values nulls ≠ Panic.
Proof.
  unfold encode_decimal. destruct (negb _) eqn:Hp; [done|]. apply encode_rows_no_panic. intros row value.
  unfold encode_decimal_row. destruct (match value with Some _ => _ | None => _ end); [done|].
  apply negb_false_iff, andb_true_iff in Hp as [H1%Z.leb_le H2%Z.leb_le].
  apply bind_no_panic; [apply or_panic_no_panic; unfold decimal_width; repeat case_match; bool_prop; try done; lia|].
  intros width _. unfold decimal_narrow. encode_no_panic.
Qed.

Section with_chrono.
Context `{Chrono, Half}.

Lemma append_date_no_panic days row : append_date days row ≠ Panic.
Proof. unfold append_date, date_from_days. encode_no_panic. Qed.

Lemma append_time_no_panic micros row : append_time micros row ≠ Panic.
Proof. unfold append_time. encode_no_panic. Qed.
#[local] Hint Resolve check_rows_no_panic encode_strings_loop_no_panic encode_decimal_no_panic append_date_no_panic
  append_time_no_panic : encode_no_panic.

Lemma append_timestamp_no_panic micros row : append_timestamp micros row ≠ Panic.
Proof. unfold append_timestamp. encode_no_panic. Qed.
#[local] Hint Resolve append_timestamp_no_panic : encode_no_panic.

Lemma downcast_primitive_no_panic array dt : downcast_primitive array dt ≠ Panic.
Proof. by destruct array. Qed.
Lemma downcast_bytes_no_panic array dt : downcast_bytes array dt ≠ Panic.
Proof. by destruct array. Qed.
#[local] Hint Resolve downcast_primitive_no_panic downcast_bytes_no_panic : encode_no_panic.

Lemma dictionary_strings_no_panic array : dictionary_strings array ≠ Panic.
Proof. unfold dictionary_strings. encode_no_panic. Qed.
#[local] Hint Resolve dictionary_strings_no_panic : encode_no_panic.

Lemma monet_type_for_field_no_panic field : monet_type_for_field field ≠ Panic.
Proof. unfold monet_type_for_field. encode_no_panic. Qed.
#[local] Hint Resolve monet_type_for_field_no_panic : encode_no_panic.

Lemma column_fixed_wire_width_no_panic field dt : column_fixed_wire_width field dt ≠ Panic.
Proof. unfold column_fixed_wire_width, fixed_encoded_width. encode_no_panic. Qed.
#[local] Hint Resolve column_fixed_wire_width_no_panic : encode_no_panic.

Lemma encode_inet_no_panic array t r : encode_inet array t = Some r → r ≠ Panic.
Proof.
  unfold encode_inet, encode_addresses. intros Hr. repeat case_match; simplify_eq; encode_no_panic.
Qed.

Lemma encode_by_type_no_panic array t : encode_by_type array t ≠ Panic.
Proof.
  unfold encode_by_type, with_primitive, encode_null, encode_primitive, encode_unsigned, encode_oid, encode_f16, encode_f32,
    encode_f64, encode_strings, encode_dictionary, encode_uuid, encode_date32, encode_date64, encode_time32, encode_time64,
    encode_timestamp, encode_duration, encode_time_values, encode_timestamp_values, encode_nanos, encode_duration_values,
    encode_duration_row, encode_strings, downcast_null, downcast_boolean.
  encode_no_panic.
Qed.

Lemma encode_column_no_panic field array : encode_column field array ≠ Panic.
Proof.
  unfold encode_column, checked_encoded_size. apply bind_no_panic; [auto with encode_no_panic|]. intros t _.
  apply bind_no_panic; [auto with encode_no_panic|]. intros width _. apply bind_no_panic; [encode_no_panic|]. intros _ _.
  destruct (encode_inet array t) eqn:Hi; [by eapply encode_inet_no_panic|]. apply encode_by_type_no_panic.
Qed.

Lemma try_sum_no_panic message rows total sizes : try_sum message rows total sizes ≠ Panic.
Proof. revert total. induction sizes; intros total; cbn [try_sum]; encode_no_panic. Qed.
#[local] Hint Resolve try_sum_no_panic : encode_no_panic.

Lemma estimated_encoded_size_no_panic field array : estimated_encoded_size field array ≠ Panic.
Proof.
  unfold estimated_encoded_size, checked_encoded_size, estimated_strings, estimated_blobs, estimated_dictionary_strings,
    estimated_strings. encode_no_panic.
Qed.

Lemma borrowed_wire_bytes_no_panic array : borrowed_wire_bytes array ≠ Panic.
Proof.
  assert (∀ null rows row, sentinel_scan null row rows ≠ Panic) as Hs.
  { intros null rows. induction rows as [|[v m] rows IH]; intros row; cbn [sentinel_scan]; encode_no_panic. }
  unfold borrowed_wire_bytes, borrow_signed, borrow_float. encode_no_panic.
Qed.

Lemma piece_bytes_no_panic field slice : piece_bytes field slice ≠ Panic.
Proof.
  unfold piece_bytes. apply bind_no_panic; [apply borrowed_wire_bytes_no_panic|]. intros [b|] _; [done|].
  apply encode_column_no_panic.
Qed.

(** Chunked encoding panics only where its sink does. *)
Section sink.
Context {Sink E : Type} (emit : Sink → bytes → res E Sink) (I : Sink → Prop).
Hypothesis Hemit : ∀ sink data, I sink → emit sink data ≠ Panic ∧ ∀ sink', emit sink data = Ok sink' → I sink'.

(** No panic, and the invariant of the sink afterwards. *)
Definition sink_safe (r : res (ChunkedEncodeError E) (Z * Sink)) : Prop :=
  r ≠ Panic ∧ ∀ total sink, r = Ok (total, sink) → I sink.

Lemma emit_piece_safe field slice total sink : I sink → sink_safe (emit_piece emit field slice total sink).
Proof.
  intros Hi. unfold emit_piece. pose proof (piece_bytes_no_panic field slice) as Hp.
  destruct (piece_bytes field slice) as [data| |]; [|by split..]. cbn [map_err mbind res_bind].
  destruct (checked_add total (len data)); [|by split]. cbn [ok_or mbind res_bind].
  destruct (Hemit sink data Hi) as [Hn Hk]. destruct (emit sink data) as [sink'| |]; [|by split..].
  split; [done|]. intros t s [= _ <-]. by apply Hk.
Qed.

Lemma emit_pieces_safe fuel field array step start total sink :
  I sink → sink_safe (emit_pieces emit fuel field array step start total sink).
Proof.
  revert start total sink. induction fuel as [|fuel IH]; intros start total sink Hi; cbn [emit_pieces].
  { split; [done|]. by intros t s [= _ <-]. }
  destruct (start <? array_len array)%nat; [|split; [done|]; by intros t s [= _ <-]].
  destruct (emit_piece_safe field (array_slice array start (Nat.min (array_len array - start) step)) total sink Hi)
    as [Hn Hk].
  destruct (emit_piece _ _ _ _ _) as [[t s]| |]; [|by split..]. cbn [mbind res_bind]. apply IH. by eapply Hk.
Qed.

Lemma encode_column_chunks_safe field arrays target sink :
  I sink → sink_safe (encode_column_chunks emit field arrays target sink).
Proof.
  unfold encode_column_chunks. generalize 0. revert sink. induction arrays as [|array arrays IH]; intros sink total Hi;
    cbn [encode_column_chunks_loop]; [split; [done|]; by intros t s [= _ <-]|].
  pose proof (estimated_encoded_size_no_panic field array) as He.
  destruct (estimated_encoded_size field array) as [n| |]; [|by split..]. cbn [map_err mbind res_bind].
  destruct (emit_pieces_safe (array_len array) field array
    (Z.to_nat (rows_per_chunk target (Z.of_nat (array_len array)) n)) 0 total sink Hi) as [Hn Hk].
  destruct (emit_pieces _ _ _ _ _ _ _ _) as [[t s]| |]; [|by split..]. cbn [mbind res_bind]. apply IH. by eapply Hk.
Qed.
End sink.
End with_chrono.

Lemma try_sum_nonneg message rows total sizes n :
  0 ≤ total → Forall (λ x, 0 ≤ x) sizes → try_sum message rows total sizes = Ok n → 0 ≤ n.
Proof.
  intros Ht Hs. revert total Ht. induction Hs as [|x sizes Hx _ IH]; intros total Ht Hn; cbn [try_sum] in Hn.
  { by injection Hn as <-. }
  unfold checked_add in Hn. destruct (_ <=? _); [|done]. cbn [ok_or mbind res_bind] in Hn.
  apply IH in Hn; [done|lia].
Qed.

Lemma estimated_nonneg `{Chrono} field array n : estimated_encoded_size field array = Ok n → 0 ≤ n.
Proof.
  assert (∀ values rows k, estimated_strings values rows = Ok k → 0 ≤ k) as Hs.
  { intros values rows k Hk. eapply try_sum_nonneg; [|..|exact Hk]; [lia|]. apply Forall_fmap, Forall_true.
    intros [v|]; simpl; unfold saturating_add, usize_max; lia. }
  assert (∀ values rows k, estimated_blobs values rows = Ok k → 0 ≤ k) as Hb.
  { intros values rows k Hk. eapply try_sum_nonneg; [|..|exact Hk]; [lia|]. apply Forall_fmap, Forall_true.
    intros [v|]; simpl; unfold saturating_add, usize_max; lia. }
  unfold estimated_encoded_size. intros He. apply bind_ok in He as (width & Hw & He). destruct width as [w|].
  - unfold checked_encoded_size, checked_mul in He. destruct (_ <=? _); [|done]. injection He as <-.
    assert (0 ≤ w); [|nia]. unfold column_fixed_wire_width, fixed_encoded_width in Hw.
    repeat (case_bool_decide; simplify_eq; [lia|]). res_inv. unfold fixed_wire_width, decimal_width in *.
    repeat case_match; simplify_eq; lia.
  - unfold estimated_dictionary_strings in He. repeat case_match; try done; res_inv; eauto.
Qed.
