(* ===== verification/Compression.v ===== *)
(** Encoded columns of an ingest window
    ([crates/adbc-monetdb/src/driver.rs], [EncodedColumn], [CompressedArena]
    and the upload of a column): encoded bytes are gathered into chunks, a
    chunk is kept raw or compressed, plain or with its bytes shuffled, and the
    upload turns the chunks back into the bytes of the column.

    An anonymous mapping is modelled by its length and the bytes written so
    far: what is not written yet is zero.  Failures to map memory are left
    out. *)

From stdpp Require Import base list numbers strings.
From S2P Require Import Prelude RustStd Errors.
Local Open Scope Z_scope.

Definition MIN_ENCODE_BUFFER_BYTES : Z := 64 * 1024.
Definition ENCODE_CHUNK_BYTES : Z := 1024 * 1024.
Definition COMPRESSED_ARENA_SLAB_BYTES : Z := 16 * 1024 * 1024.
Definition COMPRESSION_PROBE_BYTES : Z := 256 * 1024.

Inductive WireCompression : Type := WC_None | WC_Auto | WC_Lz4.
Inductive CompressionTransform : Type := Plain | Shuffle (width : nat).
Inductive CompressionFormat : Type := Block | Frame.
Inductive CompressionMode : Type :=
| CM_Unknown
| CM_Enabled (transform : CompressionTransform)
| CM_Disabled.

#[global] Instance WireCompression_eq_dec : EqDecision WireCompression.
Proof. solve_decision. Defined.
#[global] Instance CompressionTransform_eq_dec : EqDecision CompressionTransform.
Proof. solve_decision. Defined.
#[global] Instance CompressionFormat_eq_dec : EqDecision CompressionFormat.
Proof. solve_decision. Defined.
#[global] Instance CompressionMode_eq_dec : EqDecision CompressionMode.
Proof. solve_decision. Defined.

(** [lz4_flex]: [block::compress_into] with an output of the maximal size, the
    bytes [block::decompress_into] writes into an output of a given length, a
    [FrameEncoder] run to its end, and all that a [FrameDecoder] reads. *)
Class Lz4 := {
  block_compress : bytes → option bytes;
  block_decompress : bytes → nat → option bytes;
  frame_compress : bytes → option bytes;
  frame_decode : bytes → option bytes;
}.

(** ** Shuffling *)

(** The rows of whole [width]-byte values, transposed, and the rest as it is. *)
Definition shuffle_bytes_into (input : bytes) (width : nat) : res CursorError bytes :=
  if (width =? 0)%nat then Panic
  else
    let aligned_len := (length input - length input mod width)%nat in
    let rows := (aligned_len / width)%nat in
    columns ← map_res (λ byte, map_res (λ row, or_panic (input !! (row * width + byte)%nat)) (seq 0 rows)) (seq 0 width);
    Ok (concat columns ++ drop aligned_len input).

(** [output[i] = v], which panics out of range. *)
Definition write_at (output : bytes) (i : nat) (v : Z) : res CursorError bytes :=
  if (i <? length output)%nat then Ok (<[i := v]> output) else Panic.

Fixpoint foldl_res {A B} (f : B → A → res CursorError B) (b : B) (l : list A) : res CursorError B :=
  match l with
  | [] => Ok b
  | a :: l => b ← f b a; foldl_res f b l
  end.

(** The loops over bytes and rows, writing into a buffer with any contents. *)
Definition unshuffle_bytes (input : bytes) (width : nat) (output : bytes) : res CursorError bytes :=
  if (width =? 0)%nat || negb (length input =? length output)%nat then Panic
  else
    let aligned_len := (length input - length input mod width)%nat in
    let rows := (aligned_len / width)%nat in
    output ← foldl_res (λ output byte,
      foldl_res (λ output row,
        v ← or_panic (input !! (byte * rows + row)%nat);
        write_at output (row * width + byte)%nat v) output (seq 0 rows)) output (seq 0 width);
    Ok (take aligned_len output ++ drop aligned_len input).

(** ** The arena *)

Record CompressedSlab : Type := mkCompressedSlab { slab_len : Z; slab_used : bytes }.
Record CompressedData : Type := mkCompressedData { data_slab : nat; data_offset : nat }.

Definition slab_fits (slab : CompressedSlab) (bs : bytes) : bool :=
  len bs <=? slab_len slab - len (slab_used slab).

(** The last slab has room, or a new one is mapped. *)
Definition arena_room (slabs : list CompressedSlab) (bs : bytes) : list CompressedSlab :=
  if from_option (λ slab, slab_fits slab bs) false (last slabs) then slabs
  else slabs ++ [mkCompressedSlab (Z.max COMPRESSED_ARENA_SLAB_BYTES (len bs)) []].

Definition arena_store (slabs : list CompressedSlab) (bs : bytes)
    : res CursorError (CompressedData * list CompressedSlab) :=
  let slabs := arena_room slabs bs in
  let slab := (length slabs - 1)%nat in
  storage ← or_panic (slabs !! slab);
  if negb (slab_fits storage bs) then Panic
  else
    let offset := length (slab_used storage) in
    Ok (mkCompressedData slab offset,
        <[slab := mkCompressedSlab (slab_len storage) (slab_used storage ++ bs)]> slabs).

(** [&slabs[slab].data[offset..offset + len]]. *)
Definition arena_slice (slabs : list CompressedSlab) (data : CompressedData) (n : nat) : res CursorError bytes :=
  storage ← or_panic (slabs !! data_slab data);
  if slab_len storage <? Z.of_nat (data_offset data + n) then Panic
  else Ok (drop (data_offset data) (resize (data_offset data + n) 0 (slab_used storage))).

Definition arena_physical_bytes (slabs : list CompressedSlab) : Z := foldr Z.add 0 (slab_len <$> slabs).

(** ** Encoded columns *)

Inductive EncodedChunk : Type :=
| Raw (data : bytes)
| Compressed (data : CompressedData) (stored : nat) (decoded_len : nat) (transform : CompressionTransform)
    (format : CompressionFormat).

Definition stored_len (chunk : EncodedChunk) : Z :=
  match chunk with Raw data => len data | Compressed _ stored _ _ _ => Z.of_nat stored end.

Record PendingEncodedChunk : Type := mkPendingChunk { pending_capacity : Z; pending_data : bytes }.

Record EncodedColumn : Type := mkEncodedColumn {
  chunks_of : list EncodedChunk;
  pending : option PendingEncodedChunk;
  compression : CompressionMode;
  fixed_width : option nat;
  wire_compression : WireCompression;
  column_bytes : Z;
}.

Definition column_new (fixed_width : option nat) (wire : WireCompression) : EncodedColumn :=
  mkEncodedColumn [] None CM_Unknown fixed_width wire 0.

Definition with_pending (c : EncodedColumn) (p : option PendingEncodedChunk) : EncodedColumn :=
  mkEncodedColumn (chunks_of c) p (compression c) (fixed_width c) (wire_compression c) (column_bytes c).
Definition with_chunk (c : EncodedColumn) (chunk : EncodedChunk) (mode : CompressionMode) : EncodedColumn :=
  mkEncodedColumn (chunks_of c ++ [chunk]) (pending c) mode (fixed_width c) (wire_compression c) (column_bytes c).

Section with_lz4.
Context `{Lz4}.

Definition compress_failed : CursorError := CE_FileTransfer (str "compressing an ingest buffer failed").
Definition decompress_failed : CursorError := CE_FileTransfer (str "decompressing an ingest buffer failed").

(** [compressed_size] and [compress_frame_bytes]: the bytes left in the output. *)
Definition compressed_size (input : bytes) (format : CompressionFormat) : res CursorError bytes :=
  match format with
  | Block => ok_or (block_compress input) compress_failed
  | Frame => ok_or (frame_compress input) compress_failed
  end.

Definition compress_bytes (input : bytes) (transform : CompressionTransform) (format : CompressionFormat)
    : res CursorError bytes :=
  match transform with
  | Plain => compressed_size input format
  | Shuffle width => transformed ← shuffle_bytes_into input width; compressed_size transformed format
  end.

(** At most seven eighths of the input. *)
Definition worthwhile (compressed input : bytes) : bool :=
  saturating_mul (len compressed) 8 <=? saturating_mul (len input) 7.

(** The transform with the smaller sample, when it is worth its while. *)
Definition select_compression_transform (input : bytes) (width : option nat) (allow_shuffle : bool)
    (format : CompressionFormat) : res CursorError (option CompressionTransform) :=
  let sample_len := Z.to_nat (Z.min COMPRESSION_PROBE_BYTES (len input)) in
  let plain := take sample_len input in
  plain_out ← compressed_size plain format;
  best ←
    match width with
    | Some width =>
        if allow_shuffle && (1 <? width)%nat && (0 <? sample_len - sample_len mod width)%nat then
          transformed ← shuffle_bytes_into plain width;
          shuffled_out ← compressed_size transformed format;
          Ok (if len shuffled_out <? len plain_out then (Shuffle width, shuffled_out) else (Plain, plain_out))
        else Ok (Plain, plain_out)
    | None => Ok (Plain, plain_out)
    end;
  Ok (if worthwhile best.2 plain then Some best.1 else None).

Definition is_lz4 (w : WireCompression) : bool := bool_decide (w = WC_Lz4).

(** The transform of the next chunk; [None] disables compression. *)
Definition chunk_transform (c : EncodedColumn) (input : bytes) : res CursorError (option CompressionTransform) :=
  match compression c with
  | CM_Unknown =>
      if is_lz4 (wire_compression c) then Ok (Some Plain)
      else
        select_compression_transform input (fixed_width c) (negb (is_lz4 (wire_compression c)))
          (if is_lz4 (wire_compression c) then Frame else Block)
  | CM_Enabled transform => Ok (Some transform)
  | CM_Disabled => Panic
  end.

Definition chunk_format (wire : WireCompression) (transform : CompressionTransform) : CompressionFormat :=
  if negb (bool_decide (wire = WC_None)) && bool_decide (transform = Plain) then Frame else Block.

Definition finish_pending (c : EncodedColumn) (arena : list CompressedSlab)
    : res CursorError (EncodedColumn * list CompressedSlab) :=
  match pending c with
  | None => Ok (c, arena)
  | Some p =>
      let c := with_pending c None in
      let input := pending_data p in
      if bool_decide (compression c = CM_Disabled) then Ok (with_chunk c (Raw input) CM_Disabled, arena)
      else
        transform ← chunk_transform c input;
        match transform with
        | None => Ok (with_chunk c (Raw input) CM_Disabled, arena)
        | Some transform =>
            let format := chunk_format (wire_compression c) transform in
            output ← compress_bytes input transform format;
            if negb (is_lz4 (wire_compression c)) && negb (worthwhile output input)
            then Ok (with_chunk c (Raw input) CM_Disabled, arena)
            else
              '(data, arena) ← arena_store arena output;
              Ok (with_chunk c (Compressed data (length output) (length input) transform format)
                    (CM_Enabled transform), arena)
        end
  end.

(** A new buffer is as long as the bytes at hand, between the two bounds. *)
Definition pending_or_new (c : EncodedColumn) (bs : bytes) : PendingEncodedChunk :=
  match pending c with
  | Some p => p
  | None => mkPendingChunk (Z.max MIN_ENCODE_BUFFER_BYTES (Z.min (len bs) ENCODE_CHUNK_BYTES)) []
  end.

(** The loop of [push]; every round takes a byte at least. *)
Fixpoint push_loop (fuel : nat) (c : EncodedColumn) (bs : bytes) (arena : list CompressedSlab)
    : res CursorError (EncodedColumn * list CompressedSlab) :=
  match fuel, bs with
  | _, [] => Ok (c, arena)
  | O, _ => Ok (c, arena)
  | S fuel, _ =>
      let p := pending_or_new c bs in
      let copied := Z.to_nat (Z.min (len bs) (pending_capacity p - len (pending_data p))) in
      let p := mkPendingChunk (pending_capacity p) (pending_data p ++ take copied bs) in
      let c := with_pending c (Some p) in
      '(c, arena) ← (if len (pending_data p) =? pending_capacity p then finish_pending c arena else Ok (c, arena));
      push_loop fuel c (drop copied bs) arena
  end.

Definition column_push (c : EncodedColumn) (bs : bytes) (arena : list CompressedSlab)
    : res CursorError (EncodedColumn * list CompressedSlab) := push_loop (length bs) c bs arena.

Definition column_finish (c : EncodedColumn) (arena : list CompressedSlab)
    : res CursorError (EncodedColumn * list CompressedSlab) := finish_pending c arena.

Definition chunk_decoded_len (chunk : EncodedChunk) : Z :=
  match chunk with Raw data => len data | Compressed _ _ decoded_len _ _ => Z.of_nat decoded_len end.
Definition column_largest_chunk (c : EncodedColumn) : Z := foldr Z.max 0 (chunk_decoded_len <$> chunks_of c).
Definition column_stored_bytes (c : EncodedColumn) : Z := foldr Z.add 0 (stored_len <$> chunks_of c).

(** ** Upload *)

(** The content of a frame, which must be as long as declared. *)
Definition decompress_frame_into (input : bytes) (n : nat) : res CursorError bytes :=
  content ← ok_or (frame_decode input) decompress_failed;
  if (length content <? n)%nat then Err decompress_failed
  else if (n <? length content)%nat
  then Err (CE_FileTransfer (str "decompressed ingest buffer exceeds its declared size"))
  else Ok content.

Definition decompress (data : bytes) (decoded_len : nat) (format : CompressionFormat) : res CursorError bytes :=
  written ←
    match format with
    | Block => ok_or (block_decompress data decoded_len) decompress_failed
    | Frame => decompress_frame_into data decoded_len
    end;
  if negb (length written =? decoded_len)%nat
  then Err (CE_FileTransfer (str "decompressed ingest buffer has " ++ fmt_int (len written) ++ str " bytes, expected "
                             ++ fmt_int (Z.of_nat decoded_len)))
  else Ok written.

(** The buffer for unshuffled bytes, kept for the next chunk: a new one is zero. *)
Definition unshuffle_scratch (scratch : option bytes) (n : nat) : bytes :=
  match scratch with
  | Some buffer => if (length buffer <? n)%nat then replicate n 0 else buffer
  | None => replicate n 0
  end.

(** What one chunk writes to the sink, and the buffer it leaves. *)
Definition upload_chunk (wire_lz4 : bool) (arena : list CompressedSlab) (scratch : option bytes)
    (chunk : EncodedChunk) : res CursorError (bytes * option bytes) :=
  match chunk with
  | Raw data => Ok (data, scratch)
  | Compressed data stored decoded_len transform format =>
      data ← arena_slice arena data stored;
      if wire_lz4 then
        if negb (bool_decide (transform = Plain)) || negb (bool_decide (format = Frame))
        then Err (CE_FileTransfer (str "wire-compressed ingest contains a client-only transform"))
        else Ok (data, scratch)
      else
        written ← decompress data decoded_len format;
        match transform with
        | Plain => Ok (written, scratch)
        | Shuffle width =>
            let buffer := unshuffle_scratch scratch decoded_len in
            output ← unshuffle_bytes written width (take (length written) buffer);
            Ok (output, Some (output ++ drop (length written) buffer))
        end
  end.

Fixpoint upload_chunks (wire_lz4 : bool) (arena : list CompressedSlab) (scratch : option bytes)
    (chunks : list EncodedChunk) : res CursorError (list bytes) :=
  match chunks with
  | [] => Ok []
  | chunk :: chunks =>
      '(piece, scratch) ← upload_chunk wire_lz4 arena scratch chunk;
      rest ← upload_chunks wire_lz4 arena scratch chunks;
      Ok (piece :: rest)
  end.

(** The chunks of a column, in the order they reach the sink. *)
Definition upload_column (wire_lz4 : bool) (arena : list CompressedSlab) (c : EncodedColumn)
    : res CursorError (list bytes) := upload_chunks wire_lz4 arena None (chunks_of c).
End with_lz4.
