(* ===== verification/CompressionProofs.v ===== *)
(** An encoded column uploads as the bytes pushed into it: shuffling is undone,
    the arena keeps what it stored, and the chunks decode to the column. *)

From stdpp Require Import base list numbers strings sets.
From S2P Require Import Prelude RustStd Errors Compression.
Local Open Scope Z_scope.

(** ** Shuffling *)

Lemma lookup_concat_const {A} n (ls : list (list A)) i j :
  Forall (λ l, length l = n) ls → (j < n)%nat → concat ls !! (i * n + j)%nat = ls !! i ≫= (.!! j).
Proof.
  intros Hls Hj. revert i. induction Hls as [|l ls Hl _ IH]; intros i; [done|]. cbn [concat].
  destruct i as [|i]; simpl.
  - by rewrite lookup_app_l by lia.
  - rewrite lookup_app_r by lia. rewrite <- IH. f_equal. lia.
Qed.

Lemma map_res_total {E A B} (f : A → res E B) (g : A → B) l :
  (∀ x, x ∈ l → f x = Ok (g x)) → map_res f l = Ok (g <$> l).
Proof.
  intros Hf. unfold map_res. by apply mapi_res_pure.
Qed.

Section shuffle.
Context (input : bytes) (width : nat).
Hypothesis Hw : (0 < width)%nat.

Definition aligned : nat := length input - length input mod width.
Definition rows : nat := aligned / width.

Lemma aligned_rows : aligned = (rows * width)%nat ∧ (aligned ≤ length input)%nat.
Proof.
  unfold rows, aligned. pose proof (Nat.div_mod_eq (length input) width) as Hd.
  pose proof (Nat.mod_upper_bound (length input) width ltac:(lia)) as Hm.
  replace (length input - length input mod width)%nat with (length input / width * width)%nat by lia.
  rewrite Nat.div_mul by lia. split; lia.
Qed.

Lemma index_bound row byte : (row < rows)%nat → (byte < width)%nat → (row * width + byte < aligned)%nat.
Proof. destruct aligned_rows as [-> _]. nia. Qed.

Lemma transposed_bound row byte : (row < rows)%nat → (byte < width)%nat → (byte * rows + row < aligned)%nat.
Proof. destruct aligned_rows as [-> _]. nia. Qed.

(** The bytes of the shuffled values, position by position. *)
Lemma shuffle_spec :
  ∃ output, shuffle_bytes_into input width = Ok output ∧ length output = length input ∧
    drop aligned output = drop aligned input ∧
    ∀ row byte, (row < rows)%nat → (byte < width)%nat → output !! (byte * rows + row)%nat = input !! (row * width + byte)%nat.
Proof.
  unfold shuffle_bytes_into. rewrite (proj2 (Nat.eqb_neq width 0)) by lia. fold aligned. fold rows.
  destruct aligned_rows as [Ha Hle].
  rewrite (map_res_total _ (λ byte, (λ row, input !!! (row * width + byte)%nat) <$> seq 0 rows)); last first.
  { intros byte Hb%elem_of_seq. apply map_res_total. intros row Hr%elem_of_seq.
    pose proof (index_bound row byte ltac:(lia) ltac:(lia)) as Hi.
    destruct (lookup_lt_is_Some_2 input (row * width + byte)%nat ltac:(lia)) as [v Hv].
    rewrite Hv. simpl. by rewrite (list_lookup_total_correct _ _ _ Hv). }
  cbn [mbind res_bind]. set (cols := _ <$> seq 0 width).
  assert (Forall (λ l, length l = rows) cols) as Hcols.
  { unfold cols. apply Forall_fmap, Forall_true. intros b. simpl. by rewrite length_fmap, length_seq. }
  assert (length (concat cols) = aligned) as Hlen.
  { rewrite (length_concat_const rows) by done. unfold cols. rewrite length_fmap, length_seq. lia. }
  exists (concat cols ++ drop aligned input). split_and!; [done| | |].
  - rewrite length_app, length_drop, Hlen. lia.
  - by rewrite <- Hlen at 1; rewrite drop_app_length.
  - intros row byte Hr Hb. pose proof (transposed_bound row byte Hr Hb). pose proof (index_bound row byte Hr Hb).
    rewrite lookup_app_l by lia. rewrite lookup_concat_const by done. unfold cols.
    rewrite list_lookup_fmap, lookup_seq_lt by done. simpl. rewrite list_lookup_fmap, lookup_seq_lt by done. simpl.
    symmetry. apply list_lookup_lookup_total_lt. lia.
Qed.

(** ** Unshuffling *)

(** The positions the loops have written. *)
Definition restored (out : bytes) (byte row : nat) : Prop :=
  length out = length input ∧
  ∀ b r, (b < width)%nat → (r < rows)%nat → (b < byte ∨ b = byte ∧ r < row)%nat →
    out !! (r * width + b)%nat = input !! (b * rows + r)%nat.

Lemma restored_write out byte row :
  (byte < width)%nat → (row < rows)%nat → restored out byte row →
  ∃ out', (v ← or_panic (input !! (byte * rows + row)%nat); write_at out (row * width + byte) v) = Ok out' ∧
    restored out' byte (S row).
Proof.
  intros Hb Hr [Hl Hout]. destruct aligned_rows as [Ha Hle].
  pose proof (index_bound row byte Hr Hb) as Hi. pose proof (transposed_bound row byte Hr Hb) as Ht.
  destruct (lookup_lt_is_Some_2 input (byte * rows + row)%nat ltac:(lia)) as [v Hv]. rewrite Hv.
  cbn [or_panic mbind res_bind]. unfold write_at. rewrite (proj2 (Nat.ltb_lt _ _)) by lia.
  eexists. split; [done|]. split; [by rewrite length_insert|]. intros b r Hb' Hr' Hd.
  destruct (decide (b = byte ∧ r = row)) as [[-> ->]|Hne]; [rewrite list_lookup_insert_eq by lia; done|].
  rewrite list_lookup_insert_ne.
  - apply Hout; [done..|]. destruct (decide (b = byte)) as [->|]; [right; split; [done|]|left; lia].
    destruct (decide (r = row)) as [->|]; [by destruct Hne|lia].
  - intros He. assert (row = r) as ->; [|apply Hne; lia]. destruct (Nat.lt_trichotomy row r) as [?|[?|?]]; [nia|done|nia].
Qed.

Lemma restored_row byte n row out :
  (byte < width)%nat → (row + n = rows)%nat → restored out byte row →
  ∃ out', foldl_res (λ output row, v ← or_panic (input !! (byte * rows + row)%nat);
                       write_at output (row * width + byte) v) out (seq row n) = Ok out' ∧
    restored out' (S byte) 0.
Proof.
  revert row out. induction n as [|n IH]; intros row out Hb Hn Hr; cbn [seq foldl_res].
  - exists out. split; [done|]. destruct Hr as [Hl Hr]. split; [done|]. intros b r H1 H2 H3. apply Hr; lia.
  - destruct (restored_write out byte row Hb ltac:(lia) Hr) as (out1 & -> & Hr1). cbn [mbind res_bind].
    apply IH; [done|lia|done].
Qed.

Lemma restored_all n byte out :
  (byte + n = width)%nat → restored out byte 0 →
  ∃ out', foldl_res (λ output byte, foldl_res (λ output row, v ← or_panic (input !! (byte * rows + row)%nat);
                       write_at output (row * width + byte) v) output (seq 0 rows)) out (seq byte n) = Ok out' ∧
    restored out' width 0.
Proof.
  revert byte out. induction n as [|n IH]; intros byte out Hn Hr; cbn [seq foldl_res].
  - exists out. split; [done|]. by replace width with byte by lia.
  - destruct (restored_row byte rows 0 out ltac:(lia) ltac:(lia) Hr) as (out1 & -> & Hr1). cbn [mbind res_bind].
    apply IH; [lia|done].
Qed.

Lemma unshuffle_spec out :
  length out = length input →
  ∃ out', unshuffle_bytes input width out = Ok (take aligned out' ++ drop aligned input) ∧ restored out' width 0.
Proof.
  intros Hl. unfold unshuffle_bytes. rewrite (proj2 (Nat.eqb_neq width 0)), Hl, Nat.eqb_refl by lia.
  cbn [orb negb]. fold aligned. fold rows.
  destruct (restored_all width 0 out eq_refl) as (out' & -> & Hr).
  { split; [done|]. intros b r _ _ Hd. lia. }
  by exists out'.
Qed.
End shuffle.

(** Shuffling is undone exactly: the bytes of a chunk, transposed by value
    width and transposed back into any buffer of the same length, whatever it
    held before, are the bytes of the chunk, those beyond the last whole value
    included. *)
Lemma unshuffle_shuffle input width buffer :
  (0 < width)%nat → length buffer = length input →
  ∃ shuffled, shuffle_bytes_into input width = Ok shuffled ∧ length shuffled = length input ∧
    unshuffle_bytes shuffled width buffer = Ok input.
Proof.
  intros Hw Hl. destruct (shuffle_spec input width Hw) as (sh & Hs & Hlen & Htail & Hsh).
  exists sh. split_and!; [done..|].
  assert (aligned sh width = aligned input width) as Ha by (unfold aligned; by rewrite Hlen).
  assert (rows sh width = rows input width) as Hr by (unfold rows; by rewrite Ha).
  destruct (unshuffle_spec sh width Hw buffer ltac:(lia)) as (out & -> & [Hlo Hout]). f_equal.
  rewrite Ha, Htail. transitivity (take (aligned input width) input ++ drop (aligned input width) input);
    [|apply take_drop]. f_equal.
  destruct (aligned_rows input width Hw) as [Har Hle]. rewrite Hr in Hout.
  apply list_eq. intros i. destruct (decide (i < aligned input width)%nat) as [Hi|Hi]; [|by rewrite !lookup_take_ge by lia].
  rewrite !lookup_take_lt by done.
  assert (i / width < rows input width)%nat as Hq by (apply Nat.Div0.div_lt_upper_bound; lia).
  pose proof (Nat.mod_upper_bound i width ltac:(lia)) as Hm.
  assert (i = i / width * width + i mod width)%nat as -> by (pose proof (Nat.div_mod_eq i width); lia).
  rewrite Hout by lia. by rewrite Hsh by done.
Qed.

(** ** The arena *)

Definition arena_ok (slabs : list CompressedSlab) : Prop :=
  Forall (λ slab, len (slab_used slab) ≤ slab_len slab) slabs.

(** Later arenas keep what is written: slabs only grow at their ends. *)
Definition arena_extends (slabs slabs' : list CompressedSlab) : Prop :=
  ∀ i slab, slabs !! i = Some slab →
    ∃ slab', slabs' !! i = Some slab' ∧ slab_len slab' = slab_len slab ∧ slab_used slab `prefix_of` slab_used slab'.

#[global] Instance arena_extends_preorder : PreOrder arena_extends.
Proof.
  split.
  - intros slabs i slab Hi. by exists slab.
  - intros s1 s2 s3 H12 H23 i slab Hi. destruct (H12 i slab Hi) as (slab2 & H2 & Hl & Hp).
    destruct (H23 i slab2 H2) as (slab3 & H3 & Hl' & Hp'). exists slab3. split_and!; [done|congruence|by etransitivity].
Qed.

(** The bytes a piece of stored data stands for. *)
Definition stored_at (slabs : list CompressedSlab) (data : CompressedData) (content : bytes) : Prop :=
  ∃ slab rest, slabs !! data_slab data = Some slab ∧ drop (data_offset data) (slab_used slab) = content ++ rest ∧
    (data_offset data ≤ length (slab_used slab))%nat.

Lemma stored_at_extends slabs slabs' data content :
  arena_extends slabs slabs' → stored_at slabs data content → stored_at slabs' data content.
Proof.
  intros He (slab & rest & Hs & Hd & Ho). destruct (He _ _ Hs) as (slab' & Hs' & _ & [k Hk]).
  exists slab', (rest ++ k). split_and!; [done| |].
  - rewrite Hk, drop_app_le by done. by rewrite Hd, <- app_assoc.
  - rewrite Hk, length_app. lia.
Qed.

Lemma arena_slice_stored slabs data content :
  arena_ok slabs → stored_at slabs data content → arena_slice slabs data (length content) = Ok content.
Proof.
  intros Hok (slab & rest & Hs & Hd & Ho). unfold arena_slice. rewrite Hs. cbn [or_panic mbind res_bind].
  pose proof (f_equal length Hd) as Hl. rewrite length_drop, length_app in Hl.
  assert (len (slab_used slab) ≤ slab_len slab) as Hb by (eapply Forall_lookup_1 in Hok; [|exact Hs]; done).
  rewrite (proj2 (Z.ltb_ge _ _)) by lia. f_equal. rewrite resize_le by lia.
  rewrite skipn_firstn_comm. rewrite Hd. replace (data_offset data + length content - data_offset data)%nat with (length content) by lia.
  by rewrite take_app_length.
Qed.

Lemma arena_store_ok slabs bs :
  arena_ok slabs →
  ∃ data slabs', arena_store slabs bs = Ok (data, slabs') ∧ arena_ok slabs' ∧ arena_extends slabs slabs' ∧
    stored_at slabs' data bs.
Proof.
  intros Hok. unfold arena_store. set (slabs1 := arena_room slabs bs). cbn zeta.
  assert (∃ pre storage, slabs1 = pre ++ [storage] ∧ slab_fits storage bs = true ∧ arena_ok slabs1 ∧ arena_extends slabs slabs1)
    as (pre & storage & He & Hfit & Hok1 & Hext).
  { unfold slabs1, arena_room. destruct (from_option _ _ (last slabs)) eqn:Hf.
    - destruct (last slabs) as [slab|] eqn:Hlast; [|done]. apply last_Some in Hlast as [pre ->]. exists pre, slab. done.
    - eexists slabs, _. split; [done|]. split; [unfold slab_fits; apply Z.leb_le; cbn [slab_len slab_used length]; lia|]. split.
      + apply Forall_app. split; [done|]. constructor; [|constructor]. cbn [slab_used slab_len]. simpl. lia.
      + intros i slab Hi. exists slab. rewrite lookup_app_l by (by eapply lookup_lt_Some). done. }
  rewrite He. rewrite length_app. replace (length pre + length [storage] - 1)%nat with (length pre) by (simpl; lia).
  rewrite (list_lookup_middle pre [] storage _ eq_refl). cbn [or_panic mbind res_bind]. rewrite Hfit. cbn [negb].
  unfold slab_fits in Hfit. apply Z.leb_le in Hfit.
  set (storage' := mkCompressedSlab (slab_len storage) (slab_used storage ++ bs)).
  replace (<[length pre := storage']> (pre ++ [storage])) with (pre ++ [storage']).
  2: { symmetry. replace (length pre) with (length pre + 0)%nat by lia. rewrite insert_app_r. done. }
  eexists _, _. split_and!; [done| | |].
  - rewrite He in Hok1. apply Forall_app in Hok1 as [H1 H2]. apply Forall_app. split; [done|].
    constructor; [|constructor]. cbn [storage' slab_used slab_len]. rewrite length_app. lia.
  - etransitivity; [exact Hext|]. rewrite He. intros i slab Hi. destruct (decide (i < length pre)%nat).
    + rewrite lookup_app_l in Hi by done. exists slab. by rewrite lookup_app_l.
    + assert (i = length pre) as ->.
      { apply lookup_lt_Some in Hi. rewrite length_app in Hi. simpl in Hi. lia. }
      rewrite (list_lookup_middle pre [] storage _ eq_refl) in Hi. injection Hi as <-.
      exists storage'. rewrite (list_lookup_middle pre [] storage' _ eq_refl). split_and!; [done..|]. by eexists.
  - exists storage', []. cbn [data_slab data_offset storage' slab_used].
    rewrite (list_lookup_middle pre [] storage' _ eq_refl). split_and!; [done| |].
    + by rewrite drop_app_length, app_nil_r.
    + rewrite length_app. lia.
Qed.

(** ** Chunks and columns *)

(** What the driver relies on: what was compressed decompresses. *)
Class Lz4Laws `{Lz4} := {
  block_law : ∀ input output, block_compress input = Some output → block_decompress output (length input) = Some input;
  frame_law : ∀ input output, frame_compress input = Some output → frame_decode output = Some input;
}.

Section columns.
Context `{Lz4}.

(** The bytes a chunk stands for. *)
Definition chunk_holds (arena : list CompressedSlab) (chunk : EncodedChunk) (piece : bytes) : Prop :=
  match chunk with
  | Raw data => data = piece
  | Compressed data stored decoded_len transform format =>
      ∃ output, stored_at arena data output ∧ stored = length output ∧ decoded_len = length piece ∧
        compress_bytes piece transform format = Ok output
  end.

Definition plain_frame (chunk : EncodedChunk) : bool :=
  match chunk with Compressed _ _ _ Plain Frame => true | _ => false end.

Record column_holds (arena : list CompressedSlab) (c : EncodedColumn) (content : bytes) : Prop := {
  ch_pieces : ∃ pieces, Forall2 (chunk_holds arena) (chunks_of c) pieces ∧
    content = concat pieces ++ from_option pending_data [] (pending c);
  ch_mode : ∀ width, compression c = CM_Enabled (Shuffle width) → (0 < width)%nat;
  ch_wire : wire_compression c = WC_Lz4 →
    (compression c = CM_Unknown ∨ compression c = CM_Enabled Plain) ∧ Forall (λ chunk, plain_frame chunk = true) (chunks_of c);
}.

(** The buffer being filled has room. *)
Definition pending_open (c : EncodedColumn) : Prop :=
  match pending c with Some p => len (pending_data p) < pending_capacity p | None => True end.

Definition same_shape (c c' : EncodedColumn) : Prop :=
  fixed_width c' = fixed_width c ∧ wire_compression c' = wire_compression c ∧ column_bytes c' = column_bytes c.

(** An operation on a column that keeps the arena and adds [more] to the column. *)
Definition column_grows (arena : list CompressedSlab) (c : EncodedColumn) (content : bytes)
    (r : res CursorError (EncodedColumn * list CompressedSlab)) (P : EncodedColumn → Prop) : Prop :=
  match r with
  | Ok (c', arena') =>
      arena_ok arena' ∧ arena_extends arena arena' ∧ column_holds arena' c' content ∧ same_shape c c' ∧ P c'
  | Err _ => True
  | Panic => False
  end.

Lemma chunk_holds_extends arena arena' chunk piece :
  arena_extends arena arena' → chunk_holds arena chunk piece → chunk_holds arena' chunk piece.
Proof.
  intros He. destruct chunk as [data|data stored n t f]; [done|]. intros (out & Hs & Hrest). exists out.
  split; [by eapply stored_at_extends|done].
Qed.

Lemma column_holds_extends arena arena' c content :
  arena_extends arena arena' → column_holds arena c content → column_holds arena' c content.
Proof.
  intros He [(pieces & Hp & Hc) Hm Hw]. split; [|done..]. exists pieces. split; [|done].
  eapply Forall2_impl; [exact Hp|]. intros. by eapply chunk_holds_extends.
Qed.

Lemma column_new_holds arena fixed wire : column_holds arena (column_new fixed wire) [].
Proof. split; [by exists []|done|]. intros _. split; [by left|constructor]. Qed.

Lemma compress_format_no_panic input format : compressed_size input format ≠ Panic.
Proof. destruct format; simpl; [by destruct (block_compress input)|by destruct (frame_compress input)]. Qed.

Lemma compress_bytes_no_panic input transform format :
  (∀ width, transform = Shuffle width → (0 < width)%nat) → compress_bytes input transform format ≠ Panic.
Proof.
  intros Ht. destruct transform as [|width]; [apply compress_format_no_panic|]. cbn [compress_bytes].
  destruct (shuffle_spec input width (Ht _ eq_refl)) as (sh & -> & _). apply compress_format_no_panic.
Qed.

Lemma select_transform_ok input width allow format :
  match select_compression_transform input width allow format with
  | Ok (Some transform) => ∀ w, transform = Shuffle w → (0 < w)%nat
  | Ok None | Err _ => True
  | Panic => False
  end.
Proof.
  unfold select_compression_transform. set (plain := take _ input).
  pose proof (compress_format_no_panic plain format) as Hn.
  destruct (compressed_size plain format) as [out| |]; [|done..]. cbn [mbind res_bind].
  destruct width as [width|]; [|simpl; by destruct (worthwhile _ _)].
  destruct (allow && (1 <? width)%nat && _) eqn:Hg; [|simpl; by destruct (worthwhile _ _)].
  apply andb_true_iff in Hg as [[_ Hg%Nat.ltb_lt]%andb_true_iff _].
  destruct (shuffle_spec plain width ltac:(lia)) as (sh & -> & _). cbn [mbind res_bind].
  pose proof (compress_format_no_panic sh format) as Hn'.
  destruct (compressed_size sh format) as [out'| |]; [|done..]. cbn [mbind res_bind].
  destruct (_ <? _); simpl; destruct (worthwhile _ _); try done. intros w [= <-]. lia.
Qed.

(** A finished chunk goes behind the others. *)
Lemma column_holds_chunk arena c content p chunk mode :
  column_holds arena c content → pending c = Some p →
  chunk_holds arena chunk (pending_data p) →
  (∀ width, mode = CM_Enabled (Shuffle width) → (0 < width)%nat) →
  (wire_compression c = WC_Lz4 → mode = CM_Enabled Plain ∧ plain_frame chunk = true) →
  column_holds arena (with_chunk (with_pending c None) chunk mode) content.
Proof.
  intros [(pieces & Hp & ->) Hm Hw] Hpend Hchunk Hmode Hwire. rewrite Hpend.
  split; cbn [with_chunk with_pending chunks_of pending compression wire_compression from_option].
  - exists (pieces ++ [pending_data p]). rewrite app_nil_r. split; [|by rewrite concat_app; simpl; rewrite app_nil_r].
    apply Forall2_app; [done|]. by constructor.
  - done.
  - intros Hl. destruct (Hwire Hl) as [-> Hf]. split; [by right|]. apply Forall_app. split; [by apply Hw|]. by repeat constructor.
Qed.

Lemma chunk_transform_ok c input :
  (∀ width, compression c = CM_Enabled (Shuffle width) → (0 < width)%nat) →
  (wire_compression c = WC_Lz4 → compression c = CM_Unknown ∨ compression c = CM_Enabled Plain) →
  compression c ≠ CM_Disabled →
  match chunk_transform c input with
  | Ok (Some transform) =>
      (∀ w, transform = Shuffle w → (0 < w)%nat) ∧ (wire_compression c = WC_Lz4 → transform = Plain)
  | Ok None => wire_compression c ≠ WC_Lz4
  | Err _ => True
  | Panic => False
  end.
Proof.
  intros Hm Hw Hd. unfold chunk_transform, is_lz4. destruct (compression c) as [|t|] eqn:Hc; [|..|done].
  - case_bool_decide as Hl; [done|]. pose proof (select_transform_ok input (fixed_width c) (negb false) Block) as Hs.
    destruct (select_compression_transform _ _ _ _) as [[t|]| |]; done.
  - split; [intros w ->; by apply Hm|]. intros Hl. destruct (Hw Hl) as [?|Ht]; [done|]. by injection Ht.
Qed.

Lemma finish_pending_grows arena c content :
  arena_ok arena → column_holds arena c content →
  column_grows arena c content (finish_pending c arena) (λ c', pending c' = None).
Proof.
  intros Hok Hh. unfold finish_pending. destruct (pending c) as [p|] eqn:Hp; [|by split_and!].
  cbn zeta. cbn [with_pending compression wire_compression].
  assert (∀ mode, wire_compression c ≠ WC_Lz4 → mode = CM_Disabled →
    column_grows arena c content (Ok (with_chunk (with_pending c None) (Raw (pending_data p)) mode, arena)) (λ c', pending c' = None)) as Hraw.
  { intros mode Hw ->. split_and!; [done..| |done|done]. by eapply column_holds_chunk. }
  case_bool_decide as Hd.
  { apply Hraw; [|done]. intros Hw. destruct (ch_wire _ _ _ Hh Hw) as [[?|?] _]; congruence. }
  pose proof (chunk_transform_ok (with_pending c None) (pending_data p) (ch_mode _ _ _ Hh)
    (λ Hw, proj1 (ch_wire _ _ _ Hh Hw)) Hd) as Ht.
  destruct (chunk_transform _ _) as [[t|]| |]; cbn [mbind res_bind] in *; [|by apply Hraw|done..].
  destruct Ht as [Hpos Hplain]. set (format := chunk_format _ t).
  pose proof (compress_bytes_no_panic (pending_data p) t format Hpos) as Hn.
  destruct (compress_bytes (pending_data p) t format) as [out| |] eqn:Hout; cbn [mbind res_bind]; [|done..].
  destruct (negb (is_lz4 (wire_compression c)) && negb (worthwhile out (pending_data p))) eqn:Hg.
  { apply Hraw; [|done]. apply andb_true_iff in Hg as [Hg _]. unfold is_lz4 in Hg. by case_bool_decide. }
  destruct (arena_store_ok arena out Hok) as (data & arena' & -> & Hok' & Hext & Hst). cbn [mbind res_bind].
  split_and!; [done..| |done|done]. eapply column_holds_chunk; [by eapply column_holds_extends|done|..].
  - by exists out.
  - intros w [= ->]. by apply Hpos.
  - intros Hw. rewrite (Hplain Hw). split; [done|]. subst format. rewrite (Hplain Hw). unfold chunk_format.
    rewrite Hw. done.
Qed.

Lemma same_shape_trans c1 c2 c3 : same_shape c1 c2 → same_shape c2 c3 → same_shape c1 c3.
Proof. unfold same_shape. intuition congruence. Qed.

Lemma column_grows_trans arena c content r1 P f content' Q :
  column_grows arena c content r1 P →
  (∀ c1 arena1, r1 = Ok (c1, arena1) → arena_ok arena1 → column_holds arena1 c1 content → P c1 →
     column_grows arena1 c1 content' (f (c1, arena1)) Q) →
  column_grows arena c content' (x ← r1; f x) Q.
Proof.
  intros H1 H2. destruct r1 as [[c1 arena1]| |]; [|done..]. destruct H1 as (Hok & Hext & Hh & Hs & HP).
  specialize (H2 c1 arena1 eq_refl Hok Hh HP). cbn [mbind res_bind]. destruct (f (c1, arena1)) as [[c2 arena2]| |]; [|done..].
  destruct H2 as (Hok2 & Hext2 & Hh2 & Hs2 & HQ). split_and!; [done|by etransitivity|done|by eapply same_shape_trans|done].
Qed.

(** One round of [push] moves bytes into the buffer. *)
Lemma column_holds_fill arena c content bs :
  column_holds arena c content → pending_open c → bs ≠ [] →
  let p := pending_or_new c bs in
  let copied := Z.to_nat (Z.min (len bs) (pending_capacity p - len (pending_data p))) in
  let p' := mkPendingChunk (pending_capacity p) (pending_data p ++ take copied bs) in
  (0 < copied)%nat ∧ column_holds arena (with_pending c (Some p')) (content ++ take copied bs) ∧
  len (pending_data p') ≤ pending_capacity p'.
Proof.
  intros [(pieces & Hp & ->) Hm Hw] Hopen Hne. cbn zeta.
  set (p := pending_or_new c bs).
  assert (from_option pending_data [] (pending c) = pending_data p ∧ len (pending_data p) < pending_capacity p) as [He Hlt].
  { unfold p, pending_or_new, pending_open in *. destruct (pending c); [done|].
    cbn [pending_capacity pending_data from_option length]. split; [done|]. unfold MIN_ENCODE_BUFFER_BYTES. lia. }
  assert (0 < length bs)%nat as Hlen by (destruct bs; [done|simpl; lia]).
  split_and!; [lia| |].
  - split; [|done..]. exists pieces. split; [done|]. cbn [with_pending pending from_option pending_data].
    by rewrite He, <- app_assoc.
  - cbn [pending_data pending_capacity]. rewrite length_app, length_take. lia.
Qed.

Lemma push_loop_grows fuel arena c content bs :
  (length bs ≤ fuel)%nat → arena_ok arena → column_holds arena c content → pending_open c →
  column_grows arena c (content ++ bs) (push_loop fuel c bs arena) pending_open.
Proof.
  revert arena c content bs. induction fuel as [|fuel IH]; intros arena c content bs Hf Hok Hh Ho.
  { destruct bs; [|simpl in Hf; lia]. rewrite app_nil_r. by split_and!. }
  destruct bs as [|b bs']; [rewrite app_nil_r; by split_and!|]. set (bs := b :: bs') in *. cbn [push_loop].
  change (match bs with [] => _ | _ => ?x end) with x. fold bs.
  destruct (column_holds_fill arena c content bs Hh Ho ltac:(done)) as (Hpos & Hh1 & Hle). cbn zeta in *.
  set (p := pending_or_new c bs) in *.
  set (copied := Z.to_nat (Z.min (len bs) (pending_capacity p - len (pending_data p)))) in *.
  set (p' := mkPendingChunk _ _) in *. set (c1 := with_pending c (Some p')) in *.
  assert (content ++ bs = (content ++ take copied bs) ++ drop copied bs) as -> by (by rewrite <- app_assoc, take_drop).
  apply (column_grows_trans arena c (content ++ take copied bs) _ pending_open).
  - destruct (Z.eqb_spec (len (pending_data p')) (pending_capacity p')) as [He|Hne].
    + pose proof (finish_pending_grows arena c1 _ Hok Hh1) as Hg. unfold column_grows in *.
      destruct (finish_pending c1 arena) as [[c2 arena2]| |]; [|done..].
      destruct Hg as (H1 & H2 & H3 & H4 & H5). split_and!; try done. unfold pending_open. by rewrite H5.
    + split_and!; try done. unfold pending_open. cbn [c1 with_pending pending]. lia.
  - intros c2 arena2 _ Hok2 Hh2 Ho2. apply IH; try done. rewrite length_drop. simpl in Hf. subst bs. simpl. lia.
Qed.

Lemma column_push_grows arena c content bs :
  arena_ok arena → column_holds arena c content → pending_open c →
  column_grows arena c (content ++ bs) (column_push c bs arena) pending_open.
Proof. by apply push_loop_grows. Qed.

(** ** Upload *)

Context `{!Lz4Laws}.

Lemma decompress_compressed input format output :
  compressed_size input format = Ok output → decompress output (length input) format = Ok input.
Proof.
  unfold decompress. destruct format; simpl; intros Hc; apply ok_or_ok in Hc.
  - rewrite (block_law _ _ Hc). simpl. by rewrite Nat.eqb_refl.
  - unfold decompress_frame_into. rewrite (frame_law _ _ Hc). simpl. rewrite Nat.ltb_irrefl. simpl. by rewrite Nat.eqb_refl.
Qed.

(** A chunk uploads as its bytes, whatever the buffer of an earlier chunk holds. *)
Lemma upload_chunk_ok arena scratch chunk piece :
  arena_ok arena → chunk_holds arena chunk piece →
  ∃ scratch', upload_chunk false arena scratch chunk = Ok (piece, scratch').
Proof.
  intros Hok Hh. destruct chunk as [data|data stored n t f]; [rewrite Hh; by eexists|].
  destruct Hh as (out & Hs & -> & -> & Hc). cbn [upload_chunk]. rewrite (arena_slice_stored _ _ _ Hok Hs).
  cbn [mbind res_bind]. destruct t as [|width]; cbn [compress_bytes] in Hc.
  - rewrite (decompress_compressed _ _ _ Hc). by eexists.
  - assert (0 < width)%nat as Hw.
    { destruct (decide (width = 0)%nat) as [->|]; [done|lia]. }
    set (buffer := unshuffle_scratch scratch (length piece)).
    assert (length piece ≤ length buffer)%nat as Hb.
    { unfold buffer, unshuffle_scratch. destruct scratch as [b|]; [|by rewrite length_replicate].
      destruct (Nat.ltb_spec (length b) (length piece)); [by rewrite length_replicate|done]. }
    destruct (unshuffle_shuffle piece width (take (length piece) buffer) Hw) as (sh & Hsh & Hl & Hun).
    { rewrite length_take. lia. }
    rewrite Hsh in Hc. cbn [mbind res_bind] in Hc. rewrite <- Hl, (decompress_compressed _ _ _ Hc). cbn [mbind res_bind].
    rewrite Hl. fold buffer. rewrite Hun. by eexists.
Qed.

Lemma upload_chunks_ok arena scratch chunks pieces :
  arena_ok arena → Forall2 (chunk_holds arena) chunks pieces → upload_chunks false arena scratch chunks = Ok pieces.
Proof.
  intros Hok Hh. revert scratch. induction Hh as [|chunk piece chunks pieces Hc _ IH]; intros scratch; [done|].
  cbn [upload_chunks]. destruct (upload_chunk_ok arena scratch chunk piece Hok Hc) as (scratch' & ->). cbn [mbind res_bind].
  by rewrite IH.
Qed.

(** On a compressed wire a plain frame is sent as it is stored. *)
Lemma upload_frames_ok arena scratch chunks pieces :
  arena_ok arena → Forall2 (chunk_holds arena) chunks pieces → Forall (λ chunk, plain_frame chunk = true) chunks →
  ∃ frames, upload_chunks true arena scratch chunks = Ok frames ∧
    Forall2 (λ frame piece, frame_decode frame = Some piece) frames pieces.
Proof.
  intros Hok Hh. revert scratch. induction Hh as [|chunk piece chunks pieces Hc _ IH]; intros scratch Hf; [by exists []|].
  apply Forall_cons in Hf as [Hf Hfs]. destruct chunk as [data|data stored n [|w] [|]]; try done.
  destruct Hc as (out & Hs & -> & -> & Hc). cbn [upload_chunks upload_chunk].
  rewrite (arena_slice_stored _ _ _ Hok Hs). cbn [mbind res_bind]. rewrite !bool_decide_true by done. cbn [negb orb mbind res_bind].
  destruct (IH scratch Hfs) as (frames & -> & Hfr). eexists. split; [done|]. constructor; [|done].
  simpl in Hc. apply ok_or_ok in Hc. by apply frame_law.
Qed.

(** The bytes that reach the server as the file of a column: the chunks, or
    the contents of the frames when the wire is compressed. *)
Definition delivered (wire_lz4 : bool) (pieces : list bytes) : option bytes :=
  if wire_lz4 then (@concat Z) <$> mapM frame_decode pieces else Some (concat pieces).

Lemma upload_column_delivers wire_lz4 arena c content :
  arena_ok arena → column_holds arena c content → pending c = None →
  (wire_lz4 = true → Forall (λ chunk, plain_frame chunk = true) (chunks_of c)) →
  ∃ pieces, upload_column wire_lz4 arena c = Ok pieces ∧ delivered wire_lz4 pieces = Some content.
Proof.
  intros Hok [(pieces & Hp & ->) _ _] Hn Hw. rewrite Hn. cbn [from_option]. rewrite app_nil_r. unfold upload_column.
  destruct wire_lz4; cbn [delivered].
  - destruct (upload_frames_ok arena None _ _ Hok Hp (Hw eq_refl)) as (frames & -> & Hf). eexists. split; [done|].
    assert (mapM frame_decode frames = Some pieces) as ->; [|done]. by apply mapM_Some.
  - rewrite (upload_chunks_ok _ _ _ _ Hok Hp). by eexists.
Qed.
End columns.
