(* ===== verification/Ingest.v ===== *)
(** The write path of a bulk ingest ([crates/adbc-monetdb/src/driver.rs]):
    [EncodedIngestWindow], which encodes batches column by column, and
    [IngestWindowScheduler], which cuts a stream of record batches into
    windows.

    A stream is the list of results its reader will return.  Loops that the
    source bounds only by the data run on fuel and panic when it is used up,
    so that absence of panics includes termination. *)

From stdpp Require Import base list numbers strings gmap.
From S2P Require Import Prelude RustStd Types Calendar ArrowData Encode Errors Template Compression.
Local Open Scope Z_scope.

Definition ENCODE_STAGING_BYTES : Z := 16 * 1024 * 1024.
Definition PENDING_BATCH_COMPACTION_FANOUT : nat := 32.
Definition PENDING_BATCH_COMPACTION_MAX_BYTES : Z := 16 * 1024 * 1024.

#[global] Instance Field_eq_dec : EqDecision Field.
Proof. solve_decision. Defined.

(** ** What the driver asks of Arrow *)

(** A buffer of an array: the address of its allocation, the capacity of it,
    and the slice of it that the array uses. *)
Record ArrowBuffer : Type := mkArrowBuffer {
  buffer_pointer : Z; buffer_capacity : Z; buffer_offset : Z; buffer_len : Z;
}.

Class ArrowStream := {
  (** [ArrayData::validate_full]: the error's text, if any. *)
  validate_full : ArrayRef → option bytes;
  (** The buffers of an array, its validity and its children included. *)
  array_buffers : ArrayRef → list ArrowBuffer;
  (** [compute::concat_batches]. *)
  concat_batches : list Field → list RecordBatch → res Error RecordBatch;
}.

Definition batch_slice (batch : RecordBatch) (start n : nat) : RecordBatch :=
  mkRecordBatch (batch_schema batch) ((λ a, array_slice a start n) <$> batch_columns batch) n.

(** [null_count]. *)
Definition array_null_count (a : ArrayRef) : nat :=
  length (filter (λ row, array_is_null a row = true) (seq 0 (array_len a))).

(** ** Memory pinned by batches *)

Definition add_buffer (buffers : gmap Z Z) (buffer : ArrowBuffer) : gmap Z Z :=
  let n := Z.max (buffer_capacity buffer) (saturating_add (buffer_offset buffer) (buffer_len buffer)) in
  if 0 <? n then
    <[buffer_pointer buffer :=
        match buffers !! buffer_pointer buffer with Some current => Z.max current n | None => n end]> buffers
  else buffers.

Definition buffer_bytes (buffers : gmap Z Z) : Z := map_fold (λ _ n total, saturating_add total n) 0 buffers.

Definition merged_buffers (first second : gmap Z Z) : gmap Z Z :=
  union_with (λ a b, Some (Z.max a b)) first second.

Section with_arrow.
Context `{ArrowStream, Chrono, Half, Lz4, CursorDisplay, SqlFormat, CharTables}.

Definition pinned_record_batch_buffers (batches : list RecordBatch) : gmap Z Z :=
  foldl (λ buffers batch, foldl (λ buffers column, foldl add_buffer buffers (array_buffers column))
                            buffers (batch_columns batch)) ∅ batches.

Definition validate_record_batch (batch : RecordBatch) : res Error unit :=
  _ ← mapi_res (λ index column,
        match validate_full column with
        | Some text => Err (mkError (str "invalid Arrow data in column " ++ fmt_int (Z.of_nat index)
                                     ++ str ": " ++ text) InvalidData)
        | None => Ok tt
        end) 0 (batch_columns batch);
  Ok tt.

(** ** Windows *)

Record PendingBatch : Type := mkPendingBatch {
  pending_batch : RecordBatch;
  pending_estimated : Z;
  compaction_level : nat;
}.

Record EncodedIngestWindow : Type := mkWindow {
  window_columns : list EncodedColumn;
  compressed_arena : list CompressedSlab;
  retained_batches : list RecordBatch;
  retained_estimated_bytes : Z;
  retained_buffers : gmap Z Z;
  peak_staging_bytes : Z;
  peak_build_bytes : Z;
  peak_build_buffers : gmap Z Z;
  incompressible : bool;
  retain_arrow_eligible : bool;
  retain_arrow : bool;
  window_rows : Z;
  window_estimated_bytes : Z;
  encoded_bytes : Z;
  largest_chunk : Z;
  largest_column_bytes : Z;
  coalesced : bool;
  window_wire : WireCompression;
}.

Definition window_for_schema (schema : list Field) (wire : WireCompression) : res Error EncodedIngestWindow :=
  columns ← map_res (λ field,
    width ← map_err (λ e, mkError (encode_error_text e) NotImplemented) (fixed_encoded_width field);
    Ok (column_new (Z.to_nat <$> width) wire)) schema;
  Ok (mkWindow columns [] [] 0 ∅ 0 0 ∅ false true false 0 0 0 0 0 false wire).

Definition encoded_stored_bytes (w : EncodedIngestWindow) : Z :=
  foldr Z.add 0 (column_stored_bytes <$> window_columns w).

Definition map_chunked_encode_error (e : ChunkedEncodeError CursorError) : CursorError :=
  match e with
  | CE_Encode _ e => CE_FileTransfer (encode_error_text e)
  | CE_Sink _ e => e
  end.

(** The encoder's sink: the column and the arena. *)
Definition push_sink (sink : EncodedColumn * list CompressedSlab) (chunk : bytes)
    : res CursorError (EncodedColumn * list CompressedSlab) := column_push sink.1 chunk sink.2.

Definition with_column_bytes (c : EncodedColumn) (n : Z) : EncodedColumn :=
  mkEncodedColumn (chunks_of c) (pending c) (compression c) (fixed_width c) (wire_compression c) n.

Definition with_column (w : EncodedIngestWindow) (index : nat) (column : EncodedColumn)
    (arena : list CompressedSlab) (encoded : Z) : EncodedIngestWindow :=
  mkWindow (<[index := column]> (window_columns w)) arena (retained_batches w) (retained_estimated_bytes w)
    (retained_buffers w) (peak_staging_bytes w) (peak_build_bytes w) (peak_build_buffers w) (incompressible w)
    (retain_arrow_eligible w) (retain_arrow w) (window_rows w) (window_estimated_bytes w) encoded
    (largest_chunk w) (Z.max (largest_column_bytes w) (column_bytes column)) (coalesced w) (window_wire w).

(** Column [index] of every batch, or a panic as [RecordBatch::column]. *)
Definition column_arrays {E} (batches : list RecordBatch) (index : nat) : res E (list ArrayRef) :=
  map_res (λ batch, or_panic (batch_columns batch !! index)) batches.

(** One round of the loop over the columns. *)
Definition append_column (schema : list Field) (batches : list RecordBatch) (w : EncodedIngestWindow)
    (index : nat) : res Error EncodedIngestWindow :=
  field ← or_panic (schema !! index);
  arrays ← column_arrays batches index;
  column ← or_panic (window_columns w !! index);
  '(bytes, (column, arena)) ←
    map_err (λ e, map_cursor_error (map_chunked_encode_error e))
      (encode_column_chunks push_sink field arrays ENCODE_CHUNK_BYTES (column, compressed_arena w));
  '(column, arena) ← map_err map_cursor_error (column_finish column arena);
  total ← ok_or (checked_add (column_bytes column) bytes) (error "encoded column byte count overflows" Internal);
  encoded ← ok_or (checked_add (encoded_bytes w) bytes) (error "encoded ingest byte count overflows" Internal);
  Ok (with_column w index (with_column_bytes column total) arena encoded).

Fixpoint append_columns (schema : list Field) (batches : list RecordBatch) (w : EncodedIngestWindow)
    (indices : list nat) : res Error EncodedIngestWindow :=
  match indices with
  | [] => Ok w
  | index :: indices => w ← append_column schema batches w index; append_columns schema batches w indices
  end.

(** The flags after encoding; Arrow data is kept when compression does not pay. *)
Definition with_verdict (w : EncodedIngestWindow) : EncodedIngestWindow :=
  let stored := encoded_stored_bytes w in
  let verdict := negb (is_lz4 (window_wire w)) && (saturating_mul (encoded_bytes w) 7 <? saturating_mul stored 8) in
  mkWindow (window_columns w) (compressed_arena w) (retained_batches w) (retained_estimated_bytes w)
    (retained_buffers w) (peak_staging_bytes w) (peak_build_bytes w) (peak_build_buffers w) verdict
    (retain_arrow_eligible w) (verdict && retain_arrow_eligible w) (window_rows w) (window_estimated_bytes w)
    (encoded_bytes w) (largest_chunk w) (largest_column_bytes w) (coalesced w) (window_wire w).

Definition with_retained (w : EncodedIngestWindow) (batches : list RecordBatch) (estimated : Z)
    : EncodedIngestWindow :=
  mkWindow (window_columns w) (compressed_arena w) (retained_batches w ++ batches) estimated
    (pinned_record_batch_buffers (retained_batches w ++ batches)) (peak_staging_bytes w) (peak_build_bytes w)
    (peak_build_buffers w) (incompressible w) (retain_arrow_eligible w) (retain_arrow w) (window_rows w)
    (window_estimated_bytes w) (encoded_bytes w) (largest_chunk w) (largest_column_bytes w) (coalesced w)
    (window_wire w).

(** The fields set before the encoding: staging peak, eligibility, coalescing. *)
Definition with_staging (w : EncodedIngestWindow) (staged : list PendingBatch) (staging_bytes : Z)
    : EncodedIngestWindow :=
  mkWindow (window_columns w) (compressed_arena w) (retained_batches w) (retained_estimated_bytes w)
    (retained_buffers w) (Z.max (peak_staging_bytes w) staging_bytes) (peak_build_bytes w) (peak_build_buffers w)
    (incompressible w)
    (retain_arrow_eligible w
     && forallb (λ p, forallb (λ c, array_null_count c =? 0)%nat (batch_columns (pending_batch p))) staged)
    (retain_arrow w) (window_rows w) (window_estimated_bytes w) (encoded_bytes w) (largest_chunk w)
    (largest_column_bytes w)
    (coalesced w || (1 <? length staged)%nat || existsb (λ p, 0 <? compaction_level p)%nat staged)
    (window_wire w).

(** The fields set after it: build peak, rows and estimate. *)
Definition with_totals (w : EncodedIngestWindow) (staging_buffers : gmap Z Z) (rows estimated : Z)
    : EncodedIngestWindow :=
  let build_buffers := merged_buffers (retained_buffers w) staging_buffers in
  let build_bytes := saturating_add (encoded_stored_bytes w) (buffer_bytes build_buffers) in
  let higher := peak_build_bytes w <? build_bytes in
  mkWindow (window_columns w) (compressed_arena w) (retained_batches w) (retained_estimated_bytes w)
    (retained_buffers w) (peak_staging_bytes w) (if higher then build_bytes else peak_build_bytes w)
    (if higher then build_buffers else peak_build_buffers w) (incompressible w) (retain_arrow_eligible w)
    (retain_arrow w) rows estimated (encoded_bytes w) (largest_chunk w) (largest_column_bytes w) (coalesced w)
    (window_wire w).

Definition total_rows (staged : list PendingBatch) : Z :=
  foldr Z.add 0 ((λ p, Z.of_nat (batch_rows (pending_batch p))) <$> staged).

Definition window_append (w : EncodedIngestWindow) (schema : list Field) (staged : list PendingBatch)
    (estimated : Z) : res Error EncodedIngestWindow :=
  let batches := pending_batch <$> staged in
  let staging_buffers := pinned_record_batch_buffers batches in
  let w := with_staging w staged (buffer_bytes staging_buffers) in
  w ← (if retain_arrow w then
         total ← ok_or (checked_add (retained_estimated_bytes w) estimated)
                   (error "retained Arrow byte estimate overflows" Internal);
         Ok (with_retained w batches total)
       else
         w ← append_columns schema batches w (seq 0 (length schema));
         Ok (with_verdict w));
  rows ← ok_or (checked_add (window_rows w) (total_rows staged)) (error "ingest row count overflows" Internal);
  estimated ← ok_or (checked_add (window_estimated_bytes w) estimated)
                (error "estimated ingest byte count overflows" Internal);
  Ok (with_totals w staging_buffers rows estimated).

(** [finish]: what is pending in every column becomes its last chunk. *)
Definition finish_column (w : EncodedIngestWindow) (index : nat) : res Error EncodedIngestWindow :=
  column ← or_panic (window_columns w !! index);
  '(column, arena) ← map_err map_cursor_error (column_finish column (compressed_arena w));
  Ok (mkWindow (<[index := column]> (window_columns w)) arena (retained_batches w) (retained_estimated_bytes w)
        (retained_buffers w) (peak_staging_bytes w) (peak_build_bytes w) (peak_build_buffers w) (incompressible w)
        (retain_arrow_eligible w) (retain_arrow w) (window_rows w) (window_estimated_bytes w) (encoded_bytes w)
        (Z.max (largest_chunk w) (column_largest_chunk column)) (largest_column_bytes w) (coalesced w)
        (window_wire w)).

Fixpoint finish_columns (w : EncodedIngestWindow) (indices : list nat) : res Error EncodedIngestWindow :=
  match indices with
  | [] => Ok w
  | index :: indices => w ← finish_column w index; finish_columns w indices
  end.

Definition window_finish (w : EncodedIngestWindow) : res Error EncodedIngestWindow :=
  finish_columns w (seq 0 (length (window_columns w))).

Definition encoded_physical_stored_bytes (w : EncodedIngestWindow) : Z :=
  saturating_add
    (foldr Z.add 0 ((λ chunk, match chunk with Raw data => len data | _ => 0 end)
                      <$> concat (chunks_of <$> window_columns w)))
    (arena_physical_bytes (compressed_arena w)).

Definition physical_stored_bytes (w : EncodedIngestWindow) : Z :=
  saturating_add (encoded_physical_stored_bytes w) (buffer_bytes (retained_buffers w)).

Definition is_plain_frame (chunk : EncodedChunk) : bool :=
  match chunk with Compressed _ _ _ Plain Frame => true | _ => false end.

Definition uses_wire_lz4 (w : EncodedIngestWindow) : bool :=
  match window_wire w with
  | WC_None => false
  | WC_Lz4 => true
  | WC_Auto =>
      bool_decide (length (retained_batches w) = 0%nat)
      && forallb (λ c, negb (bool_decide (length (chunks_of c) = 0%nat)) && forallb is_plain_frame (chunks_of c))
           (window_columns w)
  end.

(** ** The upload of a window *)

(** [upload_column_index]: the file names are [c0], [c1], ... *)
Definition parse_usize : bytes → option Z := parse_int_in false (unsigned_range 64).

Definition upload_column_index `{CharTables} (filename : bytes) (columns : nat) : res CursorError nat :=
  match (name ← strip_prefix (str "c") filename; parse_usize name) with
  | Some index =>
      if index <? Z.of_nat columns then Ok (Z.to_nat index)
      else Err (CE_FileTransfer (str "server requested unknown file " ++ fmt_debug filename))
  | None => Err (CE_FileTransfer (str "server requested unknown file " ++ fmt_debug filename))
  end.

(** [encode_retained_columns] and [upload_retained_column]: the chunks the
    encoder thread sends for a column, which the upload passes on. *)
Definition upload_retained_column (schema : list Field) (batches : list RecordBatch) (index : nat)
    : res CursorError (list bytes * Z) :=
  field ← or_panic (schema !! index);
  arrays ← column_arrays batches index;
  '(bytes, chunks) ← map_err map_chunked_encode_error
    (encode_column_chunks (λ sink chunk, Ok (sink ++ [chunk])) field arrays ENCODE_CHUNK_BYTES []);
  Ok (chunks, bytes).

(** The closure of [execute_with_streaming_uploads]: what one file sends, and
    the byte count of the window with the bytes encoded for it. *)
Definition upload_file (schema : list Field) (w : EncodedIngestWindow) (window_bytes : Z) (filename : bytes)
    : res CursorError (list bytes * Z) :=
  index ← upload_column_index filename (length schema);
  column ← or_panic (window_columns w !! index);
  chunks ← upload_column (uses_wire_lz4 w) (compressed_arena w) column;
  match retained_batches w with
  | [] => Ok (chunks, window_bytes)
  | batches =>
      '(more, bytes) ← upload_retained_column schema batches index;
      _ ← ok_or (checked_add (column_bytes column) bytes) (CE_FileTransfer (str "encoded ingest byte count overflows"));
      total ← ok_or (checked_add window_bytes bytes) (CE_FileTransfer (str "encoded ingest byte count overflows"));
      Ok (chunks ++ more, total)
  end.

(** ** The scheduler *)

Record IngestWindowScheduler : Type := mkScheduler {
  reader : list (res Error RecordBatch);
  scheduler_schema : list Field;
  queue : list PendingBatch;
  pending_rows : Z;
  pending_bytes : Z;
  exhausted : bool;
  window_budget : Z;
  physical_window_budget : Z;
  incompressible_window_budget : Z;
  configured_rows : option Z;
  scheduler_wire : WireCompression;
  input_batches : Z;
  coalesced_windows : Z;
  split_windows : Z;
}.

Definition scheduler_new (reader : list (res Error RecordBatch)) (schema : list Field)
    (window_budget physical_window_budget incompressible_window_budget : Z) (configured_rows : option Z)
    (wire : WireCompression) : IngestWindowScheduler :=
  mkScheduler reader schema [] 0 0 false window_budget physical_window_budget incompressible_window_budget
    configured_rows wire 0 0 0.

Definition with_reader (s : IngestWindowScheduler) (r : list (res Error RecordBatch)) (done : bool) (input : Z) :=
  mkScheduler r (scheduler_schema s) (queue s) (pending_rows s) (pending_bytes s) done (window_budget s)
    (physical_window_budget s) (incompressible_window_budget s) (configured_rows s) (scheduler_wire s)
    input (coalesced_windows s) (split_windows s).
Definition with_queue (s : IngestWindowScheduler) (q : list PendingBatch) (rows bytes : Z) :=
  mkScheduler (reader s) (scheduler_schema s) q rows bytes (exhausted s) (window_budget s)
    (physical_window_budget s) (incompressible_window_budget s) (configured_rows s) (scheduler_wire s)
    (input_batches s) (coalesced_windows s) (split_windows s).
Definition with_counts (s : IngestWindowScheduler) (coalesced split : Z) :=
  mkScheduler (reader s) (scheduler_schema s) (queue s) (pending_rows s) (pending_bytes s) (exhausted s)
    (window_budget s) (physical_window_budget s) (incompressible_window_budget s) (configured_rows s)
    (scheduler_wire s) (input_batches s) coalesced split.

Definition rows_in (p : PendingBatch) : Z := Z.of_nat (batch_rows (pending_batch p)).

(** The counters are [usize]: a subtraction below zero panics. *)
Definition pop_front (s : IngestWindowScheduler) : res Error (option (PendingBatch * IngestWindowScheduler)) :=
  match queue s with
  | [] => Ok None
  | p :: q =>
      if (pending_rows s <? rows_in p) || (pending_bytes s <? pending_estimated p) then Panic
      else Ok (Some (p, with_queue s q (pending_rows s - rows_in p) (pending_bytes s - pending_estimated p)))
  end.

Definition push_front (s : IngestWindowScheduler) (p : PendingBatch) : IngestWindowScheduler :=
  with_queue s (p :: queue s) (pending_rows s + rows_in p) (pending_bytes s + pending_estimated p).

Definition push_back (s : IngestWindowScheduler) (p : PendingBatch) : IngestWindowScheduler :=
  with_queue s (queue s ++ [p]) (pending_rows s + rows_in p) (pending_bytes s + pending_estimated p).

(** [try_fold] with [checked_add]. *)
Fixpoint checked_total (message : string) (total : Z) (sizes : list Z) : res Error Z :=
  match sizes with
  | [] => Ok total
  | size :: sizes => total ← ok_or (checked_add total size) (error message Internal); checked_total message total sizes
  end.

Fixpoint estimated_sizes (total : Z) (l : list (Field * ArrayRef)) : res Error Z :=
  match l with
  | [] => Ok total
  | (field, column) :: l =>
      bytes ← map_err (λ e, map_cursor_error (CE_FileTransfer (encode_error_text e)))
                (estimated_encoded_size field column);
      total ← ok_or (checked_add total bytes) (error "estimated ingest byte count overflows" Internal);
      estimated_sizes total l
  end.

Definition estimated_batch_size (schema : list Field) (batch : RecordBatch) : res Error Z :=
  estimated_sizes 0 (zip schema (batch_columns batch)).

(** The last [PENDING_BATCH_COMPACTION_FANOUT] batches of one level become one. *)
Fixpoint compact_loop (fuel : nat) (s : IngestWindowScheduler) : res Error IngestWindowScheduler :=
  match fuel with
  | O => Panic
  | S fuel =>
      if (length (queue s) <? PENDING_BATCH_COMPACTION_FANOUT)%nat then Ok s
      else
        level ← or_panic (compaction_level <$> last (queue s));
        let kept := take (length (queue s) - PENDING_BATCH_COMPACTION_FANOUT) (queue s) in
        let compacted := drop (length (queue s) - PENDING_BATCH_COMPACTION_FANOUT) (queue s) in
        if negb (forallb (λ p, compaction_level p =? level)%nat compacted) then Ok s
        else
          estimated ← checked_total "pending ingest byte count overflows" 0 (rev (pending_estimated <$> compacted));
          if PENDING_BATCH_COMPACTION_MAX_BYTES <? estimated then Ok s
          else
            batch ← concat_batches (scheduler_schema s) (pending_batch <$> compacted);
            compact_loop fuel
              (with_queue s (kept ++ [mkPendingBatch batch estimated (S level)]) (pending_rows s) (pending_bytes s))
  end.

(** Every round shortens the queue. *)
Definition compact_pending_batches (s : IngestWindowScheduler) : res Error IngestWindowScheduler :=
  compact_loop (S (length (queue s))) s.

Definition read_batch (s : IngestWindowScheduler) : res Error IngestWindowScheduler :=
  match reader s with
  | [] => Ok (with_reader s [] true (input_batches s))
  | next :: rest =>
      batch ← next;
      let s := with_reader s rest (exhausted s) (input_batches s + 1) in
      _ ← validate_record_batch batch;
      if negb (bool_decide (batch_schema batch = scheduler_schema s))
      then Err (error "record batch schema changed within ingest stream" InvalidData)
      else if (batch_rows batch =? 0)%nat then Ok s
      else
        estimated ← estimated_batch_size (scheduler_schema s) batch;
        compact_pending_batches (push_back s (mkPendingBatch batch estimated 0))
  end.

Fixpoint fill_loop (fuel : nat) (desired_rows desired_bytes : Z) (s : IngestWindowScheduler)
    : res Error IngestWindowScheduler :=
  if (pending_rows s <? desired_rows) && (pending_bytes s <? desired_bytes) && negb (exhausted s) then
    match fuel with
    | O => Panic
    | S fuel => s ← read_batch s; fill_loop fuel desired_rows desired_bytes s
    end
  else Ok s.

(** A round for every batch left to read and one for the end of the stream. *)
Definition fill_staging (s : IngestWindowScheduler) (desired_rows desired_bytes : Z)
    : res Error IngestWindowScheduler :=
  fill_loop (S (length (reader s))) desired_rows desired_bytes s.

(** The binary search for the longest prefix within the budget. *)
Fixpoint search_loop (fuel : nat) (schema : list Field) (batch : RecordBatch) (budget : Z) (low high : nat)
    : res Error nat :=
  if (low <? high)%nat then
    match fuel with
    | O => Panic
    | S fuel =>
        let middle := (low + (high - low + 1) / 2)%nat in
        bytes ← estimated_batch_size schema (batch_slice batch 0 middle);
        if bytes <=? budget then search_loop fuel schema batch budget middle high
        else search_loop fuel schema batch budget low (middle - 1)
    end
  else Ok low.

Definition rows_within_budget (schema : list Field) (batch : RecordBatch) (budget : Z) : res Error nat :=
  search_loop (batch_rows batch) schema batch budget 0 (batch_rows batch).

Definition split_pending (schema : list Field) (p : PendingBatch) (rows : nat)
    : res Error (PendingBatch * PendingBatch) :=
  let prefix := batch_slice (pending_batch p) 0 rows in
  let remainder := batch_slice (pending_batch p) rows (batch_rows (pending_batch p) - rows) in
  prefix_bytes ← estimated_batch_size schema prefix;
  remainder_bytes ← ok_or (checked_sub (pending_estimated p) prefix_bytes)
                      (error "pending ingest byte count underflows" Internal);
  Ok (mkPendingBatch prefix prefix_bytes (compaction_level p),
      mkPendingBatch remainder remainder_bytes (compaction_level p)).

Fixpoint take_loop (fuel : nat) (allow_oversized_row : bool) (remaining_rows remaining_bytes : Z)
    (staging : list PendingBatch) (s : IngestWindowScheduler)
    : res Error (list PendingBatch * IngestWindowScheduler) :=
  match fuel with
  | O => Panic
  | S fuel =>
      if negb (0 <? remaining_rows) then Ok (staging, s)
      else
        popped ← pop_front s;
        match popped with
        | None => Ok (staging, s)
        | Some (p, s) =>
            rows_by_bytes ←
              (if pending_estimated p <=? remaining_bytes then Ok (batch_rows (pending_batch p))
               else rows_within_budget (scheduler_schema s) (pending_batch p) remaining_bytes);
            let rows := Z.to_nat (Z.min (Z.of_nat rows_by_bytes) remaining_rows) in
            if (rows =? 0)%nat && (negb (bool_decide (length staging = 0%nat)) || negb allow_oversized_row)
            then Ok (staging, push_front s p)
            else
              let rows := Nat.max rows 1 in
              '(selected, s) ←
                (if (rows =? batch_rows (pending_batch p))%nat then Ok (p, s)
                 else
                   '(prefix, remainder) ← split_pending (scheduler_schema s) p rows;
                   let s := push_front s remainder in
                   Ok (prefix, with_counts s (coalesced_windows s) (split_windows s + 1)));
              if remaining_rows <? rows_in selected then Panic
              else
                let remaining_rows := remaining_rows - rows_in selected in
                let remaining_bytes := saturating_sub remaining_bytes (pending_estimated selected) in
                if remaining_bytes =? 0 then Ok (staging ++ [selected], s)
                else take_loop fuel allow_oversized_row remaining_rows remaining_bytes (staging ++ [selected]) s
        end
  end.

(** Every round but the last takes a row that is pending. *)
Definition take_staging (s : IngestWindowScheduler) (target_rows target_bytes : Z) (allow_oversized_row : bool)
    : res Error (list PendingBatch * IngestWindowScheduler) :=
  take_loop (2 + Z.to_nat (pending_rows s)) allow_oversized_row target_rows target_bytes [] s.

Definition should_finish_automatic_window (s : IngestWindowScheduler) (w : EncodedIngestWindow) : bool :=
  negb (bool_decide (is_Some (configured_rows s)))
  && ((physical_window_budget s <=? physical_stored_bytes w)
      || incompressible w && (incompressible_window_budget s <=? window_estimated_bytes w)).

Definition remaining_staging_bytes (s : IngestWindowScheduler) (remaining_window_bytes : Z)
    (w : EncodedIngestWindow) : Z :=
  if negb (bool_decide (is_Some (configured_rows s))) && incompressible w
  then Z.min (saturating_sub (incompressible_window_budget s) (window_estimated_bytes w)) remaining_window_bytes
  else remaining_window_bytes.

Definition remaining_rows_of (s : IngestWindowScheduler) (w : EncodedIngestWindow) : res Error Z :=
  match configured_rows s with
  | Some rows => if rows <? window_rows w then Panic else Ok (rows - window_rows w)
  | None => Ok usize_max
  end.

(** The loop of [next_window], up to the window it fills. *)
Fixpoint window_loop (fuel : nat) (s : IngestWindowScheduler) (w : EncodedIngestWindow)
    : res Error (EncodedIngestWindow * IngestWindowScheduler) :=
  match fuel with
  | O => Panic
  | S fuel =>
      remaining_rows ← remaining_rows_of s w;
      if remaining_rows =? 0 then Ok (w, s)
      else
        let remaining_bytes :=
          match configured_rows s with
          | Some _ => PENDING_BATCH_COMPACTION_MAX_BYTES
          | None => saturating_sub (window_budget s) (window_estimated_bytes w)
          end in
        if remaining_bytes =? 0 then Ok (w, s)
        else
          let remaining_staging := remaining_staging_bytes s remaining_bytes w in
          if remaining_staging =? 0 then Ok (w, s)
          else
            let staging_bytes := Z.min remaining_staging ENCODE_STAGING_BYTES in
            s ← fill_staging s remaining_rows staging_bytes;
            if pending_rows s =? 0 then Ok (w, s)
            else
              '(staged, s) ← take_staging s remaining_rows staging_bytes (window_rows w =? 0);
              if bool_decide (length staged = 0%nat) then Ok (w, s)
              else
                estimated ← checked_total "pending ingest byte count overflows" 0 (pending_estimated <$> staged);
                w ← window_append w (scheduler_schema s) staged estimated;
                if should_finish_automatic_window s w then Ok (w, s) else window_loop fuel s w
  end.

(** The rows still to come: pending, or in batches not read yet. *)
Definition rows_left (s : IngestWindowScheduler) : nat :=
  foldr Nat.add 0%nat ((λ p, batch_rows (pending_batch p)) <$> queue s)
  + foldr Nat.add 0%nat ((λ r : res Error RecordBatch, match r with Ok b => batch_rows b | _ => 0%nat end) <$> reader s).

(** Every round but the last appends a row to the window. *)
Definition next_window (s : IngestWindowScheduler)
    : res Error (option EncodedIngestWindow * IngestWindowScheduler) :=
  w ← window_for_schema (scheduler_schema s) (scheduler_wire s);
  '(w, s) ← window_loop (S (rows_left s)) s w;
  if window_rows w =? 0 then Ok (None, s)
  else
    w ← window_finish w;
    Ok (Some w, with_counts s (coalesced_windows s + (if coalesced w then 1 else 0)) (split_windows s)).

(** The thread of [start_ingest_window_prefetch]: windows until there is none. *)
Fixpoint windows_loop (fuel : nat) (s : IngestWindowScheduler)
    : res Error (list EncodedIngestWindow * IngestWindowScheduler) :=
  match fuel with
  | O => Panic
  | S fuel =>
      '(w, s) ← next_window s;
      match w with
      | None => Ok ([], s)
      | Some w => '(ws, s) ← windows_loop fuel s; Ok (w :: ws, s)
      end
  end.

Definition ingest_windows (s : IngestWindowScheduler) : res Error (list EncodedIngestWindow * IngestWindowScheduler) :=
  windows_loop (S (rows_left s)) s.
End with_arrow.
