(* ===== verification/IngestProofs.v ===== *)
(** A window sends exactly the rows it was given: column by column, the bytes
    that reach the server are the encodings of the rows of its batches. *)

From stdpp Require Import base list numbers strings gmap sets.
From S2P Require Import Prelude RustStd Types Calendar ArrowData Encode EncodeProofs Codec Chunked Errors Template Compression CompressionProofs Ingest.
Local Open Scope Z_scope.

(** ** Batches *)

(** The rows of column [i] of a batch. *)
Definition col_rows (i : nat) (b : RecordBatch) : list (option value) :=
  from_option array_rows [] (batch_columns b !! i).

(** What Arrow guarantees of a batch: a column of the field's type and of the
    batch's length for every field. *)
Definition batch_wf (schema : list Field) (b : RecordBatch) : Prop :=
  batch_schema b = schema ∧
  Forall2 (λ f a, field_data_type f = array_data_type a ∧ array_len a = batch_rows b) schema (batch_columns b).

Definition batches_rows (i : nat) (bs : list RecordBatch) : list (option value) := concat (col_rows i <$> bs).

Lemma batch_wf_column schema b i field :
  batch_wf schema b → schema !! i = Some field →
  ∃ a, batch_columns b !! i = Some a ∧ field_data_type field = array_data_type a ∧ array_len a = batch_rows b ∧
       col_rows i b = array_rows a.
Proof.
  intros [_ Hc] Hf. eapply Forall2_lookup_l in Hc as (a & Ha & Ht & Hl); [|exact Hf].
  exists a. unfold col_rows. by rewrite Ha.
Qed.

Lemma col_rows_length schema b i : batch_wf schema b → (i < length schema)%nat → length (col_rows i b) = batch_rows b.
Proof.
  intros Hb Hi. destruct (lookup_lt_is_Some_2 schema i Hi) as [field Hf].
  destruct (batch_wf_column _ _ _ _ Hb Hf) as (a & _ & _ & <- & ->). apply length_array_rows.
Qed.

(** The arrays of a column, and what they hold. *)
Lemma column_arrays_ok {E} schema bs i field :
  Forall (batch_wf schema) bs → schema !! i = Some field →
  ∃ arrays, column_arrays bs i = Ok (E := E) arrays ∧
    Forall (λ a, field_data_type field = array_data_type a) arrays ∧ concat (array_rows <$> arrays) = batches_rows i bs.
Proof.
  intros Hbs Hf. unfold column_arrays, batches_rows.
  assert (∃ arrays, Forall2 (λ b a, or_panic (batch_columns b !! i) = Ok (E := E) a) bs arrays ∧
    Forall (λ a, field_data_type field = array_data_type a) arrays ∧
    concat (array_rows <$> arrays) = concat (col_rows i <$> bs)) as (arrays & Ha & Ht & Hr).
  { induction Hbs as [|b bs Hb _ (arrays & Ha & Ht & Hr)]; [by exists []|].
    destruct (batch_wf_column _ _ _ _ Hb Hf) as (a & Hc & Hty & _ & Hrows). exists (a :: arrays). split_and!.
    - constructor; [by rewrite Hc|done].
    - by constructor.
    - rewrite !fmap_cons. cbn [concat]. by rewrite Hr, Hrows. }
  exists arrays. split_and!; [|done..]. by apply map_res_ok.
Qed.

Section with_arrow.
Context `{ArrowStream, Chrono, Half, Lz4, CursorDisplay, SqlFormat, CharTables}.

(** ** Encoded columns of a window *)

(** A column whose chunks are the encodings of slices that hold [rows]. *)
Definition encodes (arena : list CompressedSlab) (wire : WireCompression) (field : Field) (c : EncodedColumn)
    (rows : list (option value)) : Prop :=
  pending c = None ∧ wire_compression c = wire ∧
  ∃ slices pieces, column_holds arena c (concat pieces) ∧
    Forall2 (λ slice piece, encode_column field slice = Ok piece) slices pieces ∧
    concat (array_rows <$> slices) = rows.

Lemma encodes_extends arena arena' wire field c rows :
  arena_extends arena arena' → encodes arena wire field c rows → encodes arena' wire field c rows.
Proof.
  intros He (Hp & Hw & slices & pieces & Hh & Hrest). split_and!; [done..|]. exists slices, pieces.
  split; [by eapply column_holds_extends|done].
Qed.

(** The invariant of the sink: the content so far. *)
Definition sink_inv (sink : EncodedColumn * list CompressedSlab) : Prop :=
  arena_ok sink.2 ∧ pending_open sink.1 ∧ ∃ content, column_holds sink.2 sink.1 content.

Lemma push_sink_safe sink data :
  sink_inv sink → push_sink sink data ≠ Panic ∧ ∀ sink', push_sink sink data = Ok sink' → sink_inv sink'.
Proof.
  intros (Hok & Ho & content & Hh). pose proof (column_push_grows _ _ _ data Hok Hh Ho) as Hg. unfold push_sink.
  destruct (column_push sink.1 data sink.2) as [[c' arena']| |]; [|by split..].
  destruct Hg as (Hok' & _ & Hh' & _ & Ho'). split; [done|]. intros sink' [= <-]. split_and!; [done..|by eexists].
Qed.

(** Pieces pushed one after the other extend the column by all of them. *)
Lemma emit_all_pushed pieces c arena content sink' :
  arena_ok arena → column_holds arena c content → pending_open c →
  emit_all push_sink (c, arena) pieces = Ok sink' →
  arena_ok sink'.2 ∧ arena_extends arena sink'.2 ∧ column_holds sink'.2 sink'.1 (content ++ concat pieces) ∧
  pending_open sink'.1 ∧ same_shape c sink'.1.
Proof.
  revert c arena content. induction pieces as [|piece pieces IH]; intros c arena content Hok Hh Ho He.
  { injection He as <-. simpl. rewrite app_nil_r. split_and!; try done. }
  cbn [emit_all] in He. apply bind_ok in He as ([c1 arena1] & Hp1 & He). unfold push_sink in Hp1. cbn [fst snd] in Hp1.
  pose proof (column_push_grows _ _ _ piece Hok Hh Ho) as Hg. rewrite Hp1 in Hg.
  destruct Hg as (Hok1 & Hext & Hh1 & Hs1 & Ho1).
  destruct (IH _ _ _ Hok1 Hh1 Ho1 He) as (Hok2 & Hext2 & Hh2 & Ho2 & Hs2).
  cbn [concat]. rewrite app_assoc. split_and!; [done|by etransitivity|done..|by eapply same_shape_trans].
Qed.

(** ** The invariant of a window *)

Definition column_at (schema : list Field) (w : EncodedIngestWindow) (enc : nat → list (option value)) (i : nat) : Prop :=
  ∃ field c, schema !! i = Some field ∧ window_columns w !! i = Some c ∧
    encodes (compressed_arena w) (window_wire w) field c (enc i).

Record window_inv (schema : list Field) (w : EncodedIngestWindow) (enc : nat → list (option value)) : Prop := {
  wi_arena : arena_ok (compressed_arena w);
  wi_length : length (window_columns w) = length schema;
  wi_columns : ∀ i, (i < length schema)%nat → column_at schema w enc i;
  wi_lz4 : window_wire w = WC_Lz4 → retain_arrow w = false ∧ retained_batches w = [];
  wi_retained : Forall (batch_wf schema) (retained_batches w);
}.

(** Only these fields matter for the invariant. *)
Lemma window_inv_ext schema w w' enc :
  window_inv schema w enc →
  window_columns w' = window_columns w → compressed_arena w' = compressed_arena w → window_wire w' = window_wire w →
  (window_wire w = WC_Lz4 → retain_arrow w' = false ∧ retained_batches w' = []) →
  Forall (batch_wf schema) (retained_batches w') →
  window_inv schema w' enc.
Proof.
  intros [Ha Hl Hc _ _] Hcols Harena Hwire Hlz Hret. split; [by rewrite Harena|by rewrite Hcols| |by rewrite Hwire|done].
  intros i Hi. destruct (Hc i Hi) as (field & c & Hf & Hcol & Henc). exists field, c.
  by rewrite Hcols, Harena, Hwire.
Qed.

Lemma append_column_inv schema bs w enc k :
  window_inv schema w enc → Forall (batch_wf schema) bs → (k < length schema)%nat →
  append_column schema bs w k ≠ Panic ∧
  ∀ w', append_column schema bs w k = Ok w' →
    window_inv schema w' (λ i, if decide (i = k) then enc k ++ batches_rows k bs else enc i) ∧
    retained_batches w' = retained_batches w ∧ retain_arrow w' = retain_arrow w ∧ window_rows w' = window_rows w ∧
    window_estimated_bytes w' = window_estimated_bytes w ∧ window_wire w' = window_wire w ∧
    retain_arrow_eligible w' = retain_arrow_eligible w.
Proof.
  intros Hw Hbs Hk. destruct (wi_columns _ _ _ Hw k Hk) as (field & c & Hf & Hc & Hp & Hwc & slices & pieces & Hh & Hs & Hr).
  destruct (column_arrays_ok (E := Error) schema bs k field Hbs Hf) as (arrays & Ha & Ht & Hrows).
  unfold append_column. rewrite Hf, Ha, Hc. cbn [or_panic mbind res_bind].
  assert (pending_open c) as Ho by (unfold pending_open; by rewrite Hp).
  pose proof (wi_arena _ _ _ Hw) as Hok.
  destruct (encode_column_chunks_safe push_sink sink_inv push_sink_safe field arrays ENCODE_CHUNK_BYTES (c, compressed_arena w))
    as [Hn _]; [by split_and!; [..|eexists]|].
  destruct (encode_column_chunks push_sink _ _ _ _) as [[n [c1 arena1]]| |] eqn:He; [|by split..]. cbn [map_err mbind res_bind].
  apply encode_column_chunks_written in He; [|done]. destruct He as (sl & pc & Hsl & Hslr & Hemit & _).
  destruct (emit_all_pushed _ _ _ _ _ Hok Hh Ho Hemit) as (Hok1 & Hext1 & Hh1 & Ho1 & Hs1). cbn [fst snd] in *.
  pose proof (finish_pending_grows arena1 c1 _ Hok1 Hh1) as Hg. unfold column_finish.
  destruct (finish_pending c1 arena1) as [[c2 arena2]| |]; [|by split..]. cbn [map_err mbind res_bind].
  destruct Hg as (Hok2 & Hext2 & Hh2 & Hs2 & Hp2).
  destruct (checked_add (column_bytes c2) n) as [total|]; [|by split]. cbn [ok_or mbind res_bind].
  destruct (checked_add (encoded_bytes w) n) as [encoded|]; [|by split]. cbn [ok_or mbind res_bind].
  split; [done|]. intros w' [= <-]. split; [|done].
  pose proof (same_shape_trans _ _ _ Hs1 Hs2) as (_ & Hwire & _).
  assert (arena_extends (compressed_arena w) arena2) as Hext by (by etransitivity).
  split; cbn [with_column window_columns compressed_arena window_wire retain_arrow retained_batches]; [done| | |apply Hw..].
  - rewrite length_insert. apply Hw.
  - intros i Hi. destruct (decide (i = k)) as [->|Hne].
    + exists field, (with_column_bytes c2 total). split; [done|]. split; [by apply list_lookup_insert_eq; rewrite (wi_length _ _ _ Hw)|].
      rewrite decide_True by done. split; [done|]. split; [simpl; congruence|]. exists (slices ++ sl), (pieces ++ pc). split_and!.
      * rewrite concat_app. destruct Hh2 as [H1' H2' H3']. by split.
      * by apply Forall2_app.
      * rewrite fmap_app, concat_app. by rewrite Hr, Hslr, Hrows.
    + destruct (wi_columns _ _ _ Hw i Hi) as (field' & c' & Hf' & Hc' & Henc). exists field', c'.
      rewrite decide_False by done. split; [done|]. split; [by cbn [with_column window_columns]; rewrite list_lookup_insert_ne|].
      cbn [with_column compressed_arena window_wire]. by eapply encodes_extends.
Qed.

(** The fields that encoding a column leaves alone. *)
Definition same_frame (w w' : EncodedIngestWindow) : Prop :=
  retained_batches w' = retained_batches w ∧ retain_arrow w' = retain_arrow w ∧ window_rows w' = window_rows w ∧
  window_estimated_bytes w' = window_estimated_bytes w ∧ window_wire w' = window_wire w ∧
  retain_arrow_eligible w' = retain_arrow_eligible w.

Lemma append_columns_inv schema bs indices w enc :
  window_inv schema w enc → Forall (batch_wf schema) bs → NoDup indices → Forall (λ i, i < length schema)%nat indices →
  append_columns schema bs w indices ≠ Panic ∧
  ∀ w', append_columns schema bs w indices = Ok w' →
    window_inv schema w' (λ i, if decide (i ∈ indices) then enc i ++ batches_rows i bs else enc i) ∧ same_frame w w'.
Proof.
  intros Hw Hbs. revert w enc Hw. induction indices as [|k indices IH]; intros w enc Hw Hnd Hi; cbn [append_columns].
  { split; [done|]. intros w' [= <-]. split; [|done]. destruct Hw as [H1' H2' H3' H4' H5']. by split. }
  apply NoDup_cons in Hnd as [Hk Hnd]. apply Forall_cons in Hi as [Hki Hi].
  destruct (append_column_inv schema bs w enc k Hw Hbs Hki) as [Hn Hok].
  destruct (append_column schema bs w k) as [w1| |]; [|by split..]. cbn [mbind res_bind].
  destruct (Hok w1 eq_refl) as (Hw1 & Hr1 & Ha1 & Hrows1 & Hest1 & Hwire1 & Hel1).
  destruct (IH w1 _ Hw1 Hnd Hi) as [Hn2 Hok2]. split; [done|]. intros w' He.
  destruct (Hok2 w' He) as (Hw' & Hr' & Ha' & Hrows' & Hest' & Hwire' & Hel'). split; [|unfold same_frame; split_and!; congruence].
  destruct Hw' as [G1 G2 G3 G4 G5]. split; [done..| |done|done]. intros i Hi'.
  destruct (G3 i Hi') as (field & c & Hf & Hc & He'). exists field, c. split_and!; [done..|].
  destruct (decide (i = k)) as [->|Hne].
  - rewrite decide_True by set_solver. by rewrite decide_False in He' by done.
  - destruct (decide (i ∈ indices)); [rewrite decide_True by set_solver|rewrite decide_False by set_solver]; done.
Qed.

(** A window that stands for [rows i] in every column [i]. *)
Definition window_holds (schema : list Field) (w : EncodedIngestWindow) (rows : nat → list (option value)) : Prop :=
  ∃ enc, window_inv schema w enc ∧ 0 ≤ window_rows w ∧ (retain_arrow w = false → retained_batches w = []) ∧
    ∀ i, (i < length schema)%nat →
      enc i ++ batches_rows i (retained_batches w) = rows i ∧ len (rows i) = window_rows w.

Lemma window_for_schema_holds schema wire w :
  window_for_schema schema wire = Ok w →
  window_holds schema w (λ _, []) ∧ window_rows w = 0 ∧ window_estimated_bytes w = 0 ∧ window_wire w = wire.
Proof.
  unfold window_for_schema. intros He. apply bind_ok in He as (cols & Hcols & [= <-]). split; [|done].
  apply map_res_ok in Hcols. exists (λ _, []). split; [|split_and!; [done..|]; intros i _; done].
  split; cbn [window_columns compressed_arena window_wire retain_arrow retained_batches]; [constructor| |..|done|constructor].
  - symmetry. by eapply Forall2_length.
  - intros i Hi. destruct (lookup_lt_is_Some_2 schema i Hi) as [field Hf].
    eapply Forall2_lookup_l in Hcols as (c & Hc & Hcol); [|exact Hf].
    apply bind_ok in Hcol as (width & _ & [= <-]). exists field, (column_new (Z.to_nat <$> width) wire).
    split_and!; [done..|]. split_and!; [done..|]. exists [], []. split_and!; [apply column_new_holds|constructor|done].
Qed.

Lemma window_for_schema_no_panic schema wire : window_for_schema schema wire ≠ Panic.
Proof.
  unfold window_for_schema. apply bind_no_panic; [|done]. apply mapi_res_no_panic. intros _ field _.
  apply bind_no_panic; [|done]. apply map_err_no_panic. exact (column_fixed_wire_width_no_panic field DInt8).
Qed.

Lemma total_rows_length schema staged i :
  Forall (batch_wf schema) (pending_batch <$> staged) → (i < length schema)%nat →
  len (batches_rows i (pending_batch <$> staged)) = total_rows staged.
Proof.
  intros Hs Hi. induction staged as [|p staged IH]; [done|]. rewrite fmap_cons in *. apply Forall_cons in Hs as [Hp Hs].
  unfold batches_rows, total_rows in *. rewrite !fmap_cons. cbn [concat foldr]. rewrite length_app, (col_rows_length schema) by done.
  specialize (IH Hs). lia.
Qed.

Lemma total_rows_nonneg staged : 0 ≤ total_rows staged.
Proof. unfold total_rows. induction staged; [done|]. rewrite fmap_cons. cbn [foldr]. lia. Qed.

(** Appending batches adds their rows to every column. *)
Lemma window_append_holds schema w rows staged estimated :
  window_holds schema w rows → Forall (batch_wf schema) (pending_batch <$> staged) →
  window_append w schema staged estimated ≠ Panic ∧
  ∀ w', window_append w schema staged estimated = Ok w' →
    window_holds schema w' (λ i, rows i ++ batches_rows i (pending_batch <$> staged)) ∧
    window_rows w' = window_rows w + total_rows staged ∧
    window_estimated_bytes w' = window_estimated_bytes w + estimated ∧ window_wire w' = window_wire w.
Proof.
  intros (enc & Hw & Hnn & Hret & Hrows) Hst. unfold window_append. set (bs := pending_batch <$> staged) in *.
  set (w0 := with_staging w staged _). pose proof (total_rows_nonneg staged) as Htn.
  assert (window_inv schema w0 enc) as Hw0 by (eapply window_inv_ext; [exact Hw|done..|apply Hw|apply Hw]).
  match goal with |- (?m ≫= _) ≠ Panic ∧ _ => set (step := m) end.
  assert (step ≠ Panic ∧ ∀ w1, step = Ok w1 → ∃ enc1, window_inv schema w1 enc1 ∧ (retain_arrow w1 = false → retained_batches w1 = []) ∧
    window_rows w1 = window_rows w ∧ window_estimated_bytes w1 = window_estimated_bytes w ∧ window_wire w1 = window_wire w ∧
    ∀ i, (i < length schema)%nat → enc1 i ++ batches_rows i (retained_batches w1) = rows i ++ batches_rows i bs) as [Hn Hok].
  { unfold step. change (retain_arrow w0) with (retain_arrow w). destruct (retain_arrow w) eqn:Hra.
    - destruct (checked_add _ _) as [total|]; [|by split]. cbn [ok_or mbind res_bind]. split; [done|]. intros w1 [= <-].
      exists enc. split; [|split_and!; try done].
      + eapply window_inv_ext; [exact Hw0|done..| |].
        * intros Hl. destruct (wi_lz4 _ _ _ Hw Hl). congruence.
        * cbn [with_retained retained_batches]. apply Forall_app. split; [apply Hw|done].
      + cbn [with_retained retain_arrow]. change (retain_arrow w0) with (retain_arrow w). congruence.
      + intros i Hi. cbn [with_retained retained_batches]. change (retained_batches w0) with (retained_batches w).
        unfold batches_rows. rewrite fmap_app, concat_app, app_assoc. f_equal. by apply Hrows.
    - destruct (append_columns_inv schema bs (seq 0 (length schema)) w0 enc Hw0 Hst) as [Hn Hok].
      { apply NoDup_seq. } { apply Forall_forall. intros i Hi%elem_of_seq. lia. }
      destruct (append_columns _ _ _ _) as [w1| |]; [|by split..]. cbn [mbind res_bind]. split; [done|]. intros w2 [= <-].
      destruct (Hok w1 eq_refl) as (Hw1 & Hr1 & Ha1 & Hrows1 & Hest1 & Hwire1 & _).
      specialize (Hret eq_refl). rewrite Hret in *.
      assert (retained_batches w1 = []) as Hr1' by (rewrite Hr1; exact Hret).
      eexists. split; [|split_and!; [|exact Hrows1|exact Hest1|exact Hwire1|]].
      + eapply window_inv_ext; [exact Hw1|done..| |apply Hw1]. intros Hl. split; [|exact Hr1'].
        cbn [with_verdict retain_arrow]. unfold is_lz4. rewrite Hl. done.
      + intros _. exact Hr1'.
      + intros i Hi. cbn [with_verdict retained_batches]. rewrite Hr1'. unfold batches_rows at 2. rewrite app_nil_r.
        rewrite decide_True by (apply elem_of_seq; lia). f_equal. destruct (Hrows i Hi) as [<- _]. by rewrite app_nil_r. }
  destruct step as [w1| |]; [|by split..]. cbn [mbind res_bind].
  destruct (Hok w1 eq_refl) as (enc1 & Hw1 & Hret1 & Hr1 & Hest1 & Hwire1 & Hrows1).
  destruct (checked_add (window_rows w1) _) as [r|] eqn:Hr; [|by split]. cbn [ok_or mbind res_bind].
  destruct (checked_add (window_estimated_bytes w1) _) as [e|] eqn:He; [|by split]. cbn [ok_or mbind res_bind].
  unfold checked_add in Hr, He. repeat case_match; simplify_eq. split; [done|]. intros w' [= <-].
  cbn [with_totals window_rows window_estimated_bytes window_wire]. split_and!; [|congruence..].
  exists enc1. split; [eapply window_inv_ext; [exact Hw1|done..|apply Hw1|apply Hw1]|].
  split; [cbn [with_totals window_rows]; lia|]. split; [done|]. intros i Hi. split; [by apply Hrows1|].
  cbn [with_totals window_rows]. rewrite length_app, Nat2Z.inj_add. destruct (Hrows i Hi) as [_ ->].
  unfold bs. rewrite (total_rows_length schema) by done. lia.
Qed.

(** ** Finishing *)

Lemma finish_columns_ok schema w rows indices :
  window_holds schema w rows → Forall (λ i, i < length schema)%nat indices →
  ∃ w', finish_columns w indices = Ok w' ∧ window_holds schema w' rows ∧ same_frame w w' ∧
    window_columns w' = window_columns w.
Proof.
  revert w. induction indices as [|k indices IH]; intros w Hh Hi; cbn [finish_columns]; [by exists w|].
  apply Forall_cons in Hi as [Hk Hi]. destruct Hh as (enc & Hw & Hnn & Hret & Hrows).
  destruct (wi_columns _ _ _ Hw k Hk) as (field & c & Hf & Hc & Hp & Hrest). unfold finish_column. rewrite Hc.
  cbn [or_panic mbind res_bind]. unfold column_finish, finish_pending. rewrite Hp. cbn [map_err mbind res_bind].
  set (w1 := mkWindow _ _ _ _ _ _ _ _ _ _ _ _ _ _ _ _ _ _).
  assert (window_columns w1 = window_columns w) as Hcols by (cbn; by apply list_insert_id).
  destruct (IH w1) as (w' & -> & Hh' & Hs' & Hc'); [|done|].
  { exists enc. split; [eapply window_inv_ext; [exact Hw|exact Hcols|done..|apply Hw|apply Hw]|done]. }
  exists w'. split_and!; [done..|congruence].
Qed.

Lemma window_finish_holds schema w rows :
  window_holds schema w rows → ∃ w', window_finish w = Ok w' ∧ window_holds schema w' rows ∧ same_frame w w'.
Proof.
  intros Hh. destruct (finish_columns_ok schema w rows (seq 0 (length (window_columns w))) Hh) as (w' & Hf & Hh' & Hs & _).
  { destruct Hh as (enc & Hw & _). rewrite (wi_length _ _ _ Hw). apply Forall_forall. intros i Hi%elem_of_seq. lia. }
  by exists w'.
Qed.

(** ** The upload *)

Definition column_file (i : nat) : bytes := str "c" ++ fmt_int (Z.of_nat i).

Lemma upload_column_index_file i n :
  (i < n)%nat → Z.of_nat n ≤ usize_max → upload_column_index (column_file i) n = Ok i.
Proof.
  intros Hi Hn. unfold upload_column_index, column_file, strip_prefix, starts_with.
  rewrite take_app_length, bool_decide_true by done. rewrite drop_app_length. cbn [mbind option_bind].
  change parse_usize with parse_u64. rewrite parse_u64_fmt by (unfold unsigned_range, usize_max in *; lia).
  rewrite (proj2 (Z.ltb_lt _ _)) by lia. by rewrite Nat2Z.id.
Qed.

(** The pieces a file consists of: encodings of slices with the rows. *)
Definition file_rows (field : Field) (content : bytes) (rows : list (option value)) : Prop :=
  ∃ slices pieces, content = concat pieces ∧
    Forall2 (λ slice piece, encode_column field slice = Ok piece) slices pieces ∧
    concat (array_rows <$> slices) = rows.

Lemma file_rows_app field c1 c2 r1 r2 : file_rows field c1 r1 → file_rows field c2 r2 → file_rows field (c1 ++ c2) (r1 ++ r2).
Proof.
  intros (s1 & p1 & -> & H1' & <-) (s2 & p2 & -> & H2' & <-). exists (s1 ++ s2), (p1 ++ p2). split_and!.
  - by rewrite concat_app.
  - by apply Forall2_app.
  - by rewrite fmap_app, concat_app.
Qed.

Lemma emit_all_collect (sink pieces : list bytes) :
  emit_all (E := CursorError) (λ sink chunk, Ok (sink ++ [chunk])) sink pieces = Ok (sink ++ pieces).
Proof.
  revert sink. induction pieces as [|p pieces IH]; intros sink; cbn [emit_all mbind res_bind]; [by rewrite app_nil_r|].
  rewrite IH. by rewrite <- app_assoc.
Qed.

Lemma upload_retained_ok schema bs i field :
  Forall (batch_wf schema) bs → schema !! i = Some field →
  match upload_retained_column schema bs i with
  | Ok (chunks, _) => file_rows field (concat chunks) (batches_rows i bs)
  | Err _ => True
  | Panic => False
  end.
Proof.
  intros Hbs Hf. unfold upload_retained_column. rewrite Hf. cbn [or_panic mbind res_bind].
  destruct (column_arrays_ok (E := CursorError) schema bs i field Hbs Hf) as (arrays & -> & Ht & Hr). cbn [mbind res_bind].
  destruct (encode_column_chunks_safe (E := CursorError) (λ sink chunk, Ok (sink ++ [chunk])) (λ _, True) ltac:(done) field arrays
    ENCODE_CHUNK_BYTES [] I) as [Hn _].
  destruct (encode_column_chunks _ _ _ _ _) as [[n chunks]| |] eqn:He; [|done..]. cbn [map_err mbind res_bind].
  apply encode_column_chunks_written in He; [|done]. destruct He as (sl & pc & Hsl & Hslr & Hemit & _).
  rewrite emit_all_collect in Hemit. injection Hemit as <-. exists sl, pc. split_and!; [done..|]. by rewrite Hslr.
Qed.

Lemma uses_wire_lz4_columns schema w enc i field c :
  window_inv schema w enc → schema !! i = Some field → window_columns w !! i = Some c →
  encodes (compressed_arena w) (window_wire w) field c (enc i) → uses_wire_lz4 w = true →
  Forall (λ chunk, plain_frame chunk = true) (chunks_of c) ∧ retained_batches w = [].
Proof.
  intros Hw Hf Hc (_ & Hwc & slices & pieces & Hh & _) Hu. unfold uses_wire_lz4 in Hu.
  destruct (window_wire w) eqn:Hwire; [done|..].
  - apply andb_true_iff in Hu as [Hr Hu]. apply bool_decide_eq_true in Hr. split; [|by destruct (retained_batches w)].
    apply Is_true_true, forallb_True in Hu. eapply Forall_lookup_1 in Hu; [|exact Hc]. apply andb_True in Hu as [_ Hu].
    apply forallb_True in Hu. eapply Forall_impl; [exact Hu|]. intros chunk. unfold is_plain_frame, plain_frame.
    destruct chunk as [|? ? ? [] []]; by intros.
  - split; [by apply Hh|]. by apply Hw.
Qed.

Context `{!Lz4Laws}.

(** A window uploads its rows.  When the server asks for the file of a column,
    the bytes it is sent (decompressed, when the wire is compressed) are
    encodings of slices that hold exactly the rows of that column of the batches
    put into the window, in order: whether a chunk was kept raw, compressed,
    shuffled, or as Arrow data that is encoded during the upload. *)
Lemma upload_file_rows schema w rows window_bytes i field :
  window_holds schema w rows → schema !! i = Some field → Z.of_nat (length schema) ≤ usize_max →
  match upload_file schema w window_bytes (column_file i) with
  | Ok (chunks, _) => ∃ content, delivered (uses_wire_lz4 w) chunks = Some content ∧ file_rows field content (rows i)
  | Err _ => retained_batches w ≠ []
  | Panic => False
  end.
Proof.
  intros (enc & Hw & _ & _ & Hrows) Hf Hmax. pose proof (lookup_lt_Some _ _ _ Hf) as Hi.
  destruct (wi_columns _ _ _ Hw i Hi) as (field' & c & Hf' & Hc & Henc). assert (field' = field) as -> by congruence.
  destruct (Hrows i Hi) as [Hr _]. unfold upload_file. rewrite upload_column_index_file by done. cbn [mbind res_bind].
  rewrite Hc. cbn [or_panic mbind res_bind].
  pose proof (uses_wire_lz4_columns _ _ _ _ _ _ Hw Hf Hc Henc) as Hlz.
  destruct Henc as (Hp & _ & slices & pieces & Hh & Hs & Hsr).
  destruct (upload_column_delivers (uses_wire_lz4 w) (compressed_arena w) c _ (wi_arena _ _ _ Hw) Hh Hp) as (chunks & -> & Hd).
  { intros Hu. by apply Hlz. }
  cbn [mbind res_bind]. pose proof (wi_retained _ _ _ Hw) as Hret. destruct (retained_batches w) as [|b bs] eqn:Hb.
  - eexists. split; [exact Hd|]. exists slices, pieces. split_and!; [done..|]. rewrite <- Hr, Hsr. by rewrite app_nil_r.
  - pose proof (upload_retained_ok schema (b :: bs) i field Hret Hf) as Hu.
    destruct (upload_retained_column schema (b :: bs) i) as [[more n]| |]; [|done..]. cbn [mbind res_bind].
    destruct (checked_add (column_bytes c) n); [|done]. cbn [ok_or mbind res_bind].
    destruct (checked_add window_bytes n); [|done]. cbn [ok_or mbind res_bind].
    destruct (uses_wire_lz4 w); [by destruct (Hlz eq_refl)|]. injection Hd as Hd. exists (concat (chunks ++ more)). split; [done|].
    rewrite concat_app, Hd, <- Hr. apply file_rows_app; [|done]. by exists slices, pieces.
Qed.

End with_arrow.
