(* ===== verification/SchedulerProofs.v ===== *)
(** The scheduler cuts a stream into windows without losing, repeating or
    reordering a row, and it terminates. *)

From stdpp Require Import base list numbers strings gmap sets.
From S2P Require Import Prelude RustStd Types Calendar ArrowData Encode EncodeProofs Codec Chunked Errors Template Compression CompressionProofs Ingest IngestProofs.
Local Open Scope Z_scope.

(** ** What the driver relies on *)

Definition count_rows (bs : list RecordBatch) : nat := foldr Nat.add 0%nat (batch_rows <$> bs).

(** Concatenated batches of one schema are a batch of that schema with the
    rows one after the other. *)
Class ArrowStreamLaws `{ArrowStream} : Prop := {
  concat_batches_rows schema bs b :
    Forall (batch_wf schema) bs → concat_batches schema bs = Ok b →
    batch_wf schema b ∧ batch_rows b = count_rows bs ∧
    ∀ i, (i < length schema)%nat → col_rows i b = batches_rows i bs;
  concat_batches_no_panic schema bs : concat_batches schema bs ≠ Panic;
}.

Lemma count_rows_app bs1 bs2 : count_rows (bs1 ++ bs2) = (count_rows bs1 + count_rows bs2)%nat.
Proof. unfold count_rows. induction bs1 as [|b bs1 IH]; [done|]. cbn [app]. rewrite !fmap_cons. cbn [foldr]. lia. Qed.

Lemma batches_rows_cons i b bs : batches_rows i (b :: bs) = col_rows i b ++ batches_rows i bs.
Proof. done. Qed.

Lemma count_rows_cons b bs : count_rows (b :: bs) = (batch_rows b + count_rows bs)%nat.
Proof. done. Qed.

Lemma batches_rows_one i b : batches_rows i [b] = col_rows i b.
Proof. unfold batches_rows. simpl. apply app_nil_r. Qed.

Lemma count_rows_one b : count_rows [b] = batch_rows b.
Proof. unfold count_rows. simpl. lia. Qed.

Lemma batches_rows_app i bs1 bs2 : batches_rows i (bs1 ++ bs2) = batches_rows i bs1 ++ batches_rows i bs2.
Proof. unfold batches_rows. by rewrite fmap_app, concat_app. Qed.

(** ** The state of the scheduler *)

Definition ok_batches (r : list (res Error RecordBatch)) : list RecordBatch :=
  omap (λ x, match x with Ok b => Some b | _ => None end) r.

(** The batches still to come, pending ones first. *)
Definition upcoming (s : IngestWindowScheduler) : list RecordBatch := (pending_batch <$> queue s) ++ ok_batches (reader s).

Definition sum_estimates (ps : list PendingBatch) : Z := foldr Z.add 0 (pending_estimated <$> ps).

Definition pending_ok (schema : list Field) (p : PendingBatch) : Prop :=
  batch_wf schema (pending_batch p) ∧ (0 < batch_rows (pending_batch p))%nat ∧ 0 ≤ pending_estimated p.

(** The reader's results are batches or errors, and batches are well formed. *)
Definition reader_ok (r : list (res Error RecordBatch)) : Prop :=
  Forall (λ x, match x with Ok b => batch_wf (batch_schema b) b | Err _ => True | Panic => False end) r.

Record sched_ok (s : IngestWindowScheduler) : Prop := {
  so_queue : Forall (pending_ok (scheduler_schema s)) (queue s);
  so_rows : pending_rows s = total_rows (queue s);
  so_bytes : pending_bytes s = sum_estimates (queue s);
  so_reader : reader_ok (reader s);
  so_exhausted : exhausted s = true → reader s = [];
}.

Definition same_config (s s' : IngestWindowScheduler) : Prop :=
  scheduler_schema s' = scheduler_schema s ∧ window_budget s' = window_budget s ∧
  configured_rows s' = configured_rows s ∧ scheduler_wire s' = scheduler_wire s ∧
  incompressible_window_budget s' = incompressible_window_budget s.

(** From [s] to [s'] the batches [bs] were taken off the front. *)
Record moved (s : IngestWindowScheduler) (bs : list RecordBatch) (s' : IngestWindowScheduler) : Prop := {
  mv_rows : ∀ i, (i < length (scheduler_schema s))%nat →
    batches_rows i (upcoming s) = batches_rows i bs ++ batches_rows i (upcoming s');
  mv_count : count_rows (upcoming s) = (count_rows bs + count_rows (upcoming s'))%nat;
  mv_config : same_config s s';
  mv_errors : ∀ e, Err e ∈ reader s → Err e ∈ reader s';
}.

Lemma moved_refl s : moved s [] s.
Proof. by split. Qed.

Lemma moved_trans s1 b1 s2 b2 s3 : moved s1 b1 s2 → moved s2 b2 s3 → moved s1 (b1 ++ b2) s3.
Proof.
  intros [H1 H2 H3 H4] [G1 G2 G3 G4]. split; [..|by auto].
  - intros i Hi. rewrite H1 by done. rewrite G1 by (destruct H3 as [-> _]; done). by rewrite batches_rows_app, app_assoc.
  - rewrite count_rows_app. lia.
  - unfold same_config in *. intuition congruence.
Qed.

Lemma rows_left_upcoming s : rows_left s = count_rows (upcoming s).
Proof.
  unfold rows_left, upcoming. rewrite count_rows_app. f_equal.
  - unfold count_rows. by rewrite <- list_fmap_compose.
  - induction (reader s) as [|[b| |] r IH]; [done|..]; rewrite fmap_cons; cbn [foldr]; rewrite IH; [|done..].
    change (ok_batches (Ok b :: r)) with (b :: ok_batches r). done.
Qed.

Lemma total_rows_count ps : total_rows ps = Z.of_nat (count_rows (pending_batch <$> ps)).
Proof. unfold total_rows, count_rows. induction ps as [|p ps IH]; [done|]. rewrite !fmap_cons. cbn [foldr]. lia. Qed.

Lemma total_rows_app p1 p2 : total_rows (p1 ++ p2) = total_rows p1 + total_rows p2.
Proof. rewrite !total_rows_count, fmap_app, count_rows_app. lia. Qed.

Lemma sum_estimates_app p1 p2 : sum_estimates (p1 ++ p2) = sum_estimates p1 + sum_estimates p2.
Proof. unfold sum_estimates. induction p1 as [|p p1 IH]; [done|]. cbn [app]. rewrite !fmap_cons. cbn [foldr]. lia. Qed.

Lemma sum_estimates_nonneg schema ps : Forall (pending_ok schema) ps → 0 ≤ sum_estimates ps.
Proof. unfold sum_estimates. induction 1 as [|p ps (_ & _ & Hp) _ IH]; [done|]. rewrite fmap_cons. cbn [foldr]. lia. Qed.

(** ** Sums *)

Lemma checked_total_ok message total sizes :
  checked_total message total sizes ≠ Panic ∧
  ∀ n, checked_total message total sizes = Ok n → n = total + foldr Z.add 0 sizes.
Proof.
  revert total. induction sizes as [|x sizes IH]; intros total; cbn [checked_total foldr].
  { split; [done|]. intros n [= <-]. lia. }
  unfold checked_add. destruct (Z.leb_spec (total + x) usize_max); [|by split]. cbn [ok_or mbind res_bind].
  destruct (IH (total + x)) as [Hn Hk]. split; [done|]. intros n Hn'. specialize (Hk n Hn'). lia.
Qed.

Lemma foldr_add_rev (l : list Z) : foldr Z.add 0 (rev l) = foldr Z.add 0 l.
Proof.
  assert (∀ l1 l2 : list Z, foldr Z.add 0 (l1 ++ l2) = foldr Z.add 0 l1 + foldr Z.add 0 l2) as Happ.
  { induction l1; intros; simpl; [done|]. rewrite IHl1. lia. }
  induction l as [|x l IH]; [done|]. simpl. rewrite Happ, IH. simpl. lia.
Qed.

Section with_arrow.
Context `{ArrowStream, Chrono, Half, Lz4, CursorDisplay, SqlFormat}.
Context `{!ArrowStreamLaws}.

Lemma estimated_sizes_ok total l :
  0 ≤ total → estimated_sizes total l ≠ Panic ∧ ∀ n, estimated_sizes total l = Ok n → total ≤ n.
Proof.
  revert total. induction l as [|[f a] l IH]; intros total Ht; cbn [estimated_sizes].
  { split; [done|]. intros n [= <-]. lia. }
  pose proof (estimated_encoded_size_no_panic f a) as Hp. destruct (estimated_encoded_size f a) as [k| |] eqn:He; [|by split..].
  cbn [map_err mbind res_bind]. unfold checked_add. destruct (_ <=? _); [|by split]. cbn [ok_or mbind res_bind].
  apply estimated_nonneg in He. destruct (IH (total + k) ltac:(lia)) as [Hn Hk]. split; [done|]. intros n Hn'.
  specialize (Hk n Hn'). lia.
Qed.

Lemma estimated_batch_size_ok schema b :
  estimated_batch_size schema b ≠ Panic ∧ ∀ n, estimated_batch_size schema b = Ok n → 0 ≤ n.
Proof. by apply estimated_sizes_ok. Qed.

(** A computation that keeps the scheduler in order and moves [bs] off it. *)
Definition keeps {A} (s : IngestWindowScheduler) (r : res Error A) (P : A → Prop) : Prop :=
  r ≠ Panic ∧ ∀ a, r = Ok a → P a.

Lemma keeps_bind {A B} s (m : res Error A) (f : A → res Error B) P Q :
  keeps s m P → (∀ a, m = Ok a → P a → keeps s (f a) Q) → keeps s (x ← m; f x) Q.
Proof.
  intros [Hn Hp] Hf. destruct m as [a| |]; [|by split..]. cbn [mbind res_bind]. apply Hf; [done|by apply Hp].
Qed.

Lemma keeps_ok {A} s (a : A) (P : A → Prop) : P a → keeps s (Ok a) P.
Proof. intros Ha. split; [done|]. by intros ? [= <-]. Qed.

Lemma keeps_err {A} s e (P : A → Prop) : keeps s (Err e) P.
Proof. by split. Qed.

(** ** Compaction *)

Lemma compact_queue s kept compacted level batch estimated :
  sched_ok s → queue s = kept ++ compacted → compacted ≠ [] →
  concat_batches (scheduler_schema s) (pending_batch <$> compacted) = Ok batch → estimated = sum_estimates compacted →
  let s' := with_queue s (kept ++ [mkPendingBatch batch estimated level]) (pending_rows s) (pending_bytes s) in
  sched_ok s' ∧ moved s [] s'.
Proof.
  intros [Hq Hr Hb Hrd Hx] Hsplit Hne Hc -> s'. rewrite Hsplit in *. apply Forall_app in Hq as [Hk Hcs].
  assert (Forall (batch_wf (scheduler_schema s)) (pending_batch <$> compacted)) as Hwfs.
  { apply Forall_fmap. eapply Forall_impl; [exact Hcs|]. by intros p (? & _). }
  destruct (concat_batches_rows _ _ _ Hwfs Hc) as (Hwf & Hcount & Hrows).
  assert (0 < batch_rows batch)%nat as Hpos.
  { rewrite Hcount. destruct compacted as [|p compacted]; [done|]. apply Forall_cons in Hcs as [(_ & Hp & _) _].
    unfold count_rows. rewrite !fmap_cons. cbn [foldr]. lia. }
  split.
  - split; cbn [s' with_queue queue scheduler_schema pending_rows pending_bytes reader exhausted]; [|..|done|done].
    + apply Forall_app. split; [done|]. constructor; [|constructor]. split_and!; [done..|]. by eapply sum_estimates_nonneg.
    + rewrite Hr, !total_rows_app. f_equal. unfold total_rows at 2. simpl. rewrite Hcount, total_rows_count. lia.
    + rewrite Hb, !sum_estimates_app. f_equal. unfold sum_estimates. simpl. lia.
  - split; cbn [s' with_queue scheduler_schema]; [| |done..].
    + intros i Hi. unfold upcoming, s'. cbn [with_queue queue reader]. rewrite Hsplit, !fmap_app, !batches_rows_app.
      rewrite <- !app_assoc. rewrite list_fmap_singleton. cbn [pending_batch].
      rewrite batches_rows_one, Hrows by done. done.
    + unfold upcoming, s'. cbn [with_queue queue reader]. rewrite Hsplit, !fmap_app, !count_rows_app.
      rewrite list_fmap_singleton. cbn [pending_batch]. rewrite count_rows_one, Hcount. unfold count_rows at 4. simpl. lia.
Qed.

Lemma moved_nil_trans s1 s2 s3 : moved s1 [] s2 → moved s2 [] s3 → moved s1 [] s3.
Proof. intros H12 H23. exact (moved_trans _ _ _ _ _ H12 H23). Qed.

Lemma compact_loop_keeps fuel s :
  sched_ok s → (length (queue s) < fuel)%nat →
  keeps s (compact_loop fuel s)
    (λ s', sched_ok s' ∧ moved s [] s' ∧ reader s' = reader s ∧ exhausted s' = exhausted s).
Proof.
  revert s. induction fuel as [|fuel IH]; intros s Hs Hf; [lia|]. cbn [compact_loop].
  destruct (Nat.ltb_spec (length (queue s)) PENDING_BATCH_COMPACTION_FANOUT) as [Hlt|Hge].
  { apply keeps_ok. split_and!; [done|apply moved_refl|done..]. }
  unfold PENDING_BATCH_COMPACTION_FANOUT in *.
  set (kept := take (length (queue s) - 32) (queue s)). set (compacted := drop (length (queue s) - 32) (queue s)).
  assert (queue s = kept ++ compacted) as Hsplit by (symmetry; apply take_drop).
  assert (length compacted = 32%nat) as Hlc by (unfold compacted; rewrite length_drop; lia).
  assert (compacted ≠ []) as Hne by (by destruct compacted).
  destruct (last (queue s)) as [p|] eqn:Hlast.
  2: { apply last_None in Hlast. rewrite Hlast in Hge. simpl in Hge. lia. }
  cbn [fmap option_fmap option_map or_panic mbind res_bind].
  destruct (negb _); [apply keeps_ok; split_and!; [done|apply moved_refl|done..]|].
  destruct (checked_total_ok "pending ingest byte count overflows" 0 (rev (pending_estimated <$> compacted))) as [Hn Hk].
  destruct (checked_total _ _ _) as [est| |]; [|apply keeps_err|done]. cbn [mbind res_bind].
  specialize (Hk est eq_refl). rewrite foldr_add_rev in Hk.
  destruct (_ <? est); [apply keeps_ok; split_and!; [done|apply moved_refl|done..]|].
  pose proof (concat_batches_no_panic (scheduler_schema s) (pending_batch <$> compacted)) as Hcn.
  destruct (concat_batches _ _) as [batch| |] eqn:Hc; [|apply keeps_err|done]. cbn [mbind res_bind].
  destruct (compact_queue s kept compacted (S (compaction_level p)) batch est Hs Hsplit Hne Hc Hk) as [Hs' Hm'].
  set (s' := with_queue _ _ _ _) in *.
  destruct (IH s' Hs') as [Hn' Hk'].
  { cbn [s' with_queue queue]. rewrite length_app. cbn [length]. unfold kept. rewrite length_take. lia. }
  split; [done|]. intros s2 Hs2. destruct (Hk' s2 Hs2) as (G1 & G2 & G3 & G4). split_and!; [done| |done..].
  by eapply moved_nil_trans.
Qed.

(** ** Reading *)

Lemma validate_record_batch_keeps s batch : keeps s (validate_record_batch batch) (λ _, True).
Proof.
  split; [|done]. unfold validate_record_batch. apply bind_no_panic; [|done]. apply mapi_res_no_panic.
  intros j x _. by destruct (validate_full x).
Qed.

(** What is left to read: batches, and the end of the stream. *)
Definition reads_left (s : IngestWindowScheduler) : nat := length (reader s) + (if exhausted s then 0 else 1).

Lemma read_batch_keeps s :
  sched_ok s → exhausted s = false →
  keeps s (read_batch s) (λ s', sched_ok s' ∧ moved s [] s' ∧ (reads_left s' < reads_left s)%nat).
Proof.
  intros Hs Hx. unfold read_batch. destruct (reader s) as [|next rest] eqn:Hr.
  { apply keeps_ok. destruct Hs as [H1' H2' H3' H4' H5']. split_and!.
    - split; try done. cbn. by rewrite Hr in H4'.
    - assert (upcoming (with_reader s [] true (input_batches s)) = upcoming s) as Hu by (unfold upcoming; cbn; by rewrite Hr).
      split; rewrite ?Hu; try done. cbn [with_reader reader]. by rewrite Hr.
    - unfold reads_left. cbn [with_reader reader exhausted]. rewrite Hr, Hx. simpl. lia. }
  pose proof (so_reader _ Hs) as Hrd. rewrite Hr in Hrd. apply Forall_cons in Hrd as [Hb Hrd].
  destruct next as [batch| |]; [|apply keeps_err|done]. cbn [mbind res_bind].
  eapply keeps_bind; [apply validate_record_batch_keeps|]. intros _ _ _.
  case_bool_decide as Hsc; [|apply keeps_err]. cbn [negb]. cbn [with_reader scheduler_schema] in Hsc.
  set (s1 := with_reader s rest (exhausted s) (input_batches s + 1)).
  assert (sched_ok s1) as Hs1.
  { destruct Hs as [H1' H2' H3' H4' H5']. split; try done. cbn. by rewrite Hx. }
  assert (upcoming s = (pending_batch <$> queue s) ++ batch :: ok_batches rest) as Hu by (unfold upcoming; by rewrite Hr).
  assert (upcoming s1 = (pending_batch <$> queue s) ++ ok_batches rest) as Hu1 by done.
  assert (∀ e, Err e ∈ reader s → Err e ∈ rest) as Herr by (rewrite Hr; set_solver).
  destruct (Nat.eqb_spec (batch_rows batch) 0) as [Hz|Hz].
  { apply keeps_ok. split_and!; [done| |].
    - rewrite Hsc in Hb. split; [| |done|done].
      + intros i Hi. rewrite Hu, Hu1, !batches_rows_app, batches_rows_cons.
        rewrite (nil_length_inv (col_rows i batch)); [done|]. by rewrite (col_rows_length (scheduler_schema s)).
      + rewrite Hu, Hu1, !count_rows_app, count_rows_cons. unfold count_rows at 3. simpl. lia.
    - unfold reads_left. cbn [s1 with_reader reader exhausted]. rewrite Hr. simpl. lia. }
  destruct (estimated_batch_size_ok (scheduler_schema s1) batch) as [Hen Hek].
  destruct (estimated_batch_size _ _) as [est| |]; [|apply keeps_err|done]. cbn [mbind res_bind]. specialize (Hek est eq_refl).
  set (s2 := push_back s1 (mkPendingBatch batch est 0)).
  assert (sched_ok s2) as Hs2.
  { destruct Hs1 as [H1' H2' H3' H4' H5']. split; cbn [s2 push_back with_queue queue scheduler_schema pending_rows pending_bytes]; try done.
    - apply Forall_app. split; [done|]. constructor; [|constructor]. split_and!; [by rewrite Hsc in Hb|cbn; lia|done].
    - rewrite total_rows_app, H2'. f_equal. unfold total_rows, rows_in. simpl. lia.
    - rewrite sum_estimates_app, H3'. f_equal. unfold sum_estimates. simpl. lia. }
  destruct (compact_loop_keeps (S (length (queue s2))) s2 Hs2 ltac:(lia)) as [Hcn Hck]. split; [done|]. intros s' Hs'.
  destruct (Hck s' Hs') as (G1 & G2 & G3 & G4). split_and!; [done| |].
  - eapply moved_nil_trans; [|exact G2]. split; [| |done..]; unfold upcoming; cbn [s2 s1 push_back with_queue with_reader queue reader];
      rewrite Hr, fmap_app, <- app_assoc; done.
  - unfold reads_left. rewrite G3, G4. cbn [s2 s1 push_back with_queue with_reader reader exhausted]. rewrite Hr. simpl. lia.
Qed.

Lemma fill_loop_keeps fuel rows bytes s :
  sched_ok s → (reads_left s ≤ fuel)%nat →
  keeps s (fill_loop fuel rows bytes s)
    (λ s', sched_ok s' ∧ moved s [] s' ∧ (rows ≤ pending_rows s' ∨ bytes ≤ pending_bytes s' ∨ exhausted s' = true)).
Proof.
  revert s. induction fuel as [|fuel IH]; intros s Hs Hf; cbn [fill_loop];
    destruct (Z.ltb_spec (pending_rows s) rows), (Z.ltb_spec (pending_bytes s) bytes), (exhausted s) eqn:Hx; cbn [andb negb];
    try (apply keeps_ok; split_and!; [done|apply moved_refl|by auto]).
  - unfold reads_left in Hf. rewrite Hx in Hf. lia.
  - eapply keeps_bind; [by apply read_batch_keeps|]. intros s1 _ (Hs1 & Hm1 & Hlt).
    destruct (IH s1 Hs1 ltac:(lia)) as [Hn Hk]. split; [done|]. intros s' Hs'. destruct (Hk s' Hs') as (G1 & G2 & G3).
    split_and!; [done| |done]. by eapply moved_nil_trans.
Qed.

(** ** Splitting *)

Lemma batch_slice_wf schema b start n :
  batch_wf schema b → (start + n ≤ batch_rows b)%nat → batch_wf schema (batch_slice b start n).
Proof.
  intros [Hs Hc] Hn. split; [done|]. cbn [batch_slice batch_columns batch_rows]. apply Forall2_fmap_r.
  eapply Forall2_impl; [exact Hc|]. intros f a [Ht Hl]. cbv beta delta [compose]. rewrite array_slice_type, array_len_slice. split; [done|lia].
Qed.

Lemma col_rows_slice i b start n : col_rows i (batch_slice b start n) = take n (drop start (col_rows i b)).
Proof.
  unfold col_rows, batch_slice. cbn [batch_columns]. rewrite list_lookup_fmap.
  destruct (batch_columns b !! i) as [a|]; cbn [fmap option_fmap option_map from_option].
  - apply array_rows_slice.
  - by rewrite drop_nil, take_nil.
Qed.

Lemma search_loop_keeps fuel schema b budget low high s :
  (high - low ≤ fuel)%nat → (low ≤ high)%nat →
  keeps s (search_loop fuel schema b budget low high) (λ n, (low ≤ n ≤ high)%nat).
Proof.
  revert low high. induction fuel as [|fuel IH]; intros low high Hf Hl; cbn [search_loop];
    destruct (Nat.ltb_spec low high) as [Hlt|Hge]; try (apply keeps_ok; lia); [lia|].
  set (middle := (low + (high - low + 1) / 2)%nat).
  assert (low < middle ≤ high)%nat as Hm.
  { unfold middle. pose proof (Nat.div_mod_eq (high - low + 1) 2). pose proof (Nat.mod_upper_bound (high - low + 1) 2). lia. }
  destruct (estimated_batch_size_ok schema (batch_slice b 0 middle)) as [Hn _].
  destruct (estimated_batch_size _ _) as [n| |]; [|apply keeps_err|done]. cbn [mbind res_bind].
  destruct (n <=? budget); [destruct (IH middle high) as [G1 G2]|destruct (IH low (middle - 1)%nat) as [G1 G2]]; try lia;
    (split; [done|]; intros k Hk; specialize (G2 k Hk); lia).
Qed.

Lemma split_pending_keeps s schema p rows :
  pending_ok schema p → (0 < rows < batch_rows (pending_batch p))%nat →
  keeps s (split_pending schema p rows) (λ '(prefix, remainder),
    pending_ok schema prefix ∧ pending_ok schema remainder ∧
    pending_batch prefix = batch_slice (pending_batch p) 0 rows ∧
    pending_batch remainder = batch_slice (pending_batch p) rows (batch_rows (pending_batch p) - rows) ∧
    pending_estimated prefix + pending_estimated remainder = pending_estimated p).
Proof.
  intros (Hwf & Hr & He) Hrows. unfold split_pending.
  destruct (estimated_batch_size_ok schema (batch_slice (pending_batch p) 0 rows)) as [Hn Hk].
  destruct (estimated_batch_size _ _) as [n| |]; [|apply keeps_err|done]. cbn [mbind res_bind]. specialize (Hk n eq_refl).
  unfold checked_sub. destruct (Z.leb_spec n (pending_estimated p)); [|apply keeps_err]. cbn [ok_or mbind res_bind].
  apply keeps_ok. unfold pending_ok. cbn [pending_batch pending_estimated]. split_and!;
    try (apply batch_slice_wf; [done|lia]); cbn [batch_slice batch_rows]; try done; lia.
Qed.

(** The first pending batch, or its first rows, leave the queue. *)
Definition select (p : PendingBatch) (rows : nat) (s : IngestWindowScheduler)
    : res Error (PendingBatch * IngestWindowScheduler) :=
  if (rows =? batch_rows (pending_batch p))%nat then Ok (p, s)
  else
    '(prefix, remainder) ← split_pending (scheduler_schema s) p rows;
    let s := push_front s remainder in
    Ok (prefix, with_counts s (coalesced_windows s) (split_windows s + 1)).

Lemma pop_front_ok s p q :
  sched_ok s → queue s = p :: q →
  ∃ s', pop_front s = Ok (Some (p, s')) ∧ sched_ok s' ∧ pending_ok (scheduler_schema s) p ∧ queue s' = q ∧ reader s' = reader s ∧
    same_config s s' ∧ push_front s' p = s.
Proof.
  intros [Hq Hr Hb Hrd Hx] Hs. unfold pop_front. rewrite Hs in *. apply Forall_cons in Hq as [Hp Hq].
  assert (total_rows (p :: q) = rows_in p + total_rows q) as Htr by done.
  assert (sum_estimates (p :: q) = pending_estimated p + sum_estimates q) as Hse by done.
  pose proof (total_rows_nonneg q). pose proof (sum_estimates_nonneg _ _ Hq).
  rewrite (proj2 (Z.ltb_ge _ _)) by lia. rewrite (proj2 (Z.ltb_ge _ _)) by lia. cbn [orb]. eexists. split; [done|].
  split_and!; try done.
  - split; cbn [with_queue queue scheduler_schema pending_rows pending_bytes reader exhausted]; try done; lia.
  - unfold push_front, with_queue. cbn. destruct s. cbn in *. subst. f_equal; lia.
Qed.

Lemma select_keeps s p rows :
  sched_ok s → pending_ok (scheduler_schema s) p → (0 < rows ≤ batch_rows (pending_batch p))%nat →
  keeps s (select p rows s) (λ '(selected, s'),
    sched_ok s' ∧ pending_ok (scheduler_schema s) selected ∧ moved (push_front s p) [pending_batch selected] s' ∧
    batch_rows (pending_batch selected) = rows ∧ reader s' = reader s).
Proof.
  intros Hs Hp Hrows. unfold select. destruct (Nat.eqb_spec rows (batch_rows (pending_batch p))) as [->|Hne].
  { apply keeps_ok. split_and!; try done. split; [| |done..].
    - intros i Hi. rewrite batches_rows_one. done.
    - rewrite count_rows_one. done. }
  eapply keeps_bind; [apply split_pending_keeps; [done|lia]|]. intros [prefix remainder] _ (Hpre & Hrem & Epre & Erem & Hest).
  apply keeps_ok. destruct Hp as (Hwf & Hr & He). destruct Hs as [Hq Hsr Hb Hrd Hx].
  assert (batch_rows (pending_batch prefix) = rows) as Hbp by (by rewrite Epre).
  assert (batch_rows (pending_batch remainder) = batch_rows (pending_batch p) - rows)%nat as Hbr by (by rewrite Erem).
  split_and!; try done.
  - split; cbn [push_front with_counts with_queue queue scheduler_schema pending_rows pending_bytes reader exhausted]; try done.
    + by constructor.
    + change (total_rows (remainder :: queue s)) with (rows_in remainder + total_rows (queue s)). lia.
    + change (sum_estimates (remainder :: queue s)) with (pending_estimated remainder + sum_estimates (queue s)). lia.
  - split; [| |done..].
    + intros i Hi. unfold upcoming. cbn [push_front with_counts with_queue queue reader]. rewrite !fmap_cons. cbn [app].
      rewrite !batches_rows_cons, Epre, Erem, !col_rows_slice. rewrite app_assoc. f_equal.
      rewrite app_nil_r, drop_0. rewrite (take_ge (drop rows _)); [by rewrite take_drop|].
      rewrite length_drop, (col_rows_length (scheduler_schema s)) by done. lia.
    + unfold upcoming. cbn [push_front with_counts with_queue queue reader]. rewrite !fmap_cons. cbn [app].
      rewrite !count_rows_cons, Hbp, Hbr. unfold count_rows at 2. simpl. lia.
Qed.

(** ** Staging *)

Lemma rows_within_budget_keeps s schema b budget :
  keeps s (rows_within_budget schema b budget) (λ n, (n ≤ batch_rows b)%nat).
Proof.
  destruct (search_loop_keeps (batch_rows b) schema b budget 0 (batch_rows b) s) as [Hn Hk]; [lia..|].
  split; [done|]. intros n Hn'. by apply Hk.
Qed.

Lemma pending_rows_count s : sched_ok s → pending_rows s = Z.of_nat (count_rows (pending_batch <$> queue s)).
Proof. intros Hs. rewrite (so_rows _ Hs). apply total_rows_count. Qed.

Lemma moved_queue s bs s' :
  moved s bs s' → reader s' = reader s →
  count_rows (pending_batch <$> queue s) = (count_rows bs + count_rows (pending_batch <$> queue s'))%nat.
Proof. intros [_ Hc _ _] Hr. unfold upcoming in Hc. rewrite !count_rows_app, Hr in Hc. lia. Qed.

(** What [take_staging] took: batches of rows off the front of the queue, at
    most [rows] of them, and at least one when a row may be oversized. *)
Definition taken (s : IngestWindowScheduler) (rows : Z) (must : Prop) (staging : list PendingBatch)
    (r : list PendingBatch * IngestWindowScheduler) : Prop :=
  ∃ new, r.1 = staging ++ new ∧ sched_ok r.2 ∧ Forall (pending_ok (scheduler_schema s)) new ∧
    moved s (pending_batch <$> new) r.2 ∧ reader r.2 = reader s ∧ total_rows new ≤ rows ∧ (must → new ≠ []).

Lemma taken_none s rows (must : Prop) staging : sched_ok s → 0 ≤ rows → (¬ must) → taken s rows must staging (staging, s).
Proof.
  intros Hs Hr Hm. exists []. cbn [fst snd]. rewrite app_nil_r. split_and!; try done.
Qed.

Lemma taken_one s s' rows (must : Prop) staging p :
  sched_ok s' → pending_ok (scheduler_schema s) p → moved s [pending_batch p] s' → reader s' = reader s → rows_in p ≤ rows →
  taken s rows must staging (staging ++ [p], s').
Proof.
  intros Hs Hp Hm Hr Hrows. exists [p]. cbn [fst snd]. split_and!; try done; [by constructor|].
  change (total_rows [p]) with (rows_in p + 0). lia.
Qed.

Lemma taken_more s s' rows (must must' : Prop) staging p r :
  moved s [pending_batch p] s' → pending_ok (scheduler_schema s) p → reader s' = reader s →
  taken s' (rows - rows_in p) must' (staging ++ [p]) r → taken s rows must staging r.
Proof.
  intros Hm Hp Hr (new & H1' & H2' & H3' & H4' & H5' & H6' & _). exists (p :: new). split_and!; try done.
  - by rewrite <- app_assoc in H1'.
  - constructor; [done|]. destruct (mv_config _ _ _ Hm) as [<- _]. done.
  - exact (moved_trans _ _ _ _ _ Hm H4').
  - congruence.
  - change (total_rows (p :: new)) with (rows_in p + total_rows new). lia.
Qed.

Lemma take_loop_keeps fuel allow rows bytes staging s :
  sched_ok s → 0 ≤ rows → (count_rows (pending_batch <$> queue s) < fuel)%nat →
  keeps s (take_loop fuel allow rows bytes staging s)
    (taken s rows (allow = true ∧ staging = [] ∧ 0 < rows ∧ queue s ≠ []) staging).
Proof.
  revert rows bytes staging s. induction fuel as [|fuel IH]; intros rows bytes staging s Hs Hrows Hf; [lia|]. cbn [take_loop].
  destruct (Z.ltb_spec 0 rows) as [Hpos|]; cbn [negb]; [|apply keeps_ok, taken_none; [done..|lia]].
  destruct (queue s) as [|p q] eqn:Hq.
  { unfold pop_front. rewrite Hq. apply keeps_ok, taken_none; naive_solver. }
  destruct (pop_front_ok s p q Hs Hq) as (s1 & -> & Hs1 & Hp & Hq1 & Hr1 & Hcfg & Hback). cbn [mbind res_bind].
  match goal with |- keeps _ (?m ≫= _) _ => set (by_bytes := m) end.
  assert (keeps s by_bytes (λ n, (n ≤ batch_rows (pending_batch p))%nat)) as Hby.
  { unfold by_bytes. destruct (_ <=? _); [apply keeps_ok; lia|apply rows_within_budget_keeps]. }
  eapply keeps_bind; [exact Hby|]. intros n _ Hn. cbv beta zeta in *. clear by_bytes Hby.
  set (rows' := Z.to_nat (Z.min (Z.of_nat n) rows)).
  destruct ((rows' =? 0)%nat && _) eqn:Hstop.
  { apply keeps_ok. rewrite Hback. apply taken_none; [done..|]. intros (-> & -> & _ & _).
    rewrite bool_decide_true in Hstop by done. by rewrite andb_false_r in Hstop. }
  pose proof Hp as (_ & Hprows & _).
  assert (scheduler_schema s1 = scheduler_schema s) as Hsc by apply Hcfg.
  change (if (Nat.max rows' 1 =? batch_rows (pending_batch p))%nat then _ else _) with (select p (Nat.max rows' 1) s1).
  destruct (select_keeps s1 p (Nat.max rows' 1) Hs1) as [Hsn Hsk]; [by rewrite Hsc|lia|].
  destruct (select p _ s1) as [[sel s2]| |]; [|apply keeps_err|done]. cbn [mbind res_bind].
  destruct (Hsk _ eq_refl) as (Hs2 & Hsel & Hm & Hbr & Hr2). rewrite Hback in Hm. rewrite Hsc in Hsel.
  assert (rows_in sel ≤ rows) as Hle by (unfold rows_in; lia).
  assert (reader s2 = reader s) as Hrd by congruence.
  rewrite (proj2 (Z.ltb_ge _ _)) by done.
  destruct (_ =? 0); [apply keeps_ok; by apply taken_one|].
  pose proof (moved_queue _ _ _ Hm Hrd) as Hcq. rewrite Hq, count_rows_one in Hcq.
  match goal with |- keeps _ (take_loop _ _ _ ?b _ _) _ => destruct (IH (rows - rows_in sel) b (staging ++ [sel]) s2 Hs2) as [G1 G2] end;
    [lia|lia|].
  split; [done|]. intros r Hr. eapply taken_more; [done..|]. by apply G2.
Qed.
End with_arrow.
