(* ===== verification/StreamProofs.v ===== *)
(** A bulk ingest from the stream to the server: the windows the scheduler
    builds hold the rows of the stream, in order and once each, and what is
    uploaded for a column of a window are the rows of that window. *)

From stdpp Require Import base list numbers strings gmap sets.
From S2P Require Import Prelude RustStd Types Calendar ArrowData Encode EncodeProofs Codec Chunked Errors Template TemplateProofs Compression CompressionProofs Ingest IngestProofs SchedulerProofs.
Local Open Scope Z_scope.

(** The budgets that make progress possible: a row may be taken at all. *)
Definition budget_ok (s : IngestWindowScheduler) : Prop :=
  match configured_rows s with Some rows => 0 < rows ≤ usize_max | None => 0 < window_budget s end.

Lemma budget_ok_config s s' : same_config s s' → budget_ok s → budget_ok s'.
Proof. intros (_ & Hb & Hr & _). unfold budget_ok. by rewrite Hb, Hr. Qed.

(** A window without rows is as good as new. *)
Definition fresh (w : EncodedIngestWindow) : Prop :=
  window_rows w = 0 → window_estimated_bytes w = 0 ∧ incompressible w = false.

Definition within_rows (s : IngestWindowScheduler) (w : EncodedIngestWindow) : Prop :=
  match configured_rows s with Some rows => window_rows w ≤ rows | None => True end.

(** Nothing is pending and the stream has ended. *)
Definition drained (s : IngestWindowScheduler) : Prop := queue s = [] ∧ reader s = [].

Section with_arrow.
Context `{ArrowStream, Chrono, Half, Lz4, CursorDisplay, SqlFormat, CharTables}.
Context `{!ArrowStreamLaws}.

Lemma no_rows_no_queue s : sched_ok s → pending_rows s = 0 → queue s = [].
Proof.
  intros Hs Hz. rewrite (pending_rows_count _ Hs) in Hz. destruct (queue s) as [|p q] eqn:Hq; [done|].
  pose proof (so_queue _ Hs) as Hp. rewrite Hq in Hp. apply Forall_cons in Hp as [(_ & Hp & _) _].
  rewrite fmap_cons, count_rows_cons in Hz. lia.
Qed.

Lemma fill_staging_keeps rows bytes s :
  sched_ok s →
  keeps s (fill_staging s rows bytes)
    (λ s', sched_ok s' ∧ moved s [] s' ∧ (0 < rows → 0 < bytes → pending_rows s' = 0 → drained s')).
Proof.
  intros Hs. destruct (fill_loop_keeps (S (length (reader s))) rows bytes s Hs) as [Hn Hk].
  { unfold reads_left. destruct (exhausted s); lia. }
  split; [done|]. intros s' Hs'. destruct (Hk s' Hs') as (Hs1 & Hm & Hor). split_and!; [done..|].
  intros Hr Hb Hz. pose proof (no_rows_no_queue s' Hs1 Hz) as Hq. split; [done|].
  destruct Hor as [?|[Hle|Hx]]; [lia| |by apply so_exhausted].
  rewrite (so_bytes _ Hs1), Hq in Hle. unfold sum_estimates in Hle. simpl in Hle. lia.
Qed.

Lemma take_staging_keeps s rows bytes allow :
  sched_ok s → 0 ≤ rows →
  keeps s (take_staging s rows bytes allow) (taken s rows (allow = true ∧ 0 < rows ∧ queue s ≠ []) []).
Proof.
  intros Hs Hr. destruct (take_loop_keeps (2 + Z.to_nat (pending_rows s)) allow rows bytes [] s Hs Hr) as [Hn Hk].
  { rewrite (pending_rows_count _ Hs). lia. }
  split; [done|]. intros r Hr'. destruct (Hk r Hr') as (new & ? & ? & ? & ? & ? & ? & Hm). exists new. split_and!; try done.
  intros (? & ? & ?). by apply Hm.
Qed.

(** ** One window *)

(** From [s], [w] grew by rows off the front of the stream. *)
Definition grown (s : IngestWindowScheduler) (w : EncodedIngestWindow) (rows : nat → list (option value))
    (r : EncodedIngestWindow * IngestWindowScheduler) : Prop :=
  ∃ bs, sched_ok r.2 ∧ moved s bs r.2 ∧ window_holds (scheduler_schema s) r.1 (λ i, rows i ++ batches_rows i bs) ∧
    window_rows r.1 = window_rows w + Z.of_nat (count_rows bs) ∧ within_rows s r.1 ∧
    (window_rows r.1 = 0 → drained r.2).

Lemma window_holds_ext schema w rows rows' :
  (∀ i, (i < length schema)%nat → rows i = rows' i) → window_holds schema w rows → window_holds schema w rows'.
Proof.
  intros He (enc & Hw & Hn & Hret & Hr). exists enc. split_and!; try done. intros i Hi. rewrite <- He by done. by apply Hr.
Qed.

Lemma grown_stop s s' w rows :
  sched_ok s' → moved s [] s' → window_holds (scheduler_schema s) w rows → within_rows s w →
  (window_rows w = 0 → drained s') → grown s w rows (w, s').
Proof.
  intros Hs Hm Hh Hr Hd. exists []. cbn [fst snd]. split_and!; try done; [|unfold count_rows; simpl; lia].
  eapply window_holds_ext; [|exact Hh]. intros i _. by rewrite app_nil_r.
Qed.

Lemma grown_trans s s1 w w1 rows bs r :
  moved s bs s1 → window_rows w1 = window_rows w + Z.of_nat (count_rows bs) →
  grown s1 w1 (λ i, rows i ++ batches_rows i bs) r → grown s w rows r.
Proof.
  intros Hm Hw (bs' & Hs & Hm' & Hh & Hr & Hin & Hd). pose proof (mv_config _ _ _ Hm) as (Hsc & _ & Hc & _).
  exists (bs ++ bs'). split_and!; [done|by eapply moved_trans| | | |done].
  - rewrite Hsc in Hh. eapply window_holds_ext; [|exact Hh]. intros i _. cbv beta. by rewrite batches_rows_app, app_assoc.
  - rewrite count_rows_app. lia.
  - unfold within_rows in *. by rewrite <- Hc.
Qed.

Lemma remaining_rows_ok s w :
  budget_ok s → within_rows s w → 0 ≤ window_rows w →
  ∃ n, remaining_rows_of s w = Ok n ∧ 0 ≤ n ∧ (window_rows w = 0 → 0 < n) ∧
    ∀ w', window_rows w' ≤ window_rows w + n → within_rows s w'.
Proof.
  unfold budget_ok, within_rows, remaining_rows_of. intros Hb Hw Hn. destruct (configured_rows s) as [rows|].
  - rewrite (proj2 (Z.ltb_ge _ _)) by lia. eexists. split; [done|]. split_and!; [lia..|]. intros w' Hw'. lia.
  - exists usize_max. unfold usize_max. split; [done|]. split_and!; [lia..|done].
Qed.

Lemma remaining_bytes_pos s w :
  budget_ok s → fresh w → window_rows w = 0 →
  0 < match configured_rows s with
      | Some _ => PENDING_BATCH_COMPACTION_MAX_BYTES
      | None => saturating_sub (window_budget s) (window_estimated_bytes w)
      end.
Proof.
  unfold budget_ok. intros Hb Hf Hz. destruct (Hf Hz) as [He _]. rewrite He. unfold saturating_sub.
  destruct (configured_rows s); [done|lia].
Qed.

Lemma remaining_staging_range s w n :
  0 ≤ n → 0 ≤ remaining_staging_bytes s n w ∧ (fresh w → window_rows w = 0 → remaining_staging_bytes s n w = n).
Proof.
  intros Hn. unfold remaining_staging_bytes, saturating_sub. split.
  - destruct (_ && _); lia.
  - intros Hf Hz. destruct (Hf Hz) as [_ ->]. by rewrite andb_false_r.
Qed.

Lemma taken_estimated message new :
  keeps (A := Z) (scheduler_new [] [] 0 0 0 None WC_None) (checked_total message 0 (pending_estimated <$> new)) (λ _, True).
Proof. split; [|done]. apply checked_total_ok. Qed.

(** The staged batches end up in the window. *)
Lemma append_taken s1 s2 w rows new estimated n :
  sched_ok s2 → moved s1 (pending_batch <$> new) s2 → Forall (pending_ok (scheduler_schema s1)) new → new ≠ [] →
  window_holds (scheduler_schema s1) w rows → 0 ≤ window_rows w →
  total_rows new ≤ n → (∀ w', window_rows w' ≤ window_rows w + n → within_rows s1 w') →
  keeps s1 (window_append w (scheduler_schema s2) new estimated) (λ w',
    window_holds (scheduler_schema s1) w' (λ i, rows i ++ batches_rows i (pending_batch <$> new)) ∧
    window_rows w' = window_rows w + Z.of_nat (count_rows (pending_batch <$> new)) ∧
    (0 < count_rows (pending_batch <$> new))%nat ∧ within_rows s1 w').
Proof.
  intros Hs2 Hm Hp Hne Hh Hn Hle Hin. destruct (mv_config _ _ _ Hm) as (-> & _).
  assert (Forall (batch_wf (scheduler_schema s1)) (pending_batch <$> new)) as Hwf.
  { apply Forall_fmap. eapply Forall_impl; [exact Hp|]. by intros p (? & _). }
  destruct (window_append_holds _ w rows new estimated Hh Hwf) as [Hnp Hok]. split; [done|]. intros w' Hw'.
  destruct (Hok w' Hw') as (Hh' & Hr' & _ & _). rewrite total_rows_count in *.
  assert (0 < count_rows (pending_batch <$> new))%nat.
  { destruct new as [|p new]; [done|]. apply Forall_cons in Hp as [(_ & Hp & _) _]. rewrite fmap_cons, count_rows_cons. lia. }
  split_and!; [done..|]. apply Hin. lia.
Qed.

Lemma window_loop_grows fuel s w rows :
  sched_ok s → budget_ok s → fresh w → within_rows s w → window_holds (scheduler_schema s) w rows →
  (count_rows (upcoming s) < fuel)%nat →
  keeps s (window_loop fuel s w) (grown s w rows).
Proof.
  revert s w rows. induction fuel as [|fuel IH]; intros s w rows Hs Hb Hfr Hin Hh Hf; [lia|]. cbn [window_loop].
  assert (0 ≤ window_rows w) as Hwn by (destruct Hh as (_ & _ & ? & _); done).
  destruct (remaining_rows_ok s w Hb Hin Hwn) as (n & -> & Hn0 & Hnpos & Hnin). cbn [mbind res_bind].
  destruct (Z.eqb_spec n 0) as [|Hn]; [apply keeps_ok, grown_stop; [done|apply moved_refl|done..|lia]|].
  pose proof (remaining_bytes_pos s w Hb Hfr) as Hbp.
  set (rb := match configured_rows s with Some _ => _ | None => _ end) in *.
  assert (0 ≤ rb) as Hrb by (unfold rb, saturating_sub; destruct (configured_rows s); [done|lia]).
  destruct (Z.eqb_spec rb 0) as [|Hrb0]; [apply keeps_ok, grown_stop; [done|apply moved_refl|done..|lia]|].
  destruct (remaining_staging_range s w rb Hrb) as [Hrs Hrsf]. specialize (Hrsf Hfr).
  destruct (Z.eqb_spec (remaining_staging_bytes s rb w) 0) as [|Hrs0]; [apply keeps_ok, grown_stop; [done|apply moved_refl|done..|lia]|].
  set (sb := Z.min _ ENCODE_STAGING_BYTES). assert (0 < sb) as Hsb by (unfold sb, ENCODE_STAGING_BYTES; lia).
  eapply keeps_bind; [by apply fill_staging_keeps|]. intros s1 _ (Hs1 & Hm1 & Hd1).
  destruct (Z.eqb_spec (pending_rows s1) 0) as [Hp0|Hp0]; [apply keeps_ok, grown_stop; try done; intros _; apply Hd1; lia|].
  destruct (mv_config _ _ _ Hm1) as (Hsc1 & _ & Hcr1 & _).
  destruct (take_staging_keeps s1 n sb (window_rows w =? 0) Hs1 Hn0) as [Htn Htk].
  destruct (take_staging _ _ _ _) as [[staged s2]| |]; [|apply keeps_err|done]. cbn [mbind res_bind].
  destruct (Htk _ eq_refl) as (new & Hst & Hs2 & Hpk & Hm2 & Hr2 & Hle & Hmust). cbn [fst snd app] in *. subst staged.
  assert (window_rows w = 0 → new ≠ []) as Hne.
  { intros Hz. apply Hmust. split; [by apply Z.eqb_eq|]. split; [lia|]. intros Hq. apply Hp0.
    by rewrite (so_rows _ Hs1), Hq. }
  assert (moved s (pending_batch <$> new) s2) as Hm by exact (moved_trans _ _ _ _ _ Hm1 Hm2).
  case_bool_decide as Hnew.
  { destruct new; [|done]. apply keeps_ok, grown_stop; try done. intros Hz. by destruct (Hne Hz). }
  assert (new ≠ []) as Hnew' by (by destruct new).
  destruct (taken_estimated "pending ingest byte count overflows" new) as [Hcn _].
  destruct (checked_total _ _ _) as [est| |]; [|apply keeps_err|done]. cbn [mbind res_bind]. rewrite <- Hsc1 in Hh.
  assert (∀ w', window_rows w' ≤ window_rows w + n → within_rows s1 w') as Hnin1 by (unfold within_rows in *; rewrite Hcr1; done).
  destruct (append_taken s1 s2 w rows new est n Hs2 Hm2) as [Han Hak]; [done..|].
  destruct (window_append _ _ _ _) as [w'| |]; [|apply keeps_err|done]. cbn [mbind res_bind].
  destruct (Hak w' eq_refl) as (Hh' & Hrows' & Hpos & Hin').
  pose proof (mv_config _ _ _ Hm) as Hcfg.
  destruct (should_finish_automatic_window s2 w').
  - apply keeps_ok. exists (pending_batch <$> new). cbn [fst snd]. split_and!; [done..|by rewrite <- Hsc1|done| |lia].
    unfold within_rows in *. by rewrite <- Hcr1.
  - destruct (mv_config _ _ _ Hm2) as (Hsc2 & _ & Hcr2 & _).
    destruct (IH s2 w' (λ i, rows i ++ batches_rows i (pending_batch <$> new))) as [G1 G2]; [done| | | | | |].
    + by eapply budget_ok_config.
    + intros Hz. lia.
    + unfold within_rows in *. by rewrite Hcr2.
    + by rewrite Hsc2.
    + pose proof (mv_count _ _ _ Hm). lia.
    + split; [done|]. intros r Hr. eapply grown_trans; [done..|]. by apply G2.
Qed.

(** ** All windows *)

(** A window of the stream: some rows, at most the configured number. *)
Definition next_ok (s : IngestWindowScheduler) (r : option EncodedIngestWindow * IngestWindowScheduler) : Prop :=
  sched_ok r.2 ∧
  match r.1 with
  | None => drained r.2 ∧ moved s [] r.2
  | Some w => ∃ bs, moved s bs r.2 ∧ window_holds (scheduler_schema s) w (λ i, batches_rows i bs) ∧
      (0 < count_rows bs)%nat ∧ window_rows w = Z.of_nat (count_rows bs) ∧ within_rows s w
  end.

Lemma next_window_ok s : sched_ok s → budget_ok s → keeps s (next_window s) (next_ok s).
Proof.
  intros Hs Hb. unfold next_window. pose proof (window_for_schema_no_panic (scheduler_schema s) (scheduler_wire s)) as Hfn.
  destruct (window_for_schema _ _) as [w| |] eqn:Hw; [|apply keeps_err|done]. cbn [mbind res_bind].
  pose proof Hw as Hinc. unfold window_for_schema in Hinc. apply bind_ok in Hinc as (cols & _ & [= Hinc]).
  destruct (window_for_schema_holds _ _ _ Hw) as (Hh & Hr & He & _).
  destruct (window_loop_grows (S (rows_left s)) s w (λ _, [])) as [Hn Hk]; [done..| | |done| |].
  { intros _. by rewrite <- Hinc. } { unfold within_rows, budget_ok in *. destruct (configured_rows s); [lia|done]. }
  { rewrite rows_left_upcoming. lia. }
  destruct (window_loop _ _ _) as [[w1 s1]| |]; [|apply keeps_err|done]. cbn [mbind res_bind].
  destruct (Hk _ eq_refl) as (bs & Hs1 & Hm & Hh1 & Hr1 & Hin & Hd). cbn [fst snd] in *. rewrite Hr, Z.add_0_l in Hr1.
  destruct (Z.eqb_spec (window_rows w1) 0) as [Hz|Hz].
  { apply keeps_ok. split; [done|]. cbn [fst snd]. split; [by apply Hd|]. rewrite Hr1 in Hz. destruct Hm as [M1 M2 M3 M4].
    split; [|simpl; lia|done..]. intros i Hi. rewrite M1 by done. f_equal. destruct Hh1 as (enc & _ & _ & _ & Hlen).
    destruct (Hlen i Hi) as [_ Hl]. apply nil_length_inv. rewrite app_nil_l in Hl. lia. }
  destruct (window_finish_holds _ _ _ Hh1) as (w2 & -> & Hh2 & (_ & _ & Hr2 & _)). cbn [mbind res_bind]. apply keeps_ok.
  destruct Hs1 as [S1 S2 S3 S4 S5], Hm as [M1 M2 M3 M4]. split; [by split|]. exists bs. split; [by split|]. split; [done|].
  split; [lia|]. split; [congruence|]. unfold within_rows in *. by rewrite Hr2.
Qed.

(** The windows [ws] hold the rows of the stream [s], which ends in [s']. *)
Definition windows_ok (s : IngestWindowScheduler) (r : list EncodedIngestWindow * IngestWindowScheduler) : Prop :=
  drained r.2 ∧ (∀ e, Err e ∉ reader s) ∧
  ∃ parts, Forall2 (λ w part, window_holds (scheduler_schema s) w part ∧ 0 < window_rows w ∧ within_rows s w) r.1 parts ∧
    ∀ i, (i < length (scheduler_schema s))%nat → concat ((λ part, part i) <$> parts) = batches_rows i (upcoming s).

Lemma drained_rows s i : drained s → batches_rows i (upcoming s) = [].
Proof. intros [Hq Hr]. unfold upcoming. by rewrite Hq, Hr. Qed.

Lemma drained_errors s s' bs e : moved s bs s' → drained s' → Err e ∉ reader s.
Proof. intros Hm [_ Hr] He. apply (mv_errors _ _ _ Hm) in He. rewrite Hr in He. by apply not_elem_of_nil in He. Qed.

Lemma windows_loop_ok fuel s :
  sched_ok s → budget_ok s → (count_rows (upcoming s) < fuel)%nat → keeps s (windows_loop fuel s) (windows_ok s).
Proof.
  revert s. induction fuel as [|fuel IH]; intros s Hs Hb Hf; [lia|]. cbn [windows_loop].
  eapply keeps_bind; [by apply next_window_ok|]. intros [[w|] s1] _ [Hs1 Hok]; cbn [fst snd] in *.
  - destruct Hok as (bs & Hm & Hh & Hpos & Hr & Hin). pose proof (mv_config _ _ _ Hm) as Hcfg. pose proof (mv_count _ _ _ Hm).
    destruct (IH s1 Hs1) as [Hn Hk]; [by eapply budget_ok_config|lia|].
    destruct (windows_loop fuel s1) as [[ws s2]| |]; [|apply keeps_err|done]. cbn [mbind res_bind]. apply keeps_ok.
    destruct (Hk _ eq_refl) as (Hd & He & parts & Hp & Hrows). cbn [fst snd] in *. destruct Hcfg as (Hsc & _ & Hcr & _).
    split; [done|]. split; [intros e Hin'; by apply (He e), (mv_errors _ _ _ Hm)|].
    exists ((λ i, batches_rows i bs) :: parts). split.
    + constructor; [split_and!; [done|lia|done]|]. eapply Forall2_impl; [exact Hp|]. intros w' part. unfold within_rows.
      by rewrite Hsc, Hcr.
    + intros i Hi. rewrite fmap_cons. cbn [concat]. rewrite Hrows by (by rewrite Hsc). by rewrite (mv_rows _ _ _ Hm).
  - destruct Hok as [Hd Hm]. apply keeps_ok. split; [done|]. split; [intros e; by eapply drained_errors|].
    exists []. split; [constructor|]. intros i Hi. rewrite (mv_rows _ _ _ Hm) by done. by rewrite drained_rows.
Qed.

Lemma scheduler_new_ok r schema budget physical incompressible configured wire :
  reader_ok r → sched_ok (scheduler_new r schema budget physical incompressible configured wire).
Proof. intros Hr. by split. Qed.

Context `{!Lz4Laws}.

(** What the server receives for column [i] of a window. *)
Definition window_delivers (schema : list Field) (w : EncodedIngestWindow) (part : nat → list (option value)) : Prop :=
  ∀ i field window_bytes, schema !! i = Some field →
    match upload_file schema w window_bytes (column_file i) with
    | Ok (chunks, _) => ∃ content, delivered (uses_wire_lz4 w) chunks = Some content ∧ file_rows field content (part i)
    | Err _ => retained_batches w ≠ []
    | Panic => False
    end.

(** C6. A bulk ingest sends every row of the stream once and in order.  The
    thread that builds the windows terminates without a panic; when it ends
    without an error, no error of the stream went unnoticed, the stream is used
    up, every window has at least one row and at most the configured number,
    the files uploaded for a window are encodings of the window's rows, and for
    every column the rows of the windows, one after the other, are the rows of
    the batches of the stream.  This holds whatever the batch sizes, the
    budgets, compaction, splitting, compression and retained Arrow data. *)
Theorem ingest_delivers_stream r schema budget physical incompressible configured wire :
  let s := scheduler_new r schema budget physical incompressible configured wire in
  reader_ok r → budget_ok s → Z.of_nat (length schema) ≤ usize_max →
  match ingest_windows s with
  | Ok (ws, s') =>
      drained s' ∧ (∀ e, Err e ∉ r) ∧
      ∃ parts, Forall2 (λ w part, 0 < window_rows w ∧ within_rows s w ∧ window_delivers schema w part) ws parts ∧
        ∀ i, (i < length schema)%nat → concat ((λ part, part i) <$> parts) = batches_rows i (ok_batches r)
  | Err _ => True
  | Panic => False
  end.
Proof.
  intros s Hr Hb Hmax. destruct (windows_loop_ok (S (rows_left s)) s) as [Hn Hk]; [by apply scheduler_new_ok|done| |].
  { rewrite rows_left_upcoming. lia. }
  unfold ingest_windows. destruct (windows_loop _ _) as [[ws s']| |]; [|done..].
  destruct (Hk _ eq_refl) as (Hd & He & parts & Hp & Hrows). split; [done|]. split; [done|]. exists parts. split; [|done].
  eapply Forall2_impl; [exact Hp|]. intros w part (Hh & Hpos & Hin). split_and!; [done..|]. intros i field window_bytes Hf.
  by apply upload_file_rows.
Qed.
End with_arrow.

(** ** Concrete inputs *)

(** Instances of the parameters: run lengths in place of LZ4, and batches of
    primitive columns without nulls and of strings concatenated. *)

Definition rle (input : bytes) : bytes :=
  match input with
  | v :: _ => if forallb (λ x, x =? v) input then [1; v; len input] else 0 :: input
  | [] => [0]
  end.
Definition unrle (output : bytes) : option bytes :=
  match output with
  | flag :: rest =>
      if flag =? 0 then Some rest
      else match rest with [v; n] => Some (replicate (Z.to_nat n) v) | _ => None end
  | [] => None
  end.

Lemma unrle_rle input : unrle (rle input) = Some input.
Proof.
  destruct input as [|v input]; [done|]. unfold rle. destruct (forallb _ (v :: input)) eqn:Hall; [|done].
  cbn [unrle]. change (1 =? 0) with false. cbv iota. f_equal. apply replicate_as_Forall_2; [lia|].
  apply Is_true_true, forallb_True in Hall. eapply Forall_impl; [exact Hall|]. intros x Hx. apply Is_true_true in Hx. lia.
Qed.

#[global] Instance rle_lz4 : Lz4 := {|
  block_compress input := Some (rle input); block_decompress output _ := unrle output;
  frame_compress input := Some (rle input); frame_decode := unrle |}.

#[global] Instance rle_lz4_laws : Lz4Laws.
Proof. split; simpl; intros input output [= <-]; apply unrle_rle. Qed.

#[global] Instance no_cursor_text : CursorDisplay := {| cursor_error_text _ := [] |}.

Definition append_arrays (a b : ArrayRef) : option ArrayRef :=
  match a, b with
  | APrimitive t v None, APrimitive _ v' None => Some (APrimitive t (v ++ v') None)
  | ABytes t v, ABytes _ v' => Some (ABytes t (v ++ v'))
  | _, _ => None
  end.

Fixpoint append_column_lists (cs cs' : list ArrayRef) : option (list ArrayRef) :=
  match cs, cs' with
  | [], [] => Some []
  | a :: cs, b :: cs' => c ← append_arrays a b; cs ← append_column_lists cs cs'; Some (c :: cs)
  | _, _ => None
  end.

Fixpoint append_batches (b : RecordBatch) (bs : list RecordBatch) : option RecordBatch :=
  match bs with
  | [] => Some b
  | b' :: bs =>
      cs ← append_column_lists (batch_columns b) (batch_columns b');
      append_batches (mkRecordBatch (batch_schema b) cs (batch_rows b + batch_rows b')) bs
  end.

#[global] Instance plain_arrow_stream : ArrowStream := {|
  validate_full _ := None;
  array_buffers a := [mkArrowBuffer 64 (8 * Z.of_nat (array_len a)) 0 (8 * Z.of_nat (array_len a))];
  concat_batches _ bs :=
    match bs with
    | b :: bs => ok_or (append_batches b bs) (error "unsupported array" NotImplemented)
    | [] => Err (error "no batches" InvalidArguments)
    end |}.

Lemma rows_of_app {A} row (v v' : list A) : rows_of row (v ++ v') None = rows_of row v None ++ rows_of 0 v' None.
Proof.
  assert (∀ k (l : list A), rows_of k l None = Some <$> l) as He.
  { intros k l. revert k. induction l as [|x l IH]; intros k; [done|]. cbn [rows_of is_null]. by rewrite IH. }
  by rewrite !He, fmap_app.
Qed.

Lemma append_arrays_ok a b c :
  append_arrays a b = Some c →
  array_data_type c = array_data_type a ∧ array_len c = (array_len a + array_len b)%nat ∧
  (array_data_type a = array_data_type b → array_rows c = array_rows a ++ array_rows b).
Proof.
  intros Hc. destruct a as [|? ?|t v [nulls|]|t v|], b as [|? ?|t' v' [nulls'|]|t' v'|]; simplify_eq/=;
    rewrite ?length_app; split_and!; try done; intros <-; unfold on_rows, cells; by rewrite ?rows_of_app, ?fmap_app.
Qed.

Definition typed_columns (schema : list Field) (n : nat) (cs : list ArrayRef) : Prop :=
  Forall2 (λ f a, field_data_type f = array_data_type a ∧ array_len a = n) schema cs.

Lemma append_column_lists_ok schema n n' cs cs' out :
  typed_columns schema n cs → typed_columns schema n' cs' → append_column_lists cs cs' = Some out →
  typed_columns schema (n + n') out ∧
  ∀ i, from_option array_rows [] (out !! i) = from_option array_rows [] (cs !! i) ++ from_option array_rows [] (cs' !! i).
Proof.
  unfold typed_columns. intros Hc. revert cs' out. induction Hc as [|f a schema cs [Ht Hl] Hc IH]; intros cs' out Hc' He.
  { apply Forall2_nil_inv_l in Hc' as ->. injection He as <-. split; [constructor|]. by intros i. }
  apply Forall2_cons_inv_l in Hc' as (b & cs2 & [Ht' Hl'] & Hc' & ->). cbn [append_column_lists] in He.
  destruct (append_arrays a b) as [c|] eqn:Ha; [|done]. cbn [mbind option_bind] in He.
  destruct (append_column_lists cs cs2) as [out2|] eqn:Ho; [|done]. injection He as <-.
  destruct (append_arrays_ok _ _ _ Ha) as (A1 & A2 & A3). destruct (IH _ _ Hc' Ho) as [B1 B2]. split.
  - constructor; [|done]. split; [congruence|lia].
  - intros [|i]; [|apply B2]. apply A3. congruence.
Qed.

Lemma append_batches_ok schema bs b out :
  batch_wf schema b → Forall (batch_wf schema) bs → append_batches b bs = Some out →
  batch_wf schema out ∧ batch_rows out = count_rows (b :: bs) ∧ ∀ i, col_rows i out = batches_rows i (b :: bs).
Proof.
  intros Hb Hbs. revert b Hb. induction Hbs as [|b' bs Hb' Hbs IH]; intros b Hb He; cbn [append_batches] in He.
  { injection He as <-. split_and!; [done|by rewrite count_rows_one|intros i; by rewrite batches_rows_one]. }
  destruct (append_column_lists _ _) as [cs|] eqn:Hc; [|done]. cbn [mbind option_bind] in He.
  destruct (append_column_lists_ok _ _ _ _ _ _ (proj2 Hb) (proj2 Hb') Hc) as [Ht Hr].
  destruct (IH (mkRecordBatch (batch_schema b) cs (batch_rows b + batch_rows b'))) as (G1 & G2 & G3); [|done|].
  { split; [apply Hb|exact Ht]. }
  split; [done|]. split; [rewrite G2, !count_rows_cons; cbn [batch_rows]; lia|].
  intros i. rewrite G3, !batches_rows_cons, app_assoc. f_equal. apply Hr.
Qed.

#[global] Instance plain_arrow_stream_laws : ArrowStreamLaws.
Proof.
  split.
  - intros schema [|b bs] out Hbs He; [done|]. apply Forall_cons in Hbs as [Hb Hbs]. cbn [concat_batches plain_arrow_stream] in He.
    destruct (append_batches b bs) as [out'|] eqn:Ha; [|done]. injection He as ->.
    destruct (append_batches_ok schema bs b out Hb Hbs Ha) as (G1 & G2 & G3). by split_and!.
  - intros schema [|b bs]; [done|]. cbn [concat_batches plain_arrow_stream]. by destruct (append_batches b bs).
Qed.

(** ASCII text is printable. *)
#[global] Instance ascii_tables : CharTables := {| is_grapheme_extended _ := false; is_printable c := 32 <=? c |}.

(** Forty batches of one row, then one of thirty, in windows of at most 25 rows. *)
Definition sample_schema : list Field := [mkField (str "id") DInt64 true ∅; mkField (str "name") DUtf8 true ∅].
Definition sample_rows (from n : nat) : RecordBatch :=
  mkRecordBatch sample_schema
    [APrimitive DInt64 (Z.of_nat <$> seq from n) None; ABytes DUtf8 (replicate n (Some (str "row")))] n.
Definition sample_stream : list (res Error RecordBatch) :=
  ((λ n, Ok (sample_rows n 1)) <$> seq 0 40) ++ [Ok (sample_rows 40 30)].
Definition sample_scheduler : IngestWindowScheduler :=
  scheduler_new sample_stream sample_schema (2 ^ 26) (2 ^ 25) (2 ^ 25) (Some 25) WC_Auto.

Lemma sample_rows_wf from n : batch_wf sample_schema (sample_rows from n).
Proof.
  split; [done|]. constructor; [|constructor; [|constructor]]; (split; [done|]).
  - simpl. by rewrite length_fmap, length_seq.
  - simpl. by rewrite length_replicate.
Qed.

Lemma sample_stream_ok : reader_ok sample_stream.
Proof.
  apply Forall_app. split; [|constructor; [apply (sample_rows_wf 40 30)|constructor]]. apply Forall_fmap, Forall_forall.
  intros n _. apply (sample_rows_wf n 1).
Qed.

Lemma ingest_delivers_stream_witness :
  reader_ok sample_stream ∧ budget_ok sample_scheduler ∧
  match ingest_windows sample_scheduler with
  | Ok (ws, s') =>
      window_rows <$> ws = [25; 25; 20] ∧ drained s' ∧
      ∃ parts, Forall2 (λ w part, window_delivers sample_schema w part) ws parts ∧
        concat ((λ part, part 0%nat) <$> parts) = (λ n, Some (VInt (Z.of_nat n))) <$> seq 0 70
  | _ => False
  end.
Proof.
  assert (budget_ok sample_scheduler) as Hb by done. split; [exact sample_stream_ok|]. split; [done|].
  pose proof (ingest_delivers_stream sample_stream sample_schema (2 ^ 26) (2 ^ 25) (2 ^ 25) (Some 25) WC_Auto
    sample_stream_ok Hb ltac:(done)) as Hi. cbv zeta in Hi. fold sample_scheduler in Hi.
  assert (match ingest_windows sample_scheduler with Ok (ws, _) => window_rows <$> ws = [25; 25; 20] | _ => False end) as Hw
    by (by vm_compute).
  destruct (ingest_windows sample_scheduler) as [[ws s']| |]; [|done..].
  destruct Hi as (Hd & _ & parts & Hp & Hr). split; [done|]. split; [done|]. exists parts. split.
  - eapply Forall2_impl; [exact Hp|]. by intros w part (_ & _ & ?).
  - rewrite Hr by (simpl; lia). by vm_compute.
Defined.
