(* ===== verification/ReadPath.v ===== *)
(** The read path ([crates/adbc-monetdb/src/driver.rs]): the sizes of read
    windows, the readers of a result that stays on the server ([BinaryReader]
    and the prefetching [PrefetchedBinaryReader] with its worker
    [fetch_binary_frames]), and the choice of a reader for a result.

    The cursor of the client library is a parameter.  A reader returns batches
    until it returns [None]; what a consumer collects is a list.  The worker is
    the list of what it sends here; as a thread, with its channels, buffers and
    statistics, it is in [Prefetch]. *)

From stdpp Require Import base list numbers strings gmap.
From S2P Require Import Prelude RustStd Types Exportbin Calendar ArrowData Decode Inline Errors Ingest.
Local Open Scope Z_scope.

(** ** Budgets *)

Definition DEFAULT_READ_WINDOW_BYTES : Z := 64 * 1024 * 1024.
Definition REMOTE_READ_WINDOW_BYTES : Z := 128 * 1024 * 1024.
Definition MIN_READ_WINDOW_BYTES : Z := 1024 * 1024.
Definition MAX_AUTOMATIC_READ_GRANULE_BYTES : Z := 512 * 1024 * 1024.
Definition EXPORT_GRANULE_ROWS : Z := 131072.
Definition VARIABLE_READ_COLUMN_BYTES : Z := 1024.
Definition INITIAL_VARIABLE_READ_ROWS : Z := 1.
Definition MAX_READ_WINDOW_GROWTH : Z := 4.
Definition DEFAULT_WRITE_WINDOW_BYTES : Z := 512 * 1024 * 1024.
Definition LOCAL_PHYSICAL_WINDOW_BYTES : Z := 128 * 1024 * 1024.
Definition WIDE_LOCAL_PHYSICAL_WINDOW_BYTES : Z := 48 * 1024 * 1024.
Definition WIDE_MEMORY_BOUND_COLUMNS : Z := 512.
Definition INCOMPRESSIBLE_WRITE_WINDOW_BYTES : Z := 64 * 1024 * 1024.
Definition MIN_WRITE_WINDOW_BYTES : Z := 4 * 1024 * 1024.
Definition MAX_ADAPTIVE_INSERT_ROWS : Z := 10000.

(** Durations in nanoseconds. *)
Definition ADAPTIVE_NETWORK_RTT : Z := 500 * 1000.
Definition REMOTE_WRITE_WINDOW_RTT : Z := 5 * 1000 * 1000.
Definition INSERT_VALUE_ENCODE_MICROS : Z := 2.
Definition COPY_FILE_EXCHANGES_PER_COLUMN : Z := 2.

(** [as_micros] is a [u128] far from its limit. *)
Definition adaptive_insert_rows (configured_rows measured_round_trip : Z) : Z :=
  if (configured_rows =? 0) || (measured_round_trip <? ADAPTIVE_NETWORK_RTT) then configured_rows
  else
    let measured_crossover :=
      measured_round_trip / 1000 * COPY_FILE_EXCHANGES_PER_COLUMN / INSERT_VALUE_ENCODE_MICROS in
    Z.max configured_rows (Z.min (Z.min measured_crossover usize_max) MAX_ADAPTIVE_INSERT_ROWS).

Definition adaptive_incompressible_window_bytes (physical_window_budget measured_round_trip : Z) : Z :=
  if REMOTE_WRITE_WINDOW_RTT <=? measured_round_trip then physical_window_budget
  else Z.min INCOMPRESSIBLE_WRITE_WINDOW_BYTES physical_window_budget.

Definition adaptive_physical_window_bytes (window_budget measured_round_trip columns : Z) : Z :=
  if REMOTE_WRITE_WINDOW_RTT <=? measured_round_trip then window_budget
  else
    let local_budget :=
      if WIDE_MEMORY_BOUND_COLUMNS <=? columns then WIDE_LOCAL_PHYSICAL_WINDOW_BYTES
      else LOCAL_PHYSICAL_WINDOW_BYTES in
    Z.min local_budget window_budget.

Definition effective_automatic_read_window_bytes (base : Z) (fixed_granule_capacity memory_limit : option Z) : Z :=
  let maximum :=
    match memory_limit with
    | None => MAX_AUTOMATIC_READ_GRANULE_BYTES
    | Some limit => Z.min MAX_AUTOMATIC_READ_GRANULE_BYTES (Z.max (limit / 8) MIN_READ_WINDOW_BYTES)
    end in
  match fixed_granule_capacity with
  | Some capacity => if capacity <=? maximum then Z.max base capacity else base
  | None => base
  end.

Definition automatic_read_window_bytes_for_memory (memory_limit : option Z) (measured_round_trip : Z) : Z :=
  let target :=
    if REMOTE_WRITE_WINDOW_RTT <=? measured_round_trip then REMOTE_READ_WINDOW_BYTES
    else DEFAULT_READ_WINDOW_BYTES in
  match memory_limit with
  | None => target
  | Some limit => Z.min target (Z.max (limit / 8) MIN_READ_WINDOW_BYTES)
  end.

Definition automatic_write_window_bytes_for_memory (memory_limit : option Z) : Z :=
  match memory_limit with
  | None => DEFAULT_WRITE_WINDOW_BYTES
  | Some limit => Z.min DEFAULT_WRITE_WINDOW_BYTES (Z.max (limit / 8) MIN_WRITE_WINDOW_BYTES)
  end.

(** [memory_limit] is [system_memory_limit_bytes()]. *)
Definition effective_read_window_bytes (configured_window_bytes : option Z) (measured_round_trip : Z)
    (fixed_granule_capacity memory_limit : option Z) : Z :=
  match configured_window_bytes with
  | Some base => base
  | None =>
      effective_automatic_read_window_bytes
        (automatic_read_window_bytes_for_memory memory_limit measured_round_trip) fixed_granule_capacity memory_limit
  end.

(** The three budgets of an ingest, as [MonetdbStatement::ingest] derives them. *)
Definition write_window_budgets (write_window_bytes memory_limit : option Z) (measured_round_trip columns : Z)
    : Z * Z * Z :=
  let window_budget :=
    match write_window_bytes with
    | Some bytes => bytes
    | None => automatic_write_window_bytes_for_memory memory_limit
    end in
  let physical_window_budget :=
    match write_window_bytes with
    | Some bytes => bytes
    | None => adaptive_physical_window_bytes window_budget measured_round_trip columns
    end in
  let incompressible_window_budget :=
    match write_window_bytes with
    | Some bytes => bytes
    | None => adaptive_incompressible_window_bytes physical_window_budget measured_round_trip
    end in
  (window_budget, physical_window_budget, incompressible_window_budget).

(** ** The scheduler of read windows *)

Record ReadWindowScheduler : Type := mkReadScheduler {
  exact_batch_rows : option Z;
  window_budget_bytes : Z;
  full_granule_fits : bool;
  estimated_bytes_per_row : Z;
  initial_rows_limit : option Z;
  previous_rows : option Z;
  observed_rows : Z;
}.

Definition read_scheduler_new (columns : list ResultColumn) (batch_rows : Z) (configured_window_bytes : option Z)
    (measured_round_trip : Z) (memory_limit : option Z) : ReadWindowScheduler :=
  let fixed_granule_capacity := owned_frame_capacity columns EXPORT_GRANULE_ROWS in
  let budget :=
    effective_read_window_bytes configured_window_bytes measured_round_trip fixed_granule_capacity memory_limit in
  mkReadScheduler
    (if 0 <? batch_rows then Some batch_rows else None)
    budget
    (match fixed_granule_capacity with Some capacity => capacity <=? budget | None => false end)
    (Z.max (estimated_frame_bytes_per_row columns VARIABLE_READ_COLUMN_BYTES) 1)
    (match owned_frame_capacity columns 1 with None => Some INITIAL_VARIABLE_READ_ROWS | Some _ => None end)
    None 0.

(** The largest power of two of at most [target] rows, a granule at most. *)
Definition export_alignment_rows (target : Z) : Z :=
  let target := Z.min (Z.max target 1) EXPORT_GRANULE_ROWS in
  Z.shiftl 1 (Z.log2 target).

Definition with_previous (s : ReadWindowScheduler) (rows : Z) : ReadWindowScheduler :=
  mkReadScheduler (exact_batch_rows s) (window_budget_bytes s) (full_granule_fits s) (estimated_bytes_per_row s)
    (initial_rows_limit s) (Some rows) (observed_rows s).

(** The rows that fit the budget, limited by the previous window. *)
Definition target_rows (s : ReadWindowScheduler) : Z :=
  let target :=
    Z.max (Z.max (window_budget_bytes s / estimated_bytes_per_row s) 1)
      (if full_granule_fits s then EXPORT_GRANULE_ROWS else 1) in
  match previous_rows s with
  | None => Z.min target (from_option id usize_max (initial_rows_limit s))
  | Some previous => Z.min target (saturating_mul previous MAX_READ_WINDOW_GROWTH)
  end.

Definition next_rows {E} (s : ReadWindowScheduler) (remaining : Z) : res E (Z * ReadWindowScheduler) :=
  rows ←
    match exact_batch_rows s with
    | Some exact => Ok (Z.min exact remaining)
    | None =>
        if estimated_bytes_per_row s =? 0 then Panic
        else
          let target := target_rows s in
          let alignment := export_alignment_rows target in
          let target_end := saturating_add (observed_rows s) target in
          let aligned_end := target_end - target_end mod alignment in
          Ok (Z.min (Z.max (saturating_sub aligned_end (observed_rows s)) 1) remaining)
    end;
  Ok (rows, with_previous s rows).

Definition observe (s : ReadWindowScheduler) (response_bytes rows : Z) : ReadWindowScheduler :=
  let estimate :=
    match exact_batch_rows s with
    | None =>
        if 0 <? rows then Z.max (saturating_add response_bytes (rows - 1) / rows) 1 else estimated_bytes_per_row s
    | Some _ => estimated_bytes_per_row s
    end in
  mkReadScheduler (exact_batch_rows s) (window_budget_bytes s) (full_granule_fits s) estimate
    (initial_rows_limit s) (previous_rows s) (saturating_add (observed_rows s) rows).

Definition response_capacity (s : ReadWindowScheduler) (requested_rows : Z) (adopt_frame : bool) : Z :=
  if adopt_frame then 0 else saturating_add (saturating_mul (estimated_bytes_per_row s) requested_rows) 4096.

(** ** Readers *)

(** [ArrowError], as the readers raise it. *)
Inductive ReadError : Type :=
| RE_Cursor (e : CursorError)
| RE_Frame (e : FrameError)
| RE_Decode (e : DecodeError)
| RE_Parse (message : string).

(** The cursor: [fetch_binary_into] leaves the response in the buffer, which
    has an address. *)
Class ResultCursor (cursor : Type) := {
  fetch_binary_into : cursor → Z → Z → res CursorError bytes * cursor;
  response_address : cursor → Z;
}.

Record BinaryReader {cursor : Type} : Type := mkBinaryReader {
  br_cursor : cursor;
  br_result_id : Z;
  br_columns : list ResultColumn;
  br_schema : list Field;
  br_next_row : Z;
  br_total_rows : Z;
  br_scheduler : ReadWindowScheduler;
  br_adopt_frame : bool;
  br_finished : bool;
}.
Arguments BinaryReader : clear implicits.

Section readers.
Context {cursor : Type} `{!ResultCursor cursor} `{Arrow}.

Definition br_update (r : BinaryReader cursor) (c : cursor) (s : ReadWindowScheduler) (next_row : Z) (finished : bool)
    : BinaryReader cursor :=
  mkBinaryReader cursor c (br_result_id r) (br_columns r) (br_schema r) next_row (br_total_rows r) s
    (br_adopt_frame r) finished.

(** The decoder of a response, sharing its buffer or not. *)
Definition decode_response (adopt : bool) (address : Z) (response : bytes) (columns : list ResultColumn)
    (result_id start_row : Z) (requested : nat) (schema : list Field) : res DecodeError RecordBatch :=
  if adopt then decode_frame_owned_with_schema address response columns result_id start_row requested schema
  else decode_frame_with_schema response columns result_id start_row requested schema.

Definition empty_window : ReadError :=
  RE_Parse "MonetDB returned an empty binary window before the result ended".
Definition decoding_panicked : ReadError := RE_Parse "MonetDB result decoding panicked".

(** [next_inner] up to its item; [Panic] is an unwinding. *)
Definition binary_next_inner (r : BinaryReader cursor) : option (res ReadError RecordBatch) * BinaryReader cursor :=
  if br_finished r || (br_total_rows r <=? br_next_row r)
  then (None, br_update r (br_cursor r) (br_scheduler r) (br_next_row r) true)
  else
    match next_rows (E := ReadError) (br_scheduler r) (br_total_rows r - br_next_row r) with
    | Ok (count, s) =>
        let '(fetched, c) := fetch_binary_into (br_cursor r) (br_next_row r) count in
        let '(result, s) :=
          match fetched with
          | Ok response =>
              (map_err RE_Decode
                 (decode_response (br_adopt_frame r) (response_address c) response (br_columns r) (br_result_id r)
                    (br_next_row r) (Z.to_nat count) (br_schema r)),
               observe s (len response) count)
          | Err e => (Err (RE_Cursor e), s)
          | Panic => (Panic, s)
          end in
        match result with
        | Ok batch =>
            if (0 <? batch_rows batch)%nat then
              let next := br_next_row r + Z.of_nat (batch_rows batch) in
              if u64_max <? next then (Some Panic, br_update r c s (br_next_row r) false)
              else (Some (Ok batch), br_update r c s next false)
            else (Some (Err empty_window), br_update r c s (br_next_row r) true)
        | result => (Some result, br_update r c s (br_next_row r) true)
        end
    | _ => (Some Panic, r)
    end.

(** [next]: an unwinding becomes an error and ends the reader. *)
Definition binary_next (r : BinaryReader cursor) : option (res ReadError RecordBatch) * BinaryReader cursor :=
  match binary_next_inner r with
  | (Some Panic, r) => (Some (Err decoding_panicked), br_update r (br_cursor r) (br_scheduler r) (br_next_row r) true)
  | result => result
  end.

(** What a consumer collects; [Panic] when the fuel is used up. *)
Fixpoint binary_run (fuel : nat) (r : BinaryReader cursor)
    : res ReadError (list (res ReadError RecordBatch) * BinaryReader cursor) :=
  match fuel with
  | O => Panic
  | S fuel =>
      match binary_next r with
      | (None, r) => Ok ([], r)
      | (Some item, r) => '(items, r) ← binary_run fuel r; Ok (item :: items, r)
      end
  end.

(** ** Prefetching *)

Record BinaryFrame : Type := mkBinaryFrame {
  frame_start : Z;
  frame_requested : Z;
  frame_response : bytes;
  frame_address : Z;
}.

(** One response of the worker: a frame, whether more are to come, and the
    scheduler that has seen it. *)
Definition fetch_frame (c : cursor) (result_id next_row : Z) (s : ReadWindowScheduler) (remaining : Z)
    : res ReadError (BinaryFrame * Z * ReadWindowScheduler * cursor) :=
  '(requested_rows, s) ← next_rows s remaining;
  let '(fetched, c) := fetch_binary_into c next_row requested_rows in
  response ← map_err RE_Cursor fetched;
  header ← map_err RE_Frame (parse_frame_header response);
  if negb (unsigned_range 64 (header_result_id header) && (header_result_id header =? result_id))
  then Err (RE_Decode (DE_ResultId result_id (header_result_id header)))
  else if negb (header_start_row header =? next_row)
  then Err (RE_Decode (DE_StartRow next_row (header_start_row header)))
  else
    match usize_try_from (header_row_count header) with
    | Some actual_rows =>
        if actual_rows <=? requested_rows then
          Ok (mkBinaryFrame next_row requested_rows response (response_address c), actual_rows,
              observe s (len response) actual_rows, c)
        else Err (RE_Decode (DE_RowCount requested_rows actual_rows))
    | None => Err (RE_Parse "MonetDB binary window row count exceeds this platform")
    end.

(** [fetch_binary_frames]: what the worker sends, one after the other; the last
    element is [None] when the fuel is used up. *)
Fixpoint fetch_binary_frames (fuel : nat) (c : cursor) (result_id next_row total_rows : Z) (s : ReadWindowScheduler)
    : list (option (res ReadError BinaryFrame)) :=
  if next_row <? total_rows then
    match fuel with
    | O => [None]
    | S fuel =>
        match fetch_frame c result_id next_row s (total_rows - next_row) with
        | Ok (frame, actual_rows, s, c) =>
            Some (Ok frame) ::
            (if actual_rows =? 0 then []
             else fetch_binary_frames fuel c result_id (next_row + actual_rows) total_rows s)
        | Err e => [Some (Err e)]
        | Panic => [Some (Err (RE_Parse "MonetDB result fetching panicked"))]
        end
    end
  else [].

Record PrefetchedBinaryReader : Type := mkPrefetched {
  pr_result_id : Z;
  pr_columns : list ResultColumn;
  pr_schema : list Field;
  pr_total_rows : Z;
  pr_decoded_rows : Z;
  pr_adopt_frame : bool;
  pr_receiver : list (option (res ReadError BinaryFrame));
  pr_finished : bool;
}.

Definition pr_update (r : PrefetchedBinaryReader) (decoded_rows : Z) (receiver : list (option (res ReadError BinaryFrame)))
    (finished : bool) : PrefetchedBinaryReader :=
  mkPrefetched (pr_result_id r) (pr_columns r) (pr_schema r) (pr_total_rows r) decoded_rows (pr_adopt_frame r)
    receiver finished.

Definition prefetched_next_inner (r : PrefetchedBinaryReader)
    : option (res ReadError RecordBatch) * PrefetchedBinaryReader :=
  if pr_finished r || (pr_total_rows r <=? pr_decoded_rows r)
  then (None, pr_update r (pr_decoded_rows r) [] true)
  else
    match pr_receiver r with
    | [] => (Some (Err (RE_Parse "MonetDB result prefetch ended before the result was complete")),
             pr_update r (pr_decoded_rows r) [] true)
    | None :: _ => (Some Panic, r)
    | Some (Err e) :: _ => (Some (Err e), pr_update r (pr_decoded_rows r) [] true)
    | Some Panic :: _ => (Some Panic, r)
    | Some (Ok frame) :: receiver =>
        let result :=
          map_err RE_Decode
            (decode_response (pr_adopt_frame r) (frame_address frame) (frame_response frame) (pr_columns r)
               (pr_result_id r) (frame_start frame) (Z.to_nat (frame_requested frame)) (pr_schema r)) in
        match result with
        | Ok batch =>
            if (0 <? batch_rows batch)%nat then
              let decoded := pr_decoded_rows r + Z.of_nat (batch_rows batch) in
              if u64_max <? decoded then (Some Panic, r)
              else
                let last := pr_total_rows r <=? decoded in
                (Some (Ok batch), pr_update r decoded (if last then [] else receiver) last)
            else (Some (Err empty_window), pr_update r (pr_decoded_rows r) [] true)
        | result => (Some result, pr_update r (pr_decoded_rows r) [] true)
        end
    end.

Definition prefetched_next (r : PrefetchedBinaryReader) : option (res ReadError RecordBatch) * PrefetchedBinaryReader :=
  match prefetched_next_inner r with
  | (Some Panic, r) => (Some (Err decoding_panicked), pr_update r (pr_decoded_rows r) [] true)
  | result => result
  end.

Fixpoint prefetched_run (fuel : nat) (r : PrefetchedBinaryReader)
    : res ReadError (list (res ReadError RecordBatch) * PrefetchedBinaryReader) :=
  match fuel with
  | O => Panic
  | S fuel =>
      match prefetched_next r with
      | (None, r) => Ok ([], r)
      | (Some item, r) => '(items, r) ← prefetched_run fuel r; Ok (item :: items, r)
      end
  end.

(** ** The reader of a result *)

(** [SlicedBatchReader]: a decoded batch in slices. *)
Record SlicedBatchReader : Type := mkSliced {
  sl_batch : RecordBatch;
  sl_offset : nat;
  sl_batch_rows : nat;
}.

Definition sliced_new (batch : RecordBatch) (n : nat) : SlicedBatchReader := mkSliced batch 0 (Nat.max n 1).

Definition sliced_next (r : SlicedBatchReader) : option RecordBatch * SlicedBatchReader :=
  if (batch_rows (sl_batch r) <=? sl_offset r)%nat then (None, r)
  else
    let rows := Nat.min (sl_batch_rows r) (batch_rows (sl_batch r) - sl_offset r) in
    (Some (batch_slice (sl_batch r) (sl_offset r) rows), mkSliced (sl_batch r) (sl_offset r + rows) (sl_batch_rows r)).

Fixpoint sliced_run (fuel : nat) (r : SlicedBatchReader) : res ReadError (list RecordBatch * SlicedBatchReader) :=
  match fuel with
  | O => Panic
  | S fuel =>
      match sliced_next r with
      | (None, r) => Ok ([], r)
      | (Some item, r) => '(items, r) ← sliced_run fuel r; Ok (item :: items, r)
      end
  end.

(** What the cursor says of a result. *)
Record BinaryResult : Type := mkBinaryResult {
  result_total_rows : Z;
  result_result_id : Z;
  result_columns : list ResultColumn;
  result_server_resident : bool;
}.

Record ReadExecutionOptions : Type := mkReadOptions {
  option_batch_rows : Z;
  option_window_bytes : option Z;
  option_prefetch : bool;
  option_round_trip : Z;
}.

Inductive StatementReader : Type :=
| EmptyReader (schema : list Field)
| SlicedReader (reader : SlicedBatchReader)
| PrefetchReader (reader : PrefetchedBinaryReader)
| DirectReader (reader : BinaryReader cursor).

Definition direct_reader (c : cursor) (result : BinaryResult) (schema : list Field) (s : ReadWindowScheduler)
    (adopt_frame : bool) : BinaryReader cursor :=
  mkBinaryReader cursor c (result_result_id result) (result_columns result) schema 0 (result_total_rows result) s
    adopt_frame false.

(** The worker has a round for every row and one more. *)
Definition prefetched_reader (c : cursor) (result : BinaryResult) (schema : list Field) (s : ReadWindowScheduler)
    (adopt_frame : bool) : PrefetchedBinaryReader :=
  mkPrefetched (result_result_id result) (result_columns result) schema (result_total_rows result) 0 adopt_frame
    (fetch_binary_frames (S (Z.to_nat (result_total_rows result))) c (result_result_id result) 0
       (result_total_rows result) s) false.

(** [map_display] of a decoder's error. *)
Context (decode_error_text : DecodeError → bytes).
Context `{InlineLibs}.

Definition schema_for_result (columns : list ResultColumn) : res Error (list Field) :=
  map_err (λ e, mkError (decode_error_text e) InvalidData) (schema_for_columns columns).

(** [query_result_with_timeouts] once the query has run: [inline] are the rows
    the reply already holds. *)
Definition statement_reader (c : cursor) (result : BinaryResult) (inline : inline_cursor)
    (options : ReadExecutionOptions) (memory_limit : option Z) : res Error (StatementReader * option Z) :=
  let total_rows := result_total_rows result in
  let columns := result_columns result in
  let rows_affected := if total_rows <=? i64_max then Some total_rows else None in
  let scheduler :=
    read_scheduler_new columns (option_batch_rows options) (option_window_bytes options) (option_round_trip options)
      memory_limit in
  if result_server_resident result
     && existsb (λ column, match column_sql_type column with MOid => true | _ => false end) columns
  then Err (error "multi-row OID results are unavailable through Xexportbin; cast OID columns to VARCHAR in SQL"
              NotImplemented)
  else if negb (result_server_resident result) then
    if total_rows =? 0 then
      schema ← schema_for_result columns;
      Ok (EmptyReader schema, rows_affected)
    else
      batch ← map_err (λ e, mkError (decode_error_text e) InvalidData) 
                (decode_inline_rows inline columns (Z.to_nat total_rows));
      let slice_rows :=
        if option_batch_rows options =? 0 then batch_rows batch else Z.to_nat (option_batch_rows options) in
      Ok (SlicedReader (sliced_new batch slice_rows), rows_affected)
  else
    schema ← schema_for_result columns;
    adopt_frame ← map_err (λ e, mkError (decode_error_text e) InvalidData) (prefers_owned_frame columns);
    if total_rows =? 0 then Ok (EmptyReader schema, rows_affected)
    else
      '(first_window_rows, _) ← next_rows scheduler total_rows;
      if option_prefetch options && (first_window_rows <? total_rows)
      then Ok (PrefetchReader (prefetched_reader c result schema scheduler adopt_frame), rows_affected)
      else Ok (DirectReader (direct_reader c result schema scheduler adopt_frame), rows_affected).

(** Everything a consumer reads: a round for every row and two for the end. *)
Definition read_all (fuel : nat) (r : StatementReader) : res ReadError (list (res ReadError RecordBatch)) :=
  match r with
  | EmptyReader _ => Ok []
  | SlicedReader r => (λ run : list RecordBatch * SlicedBatchReader, Ok <$> run.1) <$> sliced_run fuel r
  | PrefetchReader r => fst <$> prefetched_run fuel r
  | DirectReader r => fst <$> binary_run fuel r
  end.
End readers.
