(* ===== verification/ReadPathProofs.v ===== *)
(** The readers cover a result: consecutive windows from the first row to the
    last, in bounded requests, and the prefetching reader returns what the
    direct one does. *)

From stdpp Require Import base list numbers strings gmap.
From S2P Require Import Prelude RustStd Types Exportbin Calendar ArrowData Decode DecodeProofs Codec Chunked Inline InlineProofs Errors Ingest IngestProofs SchedulerProofs ReadPath.
Local Open Scope Z_scope.

(** ** The scheduler *)

Record rs_ok (s : ReadWindowScheduler) : Prop := {
  rs_estimate : 1 ≤ estimated_bytes_per_row s ≤ usize_max;
  rs_exact : ∀ n, exact_batch_rows s = Some n → 1 ≤ n;
  rs_initial : ∀ n, initial_rows_limit s = Some n → 1 ≤ n;
  rs_previous : ∀ n, previous_rows s = Some n → 1 ≤ n;
  rs_observed : 0 ≤ observed_rows s ≤ usize_max;
}.

Lemma fixed_wire_width_pos t w : fixed_wire_width t = Some w → 0 < w.
Proof.
  destruct t; cbn [fixed_wire_width]; try (by intros [= <-]); try done.
  unfold decimal_width. repeat case_match; intros [= <-]; lia.
Qed.

Lemma estimated_frame_bytes_range columns variable :
  0 ≤ variable → 0 ≤ estimated_frame_bytes_per_row columns variable ≤ usize_max.
Proof.
  intros Hv. unfold estimated_frame_bytes_per_row.
  assert (∀ total, 0 ≤ total ≤ usize_max → 0 ≤ foldl (λ (total : Z) (column : ResultColumn),
    saturating_add total match fixed_wire_width (column_sql_type column) with
      | Some width => width
      | None => saturating_add variable (match column_sql_type column with MBlob => 8 | _ => 1 end) end) total columns ≤ usize_max) as Hg.
  { induction columns as [|c columns IH]; intros total Ht; cbn [foldl]; [done|]. apply IH.
    assert (0 ≤ match fixed_wire_width (column_sql_type c) with
      | Some width => width
      | None => saturating_add variable (match column_sql_type c with MBlob => 8 | _ => 1 end) end) as Hw.
    { destruct (fixed_wire_width _) as [w|] eqn:Hw; [by apply fixed_wire_width_pos in Hw; lia|].
      unfold saturating_add, usize_max in *. destruct (column_sql_type c); lia. }
    unfold saturating_add in *. lia. }
  apply Hg. unfold usize_max. lia.
Qed.

Lemma read_scheduler_new_ok columns batch_rows configured rtt memory :
  rs_ok (read_scheduler_new columns batch_rows configured rtt memory).
Proof.
  pose proof (estimated_frame_bytes_range columns VARIABLE_READ_COLUMN_BYTES ltac:(done)) as He.
  split; cbn [read_scheduler_new estimated_bytes_per_row exact_batch_rows initial_rows_limit previous_rows observed_rows].
  - unfold usize_max in *. lia.
  - intros n. destruct (Z.ltb_spec 0 batch_rows); [intros [= <-]; lia|done].
  - intros n. destruct (owned_frame_capacity _ _); [done|]. by intros [= <-].
  - done.
  - done.
Qed.

Lemma target_rows_pos s : rs_ok s → 1 ≤ target_rows s.
Proof.
  intros [He Hx Hi Hp Ho]. unfold target_rows. set (t := Z.max _ _). assert (1 ≤ t) by (unfold t; lia).
  destruct (previous_rows s) as [n|].
  - specialize (Hp n eq_refl). unfold saturating_mul, MAX_READ_WINDOW_GROWTH, usize_max. lia.
  - destruct (initial_rows_limit s) as [n|]; cbn [from_option]; [specialize (Hi n eq_refl)|unfold usize_max]; unfold id; lia.
Qed.

Lemma export_alignment_pos target : 1 ≤ export_alignment_rows target.
Proof.
  unfold export_alignment_rows. rewrite Z.shiftl_1_l.
  pose proof (Z.log2_nonneg (Z.min (Z.max target 1) EXPORT_GRANULE_ROWS)) as Hl.
  pose proof (Z.pow_pos_nonneg 2 _ ltac:(lia) Hl). lia.
Qed.

Lemma next_rows_ok {E} s remaining :
  rs_ok s → 1 ≤ remaining →
  ∃ rows, next_rows (E := E) s remaining = Ok (rows, with_previous s rows) ∧ 1 ≤ rows ≤ remaining ∧
    rs_ok (with_previous s rows) ∧
    match exact_batch_rows s with Some n => rows ≤ n | None => rows ≤ target_rows s end.
Proof.
  intros Hs Hr. pose proof (target_rows_pos s Hs) as Ht. destruct Hs as [He Hx Hi Hp Ho]. unfold next_rows.
  assert (∀ rows, 1 ≤ rows → rs_ok (with_previous s rows)) as Hw.
  { intros rows Hrows. split; cbn [with_previous estimated_bytes_per_row exact_batch_rows initial_rows_limit previous_rows observed_rows]; try done.
    by intros n [= <-]. }
  destruct (exact_batch_rows s) as [n|].
  - specialize (Hx n eq_refl). cbn [mbind res_bind]. eexists. split; [done|]. split_and!; try apply Hw; lia.
  - rewrite (proj2 (Z.eqb_neq _ _)) by lia. cbn [mbind res_bind]. set (te := saturating_add _ _). set (al := export_alignment_rows _).
    assert (1 ≤ al) as Hal by apply export_alignment_pos.
    pose proof (Z.mod_pos_bound te al ltac:(lia)). eexists. split; [done|].
    assert (te ≤ observed_rows s + target_rows s) by (unfold te, saturating_add; lia).
    unfold saturating_sub. split_and!; try apply Hw; lia.
Qed.

Lemma observe_ok s n rows : rs_ok s → 0 ≤ n → 0 ≤ rows → rs_ok (observe s n rows).
Proof.
  intros [He Hx Hi Hp Ho] Hn Hr. split; cbn [observe estimated_bytes_per_row exact_batch_rows initial_rows_limit previous_rows observed_rows]; try done.
  - destruct (exact_batch_rows s); [done|]. destruct (Z.ltb_spec 0 rows); [|done]. unfold saturating_add, usize_max in *.
    pose proof (Z.div_le_upper_bound (Z.min (n + (rows - 1)) (2 ^ 64 - 1)) rows (2 ^ 64 - 1)). nia.
  - unfold saturating_add, usize_max in *. lia.
Qed.

(** Requests are bounded and aligned.  A request asks for at least one row
    and no more than are left.  Rows chosen by the driver fit the byte budget at
    the estimated row size, unless it is a single row or an export granule that
    is known to fit; they grow at most fourfold, start at one row when a row's
    size is unknown, and end on a boundary of the export granule's fractions
    unless a single row or the end of the result forbids it. *)
Theorem read_request_bounded s remaining rows s' :
  rs_ok s → 1 ≤ remaining → next_rows (E := ReadError) s remaining = Ok (rows, s') →
  1 ≤ rows ≤ remaining ∧ rs_ok s' ∧
  match exact_batch_rows s with
  | Some n => rows ≤ n
  | None =>
      (rows * estimated_bytes_per_row s ≤ window_budget_bytes s ∨ rows = 1 ∨
       full_granule_fits s = true ∧ rows ≤ EXPORT_GRANULE_ROWS) ∧
      (∀ n, previous_rows s = Some n → rows ≤ 4 * n) ∧
      (∀ n, previous_rows s = None → initial_rows_limit s = Some n → rows ≤ n) ∧
      (rows < remaining → rows = 1 ∨ (observed_rows s + rows) mod export_alignment_rows (target_rows s) = 0)
  end.
Proof.
  intros Hs Hr Hn. destruct (next_rows_ok (E := ReadError) s remaining Hs Hr) as (rows' & Hn' & Hrange & Hs' & Hb).
  rewrite Hn in Hn'. injection Hn' as <- ->. split; [done|]. split; [done|]. pose proof (rs_estimate _ Hs) as He.
  unfold next_rows in Hn. destruct (exact_batch_rows s) as [n|] eqn:Hx; [done|].
  rewrite (proj2 (Z.eqb_neq _ _)) in Hn by lia. cbn [mbind res_bind] in Hn. injection Hn as Hrows.
  unfold target_rows in Hb. set (est := estimated_bytes_per_row s) in *. set (budget := window_budget_bytes s) in *.
  set (granule := if full_granule_fits s then EXPORT_GRANULE_ROWS else 1) in *.
  assert (est * (budget / est) ≤ budget) as Hdiv by (apply Z.mul_div_le; lia).
  assert (rows ≤ Z.max (Z.max (budget / est) 1) granule) as Hmax by (destruct (previous_rows s); lia).
  split; [|split; [|split]].
  - destruct (decide (rows ≤ budget / est)); [left; nia|]. destruct (decide (rows = 1)); [by right; left|]. right. right.
    unfold granule in Hmax. destruct (full_granule_fits s); [split; [done|]|]; lia.
  - intros n Hp. rewrite Hp in Hb. unfold saturating_mul, MAX_READ_WINDOW_GROWTH in Hb. lia.
  - intros n Hp Hi. rewrite Hp, Hi in Hb. cbn [from_option] in Hb. unfold id in Hb. lia.
  - intros Hlt. set (te := saturating_add _ _) in *. set (al := export_alignment_rows _) in *.
    destruct (decide (rows = 1)); [by left|]. right. replace (observed_rows s + rows) with (te - te mod al).
    + assert (1 ≤ al) as Hal by apply export_alignment_pos. pose proof (Z.div_mod te al).
      replace (te - te mod al) with (te / al * al) by lia. apply Z.mod_mul. lia.
    + unfold saturating_sub in Hrows. lia.
Qed.

(** The first request for a result with a text column asks for one row; after
    it the estimate is the observed size. *)
Lemma read_request_bounded_witness :
  let s := read_scheduler_new [mkResultColumn (str "t") (MVarchar 0)] 0 None 0 None in
  next_rows (E := ReadError) s 100 = Ok (1, with_previous s 1) ∧ rs_ok s ∧
  (∀ n, previous_rows s = None → initial_rows_limit s = Some n → 1 ≤ n) ∧
  next_rows (E := ReadError) (observe (with_previous s 1) 40 1) 100 =
    Ok (3, with_previous (observe (with_previous s 1) 40 1) 3).
Proof.
  intros s. pose proof (read_scheduler_new_ok [mkResultColumn (str "t") (MVarchar 0)] 0 None 0 None : rs_ok s) as Hs.
  assert (next_rows (E := ReadError) s 100 = Ok (1, with_previous s 1)) as Hn by (by vm_compute).
  destruct (read_request_bounded s 100 1 _ Hs ltac:(done) Hn) as (_ & _ & _ & _ & Hi & _).
  split; [exact Hn|]. split; [exact Hs|]. split; [exact Hi|by vm_compute].
Defined.

(** ** Windows that follow each other *)

(** What the driver relies on: a response is an allocation, and fetching does
    not unwind. *)
Class ResultCursorLaws (cursor : Type) `{!ResultCursor cursor} : Prop := {
  fetch_no_panic c start count : (fetch_binary_into c start count).1 ≠ Panic;
  fetch_response_size c start count response :
    (fetch_binary_into c start count).1 = Ok response → len response ≤ isize_max;
}.

Section readers.
Context {cursor : Type} `{!ResultCursor cursor, !ResultCursorLaws cursor} `{Arrow, !ArrowLaws}.
Context (columns : list ResultColumn) (schema : list Field) (result_id total : Z).
Context (Hcolumns : Forall column_ok columns) (Hschema : schema_for_columns columns = Ok schema).

(** From row [start] on, every batch is the server's answer to a request for
    the rows that follow the batches before it, within the result. *)
Inductive tiles : cursor → Z → list RecordBatch → cursor → Z → Prop :=
| tiles_nil c row : tiles c row [] c row
| tiles_cons c row count response c' batch batches c'' row' :
    1 ≤ count ≤ total - row →
    fetch_binary_into c row count = (Ok response, c') →
    decode_frame_with_schema response columns result_id row (Z.to_nat count) schema = Ok batch →
    1 ≤ Z.of_nat (batch_rows batch) ≤ count →
    tiles c' (row + Z.of_nat (batch_rows batch)) batches c'' row' →
    tiles c row (batch :: batches) c'' row'.

Lemma decode_response_eq adopt address response start requested :
  decode_response adopt address response columns result_id start requested schema =
  decode_frame_with_schema response columns result_id start requested schema.
Proof. unfold decode_response. destruct adopt; [by apply decode_owned_with_schema_eq|done]. Qed.

Lemma with_schema_rows response start requested batch :
  decode_frame_with_schema response columns result_id start requested schema = Ok batch →
  ∃ p, parse_frame response = Ok p ∧ frame_result_id p = result_id ∧ frame_start_row p = start ∧
    frame_row_count p = Z.of_nat (batch_rows batch) ∧ (batch_rows batch ≤ requested)%nat.
Proof.
  unfold decode_frame_with_schema. intros Hd. apply bind_ok in Hd as (p & Hp & Hd). apply bind_ok in Hd as (rows & Hv & Hd).
  apply bind_ok in Hd as (arrays & _ & Hd). unfold record_batch in Hd. case_match; [done|]. injection Hd as <-.
  destruct (validate_frame_ok _ _ _ _ _ _ Hv) as (Hid & Hs & _ & Hle & Hr). exists p. split_and!; try done.
  destruct (parse_frame response); by simplify_eq/=.
Qed.

Definition reader_ok (r : BinaryReader cursor) : Prop :=
  br_columns r = columns ∧ br_schema r = schema ∧ br_result_id r = result_id ∧ br_total_rows r = total ∧
  0 ≤ br_next_row r ≤ total ∧ total ≤ u64_max ∧ rs_ok (br_scheduler r).

(** One step of the direct reader that is not at its end. *)
Lemma binary_next_step r :
  reader_ok r → br_finished r = false → br_next_row r < total →
  (∃ count response c' batch r',
     binary_next r = (Some (Ok batch), r') ∧ 1 ≤ count ≤ total - br_next_row r ∧
     fetch_binary_into (br_cursor r) (br_next_row r) count = (Ok response, c') ∧
     decode_frame_with_schema response columns result_id (br_next_row r) (Z.to_nat count) schema = Ok batch ∧
     1 ≤ Z.of_nat (batch_rows batch) ≤ count ∧ reader_ok r' ∧ br_finished r' = false ∧ br_cursor r' = c' ∧
     br_next_row r' = br_next_row r + Z.of_nat (batch_rows batch)) ∨
  ∃ e r', binary_next r = (Some (Err e), r') ∧ (inet_columns_fit columns (Z.to_nat total) → e ≠ decoding_panicked) ∧ br_finished r' = true.
Proof.
  intros (Hc & Hs & Hid & Ht & Hrow & Hmax & Hrs) Hf Hlt. unfold binary_next, binary_next_inner.
  rewrite Hf, Ht, (proj2 (Z.leb_gt _ _)) by lia. cbn [orb].
  destruct (next_rows_ok (E := ReadError) (br_scheduler r) (total - br_next_row r) Hrs ltac:(lia)) as (count & -> & Hcount & Hrs' & _).
  destruct (fetch_binary_into (br_cursor r) (br_next_row r) count) as [fetched c'] eqn:Hfetch.
  pose proof (fetch_no_panic (br_cursor r) (br_next_row r) count) as Hnp. rewrite Hfetch in Hnp.
  destruct fetched as [response|e|]; [| |done].
  2: { right. eexists _, _. by split_and!. }
  assert (len response ≤ isize_max) as Hsize by (apply (fetch_response_size (br_cursor r) (br_next_row r) count); by rewrite Hfetch).
  rewrite Hc, Hs, Hid, decode_response_eq.
  pose proof (λ Hinet, decode_with_schema_clean response columns result_id (br_next_row r) (Z.to_nat count) schema Hsize Hcolumns Hinet Hschema)
    as Hclean.
  destruct (decode_frame_with_schema _ _ _ _ _ _) as [batch|e|] eqn:Hd; cbn [map_err].
  2, 3: right; eexists _, _; split_and!; try done. 2: { intros Hinet. exfalso. by apply Hclean, (inet_columns_fit_le _ (Z.to_nat total)); [lia|]. }
  destruct (with_schema_rows _ _ _ _ Hd) as (_ & _ & _ & _ & _ & Hle).
  destruct (Nat.ltb_spec 0 (batch_rows batch)) as [Hpos|Hz].
  - rewrite (proj2 (Z.ltb_ge _ _)) by lia. left. eexists count, response, c', batch, _. split; [done|]. split; [done|].
    split; [done|]. split; [done|]. split; [lia|]. split; [|done].
    unfold reader_ok, br_update. cbn. split_and!; try done; try lia. by apply observe_ok; [|lia..].
  - right. eexists _, _. by split_and!.
Qed.

Lemma binary_next_end r :
  br_finished r = true ∨ br_total_rows r ≤ br_next_row r → ∃ r', binary_next r = (None, r').
Proof.
  intros Hend. unfold binary_next, binary_next_inner.
  replace (br_finished r || (br_total_rows r <=? br_next_row r)) with true; [by eexists|].
  destruct Hend as [->|Hle]; [done|]. by rewrite (proj2 (Z.leb_le _ _)), orb_true_r by done.
Qed.

Lemma binary_run_tiles fuel r :
  reader_ok r → br_finished r = false → total - br_next_row r + 2 ≤ Z.of_nat fuel →
  ∃ batches tail r' c row,
    binary_run fuel r = Ok ((Ok <$> batches) ++ tail, r') ∧ tiles (br_cursor r) (br_next_row r) batches c row ∧
    (tail = [] ∧ row = total ∨ ∃ e, tail = [Err e] ∧ row < total ∧ (inet_columns_fit columns (Z.to_nat total) → e ≠ decoding_panicked)).
Proof.
  revert r. induction fuel as [|fuel IH]; intros r Hr Hf Hfuel; [destruct Hr as (_ & _ & _ & _ & ? & _); lia|]. cbn [binary_run].
  pose proof Hr as (_ & _ & _ & Ht & Hrow & _ & _).
  destruct (decide (br_next_row r = total)) as [He|Hne].
  { destruct (binary_next_end r) as [r' ->]; [right; lia|]. exists [], [], r', (br_cursor r), (br_next_row r).
    split_and!; [done|constructor|by left]. }
  destruct (binary_next_step r Hr Hf ltac:(lia)) as [(count & response & c' & batch & r' & -> & Hcount & Hfetch & Hd & Hb & Hr' & Hf' & Hcur & Hnext)
    |(e & r' & -> & Hnp & Hf')].
  - destruct (IH r' Hr' Hf' ltac:(lia)) as (batches & tail & r2 & c2 & row & -> & Htiles & Htail). cbn [mbind res_bind].
    exists (batch :: batches), tail, r2, c2, row. split; [done|]. split; [|done]. rewrite Hcur, Hnext in Htiles. by econstructor.
  - destruct fuel as [|fuel]; [lia|]. cbn [binary_run]. destruct (binary_next_end r') as [r2 ->]; [by left|]. cbn [mbind res_bind].
    exists [], [Err e], r2, (br_cursor r), (br_next_row r). split; [done|]. split; [constructor|]. right. exists e. split_and!; [done|lia|done].
Qed.

(** ** Prefetching *)

Lemma parse_frame_header_of response p :
  parse_frame response = Ok p →
  ∃ h, parse_frame_header response = Ok h ∧ header_result_id h = frame_result_id p ∧
    header_start_row h = frame_start_row p ∧ header_row_count h = frame_row_count p.
Proof.
  intros Hp. destruct (parse_frame_inv _ _ Hp) as (h & ranges & Hr & _ & ->). exists h. split; [|done].
  unfold parse_frame_ranges in Hr. unfold parse_frame_header. case_bool_decide; [by apply bind_ok in Hr as (? & _ & ?)|].
  destruct (_ <? _); [done|]. apply bind_ok in Hr as ([h' body] & -> & Hr). cbn [mbind res_bind].
  apply bind_ok in Hr as (trailer & _ & Hr). destruct (_ <? 0); [by apply bind_ok in Hr as (? & _ & ?)|].
  repeat (apply bind_ok in Hr as (? & _ & Hr)). case_match; [done|]. repeat (apply bind_ok in Hr as (? & _ & Hr)).
  case_match; [done|]. by injection Hr as -> _.
Qed.

(** What the worker sends for a request: a frame of the rows that follow, or an
    error. *)
Lemma fetch_frame_cases c row s :
  rs_ok s → row < total → total ≤ u64_max → 0 ≤ row →
  (∃ count response c' actual h,
     fetch_frame c result_id row s (total - row) =
       Ok (mkBinaryFrame row count response (response_address c'), actual,
           observe (with_previous s count) (len response) actual, c') ∧
     fetch_binary_into c row count = (Ok response, c') ∧ 1 ≤ count ≤ total - row ∧ 0 ≤ actual ≤ count ∧
     parse_frame_header response = Ok h ∧ header_row_count h = actual ∧
     rs_ok (observe (with_previous s count) (len response) actual)) ∨
  ∃ e, fetch_frame c result_id row s (total - row) = Err e ∧ e ≠ decoding_panicked.
Proof.
  intros Hs Hlt Hmax Hrow. destruct (next_rows_ok (E := ReadError) s (total - row) Hs ltac:(lia)) as (count & Hn & Hc & Hs' & _).
  unfold fetch_frame. rewrite Hn. cbn [mbind res_bind].
  destruct (fetch_binary_into c row count) as [fetched c'] eqn:Hf.
  pose proof (fetch_no_panic c row count) as Hnp. rewrite Hf in Hnp.
  destruct fetched as [response|e|]; [|right; by eexists|done]. cbn [map_err mbind res_bind].
  pose proof (parse_frame_header_no_panic response) as Hhp.
  destruct (parse_frame_header response) as [h|e|] eqn:Hh; [|right; by eexists|done]. cbn [map_err mbind res_bind].
  destruct (negb (unsigned_range 64 _ && _)); [right; by eexists|]. destruct (negb (_ =? row)); [right; by eexists|].
  unfold usize_try_from. destruct (unsigned_range 64 (header_row_count h)) eqn:Hu; [|right; by eexists].
  assert (0 ≤ header_row_count h) by (unfold unsigned_range in Hu; apply andb_true_iff in Hu as [Hu%Z.leb_le _]; exact Hu).
  destruct (Z.leb_spec (header_row_count h) count); [|right; by eexists].
  left. exists count, response, c', (header_row_count h), h. split_and!; try done; try lia. by apply observe_ok; [|lia..].
Qed.

(** The rows of a decoded frame are those its header announces. *)
Lemma header_rows response start requested batch h :
  decode_frame_with_schema response columns result_id start requested schema = Ok batch →
  parse_frame_header response = Ok h → header_row_count h = Z.of_nat (batch_rows batch).
Proof.
  intros Hd Hh. destruct (with_schema_rows _ _ _ _ Hd) as (p & Hp & _ & _ & Hr & _).
  destruct (parse_frame_header_of _ _ Hp) as (h' & Hh' & _ & _ & Hr'). congruence.
Qed.

(** The prefetching reader at a row, with what its worker will send. *)
Definition prefetched_at (worker : nat) (c : cursor) (row : Z) (s : ReadWindowScheduler) (adopt : bool)
    : PrefetchedBinaryReader :=
  mkPrefetched result_id columns schema total row adopt (fetch_binary_frames worker c result_id row total s) false.

Lemma prefetched_next_end p :
  pr_finished p = true → ∃ p', prefetched_next p = (None, p').
Proof. intros Hf. unfold prefetched_next, prefetched_next_inner. rewrite Hf. by eexists. Qed.

(** One call of the prefetching reader before its end. *)
Lemma prefetched_next_step worker c row s adopt :
  rs_ok s → 0 ≤ row → row < total → total ≤ u64_max →
  (∃ count response c' batch p',
     prefetched_next (prefetched_at (S worker) c row s adopt) = (Some (Ok batch), p') ∧ 1 ≤ count ≤ total - row ∧
     fetch_binary_into c row count = (Ok response, c') ∧
     decode_frame_with_schema response columns result_id row (Z.to_nat count) schema = Ok batch ∧
     1 ≤ Z.of_nat (batch_rows batch) ≤ count ∧
     let next := row + Z.of_nat (batch_rows batch) in
     if total <=? next then pr_finished p' = true
     else ∃ s', rs_ok s' ∧ p' = prefetched_at worker c' next s' adopt) ∨
  ∃ e p', prefetched_next (prefetched_at (S worker) c row s adopt) = (Some (Err e), p') ∧
    (inet_columns_fit columns (Z.to_nat total) → e ≠ decoding_panicked) ∧
    pr_finished p' = true.
Proof.
  intros Hs Hrow Hlt Hmax. unfold prefetched_next, prefetched_next_inner, prefetched_at.
  cbn [pr_finished pr_total_rows pr_decoded_rows pr_receiver]. rewrite (proj2 (Z.leb_gt _ _)) by lia. cbn [orb fetch_binary_frames].
  rewrite (proj2 (Z.ltb_lt _ _) Hlt).
  destruct (fetch_frame_cases c row s Hs Hlt Hmax Hrow) as [(count & response & c' & actual & h & -> & Hf & Hc & Ha & Hh & Hr & Hs')|(e & -> & He)].
  2: { right. by eexists e, _. }
  cbn [pr_adopt_frame frame_address frame_response pr_columns pr_result_id frame_start frame_requested pr_schema].
  rewrite decode_response_eq.
  assert (len response ≤ isize_max) as Hsize by (apply (fetch_response_size c row count); by rewrite Hf).
  pose proof (λ Hinet, decode_with_schema_clean response columns result_id row (Z.to_nat count) schema Hsize Hcolumns Hinet Hschema) as Hclean.
  destruct (decode_frame_with_schema _ _ _ _ _ _) as [batch|e|] eqn:Hd; cbn [map_err].
  2, 3: right; eexists _, _; split_and!; try done. 2: { intros Hinet. exfalso. by apply Hclean, (inet_columns_fit_le _ (Z.to_nat total)); [lia|]. }
  pose proof (header_rows _ _ _ _ _ Hd Hh) as Hrows.
  destruct (Nat.ltb_spec 0 (batch_rows batch)) as [Hpos|Hz].
  2: { right. by eexists _, _. }
  rewrite (proj2 (Z.ltb_ge _ _)) by lia. left. eexists count, response, c', batch, _. split; [done|].
  split_and!; try done; try lia. cbn zeta. destruct (total <=? _) eqn:Hlast; [done|].
  eexists. split; [exact Hs'|]. unfold pr_update. cbn. rewrite (proj2 (Z.eqb_neq _ _)) by lia. do 2 f_equal. lia.
Qed.

Lemma prefetched_run_tiles fuel worker c row s adopt :
  rs_ok s → 0 ≤ row → row < total → total ≤ u64_max → total - row ≤ Z.of_nat worker → total - row + 2 ≤ Z.of_nat fuel →
  ∃ batches tail p' c' row',
    prefetched_run fuel (prefetched_at worker c row s adopt) = Ok ((Ok <$> batches) ++ tail, p') ∧
    tiles c row batches c' row' ∧
    (tail = [] ∧ row' = total ∨ ∃ e, tail = [Err e] ∧ row' < total ∧ (inet_columns_fit columns (Z.to_nat total) → e ≠ decoding_panicked)).
Proof.
  revert worker c row s. induction fuel as [|fuel IH]; intros worker c row s Hs Hrow Hlt Hmax Hw Hfuel; [lia|]. cbn [prefetched_run].
  destruct worker as [|worker]; [lia|].
  destruct (prefetched_next_step worker c row s adopt Hs Hrow Hlt Hmax)
    as [(count & response & c' & batch & p' & -> & Hc & Hf & Hd & Hb & Hnext)|(e & p' & -> & He & Hfin)].
  - cbn zeta in Hnext. destruct (Z.leb_spec total (row + Z.of_nat (batch_rows batch))).
    + destruct fuel as [|fuel]; [lia|]. cbn [prefetched_run]. destruct (prefetched_next_end p' Hnext) as [p2 ->]. cbn [mbind res_bind].
      exists [batch], [], p2, c', total. split; [done|]. split; [|by left]. econstructor; [done..|].
      replace (row + Z.of_nat (batch_rows batch)) with total by lia. constructor.
    + destruct Hnext as (s' & Hs' & ->).
      destruct (IH worker c' (row + Z.of_nat (batch_rows batch)) s') as (batches & tail & p2 & c2 & row2 & -> & Htiles & Htail); [done|lia..|].
      cbn [mbind res_bind]. exists (batch :: batches), tail, p2, c2, row2. split; [done|]. split; [by econstructor|done].
  - destruct fuel as [|fuel]; [lia|]. cbn [prefetched_run]. destruct (prefetched_next_end p' Hfin) as [p2 ->]. cbn [mbind res_bind].
    exists [], [Err e], p2, c, row. split; [done|]. split; [constructor|]. right. exists e. split_and!; [done|lia|done].
Qed.

(** A server that answers every request within the result in full. *)
Definition answers_in_full : Prop :=
  ∀ c start count, 0 ≤ start → 1 ≤ count ≤ total - start →
    ∃ response c' batch, fetch_binary_into c start count = (Ok response, c') ∧
      decode_frame_with_schema response columns result_id start (Z.to_nat count) schema = Ok batch ∧
      batch_rows batch = Z.to_nat count.

Context (Hfull : answers_in_full) (Hid : unsigned_range 64 result_id = true).

Lemma fetch_frame_full c row s :
  rs_ok s → 0 ≤ row → row < total → total ≤ u64_max →
  ∃ count response c' batch,
    next_rows (E := ReadError) s (total - row) = Ok (count, with_previous s count) ∧ 1 ≤ count ≤ total - row ∧
    fetch_binary_into c row count = (Ok response, c') ∧
    decode_frame_with_schema response columns result_id row (Z.to_nat count) schema = Ok batch ∧
    batch_rows batch = Z.to_nat count ∧ rs_ok (observe (with_previous s count) (len response) count) ∧
    fetch_frame c result_id row s (total - row) =
      Ok (mkBinaryFrame row count response (response_address c'), count,
          observe (with_previous s count) (len response) count, c').
Proof.
  intros Hs Hrow Hlt Hmax. destruct (next_rows_ok (E := ReadError) s (total - row) Hs ltac:(lia)) as (count & Hn & Hc & Hs' & _).
  destruct (Hfull c row count Hrow Hc) as (response & c' & batch & Hf & Hd & Hb). exists count, response, c', batch.
  split_and!; try done; try lia. { by apply observe_ok; [|lia..]. }
  destruct (with_schema_rows _ _ _ _ Hd) as (p & Hp & Hpid & Hps & Hpr & _).
  destruct (parse_frame_header_of _ _ Hp) as (h & Hh & Hhid & Hhs & Hhr).
  unfold fetch_frame. rewrite Hn. cbn [mbind res_bind]. rewrite Hf. cbn [map_err mbind res_bind]. rewrite Hh. cbn [map_err mbind res_bind].
  rewrite Hhid, Hhs, Hhr, Hpid, Hps, Hpr, Hid, !Z.eqb_refl. cbn [andb negb]. rewrite Hb, Z2Nat.id by lia.
  unfold usize_try_from. replace (unsigned_range 64 count) with true; [by rewrite Z.leb_refl|].
  symmetry. unfold unsigned_range, u64_max in *. apply andb_true_iff. split; [apply Z.leb_le|apply Z.ltb_lt]; lia.
Qed.

Definition paired (fuel : nat) (r : BinaryReader cursor) (p : PrefetchedBinaryReader) : Prop :=
  reader_ok r ∧ br_finished r = false ∧
  p = mkPrefetched result_id columns schema total (br_next_row r) (br_adopt_frame r)
        (if br_next_row r <? total then fetch_binary_frames fuel (br_cursor r) result_id (br_next_row r) total (br_scheduler r) else [])
        (negb (br_next_row r <? total)).

Lemma prefetched_step fuel r p :
  paired (S fuel) r p → br_next_row r < total →
  ∃ batch r' p', binary_next r = (Some (Ok batch), r') ∧ prefetched_next p = (Some (Ok batch), p') ∧
    br_next_row r < br_next_row r' ∧ paired fuel r' p'.
Proof.
  intros ((Hc & Hs & Hi & Ht & Hrow & Hmax & Hrs) & Hf & ->) Hlt.
  destruct (fetch_frame_full (br_cursor r) (br_next_row r) (br_scheduler r) Hrs ltac:(lia) Hlt Hmax)
    as (count & response & c' & batch & Hn & Hcount & Hfetch & Hd & Hb & Hrs' & Hff).
  exists batch, (br_update r c' (observe (with_previous (br_scheduler r) count) (len response) count) (br_next_row r + count) false).
  eexists. split; [|split; [|split; [cbn; lia|]]].
  - unfold binary_next, binary_next_inner. rewrite Hf, Ht, (proj2 (Z.leb_gt _ _)) by lia. cbn [orb]. rewrite Hn, Hfetch.
    rewrite Hc, Hs, Hi, decode_response_eq, Hd. cbn [map_err]. rewrite Hb, (proj2 (Nat.ltb_lt _ _)) by lia.
    rewrite Z2Nat.id, (proj2 (Z.ltb_ge _ _)) by lia. done.
  - unfold prefetched_next, prefetched_next_inner. cbn [pr_finished pr_total_rows pr_decoded_rows pr_receiver].
    rewrite (proj2 (Z.ltb_lt _ _) Hlt), (proj2 (Z.leb_gt _ _)) by lia. cbn [orb negb fetch_binary_frames].
    rewrite (proj2 (Z.ltb_lt _ _) Hlt), Hff.
    cbn [pr_adopt_frame frame_address frame_response pr_columns pr_result_id frame_start frame_requested pr_schema].
    rewrite decode_response_eq, Hd. cbn [map_err]. rewrite Hb, (proj2 (Nat.ltb_lt _ _)) by lia.
    rewrite Z2Nat.id, (proj2 (Z.ltb_ge _ _)), (proj2 (Z.eqb_neq _ _)) by lia. reflexivity.
  - split; [unfold reader_ok, br_update; cbn; split_and!; try done; lia|]. split; [done|]. cbn. unfold pr_update. cbn.
    f_equal; rewrite ?Hc, ?Hs, ?Hi, ?Ht; try done.
    all: destruct (Z.leb_spec total (br_next_row r + count)), (Z.ltb_spec (br_next_row r + count) total); try lia; done.
Qed.

Lemma prefetched_run_eq fuel worker r p :
  paired worker r p → total - br_next_row r ≤ Z.of_nat worker → total - br_next_row r + 1 ≤ Z.of_nat fuel →
  ∃ items r' p', binary_run fuel r = Ok (items, r') ∧ prefetched_run fuel p = Ok (items, p').
Proof.
  revert worker r p. induction fuel as [|fuel IH]; intros worker r p Hp Hw Hf.
  { destruct Hp as ((_ & _ & _ & _ & ? & _) & _). lia. }
  cbn [binary_run prefetched_run]. pose proof Hp as ((_ & _ & _ & Ht & Hrow & _) & Hfin & Hpe).
  destruct (decide (br_next_row r = total)) as [He|Hne].
  { destruct (binary_next_end r) as [r' ->]; [right; lia|]. rewrite Hpe. unfold prefetched_next, prefetched_next_inner.
    cbn [pr_finished pr_total_rows pr_decoded_rows]. rewrite He, Z.ltb_irrefl. cbn [negb orb]. by eexists _, _, _. }
  destruct worker as [|worker]; [lia|].
  destruct (prefetched_step worker r p Hp ltac:(lia)) as (batch & r' & p' & -> & -> & Hlt & Hp').
  destruct (IH worker r' p' Hp' ltac:(lia) ltac:(lia)) as (items & r2 & p2 & -> & ->). cbn [mbind res_bind]. by eexists _, _, _.
Qed.
End readers.

(** ** Reading a result *)

Section results.
Context {cursor : Type} `{!ResultCursor cursor, !ResultCursorLaws cursor} `{Arrow, !ArrowLaws} `{InlineLibs}.
Context (decode_error_text : DecodeError → bytes).
Abbreviation statement_reader := (statement_reader decode_error_text).

Lemma schema_for_result_inv columns schema :
  schema_for_result decode_error_text columns = Ok schema → schema_for_columns columns = Ok schema.
Proof. unfold schema_for_result. destruct (schema_for_columns columns); by intros [=->]. Qed.

(** What [statement_reader] chooses for a result on the server. *)
Lemma resident_reader_cases c result inline options memory :
  result_server_resident result = true → 0 ≤ result_total_rows result ≤ u64_max →
  match statement_reader c result inline options memory with
  | Ok (r, _) => ∃ schema adopt, schema_for_columns (result_columns result) = Ok schema ∧
      prefers_owned_frame (result_columns result) = Ok adopt ∧
      let s := read_scheduler_new (result_columns result) (option_batch_rows options) (option_window_bytes options)
                 (option_round_trip options) memory in
      (result_total_rows result = 0 ∧ r = EmptyReader schema) ∨
      (0 < result_total_rows result ∧
       (r = DirectReader (direct_reader c result schema s adopt) ∨
        option_prefetch options = true ∧ r = PrefetchReader (prefetched_reader c result schema s adopt)))
  | Err _ => True
  | Panic => False
  end.
Proof.
  intros Hres Ht. unfold statement_reader. rewrite Hres. cbn [andb negb]. destruct (existsb _ _); [done|].
  pose proof (clean_schema (result_columns result)) as Hclean.
  destruct (schema_for_result decode_error_text _) as [schema| |] eqn:Hs; cbn [mbind res_bind]; [|done|].
  2: { unfold schema_for_result in Hs. by destruct (schema_for_columns _). }
  apply schema_for_result_inv in Hs.
  pose proof (prefers_owned_types_no_panic (column_sql_type <$> result_columns result)) as Hpn.
  fold (prefers_owned_frame (result_columns result)) in Hpn.
  destruct (prefers_owned_frame _) as [adopt| |]; cbn [map_err mbind res_bind]; [|done..].
  set (s := read_scheduler_new _ _ _ _ _).
  destruct (Z.eqb_spec (result_total_rows result) 0) as [Hz|Hz]; [exists schema, adopt; split; [done|]; split; [done|]; by left|].
  destruct (next_rows_ok (E := Error) s (result_total_rows result) (read_scheduler_new_ok _ _ _ _ _) ltac:(lia)) as (n & -> & _).
  cbn [mbind res_bind].
  destruct (option_prefetch options) eqn:Hp; cbn [andb]; [destruct (n <? _)|]; exists schema, adopt; (split; [done|]); (split; [done|]); right;
    (split; [lia|]); [right|left|left]; done.
Qed.

(** The fuel for reading a result: a round for every row, one for an error and
    one for the end. *)
Definition read_fuel (result : BinaryResult) : nat := (2 + Z.to_nat (result_total_rows result))%nat.

(** C7. A result on the server is read from its first row to its last.  Whatever
    the server answers, choosing the reader and reading it to the end
    terminates without a panic; the batches are decoded answers to requests
    for the rows that directly follow the batches before, never beyond the
    result and never more rows than requested; and either the batches reach the
    last row, or an error follows them, which says that the decoder panicked only
    if there is a column of addresses and the result has more than 55,063,683
    rows.  This holds with and without
    prefetching.  (The answers may be partial, the window sizes adapt to them.) *)
Theorem resident_read_covers c result inline options memory :
  result_server_resident result = true → 0 ≤ result_total_rows result ≤ u64_max →
  Forall column_ok (result_columns result) →
  match statement_reader c result inline options memory with
  | Ok (r, _) => ∃ schema batches tail c' row,
      schema_for_columns (result_columns result) = Ok schema ∧
      read_all (read_fuel result) r = Ok ((Ok <$> batches) ++ tail) ∧
      tiles (result_columns result) schema (result_result_id result) (result_total_rows result) c 0 batches c' row ∧
      (tail = [] ∧ row = result_total_rows result ∨
       ∃ e, tail = [Err e] ∧ row < result_total_rows result ∧
         (inet_columns_fit (result_columns result) (Z.to_nat (result_total_rows result)) → e ≠ decoding_panicked))
  | Err _ => True
  | Panic => False
  end.
Proof.
  intros Hres Ht Hcols. pose proof (resident_reader_cases c result inline options memory Hres Ht) as Hc.
  destruct (statement_reader c result inline options memory) as [[r n]| |]; [|done..].
  destruct Hc as (schema & adopt & Hs & _ & [[Hz ->]|[Hpos [->|[_ ->]]]]).
  - exists schema, [], [], c, 0. split; [done|]. split; [done|]. split; [constructor|]. left. by split.
  - cbn [read_all]. set (rd := direct_reader _ _ _ _ _).
    assert (reader_ok (result_columns result) schema (result_result_id result) (result_total_rows result) rd) as Hok.
    { unfold reader_ok. split_and!; try done; try (cbn; lia). apply read_scheduler_new_ok. }
    destruct (binary_run_tiles _ _ _ _ Hcols Hs (read_fuel result) rd Hok eq_refl) as (batches & tail & r' & c' & row & -> & Htiles & Htail).
    { unfold read_fuel. cbn [rd direct_reader br_next_row]. lia. }
    by exists schema, batches, tail, c', row.
  - cbn [read_all]. set (s := read_scheduler_new _ _ _ _ _).
    destruct (prefetched_run_tiles _ schema (result_result_id result) (result_total_rows result) Hcols Hs (read_fuel result)
      (S (Z.to_nat (result_total_rows result))) c 0 s adopt) as (batches & tail & p' & c' & row & Hrun & Htiles & Htail);
      [apply read_scheduler_new_ok|unfold read_fuel; lia..|].
    exists schema, batches, tail, c', row. split; [done|]. split; [|done].
    unfold prefetched_reader. unfold prefetched_at in Hrun. by rewrite Hrun.
Qed.

(** Prefetching is an optimisation only: from a server that answers requests
    in full, the reader with a worker thread returns the same batches, cut at
    the same rows, as the reader without. *)
Theorem prefetch_same_batches c result inline batch window rtt memory r1 n1 r2 n2 schema :
  result_server_resident result = true → 0 ≤ result_total_rows result ≤ u64_max →
  unsigned_range 64 (result_result_id result) = true → Forall column_ok (result_columns result) →
  schema_for_columns (result_columns result) = Ok schema →
  answers_in_full (result_columns result) schema (result_result_id result) (result_total_rows result) →
  statement_reader c result inline (mkReadOptions batch window false rtt) memory = Ok (r1, n1) →
  statement_reader c result inline (mkReadOptions batch window true rtt) memory = Ok (r2, n2) →
  ∃ items, read_all (read_fuel result) r1 = Ok items ∧ read_all (read_fuel result) r2 = Ok items.
Proof.
  intros Hres Ht Hid Hcols Hs Hfull E1 E2.
  pose proof (resident_reader_cases c result inline (mkReadOptions batch window false rtt) memory Hres Ht) as C1.
  pose proof (resident_reader_cases c result inline (mkReadOptions batch window true rtt) memory Hres Ht) as C2.
  rewrite E1 in C1. rewrite E2 in C2. destruct C1 as (s1 & a1 & Hs1 & Ha1 & C1), C2 as (s2 & a2 & Hs2 & Ha2 & C2).
  rewrite Hs in Hs1, Hs2. rewrite Ha1 in Ha2. injection Hs1 as <-. injection Hs2 as <-. injection Ha2 as <-.
  cbn [option_batch_rows option_window_bytes option_round_trip option_prefetch] in *.
  set (s := read_scheduler_new _ _ _ _ _) in *.
  destruct C1 as [[Hz ->]|[Hpos [->|[? _]]]]; [| |done].
  { destruct C2 as [[_ ->]|[? _]]; [by exists []|lia]. }
  assert (∀ a, paired (result_columns result) schema (result_result_id result) (result_total_rows result)
    (S (Z.to_nat (result_total_rows result))) (direct_reader c result schema s a) (prefetched_reader c result schema s a)) as Hpair.
  { intros a. split; [unfold reader_ok; split_and!; try done; try (cbn; lia); apply read_scheduler_new_ok|].
    split; [done|]. unfold prefetched_reader. cbn [direct_reader br_next_row br_adopt_frame br_cursor br_scheduler].
    by rewrite (proj2 (Z.ltb_lt _ _) Hpos). }
  assert (∀ a, ∃ items r' p', binary_run (read_fuel result) (direct_reader c result schema s a) = Ok (items, r') ∧
    prefetched_run (read_fuel result) (prefetched_reader c result schema s a) = Ok (items, p')) as Hrun.
  { intros a. eapply (prefetched_run_eq _ schema _ _ Hcols Hs Hfull Hid _ _ _ _ (Hpair a));
      unfold read_fuel; cbn [direct_reader br_next_row]; lia. }
  destruct (Hrun a1) as (items & r' & p' & Hr & Hp). exists items. cbn [read_all]. rewrite Hr. split; [done|].
  destruct C2 as [[? _]|[_ [->|[_ ->]]]]; cbn [read_all]; [lia|by rewrite Hr|by rewrite Hp].
Qed.
End results.

(** ** Slices of an inline result *)

Lemma sliced_run_rows schema fuel r :
  batch_wf schema (sl_batch r) → (0 < sl_batch_rows r)%nat → (sl_offset r ≤ batch_rows (sl_batch r))%nat →
  (batch_rows (sl_batch r) - sl_offset r < fuel)%nat →
  ∃ items r', sliced_run fuel r = Ok (items, r') ∧
    Forall (λ b, batch_wf schema b ∧ (0 < batch_rows b ≤ sl_batch_rows r)%nat) items ∧
    ∀ i, batches_rows i items = drop (sl_offset r) (col_rows i (sl_batch r)).
Proof.
  revert r. induction fuel as [|fuel IH]; intros r Hwf Hn Ho Hf; [lia|]. cbn [sliced_run]. unfold sliced_next.
  destruct (Nat.leb_spec (batch_rows (sl_batch r)) (sl_offset r)) as [Hle|Hlt].
  { exists [], r. split; [done|]. split; [constructor|]. intros i. symmetry. apply drop_ge.
    unfold col_rows. destruct (batch_columns (sl_batch r) !! i) as [a|] eqn:Ha; [|simpl; lia]. cbn [from_option].
    rewrite length_array_rows. destruct Hwf as [_ Hc]. eapply Forall2_lookup_r in Hc as (f & _ & _ & ->); [lia|exact Ha]. }
  set (rows := Nat.min _ _). destruct (IH (mkSliced (sl_batch r) (sl_offset r + rows) (sl_batch_rows r))) as (items & r' & -> & Hi & Hr);
    [done|done|cbn; lia|cbn; lia|]. cbn [mbind res_bind].
  eexists _, _. split; [done|]. split.
  - constructor; [|exact Hi]. split; [by apply batch_slice_wf; [|lia]|]. cbn [batch_slice batch_rows]. lia.
  - intros i. rewrite batches_rows_cons, Hr, col_rows_slice. cbn [sl_offset sl_batch].
    rewrite <- (take_drop rows (drop (sl_offset r) (col_rows i (sl_batch r)))) at 2. f_equal. by rewrite drop_drop.
Qed.

(** A result the reply already holds is returned in slices of at most the
    configured number of rows, none of them empty, that together are its rows in
    order; the reader ends after them. *)
Theorem inline_slices_cover schema batch n :
  batch_wf schema batch →
  ∃ items r', sliced_run (S (batch_rows batch)) (sliced_new batch n) = Ok (items, r') ∧
    Forall (λ b, batch_wf schema b ∧ (0 < batch_rows b ≤ Nat.max n 1)%nat) items ∧
    ∀ i, batches_rows i items = col_rows i batch.
Proof.
  intros Hwf. destruct (sliced_run_rows schema (S (batch_rows batch)) (sliced_new batch n)) as (items & r' & Hrun & Hi & Hr);
    [done|cbn; lia|cbn; lia|cbn; lia|]. by exists items, r'.
Qed.

Definition five_rows : RecordBatch :=
  mkRecordBatch [mkField (str "n") DInt32 true ∅] [APrimitive DInt32 [1; 2; 3; 4; 5] None] 5.

Lemma inline_slices_cover_witness :
  batch_wf (batch_schema five_rows) five_rows ∧
  ∃ items r', sliced_run 6 (sliced_new five_rows 2) = Ok (items, r') ∧ batch_rows <$> items = [2; 2; 1]%nat ∧
    batches_rows 0 items = (λ n, Some (VInt n)) <$> [1; 2; 3; 4; 5].
Proof.
  assert (batch_wf (batch_schema five_rows) five_rows) as Hwf by (split; [done|]; by repeat constructor).
  split; [done|]. destruct (inline_slices_cover _ five_rows 2 Hwf) as (items & r' & Hrun & _ & Hr).
  exists items, r'. split; [done|]. split; [|by rewrite Hr].
  assert (Hc : sliced_run 6 (sliced_new five_rows 2) = Ok (items, r')) by exact Hrun. vm_compute in Hc. by injection Hc as <- _.
Defined.

(** ** Concrete inputs *)

(** A server with one INT column of the numbers of its rows, which answers at
    most [limit] rows at a time. *)
Definition numbers_frame (start count : Z) : bytes :=
  build_frame 7 count start [concat ((λ k, to_le_bytes 4 (start + Z.of_nat k)) <$> seq 0 (Z.to_nat count))].

Definition numbers_cursor (limit : Z) : ResultCursor unit := {|
  fetch_binary_into c start count :=
    let response := numbers_frame start (Z.min count limit) in
    (if len response <=? isize_max then Ok response else Err CE_Closed, c);
  response_address _ := 4096 |}.

Lemma numbers_cursor_laws limit : ResultCursorLaws unit (ResultCursor0 := numbers_cursor limit).
Proof.
  split; intros c start count; cbn [fetch_binary_into numbers_cursor fst]; [by destruct (_ <=? _)|].
  intros response. destruct (Z.leb_spec (len (numbers_frame start (Z.min count limit))) isize_max); [|done].
  by intros [= <-].
Qed.

Definition numbers_result : BinaryResult := mkBinaryResult 5 7 [mkResultColumn (str "n") MInt] true.
Definition read_options (batch : Z) (prefetch : bool) : ReadExecutionOptions := mkReadOptions batch None prefetch 0.
Definition no_text (e : DecodeError) : bytes := [].

Definition numbers_reader (limit batch : Z) (prefetch : bool) :=
  statement_reader (ResultCursor0 := numbers_cursor limit) no_text () numbers_result []
    (read_options batch prefetch) None.

(** The row counts of what is read. *)
Definition rows_read (limit batch : Z) (prefetch : bool) : option (list nat) :=
  match numbers_reader limit batch prefetch with
  | Ok (r, _) =>
      match read_all (ResultCursor0 := numbers_cursor limit) (read_fuel numbers_result) r with
      | Ok items => Some ((λ item, match item with Ok b => batch_rows b | _ => 0%nat end) <$> items)
      | _ => None
      end
  | _ => None
  end.

Lemma resident_read_covers_witness :
  rows_read 2 0 false = Some [2; 2; 1]%nat ∧ rows_read 2 4 true = Some [2; 2; 1]%nat ∧
  match numbers_reader 2 4 true with
  | Ok (r, _) => ∃ schema batches tail c' row,
      read_all (ResultCursor0 := numbers_cursor 2) (read_fuel numbers_result) r = Ok ((Ok <$> batches) ++ tail) ∧
      tiles (ResultCursor0 := numbers_cursor 2) (result_columns numbers_result) schema 7 5 () 0 batches c' row ∧
      (tail = [] ∧ row = 5 ∨ ∃ e, tail = [Err e] ∧ row < 5 ∧ e ≠ decoding_panicked)
  | _ => False
  end.
Proof.
  split; [by vm_compute|]. split; [by vm_compute|]. pose proof (numbers_cursor_laws 2) as Hlaws.
  pose proof (resident_read_covers (ResultCursor0 := numbers_cursor 2) no_text () numbers_result []
    (read_options 4 true) None eq_refl ltac:(done) ltac:(by repeat constructor)) as Hc.
  fold (numbers_reader 2 4 true) in Hc.
  assert (∃ r n, numbers_reader 2 4 true = Ok (r, n)) as (r & n & Hr) by (vm_compute; by eexists _, _).
  rewrite Hr in *. destruct Hc as (schema & batches & tail & c' & row & _ & Hread & Htiles & Htail).
  exists schema, batches, tail, c', row. split; [done|]. split; [done|].
  destruct Htail as [Htail|(e & He & Hrow & Hnp)]; [by left|]. right. exists e. split; [done|]. split; [done|].
  apply Hnp. by repeat constructor.
Defined.

Definition numbers_schema : list Field :=
  Eval vm_compute in match schema_for_columns (result_columns numbers_result) with Ok schema => schema | _ => [] end.

Lemma numbers_answers_in_full :
  answers_in_full (ResultCursor0 := numbers_cursor 5) (result_columns numbers_result) numbers_schema 7 5.
Proof.
  intros c start count Hs Hc.
  assert (∃ n m, start = Z.of_nat n ∧ count = Z.of_nat m ∧ (n < 5)%nat ∧ (1 ≤ m ≤ 5 - n)%nat) as (n & m & -> & -> & Hn & Hm)
    by (exists (Z.to_nat start), (Z.to_nat count); lia).
  do 5 (destruct n as [|n]; [do 6 (destruct m as [|m]; [first [exfalso; lia | eexists _, _, _; split_and!; [by vm_compute..] ]|]); exfalso; lia|]).
  exfalso; lia.
Qed.

Lemma prefetch_same_batches_witness :
  rows_read 5 2 true = Some [2; 2; 1]%nat ∧
  answers_in_full (ResultCursor0 := numbers_cursor 5) (result_columns numbers_result) numbers_schema 7 5 ∧
  match numbers_reader 5 2 false, numbers_reader 5 2 true with
  | Ok (r1, _), Ok (r2, _) => ∃ items,
      read_all (ResultCursor0 := numbers_cursor 5) (read_fuel numbers_result) r1 = Ok items ∧
      read_all (ResultCursor0 := numbers_cursor 5) (read_fuel numbers_result) r2 = Ok items
  | _, _ => False
  end.
Proof.
  split; [by vm_compute|]. split; [exact numbers_answers_in_full|]. pose proof (numbers_cursor_laws 5) as Hlaws.
  assert (∃ r n, numbers_reader 5 2 false = Ok (r, n)) as (r1 & n1 & H1) by (vm_compute; by eexists _, _).
  assert (∃ r n, numbers_reader 5 2 true = Ok (r, n)) as (r2 & n2 & H2) by (vm_compute; by eexists _, _).
  rewrite H1, H2.
  apply (prefetch_same_batches (ResultCursor0 := numbers_cursor 5) no_text () numbers_result [] 2 None 0 None r1 n1 r2 n2 numbers_schema);
    [done..|by repeat constructor|done|exact numbers_answers_in_full|exact H1|exact H2].
Defined.
