(* ===== verification/Transactions.v ===== *)
(** Transactions ([crates/adbc-monetdb/src/driver.rs]): the effects a script
    has on the transaction, the state a connection keeps about it
    ([DriverConnection]), the scopes that make an operation atomic
    ([begin_atomic], [finish_atomic]), and the operations that run SQL.

    The server is a parameter: a state, and what it answers.  An operation is a
    function of the session (the connection's record and the server) that
    returns its result and the session after it, errors included; [sent] is
    the log of the texts given to the server. *)

From stdpp Require Import base list numbers strings gmap.
From S2P Require Import Prelude RustStd Types Errors SqlScan Template.
Local Open Scope Z_scope.

(** ** The first keywords of a statement *)

Fixpoint skip_line (l : bytes) : bytes :=
  match l with
  | b :: l' => if b =? 10 then l else skip_line l'
  | [] => []
  end.

(** What follows the first [*/]. *)
Fixpoint close_comment (l : bytes) : option bytes :=
  match l with
  | a :: ((b :: l'') as l') => if (a =? 42) && (b =? 47) then Some l'' else close_comment l'
  | _ => None
  end.

Definition next_is (b : Z) (l : bytes) : bool := bool_decide (head l = Some b).

(** Blanks and comments before a keyword; every round drops a byte. *)
Fixpoint skip_trivia (fuel : nat) (l : bytes) : res Error (option bytes) :=
  match fuel with
  | O => Panic
  | S fuel =>
      match drop_while is_ascii_whitespace l with
      | b :: rest =>
          if (b =? 45) && next_is 45 rest then skip_trivia fuel (skip_line (drop 1 rest))
          else if b =? 35 then skip_trivia fuel (skip_line rest)
          else if (b =? 47) && next_is 42 rest then
            match close_comment (drop 1 rest) with
            | Some rest => skip_trivia fuel rest
            | None => Ok None
            end
          else Ok (Some (b :: rest))
      | [] => Ok (Some [])
      end
  end.

Definition is_word (b : Z) : bool := is_ascii_alphabetic b || (b =? 95).

Fixpoint take_while (p : Z → bool) (l : bytes) : bytes :=
  match l with
  | b :: l => if p b then b :: take_while p l else []
  | [] => []
  end.

(** The keyword and the text after it. *)
Definition leading_keyword (query : bytes) : res Error (option (bytes * bytes)) :=
  rest ← skip_trivia (S (length query)) query;
  match rest with
  | None => Ok None
  | Some rest =>
      let word := take_while is_word rest in
      Ok (if bool_decide (word = []) then None else Some (word, drop (length word) rest))
  end.

Definition leading_sql_keyword (query : bytes) : res Error (option bytes) :=
  keyword ← leading_keyword query; Ok (option_map fst keyword).

(** [keyword.to_ascii_uppercase()] is one of the words. *)
Definition keyword_in (words : list string) (keyword : option bytes) : bool :=
  match keyword with
  | Some keyword => existsb (λ word, bool_decide (to_ascii_uppercase keyword = str word)) words
  | None => false
  end.

Definition is_prepare_statement (query : bytes) : res Error bool :=
  keyword ← leading_sql_keyword query;
  Ok (match keyword with Some keyword => eq_ignore_ascii_case keyword (str "prepare") | None => false end).

Definition prepared_row_execution_needs_verification (query : bytes) : res Error bool :=
  keyword ← leading_sql_keyword query;
  Ok (negb (keyword_in ["INSERT"; "UPDATE"; "DELETE"; "MERGE"; "TRUNCATE"] keyword)).

Record TransactionEffects : Type := mkEffects { effect_commit : bool; effect_rollback : bool }.

Fixpoint contains_ascii_case_insensitive (haystack needle : bytes) : bool :=
  ((length needle <=? length haystack)%nat && eq_ignore_ascii_case (take (length needle) haystack) needle)
  || match haystack with
     | _ :: haystack => contains_ascii_case_insensitive haystack needle
     | [] => false
     end.

(** The words between ROLLBACK and what decides; every round drops one. *)
Fixpoint rollback_words (fuel : nat) (remaining : bytes) : res Error bool :=
  match fuel with
  | O => Panic
  | S fuel =>
      next ← leading_keyword remaining;
      match next with
      | None => Ok true
      | Some (next, remaining) =>
          if keyword_in ["WORK"; "AND"; "NO"; "CHAIN"] (Some next) then rollback_words fuel remaining
          else Ok (negb (eq_ignore_ascii_case next (str "to")))
      end
  end.

Definition is_transaction_rollback (statement : bytes) : res Error bool :=
  keyword ← leading_keyword statement;
  match keyword with
  | None => Ok false
  | Some (keyword, remaining) =>
      if negb (eq_ignore_ascii_case keyword (str "rollback")) then Ok false
      else rollback_words (S (length remaining)) remaining
  end.

Fixpoint statement_effects (effects : TransactionEffects) (statements : list bytes) : res Error TransactionEffects :=
  match statements with
  | [] => Ok effects
  | statement :: statements =>
      keyword ← leading_sql_keyword statement;
      effects ←
        (if keyword_in ["COMMIT"] keyword then Ok (mkEffects true (effect_rollback effects))
         else if keyword_in ["ROLLBACK"] keyword then
           rollback ← is_transaction_rollback statement;
           Ok (mkEffects (effect_commit effects) (effect_rollback effects || rollback))
         else Ok effects);
      statement_effects effects statements
  end.

Section with_unicode.
Context `{Unicode}.

Definition transaction_effects (query : bytes) : res Error TransactionEffects :=
  if negb (contains_ascii_case_insensitive query (str "commit"))
     && negb (contains_ascii_case_insensitive query (str "rollback"))
  then Ok (mkEffects false false)
  else statements ← unbound_statements query; statement_effects (mkEffects false false) statements.

Definition query_invalidates_prepared_cache (query : bytes) : res Error bool :=
  statements ← parameterized_statements query;
  keywords ← map_res leading_sql_keyword statements;
  Ok (existsb (keyword_in ["ALTER"; "ANALYZE"; "CALL"; "COMMENT"; "CREATE"; "DEALLOCATE"; "DROP"; "GRANT"; "RENAME";
                           "REVOKE"; "SET"; "TRUNCATE"]) keywords).
End with_unicode.

(** ** The connection *)

Record DriverConnection : Type := mkConnection {
  pending_deallocations : list Z;
  prepared_generation : Z;
  transaction_modified : bool;
  transaction_poison : option bytes;
}.

Definition connection_new : DriverConnection := mkConnection [] 0 false None.

Definition set_modified (c : DriverConnection) (modified : bool) : DriverConnection :=
  mkConnection (pending_deallocations c) (prepared_generation c) modified (transaction_poison c).
Definition set_poison (c : DriverConnection) (poison : option bytes) : DriverConnection :=
  mkConnection (pending_deallocations c) (prepared_generation c) (transaction_modified c) poison.

Definition poison_transaction (c : DriverConnection) (reason : bytes) : DriverConnection :=
  match transaction_poison c with
  | None => set_poison c (Some reason)
  | Some _ => c
  end.

Definition poison_ingest (c : DriverConnection) (target : bytes) (windows : Z) : DriverConnection :=
  poison_transaction c
    (str "ingest into " ++ target ++ str " failed after " ++ fmt_int windows
     ++ str " COPY windows; the transaction may contain partial writes").

Definition commit_error (c : DriverConnection) : option Error :=
  (λ poison, with_sqlstate (mkError (poison ++ str "; ROLLBACK is required") InvalidState) (str "25000"))
    <$> transaction_poison c.

Definition clear_transaction_poison (c : DriverConnection) : DriverConnection := set_poison c None.

Definition guard_transaction_commit (c : DriverConnection) (effects : TransactionEffects) : res Error unit :=
  match commit_error c with
  | Some poison => if effect_commit effects then Err poison else Ok tt
  | None => Ok tt
  end.

Definition apply_transaction_rollback (c : DriverConnection) (effects : TransactionEffects) : DriverConnection :=
  let c := if effect_commit effects || effect_rollback effects then set_modified c false else c in
  if effect_rollback effects then clear_transaction_poison c else c.

(** [TransactionWriteGuard]: what it saw, and what its end does. *)
Record TransactionWriteGuard : Type := mkWriteGuard { guard_modifies : bool; prior_writes : bool }.

Definition write_guard_new `{Unicode} (c : DriverConnection) (query : option bytes)
    : res Error (TransactionWriteGuard * DriverConnection) :=
  modifies ←
    match query with
    | Some query =>
        statements ← parameterized_statements query;
        verdicts ← map_res statement_may_modify statements;
        Ok (existsb id verdicts)
    | None => Ok true
    end;
  Ok (mkWriteGuard modifies (transaction_modified c), if (modifies : bool) then set_modified c true else c).

Definition write_guard_drop (g : TransactionWriteGuard) (c : DriverConnection) : DriverConnection :=
  if guard_modifies g then set_modified c true else c.

(** [invalidate_prepared_cache], apart from the cache; [fetch_add] wraps. *)
Definition advance_generation (c : DriverConnection) : DriverConnection :=
  mkConnection (pending_deallocations c) ((prepared_generation c + 1) mod 2 ^ 64) (transaction_modified c)
    (transaction_poison c).

(** ** The server *)

(** A reply: whether it is a result set, and the rows a statement affected. *)
Record Reply : Type := mkReply { has_result_set : bool; affected_rows : option Z }.

(** The replies to a script: the first, and what each [next_reply] returns. *)
Definition replies : Type := Reply * list (res CursorError Reply).

Class Server (db : Type) := {
  (** [server_info().autocommit]. *)
  server_autocommit : db → res CursorError bool;
  (** [set_autocommit_with_timeouts]. *)
  server_set_autocommit : db → bool → res CursorError unit * db;
  (** [cursor.execute]. *)
  server_execute : db → bytes → res CursorError replies * db;
  (** A metadata query: the fields of its first row, [None] without a row. *)
  server_query_row : db → bytes → res CursorError (option (list (option bytes))) * db;
  (** [try_deallocate]. *)
  server_try_deallocate : db → Z → db;
}.

Record Session (db : Type) : Type := mkSession {
  connection : DriverConnection;
  server : db;
  savepoint_id : Z;
  sent : list bytes;
}.
Arguments mkSession {db}. Arguments connection {db}. Arguments server {db}. Arguments savepoint_id {db}.
Arguments sent {db}.

(** An operation on the session. *)
Definition tx (db A : Type) : Type := Session db → res Error A * Session db.

#[global] Instance tx_ret db : MRet (tx db) := λ A a s, (Ok a, s).
#[global] Instance tx_bind db : MBind (tx db) := λ A B f m s,
  match m s with
  | (Ok a, s) => f a s
  | (Err e, s) => (Err e, s)
  | (Panic, s) => (Panic, s)
  end.

Definition lift {db A} (r : res Error A) : tx db A := λ s, (r, s).
(** The result of an operation, whatever it is. *)
Definition attempt {db A} (m : tx db A) : tx db (res Error A) := λ s,
  match m s with
  | (Panic, s) => (Panic, s)
  | (r, s) => (Ok r, s)
  end.
Definition on_connection {db} (f : DriverConnection → DriverConnection) : tx db unit := λ s,
  (Ok tt, mkSession (f (connection s)) (server s) (savepoint_id s) (sent s)).
Definition get_connection {db} : tx db DriverConnection := λ s, (Ok (connection s), s).

Section with_server.
Context {db : Type} `{!Server db, CursorDisplay, Unicode}.

(** [cursor.execute] with the cursor's own error. *)
Definition execute_raw (query : bytes) : tx db (res CursorError replies) := λ s,
  let '(r, d) := server_execute (server s) query in
  (Ok r, mkSession (connection s) d (savepoint_id s) (sent s ++ [query])).

Definition execute (query : bytes) : tx db replies :=
  r ← execute_raw query; lift (map_err map_cursor_error r).

Definition set_autocommit_raw (enabled : bool) : tx db (res CursorError unit) := λ s,
  let '(r, d) := server_set_autocommit (server s) enabled in
  (Ok r, mkSession (connection s) d (savepoint_id s) (sent s)).

(** [queue_pending_deallocations]: the statements whose handles are gone. *)
Definition queue_pending_deallocations (s : Session db) : Session db :=
  let c := connection s in
  mkSession (mkConnection [] (prepared_generation c) (transaction_modified c) (transaction_poison c))
    (foldl server_try_deallocate (server s) (pending_deallocations c)) (savepoint_id s) (sent s).

Definition lock_connection : tx db unit := λ s, (Ok tt, queue_pending_deallocations s).

Definition get_autocommit : tx db bool := λ s,
  (map_err map_cursor_error (server_autocommit (server s)), s).

Definition query_row (query : bytes) : tx db (option (list (option bytes))) := λ s,
  let '(r, d) := server_query_row (server s) query in
  (map_err map_cursor_error r, mkSession (connection s) d (savepoint_id s) (sent s)).

(** ** Metadata of tables *)

(** [metadata::raw_string_literal]. *)
Definition raw_string_literal (value : bytes) : res Error bytes :=
  if existsb (λ b, b =? 0) value then Err (error "metadata filter contains a NUL byte" InvalidArguments)
  else Ok (quote_raw_string value).

Definition schema_filter (schema_name : option bytes) : res Error bytes :=
  match schema_name with
  | Some name => raw_string_literal name
  | None => Ok (str "current_schema")
  end.

(** Field [index] as a count; the text of the parser is left out of its error. *)
Definition count_field (null_message invalid_message : string) (row : list (option bytes)) (index : nat)
    : res Error bool :=
  match row !! index with
  | None => Err (map_cursor_error (CE_Metadata (str "column index")))
  | Some None => Err (error null_message InvalidData)
  | Some (Some text) =>
      match parse_u64 text with
      | Some count => Ok (negb (count =? 0))
      | None => Err (error invalid_message InvalidData)
      end
  end.

Definition table_exists (schema_name : option bytes) (table_name : bytes) : tx db bool :=
  filter ← lift (schema_filter schema_name);
  table ← lift (raw_string_literal table_name);
  row ← query_row
    (str "SELECT CAST(COUNT(*) AS VARCHAR(32)) FROM sys.tables AS t JOIN sys.schemas AS s ON s.id = t.schema_id WHERE s.name = "
     ++ filter ++ str " AND t.name = " ++ table);
  match row with
  | None => lift (Err (error "table metadata query returned no row" InvalidData))
  | Some row => lift (count_field "temporary table count is NULL" "invalid table count" row 0)
  end.

Record TableConstraintState : Type := mkConstraintState { table_is_there : bool; constrained : bool }.

Definition table_constraint_state (schema_name : option bytes) (table_name : bytes) : tx db TableConstraintState :=
  filter ← lift (schema_filter schema_name);
  table ← lift (raw_string_literal table_name);
  let keys := if bool_decide (schema_name = Some (str "tmp")) then str "tmp.keys" else str "sys.keys" in
  row ← query_row
    (str "SELECT CAST(COUNT(DISTINCT t.id) AS VARCHAR(32)), CAST(COUNT(k.id) AS VARCHAR(32)) FROM sys.tables AS t JOIN sys.schemas AS s ON s.id = t.schema_id LEFT JOIN "
     ++ keys ++ str " AS k ON k.table_id = t.id WHERE s.name = " ++ filter ++ str " AND t.name = " ++ table);
  match row with
  | None => lift (Err (error "table constraint metadata query returned no row" InvalidData))
  | Some row =>
      exists_ ← lift (count_field "table constraint count is NULL" "invalid table constraint count" row 0);
      constrained ← lift (count_field "table constraint count is NULL" "invalid table constraint count" row 1);
      mret (mkConstraintState exists_ constrained)
  end.

Record TemporaryTableState : Type := mkTemporaryState { temporary_any : bool; temporary_target : option bool }.

Definition transaction_scoped_temporary_table_state (table_name : option bytes) : tx db TemporaryTableState :=
  target_count ← lift (match table_name with
    | Some table =>
        table ← raw_string_literal table;
        Ok (str ", CAST(COUNT(CASE WHEN t.name = " ++ table ++ str " THEN 1 END) AS VARCHAR(32))")
    | None => Ok []
    end);
  row ← query_row
    (str "SELECT CAST(COUNT(*) AS VARCHAR(32))" ++ target_count
     ++ str " FROM sys.tables AS t JOIN sys.schemas AS s ON s.id = t.schema_id WHERE s.name = 'tmp' AND t.commit_action IN (1, 3)");
  match row with
  | None => lift (Err (error "temporary table metadata query returned no row" InvalidData))
  | Some row =>
      any ← lift (count_field "temporary table count is NULL" "invalid temporary table count" row 0);
      target ← match table_name with
        | Some _ =>
            target ← lift (count_field "temporary table count is NULL" "invalid temporary table count" row 1);
            mret (Some target)
        | None => mret None
        end;
      mret (mkTemporaryState any target)
  end.

(** ** Atomic scopes *)

Inductive AtomicScope : Type :=
| Autocommit
| CallerTransaction
| Savepoint (name : bytes) (retain_until_transaction_end : bool).

Inductive CallerTransactionScope : Type := ScopeDirect | ScopeSavepoint.

(** The process id. *)
Context (pid : Z).

Definition savepoint_name (purpose : bytes) : tx db bytes := λ s,
  (Ok (str "adbc_" ++ purpose ++ str "_" ++ fmt_int pid ++ str "_" ++ fmt_int (savepoint_id s)),
   mkSession (connection s) (server s) ((savepoint_id s + 1) mod 2 ^ 64) (sent s)).

Definition begin_atomic (purpose : bytes) (caller_scope : CallerTransactionScope) (prior_writes : bool)
    (transaction_scoped_temporary_exists : option bool) : tx db AtomicScope :=
  originally_autocommit ← get_autocommit;
  if (originally_autocommit : bool) then
    r ← set_autocommit_raw false;
    _ ← lift (map_err map_cursor_error r);
    mret Autocommit
  else if prior_writes || match caller_scope with ScopeDirect => true | ScopeSavepoint => false end
  then mret CallerTransaction
  else
    retain ← match transaction_scoped_temporary_exists with
      | Some exists_ => mret exists_
      | None => state ← transaction_scoped_temporary_table_state None; mret (temporary_any state)
      end;
    name ← savepoint_name purpose;
    _ ← execute (str "SAVEPOINT " ++ name);
    mret (Savepoint name retain).

Definition done_of (r : res CursorError replies) : res CursorError unit := (λ _, tt) <$> r.

(** [finalize]: what keeps the work of the operation. *)
Definition finalize_scope (scope : AtomicScope) : tx db (res CursorError unit) :=
  match scope with
  | Autocommit => r ← execute_raw (str "COMMIT"); mret (done_of r)
  | CallerTransaction => mret (Ok tt)
  | Savepoint name retain =>
      if retain then mret (Ok tt)
      else r ← execute_raw (str "RELEASE SAVEPOINT " ++ name); mret (done_of r)
  end.

(** [recovery]: what undoes it. *)
Definition recover_scope (scope : AtomicScope) : tx db (res CursorError unit) :=
  match scope with
  | Autocommit => r ← execute_raw (str "ROLLBACK"); mret (done_of r)
  | CallerTransaction => mret (Ok tt)
  | Savepoint name retain =>
      rollback ← execute_raw (str "ROLLBACK TO SAVEPOINT " ++ name);
      match rollback with
      | Ok _ =>
          if retain then mret (Ok tt)
          else r ← execute_raw (str "RELEASE SAVEPOINT " ++ name); mret (done_of r)
      | Err e => mret (Err e)
      | Panic => mret Panic
      end
  end.

Definition finish_atomic {A} (scope : AtomicScope) (operation : res Error A) : tx db A :=
  result ←
    match operation with
    | Ok value => finalize ← finalize_scope scope; mret (map_err map_cursor_error ((λ _, value) <$> finalize))
    | result => mret result
    end;
  result ←
    match result with
    | Ok _ => mret result
    | result =>
        recovery ← recover_scope scope;
        mret (combine_atomic_error result recovery (str "transaction recovery"))
    end;
  result ←
    match scope with
    | Autocommit =>
        restored ← set_autocommit_raw true;
        mret (combine_atomic_error result restored (str "restoring autocommit"))
    | _ => mret result
    end;
  lift result.

(** An operation between the two, as its callers write it. *)
Definition run_atomic {A} (purpose : bytes) (caller_scope : CallerTransactionScope) (prior_writes : bool)
    (temporary_exists : option bool) (operation : AtomicScope → tx db A) : tx db A :=
  scope ← begin_atomic purpose caller_scope prior_writes temporary_exists;
  result ← attempt (operation scope);
  finish_atomic scope result.

(** ** Running SQL *)

(** [execute_update], and [Connection::commit] and [rollback] with it. *)
Definition execute_update (query : bytes) : tx db (option Z) :=
  prepare ← lift (is_prepare_statement query);
  if (prepare : bool) then
    lift (Err (error "execute_update() does not accept a PREPARE statement; call Statement::prepare() instead"
                 InvalidArguments))
  else
    effects ← lift (transaction_effects query);
    _ ← lock_connection;
    c ← get_connection;
    _ ← lift (guard_transaction_commit c effects);
    '(reply, _) ← execute query;
    _ ← on_connection (λ c, apply_transaction_rollback c effects);
    mret (if has_result_set reply then None else affected_rows reply).

Definition commit : tx db unit := _ ← execute_update (str "COMMIT"); mret tt.
Definition rollback : tx db unit := _ ← execute_update (str "ROLLBACK"); mret tt.

Definition i64_checked_add (a b : Z) : option Z := if signed_range 64 (a + b) then Some (a + b) else None.

Fixpoint script_statements (total : option Z) (statements : list bytes) : tx db (option Z) :=
  match statements with
  | [] => mret total
  | statement :: statements =>
      '(reply, _) ← execute statement;
      rollback ← lift (is_transaction_rollback statement);
      _ ← on_connection (λ c, apply_transaction_rollback c (mkEffects false rollback));
      total ←
        match has_result_set reply, affected_rows reply with
        | false, Some rows =>
            total ← lift (ok_or (i64_checked_add (from_option id 0 total) rows)
                            (error "affected row count overflows i64" Internal));
            mret (Some total)
        | _, _ => mret total
        end;
      script_statements total statements
  end.

Definition execute_update_script (query : bytes) : tx db (option Z) :=
  statements ← lift (unbound_statements query);
  prepares ← lift (map_res is_prepare_statement statements);
  if existsb id prepares then
    lift (Err (error "execute_update() does not accept a PREPARE statement; call Statement::prepare() instead"
                 InvalidArguments))
  else
    effects ← lift (transaction_effects query);
    _ ← lock_connection;
    c ← get_connection;
    _ ← lift (guard_transaction_commit c effects);
    script_statements None statements.

(** [query_result_with_timeouts] up to its result. *)
Definition execute_query (query : bytes) : tx db Reply :=
  prepare ← lift (is_prepare_statement query);
  if (prepare : bool) then
    lift (Err (error "execute() does not accept a PREPARE statement; call Statement::prepare() instead"
                 InvalidArguments))
  else
    effects ← lift (transaction_effects query);
    _ ← lock_connection;
    c ← get_connection;
    _ ← lift (guard_transaction_commit c effects);
    '(reply, _) ← execute query;
    _ ← on_connection (λ c, apply_transaction_rollback c effects);
    mret reply.

(** [set_option] of [OptionConnection::AutoCommit]. *)
Definition set_autocommit_option (enabled : bool) : tx db unit :=
  _ ← lock_connection;
  c ← get_connection;
  _ ← lift (match commit_error c with Some poison => if enabled then Err poison else Ok tt | None => Ok tt end);
  current ← get_autocommit;
  _ ← (if enabled && negb current then _ ← execute (str "COMMIT"); mret tt else mret tt);
  _ ← (if negb (Bool.eqb enabled current)
       then r ← set_autocommit_raw enabled; lift (map_err map_cursor_error r)
       else mret tt);
  if enabled || negb (Bool.eqb enabled current) then on_connection (λ c, set_modified c false) else mret tt.
End with_server.
