(* ===== verification/TransactionsProofs.v ===== *)
(** What transactions rely on: the effects of a script are read off exactly, a
    poisoned transaction cannot be committed before it is rolled back, and an
    atomic scope keeps all of an operation or nothing of it. *)

From stdpp Require Import base list numbers strings gmap.
From S2P Require Import Prelude RustStd Types Errors SqlScan SqlScanProofs Template Transactions.
Local Open Scope Z_scope.

(** ** Pieces of a text *)

Definition infix_of (l text : bytes) : Prop := ∃ pre post, text = pre ++ l ++ post.

Lemma infix_trans l1 l2 l3 : infix_of l1 l2 → infix_of l2 l3 → infix_of l1 l3.
Proof. intros (a & b & ->) (c & d & ->). exists (c ++ a), (b ++ d). by rewrite <- !app_assoc. Qed.

Lemma drop_while_suffix {A} (p : A → bool) l : ∃ pre, l = pre ++ drop_while p l.
Proof.
  induction l as [|x l [pre IH]]; [by exists []|]. cbn [drop_while]. destruct (p x); [|by exists []].
  exists (x :: pre). cbn [app]. by rewrite <- IH.
Qed.

Lemma skip_line_suffix l : ∃ pre, l = pre ++ skip_line l.
Proof.
  induction l as [|x l [pre IH]]; [by exists []|]. cbn [skip_line]. destruct (x =? 10); [by exists []|].
  exists (x :: pre). cbn [app]. by rewrite <- IH.
Qed.

Lemma close_comment_suffix l rest : close_comment l = Some rest → ∃ pre, l = pre ++ rest.
Proof.
  induction l as [|a l IH]; [done|]. cbn [close_comment]. destruct l as [|b l]; [done|].
  destruct (_ && _); [intros [= <-]; by exists [a; b]|]. intros Hc. destruct (IH Hc) as [pre Hp]. exists (a :: pre).
  cbn [app]. by rewrite <- Hp.
Qed.

Lemma take_while_prefix p l : ∃ post, l = take_while p l ++ post.
Proof.
  induction l as [|x l [post IH]]; [by exists []|]. cbn [take_while]. destruct (p x); [|by exists (x :: l)].
  exists post. cbn [app]. by rewrite <- IH.
Qed.

Lemma chars_prefix fuel l : ∃ post, l = concat (chars_aux fuel l) ++ post.
Proof.
  revert l. induction fuel as [|fuel IH]; intros l; [exists l; by destruct l|]. destruct l as [|b l]; [by exists []|].
  cbn [chars_aux]. set (n := match utf8_step (b :: l) with inl n => n | inr n => n end).
  destruct (IH (drop n (b :: l))) as [post Hp]. exists post. cbn [concat]. rewrite <- app_assoc, <- Hp. by rewrite take_drop.
Qed.

Lemma trim_infix l : infix_of (trim l) l.
Proof.
  destruct (chars_prefix (length l) l) as [post Hpost]. unfold trim. set (blank := λ c, _).
  destruct (drop_while_suffix blank (chars l)) as [pre Hpre]. set (rest := drop_while blank (chars l)) in *.
  destruct (drop_while_suffix blank (rev rest)) as [tail Htail]. set (kept := drop_while blank (rev rest)) in *.
  assert (rest = rev kept ++ rev tail) as Hrest by (rewrite <- rev_app_distr, <- Htail; by rewrite rev_involutive).
  exists (concat pre), (concat (rev tail) ++ post). unfold chars in Hpre. rewrite Hpost at 1. rewrite Hpre, Hrest, !concat_app.
  by rewrite <- !app_assoc.
Qed.

(** ** Keywords *)

Lemma drop1_suffix (l : bytes) : ∃ pre, l = pre ++ drop 1 l.
Proof. exists (take 1 l). by rewrite take_drop. Qed.

Lemma skip_trivia_ok fuel l :
  (length l < fuel)%nat →
  ∃ o, skip_trivia fuel l = Ok o ∧ ∀ rest, o = Some rest → ∃ pre, l = pre ++ rest.
Proof.
  revert l. induction fuel as [|fuel IH]; intros l Hf; [lia|]. cbn [skip_trivia].
  destruct (drop_while_suffix is_ascii_whitespace l) as [pre Hpre].
  destruct (drop_while is_ascii_whitespace l) as [|b rest] eqn:Hd.
  { eexists. split; [done|]. intros r [= <-]. by exists pre. }
  assert (∀ rest', (∃ p, rest = p ++ rest') → ∃ o, skip_trivia fuel rest' = Ok o ∧
    ∀ r, o = Some r → ∃ p, l = p ++ r) as Hgo.
  { intros rest' [p Hp]. destruct (IH rest') as (o & Ho & Hs).
    { apply (f_equal length) in Hpre, Hp. rewrite length_app in Hpre, Hp. cbn [length] in Hpre. lia. }
    exists o. split; [done|]. intros r Hr. destruct (Hs r Hr) as [p' Hp']. exists (pre ++ b :: p ++ p').
    rewrite Hpre, Hp, Hp'. by rewrite <- !app_assoc, <- app_comm_cons, <- app_assoc. }
  destruct (drop1_suffix rest) as [p1 Hp1].
  destruct (_ && _).
  { apply Hgo. destruct (skip_line_suffix (drop 1 rest)) as [p2 Hp2]. exists (p1 ++ p2). rewrite <- app_assoc. by rewrite <- Hp2. }
  destruct (_ =? 35). { apply Hgo. destruct (skip_line_suffix rest) as [p2 Hp2]. by exists p2. }
  destruct (_ && _); [|eexists; split; [done|]; intros r [= <-]; by exists pre].
  destruct (close_comment (drop 1 rest)) as [rest'|] eqn:Hc; [|by eexists].
  apply Hgo. destruct (close_comment_suffix _ _ Hc) as [p2 Hp2]. exists (p1 ++ p2). rewrite <- app_assoc. by rewrite <- Hp2.
Qed.

Lemma leading_keyword_ok q :
  ∃ o, leading_keyword q = Ok o ∧
    ∀ w rest, o = Some (w, rest) → w ≠ [] ∧ ∃ pre, q = pre ++ w ++ rest.
Proof.
  unfold leading_keyword. destruct (skip_trivia_ok (S (length q)) q ltac:(lia)) as (o & -> & Hs). cbn [mbind res_bind].
  destruct o as [rest|]; [|by eexists]. destruct (Hs rest eq_refl) as [pre Hp]. case_bool_decide as Hw; [by eexists|].
  eexists. split; [done|]. intros w r [= <- <-]. split; [done|]. exists pre. destruct (take_while_prefix is_word rest) as [post Hpost].
  assert (drop (length (take_while is_word rest)) rest = post) as -> by (rewrite Hpost at 2; apply drop_app_length).
  by rewrite <- Hpost.
Qed.

Lemma leading_sql_keyword_ok q :
  ∃ o, leading_sql_keyword q = Ok o ∧ ∀ w, o = Some w → infix_of w q.
Proof.
  unfold leading_sql_keyword. destruct (leading_keyword_ok q) as (o & -> & Hs). cbn [mbind res_bind]. eexists. split; [done|].
  intros w. destruct o as [[w' rest]|]; [|done]. intros [= <-]. destruct (Hs w' rest eq_refl) as (_ & pre & ->). by exists pre, rest.
Qed.

Lemma to_ascii_case a b : to_ascii_lower a = to_ascii_lower b ↔ to_ascii_upper a = to_ascii_upper b.
Proof.
  unfold to_ascii_lower, to_ascii_upper, is_ascii_upper, is_ascii_lower.
  destruct (Z.leb_spec 65 a), (Z.leb_spec a 90), (Z.leb_spec 65 b), (Z.leb_spec b 90), (Z.leb_spec 97 a), (Z.leb_spec a 122),
    (Z.leb_spec 97 b), (Z.leb_spec b 122); cbn [andb]; lia.
Qed.

Lemma eq_ignore_case_upper a b :
  eq_ignore_ascii_case a b = true ↔ to_ascii_uppercase a = to_ascii_uppercase b.
Proof.
  unfold eq_ignore_ascii_case, to_ascii_uppercase. rewrite bool_decide_eq_true.
  revert b. induction a as [|x a IH]; intros [|y b]; [done..|]. rewrite !fmap_cons.
  split; intros [= Hx Ha]; f_equal; by apply to_ascii_case || apply IH.
Qed.

Lemma contains_infix w text needle :
  infix_of w text → eq_ignore_ascii_case w needle = true → contains_ascii_case_insensitive text needle = true.
Proof.
  intros (pre & post & ->) Hw. assert (length w = length needle) as Hl.
  { apply eq_ignore_case_upper, (f_equal length) in Hw. unfold to_ascii_uppercase in Hw. by rewrite !length_fmap in Hw. }
  induction pre as [|x pre IH]; [|cbn [app contains_ascii_case_insensitive]; rewrite IH; apply orb_true_r].
  cbn [app].
  assert ((length needle <=? length (w ++ post))%nat && eq_ignore_ascii_case (take (length needle) (w ++ post)) needle = true) as Hh.
  { rewrite <- Hl, take_app_length, Hw, length_app, (proj2 (Nat.leb_le _ _)) by lia. done. }
  destruct (w ++ post); cbn [contains_ascii_case_insensitive]; by rewrite Hh.
Qed.

Lemma rollback_words_ok fuel l : (length l < fuel)%nat → ∃ b, rollback_words fuel l = Ok b.
Proof.
  revert l. induction fuel as [|fuel IH]; intros l Hf; [lia|]. cbn [rollback_words].
  destruct (leading_keyword_ok l) as (o & -> & Hs). cbn [mbind res_bind]. destruct o as [[w rest]|]; [|by eexists].
  destruct (Hs w rest eq_refl) as (Hne & pre & ->). destruct (keyword_in _ _); [|by eexists]. apply IH.
  rewrite !length_app in Hf. destruct w; [done|]. cbn [length] in Hf. lia.
Qed.

(** Whether a statement commits, or rolls the transaction back. *)
Definition begins_commit (t : bytes) : bool :=
  match leading_sql_keyword t with Ok k => keyword_in ["COMMIT"] k | _ => false end.
Definition rolls_back (t : bytes) : bool :=
  match is_transaction_rollback t with Ok b => b | _ => false end.

Lemma is_transaction_rollback_ok t :
  is_transaction_rollback t = Ok (rolls_back t) ∧
  (rolls_back t = true → ∃ k, leading_sql_keyword t = Ok (Some k) ∧ eq_ignore_ascii_case k (str "rollback") = true).
Proof.
  unfold rolls_back, is_transaction_rollback, leading_sql_keyword. destruct (leading_keyword_ok t) as (o & -> & _).
  cbn [mbind res_bind]. destruct o as [[k rest]|]; [|done].
  destruct (eq_ignore_ascii_case k (str "rollback")) eqn:Hk; [|done]. cbn [negb].
  destruct (rollback_words_ok (S (length rest)) rest ltac:(lia)) as [b ->]. split; [done|]. intros _. by exists k.
Qed.

Lemma keyword_in_one w k : keyword_in [w] (Some k) = bool_decide (to_ascii_uppercase k = str w).
Proof. unfold keyword_in. cbn [existsb]. apply orb_false_r. Qed.

Lemma statement_effects_ok e ss :
  ∃ e', statement_effects e ss = Ok e' ∧ effect_commit e' = effect_commit e || existsb begins_commit ss ∧
    effect_rollback e' = effect_rollback e || existsb rolls_back ss.
Proof.
  revert e. induction ss as [|t ss IH]; intros e; cbn [statement_effects existsb].
  { exists e. split; [done|]. by rewrite !orb_false_r. }
  destruct (leading_sql_keyword_ok t) as (k & Hk & _). destruct (is_transaction_rollback_ok t) as [Hr Hrk].
  assert (begins_commit t = keyword_in ["COMMIT"] k) as Hc by (unfold begins_commit; by rewrite Hk).
  rewrite Hk. cbn [mbind res_bind]. destruct (keyword_in ["COMMIT"] k) eqn:Hck.
  - assert (rolls_back t = false) as Hno.
    { destruct (rolls_back t); [|done]. destruct (Hrk eq_refl) as (k' & Hk' & He). rewrite Hk in Hk'. injection Hk' as ->.
      rewrite keyword_in_one in Hck. apply bool_decide_eq_true in Hck. apply eq_ignore_case_upper in He. by rewrite Hck in He. }
    cbn [mbind res_bind]. destruct (IH (mkEffects true (effect_rollback e))) as (e' & -> & H1 & H2). exists e'.
    split; [done|]. rewrite H1, H2, Hc, Hno. cbn [effect_commit effect_rollback orb]. by rewrite orb_true_r.
  - destruct (keyword_in ["ROLLBACK"] k) eqn:Hrb; cbn [mbind res_bind].
    + rewrite Hr. cbn [mbind res_bind].
      destruct (IH (mkEffects (effect_commit e) (effect_rollback e || rolls_back t))) as (e' & -> & H1 & H2). exists e'.
      split; [done|]. rewrite H1, H2, Hc. cbn [effect_commit effect_rollback orb]. by rewrite orb_assoc.
    + assert (rolls_back t = false) as Hno.
      { destruct (rolls_back t); [|done]. destruct (Hrk eq_refl) as (k' & Hk' & He). rewrite Hk in Hk'. injection Hk' as ->.
        rewrite keyword_in_one in Hrb. apply bool_decide_eq_false in Hrb. by apply eq_ignore_case_upper in He. }
      destruct (IH e) as (e' & -> & H1 & H2). exists e'. split; [done|]. by rewrite H1, H2, Hc, Hno.
Qed.

(** *** What a statement says, apart from how the driver reads it *)

(** Blanks and comments in front of a word: a comment begins with two dashes or a
    hash mark and goes to the end of its line, or is what is between a slash with a
    star and the first star with a slash. *)
Inductive trivia : bytes → Prop :=
| trivia_none : trivia []
| trivia_blank b l : is_ascii_whitespace b = true → trivia l → trivia (b :: l)
| trivia_line start body l :
    start = [45; 45] ∨ start = [35] → Forall (λ b, b ≠ 10) body → trivia l → trivia (start ++ body ++ 10 :: l)
| trivia_block body l :
    (∀ a b, body ≠ a ++ 42 :: 47 :: b) → trivia l → trivia (47 :: 42 :: body ++ 42 :: 47 :: l).

(** The first word of a text, of letters and underscores, and what follows it. *)
Definition first_word (t word rest : bytes) : Prop :=
  ∃ pre, t = pre ++ word ++ rest ∧ trivia pre ∧ word ≠ [] ∧ Forall (λ b, is_word b = true) word ∧
    (∀ b rest', rest = b :: rest' → is_word b = false).

(** The first word in capital letters. *)
Definition begins_with (t : bytes) (word : string) (rest : bytes) : Prop :=
  ∃ w, first_word t w rest ∧ to_ascii_uppercase w = str word.

Definition commits (t : bytes) : Prop := ∃ rest, begins_with t "COMMIT" rest.

(** After ROLLBACK: TO, with the optional words of the grammar before it. *)
Inductive to_savepoint : bytes → Prop :=
| to_here l rest : begins_with l "TO" rest → to_savepoint l
| to_after l word rest : word ∈ ["WORK"; "AND"; "NO"; "CHAIN"] → begins_with l word rest → to_savepoint rest → to_savepoint l.

(** A rollback of the transaction, not to a savepoint. *)
Definition rolls_transaction_back (t : bytes) : Prop := ∃ rest, begins_with t "ROLLBACK" rest ∧ ¬ to_savepoint rest.

(** *** The driver reads it so *)

Lemma take_while_word word rest :
  Forall (λ b, is_word b = true) word → (∀ b rest', rest = b :: rest' → is_word b = false) →
  take_while is_word (word ++ rest) = word.
Proof.
  intros Hw Hr. induction Hw as [|b word Hb _ IH]; cbn [app take_while].
  - destruct rest as [|b rest]; [done|]. cbn [take_while]. by rewrite (Hr b rest eq_refl).
  - by rewrite Hb, IH.
Qed.

Lemma take_while_all p l : Forall (λ b, p b = true) (take_while p l).
Proof. induction l as [|b l IH]; cbn [take_while]; [constructor|]. destruct (p b) eqn:Hb; by constructor. Qed.

Lemma take_while_stops p l b rest : drop (length (take_while p l)) l = b :: rest → p b = false.
Proof. induction l as [|x l IH]; cbn [take_while]; [done|]. destruct (p x) eqn:Hx; [done|]. by intros [= <- _]. Qed.

Lemma drop_while_stops {A} (p : A → bool) l x rest : drop_while p l = x :: rest → p x = false.
Proof. induction l as [|y l IH]; cbn [drop_while]; [done|]. destruct (p y) eqn:Hy; [done|]. by intros [= <- _]. Qed.

Lemma skip_line_body body l : Forall (λ b, b ≠ 10) body → skip_line (body ++ 10 :: l) = 10 :: l.
Proof. induction 1 as [|b body Hb _ IH]; cbn [app skip_line]; [done|]. by rewrite (proj2 (Z.eqb_neq _ _) Hb). Qed.

Lemma skip_line_split l : (∃ body rest, l = body ++ 10 :: rest ∧ Forall (λ b, b ≠ 10) body ∧ skip_line l = 10 :: rest) ∨ skip_line l = [].
Proof.
  induction l as [|b l IH]; [by right|]. cbn [skip_line]. destruct (Z.eqb_spec b 10) as [->|Hb]; [left; by exists [], l|].
  destruct IH as [(body & rest & -> & Hf & IH)|IH]; [left|by right]. exists (b :: body), rest. split_and!; [done|by constructor|done].
Qed.

Lemma close_comment_body body l :
  (∀ a b, body ≠ a ++ 42 :: 47 :: b) → close_comment (body ++ 42 :: 47 :: l) = Some l.
Proof.
  induction body as [|x body IH]; intros Hb; [done|]. assert (∀ a b, body ≠ a ++ 42 :: 47 :: b) as Hb'.
  { intros a b ->. by apply (Hb (x :: a) b). }
  specialize (IH Hb'). cbn [app]. destruct body as [|y body]; cbn [app] in *.
  - cbn [close_comment]. destruct (x =? 42); done.
  - cbn [close_comment] in *. destruct ((x =? 42) && (y =? 47)) eqn:E; [|exact IH].
    exfalso. apply andb_true_iff in E as [->%Z.eqb_eq ->%Z.eqb_eq]. by apply (Hb [] body).
Qed.

Lemma close_comment_split l rest :
  close_comment l = Some rest → ∃ body, l = body ++ 42 :: 47 :: rest ∧ ∀ a b, body ≠ a ++ 42 :: 47 :: b.
Proof.
  induction l as [|x l IH]; [done|]. cbn [close_comment]. destruct l as [|y l]; [done|].
  destruct ((x =? 42) && (y =? 47)) eqn:E.
  - apply andb_true_iff in E as [->%Z.eqb_eq ->%Z.eqb_eq]. intros [= <-]. exists []. split; [done|]. by intros [|? ?] b.
  - intros Hc. destruct (IH Hc) as (body & Hl & Hb). exists (x :: body). split; [by rewrite Hl|].
    intros [|x' a] b; cbn [app]; [|intros [= _ Ha]; by apply (Hb a b)].
    intros [= -> Ha]. rewrite Ha in Hl. cbn in Hl. injection Hl as -> _. done.
Qed.

Lemma word_not_trivia b : is_word b = true → is_ascii_whitespace b = false ∧ b ≠ 45 ∧ b ≠ 35 ∧ b ≠ 47.
Proof.
  unfold is_word, is_ascii_alphabetic, is_ascii_upper, is_ascii_lower, is_ascii_whitespace. intros Hb.
  split_and!; [|intros ->; by vm_compute in Hb..]. apply not_true_is_false. intros Hw.
  repeat match goal with H : (_ || _) = true |- _ => apply orb_true_iff in H as [?|?] end; bool_prop; lia.
Qed.

(** Blanks and comments are skipped, up to a word. *)
Lemma skip_trivia_word pre b rest fuel :
  trivia pre → is_word b = true → (length (pre ++ b :: rest) < fuel)%nat → skip_trivia fuel (pre ++ b :: rest) = Ok (Some (b :: rest)).
Proof.
  intros Hp Hb. destruct (word_not_trivia b Hb) as (H1 & H2 & H3 & H4). revert fuel.
  induction Hp as [|c l Hc _ IH|start body l Hs Hf _ IH|body l Hf _ IH]; intros [|fuel] Hlt; try lia.
  - cbn [app skip_trivia drop_while]. rewrite H1. by rewrite !(proj2 (Z.eqb_neq _ _)) by done.
  - specialize (IH (S fuel)). cbn [app skip_trivia drop_while] in *. rewrite Hc. apply IH. cbn [length] in Hlt. lia.
  - specialize (IH fuel). rewrite <- !app_assoc in *. cbn [app] in *.
    assert (skip_trivia fuel (10 :: l ++ b :: rest) = Ok (Some (b :: rest))) as Hrest.
    { destruct fuel as [|fuel]; [rewrite !length_app in Hlt; destruct Hs as [->| ->]; cbn [length] in Hlt; lia|].
      change (skip_trivia (S fuel) (10 :: l ++ b :: rest)) with (skip_trivia (S fuel) (l ++ b :: rest)). apply IH.
      rewrite !length_app in Hlt. cbn [length] in Hlt. rewrite !length_app in *. cbn [length] in *. destruct Hs as [->| ->]; cbn [length] in *; lia. }
    destruct Hs as [->| ->]; change (skip_trivia fuel (skip_line (body ++ 10 :: l ++ b :: rest)) = Ok (Some (b :: rest)));
      by rewrite skip_line_body.
  - rewrite <- app_comm_cons, <- app_comm_cons, <- app_assoc in *. cbn [app] in *.
    change (match close_comment (body ++ 42 :: 47 :: l ++ b :: rest) with Some rest => skip_trivia fuel rest | None => Ok None end =
      Ok (Some (b :: rest))).
    rewrite close_comment_body by done. apply IH. cbn [length] in Hlt. rewrite !length_app in Hlt. cbn [length] in Hlt.
    rewrite length_app in *. cbn [length] in *. lia.
Qed.

Lemma trivia_app p q : trivia p → trivia q → trivia (p ++ q).
Proof.
  intros Hp Hq. induction Hp as [|c l Hc _ IH|start body l Hs Hf _ IH|body l Hf _ IH]; [done|by constructor|..].
  - rewrite <- !app_assoc. cbn [app]. by constructor.
  - cbn [app]. rewrite <- app_assoc. cbn [app]. by constructor.
Qed.

Lemma drop_while_blanks l : ∃ ws, l = ws ++ drop_while is_ascii_whitespace l ∧ trivia ws.
Proof.
  induction l as [|x l (ws & IH & Hw)]; [exists []; split; [done|constructor]|]. cbn [drop_while].
  destruct (is_ascii_whitespace x) eqn:Hx; [exists (x :: ws); cbn [app]; rewrite <- IH; split; [done|by constructor]|].
  exists []. split; [done|constructor].
Qed.

(** What is skipped in front of a word is blanks and comments. *)
Lemma skip_trivia_trivia fuel l b rest :
  skip_trivia fuel l = Ok (Some (b :: rest)) → ∃ pre, l = pre ++ b :: rest ∧ trivia pre ∧ is_ascii_whitespace b = false.
Proof.
  revert l. induction fuel as [|fuel IH]; intros l; [done|]. cbn [skip_trivia].
  destruct (drop_while_blanks l) as (ws & Hl & Hws). destruct (drop_while is_ascii_whitespace l) as [|c tail] eqn:Hd; [done|].
  assert (∀ start body, start = [45; 45] ∨ start = [35] → c :: tail = start ++ body →
    skip_trivia fuel (skip_line body) = Ok (Some (b :: rest)) →
    ∃ pre, l = pre ++ b :: rest ∧ trivia pre ∧ is_ascii_whitespace b = false) as Hline.
  { intros start body Hs Hc Hr. destruct (IH _ Hr) as (pre & Hsk & Hpre & Hb).
    destruct (skip_line_split body) as [(text & after & -> & Hf & Hsk')|Hsk']; rewrite Hsk' in Hsk; [|by destruct pre].
    destruct pre as [|x pre]; injection Hsk as <- Ha; [done|]. exists (ws ++ start ++ text ++ 10 :: pre).
    split_and!; [rewrite Hl, Hc, Ha, <- !app_assoc; done| |done]. apply trivia_app; [done|]. constructor; [done|done|].
    inversion Hpre; subst; try done; destruct_or!; subst; simplify_eq/=. }
  destruct (Z.eqb_spec c 45) as [->|Hc1]; [destruct (next_is 45 tail) eqn:Hn|]; cbn [andb].
  { unfold next_is in Hn. apply bool_decide_eq_true in Hn. destruct tail as [|? tail]; [done|]. injection Hn as ->.
    apply (Hline [45; 45] tail); [by left|done]. }
  1: change (45 =? 35) with false; change (45 =? 47) with false; cbn [andb].
  2: destruct (Z.eqb_spec c 35) as [->|Hc2]; [apply (Hline [35] tail); [by right|done]|];
     destruct (Z.eqb_spec c 47) as [->|Hc3]; [destruct (next_is 42 tail) eqn:Hn|]; cbn [andb].
  2: { unfold next_is in Hn. apply bool_decide_eq_true in Hn. destruct tail as [|? tail]; [done|]. injection Hn as ->.
       change (drop 1 (42 :: tail)) with tail. destruct (close_comment tail) as [after|] eqn:Hcc; [|done]. destruct (close_comment_split _ _ Hcc) as (body & -> & Hf).
       intros Hr. destruct (IH _ Hr) as (pre & -> & Hpre & Hb). exists (ws ++ 47 :: 42 :: body ++ 42 :: 47 :: pre).
       split_and!; [rewrite Hl, <- !app_assoc; cbn [app]; by rewrite <- !app_assoc| |done].
       apply trivia_app; [done|]. by constructor. }
  all: intros [= <- <-]; exists ws; split_and!; [done|done|by eapply drop_while_stops].
Qed.

(** The keyword the driver reads is the first word. *)
Lemma leading_keyword_first t w rest : leading_keyword t = Ok (Some (w, rest)) ↔ first_word t w rest.
Proof.
  unfold leading_keyword. split.
  - intros Hk. apply bind_ok in Hk as ([text|] & Hs & Hk); [|done]. case_bool_decide as Hw; [done|]. injection Hk as <- <-.
    destruct text as [|b text]; [done|]. destruct (skip_trivia_trivia _ _ _ _ Hs) as (pre & -> & Hpre & _). exists pre.
    split_and!; [|done|done|apply take_while_all|intros ? ?; apply take_while_stops].
    destruct (take_while_prefix is_word (b :: text)) as [post Hp]. f_equal.
    assert (drop (length (take_while is_word (b :: text))) (b :: text) = post) as -> by (rewrite Hp at 2; apply drop_app_length). done.
  - intros (pre & -> & Hpre & Hne & Hw & Hr). destruct w as [|b w]; [done|].
    rewrite <- app_comm_cons, skip_trivia_word; [|done|by inversion Hw|lia]. cbn [mbind res_bind]. rewrite app_comm_cons.
    rewrite take_while_word by done. by rewrite bool_decide_eq_false_2, drop_app_length by done.
Qed.

Lemma begins_commit_exact t : begins_commit t = true ↔ commits t.
Proof.
  unfold begins_commit, commits, begins_with, leading_sql_keyword. setoid_rewrite <- leading_keyword_first.
  destruct (leading_keyword_ok t) as (o & Ho & _). rewrite Ho. cbn [mbind res_bind]. destruct o as [[w rest]|]; cbn [option_map fst].
  - rewrite keyword_in_one, bool_decide_eq_true. split; [intros Hu; by exists rest, w|]. by intros (rest' & w' & [= <- <-] & Hu).
  - split; [done|]. by intros (rest' & w' & ? & _).
Qed.

Lemma keyword_in_exact words w : keyword_in words (Some w) = true ↔ ∃ word, word ∈ words ∧ to_ascii_uppercase w = str word.
Proof.
  unfold keyword_in. rewrite existsb_exists. split; intros (word & Hin & Hw); exists word; (split; [by apply list_elem_of_In|]);
    by rewrite bool_decide_eq_true in *.
Qed.

Lemma rollback_words_exact fuel l b : rollback_words fuel l = Ok b → (b = false ↔ to_savepoint l).
Proof.
  revert l. induction fuel as [|fuel IH]; intros l; [done|]. cbn [rollback_words]. destruct (leading_keyword_ok l) as (o & Ho & _).
  rewrite Ho. cbn [mbind res_bind].
  assert (∀ word rest, begins_with l word rest → ∃ w, o = Some (w, rest) ∧ to_ascii_uppercase w = str word) as Hfirst.
  { intros word rest (w & Hw%leading_keyword_first & Hu). exists w. split; [congruence|done]. }
  destruct o as [[w rest]|].
  2: { intros [= <-]. split; [done|]. inversion 1 as [? r Hb|? word r _ Hb _]; subst; destruct (Hfirst _ _ Hb) as (? & ? & _); done. }
  apply leading_keyword_first in Ho. destruct (keyword_in _ (Some w)) eqn:Hk.
  - apply keyword_in_exact in Hk as (word & Hin & Hu). intros Hr. rewrite (IH _ Hr). split.
    + intros Ht. eapply to_after; [exact Hin|by exists w|done].
    + inversion 1 as [? r Hb|? word' r _ Hb Ht]; subst; destruct (Hfirst _ _ Hb) as (? & [= <- <-] & Hu'); [|done].
      exfalso. rewrite Hu in Hu'. clear -Hin Hu'. set_unfold. destruct_or! Hin; subst; done.
  - intros [= <-]. rewrite negb_false_iff, eq_ignore_case_upper. split.
    + intros Hu. apply (to_here l rest). by exists w.
    + inversion 1 as [? r Hb|? word' r Hin Hb Ht]; subst; destruct (Hfirst _ _ Hb) as (? & [= <- <-] & Hu'); [done|].
      exfalso. apply not_true_iff_false in Hk. apply Hk, keyword_in_exact. by exists word'.
Qed.

Lemma rolls_back_exact t : rolls_back t = true ↔ rolls_transaction_back t.
Proof.
  unfold rolls_back, is_transaction_rollback, rolls_transaction_back. destruct (leading_keyword_ok t) as (o & Ho & _).
  assert (∀ word rest, begins_with t word rest → ∃ w, o = Some (w, rest) ∧ to_ascii_uppercase w = str word) as Hfirst.
  { intros word rest (w & Hw%leading_keyword_first & Hu). exists w. split; [congruence|done]. }
  rewrite Ho. cbn [mbind res_bind]. destruct o as [[w rest]|].
  2: { split; [done|]. by intros (rest & (? & ? & _)%Hfirst & _). }
  apply leading_keyword_first in Ho. destruct (eq_ignore_ascii_case w (str "rollback")) eqn:He; cbn [negb].
  - apply eq_ignore_case_upper in He. destruct (rollback_words_ok (S (length rest)) rest ltac:(lia)) as [b Hb]. rewrite Hb.
    pose proof (rollback_words_exact _ _ _ Hb) as Hx. split.
    + intros ->. exists rest. split; [by exists w|]. by rewrite <- Hx.
    + intros (rest' & (w' & [= <- <-] & _)%Hfirst & Hno). destruct b; [done|]. exfalso. by apply Hno, Hx.
  - split; [done|]. intros (rest' & (w' & [= <- <-] & Hu)%Hfirst & _). exfalso. apply not_true_iff_false in He. by apply He, eq_ignore_case_upper.
Qed.

Section with_unicode.
Context `{Unicode}.

Lemma unbound_statements_infix q ss : unbound_statements q = Ok ss → Forall (λ t, infix_of t q) ss.
Proof.
  unfold unbound_statements, statement_slices. intros Hs. apply bind_ok in Hs as (scan & _ & Hs).
  destruct (negb _); [done|]. destruct (bool_decide _); [done|]. apply map_res_ok in Hs.
  eapply Forall2_Forall_r; [exact Hs|]. apply Forall_forall. intros r _ t Ht. apply bind_ok in Ht as (text & Ht & [= <-]).
  eapply infix_trans; [apply trim_infix|]. unfold str_slice in Ht. destruct (_ && _) eqn:Hb; [|done]. injection Ht as <-.
  exists (take r.1 q), (drop (r.2 - r.1) (drop r.1 q)). by rewrite take_drop, take_drop.
Qed.

Lemma existsb_infix_false (p : bytes → bool) q needle ss :
  Forall (λ t, infix_of t q) ss → contains_ascii_case_insensitive q needle = false →
  (∀ t, p t = true → ∃ k, leading_sql_keyword t = Ok (Some k) ∧ eq_ignore_ascii_case k needle = true) →
  existsb p ss = false.
Proof.
  intros Hss Hc Hp. destruct (existsb p ss) eqn:He; [|done]. apply existsb_exists in He as (t & Hin & Ht).
  destruct (Hp t Ht) as (k & Hk & Hke). destruct (leading_sql_keyword_ok t) as (o & Ho & Hi). rewrite Hk in Ho. injection Ho as <-.
  assert (infix_of k q) as Hkq.
  { eapply infix_trans; [by apply Hi|]. rewrite Forall_forall in Hss. apply Hss. by apply list_elem_of_In. }
  pose proof (contains_infix k q needle Hkq Hke). congruence.
Qed.

Lemma transaction_effects_ok q ss :
  unbound_statements q = Ok ss →
  transaction_effects q = Ok (mkEffects (existsb begins_commit ss) (existsb rolls_back ss)).
Proof.
  intros Hss. unfold transaction_effects. pose proof (unbound_statements_infix q ss Hss) as Hin.
  destruct (contains_ascii_case_insensitive q (str "commit")) eqn:Hc, (contains_ascii_case_insensitive q (str "rollback")) eqn:Hr;
    cbn [negb andb].
  4: { rewrite (existsb_infix_false begins_commit q (str "commit") ss Hin Hc), (existsb_infix_false rolls_back q (str "rollback") ss Hin Hr);
       [done|..].
       - intros t Ht. by apply is_transaction_rollback_ok.
       - intros t. unfold begins_commit. destruct (leading_sql_keyword_ok t) as (k & -> & _). destruct k as [k|]; [|done].
         rewrite keyword_in_one. intros Hk%bool_decide_eq_true. exists k. split; [done|]. by apply eq_ignore_case_upper. }
  all: rewrite Hss; cbn [mbind res_bind]; destruct (statement_effects_ok (mkEffects false false) ss) as ([c r] & -> & H1 & H2);
    cbn in H1, H2; by rewrite <- H1, <- H2.
Qed.

(** C30. The effects of a script on the transaction are read off exactly: whatever
    its comments, case and strings, [transaction_effects] reports a commit just
    when the first word of one of its statements is COMMIT, and a rollback just
    when the first word of one is ROLLBACK and it is not a rollback to a savepoint
    (no TO follows, directly or after WORK, AND, NO and CHAIN).  Words, blanks and
    comments are those of the language ([first_word], [trivia]), stated apart from
    the driver's reader.  The test that spares most scripts the scan never
    hides one. *)
Theorem transaction_effects_exact q ss :
  unbound_statements q = Ok ss →
  ∃ e, transaction_effects q = Ok e ∧
    (effect_commit e = true ↔ ∃ t, t ∈ ss ∧ commits t) ∧
    (effect_rollback e = true ↔ ∃ t, t ∈ ss ∧ rolls_transaction_back t).
Proof.
  intros Hss. eexists. split; [by apply transaction_effects_ok|]. cbn [effect_commit effect_rollback].
  rewrite !existsb_exists. setoid_rewrite begins_commit_exact. setoid_rewrite rolls_back_exact. by setoid_rewrite list_elem_of_In.
Qed.
End with_unicode.

(** Comments, case, a string and a savepoint. *)
Definition sample_script : bytes :=
  str "INSERT INTO t VALUES ('commit'); /* x */ RollBack AND NO CHAIN; ROLLBACK TO SAVEPOINT s; -- COMMIT".

Lemma transaction_effects_exact_witness :
  ∃ ss, unbound_statements sample_script = Ok ss ∧ length ss = 3%nat ∧
    transaction_effects sample_script = Ok (mkEffects false true) ∧
    (∃ t, t ∈ ss ∧ rolls_transaction_back t) ∧ ∀ t, t ∈ ss → ¬ commits t.
Proof.
  assert (∃ ss, unbound_statements sample_script = Ok ss ∧ length ss = 3%nat) as (ss & Hs & Hl)
    by (eexists; split_and!; by vm_compute).
  assert (transaction_effects sample_script = Ok (mkEffects false true)) as Ht by (by vm_compute).
  exists ss. destruct (transaction_effects_exact _ _ Hs) as (e & He & Hc & Hr). rewrite Ht in He. injection He as <-.
  split_and!; [done..|by apply Hr|]. intros t Hin Hco. by discriminate (proj2 Hc (ex_intro _ t (conj Hin Hco))).
Defined.

(** ** Poisoned transactions *)

(** What a client does with a connection. *)
Inductive sql_op : Type :=
| OpUpdate (query : bytes)
| OpScript (query : bytes)
| OpQuery (query : bytes)
| OpAutocommit (enabled : bool).

Section poison.
Context {db : Type} `{!Server db, CursorDisplay, Unicode}.

Definition discard {A} (m : tx db A) : tx db unit := _ ← m; mret tt.

Definition run_op (o : sql_op) : tx db unit :=
  match o with
  | OpUpdate query => discard (execute_update query)
  | OpScript query => discard (execute_update_script query)
  | OpQuery query => discard (execute_query query)
  | OpAutocommit enabled => set_autocommit_option enabled
  end.

Definition run_ops (s : Session db) (ops : list sql_op) : Session db := foldl (λ s o, (run_op o s).2) s ops.

Definition effects_of (query : bytes) : TransactionEffects :=
  match transaction_effects query with Ok e => e | _ => mkEffects false false end.

Definition op_commits (o : sql_op) : bool :=
  match o with
  | OpUpdate query | OpScript query | OpQuery query => effect_commit (effects_of query)
  | OpAutocommit enabled => enabled
  end.

Definition op_rolls_back (o : sql_op) : bool :=
  match o with
  | OpUpdate query | OpScript query | OpQuery query => effect_rollback (effects_of query)
  | OpAutocommit _ => false
  end.

Definition poisoned (s : Session db) (reason : bytes) : Prop := transaction_poison (connection s) = Some reason.

(** Locking the connection sends the pending deallocations on their way:
    sessions that differ in nothing else are the same. *)
Definition settled (s : Session db) : Session db := queue_pending_deallocations s.
Definition same_session (s s' : Session db) : Prop := settled s = settled s'.

#[local] Instance same_session_equivalence : Equivalence same_session.
Proof. split; unfold same_session; repeat intro; congruence. Qed.

Lemma settled_same s : same_session (settled s) s.
Proof. reflexivity. Qed.

(** An operation that depends on the session only through the lock it takes. *)
Definition locks {A} (m : tx db A) : Prop := ∀ s, m s = m (settled s) ∨ ((m s).2 = s ∧ (m (settled s)).2 = settled s).

Lemma locks_lift {A} (x : res Error A) : locks (lift x).
Proof. by right. Qed.

Lemma locks_checked {A B} (x : res Error A) (f : A → tx db B) : (∀ a, locks (f a)) → locks (lift x ≫= f).
Proof. intros Hf s. unfold mbind, tx_bind, lift. destruct x as [a| |]; [apply Hf|by right..]. Qed.

Lemma locks_locked {B} (f : unit → tx db B) : locks (lock_connection ≫= f).
Proof. by left. Qed.

Lemma locks_discard {A} (m : tx db A) : locks m → locks (discard m).
Proof.
  intros Hm s. unfold discard, mbind, tx_bind. destruct (Hm s) as [->|[H1 H2]]; [by left|right].
  destruct (m s) as [[| |] ?], (m (settled s)) as [[| |] ?]; cbn in *; by subst.
Qed.

Lemma locks_if {A} (b : bool) (m1 m2 : tx db A) : locks m1 → locks m2 → locks (if b then m1 else m2).
Proof. by destruct b. Qed.

Lemma run_op_locks o : locks (run_op o).
Proof.
  destruct o; cbn [run_op]; [apply locks_discard..|]; unfold execute_update, execute_update_script, execute_query, set_autocommit_option;
    repeat (first [apply locks_locked | apply locks_checked; intros ? | apply locks_if | apply locks_lift]).
Qed.

#[local] Instance run_op_proper o : Proper (same_session ==> same_session) (λ s, (run_op o s).2).
Proof.
  assert (∀ s, same_session (run_op o s).2 (run_op o (settled s)).2) as Hs.
  { intros s. destruct (run_op_locks o s) as [->|[-> ->]]; [done|by rewrite settled_same]. }
  intros s s' Heq. rewrite Hs, (Hs s'). by rewrite Heq.
Qed.

Lemma run_ops_same ops s s' : same_session s s' → same_session (run_ops s ops) (run_ops s' ops).
Proof.
  revert s s'. induction ops as [|o ops IH]; intros s s' Hs; [done|]. apply IH. by apply (run_op_proper o).
Qed.

(** A run that keeps the poison, whatever its result. *)
Definition keeps_poison {A} (r : bytes) (m : tx db A) : Prop := ∀ s, poisoned s r → poisoned (m s).2 r.

Lemma keeps_poison_bind {A B} r (m : tx db A) (f : A → tx db B) :
  keeps_poison r m → (∀ a, keeps_poison r (f a)) → keeps_poison r (m ≫= f).
Proof.
  intros Hm Hf s Hs. unfold mbind, tx_bind. specialize (Hm s Hs). destruct (m s) as [[a| |] s']; [by apply Hf|done..].
Qed.

Lemma keeps_lift {A} r (x : res Error A) : keeps_poison r (lift x).
Proof. by intros s Hs. Qed.

Lemma lift_ok {A B} (a : A) (f : A → tx db B) : (lift (Ok a) ≫= f) = f a.
Proof. reflexivity. Qed.

Lemma keeps_ret {A} r (a : A) : keeps_poison r (mret a : tx db A).
Proof. by intros s Hs. Qed.

Lemma keeps_execute r q : keeps_poison r (execute q).
Proof.
  apply keeps_poison_bind; [|intros a; apply keeps_lift]. intros s Hs. unfold execute_raw. by destruct (server_execute (server s) q).
Qed.

Lemma keeps_lock r : keeps_poison r lock_connection.
Proof. by intros s Hs. Qed.

Lemma keeps_set_autocommit r b : keeps_poison r (set_autocommit_raw b).
Proof. intros s Hs. unfold set_autocommit_raw. by destruct (server_set_autocommit (server s) b). Qed.

Lemma keeps_rollback r e : effect_rollback e = false → keeps_poison r (on_connection (λ c, apply_transaction_rollback c e)).
Proof. intros He s Hs. unfold poisoned, on_connection, apply_transaction_rollback in *. simpl. rewrite He. by destruct (_ || _). Qed.

Lemma script_keeps r total ss : existsb rolls_back ss = false → keeps_poison r (script_statements total ss).
Proof.
  revert total. induction ss as [|t ss IH]; intros total Hss; [apply keeps_ret|]. cbn [script_statements existsb] in *.
  apply orb_false_iff in Hss as [Ht Hss]. apply keeps_poison_bind; [apply keeps_execute|]. intros [reply more].
  destruct (is_transaction_rollback_ok t) as [-> _]. rewrite Ht, lift_ok.
  apply keeps_poison_bind; [by apply keeps_rollback|]. intros _. apply keeps_poison_bind; [|intros total'; by apply IH].
  destruct (has_result_set reply), (affected_rows reply); try apply keeps_ret.
  apply keeps_poison_bind; [apply keeps_lift|intros n; apply keeps_ret].
Qed.

(** A poisoned connection refuses what would commit, before anything is sent. *)
Lemma guarded_refused {A} r s effects (k : unit → tx db A) :
  poisoned s r → effect_commit effects = true →
  ∃ e, (_ ← lock_connection; c ← get_connection; _ ← lift (guard_transaction_commit c effects); k tt) s = (Err e, settled s) ∧
    commit_error (connection s) = Some e.
Proof.
  intros Hs He. unfold poisoned in Hs.
  unfold mbind, tx_bind, lock_connection, get_connection, lift, guard_transaction_commit, commit_error. cbn.
  rewrite Hs, He. cbn. by eexists.
Qed.

(** Refused: an error, and the session as it was. *)
Definition refuses {A} (m : tx db A) (s : Session db) : Prop := ∃ e s', m s = (Err e, s') ∧ same_session s' s.

Lemma discard_refuses {A} (m : tx db A) s : refuses m s → refuses (discard m) s.
Proof. intros (e & s' & Hm & Hs). exists e, s'. split; [|done]. unfold discard, mbind, tx_bind. by rewrite Hm. Qed.

Lemma is_prepare_ok q : ∃ b, is_prepare_statement q = Ok b.
Proof. unfold is_prepare_statement. destruct (leading_sql_keyword_ok q) as (o & -> & _). by eexists. Qed.

Lemma effects_of_commit q : effect_commit (effects_of q) = true → transaction_effects q = Ok (effects_of q).
Proof. unfold effects_of. by destruct (transaction_effects q). Qed.

(** The two operations that send a text as it is. *)
Definition guarded {A} (message : string) (finish : Reply → A) (query : bytes) : tx db A :=
  prepare ← lift (is_prepare_statement query);
  if (prepare : bool) then lift (Err (error message InvalidArguments))
  else
    effects ← lift (transaction_effects query);
    _ ← lock_connection;
    c ← get_connection;
    _ ← lift (guard_transaction_commit c effects);
    '(reply, _) ← execute query;
    _ ← on_connection (λ c, apply_transaction_rollback c effects);
    mret (finish reply).

Lemma guarded_step {A} message (finish : Reply → A) q s r :
  poisoned s r →
  (effect_commit (effects_of q) = true → refuses (guarded message finish q) s) ∧
  (effect_rollback (effects_of q) = false → poisoned (guarded message finish q s).2 r).
Proof.
  intros Hs. unfold guarded. destruct (is_prepare_ok q) as [b ->]. rewrite lift_ok. destruct b; [split; [by eexists _, _|done]|].
  split.
  - intros He. unfold refuses. rewrite (effects_of_commit _ He), lift_ok.
    destruct (guarded_refused r s (effects_of q) (λ _, '(reply, _) ← execute q;
      _ ← on_connection (λ c, apply_transaction_rollback c (effects_of q)); mret (finish reply)) Hs He) as (e & He' & _).
    by exists e, (settled s).
  - unfold effects_of. destruct (transaction_effects q) as [effects| |]; [|done..]. rewrite lift_ok. intros He.
    revert s Hs. change (keeps_poison r (_ ← lock_connection; c ← get_connection; _ ← lift (guard_transaction_commit c effects);
      '(reply, _) ← execute q; _ ← on_connection (λ c, apply_transaction_rollback c effects); mret (finish reply))).
    apply keeps_poison_bind; [apply keeps_lock|]. intros _. apply keeps_poison_bind; [by intros s Hs|]. intros c.
    apply keeps_poison_bind; [apply keeps_lift|]. intros _. apply keeps_poison_bind; [apply keeps_execute|]. intros [reply more]. apply keeps_poison_bind; [by apply keeps_rollback|].
    intros _. apply keeps_ret.
Qed.

Lemma script_step q s r :
  poisoned s r →
  (effect_commit (effects_of q) = true → refuses (execute_update_script q) s) ∧
  (effect_rollback (effects_of q) = false → poisoned (execute_update_script q s).2 r).
Proof.
  intros Hs. unfold refuses, execute_update_script. destruct (unbound_statements q) as [ss| |] eqn:Hss.
  2: { split; [by eexists _, _|done]. }
  2: { split; [|done]. unfold effects_of, transaction_effects. rewrite Hss. by destruct (_ && _). }
  rewrite lift_ok. pose proof (transaction_effects_ok q ss Hss) as Heff.
  assert (∃ bs, map_res is_prepare_statement ss = Ok bs) as [bs ->].
  { clear. assert (∃ bs, Forall2 (λ t b, is_prepare_statement t = Ok b) ss bs) as [bs Hbs].
    { induction ss as [|t ss [bs IH]]; [by exists []|]. destruct (is_prepare_ok t) as [b Hb]. exists (b :: bs). by constructor. }
    exists bs. by apply map_res_ok. }
  rewrite lift_ok. destruct (existsb id bs); [split; [by eexists _, _|done]|]. unfold effects_of. rewrite Heff, lift_ok. split.
  - intros He. destruct (guarded_refused r s _ (λ _, script_statements None ss) Hs He) as (e & He' & _). by exists e, (settled s).
  - intros He. revert s Hs. apply keeps_poison_bind; [apply keeps_lock|]. intros _. apply keeps_poison_bind; [by intros s Hs|]. intros c. apply keeps_poison_bind; [apply keeps_lift|]. intros _.
    by apply script_keeps.
Qed.

Lemma autocommit_step enabled s r :
  poisoned s r →
  (enabled = true → refuses (set_autocommit_option enabled) s) ∧ poisoned (set_autocommit_option enabled s).2 r.
Proof.
  intros Hs. destruct enabled.
  - assert (∃ e, set_autocommit_option true s = (Err e, settled s)) as [e He].
    { unfold poisoned in Hs. unfold set_autocommit_option, mbind, tx_bind, lock_connection, get_connection, lift, commit_error.
      cbn. rewrite Hs. by eexists. }
    unfold refuses. rewrite He. split; [by eexists _, _|done].
  - split; [done|]. revert s Hs. apply keeps_poison_bind; [apply keeps_lock|]. intros _. apply keeps_poison_bind; [by intros s Hs|]. intros c. apply keeps_poison_bind; [apply keeps_lift|]. intros _.
    apply keeps_poison_bind; [by intros s Hs|]. intros current. cbn [andb orb]. apply keeps_poison_bind; [apply keeps_ret|]. intros _.
    apply keeps_poison_bind.
    + destruct (negb _); [|apply keeps_ret]. apply keeps_poison_bind; [apply keeps_set_autocommit|intros x; apply keeps_lift].
    + intros _. destruct (negb _); [|apply keeps_ret]. by intros s Hs.
Qed.

Lemma run_op_poisoned o s r :
  poisoned s r → (op_commits o = true → refuses (run_op o) s) ∧ (op_rolls_back o = false → poisoned (run_op o s).2 r).
Proof.
  intros Hs. assert (∀ A (m : tx db A), poisoned (m s).2 r → poisoned (discard m s).2 r) as Hdiscard.
  { intros A m Hm. unfold discard, mbind, tx_bind. by destruct (m s) as [[| |] ?]. }
  destruct o as [q|q|q|enabled]; cbn [run_op op_commits op_rolls_back];
    [| | |by destruct (autocommit_step enabled s r Hs)].
  - destruct (guarded_step "execute_update() does not accept a PREPARE statement; call Statement::prepare() instead"
      (λ reply, if has_result_set reply then None else affected_rows reply) q s r Hs) as [H1 H2].
    split; intros He; [by apply discard_refuses, H1|by apply Hdiscard, H2].
  - destruct (script_step q s r Hs) as [H1 H2]. split; intros He; [by apply discard_refuses, H1|by apply Hdiscard, H2].
  - destruct (guarded_step "execute() does not accept a PREPARE statement; call Statement::prepare() instead" id q s r Hs) as [H1 H2].
    split; intros He; [by apply discard_refuses, H1|by apply Hdiscard, H2].
Qed.

Lemma run_ops_poisoned ops s r :
  poisoned s r → Forall (λ o, op_rolls_back o = false) ops →
  poisoned (run_ops s ops) r ∧ same_session (run_ops s ops) (run_ops s (filter (λ o, op_commits o = false) ops)).
Proof.
  intros Hs Hops. revert s Hs. induction Hops as [|o ops Ho _ IH]; intros s Hs; [done|].
  destruct (run_op_poisoned o s r Hs) as [Hc Hk]. change (run_ops s (o :: ops)) with (run_ops (run_op o s).2 ops).
  rewrite filter_cons. destruct (op_commits o) eqn:Hco; [rewrite decide_False by done|rewrite decide_True by done].
  - destruct (Hc eq_refl) as (e & s' & He & Hsame). specialize (Hk Ho). rewrite He in *. destruct (IH _ Hk) as [H1 H2].
    split; [done|]. rewrite H2. by apply run_ops_same.
  - by apply IH, Hk.
Qed.

(** [Connection::commit] of a poisoned transaction is refused. *)
Lemma poisoned_commit_refused s r :
  poisoned s r → ∃ e, (commit s : res Error unit * Session db) = (Err e, settled s) ∧ error_sqlstate e = str "25000".
Proof.
  intros Hs. assert (transaction_effects (str "COMMIT") = Ok (mkEffects true false)) as He by (by vm_compute).
  assert (is_prepare_statement (str "COMMIT") = Ok false) as Hp by (by vm_compute).
  unfold commit, execute_update. rewrite Hp, lift_ok, He, lift_ok. unfold poisoned in Hs.
  unfold mbind, tx_bind, lock_connection, get_connection, lift, guard_transaction_commit, commit_error. cbn. rewrite Hs. by eexists.
Qed.

(** C13. A transaction that may hold partial writes cannot be committed.  Once a
    connection is poisoned, and as long as the client does not roll back, in any
    sequence of updates, scripts, queries and changes of the autocommit mode:
    the poison stays, and every operation that would commit (a COMMIT anywhere
    in its text, or enabling autocommit) has no effect at all, as if it had been
    left out (but for the pending deallocations, which any operation sends).
    [Connection::commit] fails with SQLSTATE 25000. *)
Theorem poisoned_until_rollback ops s r :
  poisoned s r → Forall (λ o, op_rolls_back o = false) ops →
  poisoned (run_ops s ops) r ∧ same_session (run_ops s ops) (run_ops s (filter (λ o, op_commits o = false) ops)) ∧
  ∃ e, (commit s : res Error unit * Session db) = (Err e, settled s) ∧ error_sqlstate e = str "25000".
Proof.
  intros Hs Hops. destruct (run_ops_poisoned ops s r Hs Hops) as [H1 H2]. split_and!; [done..|].
  by eapply poisoned_commit_refused.
Qed.
End poison.

(** ** A server to try it on *)

(** A database as the list of the statements it keeps: what is committed, what
    the transaction sees, the savepoints of the transaction, and whether a
    refused statement has aborted it. *)
Record toy : Type := mkToy {
  toy_durable : list bytes; toy_current : list bytes; toy_saved : list (bytes * list bytes);
  toy_autocommit : bool; toy_aborted : bool;
}.

Definition strip_prefix (prefix text : bytes) : option bytes :=
  if bool_decide (take (length prefix) text = prefix) then Some (drop (length prefix) text) else None.

Fixpoint lookup_savepoint (name : bytes) (l : list (bytes * list bytes)) : option (list bytes) :=
  match l with
  | (n, c) :: l => if bool_decide (n = name) then Some c else lookup_savepoint name l
  | [] => None
  end.

Inductive toy_statement : Type :=
| ToyCommit | ToyRollback | ToySavepoint (name : bytes) | ToyRelease (name : bytes) | ToyRollbackTo (name : bytes)
| ToyDeallocate | ToyOther.

Definition toy_parse (q : bytes) : toy_statement :=
  if bool_decide (q = str "COMMIT") then ToyCommit
  else if bool_decide (q = str "ROLLBACK") then ToyRollback
  else match strip_prefix (str "SAVEPOINT ") q with Some name => ToySavepoint name | None =>
  match strip_prefix (str "RELEASE SAVEPOINT ") q with Some name => ToyRelease name | None =>
  match strip_prefix (str "ROLLBACK TO SAVEPOINT ") q with Some name => ToyRollbackTo name | None =>
  match strip_prefix (str "DEALLOCATE ") q with Some _ => ToyDeallocate | None => ToyOther end end end end.

Definition toy_reply : replies := (mkReply false (Some 1), []).
Definition toy_refusal : CursorError := CE_Server (Some (str "25001")) (str "refused").
Definition toy_abort (d : toy) : toy := mkToy (toy_durable d) (toy_current d) (toy_saved d) (toy_autocommit d) true.
Definition toy_set (d : toy) (durable current : list bytes) (saved : list (bytes * list bytes)) : toy :=
  mkToy durable current saved (toy_autocommit d) false.

Definition toy_execute (d : toy) (q : bytes) : res CursorError replies * toy :=
  match toy_parse q with
  | ToyRollback => (Ok toy_reply, toy_set d (toy_durable d) (toy_durable d) [])
  | ToyRollbackTo name =>
      match lookup_savepoint name (toy_saved d) with
      | Some content => (Ok toy_reply, toy_set d (toy_durable d) content (toy_saved d))
      | None => (Err toy_refusal, toy_abort d)
      end
  | statement =>
      if toy_aborted d then (Err toy_refusal, d)
      else
        match statement with
        | ToyCommit => (Ok toy_reply, toy_set d (toy_current d) (toy_current d) [])
        | ToySavepoint name =>
            (Ok toy_reply, toy_set d (toy_durable d) (toy_current d) ((name, toy_current d) :: toy_saved d))
        | ToyRelease name =>
            match lookup_savepoint name (toy_saved d) with
            | Some _ => (Ok toy_reply, d)
            | None => (Err toy_refusal, toy_abort d)
            end
        | ToyDeallocate => (Ok toy_reply, d)
        | _ =>
            let content := toy_current d ++ [q] in
            (Ok toy_reply, toy_set d (if toy_autocommit d then content else toy_durable d) content (toy_saved d))
        end
  end.

#[global] Instance toy_server : Server toy := {|
  server_autocommit d := Ok (toy_autocommit d);
  server_set_autocommit d enabled := (Ok tt, mkToy (toy_durable d) (toy_current d) (toy_saved d) enabled (toy_aborted d));
  server_execute := toy_execute;
  server_query_row d _ := (Ok (Some [Some (str "0")]), d);
  server_try_deallocate d _ := d;
|}.

#[global] Instance plain_cursor_text : CursorDisplay := {|
  cursor_error_text e := match e with CE_Server _ message => message | _ => str "connection lost" end;
|}.

(** A transaction with a statement of which half was done. *)
Definition poisoned_session : Session toy :=
  mkSession (poison_ingest connection_new (str "t") 2) (mkToy [] [str "half"] [] false false) 0 [].

Lemma poisoned_until_rollback_witness :
  let ops := [OpUpdate (str "INSERT INTO t VALUES (1)"); OpScript (str "SELECT 1; /* now */ commit"); OpAutocommit true] in
  toy_durable (server (run_ops poisoned_session ops)) = [] ∧
  same_session (run_ops poisoned_session ops) (run_ops poisoned_session [OpUpdate (str "INSERT INTO t VALUES (1)")]) ∧
  length (toy_current (server (run_ops poisoned_session ops))) = 2%nat.
Proof.
  intros ops.
  destruct (poisoned_until_rollback ops poisoned_session
    (str "ingest into t failed after 2 COPY windows; the transaction may contain partial writes")) as (H1 & H2 & _);
    [by vm_compute|repeat constructor; by vm_compute|].
  split; [by vm_compute|]. split; [|by vm_compute].
  replace [OpUpdate (str "INSERT INTO t VALUES (1)")] with (filter (λ o, op_commits o = false) ops) by (by vm_compute).
  exact H2.
Defined.
