(* ===== verification/AtomicProofs.v ===== *)
(** An atomic scope keeps all of an operation or nothing of it, from what the
    server promises about transactions and savepoints. *)

From stdpp Require Import base list numbers strings gmap.
From S2P Require Import Prelude RustStd Types Errors SqlScan SqlScanProofs Template Transactions TransactionsProofs.
Local Open Scope Z_scope.

(** ** What the server promises *)

Definition commit_sql : bytes := str "COMMIT".
Definition rollback_sql : bytes := str "ROLLBACK".
Definition release_sql (name : bytes) : bytes := str "RELEASE SAVEPOINT " ++ name.
Definition rollback_to_sql (name : bytes) : bytes := str "ROLLBACK TO SAVEPOINT " ++ name.

(** The content that survives a loss of the connection, the content the
    transaction sees, the content at a savepoint, and whether the transaction has
    written nothing yet; and what the statements
    of transaction control do with them when they succeed.  A statement the
    server refuses has not committed anything; a COMMIT whose answer got lost has
    committed the transaction or nothing of it. *)
Class TransactionLaws (db content : Type) `{!Server db} := {
  durable : db → content;
  current : db → content;
  saved : db → bytes → option content;
  unwritten : db → Prop;
  execute_no_panic d q : (server_execute d q).1 ≠ Panic;
  set_autocommit_no_panic d b : (server_set_autocommit d b).1 ≠ Panic;
  commit_ok d x d' : server_execute d commit_sql = (Ok x, d') → durable d' = current d ∧ current d' = current d;
  commit_refused d state message d' :
    server_execute d commit_sql = (Err (CE_Server state message), d') → durable d' = durable d;
  commit_lost d e d' : server_execute d commit_sql = (Err e, d') → durable d' = durable d ∨ durable d' = current d;
  rollback_ok d x d' : server_execute d rollback_sql = (Ok x, d') → durable d' = durable d ∧ current d' = durable d;
  enable_autocommit d r d' :
    server_set_autocommit d true = (r, d') → current d = durable d → durable d' = durable d;
  release_ok d name x d' : server_execute d (release_sql name) = (Ok x, d') → current d' = current d;
  release_refused d name e d' : server_execute d (release_sql name) = (Err e, d') → saved d' name = saved d name;
  rollback_to_ok d name x d' before :
    saved d name = Some before → server_execute d (rollback_to_sql name) = (Ok x, d') → current d' = before;
}.

Section atomic.
Context {db content : Type} `{!Server db} `{!TransactionLaws db content} `{CursorDisplay}.

Definition scope_open (scope : AtomicScope) (d : db) (before : content) : Prop :=
  match scope with
  | Autocommit => durable d = before
  | CallerTransaction => True
  | Savepoint name _ => saved d name = Some before
  end.

(** What the scope decides about: the database for a transaction of its own,
    the caller's transaction for a savepoint. *)
Definition scope_content (scope : AtomicScope) (d : db) : content :=
  match scope with Autocommit => durable d | _ => current d end.

Definition mentions (text : string) (e : Error) : Prop := ∃ pre post, error_message e = pre ++ str text ++ post.

(** The server's answer to COMMIT got lost. *)
Definition commit_in_doubt (d : db) : Prop :=
  ∃ e d', server_execute d commit_sql = (Err e, d') ∧ ∀ state message, e ≠ CE_Server state message.

Ltac tx_unfold := unfold mbind, tx_bind, mret, tx_ret, lift, execute_raw, set_autocommit_raw, done_of; cbn [server connection savepoint_id sent].

(** The end of [finish_atomic]: recovery when the result is an error, and the
    autocommit mode. *)
Definition recovered {A} (scope : AtomicScope) (result : res Error A) : tx db A :=
  result ←
    match result with
    | Ok _ => mret result
    | result =>
        recovery ← recover_scope scope;
        mret (combine_atomic_error result recovery (str "transaction recovery"))
    end;
  result ←
    match scope with
    | Autocommit =>
        restored ← set_autocommit_raw true;
        mret (combine_atomic_error result restored (str "restoring autocommit"))
    | _ => mret result
    end;
  lift result.

Lemma finish_atomic_split {A} scope (operation : res Error A) :
  finish_atomic scope operation =
  (result ← match operation with
     | Ok value => finalize ← finalize_scope scope; mret (map_err map_cursor_error ((λ _, value) <$> finalize))
     | result => mret result
     end;
   recovered scope result : tx db A).
Proof. reflexivity. Qed.

(** Undoing after an error: the content is what it was, or the error says that
    the recovery failed. *)
Lemma recovered_error {A} scope root (s : Session db) before r s' :
  scope_open scope (server s) before → scope ≠ CallerTransaction →
  recovered scope (Err root : res Error A) s = (r, s') →
  ∃ e, r = Err e ∧ (scope_content scope (server s') = before ∨ mentions "transaction recovery also failed" e).
Proof.
  intros Ho Hne. unfold recovered. destruct scope as [| |name retain]; [|done|]; cbn [recover_scope]; tx_unfold.
  - pose proof (execute_no_panic (server s) rollback_sql) as Hnp. unfold rollback_sql in *.
    destruct (server_execute (server s) (str "ROLLBACK")) as [[x|e|] d] eqn:E; cbn [fst] in Hnp; [| |done]; cbn.
    + apply rollback_ok in E as [E1 E2]. pose proof (set_autocommit_no_panic d true) as Hsp.
      destruct (server_set_autocommit d true) as [[[]|e|] d'] eqn:E'; cbn [fst] in Hsp; [| |done]; cbn; intros [= <- <-];
        eexists; (split; [done|]); left; cbn; cbn in Ho; rewrite <- Ho, <- E1; by eapply enable_autocommit; [exact E'|congruence].
    + pose proof (set_autocommit_no_panic d true) as Hsp.
      destruct (server_set_autocommit d true) as [[[]|e'|] d'] eqn:E'; cbn [fst] in Hsp; [| |done]; cbn; intros [= <- <-];
        eexists; (split; [done|]); right; unfold mentions; cbn [with_message error_message].
      * exists (error_message root ++ str "; "), (str ": " ++ cursor_error_text e). by rewrite <- !app_assoc.
      * exists (error_message root ++ str "; "), (str ": " ++ cursor_error_text e ++ str "; restoring autocommit also failed: " ++ cursor_error_text e').
        by rewrite <- !app_assoc.
  - pose proof (execute_no_panic (server s) (rollback_to_sql name)) as Hnp. unfold rollback_to_sql in *.
    destruct (server_execute (server s) (str "ROLLBACK TO SAVEPOINT " ++ name)) as [[x|e|] d] eqn:E; cbn [fst] in Hnp; [| |done]; cbn.
    + destruct retain; cbn.
      * intros [= <- <-]. eexists. split; [done|]. left. cbn. by eapply rollback_to_ok.
      * pose proof (execute_no_panic d (release_sql name)) as Hrp. unfold release_sql in *.
        destruct (server_execute d (str "RELEASE SAVEPOINT " ++ name)) as [[y|e|] d'] eqn:E'; cbn [fst] in Hrp; [| |done]; cbn;
          intros [= <- <-]; eexists; (split; [done|]).
        -- left. cbn. rewrite (release_ok _ _ _ _ E'). by eapply rollback_to_ok.
        -- right. exists (error_message root ++ str "; "), (str ": " ++ cursor_error_text e). cbn. by rewrite <- !app_assoc.
    + intros [= <- <-]. eexists. split; [done|]. right. exists (error_message root ++ str "; "), (str ": " ++ cursor_error_text e).
      cbn. by rewrite <- !app_assoc.
Qed.

Lemma recovered_ok_savepoint {A} name retain (v : A) (s : Session db) : recovered (Savepoint name retain) (Ok v) s = (Ok v, s).
Proof. reflexivity. Qed.

Lemma recovered_ok_autocommit {A} (v : A) (s : Session db) r s' :
  current (server s) = durable (server s) → recovered Autocommit (Ok v : res Error A) s = (r, s') →
  durable (server s') = durable (server s) ∧
  (r = Ok v ∨ ∃ e, r = Err e ∧ mentions "restoring autocommit failed" e).
Proof.
  intros Hc. unfold recovered. tx_unfold. pose proof (set_autocommit_no_panic (server s) true) as Hsp.
  destruct (server_set_autocommit (server s) true) as [[[]|e|] d'] eqn:E'; cbn [fst] in Hsp; [| |done]; cbn; intros [= <- <-];
    (split; [by eapply enable_autocommit|]); [by left|]. right. eexists. split; [done|].
  exists [], (str ": " ++ error_message (map_cursor_error e)). done.
Qed.

(** How the scope ends when nothing is lost on the way: what an error means. *)
Definition error_outcome (scope : AtomicScope) (s1 s' : Session db) (before : content) (e : Error) : Prop :=
  scope_content scope (server s') = before ∨
  mentions "transaction recovery also failed" e ∨
  scope = Autocommit ∧ commit_in_doubt (server s1) ∧ durable (server s') = current (server s1) ∨
  scope = Autocommit ∧ durable (server s') = current (server s1) ∧ mentions "restoring autocommit failed" e.

(** What [finish_atomic] returns and leaves behind. *)
Lemma finish_atomic_outcome {A} scope (operation : res Error A) (s1 s' : Session db) before r :
  scope_open scope (server s1) before → operation ≠ Panic → finish_atomic scope operation s1 = (r, s') →
  match r with
  | Ok v => operation = Ok v ∧ scope_content scope (server s') = current (server s1)
  | Err e => scope = CallerTransaction ∧ operation = Err e ∧ s' = s1 ∨ error_outcome scope s1 s' before e
  | Panic => False
  end.
Proof.
  intros Ho Hnp. rewrite finish_atomic_split. destruct operation as [v|root|]; [| |done].
  2: { unfold mbind, tx_bind, mret at 1, tx_ret. intros Hf. assert (scope = CallerTransaction ∨ scope ≠ CallerTransaction) as [->|Hne] by (destruct scope; auto).
       - injection Hf as <- <-. by left.
       - destruct (recovered_error scope root s1 before r s' Ho Hne Hf) as (e & -> & Hor). right. unfold error_outcome. tauto. }
  destruct scope as [| |name retain].
  - cbn [finalize_scope]. unfold mbind, tx_bind, execute_raw, mret, tx_ret. fold commit_sql.
    pose proof (execute_no_panic (server s1) commit_sql) as Hcp.
    destruct (server_execute (server s1) commit_sql) as [[x|e|] d] eqn:E; cbn [fst] in Hcp; [| |done]; cbn [done_of fmap res_fmap map_err].
    + destruct (commit_ok _ _ _ E) as [E1 E2]. intros Hf. apply recovered_ok_autocommit in Hf; [|cbn [server]; congruence].
      cbn [server] in Hf. destruct Hf as [Hd [->|(e & -> & Hm)]]; [split; [done|]; cbn; congruence|].
      right. unfold error_outcome. right. right. right. split_and!; [done|congruence|done].
    + intros Hf.
      assert ((∃ state message, e = CE_Server state message) ∨ ∀ state message, e ≠ CE_Server state message) as [(state & message & ->)|Hno]
        by (destruct e; [right; done..|left; by eexists _, _]).
      * apply commit_refused in E. apply (recovered_error Autocommit) with (before := before) in Hf; [|cbn in *; congruence|done].
        destruct Hf as (e & -> & Hor). right. unfold error_outcome. tauto.
      * pose proof (commit_lost _ _ _ E) as Hlost. apply (recovered_error Autocommit) with (before := durable d) in Hf; [|done..].
        destruct Hf as (e' & -> & [Hd|Hm]); right; unfold error_outcome; [|tauto]. cbn [scope_content scope_open] in *.
        destruct Hlost as [Hl|Hl]; [left; congruence|]. right. right. left. split_and!; [done|by exists e, d|congruence].
  - unfold mbind, tx_bind, mret, tx_ret. cbn. by intros [= <- <-].
  - cbn [finalize_scope]. destruct retain.
    { unfold mbind, tx_bind, mret, tx_ret. cbn [fmap res_fmap map_err]. rewrite recovered_ok_savepoint. by intros [= <- <-]. }
    unfold mbind, tx_bind, execute_raw, mret, tx_ret. fold (release_sql name).
    pose proof (execute_no_panic (server s1) (release_sql name)) as Hrp.
    destruct (server_execute (server s1) (release_sql name)) as [[x|e|] d] eqn:E; cbn [fst] in Hrp; [| |done]; cbn [done_of fmap res_fmap map_err].
    + rewrite recovered_ok_savepoint. intros [= <- <-]. split; [done|]. cbn. by eapply release_ok.
    + intros Hf. apply (recovered_error (Savepoint name false)) with (before := before) in Hf; [| |done].
      * destruct Hf as (e' & -> & Hor). right. unfold error_outcome. tauto.
      * cbn in *. by rewrite (release_refused _ _ _ _ E).
Qed.

(** C12. An atomic scope keeps all of an operation or nothing of it, or leaves it to
    the caller.  When
    [finish_atomic] returns the operation's value, everything the operation did
    is kept: committed, for a scope with a transaction of its own, or part of
    the caller's transaction, for a savepoint or for the caller's transaction
    itself.  When it returns an error, one of five things holds: the
    content is what it was before the operation; the error says that the recovery
    failed as well; the scope has a transaction of its own, the server's answer to
    its COMMIT got lost (a failure that is not a refusal by the server, in the
    state COMMIT was sent in) and everything is committed; everything is committed
    and the error says that restoring the autocommit mode failed; or the scope is
    the caller's transaction without a savepoint, which [finish_atomic] leaves as
    it is, with what the failed operation had written in it, and returns the
    operation's error. *)
Theorem finish_atomic_all_or_nothing {A} scope (operation : res Error A) (s1 s' : Session db) before r :
  scope_open scope (server s1) before → operation ≠ Panic → finish_atomic scope operation s1 = (r, s') →
  match r with
  | Ok v => operation = Ok v ∧ scope_content scope (server s') = current (server s1)
  | Err e => scope = CallerTransaction ∧ operation = Err e ∧ s' = s1 ∨ error_outcome scope s1 s' before e
  | Panic => False
  end.
Proof. apply finish_atomic_outcome. Qed.
End atomic.

(** ** The server to try it on keeps the promises *)

Lemma toy_parse_release name : toy_parse (release_sql name) = ToyRelease name.
Proof.
  unfold toy_parse. rewrite !bool_decide_eq_false_2 by done. unfold strip_prefix. rewrite bool_decide_eq_false_2 by done.
  by rewrite bool_decide_eq_true_2 by done.
Qed.

Lemma toy_parse_rollback_to name : toy_parse (rollback_to_sql name) = ToyRollbackTo name.
Proof.
  unfold toy_parse. rewrite !bool_decide_eq_false_2 by done. unfold strip_prefix. rewrite !bool_decide_eq_false_2 by done.
  by rewrite bool_decide_eq_true_2 by done.
Qed.

(** What the server answers to a known text. *)
Ltac toy_run := intros; cbn in *; unfold toy_execute in *; rewrite ?toy_parse_release, ?toy_parse_rollback_to in *;
  repeat (case_match; simplify_eq/=); simplify_eq/=; try done.

#[global, program] Instance toy_laws : TransactionLaws toy (list bytes) := {|
  durable := toy_durable; current := toy_current; saved d name := lookup_savepoint name (toy_saved d);
  unwritten d := toy_current d = toy_durable d;
|}.
Next Obligation. toy_run. Qed.
Next Obligation. toy_run. Qed.
Next Obligation. toy_run. Qed.
Next Obligation. toy_run. Qed.
Next Obligation. toy_run; auto. Qed.
Next Obligation. toy_run. Qed.
Next Obligation. toy_run. Qed.
Next Obligation. toy_run. Qed.
Next Obligation. toy_run. Qed.
Next Obligation. toy_run. Qed.

(** An operation that failed half way, inside a savepoint of a transaction. *)
Lemma finish_atomic_all_or_nothing_witness :
  let d := mkToy [str "a"] [str "a"; str "b"; str "half"] [(str "s", [str "a"; str "b"])] false false in
  let s := mkSession connection_new d 0 [] in
  let '(r, s') := finish_atomic (Savepoint (str "s") false) (Err (error "no" InvalidData) : res Error unit) s in
  ∃ e, r = Err e ∧ toy_current (server s') = [str "a"; str "b"].
Proof.
  intros d s. destruct (finish_atomic _ _ s) as [r s'] eqn:E.
  pose proof (finish_atomic_all_or_nothing (Savepoint (str "s") false) (Err (error "no" InvalidData) : res Error unit) s s'
    [str "a"; str "b"] r eq_refl ltac:(done) E) as Hr.
  assert (r = Err (error "no" InvalidData)) as -> by (apply (f_equal fst) in E; by vm_compute in E).
  eexists. split; [done|]. destruct Hr as [(? & _)|[Hr|[Hr|[[? _]|[? _]]]]]; [done|exact Hr| |done..].
  exfalso. destruct Hr as (pre & post & Hr). apply (f_equal length) in Hr. rewrite !length_app in Hr. vm_compute (length (error_message _)) in Hr. vm_compute (length (str _)) in Hr. lia.
Defined.
