(* ===== verification/Prepare.v ===== *)
(** The conversation of PREPARE ([crates/adbc-monetdb/src/driver.rs],
    [prepare_query] and below): the statement is prepared inside a savepoint
    when a transaction is open, its metadata is read and split into the result
    and the parameters, and declared types of result columns are restored from
    the catalog.

    The rows of a reply are a parameter, with the two ways the driver reads a
    cell; so are the type codes of the protocol and the text of a decoding
    error. *)

From stdpp Require Import base list numbers strings gmap.
From S2P Require Import Prelude RustStd Types Errors SqlScan Template PreparedCache Transactions.
Local Open Scope Z_scope.

(** ** Rows of a reply *)

(** What [next_row] gives, in order, and the id of a prepared statement. *)
Record RowReply (row : Type) : Type := mkRowReply {
  prepared_statement_id : option Z;
  reply_rows : list (res CursorError row);
}.
Arguments mkRowReply {row}. Arguments prepared_statement_id {row}. Arguments reply_rows {row}.

Class Rows (db row : Type) := {
  (** [cursor.execute] of a text whose rows are read. *)
  server_rows : db → bytes → res CursorError (RowReply row) * db;
  (** [get_str] and [get::<i32>]. *)
  cell_str : row → nat → res CursorError (option bytes);
  cell_i32 : row → nat → res CursorError (option Z);
}.

(** [MonetType::from_mapi_code]. *)
Class MapiCodes := { from_mapi_code : bytes → option MonetType }.

(** ** Metadata of a prepared statement *)

Record PreparedField : Type := mkPreparedField {
  pf_data_type : MonetType;
  pf_undetermined : bool;
  pf_parameter : bool;
  pf_name : option bytes;
  pf_origin_schema : option bytes;
  pf_origin_table : option bytes;
}.

Definition set_data_type (field : PreparedField) (data_type : MonetType) : PreparedField :=
  mkPreparedField data_type (pf_undetermined field) (pf_parameter field) (pf_name field) (pf_origin_schema field)
    (pf_origin_table field).

Record PreparedMetadata : Type := mkPreparedMetadata {
  metadata_id : Z;
  metadata_parameters : list Field;
  metadata_result : list Field;
}.

(** [slice::partition_point], by the standard library's binary search. *)
Fixpoint partition_loop {A} (fuel : nat) (p : A → bool) (l : list A) (base size : nat) : res Error nat :=
  if (size <=? 1)%nat then
    x ← or_panic (l !! base);
    Ok (if p x then S base else base)
  else
    match fuel with
    | O => Panic
    | S fuel =>
        let half := (size / 2)%nat in
        let mid := (base + half)%nat in
        x ← or_panic (l !! mid);
        partition_loop fuel p l (if p x then mid else base) (size - half)
    end.

Definition partition_point {A} (p : A → bool) (l : list A) : res Error nat :=
  if (length l =? 0)%nat then Ok 0%nat else partition_loop (length l) p l 0 (length l).

Definition prepared_result_count (fields : list PreparedField) (lexer_parameter_count : nat) : res Error nat :=
  result_count ← partition_point (λ field, negb (pf_parameter field)) fields;
  if forallb pf_parameter (drop result_count fields) then Ok result_count
  else
    let structural_parameter_count := length (filter (λ field, pf_parameter field = true) fields) in
    Err (mkError
      (str "invalid structural split in PREPARE metadata: parameter rows must follow result rows; metadata marked "
       ++ fmt_int (Z.of_nat structural_parameter_count) ++ str " parameters and the SQL lexer found "
       ++ fmt_int (Z.of_nat lexer_parameter_count)) InvalidData).

(** The declared type of a result column.  [declared] is a hash map, its order
    unspecified; the verdict does not depend on it. *)
Definition declared_name : Type := bytes * bytes * bytes.

Definition declared_matches (field : PreparedField) (table column : bytes) (name : declared_name) : bool :=
  let '(schema, declared_table, declared_column) := name in
  bool_decide (declared_table = table) && bool_decide (declared_column = column)
  && match pf_origin_schema field with Some origin => bool_decide (origin = schema) | None => true end.

Fixpoint declared_candidate (field : PreparedField) (table column : bytes) (candidate : option MonetType)
    (declared : list (declared_name * MonetType)) : option MonetType :=
  match declared with
  | [] => candidate
  | (name, data_type) :: declared =>
      if negb (declared_matches field table column name) then declared_candidate field table column candidate declared
      else
        match candidate with
        | None => declared_candidate field table column (Some data_type) declared
        | Some previous =>
            if bool_decide (previous = data_type) then declared_candidate field table column candidate declared
            else None
        end
  end.

Definition declared_result_type (field : PreparedField) (declared : gmap declared_name MonetType) : option MonetType :=
  match pf_origin_table field, pf_name field with
  | Some table, Some column => declared_candidate field table column None (map_to_list declared)
  | _, _ => None
  end.

Definition restore_field (declared : gmap declared_name MonetType) (field : PreparedField) : PreparedField :=
  match declared_result_type field declared with
  | Some data_type => set_data_type field data_type
  | None => field
  end.

(** [values.join(", ")]. *)
Fixpoint join (separator : bytes) (parts : list bytes) : bytes :=
  match parts with
  | [] => []
  | [part] => part
  | part :: parts => part ++ separator ++ join separator parts
  end.

Section prepare.
Context {db row : Type} `{!Server db, !Rows db row, MapiCodes, CursorDisplay}.
Context (decode_error_text : DecodeError → bytes) (pid : Z).

Definition execute_rows (query : bytes) : tx db (res CursorError (RowReply row)) := λ s,
  let '(r, d) := server_rows (server s) query in
  (Ok r, mkSession (connection s) d (savepoint_id s) (sent s ++ [query])).

Definition cell (r : row) (index : nat) : res Error (option bytes) := map_err map_cursor_error (cell_str r index).
Definition cell_int (r : row) (index : nat) : res Error (option Z) := map_err map_cursor_error (cell_i32 r index).

(** A cell that must not be NULL. *)
Definition required_cell {A} (o : res Error (option A)) (message : string) : res Error A :=
  value ← o; ok_or value (error message InvalidData).

Definition non_empty (o : option bytes) : option bytes :=
  match o with Some (_ :: _) => o | _ => None end.

(** [MonetType::from_mapi_code] with the digits and the scale of the reply. *)
Definition prepared_monet_type (code : bytes) (digits scale : Z) : res Error MonetType :=
  data_type ←
    if eq_ignore_ascii_case code (str "clob") then Ok (MVarchar 0)
    else ok_or (from_mapi_code code)
           (mkError (str "unknown MonetDB prepared type '" ++ code ++ str "'") InvalidData);
  match data_type with
  | MDecimal _ _ =>
      if negb ((0 <=? digits) && (digits <=? 255)) then Err (error "prepared decimal precision is invalid" InvalidData)
      else if negb ((0 <=? scale) && (scale <=? 255)) then Err (error "prepared decimal scale is invalid" InvalidData)
      else Ok (MDecimal digits scale)
  | MVarchar _ =>
      if negb ((0 <=? digits) && (digits <=? 4294967295)) then Err (error "prepared string width is invalid" InvalidData)
      else Ok (MVarchar digits)
  | data_type => Ok data_type
  end.

Definition prepared_arrow_field (name : bytes) (data_type : MonetType) : res Error Field :=
  map_err (λ e, mkError (decode_error_text e) InvalidData) (field_for_monet_type name data_type).

Definition prepared_parameter_arrow_field (name : bytes) (data_type : MonetType) : res Error Field :=
  match data_type with
  | MGeometry | MInet | MXml => Ok (mkField name DUtf8 true ∅)
  | _ => prepared_arrow_field name data_type
  end.

(** One row of the metadata. *)
Definition prepared_field (allow_any : bool) (r : row) : res Error PreparedField :=
  code ← required_cell (cell r 0) "prepared type is NULL";
  digits ← required_cell (cell_int r 1) "prepared type digits are NULL";
  scale ← required_cell (cell_int r 2) "prepared type scale is NULL";
  name ← cell r 5;
  origin_schema ← cell r 3;
  origin_table ← cell r 4;
  let provisional :=
    allow_any && (bool_decide (code = str "any")
                  || eq_ignore_ascii_case code (str "decimal")
                     && ((digits <=? 0) || (scale <? 0) || (digits <? scale))) in
  data_type ← if provisional then Ok (MVarchar 0) else prepared_monet_type code digits scale;
  Ok (mkPreparedField data_type provisional (match name with None => true | Some _ => false end) name
        (non_empty origin_schema) (non_empty origin_table)).

(** [while cursor.next_row()?]. *)
Fixpoint read_rows {A} (parse : row → res Error A) (rows : list (res CursorError row)) : res Error (list A) :=
  match rows with
  | [] => Ok []
  | r :: rows =>
      r ← map_err map_cursor_error r;
      x ← parse r;
      xs ← read_rows parse rows;
      Ok (x :: xs)
  end.

Definition declared_column (r : row) : res Error (declared_name * MonetType) :=
  schema ← required_cell (cell r 0) "catalog schema name is NULL";
  table ← required_cell (cell r 1) "catalog table name is NULL";
  column ← required_cell (cell r 2) "catalog column name is NULL";
  code ← required_cell (cell r 3) "catalog column type is NULL";
  digits ← required_cell (cell_int r 4) "catalog type digits are NULL";
  scale ← required_cell (cell_int r 5) "catalog type scale is NULL";
  data_type ← prepared_monet_type code digits scale;
  Ok (schema, table, column, data_type).

(** [declared.insert] of each row: the last one of a name stays. *)
Definition declared_map (rows : list (declared_name * MonetType)) : gmap declared_name MonetType :=
  foldl (λ declared '(name, data_type), <[name := data_type]> declared) ∅ rows.

Definition restore_declared_result_types (fields : list PreparedField) : tx db (list PreparedField) :=
  let table_names := remove_dups (omap pf_origin_table fields) in
  if bool_decide (table_names = []) then mret fields
  else
    table_names ← lift (map_res raw_string_literal table_names);
    r ← execute_rows
      (str "SELECT s.name, t.name, c.name, c.type, c.type_digits, c.type_scale FROM sys.columns AS c JOIN sys.tables AS t ON t.id = c.table_id JOIN sys.schemas AS s ON s.id = t.schema_id WHERE t.name IN ("
       ++ join (str ", ") table_names ++ str ")");
    reply ← lift (map_err map_cursor_error r);
    declared ← lift (read_rows declared_column (reply_rows reply));
    mret (map (restore_field (declared_map declared)) fields).

(** [format!("column_{index}")] for a column without a name. *)
Definition result_field (index : nat) (field : PreparedField) : res Error Field :=
  let name := from_option id (str "column_" ++ fmt_int (Z.of_nat index)) (non_empty (pf_name field)) in
  if pf_undetermined field then Ok (mkField name DNull true ∅)
  else prepared_arrow_field name (pf_data_type field).

Definition parameter_field (index : nat) (field : PreparedField) : res Error Field :=
  prepared_parameter_arrow_field (fmt_int (Z.of_nat index)) (pf_data_type field).

Definition parse_metadata (id : Z) (parameter_count : nat) (allow_any : bool) (rows : list (res CursorError row))
    : tx db PreparedMetadata :=
  fields ← lift (read_rows (prepared_field allow_any) rows);
  result_count ← lift (prepared_result_count fields parameter_count);
  results ← restore_declared_result_types (take result_count fields);
  parameter_fields ← lift (mapi_res parameter_field 0 (drop result_count fields));
  result_fields ← lift (mapi_res result_field 0 results);
  mret (mkPreparedMetadata id parameter_fields result_fields).

Definition prepare_query_inner_locked (query : bytes) (parameter_count : nat) (allow_any : bool)
    : tx db PreparedMetadata :=
  autocommit ← get_autocommit;
  savepoint ← (if (autocommit : bool) then mret None
               else name ← savepoint_name pid (str "prepare_probe"); mret (Some name));
  _ ← match savepoint with
      | Some savepoint => _ ← execute (str "SAVEPOINT " ++ savepoint); mret tt
      | None => mret tt
      end;
  prepared ← execute_rows (str "PREPARE " ++ query);
  match prepared with
  | Panic => lift Panic
  | Err root_cause =>
      match savepoint with
      | Some savepoint =>
          recovery ← recover_scope (Savepoint savepoint false);
          lift (combine_atomic_error (Err (map_cursor_error root_cause)) recovery
                  (str "restoring the transaction after PREPARE"))
      | None => lift (Err (map_cursor_error root_cause))
      end
  | Ok reply =>
      id ← lift (ok_or (prepared_statement_id reply)
                   (error "MonetDB did not return prepared statement metadata" InvalidData));
      parsed ← attempt (parse_metadata id parameter_count allow_any (reply_rows reply));
      _ ← match parsed with
          | Ok _ => mret tt
          | _ => _ ← execute_raw (str "DEALLOCATE " ++ fmt_int id); mret tt
          end;
      release ← match savepoint with
                | Some savepoint => r ← execute_raw (str "RELEASE SAVEPOINT " ++ savepoint); mret (done_of r)
                | None => mret (Ok tt)
                end;
      lift (combine_atomic_error parsed release (str "releasing the PREPARE savepoint"))
  end.

Definition prepare_query_inner (query : bytes) (parameter_count : nat) (allow_any : bool) : tx db PreparedMetadata :=
  _ ← lock_connection;
  prepare_query_inner_locked (normalize_prepared_query query) parameter_count allow_any.

Definition prepare_query (query : bytes) (parameter_count : nat) : tx db PreparedMetadata :=
  prepare_query_inner query parameter_count false.
Definition prepare_query_allowing_any (query : bytes) (parameter_count : nat) : tx db PreparedMetadata :=
  prepare_query_inner query parameter_count true.
End prepare.
