(* ===== verification/PrepareProofs.v ===== *)
(** What PREPARE relies on: the split of its metadata is the one the server
    means, a declared type is found whatever the order of the catalog, and an
    open transaction survives a refused statement. *)

From stdpp Require Import base list numbers strings gmap.
From S2P Require Import Prelude RustStd Types Errors SqlScan Template PreparedCache Transactions TransactionsProofs AtomicProofs Prepare.
Local Open Scope Z_scope.

(** ** The split of the metadata *)

(** The binary search never leaves the list and finds the boundary. *)
Lemma partition_loop_ok {A} (p : A → bool) (a b : list A) fuel base size :
  Forall (λ x, p x = true) a → Forall (λ x, p x = false) b →
  (size ≤ S fuel)%nat → (0 < size)%nat → (base + size ≤ length (a ++ b))%nat →
  (base = 0 ∨ base < length a)%nat → (length a ≤ base + size)%nat →
  partition_loop fuel p (a ++ b) base size = Ok (length a).
Proof.
  intros Ha Hb. assert (∀ i x, (a ++ b) !! i = Some x → p x = bool_decide (i < length a)%nat) as Hp.
  { intros i x Hx. destruct (decide (i < length a)%nat) as [Hi|Hi].
    - rewrite bool_decide_true by done. rewrite lookup_app_l in Hx by done. by eapply Forall_lookup_1 in Hx; [|exact Ha].
    - rewrite bool_decide_false by done. rewrite lookup_app_r in Hx by lia. by eapply Forall_lookup_1 in Hx; [|exact Hb]. }
  revert base size. induction fuel as [|fuel IH]; intros base size Hf Hs Hl Hbase Hk; cbn [partition_loop].
  all: destruct (size <=? 1)%nat eqn:Hsz; [apply Nat.leb_le in Hsz|apply Nat.leb_gt in Hsz].
  all: try (destruct (lookup_lt_is_Some_2 (a ++ b) base) as [x Hx]; [lia|]; rewrite Hx; cbn [or_panic mbind res_bind];
            rewrite (Hp _ _ Hx); destruct (decide (base < length a)%nat); [rewrite bool_decide_true by done|rewrite bool_decide_false by done];
            f_equal; lia).
  - lia.
  - assert (0 < size / 2 < size)%nat as Hhalf by (split; [by apply Nat.div_str_pos; lia|by apply Nat.div_lt; lia]).
    set (half := (size / 2)%nat) in *. destruct (lookup_lt_is_Some_2 (a ++ b) (base + half)) as [x Hx]; [lia|].
    rewrite Hx. cbn [or_panic mbind res_bind]. rewrite (Hp _ _ Hx).
    assert (half * 2 ≤ size)%nat by (unfold half; pose proof (Nat.Div0.div_mod size 2); lia).
    destruct (decide (base + half < length a)%nat); [rewrite bool_decide_true by done|rewrite bool_decide_false by done]; apply IH; lia.
Qed.

Lemma partition_point_ok {A} (p : A → bool) (a b : list A) :
  Forall (λ x, p x = true) a → Forall (λ x, p x = false) b → partition_point p (a ++ b) = Ok (length a).
Proof.
  intros Ha Hb. unfold partition_point. destruct (length (a ++ b) =? 0)%nat eqn:E.
  - apply Nat.eqb_eq in E. rewrite length_app in E. f_equal. lia.
  - apply Nat.eqb_neq in E. apply partition_loop_ok; rewrite ?length_app in *; try done; lia.
Qed.

(** The search answers for any list, in bounds. *)
Lemma partition_loop_total {A} (p : A → bool) (l : list A) fuel base size :
  (size ≤ S fuel)%nat → (0 < size)%nat → (base + size ≤ length l)%nat →
  ∃ n, partition_loop fuel p l base size = Ok n ∧ (n ≤ length l)%nat.
Proof.
  revert base size. induction fuel as [|fuel IH]; intros base size Hf Hs Hl; cbn [partition_loop].
  all: destruct (size <=? 1)%nat eqn:Hsz; [apply Nat.leb_le in Hsz|apply Nat.leb_gt in Hsz].
  all: try (destruct (lookup_lt_is_Some_2 l base) as [x Hx]; [lia|]; rewrite Hx; cbn; eexists; split; [done|destruct (p x); lia]).
  - lia.
  - assert (0 < size / 2 < size)%nat as Hhalf by (split; [by apply Nat.div_str_pos; lia|by apply Nat.div_lt; lia]).
    assert (size / 2 * 2 ≤ size)%nat by (pose proof (Nat.Div0.div_mod size 2); lia).
    destruct (lookup_lt_is_Some_2 l (base + size / 2)) as [x Hx]; [lia|]. rewrite Hx. cbn [or_panic mbind res_bind].
    destruct (p x); apply IH; lia.
Qed.

Lemma partition_point_total {A} (p : A → bool) (l : list A) : ∃ n, partition_point p l = Ok n ∧ (n ≤ length l)%nat.
Proof.
  unfold partition_point. destruct (length l =? 0)%nat eqn:E; [exists 0%nat; split; [done|lia]|].
  apply Nat.eqb_neq in E. apply partition_loop_total; lia.
Qed.

(** The metadata of a prepared statement is split where the server means it.
    For rows in the order the server documents, the results before the
    parameters, the number of result columns is exactly the number of rows that
    are not parameters; for any rows the split ends in a number within them,
    after which only parameters follow, or in an error, and an error is only
    given for rows in another order. *)
Theorem prepared_split_exact fields n :
  (∃ r, prepared_result_count fields n = r ∧
     match r with
     | Ok k => (k ≤ length fields)%nat ∧ Forall (λ f, pf_parameter f = true) (drop k fields)
     | Err e => error_status e = InvalidData ∧
         ∀ results parameters, fields = results ++ parameters → Forall (λ f, pf_parameter f = false) results →
           ¬ Forall (λ f, pf_parameter f = true) parameters
     | Panic => False
     end) ∧
  ∀ results parameters, fields = results ++ parameters →
    Forall (λ f, pf_parameter f = false) results → Forall (λ f, pf_parameter f = true) parameters →
    prepared_result_count fields n = Ok (length results).
Proof.
  assert (∀ results parameters, fields = results ++ parameters →
    Forall (λ f, pf_parameter f = false) results → Forall (λ f, pf_parameter f = true) parameters →
    prepared_result_count fields n = Ok (length results)) as Hexact.
  { intros results parameters -> Hr Hp. unfold prepared_result_count. rewrite (partition_point_ok _ results parameters).
    - cbn [mbind res_bind]. rewrite drop_app_length. assert (forallb pf_parameter parameters = true) as ->; [|done].
      apply forallb_forall. intros x Hx. rewrite Forall_forall in Hp. by apply Hp, list_elem_of_In.
    - eapply Forall_impl; [exact Hr|]. cbn. by intros x ->.
    - eapply Forall_impl; [exact Hp|]. cbn. by intros x ->. }
  split; [|exact Hexact]. eexists. split; [done|]. destruct (prepared_result_count fields n) as [k|e|] eqn:E.
  - unfold prepared_result_count in E. destruct (partition_point_total (λ f, negb (pf_parameter f)) fields) as (k' & Hk & Hle).
    rewrite Hk in E. cbn [mbind res_bind] in E. destruct (forallb _ _) eqn:Hall; [|done]. injection E as <-. split; [done|].
    apply Forall_forall. intros x Hx. rewrite forallb_forall in Hall. by apply Hall, list_elem_of_In.
  - split; [|intros results parameters Hf Hr Hp; specialize (Hexact _ _ Hf Hr Hp); congruence].
    unfold prepared_result_count in E. destruct (partition_point_total (λ f, negb (pf_parameter f)) fields) as (k' & Hk & Hle).
    rewrite Hk in E. cbn [mbind res_bind] in E. destruct (forallb _ _); [done|]. by injection E as <-.
  - unfold prepared_result_count in E. destruct (partition_point_total (λ f, negb (pf_parameter f)) fields) as (k' & Hk & Hle).
    rewrite Hk in E. cbn [mbind res_bind] in E. by destruct (forallb _ _).
Qed.

(** A parameter before a result is counted as a result when another follows. *)
Example split_counts_misplaced :
  let row parameter := mkPreparedField MInt false parameter None None None in
  prepared_result_count [row true; row false; row true] 2 = Ok 2%nat.
Proof. reflexivity. Qed.

(** ** Declared types *)

(** All the catalog says about a column, and it says one thing. *)
Definition declares (declared : list (declared_name * MonetType)) (field : PreparedField) (table column : bytes)
    (data_type : MonetType) : Prop :=
  (∃ name, (name, data_type) ∈ declared ∧ declared_matches field table column name = true) ∧
  ∀ name other, (name, other) ∈ declared → declared_matches field table column name = true → other = data_type.

Lemma declared_candidate_some field table column previous declared t :
  declared_candidate field table column (Some previous) declared = Some t ↔
  t = previous ∧
  ∀ name other, (name, other) ∈ declared → declared_matches field table column name = true → other = previous.
Proof.
  induction declared as [|[name dt] declared IH]; cbn [declared_candidate].
  { split; [intros [= ->]; split; [done|]; by intros ? ? ?%not_elem_of_nil|by intros [-> _]]. }
  destruct (declared_matches field table column name) eqn:Hm; cbn [negb].
  - destruct (bool_decide_reflect (previous = dt)) as [<-|Hne].
    + rewrite IH. split; intros [-> Hall]; (split; [done|]); intros n o.
      * intros [[= -> ->]|Hin]%elem_of_cons; [done|]. by apply Hall.
      * intros Hin. apply Hall. by apply elem_of_cons; right.
    + split; [done|]. intros [_ Hall]. exfalso. apply Hne. symmetry. apply (Hall name dt); [apply elem_of_cons; by left|done].
  - rewrite IH. split; intros [-> Hall]; (split; [done|]); intros n o.
    + intros [[= -> ->]|Hin]%elem_of_cons; [congruence|]. by apply Hall.
    + intros Hin. apply Hall. by apply elem_of_cons; right.
Qed.

Lemma declared_candidate_none field table column declared t :
  declared_candidate field table column None declared = Some t ↔ declares declared field table column t.
Proof.
  unfold declares. induction declared as [|[name dt] declared IH]; cbn [declared_candidate].
  { split; [done|]. by intros [(n & ?%not_elem_of_nil & _) _]. }
  destruct (declared_matches field table column name) eqn:Hm; cbn [negb].
  - rewrite declared_candidate_some. split.
    + intros [-> Hall]. split; [exists name; split; [apply elem_of_cons; by left|done]|].
      intros n o [[= -> ->]|Hin]%elem_of_cons; [done|]. by apply Hall.
    + intros [_ Hall]. assert (dt = t) as -> by (apply (Hall name dt); [apply elem_of_cons; by left|done]). split; [done|].
      intros n o Hin. apply Hall. by apply elem_of_cons; right.
  - rewrite IH. split; intros [(n & Hin & Hn) Hall].
    + split; [exists n; split; [by apply elem_of_cons; right|done]|].
      intros n' o [[= -> ->]|Hin']%elem_of_cons; [congruence|]. by apply Hall.
    + split; [|intros n' o Hin'; apply Hall; by apply elem_of_cons; right].
      exists n. split; [|done]. apply elem_of_cons in Hin as [[= -> ->]|Hin]; [congruence|done].
Qed.

(** A result column takes a declared type exactly when the catalog's matching
    columns all have that type, in whatever order the hash map is read. *)
Lemma declared_result_type_exact field declared t :
  declared_result_type field declared = Some t ↔
  ∃ table column, pf_origin_table field = Some table ∧ pf_name field = Some column ∧
    (∃ name, declared !! name = Some t ∧ declared_matches field table column name = true) ∧
    ∀ name other, declared !! name = Some other → declared_matches field table column name = true → other = t.
Proof.
  unfold declared_result_type. destruct (pf_origin_table field) as [table|]; [|split; [done|]; by intros (? & ? & ? & _)].
  destruct (pf_name field) as [column|]; [|split; [done|]; by intros (? & ? & ? & ? & _)].
  rewrite declared_candidate_none. unfold declares. setoid_rewrite elem_of_map_to_list. split.
  - intros [H1 H2]. by exists table, column.
  - by intros (table' & column' & [= <-] & [= <-] & H1 & H2).
Qed.

(** ** The open transaction *)

Definition savepoint_sql (name : bytes) : bytes := str "SAVEPOINT " ++ name.
Definition prepare_sql (query : bytes) : bytes := str "PREPARE " ++ query.
Definition deallocate_sql (id : Z) : bytes := str "DEALLOCATE " ++ fmt_int id.
Definition is_select (query : bytes) : Prop := ∃ rest, query = str "SELECT " ++ rest.

(** Statements that read keep the transaction's content and its savepoints; a
    statement the server refuses aborts the transaction, which keeps its
    savepoints, and in which no savepoint can be released.  A savepoint is only
    sure to hold the content in a transaction that has not written: after a DELETE,
    SAVEPOINT can make deleted rows visible again
    ([docs/monetdb-issues/savepoint-resurrects-deleted-row.md]). *)
Class PrepareLaws (db row content : Type) `{!Server db, !Rows db row, !TransactionLaws db content} := {
  aborted : db → bool;
  rows_no_panic d q : (server_rows d q).1 ≠ Panic;
  row_no_panic d q x d' : server_rows d q = (Ok x, d') → Forall (λ r, r ≠ Panic) (reply_rows x);
  cell_str_no_panic (r : row) i : cell_str r i ≠ Panic;
  cell_i32_no_panic (r : row) i : cell_i32 r i ≠ Panic;
  savepoint_ok d name x d' :
    unwritten d → server_execute d (savepoint_sql name) = (Ok x, d') → saved d' name = Some (current d) ∧ current d' = current d;
  prepare_ok d q x d' : server_rows d (prepare_sql q) = (Ok x, d') → current d' = current d;
  select_ok d q x d' : is_select q → server_rows d q = (Ok x, d') → current d' = current d;
  rows_refused d q e d' : server_rows d q = (Err e, d') → aborted d' = true ∧ ∀ name, saved d' name = saved d name;
  deallocate_ok d id x d' : server_execute d (deallocate_sql id) = (Ok x, d') → aborted d = false → current d' = current d;
  deallocate_aborts d id r d' :
    server_execute d (deallocate_sql id) = (r, d') → aborted d = true ∨ is_ok r = false → aborted d' = true;
  release_aborted d name : aborted d = true → is_ok (server_execute d (release_sql name)).1 = false;
}.

Section transaction.
Context {db row content : Type} `{!Server db, !Rows db row, !TransactionLaws db content, !PrepareLaws db row content}.
Context `{MapiCodes, CursorDisplay} (decode_error_text : DecodeError → bytes) (pid : Z).

(** The content is kept, or the transaction is aborted. *)
Definition kept (before : content) (s : Session db) : Prop := aborted (server s) = true ∨ current (server s) = before.

Lemma attempt_some {A} (m : tx db A) s r s' : attempt m s = (r, s') →
  (∃ x, r = Ok x ∧ m s = (x, s') ∧ x ≠ Panic) ∨ (r = Panic ∧ m s = (Panic, s')).
Proof. unfold attempt. destruct (m s) as [[x|e|] s1]; intros [= <- <-]; eauto. Qed.

(** Reading the metadata never panics. *)
Lemma cell_no_panic (r : row) i : cell r i ≠ Panic.
Proof. apply map_err_no_panic, cell_str_no_panic. Qed.
Lemma cell_int_no_panic (r : row) i : cell_int r i ≠ Panic.
Proof. apply map_err_no_panic, cell_i32_no_panic. Qed.

Ltac reading := repeat (no_panic_step || case_match || apply cell_no_panic || apply cell_int_no_panic || discriminate).

Lemma prepared_monet_type_no_panic code digits scale : prepared_monet_type code digits scale ≠ Panic.
Proof. unfold prepared_monet_type. reading. Qed.

Lemma prepared_field_no_panic any (r : row) : prepared_field any r ≠ Panic.
Proof. unfold prepared_field, required_cell. repeat (reading || apply prepared_monet_type_no_panic). Qed.

Lemma declared_column_no_panic (r : row) : declared_column r ≠ Panic.
Proof. unfold declared_column, required_cell. repeat (reading || apply prepared_monet_type_no_panic). Qed.

Lemma prepared_arrow_field_no_panic name t : prepared_arrow_field decode_error_text name t ≠ Panic.
Proof.
  apply map_err_no_panic. unfold field_for_monet_type, data_type_for_monet_type, decimal_data_type, decimal_scale. reading.
Qed.

Lemma result_field_no_panic i f : result_field decode_error_text i f ≠ Panic.
Proof. unfold result_field. destruct (pf_undetermined f); [done|apply prepared_arrow_field_no_panic]. Qed.

Lemma parameter_field_no_panic i f : parameter_field decode_error_text i f ≠ Panic.
Proof. unfold parameter_field, prepared_parameter_arrow_field. destruct (pf_data_type f); try done; apply prepared_arrow_field_no_panic. Qed.

Lemma read_rows_no_panic {A} (parse : row → res Error A) rows :
  (∀ r, parse r ≠ Panic) → Forall (λ r, r ≠ Panic) rows → read_rows parse rows ≠ Panic.
Proof.
  intros Hp. induction 1 as [|r rows Hr _ IH]; cbn [read_rows]; [done|]. no_panic; auto.
Qed.

Lemma prepared_result_count_no_panic fields n : prepared_result_count fields n ≠ Panic.
Proof.
  unfold prepared_result_count. destruct (partition_point_total (λ f, negb (pf_parameter f)) fields) as (k & -> & _).
  cbn. by destruct (forallb _ _).
Qed.

(** How a step of the conversation ends: no panic, the content kept or the
    transaction aborted, and kept for sure when the step succeeded. *)
Definition step_kept {A} (before : content) (r : res Error A) (s' : Session db) : Prop :=
  r ≠ Panic ∧ kept before s' ∧ (is_ok r = true → current (server s') = before).

Lemma step_same {A} (r : res Error A) s : r ≠ Panic → step_kept (current (server s)) r s.
Proof. unfold step_kept, kept. auto. Qed.

Lemma restore_kept fields s r s' :
  restore_declared_result_types fields s = (r, s') → step_kept (current (server s)) r s'.
Proof.
  unfold restore_declared_result_types. destruct (bool_decide _); [intros [= <- <-]; by apply step_same|].
  unfold mbind, tx_bind, lift, execute_rows.
  assert (map_res raw_string_literal (remove_dups (omap pf_origin_table fields)) ≠ Panic) as Hnp.
  { apply mapi_res_no_panic. intros i x _. unfold raw_string_literal. by destruct (existsb _ _). }
  destruct (map_res _ _) as [names|e|]; [|intros [= <- <-]; by apply step_same|done].
  set (q := _ ++ _). pose proof (rows_no_panic (server s) q) as Hq.
  destruct (server_rows (server s) q) as [[reply|e|] d] eqn:E; [| |done]; cbn [map_err].
  - assert (current d = current (server s)) as Hd by (eapply select_ok; [by eexists|exact E]). rewrite <- Hd.
    pose proof (read_rows_no_panic declared_column _ declared_column_no_panic (row_no_panic _ _ _ _ E)) as Hr.
    destruct (read_rows _ _); [| |done]; intros [= <- <-]; by apply (step_same _ (mkSession _ d _ _)).
  - intros [= <- <-]. split; [done|]. split; [left; by eapply rows_refused|done].
Qed.

Lemma parse_kept id n any rows s r s' :
  Forall (λ r, r ≠ Panic) rows → parse_metadata decode_error_text id n any rows s = (r, s') →
  step_kept (current (server s)) r s'.
Proof.
  intros Hrows. unfold parse_metadata, mbind, tx_bind, lift, mret, tx_ret.
  pose proof (read_rows_no_panic _ _ (prepared_field_no_panic any) Hrows) as Hr.
  destruct (read_rows _ _) as [fields|e|]; [|intros [= <- <-]; by apply step_same|done].
  pose proof (prepared_result_count_no_panic fields n) as Hc.
  destruct (prepared_result_count fields n) as [k|e|]; [|intros [= <- <-]; by apply step_same|done].
  destruct (restore_declared_result_types (take k fields) s) as [r0 s1] eqn:E. apply restore_kept in E as (Hnp & Hk & Hok).
  destruct r0 as [results|e|]; [|intros [= <- <-]; by split_and!|done]. rewrite <- (Hok eq_refl).
  assert (mapi_res (parameter_field decode_error_text) 0 (drop k fields) ≠ Panic) as Hp
    by (apply mapi_res_no_panic; intros; apply parameter_field_no_panic).
  destruct (mapi_res _ 0 _) as [ps|e|]; [|intros [= <- <-]; by apply step_same|done].
  assert (mapi_res (result_field decode_error_text) 0 results ≠ Panic) as Hf
    by (apply mapi_res_no_panic; intros; apply result_field_no_panic).
  destruct (mapi_res _ 0 _) as [fs|e|]; [| |done]; intros [= <- <-]; by apply step_same.
Qed.

(** What [combine_atomic_error] says when the second step failed. *)
Lemma combine_mentions {A} (r : res Error A) e context :
  r ≠ Panic → ∃ e', combine_atomic_error r (Err e) (str context) = Err e' ∧ mentions context e'.
Proof.
  intros Hr. destruct r as [x|root|]; [| |done]; cbn; eexists; (split; [done|]).
  - exists [], (str " failed: " ++ error_message (map_cursor_error e)). done.
  - exists (error_message root ++ str "; "), (str " also failed: " ++ cursor_error_text e). cbn. by rewrite <- !app_assoc.
Qed.

(** Releasing the savepoint at the end: it fails in an aborted transaction. *)
Lemma release_kept {A} name before (parsed : res Error A) (s s' : Session db) r :
  parsed ≠ Panic → kept before s →
  (release ← (r ← execute_raw (release_sql name); mret (done_of r));
   lift (combine_atomic_error parsed release (str "releasing the PREPARE savepoint"))) s = (r, s') →
  r ≠ Panic ∧ (current (server s') = before ∨ ∃ e, r = Err e ∧ mentions "releasing the PREPARE savepoint" e).
Proof.
  intros Hp Hk. unfold mbind, tx_bind, execute_raw, mret, tx_ret, lift.
  pose proof (execute_no_panic (server s) (release_sql name)) as Hnp. pose proof (release_aborted (server s) name) as Hra.
  destruct (server_execute (server s) (release_sql name)) as [[x|e|] d] eqn:E; [| |done]; cbn [done_of fmap res_fmap].
  - intros [= <- <-]. split; [done|]. left. cbn. rewrite (release_ok _ _ _ _ E).
    destruct Hk as [Ha|Hk]; [by specialize (Hra Ha)|exact Hk].
  - intros Hr. destruct (combine_mentions parsed e "releasing the PREPARE savepoint" Hp) as (e' & He & Hm).
    rewrite He in Hr. injection Hr as <- <-. split; [done|]. right. by exists e'.
Qed.

(** Once the server has prepared the statement. *)
Lemma prepared_kept name id n any rows (s s' : Session db) r :
  Forall (λ r, r ≠ Panic) rows →
  (parsed ← attempt (parse_metadata decode_error_text id n any rows);
   _ ← match parsed with Ok _ => mret tt | _ => _ ← execute_raw (deallocate_sql id); mret tt end;
   release ← (r ← execute_raw (release_sql name); mret (done_of r));
   lift (combine_atomic_error parsed release (str "releasing the PREPARE savepoint"))) s = (r, s') →
  r ≠ Panic ∧ (current (server s') = current (server s) ∨ ∃ e, r = Err e ∧ mentions "releasing the PREPARE savepoint" e).
Proof.
  intros Hrows. unfold mbind at 1, tx_bind at 1. destruct (attempt _ s) as [r0 s1] eqn:E.
  apply attempt_some in E as [(parsed & -> & E & Hp)|[-> E]]; apply parse_kept in E as (Hnp & Hk & Hok); [|done..].
  destruct parsed as [md|e|]; [| |done].
  - intros Hr. apply release_kept with (before := current (server s)) in Hr; [done..|]. exact Hk.
  - unfold mbind at 1, tx_bind at 1. unfold mbind at 1, tx_bind at 1, execute_raw at 1, mret at 1, tx_ret at 1.
    destruct (server_execute (server s1) (deallocate_sql id)) as [r1 d] eqn:Ed. intros Hr.
    apply release_kept with (before := current (server s)) in Hr; [done..|]. cbn. destruct (aborted (server s1)) eqn:Ha.
    { left. eapply deallocate_aborts; [exact Ed|by left]. }
    destruct Hk as [Hk|Hk]; [congruence|]. destruct (is_ok r1) eqn:Hr1.
    + right. destruct r1 as [x| |]; [|done..]. cbn. rewrite <- Hk. by eapply deallocate_ok.
    + left. eapply deallocate_aborts; [exact Ed|by right].
Qed.

(** When the server has refused the statement. *)
Lemma refused_kept name root before (s s' : Session db) (r : res Error PreparedMetadata) :
  saved (server s) name = Some before →
  (recovery ← recover_scope (Savepoint name false);
   lift (combine_atomic_error (Err (map_cursor_error root)) recovery (str "restoring the transaction after PREPARE"))) s = (r, s') →
  r ≠ Panic ∧ (current (server s') = before ∨ ∃ e, r = Err e ∧ mentions "restoring the transaction after PREPARE" e).
Proof.
  intros Hs. set (context := "restoring the transaction after PREPARE").
  assert (∀ e s2, (combine_atomic_error (Err (map_cursor_error root) : res Error PreparedMetadata) (Err e) (str context), s2) = (r, s') →
    r ≠ Panic ∧ (current (server s') = before ∨ ∃ e, r = Err e ∧ mentions context e)) as Hfail.
  { intros e s2 Hr. destruct (combine_mentions (Err (map_cursor_error root) : res Error PreparedMetadata) e context) as (e' & He & Hm); [done|].
    rewrite He in Hr. injection Hr as <- <-. split; [done|]. right. by exists e'. }
  cbn [recover_scope]. unfold mbind, tx_bind, execute_raw, mret, tx_ret, lift. fold (rollback_to_sql name).
  pose proof (execute_no_panic (server s) (rollback_to_sql name)) as Hnp.
  destruct (server_execute (server s) (rollback_to_sql name)) as [[x|e|] d] eqn:E; [|apply Hfail|done]. cbn [server].
  fold (release_sql name). pose proof (execute_no_panic d (release_sql name)) as Hnp2.
  destruct (server_execute d (release_sql name)) as [[y|e|] d'] eqn:E'; [|apply Hfail|done]. cbn.
  intros [= <- <-]. split; [done|]. left. cbn. rewrite (release_ok _ _ _ _ E'). by eapply rollback_to_ok.
Qed.

(** C39. Preparing a statement does not disturb an open transaction that has not
    written yet.  Whatever the
    server answers, the content of the transaction after PREPARE (refused,
    unreadable or accepted, its metadata read and completed from the catalog)
    is the content before; unless the server refused the savepoint itself, or
    the error says that the savepoint could not be restored or released.  (The
    driver sets the savepoint of a PREPARE also in a transaction that has written,
    where the server's savepoints are not reliable: nothing is claimed there.) *)
Theorem prepare_keeps_transaction query n any (s s' : Session db) r :
  server_autocommit (server s) = Ok false → unwritten (server s) →
  prepare_query_inner_locked (row := row) decode_error_text pid query n any s = (r, s') →
  r ≠ Panic ∧
  (current (server s') = current (server s) ∨
   ∃ e, r = Err e ∧
     (mentions "restoring the transaction after PREPARE" e ∨ mentions "releasing the PREPARE savepoint" e ∨
      ∃ name x, server_execute (server s) (savepoint_sql name) = (Err x, server s'))).
Proof.
  intros Hauto Hclean. unfold prepare_query_inner_locked. unfold mbind at 1, tx_bind at 1, get_autocommit. rewrite Hauto. cbn [map_err].
  unfold mbind at 1, tx_bind at 1. unfold mbind at 1, tx_bind at 1, savepoint_name, mret at 1, tx_ret at 1. set (name := str "adbc_" ++ str "prepare_probe" ++ str "_" ++ _).
  unfold mbind at 1, tx_bind at 1. unfold mbind at 1, tx_bind at 1, execute. unfold mbind at 1, tx_bind at 1, execute_raw at 1, lift at 1.
  cbn [server connection savepoint_id sent]. fold (savepoint_sql name).
  pose proof (execute_no_panic (server s) (savepoint_sql name)) as Hnp.
  destruct (server_execute (server s) (savepoint_sql name)) as [[x|e|] d] eqn:E; [| |done]; cbn [map_err].
  2: { intros [= <- <-]. split; [done|]. right. eexists. split; [done|]. right. right. by exists name, e. }
  apply savepoint_ok in E as [Hsaved Hcur]; [|done]. unfold mret at 1, tx_ret at 1. unfold mbind at 1, tx_bind at 1, execute_rows.
  cbn [server connection savepoint_id sent]. fold (prepare_sql query). pose proof (rows_no_panic d (prepare_sql query)) as Hq.
  destruct (server_rows d (prepare_sql query)) as [[reply|e|] d'] eqn:E; [| |done].
  - pose proof (row_no_panic _ _ _ _ E) as Hrows. apply prepare_ok in E. unfold mbind at 1, tx_bind at 1, lift at 1.
    destruct (prepared_statement_id reply) as [id|]; cbn [ok_or].
    + intros Hr. apply prepared_kept in Hr as [Hnp' Hr]; [|done]. split; [done|]. cbn [server] in Hr. rewrite E, Hcur in Hr.
      destruct Hr as [Hr|(e & -> & Hm)]; [by left|right; eauto].
    + intros [= <- <-]. split; [done|]. left. cbn. congruence.
  - apply rows_refused in E as [_ Hsv]. intros Hr. apply refused_kept with (before := current (server s)) in Hr.
    + destruct Hr as [Hnp' [Hr|(e' & -> & Hm)]]; split; [done|by left|done|right; eauto].
    + cbn. rewrite Hsv. congruence.
Qed.
End transaction.

(** ** The server to try it on *)

Definition toy_row : Type := list (option bytes).

(** One column and one parameter; a text it cannot parse is refused. *)
Definition toy_rows (d : toy) (q : bytes) : res CursorError (RowReply toy_row) * toy :=
  if toy_aborted d || bool_decide (q = str "PREPARE bad") then (Err toy_refusal, toy_abort d)
  else
    (Ok match strip_prefix (str "PREPARE ") q with
        | Some _ =>
            mkRowReply (Some 7)
              [Ok [Some (str "int"); Some (str "32"); Some (str "0"); Some (str ""); Some (str "t"); Some (str "a")];
               Ok [Some (str "int"); Some (str "32"); Some (str "0"); None; None; None]]
        | None => mkRowReply None [Ok [Some (str "sys"); Some (str "t"); Some (str "a"); Some (str "bigint"); Some (str "64"); Some (str "0")]]
        end, d).

#[global] Instance toy_rows_server : Rows toy toy_row := {|
  server_rows := toy_rows;
  cell_str r i := Ok (mjoin (r !! i));
  cell_i32 r i := Ok (mjoin (r !! i) ≫= λ text, parse_i64 text);
|}.

#[global] Instance toy_codes : MapiCodes := {|
  from_mapi_code code := if bool_decide (code = str "int") then Some MInt else if bool_decide (code = str "bigint") then Some MBigInt else None;
|}.

Lemma toy_parse_savepoint name : toy_parse (savepoint_sql name) = ToySavepoint name.
Proof.
  unfold toy_parse. rewrite !bool_decide_eq_false_2 by done. unfold strip_prefix. by rewrite bool_decide_eq_true_2 by done.
Qed.

Lemma toy_parse_deallocate id : toy_parse (deallocate_sql id) = ToyDeallocate.
Proof.
  unfold toy_parse. rewrite !bool_decide_eq_false_2 by done. unfold strip_prefix. rewrite !bool_decide_eq_false_2 by done.
  by rewrite bool_decide_eq_true_2 by done.
Qed.

Ltac toy_rows_run := intros; cbn in *; unfold toy_rows, toy_execute in *;
  rewrite ?toy_parse_release, ?toy_parse_savepoint, ?toy_parse_deallocate in *;
  repeat (case_match; simplify_eq/=); simplify_eq/=; rewrite ?bool_decide_eq_true_2 by done; try done.

#[global, program] Instance toy_prepare_laws : PrepareLaws toy toy_row (list bytes) := {| aborted := toy_aborted |}.
Next Obligation. toy_rows_run. Qed.
Next Obligation. toy_rows_run; repeat constructor; done. Qed.
Next Obligation. toy_rows_run. Qed.
Next Obligation. toy_rows_run. Qed.
Next Obligation. toy_rows_run. match goal with H : bool_decide _ = false |- _ => by apply bool_decide_eq_false in H end. Qed.
Next Obligation. toy_rows_run. Qed.
Next Obligation. toy_rows_run. Qed.
Next Obligation. toy_rows_run. Qed.
Next Obligation. toy_rows_run. Qed.
Next Obligation. toy_rows_run; by destruct_or!. Qed.
Next Obligation. toy_rows_run. Qed.

Definition toy_session (autocommit : bool) : Session toy :=
  mkSession connection_new (mkToy [str "a"] [str "a"] [] autocommit false) 0 [].

(** A statement the server refuses: it aborts the transaction, and the content
    is back afterwards. *)
Lemma prepare_keeps_transaction_witness :
  let '(r, s') := prepare_query_inner_locked (row := toy_row) (λ _, []) 1 (str "bad") 1 false (toy_session false) in
  is_ok r = false ∧ toy_current (server s') = [str "a"] ∧ toy_aborted (server s') = false.
Proof.
  destruct (prepare_query_inner_locked _ _ _ _ _ (toy_session false)) as [r s'] eqn:E.
  destruct (prepare_keeps_transaction (Server0 := toy_server) (row := toy_row) (λ _, []) 1 (str "bad") 1 false (toy_session false) s' r ltac:(reflexivity) ltac:(reflexivity) E) as [_ Hk].
  assert (r = Err (map_cursor_error toy_refusal) ∧ toy_aborted (server s') = false) as [-> Ha] by (vm_compute in E; by injection E as <- <-).
  split; [done|]. split; [|done]. destruct Hk as [Hk|(e & [= <-] & Hk)]; [exact Hk|]. exfalso.
  destruct Hk as [(pre & post & Hk)|[(pre & post & Hk)|(name & x & Hk)]];
    [apply (f_equal length) in Hk; rewrite !length_app in Hk; vm_compute (length (error_message _)) in Hk; vm_compute (length (str _)) in Hk; lia..|].
  cbn in Hk. unfold toy_execute in Hk. by rewrite toy_parse_savepoint in Hk.
Defined.

(** A statement it accepts: the declared type of the column and the parameter. *)
Example prepare_reads_metadata :
  (prepare_query (row := toy_row) (λ _, []) 1 (str "SELECT a FROM t WHERE a = ?;") 1 (toy_session false)).1 =
  Ok (mkPreparedMetadata 7 [mkField (str "0") DInt32 true ∅] [mkField (str "a") DInt64 true ∅]).
Proof. vm_compute. reflexivity. Qed.
