(* ===== verification/ParameterBatch.v ===== *)
(** Bound parameter rows ([crates/adbc-monetdb/src/driver.rs]): the stream of
    the queries its rows give ([BoundQueryStream]), the prepared statement a
    query refers to and how it is refreshed ([current_bound_query],
    [retry_bound_query]), the atomic execution of all rows
    ([execute_updates_atomic]) and the first execution of a prepared statement
    that is not yet trusted ([execute_unverified_prepared_result]).

    Entries of the cache are shared: the cells [verified] and
    [literal_fallback] of an entry, and the slot in which a statement keeps its
    entry, live in a store and are referred to by their index, so that a change
    is seen by every holder.  A stream is the list of results its reader will
    return; an error ends the use of a stream. *)

From stdpp Require Import base list numbers strings gmap.
From S2P Require Import Prelude RustStd Types Calendar ArrowData Errors SqlScan Template PreparedCache Ingest Transactions Prepare.
Local Open Scope Z_scope.

(** ** State *)

(** The cells of a [PreparedEntry]. *)
Record EntryCell : Type := mkEntryCell { verified : bool; literal_fallback : option LiteralFallback }.

Record Driver (db : Type) : Type := mkDriver {
  session : Session db;
  prepared_cache : PreparedCache;
  cells : list EntryCell;
  slots : list PreparedEntry;
}.
Arguments mkDriver {db}. Arguments session {db}. Arguments prepared_cache {db}. Arguments cells {db}. Arguments slots {db}.

(** An operation on the driver's state. *)
Definition dx (db A : Type) : Type := Driver db → res Error A * Driver db.

#[global] Instance dx_ret db : MRet (dx db) := λ A a s, (Ok a, s).
#[global] Instance dx_bind db : MBind (dx db) := λ A B f m s,
  match m s with
  | (Ok a, s) => f a s
  | (Err e, s) => (Err e, s)
  | (Panic, s) => (Panic, s)
  end.

Definition pure_dx {db A} (r : res Error A) : dx db A := λ s, (r, s).
Definition try_dx {db A} (m : dx db A) : dx db (res Error A) := λ s,
  match m s with
  | (Panic, s) => (Panic, s)
  | (r, s) => (Ok r, s)
  end.
Definition on_session {db A} (m : tx db A) : dx db A := λ s,
  let '(r, session) := m (session s) in (r, mkDriver session (prepared_cache s) (cells s) (slots s)).
Definition get_driver {db} : dx db (Driver db) := λ s, (Ok s, s).
Definition with_cache {db A} (f : PreparedCache → res Error (A * PreparedCache)) : dx db A := λ s,
  match f (prepared_cache s) with
  | Ok (a, c) => (Ok a, mkDriver (session s) c (cells s) (slots s))
  | Err e => (Err e, s)
  | Panic => (Panic, s)
  end.
Definition set_slot {db} (slot : nat) (entry : PreparedEntry) : dx db unit := λ s,
  (Ok tt, mkDriver (session s) (prepared_cache s) (cells s) (<[slot := entry]> (slots s))).
Definition get_slot {db} (slot : nat) : dx db PreparedEntry := λ s, (or_panic (slots s !! slot), s).

(** [is_verified], [mark_verified], [literal_fallback], [demote]. *)
Definition entry_cells {db} (entry : PreparedEntry) : dx db EntryCell := λ s, (or_panic (cells s !! entry_cell entry), s).
Definition update_cell {db} (entry : PreparedEntry) (f : EntryCell → EntryCell) : dx db unit := λ s,
  (Ok tt, mkDriver (session s) (prepared_cache s) (alter f (entry_cell entry) (cells s)) (slots s)).
Definition mark_verified {db} (entry : PreparedEntry) : dx db unit :=
  update_cell entry (λ c, mkEntryCell true (literal_fallback c)).
Definition demote {db} (entry : PreparedEntry) (fallback : LiteralFallback) : dx db unit :=
  update_cell entry (λ c, mkEntryCell (verified c) (Some fallback)).

(** ** Bound queries *)

(** [entry] of a plan is a slot. *)
Record PreparedPlan : Type := mkPreparedPlan {
  plan_query : bytes;
  plan_parameter_count : nat;
  plan_entry : nat;
}.

Record PreparedInvocation : Type := mkInvocation {
  inv_plan : PreparedPlan;
  inv_entry : PreparedEntry;
  inv_arguments : bytes;
  inv_literal_sql : option bytes;
}.

Record BoundQuery : Type := mkBoundQuery {
  bound_sql : bytes;
  bound_prepared : option PreparedInvocation;
  prepare_diagnostic : option Error;
}.

Definition bound_query_prepared (plan : PreparedPlan) (entry : PreparedEntry) (arguments : bytes)
    (literal_sql : option bytes) : BoundQuery :=
  mkBoundQuery (str "EXECUTE " ++ fmt_int (entry_id entry) ++ str "(" ++ arguments ++ str ")")
    (Some (mkInvocation plan entry arguments literal_sql)) None.

Definition bound_query_literal (sql : bytes) (fallback : option LiteralFallback) : BoundQuery :=
  mkBoundQuery sql None (option_map fallback_diagnostic fallback).

Definition with_bound_query_diagnostic {A} (result : res Error A) (query : BoundQuery) : res Error A :=
  map_err (λ value,
    match prepare_diagnostic query with
    | Some diagnostic => attach_prepare_diagnostic value diagnostic
    | None => value
    end) result.

(** ** The stream of bound queries *)

Record BoundQueryStream : Type := mkBoundStream {
  bs_reader : list (res Error RecordBatch);
  bs_schema : list Field;
  bs_template : QueryTemplate;
  bs_prepared : option PreparedPlan;
  bs_literal_fallback : option LiteralFallback;
  bs_bind_by_name : bool;
  bs_batch : option RecordBatch;
  bs_next_row : nat;
  bs_pending : list BoundQuery;
  bs_finished : bool;
}.

Definition set_pending (b : BoundQueryStream) (pending : list BoundQuery) : BoundQueryStream :=
  mkBoundStream (bs_reader b) (bs_schema b) (bs_template b) (bs_prepared b) (bs_literal_fallback b) (bs_bind_by_name b)
    (bs_batch b) (bs_next_row b) pending (bs_finished b).
Definition set_position (b : BoundQueryStream) (reader : list (res Error RecordBatch)) (batch : option RecordBatch)
    (next_row : nat) (finished : bool) : BoundQueryStream :=
  mkBoundStream reader (bs_schema b) (bs_template b) (bs_prepared b) (bs_literal_fallback b) (bs_bind_by_name b)
    batch next_row (bs_pending b) finished.

Section streams.
Context {db : Type} `{ArrowStream, SqlFormat, Chrono}.

(** The query of a row. *)
Definition bound_row (b : BoundQueryStream) (batch : RecordBatch) (row : nat) : dx db BoundQuery :=
  match bs_prepared b with
  | Some plan =>
      entry ← get_slot (plan_entry plan);
      c ← entry_cells entry;
      match literal_fallback c with
      | Some fallback =>
          sql ← pure_dx (render_row (bs_template b) batch row (bs_bind_by_name b));
          mret (bound_query_literal sql (Some fallback))
      | None =>
          literal_sql ←
            (if verified c then mret None
             else sql ← pure_dx (render_row (bs_template b) batch row (bs_bind_by_name b)); mret (Some sql));
          arguments ← pure_dx (render_arguments batch row);
          mret (bound_query_prepared plan entry (join (str ", ") arguments) literal_sql)
      end
  | None =>
      sql ← pure_dx (render_row (bs_template b) batch row (bs_bind_by_name b));
      mret (bound_query_literal sql (bs_literal_fallback b))
  end.

(** The batches without a row left are passed over. *)
Fixpoint bound_loop (b : BoundQueryStream) (reader : list (res Error RecordBatch)) (batch : option RecordBatch)
    (next_row : nat) : dx db (option BoundQuery * BoundQueryStream) :=
  let refill :=
    match reader with
    | [] => mret (None, set_position b [] batch next_row true)
    | Err value :: _ => pure_dx (Err value)
    | Panic :: _ => pure_dx Panic
    | Ok batch :: reader =>
        if negb (bool_decide (batch_schema batch = bs_schema b)) then
          pure_dx (Err (error "parameter schema changed within the bound stream" InvalidData))
        else _ ← pure_dx (validate_record_batch batch); bound_loop b reader (Some batch) 0
    end in
  match batch with
  | Some current =>
      if (next_row <? batch_rows current)%nat then
        query ← bound_row b current next_row;
        mret (Some query, set_position b reader batch (S next_row) false)
      else refill
  | None => refill
  end.

(** [BoundQueryStream::next]. *)
Definition bound_next (b : BoundQueryStream) : dx db (option BoundQuery * BoundQueryStream) :=
  match bs_pending b with
  | query :: pending => mret (Some query, set_pending b pending)
  | [] => if bs_finished b then mret (None, b) else bound_loop b (bs_reader b) (bs_batch b) (bs_next_row b)
  end.

(** [BoundQueryStream::is_empty]. *)
Definition bound_is_empty (b : BoundQueryStream) : dx db (bool * BoundQueryStream) :=
  '(next, b) ← bound_next b;
  match next with
  | Some query => mret (false, set_pending b (bs_pending b ++ [query]))
  | None => mret (true, b)
  end.

Definition take_if_single (b : BoundQueryStream) : dx db (option BoundQuery * BoundQueryStream) :=
  '(first, b) ← bound_next b;
  match first with
  | None => mret (None, b)
  | Some first =>
      '(second, b) ← bound_next b;
      match second with
      | None => mret (Some first, b)
      | Some second => mret (None, set_pending b (first :: second :: bs_pending b))
      end
  end.

(** The queries a stream still has at most. *)
Definition bound_left (b : BoundQueryStream) : nat :=
  length (bs_pending b) + from_option batch_rows 0%nat (bs_batch b)
  + foldr Nat.add 0%nat ((λ r : res Error RecordBatch, match r with Ok b => batch_rows b | _ => 0%nat end) <$> bs_reader b).
End streams.

(** ** Prepared statements *)

Section execution.
Context {db row : Type} `{!Server db, !Rows db row, MapiCodes, CursorDisplay, Unicode, ArrowStream, SqlFormat, Chrono}.
Context (decode_error_text : DecodeError → bytes) (pid : Z).

(** [PreparedEntry::new], with its own cells. *)
Definition prepared_entry_new (metadata : PreparedMetadata) (query : bytes) : dx db PreparedEntry := λ s,
  match prepared_row_execution_needs_verification query with
  | Ok needs =>
      (Ok (mkPreparedEntry (metadata_id metadata) (prepared_generation (connection (session s)))
             (metadata_parameters metadata) (metadata_result metadata) (length (cells s))),
       mkDriver (session s) (prepared_cache s) (cells s ++ [mkEntryCell (negb needs) None]) (slots s))
  | Err e => (Err e, s)
  | Panic => (Panic, s)
  end.

(** [prepare_cached_with_status] without the status. *)
Definition prepare_cached (query : bytes) (parameter_count : nat) : dx db PreparedEntry :=
  let query := normalize_prepared_query query in
  cached ← with_cache (λ c, Ok (cache_get c query));
  match cached with
  | Some entry => mret entry
  | None =>
      metadata ← on_session (prepare_query decode_error_text pid query parameter_count);
      candidate ← prepared_entry_new metadata query;
      with_cache (λ c, cache_insert c query candidate)
  end.

Definition no_fallback_sql : Error := error "prepared fallback SQL is unavailable" Internal.

Definition current_bound_query (query : BoundQuery) : dx db BoundQuery :=
  match bound_prepared query with
  | None => mret query
  | Some invocation =>
      c ← entry_cells (inv_entry invocation);
      match literal_fallback c with
      | Some fallback =>
          sql ← pure_dx (ok_or (inv_literal_sql invocation) no_fallback_sql);
          mret (bound_query_literal sql (Some fallback))
      | None =>
          let plan := inv_plan invocation in
          cached ← with_cache (λ c, Ok (cache_get c (plan_query plan)));
          entry ← match cached with
                  | Some entry => mret entry
                  | None => prepare_cached (plan_query plan) (plan_parameter_count plan)
                  end;
          _ ← (if negb (entry_id entry =? entry_id (inv_entry invocation)) then set_slot (plan_entry plan) entry
               else mret tt);
          mret (bound_query_prepared plan entry (inv_arguments invocation) (inv_literal_sql invocation))
      end
  end.

Definition retry_bound_query (query : BoundQuery) : dx db BoundQuery :=
  invocation ← pure_dx (ok_or (bound_prepared query) (error "cannot recover an unprepared parameter query" Internal));
  let plan := inv_plan invocation in
  let id := entry_id (inv_entry invocation) in
  current ← get_slot (plan_entry plan);
  entry ←
    (if negb (entry_id current =? id) then mret current
     else
       _ ← with_cache (λ c, Ok (tt, remove_if_id c (plan_query plan) id));
       refreshed ← prepare_cached (plan_query plan) (plan_parameter_count plan);
       slot ← get_slot (plan_entry plan);
       if entry_id slot =? id then _ ← set_slot (plan_entry plan) refreshed; mret refreshed else mret slot);
  c ← entry_cells (inv_entry invocation);
  _ ← (if verified c then mark_verified entry else mret tt);
  mret (bound_query_prepared plan entry (inv_arguments invocation) (inv_literal_sql invocation)).

(** ** All rows or none *)

Definition PARAMETER_UPDATE_BATCH_ROWS : nat := 1024.
Definition PARAMETER_UPDATE_BATCH_BYTES : Z := 8 * 1024 * 1024.

(** [total] and [has_count]. *)
Record RowCount : Type := mkRowCount { row_total : Z; has_count : bool }.

Definition add_current_affected_rows (count : RowCount) (reply : Reply) : res Error RowCount :=
  match has_result_set reply, affected_rows reply with
  | false, Some rows =>
      total ← ok_or (i64_checked_add (row_total count) rows) (error "affected row count overflows i64" Internal);
      Ok (mkRowCount total true)
  | _, _ => Ok count
  end.

(** The replies of a script, one after the other. *)
Fixpoint add_replies (count : RowCount) (reply : Reply) (more : list (res CursorError Reply)) : res Error RowCount :=
  count ← add_current_affected_rows count reply;
  match more with
  | [] => Ok count
  | next :: more => next ← map_err map_cursor_error next; add_replies count next more
  end.

Definition statement_text (query : BoundQuery) : bytes := trim_end_matches 59 (trim_end (bound_sql query)) ++ str ";
".

Definition batch_script (queries : list BoundQuery) : bytes := concat (map statement_text queries).

Definition execute_update_batch (queries : list BoundQuery) (count : RowCount) : tx db RowCount :=
  executed ← attempt (execute (batch_script queries));
  '(reply, more) ← lift (match head queries ≫= prepare_diagnostic with
    | Some diagnostic => map_err (λ value, attach_prepare_diagnostic value diagnostic) executed
    | None => executed
    end);
  lift (add_replies count reply more).

(** Gathering a batch: the queries for it, and the one that did not fit. *)
Fixpoint gather_batch (room : nat) (b : BoundQueryStream) (batch : list BoundQuery) (sql_bytes : Z)
    : dx db (list BoundQuery * option BoundQuery * BoundQueryStream) :=
  match room with
  | O => mret (batch, None, b)
  | S room =>
      '(next, b) ← bound_next b;
      match next with
      | None => mret (batch, None, b)
      | Some query =>
          let next_bytes := saturating_add (saturating_add sql_bytes (len (bound_sql query))) 2 in
          if negb (bool_decide (batch = [])) && (PARAMETER_UPDATE_BATCH_BYTES <? next_bytes)
          then mret (batch, Some query, b)
          else gather_batch room b (batch ++ [query]) next_bytes
      end
  end.

Definition next_batch (b : BoundQueryStream) (pending : option BoundQuery)
    : dx db (list BoundQuery * option BoundQuery * BoundQueryStream) :=
  match pending with
  | Some query => gather_batch (PARAMETER_UPDATE_BATCH_ROWS - 1) b [query] (len (bound_sql query))
  | None => gather_batch PARAMETER_UPDATE_BATCH_ROWS b [] 0
  end.

(** Every round takes a query from the stream or ends. *)
Fixpoint update_batches (fuel : nat) (b : BoundQueryStream) (pending : option BoundQuery) (count : RowCount)
    : dx db RowCount :=
  match fuel with
  | O => pure_dx Panic
  | S fuel =>
      '(batch, pending, b) ← next_batch b pending;
      if bool_decide (batch = []) then mret count
      else count ← on_session (execute_update_batch batch count); update_batches fuel b pending count
  end.

Definition poison_batch : dx db unit :=
  on_session (on_connection (λ c, poison_transaction c
    (str "parameter batch failed in a caller transaction that may contain partial writes"))).

Definition is_caller (scope : AtomicScope) : bool := match scope with CallerTransaction => true | _ => false end.

(** One attempt of [execute_updates_atomic_from_first], after the refresh of
    the first query: the result, and when it is the first query that failed its
    error and whether the scope was the caller's transaction. *)
Definition updates_attempt (b : BoundQueryStream) (first : BoundQuery) (prior_writes : bool)
    : dx db (res Error (option Z) * option (Error * bool)) :=
  _ ← on_session lock_connection;
  scope ← on_session (begin_atomic pid (str "parameter_batch") ScopeSavepoint prior_writes None);
  executed ← try_dx (on_session (execute (bound_sql first)));
  match with_bound_query_diagnostic executed first with
  | Err root =>
      _ ← (if is_caller scope then poison_batch else mret tt);
      result ← try_dx (on_session (finish_atomic scope (Err root)));
      mret (result, Some (root, is_caller scope))
  | Panic => pure_dx Panic
  | Ok (reply, _) =>
      result ← try_dx (
        count ← pure_dx (add_current_affected_rows (mkRowCount 0 false) reply);
        count ← update_batches (S (S (bound_left b))) b None count;
        mret (if has_count count then Some (row_total count) else None));
      _ ← match result with
          | Ok _ => mret tt
          | _ => if is_caller scope then poison_batch else mret tt
          end;
      result ← try_dx (on_session (finish_atomic scope result));
      mret (result, None)
  end.

(** [again] is the same once more, without another retry. *)
Definition updates_from_first (again : option (BoundQuery → dx db (option Z))) (b : BoundQueryStream) (first : BoundQuery)
    (prior_writes : bool) : dx db (option Z) :=
  first ← current_bound_query first;
  '(result, root) ← updates_attempt b first prior_writes;
  match result, root, again with
  | Err value, Some (root, caller_transaction), Some again =>
      if negb caller_transaction && bool_decide (is_Some (bound_prepared first)) && prepared_statement_missing root
         && bool_decide (error_message value = error_message root)
      then retry ← retry_bound_query first; again retry
      else pure_dx (Err value)
  | result, _, _ => pure_dx result
  end.

Definition execute_updates_atomic_from_first (b : BoundQueryStream) (first : BoundQuery) (prior_writes : bool)
    : dx db (option Z) :=
  updates_from_first (Some (λ retry, updates_from_first None b retry prior_writes)) b first prior_writes.

Definition execute_single_bound_update (query : BoundQuery) : dx db (option Z) :=
  query ← current_bound_query query;
  can_retry ←
    (if bool_decide (is_Some (bound_prepared query)) then _ ← on_session lock_connection; on_session get_autocommit
     else mret false);
  result ← try_dx (on_session (execute_update (bound_sql query)));
  match result with
  | Err value =>
      if (can_retry : bool) && prepared_statement_missing value
      then retry ← retry_bound_query query; on_session (execute_update (bound_sql retry))
      else pure_dx (with_bound_query_diagnostic (Err value) query)
  | result => pure_dx (with_bound_query_diagnostic result query)
  end.

Definition execute_updates_atomic (b : BoundQueryStream) (prior_writes : bool) : dx db (option Z) :=
  '(first, b) ← bound_next b;
  match first with
  | None => mret (Some 0)
  | Some first =>
      '(empty, b) ← bound_is_empty b;
      if (empty : bool) then execute_single_bound_update first
      else execute_updates_atomic_from_first b first prior_writes
  end.

(** ** The first execution of a prepared statement *)

Record PreparedExecutionSavepoint : Type := mkExecutionSavepoint {
  execution_savepoint : bytes;
  execution_retained : bool;
}.

Definition begin_prepared_execution_savepoint : tx db (option PreparedExecutionSavepoint) :=
  _ ← lock_connection;
  autocommit ← get_autocommit;
  if (autocommit : bool) then mret None
  else
    state ← transaction_scoped_temporary_table_state None;
    name ← savepoint_name pid (str "prepared_execution");
    _ ← execute (str "SAVEPOINT " ++ name);
    mret (Some (mkExecutionSavepoint name (temporary_any state))).

Definition complete_prepared_execution_savepoint (savepoint : option PreparedExecutionSavepoint) : tx db unit :=
  match savepoint with
  | Some savepoint =>
      if execution_retained savepoint then mret tt
      else
        _ ← lock_connection;
        _ ← execute (str "RELEASE SAVEPOINT " ++ execution_savepoint savepoint);
        mret tt
  | None => mret tt
  end.

Definition rollback_prepared_execution_savepoint (savepoint : option PreparedExecutionSavepoint) : tx db unit :=
  match savepoint with
  | Some savepoint =>
      _ ← lock_connection;
      _ ← execute (str "ROLLBACK TO SAVEPOINT " ++ execution_savepoint savepoint);
      mret tt
  | None => mret tt
  end.

Definition literal_prepared_bound_query (query : BoundQuery) (diagnostic : Error)
    : res Error (BoundQuery * LiteralFallback) :=
  invocation ← ok_or (bound_prepared query) (error "cannot demote an unprepared parameter query" Internal);
  sql ← ok_or (inv_literal_sql invocation) no_fallback_sql;
  template ← compile_query (plan_query (inv_plan invocation));
  let candidate := mkLiteralFallback template diagnostic in
  Ok (bound_query_literal sql (Some candidate), candidate).

Definition demote_prepared_bound_query (query : BoundQuery) (candidate : LiteralFallback) : dx db LiteralFallback :=
  invocation ← pure_dx (ok_or (bound_prepared query) (error "cannot demote an unprepared parameter query" Internal));
  fallback ← with_cache (λ c, replace_prepared_with_literal c (plan_query (inv_plan invocation))
                                (entry_id (inv_entry invocation)) candidate);
  _ ← demote (inv_entry invocation) fallback;
  mret fallback.

(** The reader over a reply ([statement_reader]). *)
Context {R : Type} (open_result : Reply → res Error R).

Definition query_result (sql : bytes) : tx db R := reply ← execute_query sql; lift (open_result reply).

Definition also (value : Error) (what : string) (recovery : Error) : Error :=
  with_message value (error_message value ++ str "; " ++ str what ++ str " also failed: " ++ error_message recovery).

Definition execute_unverified_prepared_result (query : BoundQuery) : dx db R :=
  invocation ← pure_dx (ok_or (bound_prepared query)
                          (error "prepared execution verification requires a prepared query" Internal));
  s ← get_driver;
  autocommit ←
    (if transaction_modified (connection (session s)) then _ ← on_session lock_connection; on_session get_autocommit
     else mret true);
  if negb autocommit then
    sql ← pure_dx (ok_or (inv_literal_sql invocation) no_fallback_sql);
    on_session (query_result sql)
  else
    savepoint ← on_session begin_prepared_execution_savepoint;
    result ← try_dx (on_session (query_result (bound_sql query)));
    match result with
    | Ok result =>
        _ ← on_session (complete_prepared_execution_savepoint savepoint);
        _ ← mark_verified (inv_entry invocation);
        mret result
    | Panic => pure_dx Panic
    | Err value =>
        if negb (remote_prepared_execution_failed value) then pure_dx (Err value)
        else
          rolled ← try_dx (on_session (rollback_prepared_execution_savepoint savepoint));
          match rolled with
          | Err recovery =>
              pure_dx (Err (also value "restoring the transaction after prepared remote execution" recovery))
          | Panic => pure_dx Panic
          | Ok tt =>
              '(literal, candidate) ← pure_dx (literal_prepared_bound_query query value);
              result ← try_dx (on_session (query_result (bound_sql literal)));
              match with_bound_query_diagnostic result literal with
              | Ok result =>
                  _ ← on_session (complete_prepared_execution_savepoint savepoint);
                  _ ← demote_prepared_bound_query query candidate;
                  mret result
              | Panic => pure_dx Panic
              | Err value =>
                  rolled ← try_dx (on_session (rollback_prepared_execution_savepoint savepoint));
                  match rolled with
                  | Err recovery =>
                      pure_dx (Err (also value "restoring the transaction after literal remote execution" recovery))
                  | Panic => pure_dx Panic
                  | Ok tt =>
                      completed ← try_dx (on_session (complete_prepared_execution_savepoint savepoint));
                      match completed with
                      | Err recovery => pure_dx (Err (also value "releasing the prepared execution savepoint" recovery))
                      | Panic => pure_dx Panic
                      | Ok tt => pure_dx (Err value)
                      end
                  end
              end
          end
    end.
End execution.
