(* ===== verification/ParameterBatchProofs.v ===== *)
(** What the execution of bound rows relies on: the stream gives the query of
    every row once and in order, the batches send them all, and the rows are
    kept together or not at all. *)

From stdpp Require Import base list numbers strings gmap.
From S2P Require Import Prelude RustStd Types Calendar ArrowData Errors SqlScan Template PreparedCache TemplateProofs Ingest StreamProofs Transactions TransactionsProofs AtomicProofs Prepare ParameterBatch.
Local Open Scope Z_scope.

(** ** The rows of a stream *)

Section stream_rows.
Context {db : Type} `{ArrowStream, SqlFormat, Chrono}.
Implicit Types s : Driver db.

(** The queries of the rows of a batch, from a row on. *)
Definition batch_items s (b : BoundQueryStream) (batch : RecordBatch) (from : nat) : list (res Error BoundQuery) :=
  (λ row, (bound_row b batch row s).1) <$> seq from (batch_rows batch - from).

(** What a stream gives: the query of every row, batch after batch; a batch that
    cannot be read, has another schema or is invalid ends it. *)
Fixpoint reader_items s (b : BoundQueryStream) (reader : list (res Error RecordBatch)) : list (res Error BoundQuery) :=
  match reader with
  | [] => []
  | Err e :: _ => [Err e]
  | Panic :: _ => [Panic]
  | Ok batch :: reader =>
      if negb (bool_decide (batch_schema batch = bs_schema b))
      then [Err (error "parameter schema changed within the bound stream" InvalidData)]
      else
        match validate_record_batch batch with
        | Ok _ => batch_items s b batch 0 ++ reader_items s b reader
        | Err e => [Err e]
        | Panic => [Panic]
        end
  end.

Definition stream_items s (b : BoundQueryStream) : list (res Error BoundQuery) :=
  (Ok <$> bs_pending b) ++
  if bs_finished b then []
  else from_option (λ batch, batch_items s b batch (bs_next_row b)) [] (bs_batch b) ++ reader_items s b (bs_reader b).

(** Reading a row changes nothing. *)
Lemma bound_row_state b batch row s : (bound_row b batch row s).2 = s.
Proof.
  unfold bound_row, mbind, dx_bind, pure_dx, mret, dx_ret, get_slot, entry_cells.
  repeat (case_match; simplify_eq/=; try done).
Qed.

Lemma batch_items_set s b b' batch from :
  bs_template b' = bs_template b → bs_prepared b' = bs_prepared b → bs_literal_fallback b' = bs_literal_fallback b →
  bs_bind_by_name b' = bs_bind_by_name b → batch_items s b' batch from = batch_items s b batch from.
Proof.
  intros E1 E2 E3 E4. apply list_fmap_ext. intros i row _. unfold bound_row. by rewrite E1, E2, E3, E4.
Qed.

Lemma reader_items_set s b b' reader :
  bs_template b' = bs_template b → bs_prepared b' = bs_prepared b → bs_literal_fallback b' = bs_literal_fallback b →
  bs_bind_by_name b' = bs_bind_by_name b → bs_schema b' = bs_schema b → reader_items s b' reader = reader_items s b reader.
Proof.
  intros E1 E2 E3 E4 E5. induction reader as [|[batch|e|] reader IH]; [done| |done..]. cbn [reader_items]. rewrite E5, IH.
  by rewrite (batch_items_set s b b').
Qed.

(** What [next] answers, from the items of the stream. *)
Definition answers s (items : list (res Error BoundQuery)) (r : res Error (option BoundQuery * BoundQueryStream)) : Prop :=
  match items with
  | [] => ∃ b', r = Ok (None, b') ∧ stream_items s b' = []
  | Ok q :: rest => ∃ b', r = Ok (Some q, b') ∧ stream_items s b' = rest
  | Err e :: _ => r = Err e
  | Panic :: _ => r = Panic
  end.

Lemma batch_items_cons s b batch row :
  (row < batch_rows batch)%nat → batch_items s b batch row = (bound_row b batch row s).1 :: batch_items s b batch (S row).
Proof.
  intros Hr. unfold batch_items. replace (batch_rows batch - row)%nat with (S (batch_rows batch - S row)) by lia. done.
Qed.

Lemma batch_items_nil s b batch row : (batch_rows batch ≤ row)%nat → batch_items s b batch row = [].
Proof. intros Hr. unfold batch_items. by replace (batch_rows batch - row)%nat with 0%nat by lia. Qed.

(** A row is left in the batch, or the reader is asked. *)
Lemma bound_loop_cases s b reader batch next_row :
  (∃ b0, batch = Some b0 ∧ (next_row < batch_rows b0)%nat) ∨
  (from_option (λ b0, batch_items s b b0 next_row) [] batch = [] ∧
   bound_loop b reader batch next_row =
   match reader with
   | [] => mret (None, set_position b [] batch next_row true)
   | Err value :: _ => pure_dx (Err value)
   | Panic :: _ => pure_dx Panic
   | Ok batch :: reader =>
       if negb (bool_decide (batch_schema batch = bs_schema b)) then
         pure_dx (Err (error "parameter schema changed within the bound stream" InvalidData))
       else _ ← pure_dx (validate_record_batch batch); bound_loop (db := db) b reader (Some batch) 0
   end).
Proof.
  destruct batch as [b0|]; [|right; by destruct reader]. destruct (decide (next_row < batch_rows b0)%nat) as [Hr|Hr]; [left; by exists b0|].
  right. split; [by apply batch_items_nil; lia|]. destruct reader; cbn [bound_loop]; by rewrite (proj2 (Nat.ltb_ge _ _)) by lia.
Qed.

Lemma bound_loop_row s b reader b0 next_row :
  bs_pending b = [] → (next_row < batch_rows b0)%nat →
  ∃ r, bound_loop b reader (Some b0) next_row s = (r, s) ∧ answers s (batch_items s b b0 next_row ++ reader_items s b reader) r.
Proof.
  intros Hp Hrow. rewrite batch_items_cons by done. pose proof (bound_row_state b b0 next_row s) as Hs.
  assert (bound_loop b reader (Some b0) next_row s =
    (query ← bound_row b b0 next_row; mret (Some query, set_position b reader (Some b0) (S next_row) false)) s) as ->
    by (destruct reader; cbn [bound_loop]; by rewrite (proj2 (Nat.ltb_lt _ _)) by done).
  unfold mbind, dx_bind. destruct (bound_row b b0 next_row s) as [[q|e|] s1]; cbn in Hs; subst s1; eexists; (split; [done|]); cbn; try done.
  eexists. split; [done|]. unfold stream_items. cbn. rewrite Hp. cbn.
  by rewrite (batch_items_set s b), (reader_items_set s b) by done.
Qed.

Lemma bound_loop_answers s b reader batch next_row :
  bs_pending b = [] →
  ∃ r, bound_loop b reader batch next_row s = (r, s) ∧
    answers s (from_option (λ b0, batch_items s b b0 next_row) [] batch ++ reader_items s b reader) r.
Proof.
  intros Hp. revert batch next_row. induction reader as [|item reader IH]; intros batch next_row.
  - destruct (bound_loop_cases s b [] batch next_row) as [(b0 & -> & Hrow)|[Hitems ->]]; [by apply bound_loop_row|].
    rewrite Hitems. cbn [reader_items app]. eexists. split; [done|]. eexists. split; [done|]. unfold stream_items. cbn. by rewrite Hp.
  - destruct (bound_loop_cases s b (item :: reader) batch next_row) as [(b0 & -> & Hrow)|[Hitems ->]]; [by apply bound_loop_row|].
    rewrite Hitems. cbn [app]. destruct item as [b1|e|]; cbn [reader_items]; [|eexists; split; [done|]; done..].
    destruct (negb _); [eexists; split; [done|]; done|].
    unfold mbind, dx_bind, pure_dx. destruct (validate_record_batch b1) as [[]|e|]; [|eexists; split; [done|]; done..].
    destruct (IH (Some b1) 0%nat) as (r & Hr & Ha). exists r. split; [exact Hr|exact Ha].
Qed.

Lemma bound_next_answers s b : ∃ r, bound_next b s = (r, s) ∧ answers s (stream_items s b) r.
Proof.
  unfold bound_next, stream_items. destruct (bs_pending b) as [|q pending] eqn:Hp.
  - destruct (bs_finished b) eqn:Hf.
    + eexists. split; [done|]. cbn. eexists. split; [done|]. unfold stream_items. by rewrite Hp, Hf.
    + cbn. by apply bound_loop_answers.
  - eexists. split; [done|]. cbn. eexists. split; [done|]. unfold stream_items. cbn. destruct (bs_finished b); [done|].
    rewrite (reader_items_set s b) by done. destruct (bs_batch b); [|done]. cbn. by rewrite (batch_items_set s b) by done.
Qed.
End stream_rows.

(** ** Batches of queries *)

Definition limit : Z := PARAMETER_UPDATE_BATCH_BYTES.
Definition total_bytes (queries : list BoundQuery) : Z := foldr (λ q n, len (bound_sql q) + 2 + n) 0 queries.

(** A batch that is sent: not empty, not more than 1024 statements, and not more
    than eight mebibytes unless it is a single statement. *)
Definition group_ok (group : list BoundQuery) : Prop :=
  group ≠ [] ∧ (length group ≤ PARAMETER_UPDATE_BATCH_ROWS)%nat ∧
  (length group = 1%nat ∨ len (batch_script group) ≤ limit + 2).

Lemma total_bytes_app l1 l2 : total_bytes (l1 ++ l2) = total_bytes l1 + total_bytes l2.
Proof. induction l1 as [|q l1 IH]; [done|]. unfold total_bytes in *. cbn [app foldr]. rewrite IH. lia. Qed.

Lemma length_drop_while {A} (p : A → bool) (l : list A) : (length (drop_while p l) ≤ length l)%nat.
Proof. destruct (drop_while_suffix p l) as [pre Hp]. rewrite Hp at 2. rewrite length_app. lia. Qed.

Lemma length_trim_end l : (length (trim_end l) ≤ length l)%nat.
Proof.
  unfold trim_end. set (blank := λ c, _). destruct (chars_prefix (length l) l) as [post Hpost]. fold (chars l) in Hpost.
  destruct (drop_while_suffix blank (rev (chars l))) as [pre Hpre].
  assert (chars l = rev (drop_while blank (rev (chars l))) ++ rev pre) as Hc
    by (rewrite <- rev_app_distr, <- Hpre; by rewrite rev_involutive).
  rewrite Hpost at 2. rewrite Hc at 2. rewrite concat_app, !length_app. lia.
Qed.

Lemma len_statement_text q : len (statement_text q) ≤ len (bound_sql q) + 2.
Proof.
  unfold statement_text. rewrite length_app. assert (length (str ";
") = 2%nat) as -> by done. unfold trim_end_matches. rewrite length_rev.
  pose proof (length_drop_while (λ c, c =? 59) (rev (trim_end (bound_sql q)))) as Hd. rewrite length_rev in Hd.
  pose proof (length_trim_end (bound_sql q)). lia.
Qed.

Lemma len_batch_script queries : len (batch_script queries) ≤ total_bytes queries.
Proof.
  unfold batch_script. induction queries as [|q queries IH]; [done|]. cbn [map concat total_bytes foldr].
  rewrite length_app. pose proof (len_statement_text q). unfold total_bytes in IH. lia.
Qed.

(** The bytes counted while a batch is gathered. *)
Definition counted (batch : list BoundQuery) (sql_bytes : Z) : Prop :=
  0 ≤ sql_bytes ∧ Z.min (total_bytes batch) (limit + 2) ≤ sql_bytes + 2 ∧
  ((length batch ≤ 1)%nat ∨ total_bytes batch ≤ limit + 2).

Lemma counted_push batch sql_bytes q :
  counted batch sql_bytes →
  let next := saturating_add (saturating_add sql_bytes (len (bound_sql q))) 2 in
  batch = [] ∨ next ≤ limit → counted (batch ++ [q]) next.
Proof.
  intros (H0 & H1 & H2) next Hor. assert (0 ≤ len (bound_sql q)) by lia.
  unfold counted. rewrite total_bytes_app, length_app. cbn [total_bytes foldr length].
  subst next. unfold saturating_add, limit, PARAMETER_UPDATE_BATCH_BYTES, usize_max in *.
  destruct Hor as [->|Hor]; cbn [total_bytes foldr length] in *; [lia|]. split_and!; [lia|lia|]. right. lia.
Qed.

Section batches.
Context {db row : Type} `{!Server db, CursorDisplay, ArrowStream, SqlFormat, Chrono}.
Implicit Types s : Driver db.

(** Two states with the same shared cells and slots. *)
Definition same_store s s' : Prop := cells s' = cells s ∧ slots s' = slots s.

(** Reading from the stream depends on the store only, and changes nothing. *)
Definition reads {A} (m : dx db A) : Prop := ∀ s, (m s).2 = s ∧ ∀ s', same_store s s' → (m s').1 = (m s).1.

Lemma reads_bind {A B} (m : dx db A) (f : A → dx db B) : reads m → (∀ a, reads (f a)) → reads (m ≫= f).
Proof.
  intros Hm Hf s. unfold mbind, dx_bind. destruct (Hm s) as [H1' H2']. split.
  - destruct (m s) as [[a|e|] s1]; cbn in *; subst; [apply Hf|done..].
  - intros s' Hs. specialize (H2' s' Hs). destruct (Hm s') as [H3' _]. destruct (m s) as [r s1], (m s') as [r' s1']; cbn in *; subst.
    destruct r as [a|e|]; [by apply (Hf a s)|done..].
Qed.

Lemma reads_pure {A} (r : res Error A) : reads (pure_dx r).
Proof. done. Qed.
Lemma reads_ret {A} (a : A) : reads (mret a).
Proof. done. Qed.
Lemma reads_slot slot : reads (get_slot slot).
Proof. intros s. split; [done|]. intros s' [_ Hs]. unfold get_slot. cbn. by rewrite Hs. Qed.
Lemma reads_cells entry : reads (entry_cells entry).
Proof. intros s. split; [done|]. intros s' [Hc _]. unfold entry_cells. cbn. by rewrite Hc. Qed.

Ltac reading := repeat first [apply reads_bind; [|intros ?] | apply reads_pure | apply reads_ret | apply reads_slot | apply reads_cells | case_match].

Lemma bound_row_reads b batch r : reads (bound_row b batch r).
Proof. unfold bound_row. reading. Qed.

Lemma bound_loop_reads b reader batch next_row : reads (bound_loop b reader batch next_row).
Proof.
  revert batch next_row. induction reader as [|item reader IH]; intros batch next_row; cbn [bound_loop];
    repeat first [apply reads_bind; [|intros ?] | apply reads_pure | apply reads_ret | apply bound_row_reads | apply IH | case_match].
Qed.

Lemma bound_next_reads b : reads (bound_next b).
Proof. unfold bound_next. repeat first [apply reads_ret | apply bound_loop_reads | case_match]. Qed.

Lemma gather_reads room b batch sql_bytes : reads (gather_batch room b batch sql_bytes).
Proof.
  revert b batch sql_bytes. induction room as [|room IH]; intros b batch sql_bytes; cbn [gather_batch]; [apply reads_ret|].
  apply reads_bind; [apply bound_next_reads|]. intros [[q|] b']; [|apply reads_ret]. destruct (_ && _); [apply reads_ret|apply IH].
Qed.

Lemma next_batch_reads b pending : reads (next_batch b pending).
Proof. unfold next_batch. destruct pending; apply gather_reads. Qed.

(** How a stream ends after its good rows. *)
Definition stream_end (tail : list (res Error BoundQuery)) : option Error :=
  match tail with Err e :: _ => Some e | _ => None end.
Definition ends (tail : list (res Error BoundQuery)) : Prop :=
  match tail with [] | Err _ :: _ => True | _ => False end.

Lemma gather_batch_ok room s b batch sql_bytes qs tail :
  stream_items s b = (Ok <$> qs) ++ tail → ends tail → counted batch sql_bytes →
  ∃ r, gather_batch room b batch sql_bytes s = (r, s) ∧
    match r with
    | Ok (batch', pending, b') =>
        ∃ taken rest, batch' = batch ++ taken ∧ qs = taken ++ option_list pending ++ rest ∧
          stream_items s b' = (Ok <$> rest) ++ tail ∧ (length taken ≤ room)%nat ∧ (∃ n, counted batch' n) ∧
          (is_Some pending → batch' ≠ []) ∧
          (batch' = [] → room ≠ 0%nat → stream_items s b = [])
    | Err e => stream_end tail = Some e
    | Panic => False
    end.
Proof.
  intros Hitems Hend. revert b batch sql_bytes qs Hitems. induction room as [|room IH]; intros b batch sql_bytes qs Hitems Hc.
  { cbn [gather_batch]. eexists. split; [done|]. exists [], qs. rewrite app_nil_r. split_and!; [done|done|done|done|by eexists|by intros []|done]. }
  cbn [gather_batch]. unfold mbind, dx_bind. destruct (bound_next_answers s b) as (r & Hr & Ha). rewrite Hr.
  destruct qs as [|q qs].
  - cbn in Hitems. rewrite Hitems in Ha. destruct tail as [|[|e|] tail]; [| |cbn in Ha; subst r|]; [|done| |done].
    + destruct Ha as (b' & -> & Hb'). eexists. split; [done|]. exists [], []. rewrite app_nil_r.
      split_and!; [done|done|by rewrite Hb'|cbn; lia|by eexists|by intros []|by intros _ _].
    + eexists. split; [done|]. done.
  - rewrite Hitems in Ha. destruct Ha as (b' & -> & Hb'). cbn [fst snd].
    set (next := saturating_add _ 2). destruct (negb (bool_decide (batch = [])) && (PARAMETER_UPDATE_BATCH_BYTES <? next)) eqn:Hfull.
    + apply andb_true_iff in Hfull as [Hne _]. apply negb_true_iff, bool_decide_eq_false in Hne.
      eexists. split; [done|]. exists [], qs. rewrite app_nil_r. split_and!; [done|done|done|cbn; lia|by eexists|done|done].
    + destruct (IH b' (batch ++ [q]) next qs Hb') as (r & Hg & Hpost).
      { apply counted_push; [done|]. apply andb_false_iff in Hfull as [Hf|Hf].
        - left. by apply negb_false_iff, bool_decide_eq_true in Hf.
        - right. by apply Z.ltb_ge in Hf. }
      exists r. split; [done|]. destruct r as [[[batch' pending] b'']|e|]; [|done..].
      destruct Hpost as (taken & rest & -> & -> & H1' & H2' & H3' & H4' & _). exists (q :: taken), rest.
      rewrite <- app_assoc. split_and!; [done|done|done|cbn; lia| |by destruct batch|by destruct batch].
      by rewrite <- app_assoc in H3'.
Qed.

(** The next batch, from the query left over and the stream. *)
Lemma next_batch_ok s b pending qs tail :
  stream_items s b = (Ok <$> qs) ++ tail → ends tail →
  match (next_batch b pending s).1 with
  | Ok (batch, pending', b') =>
      ∃ rest, option_list pending ++ qs = batch ++ option_list pending' ++ rest ∧ stream_items s b' = (Ok <$> rest) ++ tail ∧
        (batch = [] → option_list pending ++ qs = [] ∧ tail = []) ∧ (batch ≠ [] → group_ok batch)
  | Err e => stream_end tail = Some e
  | Panic => False
  end.
Proof.
  intros Hitems Hend. assert (∀ batch n, counted batch n → batch ≠ [] → (length batch ≤ PARAMETER_UPDATE_BATCH_ROWS)%nat → group_ok batch) as Hgroup.
  { intros batch n (_ & _ & Hc) Hne Hl. split_and!; [done|done|]. destruct batch as [|q [|q' batch]]; [done|by left|right].
    pose proof (len_batch_script (q :: q' :: batch)). destruct Hc as [Hc|Hc]; [cbn in Hc; lia|lia]. }
  unfold next_batch. destruct pending as [q|].
  - destruct (gather_batch_ok (PARAMETER_UPDATE_BATCH_ROWS - 1) s b [q] (len (bound_sql q)) qs tail Hitems Hend) as (r & -> & Hr).
    { unfold counted. cbn. split_and!; [lia|lia|left; lia]. }
    destruct r as [[[batch pending'] b']|e|]; [|done..]. destruct Hr as (taken & rest & -> & -> & H1' & H2' & [n H3'] & _ & _).
    cbn [fst]. exists rest. split_and!; [done|done|done|]. intros Hne. eapply Hgroup; [done..|]. cbn. unfold PARAMETER_UPDATE_BATCH_ROWS in *. lia.
  - destruct (gather_batch_ok PARAMETER_UPDATE_BATCH_ROWS s b [] 0 qs tail Hitems Hend) as (r & -> & Hr).
    { unfold counted. cbn. split_and!; [lia|lia|left; lia]. }
    destruct r as [[[batch pending'] b']|e|]; [|done..]. destruct Hr as (taken & rest & -> & -> & H1' & H2' & [n H3'] & _ & H5').
    cbn [fst]. exists rest. split_and!; [done|done| |].
    + intros Hnil. specialize (H5' Hnil ltac:(done)). rewrite Hitems in H5'. apply app_eq_nil in H5' as [Hq ->].
      apply fmap_nil_inv in Hq. done.
    + intros Hne. eapply Hgroup; [exact H3'|done|done].
Qed.

(** The reference: one batch after the other. *)
Fixpoint run_groups (groups : list (list BoundQuery)) (count : RowCount) : tx db RowCount :=
  match groups with
  | [] => mret count
  | group :: groups => count ← execute_update_batch group count; run_groups groups count
  end.

Definition end_with {A} (e : option Error) (a : A) : res Error A := match e with Some e => Err e | None => Ok a end.

Lemma on_session_bind {A B} (m : tx db A) (f : A → tx db B) s :
  on_session (m ≫= f) s = (a ← on_session m; on_session (f a)) s.
Proof. unfold on_session, mbind, tx_bind, dx_bind. cbn. by destruct (m (session s)) as [[a|e|] s1]. Qed.

Lemma on_session_store {A} (m : tx db A) s : same_store s (on_session m s).2.
Proof. unfold on_session. by destruct (m (session s)). Qed.

Lemma update_batches_groups fuel s b pending qs tail :
  stream_items s b = (Ok <$> qs) ++ tail → ends tail → (length (option_list pending ++ qs) < fuel)%nat →
  ∃ groups rest, concat groups ++ rest = option_list pending ++ qs ∧ Forall group_ok groups ∧
    (stream_end tail = None → rest = []) ∧
    ∀ count s', same_store s s' →
      update_batches fuel b pending count s' =
      (count ← on_session (run_groups groups count); pure_dx (end_with (stream_end tail) count)) s'.
Proof.
  revert b pending qs. induction fuel as [|fuel IH]; intros b pending qs Hitems Hend Hf; [lia|]. cbn [update_batches].
  pose proof (next_batch_ok s b pending qs tail Hitems Hend) as Hnext. destruct (next_batch_reads b pending s) as [_ Hreads].
  assert (∀ s', same_store s s' → next_batch b pending s' = ((next_batch b pending s).1, s')) as Hsame.
  { intros s' Hs. destruct (next_batch_reads b pending s') as [H1' _]. rewrite <- (Hreads s' Hs). by destruct (next_batch b pending s'); cbn in *; subst. }
  destruct (next_batch b pending s).1 as [[[batch pending'] b']|e|]; [| |done].
  2: { exists [], (option_list pending ++ qs). split_and!; [done|done|by rewrite Hnext|]. intros count s' Hs.
       unfold mbind at 1, dx_bind at 1. rewrite (Hsame s' Hs), Hnext. unfold mbind, dx_bind, on_session, pure_dx. cbn. by destruct s'. }
  destruct Hnext as (rest & Hq & Hrest & Hnil & Hgroup). destruct (bool_decide_reflect (batch = [])) as [->|Hne].
  { destruct (Hnil eq_refl) as [Hpq ->]. exists [], []. split_and!; [by rewrite Hpq|done|done|]. intros count s' Hs.
    unfold mbind, dx_bind. rewrite (Hsame s' Hs). rewrite bool_decide_true by done. unfold on_session, pure_dx, mret, dx_ret. cbn. by destruct s'. }
  destruct (IH b' pending' rest Hrest Hend) as (groups & rest' & Hg1 & Hg2 & Hg3 & Hrun).
  { rewrite Hq in Hf. rewrite length_app in Hf. destruct batch; [done|]. cbn [length] in Hf. lia. }
  exists (batch :: groups), rest'. split_and!.
  - cbn [concat]. by rewrite <- app_assoc, Hg1, Hq.
  - constructor; [by apply Hgroup|done].
  - done.
  - intros count s' Hs. cbn [run_groups]. unfold mbind at 1, dx_bind at 1. rewrite (Hsame s' Hs). rewrite bool_decide_false by done.
    unfold mbind at 2, dx_bind at 2. rewrite on_session_bind. unfold mbind at 1 2, dx_bind at 1 2.
    pose proof (on_session_store (execute_update_batch batch count) s') as Hst.
    destruct (on_session (execute_update_batch batch count) s') as [[count'|e|] s1]; [|done..]. cbn [snd] in Hst.
    rewrite Hrun; [done|]. destruct Hs, Hst. split; congruence.
Qed.
End batches.

(** ** How much fuel the loop needs *)

Section fuel.
Context {db : Type} `{ArrowStream, SqlFormat, Chrono}.

Lemma length_batch_items (s : Driver db) b batch from : (length (batch_items s b batch from) ≤ batch_rows batch)%nat.
Proof. unfold batch_items. rewrite length_fmap, length_seq. lia. Qed.

Lemma stream_items_left (s : Driver db) b : (length (stream_items s b) ≤ S (bound_left b))%nat.
Proof.
  assert (∀ reader, (length (reader_items s b reader) ≤
    S (foldr Nat.add 0 ((λ r : res Error RecordBatch, match r with Ok b => batch_rows b | _ => 0 end) <$> reader)))%nat) as Hr.
  { induction reader as [|[batch|e|] reader IH]; [cbn; lia| |cbn; lia..]. cbn [reader_items fmap list_fmap foldr].
    destruct (negb _); [cbn; lia|]. destruct (validate_record_batch batch); [|cbn; lia..].
    rewrite length_app. pose proof (length_batch_items s b batch 0). cbn in IH. lia. }
  unfold stream_items, bound_left. rewrite length_app, length_fmap. destruct (bs_finished b); [cbn; lia|].
  rewrite length_app. specialize (Hr (bs_reader b)). destruct (bs_batch b) as [batch|]; cbn [from_option].
  - pose proof (length_batch_items s b batch (bs_next_row b)). lia.
  - cbn [length]. lia.
Qed.
End fuel.

(** C15. Every bound row is sent once and in order.  Whatever batches the rows come
    in, the loop over them is exactly the reference: the queries the rows give
    are cut, without loss or reordering, into scripts of at most 1024 statements
    and eight mebibytes (unless it is a single statement), sent one after the
    other; it stops at the first error of the server, and a row that has no
    query or a batch that cannot be read ends it with that error after the
    scripts before it.  The rounds allowed are enough. *)
Theorem updates_cover_rows {db} `{!Server db, CursorDisplay, ArrowStream, SqlFormat, Chrono} (s : Driver db) b qs tail :
  stream_items s b = (Ok <$> qs) ++ tail → ends tail →
  ∃ groups rest, concat groups ++ rest = qs ∧ Forall group_ok groups ∧ (stream_end tail = None → rest = []) ∧
    ∀ count,
      update_batches (S (S (bound_left b))) b None count s =
      (count ← on_session (run_groups groups count); pure_dx (end_with (stream_end tail) count)) s.
Proof.
  intros Hitems Hend.
  destruct (update_batches_groups (S (S (bound_left b))) s b None qs tail Hitems Hend) as (groups & rest & G1 & G2 & G3 & G4).
  { cbn. pose proof (stream_items_left s b) as Hl. rewrite Hitems, length_app, length_fmap in Hl. lia. }
  exists groups, rest. split_and!; [done..|]. intros count. by apply G4.
Qed.

(** ** All rows or none *)

(** What the server promises about a transaction: leaving the autocommit mode
    opens one, a savepoint in a transaction that has not written holds its content,
    reading and deallocating change nothing, and a statement that is
    not transaction control ([harmless]) neither commits nor touches
    savepoints, whether it succeeds or not. *)
Class WriteLaws (db content : Type) `{!Server db, !TransactionLaws db content} := {
  harmless : bytes → Prop;
  write_harmless d q r d' : harmless q → server_autocommit d = Ok false → server_execute d q = (r, d') →
    durable d' = durable d ∧ server_autocommit d' = Ok false ∧ ∀ name, saved d' name = saved d name;
  leave_autocommit d d' : server_set_autocommit d false = (Ok tt, d') →
    durable d' = durable d ∧ server_autocommit d' = Ok false;
  open_savepoint d name x d' : unwritten d → server_execute d (str "SAVEPOINT " ++ name) = (Ok x, d') →
    saved d' name = Some (current d) ∧ server_autocommit d' = server_autocommit d;
  read_row d q r d' : server_query_row d q = (r, d') →
    current d' = current d ∧ server_autocommit d' = server_autocommit d ∧ (unwritten d → unwritten d');
  deallocate_unwritten d id : unwritten d → unwritten (server_try_deallocate d id);
  deallocate_keeps d id : current (server_try_deallocate d id) = current d ∧ durable (server_try_deallocate d id) = durable d ∧
    server_autocommit (server_try_deallocate d id) = server_autocommit d;
}.

Section all_or_nothing.
Context {db content : Type} `{!Server db, !TransactionLaws db content, !WriteLaws db content}.
Context `{CursorDisplay, ArrowStream, SqlFormat, Chrono} (pid : Z).
Implicit Types s : Session db.

Lemma lock_keeps s :
  let s' := (lock_connection s).2 in
  current (server s') = current (server s) ∧ durable (server s') = durable (server s) ∧
  server_autocommit (server s') = server_autocommit (server s) ∧
  (unwritten (server s) → unwritten (server s')).
Proof.
  cbn. generalize (server s) as d. induction (pending_deallocations (connection s)) as [|id ids IH]; intros d; [done|].
  cbn [foldl]. destruct (IH (server_try_deallocate d id)) as (-> & -> & -> & Hw). destruct (deallocate_keeps d id) as (-> & -> & ->).
  split_and!; [done..|]. intros Hd. by apply Hw, deallocate_unwritten.
Qed.

(** A scope that has been begun: open, on the content it was begun with. *)
Lemma begin_atomic_opens purpose prior s scope s' a :
  server_autocommit (server s) = Ok a → (a = false → prior = false → unwritten (server s)) →
  begin_atomic pid purpose ScopeSavepoint prior None s = (Ok scope, s') →
  server_autocommit (server s') = Ok false ∧ scope_open scope (server s') (if a then durable (server s) else current (server s)) ∧
  match scope with Autocommit => a = true | CallerTransaction => a = false ∧ prior = true | Savepoint _ _ => a = false ∧ prior = false end.
Proof.
  intros Ha Hw. unfold begin_atomic, mbind, tx_bind, get_autocommit. rewrite Ha. cbn [map_err]. destruct a.
  - unfold set_autocommit_raw, lift. destruct (server_set_autocommit (server s) false) as [[[]|e|] d] eqn:E; cbn [map_err]; [|done..].
    intros [= <- <-]. apply leave_autocommit in E as [E1 E2]. by cbn.
  - destruct prior; cbn [orb]; [by intros [= <- <-]|]. unfold transaction_scoped_temporary_table_state, mbind, tx_bind, lift.
    unfold query_row. cbn [mbind res_bind]. set (q := _ ++ _). destruct (server_query_row (server s) q) as [row d] eqn:E.
    apply read_row in E as (E1 & E2 & E2w).
    destruct row as [row|e|]; cbn [map_err]; [|done..]. destruct row as [row|]; [|done].
    destruct (count_field _ _ row 0) as [any| |]; [|done..]. unfold mret, tx_ret, savepoint_name. cbn [temporary_any].
    unfold execute, mbind, tx_bind, execute_raw, lift. cbn [server connection savepoint_id sent]. set (name := str "adbc_" ++ _).
    destruct (server_execute d (str "SAVEPOINT " ++ name)) as [[x|e|] d'] eqn:E'; cbn [map_err]; [|done..].
    intros [= <- <-]. apply open_savepoint in E' as [E3 E4]; [|by apply E2w, Hw]. cbn. split_and!; [by rewrite E4, E2|by rewrite E3, E1|done..].
Qed.

(** What stays when harmless statements run in a scope. *)
Definition stays (scope : AtomicScope) (before : content) s : Prop :=
  server_autocommit (server s) = Ok false ∧ scope_open scope (server s) before.

Lemma stays_execute scope before q s : harmless q → stays scope before s → stays scope before (execute q s).2.
Proof.
  intros Hq [Ha Ho]. unfold execute, mbind, tx_bind, execute_raw, lift. destruct (server_execute (server s) q) as [r d] eqn:E.
  destruct (write_harmless _ _ _ _ Hq Ha E) as (E1 & E2 & E3).
  assert (stays scope before (mkSession (connection s) d (savepoint_id s) (sent s ++ [q]))) as Hs.
  { split; [done|]. destruct scope; cbn in *; [congruence|done|congruence]. }
  by destruct (map_err _ r).
Qed.

Lemma stays_batch scope before group count s :
  harmless (batch_script group) → stays scope before s → stays scope before (execute_update_batch group count s).2.
Proof.
  intros Hq Hs. pose proof (stays_execute scope before _ s Hq Hs) as Hx.
  unfold execute_update_batch, mbind, tx_bind, attempt. destruct (execute (batch_script group) s) as [[x|e|] s1]; cbn in Hx.
  all: unfold lift; repeat case_match; simplify_eq/=; done.
Qed.

Lemma stays_groups scope before groups count s :
  Forall (λ group, harmless (batch_script group)) groups → stays scope before s → stays scope before (run_groups groups count s).2.
Proof.
  intros Hg. revert count s. induction Hg as [|group groups Hh _ IH]; intros count s Hs; [done|]. cbn [run_groups].
  unfold mbind, tx_bind. pose proof (stays_batch scope before group count s Hh Hs) as Hb.
  destruct (execute_update_batch group count s) as [[c|e|] s1]; [by apply IH|done..].
Qed.

(** A transaction on what was there [before] has been committed as a whole, in the
    state [d] of the server: the server's answer to COMMIT got lost, or the error
    says that only restoring the autocommit mode failed. *)
Definition committed_after_all (before : content) (d : db) (e : Error) : Prop :=
  ∃ d1, durable d1 = before ∧ durable d = current d1 ∧ (commit_in_doubt d1 ∨ mentions "restoring autocommit failed" e).

(** The end of an attempt: a failed scope has kept nothing, or says so, or all of it
    was committed. *)
Definition nothing_kept (scope : AtomicScope) (before : content) (s' : Session db) (e : Error) : Prop :=
  match scope with
  | CallerTransaction => is_Some (transaction_poison (connection s'))
  | _ =>
      scope_content scope (server s') = before ∨ mentions "transaction recovery also failed" e ∨
      (scope = Autocommit ∧ committed_after_all before (server s') e)
  end.

Lemma finish_fails {A} scope before (operation : res Error A) s s' e :
  operation ≠ Panic → stays scope before s →
  (scope = CallerTransaction → is_ok operation = false → is_Some (transaction_poison (connection s))) →
  finish_atomic scope operation s = (Err e, s') → nothing_kept scope before s' e.
Proof.
  intros Hnp [_ Ho] Hpoison Hf. destruct scope as [| |name retain].
  2: { destruct operation as [v|root|]; [done| |done]. injection Hf as <- <-. by apply Hpoison. }
  all: pose proof (finish_atomic_outcome _ operation s s' before (Err e) Ho Hnp Hf) as [(? & _)|Hout]; [done|];
    destruct Hout as [Hout|[Hout|[(? & Hout & Hd)|(? & Hd & Hout)]]]; cbn; try done; auto;
    right; right; (split; [done|]); exists (server s); auto.
Qed.

Lemma on_session_eq {A} (m : tx db A) (s s' : Driver db) r :
  on_session m s = (r, s') → m (session s) = (r, session s') ∧ same_store s s'.
Proof. unfold on_session. destruct (m (session s)) as [r0 s0] eqn:E. intros [= <- <-]. done. Qed.

Lemma try_ok {A} (m : dx db A) (s s' : Driver db) r : try_dx m s = (Ok r, s') → m s = (r, s') ∧ r ≠ Panic.
Proof. unfold try_dx. destruct (m s) as [[x|e|] s1]; intros [= <- <-]; done. Qed.

Lemma stream_items_same (s s' : Driver db) b : same_store s s' → stream_items s' b = stream_items s b.
Proof.
  intros Hs. assert (∀ batch r, (bound_row b batch r s').1 = (bound_row b batch r s).1) as Hrow
    by (intros batch r; by apply (bound_row_reads b batch r s)).
  assert (∀ batch from, batch_items s' b batch from = batch_items s b batch from) as Hbatch
    by (intros batch from; apply list_fmap_ext; intros; apply Hrow).
  assert (∀ reader, reader_items s' b reader = reader_items s b reader) as Hreader.
  { induction reader as [|[batch|e|] reader IH]; [done| |done..]. cbn [reader_items]. by rewrite IH, Hbatch. }
  unfold stream_items. rewrite Hreader. destruct (bs_batch b); [|done]. cbn. by rewrite Hbatch.
Qed.

(** A failed operation of the caller's transaction poisons it. *)
Lemma poison_if (b : bool) (s s' : Driver db) r :
  (if b then poison_batch else mret tt) s = (r, s') →
  r = Ok tt ∧ server (session s') = server (session s) ∧ same_store s s' ∧ (b = true → is_Some (transaction_poison (connection (session s')))).
Proof.
  destruct b; [|by intros [= <- <-]]. unfold poison_batch. intros Hp. apply on_session_eq in Hp as [Hp Hs].
  unfold on_connection in Hp. injection Hp as <- Hsess. rewrite <- Hsess. cbn. split_and!; [done..|]. intros _.
  unfold poison_transaction. destruct (transaction_poison (connection (session s))) eqn:E; cbn; [by rewrite E|done].
Qed.

(** The rows of the stream, in a scope. *)
Lemma rows_stay scope before b qs tail count (s s' : Driver db) r :
  stream_items s b = (Ok <$> qs) ++ tail → ends tail → (∀ group, group ⊆ qs → harmless (batch_script group)) →
  stays scope before (session s) → update_batches (S (S (bound_left b))) b None count s = (r, s') → stays scope before (session s').
Proof.
  intros Hitems Hend Hh Hs.
  destruct (update_batches_groups (S (S (bound_left b))) s b None qs tail Hitems Hend) as (groups & rest & G1 & _ & _ & G4).
  { cbn. pose proof (stream_items_left s b) as Hl. rewrite Hitems, length_app, length_fmap in Hl. lia. }
  rewrite G4 by done. assert (Forall (λ group, harmless (batch_script group)) groups) as Hg.
  { apply Forall_forall. intros group Hin. apply Hh. cbn in G1. rewrite <- G1. intros q Hq. apply elem_of_app. left.
    apply list_elem_of_In, in_concat. exists group. split; by apply list_elem_of_In. }
  pose proof (stays_groups scope before groups count (session s) Hg Hs) as Hrun.
  unfold mbind, dx_bind, on_session, pure_dx. destruct (run_groups groups count (session s)) as [[c|e|] s1]; by intros [= <- <-].
Qed.

(** The end of an attempt that fails. *)
Lemma finish_attempt scope before (operation : res Error (option Z)) (t s' : Driver db) {R} (r root : R) e :
  operation ≠ Panic → stays scope before (session t) →
  (is_caller scope = true → is_ok operation = false → is_Some (transaction_poison (connection (session t)))) →
  (result ← try_dx (on_session (finish_atomic scope operation)); mret (result, r)) t = (Ok (Err e, root), s') →
  nothing_kept scope before (session s') e.
Proof.
  intros Hop Hs Hp. unfold mbind, dx_bind. destruct (try_dx _ t) as [[x|e0|] t3] eqn:E; [|done..].
  intros [= -> _ ->]. apply try_ok in E as [E _]. apply on_session_eq in E as [E _].
  eapply finish_fails; [exact Hop|exact Hs| |exact E]. intros ->. by apply Hp.
Qed.

(** A failed operation in the caller's transaction poisons it. *)
Lemma poison_failed scope before (operation : res Error (option Z)) (t : Driver db) :
  operation ≠ Panic → stays scope before (session t) →
  ∃ t', (match operation with Ok _ => mret tt | _ => if is_caller scope then poison_batch else mret tt end : dx db unit) t = (Ok tt, t') ∧
    stays scope before (session t') ∧
    (is_caller scope = true → is_ok operation = false → is_Some (transaction_poison (connection (session t')))).
Proof.
  intros Hop Hs. destruct operation as [v|e1|]; [by exists t| |done].
  destruct ((if is_caller scope then poison_batch else mret tt) t) as [rp t'] eqn:Ep.
  apply poison_if in Ep as (-> & P1 & _ & P2). exists t'. unfold stays. rewrite P1. split_and!; [done|apply Hs|apply Hs|auto].
Qed.

End all_or_nothing.

(** ** Rows to try it on *)

Definition insert_query : bytes := str "INSERT INTO t VALUES (?)".
Definition insert_template : QueryTemplate :=
  Eval vm_compute in
    match compile_query insert_query with Ok t => t | _ => mkQueryTemplate [] [] [] (Positional 0) end.
Definition insert_schema : list Field := [plain_field "a" DInt32].
Definition insert_batch (values : list Z) : RecordBatch :=
  mkRecordBatch insert_schema [APrimitive DInt32 values None] (length values).

Definition insert_stream (reader : list (res Error RecordBatch)) : BoundQueryStream :=
  mkBoundStream reader insert_schema insert_template None None false None 0 [] false.

Definition literal_query (text : string) : BoundQuery := bound_query_literal (str text) None.

Definition toy_driver (autocommit : bool) : Driver toy :=
  mkDriver (mkSession connection_new (mkToy [str "a"] [str "a"] [] autocommit false) 0 []) (mkPreparedCache 1 ∅ 0) [] [].

Definition insert_rows (values : list Z) : list BoundQuery :=
  (λ v, bound_query_literal (str "INSERT INTO t VALUES (CAST(" ++ fmt_int v ++ str " AS INT))") None) <$> values.

(** Rows in batches, one of them empty. *)
Lemma updates_cover_rows_witness :
  let b := insert_stream [Ok (insert_batch [1; 2]); Ok (insert_batch []); Ok (insert_batch [-3])] in
  ∃ groups, concat groups = insert_rows [1; 2; -3] ∧ Forall group_ok groups ∧
    ∀ count, update_batches (S (S (bound_left b))) b None count (toy_driver false) =
      (count ← on_session (run_groups groups count); pure_dx (Ok count)) (toy_driver false).
Proof.
  intros b. destruct (updates_cover_rows (toy_driver false) b (insert_rows [1; 2; -3]) []) as (groups & rest & G1 & G2 & G3 & G4).
  - vm_compute. reflexivity.
  - exact I.
  - rewrite (G3 eq_refl), app_nil_r in G1. exists groups. split_and!; [exact G1|exact G2|exact G4].
Defined.

(** Statements the server keeps as they are. *)
Lemma toy_parse_other l : toy_parse (str "INSERT INTO t " ++ l) = ToyOther.
Proof.
  unfold toy_parse. rewrite !bool_decide_eq_false_2 by done. unfold strip_prefix. by rewrite !bool_decide_eq_false_2 by done.
Qed.

Lemma toy_parse_opens name : toy_parse (str "SAVEPOINT " ++ name) = ToySavepoint name.
Proof.
  unfold toy_parse. rewrite !bool_decide_eq_false_2 by done. unfold strip_prefix. by rewrite bool_decide_eq_true_2 by done.
Qed.

#[global, program] Instance toy_write_laws : WriteLaws toy (list bytes) := {| harmless q := toy_parse q = ToyOther |}.
Next Obligation.
  intros d q r d' Hq Ha. cbn in *. unfold toy_execute. rewrite Hq. destruct (toy_aborted d); intros [= <- <-]; [done|].
  cbn. injection Ha as ->. done.
Qed.
Next Obligation. by intros d d' [= <-]. Qed.
Next Obligation.
  intros d name x d' _. cbn [server_execute toy_server]. unfold toy_execute. rewrite toy_parse_opens.
  destruct (toy_aborted d); [done|]. intros [= <- <-]. cbn. by rewrite bool_decide_true.
Qed.
Next Obligation. by intros d q r d' [= <- <-]. Qed.
Next Obligation. done. Qed.
Next Obligation. done. Qed.

Lemma toy_no_doubt (d : toy) : ¬ commit_in_doubt d.
Proof.
  intros (e & d' & He & Hs). cbn in He. unfold toy_execute in He. cbn in He. destruct (toy_aborted d); [|done].
  injection He as <- _. by eapply Hs.
Qed.

(** It never loses an answer. *)
Lemma toy_committed before (d : toy) e : committed_after_all before d e → mentions "restoring autocommit failed" e.
Proof. intros (d1 & _ & _ & [Hd|Hm]); [by destruct (toy_no_doubt d1)|done]. Qed.

Lemma insert_harmless group : group ⊆ insert_rows [2] → harmless (batch_script group).
Proof.
  intros Hg. destruct group as [|q group]; [reflexivity|]. assert (q ∈ insert_rows [2]) as Hq by (apply Hg, elem_of_cons; by left).
  apply list_elem_of_singleton in Hq as ->. unfold batch_script. cbn [map concat].
  assert (∃ l, statement_text (bound_query_literal (str "INSERT INTO t VALUES (CAST(2 AS INT))") None) = str "INSERT INTO t " ++ l)
    as [l Hl] by (eexists (_ : bytes); by vm_compute).
  change (str "INSERT INTO t VALUES (CAST(" ++ fmt_int 2 ++ str " AS INT))") with (str "INSERT INTO t VALUES (CAST(2 AS INT))").
  rewrite Hl, <- app_assoc. apply toy_parse_other.
Qed.

