(* ===== verification/Statement.v ===== *)
(** Statements ([crates/adbc-monetdb/src/driver.rs], [MonetdbStatement]): what a
    statement remembers about its query and the parameters bound to it, and the
    operations of the ADBC interface on it.

    The state is the statement and the connection's ([Driver]).  Bulk
    ingestion, which [execute_update] starts when a target table is set
    ([IngestRun]), and the reader over a result ([ReadPath]) are parameters. *)

From stdpp Require Import base list numbers strings gmap.
From S2P Require Import Prelude RustStd Types Calendar ArrowData Errors SqlScan Template PreparedCache Ingest Transactions Prepare ParameterBatch.
Local Open Scope Z_scope.

(** ** State *)

Record PrepareStatus : Type := mkPrepareStatus {
  status_path : string;
  status_diagnostic : option Error;
  negative_cache_hit : bool;
}.

Definition status_prepared : PrepareStatus := mkPrepareStatus "prepared" None false.
Definition status_literal (diagnostic : option Error) (cache_hit : bool) : PrepareStatus :=
  mkPrepareStatus "literal" diagnostic cache_hit.

(** A bound stream: its schema and what its reader will return. *)
Record BoundStream : Type := mkBound { bound_schema : list Field; bound_items : list (res Error RecordBatch) }.

Record MonetdbStatement : Type := mkStatement {
  st_query : option bytes;
  st_target_table : option bytes;
  st_prepare_threshold : Z;
  st_bind_by_name : bool;
  st_bound : option BoundStream;
  st_prepared : bool;
  st_prepared_entry : option nat;
  st_literal_fallback : option LiteralFallback;
  st_deferred_template : option QueryTemplate;
  st_parameter_schema : option (list Field);
  st_result_schema : option (list Field);
  st_prepare_status : option PrepareStatus;
}.

Definition with_bound (st : MonetdbStatement) (bound : option BoundStream) : MonetdbStatement :=
  mkStatement (st_query st) (st_target_table st) (st_prepare_threshold st) (st_bind_by_name st) bound (st_prepared st)
    (st_prepared_entry st) (st_literal_fallback st) (st_deferred_template st) (st_parameter_schema st)
    (st_result_schema st) (st_prepare_status st).
Definition with_status (st : MonetdbStatement) (status : PrepareStatus) : MonetdbStatement :=
  mkStatement (st_query st) (st_target_table st) (st_prepare_threshold st) (st_bind_by_name st) (st_bound st) (st_prepared st)
    (st_prepared_entry st) (st_literal_fallback st) (st_deferred_template st) (st_parameter_schema st)
    (st_result_schema st) (Some status).
Definition with_schemas (st : MonetdbStatement) (parameters result : option (list Field)) : MonetdbStatement :=
  mkStatement (st_query st) (st_target_table st) (st_prepare_threshold st) (st_bind_by_name st) (st_bound st) (st_prepared st)
    (st_prepared_entry st) (st_literal_fallback st) (st_deferred_template st) parameters result (st_prepare_status st).
Definition with_plan (st : MonetdbStatement) (entry : option nat) (fallback : option LiteralFallback)
    (deferred : option QueryTemplate) : MonetdbStatement :=
  mkStatement (st_query st) (st_target_table st) (st_prepare_threshold st) (st_bind_by_name st) (st_bound st) (st_prepared st)
    entry fallback deferred (st_parameter_schema st) (st_result_schema st) (st_prepare_status st).
Definition set_prepared (st : MonetdbStatement) (prepared : bool) : MonetdbStatement :=
  mkStatement (st_query st) (st_target_table st) (st_prepare_threshold st) (st_bind_by_name st) (st_bound st) prepared
    (st_prepared_entry st) (st_literal_fallback st) (st_deferred_template st) (st_parameter_schema st)
    (st_result_schema st) (st_prepare_status st).

Definition clear_prepared (st : MonetdbStatement) : MonetdbStatement :=
  mkStatement (st_query st) (st_target_table st) (st_prepare_threshold st) (st_bind_by_name st) (st_bound st) false
    None None None None None None.

(** [set_sql_query]; the ingest options it removes are the target table here. *)
Definition set_sql_query (st : MonetdbStatement) (query : bytes) : MonetdbStatement :=
  let st := clear_prepared st in
  mkStatement (Some query) None (st_prepare_threshold st) (st_bind_by_name st) (st_bound st) (st_prepared st)
    (st_prepared_entry st) (st_literal_fallback st) (st_deferred_template st) (st_parameter_schema st)
    (st_result_schema st) (st_prepare_status st).

(** ** Operations that need no server *)

Definition bind `{ArrowStream} (st : MonetdbStatement) (batch : RecordBatch) : res Error MonetdbStatement :=
  _ ← validate_record_batch batch;
  Ok (with_bound st (Some (mkBound (batch_schema batch) [Ok batch]))).

Definition bind_stream (st : MonetdbStatement) (stream : BoundStream) : MonetdbStatement := with_bound st (Some stream).

Definition no_query : Error := error "SQL query is not set" InvalidState.
Definition no_parameters : Error := error "no Arrow parameters are bound" InvalidState.

(** The leading items with two rows, an error, or all there are: [rows], and
    what is buffered and what is left. *)
Fixpoint peek_rows (rows : nat) (items : list (res Error RecordBatch))
    : nat * list (res Error RecordBatch) * list (res Error RecordBatch) :=
  if (2 <=? rows)%nat then (rows, [], items)
  else
    match items with
    | [] => (rows, [], [])
    | Ok batch :: items =>
        let '(rows, buffered, remaining) := peek_rows (rows + batch_rows batch) items in
        (rows, Ok batch :: buffered, remaining)
    | failed :: items => (rows, [failed], items)
    end.

Definition bound_batch_exceeds_one_row (st : MonetdbStatement) : res Error (bool * MonetdbStatement) :=
  bound ← ok_or (st_bound st) no_parameters;
  let '(rows, buffered, remaining) := peek_rows 0 (bound_items bound) in
  Ok ((1 <? rows)%nat, with_bound st (Some (mkBound (bound_schema bound) (buffered ++ remaining)))).

(** Names of the columns and of the parameters, as sets. *)
Definition names_match (fields : list Field) (names : list bytes) : bool :=
  let field_names : gset bytes := list_to_set (field_name <$> fields) in
  (length fields =? length names)%nat && (size field_names =? length fields)%nat
  && forallb (λ name, bool_decide (name ∈ field_names)) names.

Definition null_fields (names : list bytes) : list Field := (λ name, mkField name DNull true ∅) <$> names.

Definition index_names (count : nat) : list bytes := (λ i, fmt_int (Z.of_nat i)) <$> seq 0 count.

(** The stream over bound parameters, when they fit the template. *)
Definition bound_queries (st : MonetdbStatement) (query : bytes) (bound : BoundStream) (template : QueryTemplate)
    : res Error BoundQueryStream :=
  let layout := template_layout template in
  let fields := bound_schema bound in
  if negb (Bool.eqb (layout_is_named layout) (st_bind_by_name st)) then
    Err (error (if layout_is_named layout then "named parameters require adbc.monetdb.bind_by_name"
                else "positional parameters cannot be bound by name") InvalidArguments)
  else
    _ ← match layout with
        | Positional expected =>
            if negb (length fields =? expected)%nat then
              Err (mkError (str "query has " ++ fmt_int (Z.of_nat expected)
                            ++ str " positional parameters but the bound stream has " ++ fmt_int (len fields)
                            ++ str " columns") InvalidArguments)
            else Ok tt
        | Named names =>
            if names_match fields names then Ok tt
            else Err (error "bound parameter names do not match the query" InvalidArguments)
        end;
    let plan :=
      option_map (λ entry, mkPreparedPlan (normalize_prepared_query query) (layout_count layout) entry)
        (st_prepared_entry st) in
    Ok (mkBoundStream (bound_items bound) fields template plan (st_literal_fallback st) (st_bind_by_name st) None 0 [] false).

(** [PrepareStatus::to_json]. *)
Definition status_json (status : PrepareStatus) : bytes :=
  [123] ++ quoted_key "path" ++ [34] ++ str (status_path status) ++ [34] ++ [44]
  ++ quoted_key "original_diagnostic"
  ++ match status_diagnostic status with Some diagnostic => diagnostic_json diagnostic | None => str "null" end
  ++ [44] ++ quoted_key "negative_cache_hit" ++ str (if negative_cache_hit status then "true" else "false") ++ [125].

(** ** Operations on a connection *)

Record Exec (db : Type) : Type := mkExec { statement : MonetdbStatement; driver : Driver db }.
Arguments mkExec {db}. Arguments statement {db}. Arguments driver {db}.

Definition sx (db A : Type) : Type := Exec db → res Error A * Exec db.

#[global] Instance sx_ret db : MRet (sx db) := λ A a s, (Ok a, s).
#[global] Instance sx_bind db : MBind (sx db) := λ A B f m s,
  match m s with
  | (Ok a, s) => f a s
  | (Err e, s) => (Err e, s)
  | (Panic, s) => (Panic, s)
  end.

Definition pure_sx {db A} (r : res Error A) : sx db A := λ s, (r, s).
Definition try_sx {db A} (m : sx db A) : sx db (res Error A) := λ s,
  match m s with
  | (Panic, s) => (Panic, s)
  | (r, s) => (Ok r, s)
  end.
Definition on_driver {db A} (m : dx db A) : sx db A := λ s,
  let '(r, d) := m (driver s) in (r, mkExec (statement s) d).
Definition get_statement {db} : sx db MonetdbStatement := λ s, (Ok (statement s), s).
Definition on_statement {db} (f : MonetdbStatement → MonetdbStatement) : sx db unit := λ s,
  (Ok tt, mkExec (f (statement s)) (driver s)).

(** [Arc::new(Mutex::new(entry))]: a slot of its own. *)
Definition new_slot {db} (entry : PreparedEntry) : dx db nat := λ s,
  (Ok (length (slots s)), mkDriver (session s) (prepared_cache s) (cells s) (slots s ++ [entry])).

Section statements.
Context {db row : Type} `{!Server db, !Rows db row, MapiCodes, CursorDisplay, Unicode, ArrowStream, SqlFormat, Chrono}.
Context (decode_error_text : DecodeError → bytes) (pid : Z).

Definition get_query : sx db bytes :=
  st ← get_statement; pure_sx (ok_or (st_query st) no_query).

(** [prepare_outcome_cached] with the server's conversation. *)
Definition prepare_outcome (query : bytes) (template : QueryTemplate) (threshold : Z) (request : PrepareRequest)
    : dx db (PrepareOutcome * bool) :=
  let query := normalize_prepared_query query in
  decision ← with_cache (λ c, prepare_decision c query template threshold request);
  match decision with
  | Outcome outcome cache_hit => mret (outcome, cache_hit)
  | Prepare =>
      prepared ← try_dx (on_session (prepare_query (row := row) decode_error_text pid query (layout_count (template_layout template))));
      match prepared with
      | Ok metadata =>
          candidate ← prepared_entry_new metadata query;
          entry ← with_cache (λ c, cache_insert c query candidate);
          mret (Prepared entry, false)
      | Panic => pure_dx Panic
      | Err diagnostic =>
          if transient_prepare_diagnostic diagnostic then pure_dx (Err diagnostic)
          else if permits_literal_parameter_fallback diagnostic then
            outcome ← with_cache (λ c, insert_literal c query (mkLiteralFallback template diagnostic));
            mret (outcome, false)
          else pure_dx (Err diagnostic)
      end
  end.

(** [lock_connection(..)?.try_deallocate(id)]. *)
Definition try_deallocate (id : Z) : tx db unit := λ s,
  (Ok tt, mkSession (connection s) (server_try_deallocate (server s) id) (savepoint_id s) (sent s)).
Definition deallocate_now (id : Z) : dx db unit := on_session (_ ← lock_connection; try_deallocate id).

(** The schema of a query rendered with NULLs in the place of its parameters. *)
Definition rendered_schema (template : QueryTemplate) : dx db (list Field) :=
  rendered ← pure_dx (render_nulls template);
  metadata ← on_session (prepare_query_allowing_any (row := row) decode_error_text pid rendered 0);
  _ ← deallocate_now (metadata_id metadata);
  mret (metadata_result metadata).

(** The entry of the statement's slot, prepared anew when it is gone. *)
Definition refresh_entry (slot : nat) : sx db PreparedEntry :=
  query ← get_query;
  layout ← pure_sx (template_layout <$> compile_query query);
  entry ← on_driver (prepare_cached (row := row) decode_error_text pid query (layout_count layout));
  _ ← on_driver (set_slot slot entry);
  mret entry.

(** The arm of [Literal] in [execute_schema]. *)
Definition fallback_schema (fallback : LiteralFallback) : dx db (list Field) :=
  rendered ← pure_dx (render_nulls (fallback_template fallback));
  metadata ← try_dx (on_session (prepare_query_allowing_any (row := row) decode_error_text pid rendered 0));
  match metadata with
  | Ok metadata => _ ← deallocate_now (metadata_id metadata); mret (metadata_result metadata)
  | Err _ => pure_dx (Err (fallback_diagnostic fallback))
  | Panic => pure_dx Panic
  end.

Definition execute_schema : sx db (list Field) :=
  st ← get_statement;
  match st_prepared_entry st, st_result_schema st with
  | Some slot, _ =>
      entry ← refresh_entry slot;
      _ ← on_statement (λ st, with_status (with_schemas st (Some (entry_parameters entry)) (Some (entry_result entry)))
                                status_prepared);
      mret (entry_result entry)
  | None, Some schema => mret schema
  | None, None =>
      query ← get_query;
      template ← pure_sx (compile_query query);
      let layout := template_layout template in
      if layout_is_named layout then
        _ ← on_statement (λ st, with_status st (status_literal None false));
        on_driver (rendered_schema template)
      else if (layout_count layout =? 0)%nat then
        _ ← on_statement (λ st, with_status st status_prepared);
        metadata ← on_driver (on_session (prepare_query (row := row) decode_error_text pid query 0));
        _ ← on_driver (deallocate_now (metadata_id metadata));
        mret (metadata_result metadata)
      else
        '(outcome, cache_hit) ← on_driver (prepare_outcome query template (st_prepare_threshold st) RForce);
        match outcome with
        | Prepared entry => _ ← on_statement (λ st, with_status st status_prepared); mret (entry_result entry)
        | Literal fallback =>
            _ ← on_statement (λ st, with_plan (with_status st (status_literal (Some (fallback_diagnostic fallback)) cache_hit))
                                      (st_prepared_entry st) (Some fallback) (st_deferred_template st));
            on_driver (fallback_schema fallback)
        | Deferred _ _ => pure_sx Panic
        end
  end.

Definition get_parameter_schema : sx db (list Field) :=
  st ← get_statement;
  match st_prepared_entry st, st_deferred_template st with
  | Some slot, _ => entry ← refresh_entry slot; mret (entry_parameters entry)
  | None, Some template =>
      query ← get_query;
      '(outcome, _) ← on_driver (prepare_outcome query template (st_prepare_threshold st) RForce);
      match outcome with
      | Prepared entry => mret (entry_parameters entry)
      | Literal _ => mret (null_fields (index_names (layout_count (template_layout template))))
      | Deferred _ _ => pure_sx Panic
      end
  | None, None =>
      match st_parameter_schema st, st_bound st with
      | Some schema, _ => mret schema
      | None, Some bound => mret (bound_schema bound)
      | None, None =>
          query ← get_query;
          layout ← pure_sx (template_layout <$> compile_query query);
          mret (null_fields (layout_field_names layout))
      end
  end.

(** What a prepared or declared outcome means for the statement. *)
Definition adopt_prepared (entry : PreparedEntry) (fallback : option LiteralFallback) (deferred : option QueryTemplate)
    : sx db unit :=
  slot ← on_driver (new_slot entry);
  on_statement (λ st, with_status (with_plan (with_schemas st (Some (entry_parameters entry)) (Some (entry_result entry)))
                                     (Some slot) fallback deferred) status_prepared).

Definition prepare : sx db unit :=
  st ← get_statement;
  if st_prepared st then mret tt
  else
    query ← get_query;
    is_prepare ← pure_sx (is_prepare_statement query);
    if (is_prepare : bool) then
      pure_sx (Err (error "Statement::prepare() accepts the SQL to prepare, not a PREPARE statement" InvalidArguments))
    else
      template ← pure_sx (compile_query query);
      let layout := template_layout template in
      let parameter_count := layout_count layout in
      if (parameter_count =? 0)%nat then
        on_statement (λ st, set_prepared (with_status (with_schemas st (Some []) (st_result_schema st)) (status_literal None false)) true)
      else
        match layout with
        | Named names =>
            _ ← on_statement (λ st, with_status (with_schemas st (Some (null_fields names)) (st_result_schema st)) (status_literal None false));
            schema ← execute_schema;
            on_statement (λ st, set_prepared (with_schemas st (st_parameter_schema st) (Some schema)) true)
        | Positional _ =>
            '(outcome, cache_hit) ← on_driver (prepare_outcome query template (st_prepare_threshold st) RDeclare);
            _ ← match outcome with
                | Prepared entry => adopt_prepared entry (st_literal_fallback st) (st_deferred_template st)
                | Literal fallback =>
                    on_statement (λ st,
                      with_plan (with_status (with_schemas st (Some (null_fields (index_names parameter_count))) (st_result_schema st))
                                   (status_literal (Some (fallback_diagnostic fallback)) cache_hit))
                        (st_prepared_entry st) (Some fallback) (st_deferred_template st))
                | Deferred template _ =>
                    on_statement (λ st,
                      with_plan (with_status (with_schemas st (Some (null_fields (index_names parameter_count))) (st_result_schema st))
                                   (status_literal None false))
                        (st_prepared_entry st) (st_literal_fallback st) (Some template))
                end;
            on_statement (λ st, set_prepared st true)
        end.

Definition refresh_prepared_literal_fallback : sx db unit :=
  st ← get_statement;
  match st_prepared_entry st with
  | None => mret tt
  | Some slot =>
      entry ← on_driver (get_slot slot);
      c ← on_driver (entry_cells entry);
      match literal_fallback c with
      | Some fallback =>
          on_statement (λ st, with_plan (with_status st (status_literal (Some (fallback_diagnostic fallback)) false))
                                (st_prepared_entry st) (Some fallback) (st_deferred_template st))
      | None => on_statement (λ st, with_status st (if verified c then status_prepared else status_literal None false))
      end
  end.

Definition resolve_deferred_for_execution (force : bool) : sx db unit :=
  st ← get_statement;
  match st_deferred_template st with
  | None => mret tt
  | Some template =>
      query ← get_query;
      let parameter_count := layout_count (template_layout template) in
      '(outcome, cache_hit) ← on_driver (prepare_outcome query template (st_prepare_threshold st)
                                           (if force then RForce else RExecute));
      match outcome with
      | Prepared entry => adopt_prepared entry None None
      | Literal fallback =>
          on_statement (λ st,
            with_plan (with_status (with_schemas st (Some (null_fields (index_names parameter_count))) None)
                         (status_literal (Some (fallback_diagnostic fallback)) cache_hit))
              None (Some fallback) None)
      | Deferred template _ =>
          on_statement (λ st, with_plan (with_status st (status_literal None false))
                                (st_prepared_entry st) (st_literal_fallback st) (Some template))
      end
  end.

(** [bound_batch_exceeds_one_row] on the statement. *)
Definition peek_bound : sx db bool :=
  st ← get_statement;
  '(many, st) ← pure_sx (bound_batch_exceeds_one_row st);
  _ ← on_statement (λ _, st);
  mret many.

Definition take_bound_queries : sx db BoundQueryStream :=
  query ← get_query;
  st ← get_statement;
  _ ← on_statement (λ st, with_bound st None);
  bound ← pure_sx (ok_or (st_bound st) no_parameters);
  template ←
    match option_map fallback_template (st_literal_fallback st), st_deferred_template st with
    | Some template, _ => mret template
    | None, Some template => mret template
    | None, None => pure_sx (compile_query query)
    end;
  pure_sx (bound_queries st query bound template).

(** What [execute_update] does before it runs the bound rows. *)
Definition bind_for_update : sx db BoundQueryStream :=
  st ← get_statement;
  _ ← (if st_prepared st then mret tt else prepare);
  many ← peek_bound;
  _ ← resolve_deferred_for_execution many;
  take_bound_queries.

(** [invalidate_prepared_cache] and [clear_prepared_cache]. *)
Definition clear_cache : dx db unit := with_cache (λ c, Ok (tt, cache_clear c)).
Definition invalidate_prepared_cache : dx db unit :=
  _ ← on_session (on_connection advance_generation); clear_cache.

(** [TransactionWriteGuard] around an operation. *)
Definition guarding {A} (operation : bool → sx db A) : sx db A :=
  st ← get_statement;
  guard ← on_driver (on_session (λ s,
    match write_guard_new (connection s) (st_query st) with
    | Ok (guard, c) => (Ok guard, mkSession c (server s) (savepoint_id s) (sent s))
    | Err e => (Err e, s)
    | Panic => (Panic, s)
    end));
  result ← try_sx (operation (prior_writes guard));
  _ ← on_driver (on_session (on_connection (write_guard_drop guard)));
  pure_sx result.

(** [ingest] of a bound stream into the target table. *)
Context (ingest : bool → sx db (option Z)).

Definition statement_execute_update : sx db (option Z) := guarding (λ prior_writes,
  st ← get_statement;
  match st_bound st, st_target_table st with
  | Some _, Some _ => ingest prior_writes
  | Some _, None =>
      query ← get_query;
      invalidates ← pure_sx (query_invalidates_prepared_cache query);
      queries ← bind_for_update;
      result ← try_sx (on_driver (execute_updates_atomic (row := row) decode_error_text pid queries prior_writes));
      _ ← (if (invalidates : bool) then on_driver clear_cache else mret tt);
      pure_sx result
  | None, _ =>
      query ← get_query;
      invalidates ← pure_sx (query_invalidates_prepared_cache query);
      _ ← (if (invalidates : bool) then on_driver invalidate_prepared_cache else mret tt);
      result ← try_sx (on_driver (on_session (execute_update_script query)));
      _ ← (if invalidates && is_ok result then on_driver invalidate_prepared_cache else mret tt);
      pure_sx result
  end).

(** ** Executing for a result *)

(** A reader over the rows of a result ([statement_reader]), with its schema;
    and what opening one on a reply gives, the affected rows with it. *)
Context {reader : Type} (reader_schema : reader → list Field) (open_reply : Reply → res Error (reader * option Z)).

(** The rows of a result: none, those of one query, or those of the queries of
    several parameter rows, of which the first is open. *)
Inductive StatementRows : Type :=
| EmptyRows (schema : list Field)
| QueryRows (rows : reader)
| ParameterRows (queries : BoundQueryStream) (current : reader) (schema : list Field).

Record StatementResult : Type := mkResult { result_rows : StatementRows; rows_affected : option Z }.

Definition rows_schema (rows : StatementRows) : list Field :=
  match rows with
  | EmptyRows schema => schema
  | QueryRows rows => reader_schema rows
  | ParameterRows _ _ schema => schema
  end.

(** The prepared path has no row count for a query with rows. *)
Definition without_count (result : reader * option Z) : StatementResult :=
  mkResult (QueryRows result.1) (match reader_schema result.1 with [] => result.2 | _ => None end).

Definition validate_unbound_query (query : bytes) : res Error unit :=
  prepare ← is_prepare_statement query;
  if (prepare : bool) then
    Err (error "execution does not accept a PREPARE statement; call Statement::prepare() instead" InvalidArguments)
  else
    layout ← template_layout <$> compile_query query;
    if negb (layout_count layout =? 0)%nat then Err (error "parameters are not bound" InvalidState) else Ok tt.

Definition prepare_literal_execution_schema (query : BoundQuery) (fallback : LiteralFallback) : dx db (list Field) :=
  metadata ← try_dx (on_session (prepare_query_allowing_any (row := row) decode_error_text pid (bound_sql query) 0));
  metadata ← pure_dx (map_err (λ value, attach_prepare_diagnostic value (fallback_diagnostic fallback)) metadata);
  _ ← deallocate_now (metadata_id metadata);
  mret (metadata_result metadata).

Definition bound_query_reader_with_retry (query : BoundQuery) : dx db reader :=
  query ← current_bound_query (row := row) decode_error_text pid query;
  unverified ← match bound_prepared query with
               | Some invocation => c ← entry_cells (inv_entry invocation); mret (negb (verified c))
               | None => mret false
               end;
  result ← try_dx (if (unverified : bool) then execute_unverified_prepared_result pid open_reply query
                   else on_session (query_result open_reply (bound_sql query)));
  match result with
  | Err value =>
      if bool_decide (is_Some (bound_prepared query)) && prepared_statement_missing value then
        _ ← on_session lock_connection;
        autocommit ← on_session get_autocommit;
        if negb autocommit then pure_dx (Err value)
        else
          retry ← retry_bound_query (row := row) decode_error_text pid query;
          result ← on_session (query_result open_reply (bound_sql retry));
          mret result.1
      else pure_dx (with_bound_query_diagnostic (Err value) query)
  | result => pure_dx (with_bound_query_diagnostic (fst <$> result) query)
  end.

Definition parameter_query_reader (queries : BoundQueryStream) : dx db StatementRows :=
  '(first, queries) ← bound_next queries;
  first ← pure_dx (ok_or first (error "no parameter rows to execute" InvalidArguments));
  current ← bound_query_reader_with_retry first;
  mret (ParameterRows queries current (reader_schema current)).

Definition set_result_schema (schema : list Field) : sx db unit :=
  on_statement (λ st, with_schemas st (st_parameter_schema st) (Some schema)).

Definition updates (queries : BoundQueryStream) (prior_writes : bool) : sx db (option Z) :=
  on_driver (execute_updates_atomic (row := row) decode_error_text pid queries prior_writes).

(** No parameter rows: the schema alone. *)
Definition execute_empty : sx db StatementResult :=
  st ← get_statement;
  schema ← match st_result_schema st with
           | Some schema => mret schema
           | None => schema ← execute_schema; _ ← set_result_schema schema; mret schema
           end;
  mret (mkResult (EmptyRows schema) (match schema with [] => Some 0 | _ => None end)).

(** A statement without a result: a single row may be the first execution of a
    prepared statement, anything else is an update. *)
Definition execute_without_result (queries : BoundQueryStream) (prior_writes : bool) : sx db StatementResult :=
  let update queries := rows ← updates queries prior_writes; mret (mkResult (EmptyRows []) rows) in
  '(single, queries) ← on_driver (take_if_single queries);
  match single with
  | None => update queries
  | Some query =>
      query ← on_driver (current_bound_query (row := row) decode_error_text pid query);
      unverified ← match bound_prepared query with
                   | Some invocation => c ← on_driver (entry_cells (inv_entry invocation)); mret (negb (verified c))
                   | None => mret false
                   end;
      if (unverified : bool) then
        result ← on_driver (execute_unverified_prepared_result pid open_reply query);
        let result := without_count result in
        _ ← set_result_schema (rows_schema (result_rows result));
        _ ← refresh_prepared_literal_fallback;
        mret result
      else update (set_pending queries (query :: bs_pending queries))
  end.

(** Several rows, or a result schema that is not known yet. *)
Definition execute_rows_of (queries : BoundQueryStream) (prior_writes : bool) : sx db StatementResult :=
  st ← get_statement;
  schema ←
    match st_result_schema st with
    | Some schema => mret (Some schema)
    | None =>
        schema ← match st_literal_fallback st with
                 | Some fallback =>
                     pending ← pure_sx (ok_or (head (bs_pending queries)) (error "no parameter row is pending" Internal));
                     on_driver (prepare_literal_execution_schema pending fallback)
                 | None => execute_schema
                 end;
        match schema with
        | [] => mret None
        | _ => _ ← set_result_schema schema; mret (Some schema)
        end
    end;
  match schema with
  | None =>
      rows ← updates queries prior_writes;
      _ ← set_result_schema [];
      mret (mkResult (EmptyRows []) rows)
  | Some _ =>
      rows ← on_driver (parameter_query_reader queries);
      _ ← refresh_prepared_literal_fallback;
      mret (mkResult rows None)
  end.

Definition execute_bound (prior_writes : bool) : sx db StatementResult :=
  st ← get_statement;
  _ ← (if st_prepared st then mret tt else prepare);
  _ ← resolve_deferred_for_execution false;
  queries ← take_bound_queries;
  '(empty, queries) ← on_driver (bound_is_empty queries);
  if (empty : bool) then execute_empty
  else
    st ← get_statement;
    match st_result_schema st with
    | Some [] => execute_without_result queries prior_writes
    | Some _ => execute_rows_of queries prior_writes
    | None =>
        if bool_decide (is_Some (st_literal_fallback st)) || bool_decide (is_Some (st_deferred_template st)) then
          '(single, queries) ← on_driver (take_if_single queries);
          match single with
          | None => execute_rows_of queries prior_writes
          | Some query =>
              result ← on_driver (try_dx (on_session (query_result open_reply (bound_sql query))));
              result ← pure_sx (with_bound_query_diagnostic result query);
              let result := without_count result in
              _ ← set_result_schema (rows_schema (result_rows result));
              mret result
          end
        else execute_rows_of queries prior_writes
    end.

(** A query without bound rows. *)
Definition execute_unbound : sx db StatementResult :=
  query ← get_query;
  _ ← pure_sx (validate_unbound_query query);
  invalidates ← pure_sx (query_invalidates_prepared_cache query);
  _ ← (if (invalidates : bool) then on_driver invalidate_prepared_cache else mret tt);
  result ← try_sx (on_driver (on_session (query_result open_reply query)));
  _ ← (if invalidates && is_ok result then on_driver invalidate_prepared_cache else mret tt);
  result ← pure_sx result;
  mret (mkResult (QueryRows result.1) result.2).

(** [execute_with_rows_affected]. *)
Definition statement_execute : sx db StatementResult := guarding (λ prior_writes,
  st ← get_statement;
  match st_bound st with
  | Some _ =>
      if bool_decide (is_Some (st_target_table st)) then
        pure_sx (Err (error "bulk ingestion requires ExecuteUpdate" InvalidState))
      else
        query ← get_query;
        invalidates ← pure_sx (query_invalidates_prepared_cache query);
        result ← try_sx (execute_bound prior_writes);
        _ ← (if (invalidates : bool) then on_driver clear_cache else mret tt);
        pure_sx result
  | None => execute_unbound
  end).
End statements.
