(* ===== verification/StatementProofs.v ===== *)
(** What a statement does with the parameters bound to it: looking ahead loses
    none, forced preparation decides, and every row reaches the execution. *)

From stdpp Require Import base list numbers strings gmap.
From S2P Require Import Prelude RustStd Types Calendar ArrowData Errors SqlScan Template TemplateProofs PreparedCache Ingest StreamProofs Transactions TransactionsProofs Prepare PrepareProofs ParameterBatch ParameterBatchProofs Statement.
Local Open Scope Z_scope.

(** ** Looking ahead *)

(** The rows before the first error. *)
Fixpoint leading_rows (items : list (res Error RecordBatch)) : nat :=
  match items with
  | Ok batch :: items => batch_rows batch + leading_rows items
  | _ => 0
  end.

Lemma peek_rows_keeps rows items n buffered remaining :
  peek_rows rows items = (n, buffered, remaining) →
  buffered ++ remaining = items ∧ (1 <? n)%nat = (1 <? rows + leading_rows items)%nat.
Proof.
  revert rows n buffered remaining. induction items as [|[batch|e|] items IH]; intros rows n buffered remaining; cbn [peek_rows leading_rows].
  all: destruct (2 <=? rows)%nat eqn:Hr; [apply Nat.leb_le in Hr; intros [= <- <- <-]; split; [done|] |apply Nat.leb_gt in Hr].
  all: try (rewrite !(proj2 (Nat.ltb_lt _ _)) by lia; done).
  all: try (intros [= <- <- <-]; by rewrite Nat.add_0_r).
  destruct (peek_rows (rows + batch_rows batch) items) as [[n' b'] r'] eqn:E. intros [= <- <- <-].
  destruct (IH _ _ _ _ E) as [<- Hn]. split; [done|]. by rewrite Hn, Nat.add_assoc.
Qed.

Section statements.
Context {db row : Type} `{!Server db, !Rows db row, MapiCodes, CursorDisplay, Unicode, ArrowStream, SqlFormat, Chrono}.
Context (decode_error_text : DecodeError → bytes) (pid : Z).

(** ** Forced preparation *)

Lemma decision_forced c query template threshold d c' t n h :
  prepare_decision c query template threshold RForce = Ok (d, c') → d ≠ Outcome (Deferred t n) h.
Proof.
  unfold prepare_decision. destruct (next_use c) as [used c1].
  destruct (entries c1 !! _) as [[[entry|fallback|t' n'] u]|]; cbn; by intros [= <- <-].
Qed.

Lemma insert_literal_decides c query candidate o c' t n :
  insert_literal c query candidate = Ok (o, c') → o ≠ Deferred t n.
Proof.
  unfold insert_literal. destruct (get_outcome c _) as [existing c1].
  assert (∀ o, ('(used, c2) ← Ok (next_use c1); c3 ← insert_outcome c2 (normalize_prepared_query query) (Literal candidate) used;
    Ok (Literal candidate, c3)) = (Ok (o, c') : res Error _) → o ≠ Deferred t n) as Hnew.
  { intros o'. cbn. destruct (next_use c1) as [used c2]. destruct (insert_outcome _ _ _ _); [|done..]. by intros [= <- _]. }
  destruct existing as [[entry|fallback|t' n']|]; [by intros [= <- <-]|by intros [= <- <-]|apply Hnew..].
Qed.

(** Asked to prepare, it never leaves the query deferred. *)
Lemma forced_outcome query template threshold (s s' : Driver db) o h t n :
  prepare_outcome (row := row) decode_error_text pid query template threshold RForce s = (Ok (o, h), s') → o ≠ Deferred t n.
Proof.
  unfold prepare_outcome. unfold mbind at 1, dx_bind at 1, with_cache at 1.
  destruct (prepare_decision _ _ _ _ _) as [[d c]|e|] eqn:Ed; [|done..].
  destruct d as [o' h'|]; [intros [= <- <- <-]; intros ->; by eapply decision_forced|].
  unfold mbind at 1, dx_bind at 1. destruct (try_dx _ _) as [[prepared|e|] s1]; [|done..].
  destruct prepared as [metadata|diagnostic|]; [| |done].
  - unfold mbind, dx_bind. destruct (prepared_entry_new _ _ s1) as [[candidate|e|] s2]; [|done..].
    destruct (with_cache _ s2) as [[entry|e|] s3]; [|done..]. by intros [= <- _ _].
  - destruct (transient_prepare_diagnostic diagnostic); [done|]. destruct (permits_literal_parameter_fallback diagnostic); [|done].
    unfold mbind, dx_bind, with_cache. destruct (insert_literal _ _ _) as [[outcome c2]|e|] eqn:Ei; [|done..].
    intros [= <- _ _]. by eapply insert_literal_decides.
Qed.

(** ** The bound stream *)

(** An operation that leaves the bound stream alone. *)
Definition keeps_bound {A} (m : sx db A) : Prop := ∀ s, st_bound (statement (m s).2) = st_bound (statement s).

Lemma keeps_bound_bind {A B} (m : sx db A) (f : A → sx db B) :
  keeps_bound m → (∀ a, keeps_bound (f a)) → keeps_bound (m ≫= f).
Proof.
  intros Hm Hf s. unfold mbind, sx_bind. specialize (Hm s). destruct (m s) as [[a|e|] s1]; cbn in *; [by rewrite (Hf a s1)|done..].
Qed.
Lemma keeps_bound_ret {A} (a : A) : keeps_bound (mret a).
Proof. done. Qed.
Lemma keeps_bound_pure {A} (r : res Error A) : keeps_bound (pure_sx r).
Proof. done. Qed.
Lemma keeps_bound_get : keeps_bound get_statement.
Proof. done. Qed.
Lemma keeps_bound_driver {A} (m : dx db A) : keeps_bound (on_driver m).
Proof. intros s. unfold on_driver. by destruct (m (driver s)). Qed.
Lemma keeps_bound_statement f : (∀ st, st_bound (f st) = st_bound st) → keeps_bound (on_statement f).
Proof. intros Hf s. apply Hf. Qed.

(** Walks an operation step by step. *)
Ltac keeping :=
  repeat first [apply keeps_bound_bind; [|intros ?] | apply keeps_bound_ret | apply keeps_bound_pure | apply keeps_bound_get
               | apply keeps_bound_driver | apply keeps_bound_statement; intros ?; reflexivity | progress cbn zeta | progress case_match].

Lemma execute_schema_keeps : keeps_bound (execute_schema (row := row) decode_error_text pid).
Proof. unfold execute_schema, refresh_entry, get_query. keeping. Qed.

Lemma prepare_keeps : keeps_bound (prepare (row := row) decode_error_text pid).
Proof. unfold prepare, get_query, adopt_prepared. repeat first [apply execute_schema_keeps | progress keeping]. Qed.

Lemma resolve_keeps force : keeps_bound (resolve_deferred_for_execution (row := row) decode_error_text pid force).
Proof. unfold resolve_deferred_for_execution, get_query, adopt_prepared. keeping. Qed.

(** A batch of several rows decides: prepared, or literal for good. *)
Lemma resolve_forced (s s' : Exec db) :
  resolve_deferred_for_execution (row := row) decode_error_text pid true s = (Ok tt, s') →
  st_deferred_template (statement s') = None.
Proof.
  unfold resolve_deferred_for_execution. unfold mbind at 1, sx_bind at 1. cbn [get_statement].
  destruct (st_deferred_template (statement s)) as [template|] eqn:Ht; [|by intros [= <-]].
  unfold mbind at 1, sx_bind at 1. destruct (get_query s) as [[query|e|] s1]; [|done..].
  unfold mbind at 1, sx_bind at 1, on_driver at 1. destruct (prepare_outcome _ _ _ _ _ _ (driver s1)) as [[[o h]|e|] d] eqn:Eo; [|done..].
  destruct o as [entry|fallback|t n]; [| |by destruct (forced_outcome _ _ _ _ _ _ _ t n Eo)].
  - unfold adopt_prepared, mbind, sx_bind, on_driver, new_slot, on_statement. by intros [= <-].
  - unfold on_statement. by intros [= <-].
Qed.

Lemma peek_bound_ok (s s' : Exec db) many bound :
  st_bound (statement s) = Some bound → peek_bound s = (Ok many, s') →
  st_bound (statement s') = Some bound ∧ many = (1 <? leading_rows (bound_items bound))%nat.
Proof.
  intros Hb. destruct (peek_rows 0 (bound_items bound)) as [[n buffered] remaining] eqn:E.
  assert (bound_batch_exceeds_one_row (statement s) =
    Ok ((1 <? n)%nat, with_bound (statement s) (Some (mkBound (bound_schema bound) (buffered ++ remaining))))) as Hpeek
    by (unfold bound_batch_exceeds_one_row; rewrite Hb; cbn [ok_or mbind res_bind]; by rewrite E).
  apply peek_rows_keeps in E as [E1 E2]. unfold peek_bound, mbind, sx_bind, get_statement, pure_sx, on_statement. rewrite Hpeek.
  intros [= <- <-]. cbn. rewrite E1. split; [by destruct bound|exact E2].
Qed.

(** The stream taken is the bound one, from its beginning. *)
Lemma take_bound_ok (s s' : Exec db) queries bound :
  st_bound (statement s) = Some bound → take_bound_queries s = (Ok queries, s') →
  bs_reader queries = bound_items bound ∧ bs_schema queries = bound_schema bound ∧ bs_batch queries = None ∧
  bs_next_row queries = 0%nat ∧ bs_pending queries = [] ∧ bs_finished queries = false ∧
  st_bound (statement s') = None ∧ st_deferred_template (statement s') = st_deferred_template (statement s).
Proof.
  intros Hb. unfold take_bound_queries, get_query, mbind, sx_bind, get_statement, pure_sx, on_statement.
  destruct (st_query (statement s)) as [query|]; cbn [ok_or]; [|done]. rewrite Hb. cbn [ok_or].
  set (template := match option_map _ _ with Some _ => _ | None => _ end).
  destruct (template _) as [[t|e|] s1] eqn:Et; [|done..].
  assert (s1 = mkExec (with_bound (statement s) None) (driver s)) as ->
    by (unfold template in Et; repeat case_match; by injection Et as _ <-).
  destruct (bound_queries _ _ _ _) as [q|e|] eqn:Eq; [|done..]. intros [= <- <-]. revert Eq. unfold bound_queries.
  destruct (negb _); [done|]. destruct (match template_layout t with Positional _ => _ | Named _ => _ end) as [[]|e|]; [|done..].
  cbn [mbind res_bind]. by intros [= <-].
Qed.

(** Every bound row reaches the execution.  Whatever path an execution of an
    update takes, through a first preparation, a decision deferred by the
    threshold, a prepared statement or literals, the stream it runs is the bound
    one from its first row: looking ahead at the leading batches has lost none.
    The statement keeps no second copy to run again, and a stream whose leading
    batches have more than one row is never left with the decision deferred. *)
Theorem bound_rows_taken (s s' : Exec db) bound queries :
  st_bound (statement s) = Some bound → bind_for_update (row := row) decode_error_text pid s = (Ok queries, s') →
  bs_reader queries = bound_items bound ∧ bs_schema queries = bound_schema bound ∧ bs_batch queries = None ∧
  bs_next_row queries = 0%nat ∧ bs_pending queries = [] ∧ bs_finished queries = false ∧
  st_bound (statement s') = None ∧
  ((1 < leading_rows (bound_items bound))%nat → st_deferred_template (statement s') = None).
Proof.
  intros Hb. unfold bind_for_update, mbind, sx_bind, get_statement.
  pose proof (prepare_keeps s) as Hp.
  assert (∃ r s1, (if st_prepared (statement s) then mret () else prepare (row := row) decode_error_text pid) s = (r, s1) ∧
    st_bound (statement s1) = Some bound) as (r & s1 & -> & Hb1).
  { destruct (st_prepared (statement s)); [by exists (Ok tt), s|]. destruct (prepare _ _ s) as [r s1]. exists r, s1. by cbn in Hp; rewrite <- Hp in Hb. }
  destruct r as [[]|e|]; [|done..]. destruct (peek_bound s1) as [[many|e|] s2] eqn:Epk; [|done..].
  destruct (peek_bound_ok _ _ _ _ Hb1 Epk) as [Hb2 Hmany]. pose proof (resolve_keeps many s2) as Hr.
  destruct (resolve_deferred_for_execution decode_error_text pid many s2) as [[[]|e|] s3] eqn:Er; [|done..]. cbn in Hr.
  rewrite Hb2 in Hr. intros Ht. destruct (take_bound_ok _ _ _ _ Hr Ht) as (T1 & T2 & T3 & T4 & T5 & T6 & T7 & T8).
  split_and!; [done..|]. intros Hrows. rewrite T8. apply Nat.ltb_lt in Hrows. rewrite Hrows in Hmany. subst many. by eapply resolve_forced.
Qed.
End statements.

(** Three rows in two batches, for a query that would be prepared at its third
    execution only: the rows force the decision. *)
Definition toy_exec : Exec toy :=
  mkExec (bind_stream (set_sql_query (mkStatement None None 3 false None false None None None None None None) insert_query)
            (mkBound insert_schema [Ok (insert_batch [1]); Ok (insert_batch []); Ok (insert_batch [2; 3])]))
    (toy_driver true).

Lemma bound_rows_taken_witness :
  let '(r, s') := bind_for_update (row := toy_row) (λ _, []) 1 toy_exec in
  ∃ queries, r = Ok queries ∧
    bs_reader queries = [Ok (insert_batch [1]); Ok (insert_batch []); Ok (insert_batch [2; 3])] ∧
    is_Some (bs_prepared queries) ∧ st_bound (statement s') = None ∧ st_deferred_template (statement s') = None.
Proof.
  destruct (bind_for_update _ _ toy_exec) as [r s'] eqn:E.
  assert (∃ queries, r = Ok queries ∧ is_Some (bs_prepared queries)) as (queries & -> & Hp).
  { apply (f_equal fst) in E. vm_compute in E. rewrite <- E. by eexists. }
  destruct (bound_rows_taken (row := toy_row) (λ _, []) 1 toy_exec s'
    (mkBound insert_schema [Ok (insert_batch [1]); Ok (insert_batch []); Ok (insert_batch [2; 3])]) queries eq_refl E)
    as (T1 & _ & _ & _ & _ & _ & T7 & T8).
  exists queries. split_and!; [done|exact T1|exact Hp|exact T7|apply T8; cbn; lia].
Defined.
