(* ===== verification/Options.v ===== *)
(** Options of databases, connections and statements
    ([crates/adbc-monetdb/src/driver.rs]): the values a client may set, how they
    are checked, and how they read back.

    The longest timeout is a constant of the client library, a parameter here.
    Doubles are their bits. *)

From stdpp Require Import base list numbers strings gmap.
From S2P Require Import Prelude RustStd Types Errors Compression SqlScan Template ReadPath.
Local Open Scope Z_scope.

(** ** Values *)

Inductive OptionValue : Type :=
| OString (value : bytes)
| OBytes (value : bytes)
| OInt (value : Z)
| ODouble (bits : Z).

Abbreviation Options := (gmap bytes OptionValue).

Definition optional_string (options : Options) (key : bytes) : option bytes :=
  match options !! key with Some (OString value) => Some value | _ => None end.

Definition option_type_error (key : bytes) (expected : string) (value : OptionValue) : Error :=
  let actual := match value with OString _ => "string" | OBytes _ => "bytes" | OInt _ => "integer" | ODouble _ => "double" end%string in
  mkError (str "option '" ++ key ++ str "' is " ++ str actual ++ str ", not " ++ str expected) InvalidData.

Definition get_string (options : Options) (key : bytes) : res Error bytes :=
  match options !! key with
  | Some (OString value) => Ok value
  | Some value => Err (option_type_error key "string" value)
  | None => Err (unknown_option key)
  end.
Definition get_bytes (options : Options) (key : bytes) : res Error bytes :=
  match options !! key with
  | Some (OBytes value) => Ok value
  | Some value => Err (option_type_error key "bytes" value)
  | None => Err (unknown_option key)
  end.
Definition get_int (options : Options) (key : bytes) : res Error Z :=
  match options !! key with
  | Some (OInt value) => Ok value
  | Some value => Err (option_type_error key "integer" value)
  | None => Err (unknown_option key)
  end.
Definition get_double (options : Options) (key : bytes) : res Error Z :=
  match options !! key with
  | Some (ODouble value) => Ok value
  | Some value => Err (option_type_error key "double" value)
  | None => Err (unknown_option key)
  end.

Definition option_error (key : bytes) (what : string) : Error :=
  mkError (str "option '" ++ key ++ str "' " ++ str what) InvalidArguments.

(** ** Names *)

Definition READ_BATCH_ROWS_OPTION : bytes := str "adbc.monetdb.read_batch_rows".
Definition READ_WINDOW_BYTES_OPTION : bytes := str "adbc.monetdb.read_window_bytes".
Definition READ_PREFETCH_OPTION : bytes := str "adbc.monetdb.read_prefetch".
Definition WRITE_BATCH_ROWS_OPTION : bytes := str "adbc.monetdb.write_batch_rows".
Definition WRITE_WINDOW_BYTES_OPTION : bytes := str "adbc.monetdb.write_window_bytes".
Definition INGEST_INSERT_ROWS_OPTION : bytes := str "adbc.monetdb.ingest_insert_rows".
Definition PREPARED_CACHE_CAPACITY_OPTION : bytes := str "adbc.monetdb.prepared_cache_capacity".
Definition PREPARE_THRESHOLD_OPTION : bytes := str "adbc.monetdb.prepare_threshold".
Definition WIRE_COMPRESSION_OPTION : bytes := str "adbc.monetdb.wire_compression".
Definition INGEST_PARTIAL_OPTION : bytes := str "adbc.monetdb.ingest_partial".
Definition INGEST_ATOMICITY_OPTION : bytes := str "adbc.monetdb.ingest_atomicity".
Definition CONSTRAINED_APPEND_OPTION : bytes := str "adbc.monetdb.constrained_append".
Definition INGEST_STATS_OPTION : bytes := str "adbc.monetdb.ingest_stats".
Definition READ_STATS_OPTION : bytes := str "adbc.monetdb.read_stats".
Definition PREPARE_STATUS_OPTION : bytes := str "adbc.monetdb.prepare_status".
Definition BIND_BY_NAME_OPTION : bytes := str "adbc.monetdb.bind_by_name".
Definition DRIVER_MANAGER_BIND_BY_NAME_OPTION : bytes := str "adbc.statement.bind_by_name".
Definition CONNECT_TIMEOUT_OPTION : bytes := str "adbc.monetdb.connect_timeout_seconds".
Definition READ_TIMEOUT_OPTION : bytes := str "adbc.monetdb.read_timeout_seconds".
Definition WRITE_TIMEOUT_OPTION : bytes := str "adbc.monetdb.write_timeout_seconds".
Definition OPERATION_TIMEOUT_OPTION : bytes := str "adbc.monetdb.operation_timeout_seconds".
Definition CLIENT_APPLICATION_OPTION : bytes := str "adbc.monetdb.client_application".
Definition CLIENT_REMARK_OPTION : bytes := str "adbc.monetdb.client_remark".
Definition CLIENT_INFO_OPTION : bytes := str "adbc.monetdb.client_info".

Definition is_key (key name : bytes) : bool := bool_decide (key = name).

Inductive TimeoutOption : Type := TimeoutConnect | TimeoutRead | TimeoutWrite | TimeoutOperation.

Definition timeout_from_key (key : bytes) : option TimeoutOption :=
  if is_key key CONNECT_TIMEOUT_OPTION then Some TimeoutConnect
  else if is_key key READ_TIMEOUT_OPTION then Some TimeoutRead
  else if is_key key WRITE_TIMEOUT_OPTION then Some TimeoutWrite
  else if is_key key OPERATION_TIMEOUT_OPTION then Some TimeoutOperation
  else None.

(** ** Parsing *)

Definition integer_option (key : bytes) (value : OptionValue) : res Error Z :=
  match value with
  | OString value => ok_or (parse_i64 value) (option_error key "must be an integer")
  | OInt value => Ok value
  | _ => Err (option_error key "must be an integer")
  end.

Definition nonnegative_usize_option (key : bytes) (value : OptionValue) : res Error Z :=
  n ← integer_option key value;
  if n <? 0 then Err (option_error key "must be non-negative") else Ok n.

Definition is_multiple_of (a b : Z) : bool := a mod b =? 0.

Definition round_read_batch_rows (rows : Z) : Z :=
  if is_multiple_of rows EXPORT_GRANULE_ROWS then rows
  else if rows <? EXPORT_GRANULE_ROWS then
    let lower := export_alignment_rows rows in
    if lower =? rows then rows
    else
      let upper := Z.min (saturating_mul lower 2) EXPORT_GRANULE_ROWS in
      if upper - rows <=? rows - lower then upper else lower
  else
    let lower := rows / EXPORT_GRANULE_ROWS * EXPORT_GRANULE_ROWS in
    if (lower =? 0) || (EXPORT_GRANULE_ROWS / 2 <=? rows - lower) then
      match checked_add lower EXPORT_GRANULE_ROWS with
      | Some upper => if upper <=? i64_max then upper else lower
      | None => lower
      end
    else lower.

(** The warning of a rounded value goes to the error output. *)
Definition read_batch_rows_option (value : OptionValue) : res Error Z :=
  rows ← nonnegative_usize_option READ_BATCH_ROWS_OPTION value;
  Ok (round_read_batch_rows rows).

Definition window_bytes_option (key : bytes) (minimum : Z) (value : OptionValue) : res Error (option Z) :=
  n ← integer_option key value;
  if n =? 0 then Ok None
  else if minimum <=? n then Ok (Some n)
  else Err (mkError (str "option '" ++ key ++ str "' must be 0 or at least " ++ fmt_int minimum) InvalidArguments).

Definition read_window_bytes_option : OptionValue → res Error (option Z) :=
  window_bytes_option READ_WINDOW_BYTES_OPTION MIN_READ_WINDOW_BYTES.
Definition write_window_bytes_option : OptionValue → res Error (option Z) :=
  window_bytes_option WRITE_WINDOW_BYTES_OPTION MIN_WRITE_WINDOW_BYTES.

Definition write_batch_rows_option (value : OptionValue) : res Error (option Z) :=
  n ← integer_option WRITE_BATCH_ROWS_OPTION value;
  if n =? 0 then Ok None
  else if n <? 0 then Err (option_error WRITE_BATCH_ROWS_OPTION "must be non-negative")
  else Ok (Some n).

Definition parse_bool_option (value : bytes) : res Error bool :=
  let lower := map to_ascii_lower value in
  if existsb (λ word, bool_decide (lower = str word)) ["true"; "1"; "enabled"; "on"]%string then Ok true
  else if existsb (λ word, bool_decide (lower = str word)) ["false"; "0"; "disabled"; "off"]%string then Ok false
  else Err (mkError (str "invalid boolean option value '" ++ value ++ str "'") InvalidArguments).

Definition option_bool (value : OptionValue) : res Error bool :=
  match value with
  | OString value => parse_bool_option value
  | _ => Err (error "boolean option must be a string" InvalidArguments)
  end.

Definition bool_text (b : bool) : bytes := str (if b then "true" else "false").

(** An option with a fixed set of words. *)
Definition word_option {A} (key : bytes) (words : list (string * A)) (expected : string) (value : OptionValue) : res Error A :=
  match value with
  | OString value =>
      match find (λ word : string * A, bool_decide (value = str word.1)) words with
      | Some word => Ok word.2
      | None => Err (option_error key expected)
      end
  | _ => Err (option_error key "must be a string")
  end.

Inductive IngestPartial : Type := PartialBlock | PartialAllow.
Inductive IngestAtomicity : Type := AtomicityTransaction | AtomicitySavepoint.
Inductive ConstrainedAppend : Type := AppendAuto | AppendDirect.

Definition partial_parse : OptionValue → res Error IngestPartial :=
  word_option INGEST_PARTIAL_OPTION [("block", PartialBlock); ("allow", PartialAllow)]%string "must be 'block' or 'allow'".
Definition partial_as_str (p : IngestPartial) : bytes := str (match p with PartialBlock => "block" | PartialAllow => "allow" end).

Definition atomicity_parse : OptionValue → res Error IngestAtomicity :=
  word_option INGEST_ATOMICITY_OPTION [("transaction", AtomicityTransaction); ("savepoint", AtomicitySavepoint)]%string
    "must be 'transaction' or 'savepoint'".
Definition atomicity_as_str (a : IngestAtomicity) : bytes :=
  str (match a with AtomicityTransaction => "transaction" | AtomicitySavepoint => "savepoint" end).

Definition append_parse : OptionValue → res Error ConstrainedAppend :=
  word_option CONSTRAINED_APPEND_OPTION [("auto", AppendAuto); ("direct", AppendDirect)]%string "must be 'auto' or 'direct'".
Definition append_as_str (a : ConstrainedAppend) : bytes := str (match a with AppendAuto => "auto" | AppendDirect => "direct" end).

Definition wire_parse : OptionValue → res Error WireCompression :=
  word_option WIRE_COMPRESSION_OPTION [("none", WC_None); ("auto", WC_Auto); ("lz4", WC_Lz4)]%string
    "must be 'none', 'auto', or 'lz4'".
Definition wire_as_str (w : WireCompression) : bytes :=
  str (match w with WC_None => "none" | WC_Auto => "auto" | WC_Lz4 => "lz4" end).

(** ** Timeouts *)

(** Durations are in nanoseconds; [None] is no limit. *)
Record Timeouts : Type := mkTimeouts { read_timeout : option Z; write_timeout : option Z; operation_timeout : option Z }.

(** [Duration::from_secs] and [as_secs]. *)
Definition from_secs (seconds : Z) : Z := seconds * 1000000000.
Definition as_secs (duration : Z) : Z := duration / 1000000000.

(** The longest timeout of the client library, in seconds. *)
Class ClientLimits := { MAX_TIMEOUT_SECONDS : Z }.

Definition timeout_seconds `{ClientLimits} (key : bytes) (value : OptionValue) : res Error Z :=
  seconds ← integer_option key value;
  if seconds <? 0 then Err (option_error key "must be non-negative")
  else if MAX_TIMEOUT_SECONDS <? seconds then
    Err (mkError (str "option '" ++ key ++ str "' must not exceed " ++ fmt_int MAX_TIMEOUT_SECONDS ++ str " seconds")
           InvalidArguments)
  else Ok seconds.

Definition database_only (key : bytes) : Error :=
  mkError (str "option '" ++ key ++ str "' is only valid as a database option") InvalidState.

Definition set_runtime_timeout `{ClientLimits} (timeouts : Timeouts) (timeout : TimeoutOption) (key : bytes)
    (value : OptionValue) : res Error Timeouts :=
  seconds ← timeout_seconds key value;
  let duration := if seconds =? 0 then None else Some (from_secs seconds) in
  match timeout with
  | TimeoutConnect => Err (database_only key)
  | TimeoutRead => Ok (mkTimeouts duration (write_timeout timeouts) (operation_timeout timeouts))
  | TimeoutWrite => Ok (mkTimeouts (read_timeout timeouts) duration (operation_timeout timeouts))
  | TimeoutOperation => Ok (mkTimeouts (read_timeout timeouts) (write_timeout timeouts) duration)
  end.

Definition store_runtime_timeouts (options : Options) (timeouts : Timeouts) : Options :=
  foldl (λ (options : Options) (entry : bytes * option Z),
           <[entry.1 := OString (fmt_int (from_option as_secs 0 entry.2))]> options) options
    [(READ_TIMEOUT_OPTION, read_timeout timeouts); (WRITE_TIMEOUT_OPTION, write_timeout timeouts);
     (OPERATION_TIMEOUT_OPTION, operation_timeout timeouts)].

(** What is left until the deadline bounds every timeout. *)
Definition initialization_timeouts (timeouts : Timeouts) (deadline : option Z) (now : Z) : res Error Timeouts :=
  match deadline with
  | None => Ok timeouts
  | Some deadline =>
      if deadline <? now then Err (error "connection initialization deadline expired" Timeout)
      else
        let remaining := deadline - now in
        let bounded := λ timeout : option Z, Some (Z.min (default remaining timeout) remaining) in
        Ok (mkTimeouts (bounded (read_timeout timeouts)) (bounded (write_timeout timeouts))
              (bounded (operation_timeout timeouts)))
  end.

(** ** Tuning *)

(** The fields that connections and statements share. *)
Record Tuning : Type := mkTuning {
  timeouts : Timeouts;
  read_batch_rows : Z;
  read_window_bytes : option Z;
  read_prefetch : bool;
  write_batch_rows : option Z;
  write_window_bytes : option Z;
  ingest_insert_rows : Z;
  prepare_threshold : Z;
  wire_compression : WireCompression;
  ingest_partial : IngestPartial;
  ingest_atomicity : IngestAtomicity;
  constrained_append : ConstrainedAppend;
}.

Definition DEFAULT_PREPARED_CACHE_CAPACITY : Z := 512.
Definition DEFAULT_PREPARE_THRESHOLD : Z := 2.

Definition default_tuning (timeouts : Timeouts) : Tuning :=
  mkTuning timeouts 0 None true None None 100 DEFAULT_PREPARE_THRESHOLD WC_Auto PartialBlock AtomicityTransaction
    AppendAuto.

Definition with_timeouts (t : Tuning) (x : Timeouts) : Tuning :=
  mkTuning x (read_batch_rows t) (read_window_bytes t) (read_prefetch t) (write_batch_rows t) (write_window_bytes t)
    (ingest_insert_rows t) (prepare_threshold t) (wire_compression t) (ingest_partial t) (ingest_atomicity t)
    (constrained_append t).
Definition with_read_batch_rows (t : Tuning) (x : Z) : Tuning :=
  mkTuning (timeouts t) x (read_window_bytes t) (read_prefetch t) (write_batch_rows t) (write_window_bytes t)
    (ingest_insert_rows t) (prepare_threshold t) (wire_compression t) (ingest_partial t) (ingest_atomicity t)
    (constrained_append t).
Definition with_read_window_bytes (t : Tuning) (x : option Z) : Tuning :=
  mkTuning (timeouts t) (read_batch_rows t) x (read_prefetch t) (write_batch_rows t) (write_window_bytes t)
    (ingest_insert_rows t) (prepare_threshold t) (wire_compression t) (ingest_partial t) (ingest_atomicity t)
    (constrained_append t).
Definition with_read_prefetch (t : Tuning) (x : bool) : Tuning :=
  mkTuning (timeouts t) (read_batch_rows t) (read_window_bytes t) x (write_batch_rows t) (write_window_bytes t)
    (ingest_insert_rows t) (prepare_threshold t) (wire_compression t) (ingest_partial t) (ingest_atomicity t)
    (constrained_append t).
Definition with_write_batch_rows (t : Tuning) (x : option Z) : Tuning :=
  mkTuning (timeouts t) (read_batch_rows t) (read_window_bytes t) (read_prefetch t) x (write_window_bytes t)
    (ingest_insert_rows t) (prepare_threshold t) (wire_compression t) (ingest_partial t) (ingest_atomicity t)
    (constrained_append t).
Definition with_write_window_bytes (t : Tuning) (x : option Z) : Tuning :=
  mkTuning (timeouts t) (read_batch_rows t) (read_window_bytes t) (read_prefetch t) (write_batch_rows t) x
    (ingest_insert_rows t) (prepare_threshold t) (wire_compression t) (ingest_partial t) (ingest_atomicity t)
    (constrained_append t).
Definition with_ingest_insert_rows (t : Tuning) (x : Z) : Tuning :=
  mkTuning (timeouts t) (read_batch_rows t) (read_window_bytes t) (read_prefetch t) (write_batch_rows t)
    (write_window_bytes t) x (prepare_threshold t) (wire_compression t) (ingest_partial t) (ingest_atomicity t)
    (constrained_append t).
Definition with_prepare_threshold (t : Tuning) (x : Z) : Tuning :=
  mkTuning (timeouts t) (read_batch_rows t) (read_window_bytes t) (read_prefetch t) (write_batch_rows t)
    (write_window_bytes t) (ingest_insert_rows t) x (wire_compression t) (ingest_partial t) (ingest_atomicity t)
    (constrained_append t).
Definition with_wire_compression (t : Tuning) (x : WireCompression) : Tuning :=
  mkTuning (timeouts t) (read_batch_rows t) (read_window_bytes t) (read_prefetch t) (write_batch_rows t)
    (write_window_bytes t) (ingest_insert_rows t) (prepare_threshold t) x (ingest_partial t) (ingest_atomicity t)
    (constrained_append t).
Definition with_ingest_partial (t : Tuning) (x : IngestPartial) : Tuning :=
  mkTuning (timeouts t) (read_batch_rows t) (read_window_bytes t) (read_prefetch t) (write_batch_rows t)
    (write_window_bytes t) (ingest_insert_rows t) (prepare_threshold t) (wire_compression t) x (ingest_atomicity t)
    (constrained_append t).
Definition with_ingest_atomicity (t : Tuning) (x : IngestAtomicity) : Tuning :=
  mkTuning (timeouts t) (read_batch_rows t) (read_window_bytes t) (read_prefetch t) (write_batch_rows t)
    (write_window_bytes t) (ingest_insert_rows t) (prepare_threshold t) (wire_compression t) (ingest_partial t) x
    (constrained_append t).
Definition with_constrained_append (t : Tuning) (x : ConstrainedAppend) : Tuning :=
  mkTuning (timeouts t) (read_batch_rows t) (read_window_bytes t) (read_prefetch t) (write_batch_rows t)
    (write_window_bytes t) (ingest_insert_rows t) (prepare_threshold t) (wire_compression t) (ingest_partial t)
    (ingest_atomicity t) x.

(** The branches of [set_option] that connections and statements share: [None]
    where no such branch takes the key.  The second component is the value that
    is stored under the key: what the client gave, or the text of what it means. *)
Definition set_tuning `{ClientLimits} (t : Tuning) (key : bytes) (value : OptionValue)
    : option (res Error (Tuning * OptionValue)) :=
  match timeout_from_key key with
  | Some timeout => Some (x ← set_runtime_timeout (timeouts t) timeout key value; Ok (with_timeouts t x, value))
  | None =>
    if is_key key READ_BATCH_ROWS_OPTION then
      Some (x ← read_batch_rows_option value; Ok (with_read_batch_rows t x, value))
    else if is_key key READ_WINDOW_BYTES_OPTION then
      Some (x ← read_window_bytes_option value; Ok (with_read_window_bytes t x, value))
    else if is_key key READ_PREFETCH_OPTION then
      Some (x ← option_bool value; Ok (with_read_prefetch t x, OString (bool_text x)))
    else if is_key key WRITE_BATCH_ROWS_OPTION then
      Some (x ← write_batch_rows_option value; Ok (with_write_batch_rows t x, value))
    else if is_key key WRITE_WINDOW_BYTES_OPTION then
      Some (x ← write_window_bytes_option value; Ok (with_write_window_bytes t x, value))
    else if is_key key INGEST_INSERT_ROWS_OPTION then
      Some (x ← nonnegative_usize_option INGEST_INSERT_ROWS_OPTION value; Ok (with_ingest_insert_rows t x, value))
    else if is_key key PREPARE_THRESHOLD_OPTION then
      Some (x ← nonnegative_usize_option PREPARE_THRESHOLD_OPTION value; Ok (with_prepare_threshold t x, value))
    else if is_key key WIRE_COMPRESSION_OPTION then
      Some (x ← wire_parse value; Ok (with_wire_compression t x, OString (wire_as_str x)))
    else if is_key key INGEST_PARTIAL_OPTION then
      Some (x ← partial_parse value; Ok (with_ingest_partial t x, value))
    else if is_key key INGEST_ATOMICITY_OPTION then
      Some (x ← atomicity_parse value; Ok (with_ingest_atomicity t x, value))
    else if is_key key CONSTRAINED_APPEND_OPTION then
      Some (x ← append_parse value; Ok (with_constrained_append t x, OString (append_as_str x)))
    else None
  end.

(** The shared branches of [get_option_string]. *)
Definition tuning_string (t : Tuning) (key : bytes) : option bytes :=
  if is_key key READ_PREFETCH_OPTION then Some (bool_text (read_prefetch t))
  else if is_key key READ_BATCH_ROWS_OPTION then Some (fmt_int (read_batch_rows t))
  else if is_key key READ_WINDOW_BYTES_OPTION then Some (fmt_int (default 0 (read_window_bytes t)))
  else if is_key key WRITE_BATCH_ROWS_OPTION then Some (fmt_int (default 0 (write_batch_rows t)))
  else if is_key key WRITE_WINDOW_BYTES_OPTION then Some (fmt_int (default 0 (write_window_bytes t)))
  else if is_key key INGEST_INSERT_ROWS_OPTION then Some (fmt_int (ingest_insert_rows t))
  else if is_key key PREPARE_THRESHOLD_OPTION then Some (fmt_int (prepare_threshold t))
  else if is_key key WIRE_COMPRESSION_OPTION then Some (wire_as_str (wire_compression t))
  else if is_key key INGEST_PARTIAL_OPTION then Some (partial_as_str (ingest_partial t))
  else if is_key key INGEST_ATOMICITY_OPTION then Some (atomicity_as_str (ingest_atomicity t))
  else if is_key key CONSTRAINED_APPEND_OPTION then Some (append_as_str (constrained_append t))
  else None.

(** [i64::try_from] of a [usize]. *)
Definition i64_of (n : Z) (what : string) : res Error Z :=
  if n <=? i64_max then Ok n else Err (mkError (str what ++ str " exceeds i64") Internal).

(** The shared branches of [get_option_int]. *)
Definition tuning_int (t : Tuning) (key : bytes) : option (res Error Z) :=
  if is_key key READ_BATCH_ROWS_OPTION then Some (i64_of (read_batch_rows t) "read_batch_rows")
  else if is_key key READ_WINDOW_BYTES_OPTION then Some (i64_of (default 0 (read_window_bytes t)) "read_window_bytes")
  else if is_key key WRITE_BATCH_ROWS_OPTION then Some (i64_of (default 0 (write_batch_rows t)) "write_batch_rows")
  else if is_key key WRITE_WINDOW_BYTES_OPTION then Some (i64_of (default 0 (write_window_bytes t)) "write_window_bytes")
  else if is_key key INGEST_INSERT_ROWS_OPTION then Some (i64_of (ingest_insert_rows t) "ingest_insert_rows")
  else if is_key key PREPARE_THRESHOLD_OPTION then Some (i64_of (prepare_threshold t) "prepare_threshold")
  else None.

(** ** Client information and the names of a URI *)

Inductive ClientInfoOption : Type := ClientApplication | ClientRemark | ClientEnabled.

Definition client_info_from_key (key : bytes) : option ClientInfoOption :=
  if is_key key CLIENT_APPLICATION_OPTION then Some ClientApplication
  else if is_key key CLIENT_REMARK_OPTION then Some ClientRemark
  else if is_key key CLIENT_INFO_OPTION then Some ClientEnabled
  else None.

Definition client_info_uri_key (o : ClientInfoOption) : bytes :=
  str (match o with ClientApplication => "client_application" | ClientRemark => "client_remark" | ClientEnabled => "client_info" end).

Definition client_info_default (o : ClientInfoOption) : bytes :=
  match o with ClientApplication | ClientRemark => [] | ClientEnabled => str "true" end.

Definition client_info_validate (o : ClientInfoOption) (key : bytes) (value : OptionValue) : res Error OptionValue :=
  match value with
  | OString value =>
      match o with
      | ClientApplication | ClientRemark =>
          if existsb (λ b, b =? 10) value then Err (option_error key "must not contain newlines") else Ok (OString value)
      | ClientEnabled => b ← parse_bool_option value; Ok (OString (bool_text b))
      end
  | _ => Err (option_error key "must be a string")
  end.

Definition timeout_uri_key (t : TimeoutOption) : bytes :=
  str (match t with
       | TimeoutConnect => "connect_timeout" | TimeoutRead => "read_timeout"
       | TimeoutWrite => "write_timeout" | TimeoutOperation => "operation_timeout"
       end).

Definition URI_QUERY_KEYS : list bytes :=
  str <$> ["user"; "password"; "cert"; "certhash"; "clientcert"; "clientkey"; "schema"; "sock"; "sockdir";
           "connect_timeout"; "read_timeout"; "write_timeout"; "operation_timeout"; "client_info";
           "client_application"; "client_remark"; "max_response_size"; "read_window_bytes"; "write_window_bytes";
           "ingest_insert_rows"; "prepared_cache_capacity"; "prepare_threshold"; "wire_compression";
           "constrained_append"]%string.

Definition tuning_option_from_uri_key (key : bytes) : option bytes :=
  if is_key key (str "read_window_bytes") then Some READ_WINDOW_BYTES_OPTION
  else if is_key key (str "write_window_bytes") then Some WRITE_WINDOW_BYTES_OPTION
  else if is_key key (str "ingest_insert_rows") then Some INGEST_INSERT_ROWS_OPTION
  else if is_key key (str "prepared_cache_capacity") then Some PREPARED_CACHE_CAPACITY_OPTION
  else if is_key key (str "prepare_threshold") then Some PREPARE_THRESHOLD_OPTION
  else if is_key key (str "wire_compression") then Some WIRE_COMPRESSION_OPTION
  else if is_key key (str "constrained_append") then Some CONSTRAINED_APPEND_OPTION
  else None.

Definition tuning_uri_key (name : bytes) : option bytes :=
  if is_key name READ_WINDOW_BYTES_OPTION then Some (str "read_window_bytes")
  else if is_key name WRITE_WINDOW_BYTES_OPTION then Some (str "write_window_bytes")
  else if is_key name INGEST_INSERT_ROWS_OPTION then Some (str "ingest_insert_rows")
  else if is_key name PREPARED_CACHE_CAPACITY_OPTION then Some (str "prepared_cache_capacity")
  else if is_key name PREPARE_THRESHOLD_OPTION then Some (str "prepare_threshold")
  else if is_key name WIRE_COMPRESSION_OPTION then Some (str "wire_compression")
  else if is_key name CONSTRAINED_APPEND_OPTION then Some (str "constrained_append")
  else None.

Definition positive_capacity (value : OptionValue) : res Error Z :=
  capacity ← nonnegative_usize_option PREPARED_CACHE_CAPACITY_OPTION value;
  if capacity =? 0 then Err (option_error PREPARED_CACHE_CAPACITY_OPTION "must be positive") else Ok capacity.

Definition validate_tuning_option (key : bytes) (value : OptionValue) : res Error unit :=
  if is_key key READ_WINDOW_BYTES_OPTION then _ ← read_window_bytes_option value; Ok tt
  else if is_key key WRITE_WINDOW_BYTES_OPTION then _ ← write_window_bytes_option value; Ok tt
  else if is_key key INGEST_INSERT_ROWS_OPTION then _ ← nonnegative_usize_option key value; Ok tt
  else if is_key key PREPARED_CACHE_CAPACITY_OPTION then _ ← positive_capacity value; Ok tt
  else if is_key key PREPARE_THRESHOLD_OPTION then _ ← nonnegative_usize_option key value; Ok tt
  else if is_key key WIRE_COMPRESSION_OPTION then _ ← wire_parse value; Ok tt
  else if is_key key CONSTRAINED_APPEND_OPTION then _ ← append_parse value; Ok tt
  else Err (not_implemented key).

(** ** Identifiers *)

Definition quote_identifier (identifier : bytes) : res Error bytes :=
  if existsb (λ b, b =? 0) identifier then Err (error "SQL identifier contains a NUL byte" InvalidArguments)
  else Ok ([34] ++ double_char 34 identifier ++ [34]).

Definition qualified_name (schema : option bytes) (table : bytes) : res Error bytes :=
  match schema with
  | Some schema => s ← quote_identifier schema; t ← quote_identifier table; Ok (s ++ str "." ++ t)
  | None => quote_identifier table
  end.
