(* ===== verification/OptionsProofs.v ===== *)
(** Options: rounding, the invariant of the tuning fields, reading back what was
    set, and quoted names. *)

From stdpp Require Import base list numbers strings gmap.
From S2P Require Import Prelude RustStd Types Errors Compression SqlScan SqlScanProofs Template Literals ReadPath ReadPathProofs Ingest StreamProofs Options.
Local Open Scope Z_scope.

(** ** Rounding the rows of a batch *)

(** The batch sizes reads prefer: whole granules, and powers of two below. *)
Definition preferred_rows (rows : Z) : Prop :=
  (EXPORT_GRANULE_ROWS | rows) ∨ ∃ k, 0 ≤ k ∧ rows = 2 ^ k ∧ rows ≤ EXPORT_GRANULE_ROWS.

Lemma export_alignment_spec rows :
  0 < rows < EXPORT_GRANULE_ROWS →
  ∃ k, 0 ≤ k < 17 ∧ export_alignment_rows rows = 2 ^ k ∧ 2 ^ k ≤ rows < 2 ^ (k + 1).
Proof.
  intros Hr. unfold export_alignment_rows. rewrite Z.shiftl_1_l. replace (Z.min _ _) with rows by lia.
  exists (Z.log2 rows). pose proof (Z.log2_spec rows ltac:(lia)) as Hl. pose proof (Z.log2_nonneg rows).
  assert (Z.log2 rows < 17) by (apply Z.log2_lt_pow2; [lia|]; unfold EXPORT_GRANULE_ROWS in Hr; lia).
  split_and!; try done; lia.
Qed.

(** No preferred size lies strictly between two neighbours. *)
Lemma preferred_gap_small k rows : 0 ≤ k → 2 ^ (k + 1) ≤ EXPORT_GRANULE_ROWS → preferred_rows rows → 0 ≤ rows →
  rows ≤ 2 ^ k ∨ 2 ^ (k + 1) ≤ rows.
Proof.
  intros Hk Hg [[q ->]|(j & Hj & -> & Hl)] Hr.
  - destruct (decide (q ≤ 0)); [left|right; nia]. assert (0 < 2 ^ k) by (apply Z.pow_pos_nonneg; lia).
    unfold EXPORT_GRANULE_ROWS in *. nia.
  - destruct (decide (j ≤ k)); [left; apply Z.pow_le_mono_r; lia|right; apply Z.pow_le_mono_r; lia].
Qed.

Lemma preferred_gap_large q rows : 0 < q → preferred_rows rows →
  rows ≤ q * EXPORT_GRANULE_ROWS ∨ (q + 1) * EXPORT_GRANULE_ROWS ≤ rows.
Proof.
  intros Hq [[p ->]|(j & Hj & -> & Hl)]; [|left; nia]. unfold EXPORT_GRANULE_ROWS.
  destruct (decide (p ≤ q)); [left|right]; lia.
Qed.

Lemma round_small rows :
  0 < rows < EXPORT_GRANULE_ROWS → export_alignment_rows rows ≠ rows →
  ∃ k, 0 ≤ k < 17 ∧ 2 ^ k < rows < 2 ^ (k + 1) ∧
    round_read_batch_rows rows = if 2 ^ (k + 1) - rows <=? rows - 2 ^ k then 2 ^ (k + 1) else 2 ^ k.
Proof.
  intros Hr Hne. destruct (export_alignment_spec rows Hr) as (k & Hk & He & Hl). exists k. split; [done|].
  split; [lia|]. unfold round_read_batch_rows, is_multiple_of. rewrite Z.mod_small by lia.
  rewrite (proj2 (Z.eqb_neq rows 0)), (proj2 (Z.ltb_lt _ _)) by lia. rewrite He.
  rewrite (proj2 (Z.eqb_neq _ _)) by lia. unfold saturating_mul. replace (2 ^ k * 2) with (2 ^ (k + 1)) by (rewrite Z.pow_add_r; lia).
  replace (Z.min (Z.min _ _) _) with (2 ^ (k + 1)); [done|].
  assert (2 ^ (k + 1) ≤ 2 ^ 17) by (apply Z.pow_le_mono_r; lia).
  unfold usize_max, EXPORT_GRANULE_ROWS. lia.
Qed.

Lemma round_large rows :
  EXPORT_GRANULE_ROWS ≤ rows ≤ i64_max → rows mod EXPORT_GRANULE_ROWS ≠ 0 →
  ∃ q, 0 < q ∧ q * EXPORT_GRANULE_ROWS < rows < (q + 1) * EXPORT_GRANULE_ROWS ∧
    round_read_batch_rows rows =
      (if (EXPORT_GRANULE_ROWS / 2 <=? rows - q * EXPORT_GRANULE_ROWS) && ((q + 1) * EXPORT_GRANULE_ROWS <=? i64_max)
       then (q + 1) * EXPORT_GRANULE_ROWS else q * EXPORT_GRANULE_ROWS).
Proof.
  intros Hr Hm. exists (rows / EXPORT_GRANULE_ROWS). pose proof (Z.div_mod rows EXPORT_GRANULE_ROWS ltac:(done)) as Hd.
  pose proof (Z.mod_pos_bound rows EXPORT_GRANULE_ROWS ltac:(done)). set (q := rows / EXPORT_GRANULE_ROWS) in *.
  unfold EXPORT_GRANULE_ROWS in *. split; [lia|]. split; [lia|].
  unfold round_read_batch_rows, is_multiple_of, EXPORT_GRANULE_ROWS. rewrite (proj2 (Z.eqb_neq _ _)) by done.
  rewrite (proj2 (Z.ltb_ge _ _)) by lia. fold q. cbv zeta. rewrite (proj2 (Z.eqb_neq (q * 131072) 0)) by lia.
  cbn [orb]. destruct (Z.leb_spec (131072 / 2) (rows - q * 131072)); cbn [andb]; [|done].
  unfold checked_add, usize_max, i64_max in *. rewrite (proj2 (Z.leb_le _ (2 ^ 64 - 1))) by lia.
  replace (q * 131072 + 131072) with ((q + 1) * 131072) by lia. done.
Qed.

(** What is left when neither formula above applies: the value is kept. *)
Lemma round_kept rows :
  0 ≤ rows → rows mod EXPORT_GRANULE_ROWS = 0 ∨ (0 < rows < EXPORT_GRANULE_ROWS ∧ export_alignment_rows rows = rows) →
  round_read_batch_rows rows = rows ∧ preferred_rows rows.
Proof.
  intros H0 [Hm|[Hr He]]; unfold round_read_batch_rows, is_multiple_of.
  - rewrite Hm. split; [done|]. left. by apply Z.mod_divide.
  - split.
    + rewrite (proj2 (Z.ltb_lt _ _)), He, Z.eqb_refl by lia. by destruct (_ =? _).
    + destruct (export_alignment_spec rows Hr) as (k & Hk & Hp & _). right. exists k. lia.
Qed.

Lemma preferred_pow k : 0 ≤ k ≤ 17 → preferred_rows (2 ^ k).
Proof.
  intros Hk. right. exists k. split_and!; [lia|done|]. assert (2 ^ k ≤ 2 ^ 17) by (apply Z.pow_le_mono_r; lia).
  unfold EXPORT_GRANULE_ROWS. lia.
Qed.

Lemma preferred_kept rows : preferred_rows rows → 0 ≤ rows → round_read_batch_rows rows = rows.
Proof.
  intros [Hd|(k & Hk & -> & Hl)] Hr; apply round_kept; try done.
  - left. by apply Z.mod_divide.
  - destruct (decide (2 ^ k = EXPORT_GRANULE_ROWS)) as [->|Hne]; [by left|]. right.
    split; [lia|]. destruct (export_alignment_spec (2 ^ k)) as (j & Hj & -> & Hb1 & Hb2); [lia|].
    f_equal. apply Z.pow_le_mono_r_iff in Hb1; [|lia..]. apply Z.pow_lt_mono_r_iff in Hb2; lia.
Qed.

(** The rows of a read batch are rounded to the nearest size that export
    likes, a multiple of the granule or a power of two below it, within what a
    64-bit count holds: no other such size is closer to what was asked for.  A
    size that is one already is kept, and only zero (automatic) gives zero. *)
Lemma round_nearest rows :
  0 ≤ rows ≤ i64_max →
  let rounded := round_read_batch_rows rows in
  preferred_rows rounded ∧ 0 ≤ rounded ≤ i64_max ∧ (0 < rows → 0 < rounded) ∧
  round_read_batch_rows rounded = rounded ∧
  ∀ other, preferred_rows other → 0 ≤ other ≤ i64_max → Z.abs (rows - rounded) ≤ Z.abs (rows - other).
Proof.
  intros Hr rounded.
  assert (preferred_rows rounded ∧ 0 ≤ rounded ≤ i64_max ∧ (0 < rows → 0 < rounded) ∧
    ∀ other, preferred_rows other → 0 ≤ other ≤ i64_max → Z.abs (rows - rounded) ≤ Z.abs (rows - other))
    as (H1 & H2 & H3 & H4); [|split_and!; try done; try lia; apply preferred_kept; [done|lia]].
  unfold rounded. clear rounded. destruct (decide (rows mod EXPORT_GRANULE_ROWS = 0 ∨
    (0 < rows < EXPORT_GRANULE_ROWS ∧ export_alignment_rows rows = rows))) as [Hk|Hk].
  { destruct (round_kept rows ltac:(lia) Hk) as [-> Hp]. split_and!; try done; lia. }
  destruct (decide (rows < EXPORT_GRANULE_ROWS)) as [Hlt|Hge].
  - assert (0 < rows) as Hpos. { destruct (decide (rows = 0)) as [->|]; [|lia]. by destruct Hk; left. }
    destruct (round_small rows) as (k & Hb & Hi & ->); [done|tauto|].
    assert (0 < 2 ^ k) by (apply Z.pow_pos_nonneg; lia). assert (2 ^ (k + 1) ≤ 2 ^ 17) by (apply Z.pow_le_mono_r; lia).
    assert (∀ other, preferred_rows other → 0 ≤ other → other ≤ 2 ^ k ∨ 2 ^ (k + 1) ≤ other) as Hgap
      by (intros; apply preferred_gap_small; unfold EXPORT_GRANULE_ROWS; try done; lia).
    unfold i64_max. destruct (Z.leb_spec (2 ^ (k + 1) - rows) (rows - 2 ^ k)).
    + split_and!; [apply preferred_pow; lia|lia..|]. intros other Ho Hn. destruct (Hgap other Ho); lia.
    + split_and!; [apply preferred_pow; lia|lia..|]. intros other Ho Hn. destruct (Hgap other Ho); lia.
  - destruct (round_large rows) as (q & Hq & Hi & ->); [lia|tauto|].
    pose proof (λ other, preferred_gap_large q other Hq) as Hgap. change (EXPORT_GRANULE_ROWS / 2) with 65536.
    destruct (Z.leb_spec 65536 (rows - q * EXPORT_GRANULE_ROWS)) as [Hh|Hh];
      [destruct (Z.leb_spec ((q + 1) * EXPORT_GRANULE_ROWS) i64_max)|]; cbn [andb]; unfold EXPORT_GRANULE_ROWS in *;
      split_and!; try lia; try (left; by eexists); intros other Ho Hn; destruct (Hgap other Ho); lia.
Qed.

(** ** The tuning fields *)

Section tuning.
Context `{ClientLimits}.

(** The branches of [set_tuning]: what each needs, stores and changes. *)
Inductive tuning_step (t : Tuning) : bytes → OptionValue → Tuning → OptionValue → Prop :=
| step_timeout key timeout value x :
    timeout_from_key key = Some timeout → set_runtime_timeout (timeouts t) timeout key value = Ok x →
    tuning_step t key value (with_timeouts t x) value
| step_read_rows value x : read_batch_rows_option value = Ok x →
    tuning_step t READ_BATCH_ROWS_OPTION value (with_read_batch_rows t x) value
| step_read_window value x : read_window_bytes_option value = Ok x →
    tuning_step t READ_WINDOW_BYTES_OPTION value (with_read_window_bytes t x) value
| step_prefetch value x : option_bool value = Ok x →
    tuning_step t READ_PREFETCH_OPTION value (with_read_prefetch t x) (OString (bool_text x))
| step_write_rows value x : write_batch_rows_option value = Ok x →
    tuning_step t WRITE_BATCH_ROWS_OPTION value (with_write_batch_rows t x) value
| step_write_window value x : write_window_bytes_option value = Ok x →
    tuning_step t WRITE_WINDOW_BYTES_OPTION value (with_write_window_bytes t x) value
| step_insert_rows value x : nonnegative_usize_option INGEST_INSERT_ROWS_OPTION value = Ok x →
    tuning_step t INGEST_INSERT_ROWS_OPTION value (with_ingest_insert_rows t x) value
| step_threshold value x : nonnegative_usize_option PREPARE_THRESHOLD_OPTION value = Ok x →
    tuning_step t PREPARE_THRESHOLD_OPTION value (with_prepare_threshold t x) value
| step_compression value x : wire_parse value = Ok x →
    tuning_step t WIRE_COMPRESSION_OPTION value (with_wire_compression t x) (OString (wire_as_str x))
| step_partial value x : partial_parse value = Ok x →
    tuning_step t INGEST_PARTIAL_OPTION value (with_ingest_partial t x) value
| step_atomicity value x : atomicity_parse value = Ok x →
    tuning_step t INGEST_ATOMICITY_OPTION value (with_ingest_atomicity t x) value
| step_append value x : append_parse value = Ok x →
    tuning_step t CONSTRAINED_APPEND_OPTION value (with_constrained_append t x) (OString (append_as_str x)).

Lemma set_tuning_step t key value t' stored :
  set_tuning t key value = Some (Ok (t', stored)) → tuning_step t key value t' stored.
Proof.
  unfold set_tuning, is_key. destruct (timeout_from_key key) as [timeout|] eqn:Ht.
  { intros [=]. destruct (set_runtime_timeout _ _ _ _) eqn:Hs; simplify_eq/=. by econstructor. }
  repeat case_bool_decide; try done; intros [=]; subst key;
    match goal with H : (?m ≫= _) = Ok _ |- _ => destruct m eqn:?; cbn [mbind res_bind] in H;
      [injection H as <- <-; by constructor|discriminate H|discriminate H] end.
Qed.

Lemma tuning_step_set t key value t' stored :
  tuning_step t key value t' stored → set_tuning t key value = Some (Ok (t', stored)).
Proof.
  intros Hs. destruct Hs as [key timeout value x Hk Hx|value x Hx|value x Hx|value x Hx|value x Hx|value x Hx|value x Hx|
    value x Hx|value x Hx|value x Hx|value x Hx|value x Hx]; unfold set_tuning; [by rewrite Hk, Hx|..];
    change (timeout_from_key _) with (@None TimeoutOption); cbv iota; unfold is_key;
    repeat first [rewrite bool_decide_eq_true_2 by done|rewrite bool_decide_eq_false_2 by (by vm_compute)]; rewrite Hx; reflexivity.
Qed.

(** A value as the interface hands it over: an integer has 64 bits. *)
Definition value_ok (value : OptionValue) : Prop :=
  match value with OInt n => signed_range 64 n = true | _ => True end.

Lemma integer_option_range key value n : value_ok value → integer_option key value = Ok n → - 2 ^ 63 ≤ n ≤ i64_max.
Proof.
  intros Hv Hi. assert (signed_range 64 n = true) as Hr.
  { destruct value as [s|s|m|b]; cbn in Hi, Hv; try discriminate Hi; [|by simplify_eq].
    destruct (parse_i64 s) as [m|] eqn:Hp; cbn in Hi; [|discriminate Hi]. injection Hi as <-. by eapply parse_int_in_range. }
  unfold signed_range, i64_max in *. apply andb_prop in Hr as [H1 H2].
  apply Z.leb_le in H1. apply Z.ltb_lt in H2. lia.
Qed.

Lemma nonnegative_range key value n : value_ok value → nonnegative_usize_option key value = Ok n → 0 ≤ n ≤ i64_max.
Proof.
  intros Hv. unfold nonnegative_usize_option. destruct (integer_option key value) as [m| |] eqn:Hi; cbn [mbind res_bind]; [|done..].
  pose proof (integer_option_range _ _ _ Hv Hi). destruct (Z.ltb_spec m 0); intros [=]; lia.
Qed.

Lemma window_range key minimum value n : value_ok value → window_bytes_option key minimum value = Ok (Some n) →
  minimum ≤ n ≤ i64_max.
Proof.
  intros Hv. unfold window_bytes_option. destruct (integer_option key value) as [m| |] eqn:Hi; cbn [mbind res_bind]; [|done..].
  pose proof (integer_option_range _ _ _ Hv Hi). destruct (m =? 0); [done|]. destruct (Z.leb_spec minimum m); intros [=]; lia.
Qed.

Lemma write_rows_range value n : value_ok value → write_batch_rows_option value = Ok (Some n) → 0 < n ≤ i64_max.
Proof.
  intros Hv. unfold write_batch_rows_option. destruct (integer_option _ value) as [m| |] eqn:Hi; cbn [mbind res_bind]; [|done..].
  pose proof (integer_option_range _ _ _ Hv Hi). destruct (Z.eqb_spec m 0); [done|]. destruct (Z.ltb_spec m 0); intros [=]; lia.
Qed.

(** What the rest of the driver relies on. *)
Record tuning_ok (t : Tuning) : Prop := {
  ok_read_rows : 0 ≤ read_batch_rows t ≤ i64_max ∧ round_read_batch_rows (read_batch_rows t) = read_batch_rows t;
  ok_read_window : ∀ n, read_window_bytes t = Some n → MIN_READ_WINDOW_BYTES ≤ n ≤ i64_max;
  ok_write_rows : ∀ n, write_batch_rows t = Some n → 0 < n ≤ i64_max;
  ok_write_window : ∀ n, write_window_bytes t = Some n → MIN_WRITE_WINDOW_BYTES ≤ n ≤ i64_max;
  ok_insert_rows : 0 ≤ ingest_insert_rows t ≤ i64_max;
  ok_threshold : 0 ≤ prepare_threshold t ≤ i64_max;
}.

Lemma default_tuning_ok ts : tuning_ok (default_tuning ts).
Proof. by split. Qed.

Lemma tuning_step_ok t key value t' stored :
  tuning_step t key value t' stored → value_ok value → tuning_ok t → tuning_ok t'.
Proof.
  intros Hs Hv [H1 H2 H3 H4 H5 H6].
  destruct Hs as [| value x Hx|value x Hx| |value x Hx|value x Hx|value x Hx|value x Hx| | | |]; split;
    cbn; try done.
  - unfold read_batch_rows_option in Hx. destruct (nonnegative_usize_option _ value) as [n| |] eqn:Hn; [|discriminate Hx..].
    apply nonnegative_range in Hn; [|done]. cbn in Hx. injection Hx as <-.
    destruct (round_nearest n Hn) as (_ & ? & _ & ? & _). done.
  - intros n ->. by eapply window_range.
  - intros n ->. by eapply write_rows_range.
  - intros n ->. by eapply window_range.
  - by eapply nonnegative_range.
  - by eapply nonnegative_range.
Qed.

Lemma set_tuning_ok t key value t' stored :
  set_tuning t key value = Some (Ok (t', stored)) → value_ok value → tuning_ok t → tuning_ok t'.
Proof. intros Hs. eapply tuning_step_ok. by apply set_tuning_step. Qed.

(** ** Reading back *)

Lemma timeout_not_tuning key timeout t : timeout_from_key key = Some timeout → tuning_string t key = None.
Proof.
  unfold timeout_from_key, is_key. repeat case_bool_decide; try done; intros _; subst key; reflexivity.
Qed.

Lemma integer_option_fmt key n : - 2 ^ 63 ≤ n ≤ i64_max → integer_option key (OString (fmt_int n)) = Ok n.
Proof.
  intros Hn. cbn [integer_option]. rewrite parse_i64_fmt; [done|]. unfold signed_range, i64_max in *.
  apply andb_true_intro. split; [apply Z.leb_le|apply Z.ltb_lt]; lia.
Qed.

Lemma nonnegative_fmt key n : 0 ≤ n ≤ i64_max → nonnegative_usize_option key (OString (fmt_int n)) = Ok n.
Proof.
  intros Hn. unfold nonnegative_usize_option. rewrite integer_option_fmt by lia. cbn [mbind res_bind].
  by rewrite (proj2 (Z.ltb_ge _ _)) by lia.
Qed.

Lemma window_fmt key minimum value x : 0 < minimum → value_ok value → window_bytes_option key minimum value = Ok x →
  window_bytes_option key minimum (OString (fmt_int (default 0 x))) = Ok x.
Proof.
  intros Hm Hv Hx. assert (0 ≤ default 0 x ≤ i64_max ∧ (∀ n, x = Some n → minimum ≤ n)) as [Hr Hn].
  { destruct x as [n|]; cbn; [|by split]. apply window_range in Hx; [|done]. split; [lia|]. intros ? [= <-]. lia. }
  unfold window_bytes_option. rewrite integer_option_fmt by lia. cbn [mbind res_bind]. destruct x as [n|]; cbn; [|done].
  specialize (Hn n eq_refl). rewrite (proj2 (Z.eqb_neq _ _)), (proj2 (Z.leb_le _ _)) by lia. done.
Qed.

Lemma write_rows_fmt value x : value_ok value → write_batch_rows_option value = Ok x →
  write_batch_rows_option (OString (fmt_int (default 0 x))) = Ok x.
Proof.
  intros Hv Hx. assert (0 ≤ default 0 x ≤ i64_max ∧ (∀ n, x = Some n → 0 < n)) as [Hr Hn].
  { destruct x as [n|]; cbn; [|by split]. apply write_rows_range in Hx; [|done]. split; [lia|]. intros ? [= <-]. lia. }
  unfold write_batch_rows_option. rewrite integer_option_fmt by lia. cbn [mbind res_bind]. destruct x as [n|]; cbn; [|done].
  specialize (Hn n eq_refl). rewrite (proj2 (Z.eqb_neq _ _)), (proj2 (Z.ltb_ge _ _)) by lia. done.
Qed.

Lemma read_rows_range value x : value_ok value → read_batch_rows_option value = Ok x →
  0 ≤ x ≤ i64_max ∧ round_read_batch_rows x = x.
Proof.
  intros Hv. unfold read_batch_rows_option. destruct (nonnegative_usize_option _ value) as [n| |] eqn:Hn; [|done..].
  apply nonnegative_range in Hn; [|done]. intros [= <-]. by destruct (round_nearest n Hn) as (_ & ? & _ & ? & _).
Qed.

Lemma read_rows_fmt value x : value_ok value → read_batch_rows_option value = Ok x →
  read_batch_rows_option (OString (fmt_int x)) = Ok x.
Proof.
  intros Hv [Hr He]%read_rows_range; [|done]. unfold read_batch_rows_option. rewrite nonnegative_fmt by done.
  cbn [mbind res_bind]. by rewrite He.
Qed.

Lemma option_bool_text b : option_bool (OString (bool_text b)) = Ok b.
Proof. by destruct b. Qed.

(** The text of a tuning option after it was set; [None] for the timeouts, whose
    value is kept as it was given. *)
Lemma tuning_string_step t key value t' stored :
  tuning_step t key value t' stored →
  (timeout_from_key key ≠ None ∧ tuning_string t' key = None) ∨
  (timeout_from_key key = None ∧ ∃ text, tuning_string t' key = Some text ∧
     (value_ok value → ∃ stored', tuning_step t' key (OString text) t' stored')).
Proof.
  intros Hs. destruct Hs as [key timeout value x Hk Hx|value x Hx|value x Hx|value x Hx|value x Hx|value x Hx|value x Hx|
    value x Hx|value x Hx|value x Hx|value x Hx|value x Hx].
  1: { left. split; [by rewrite Hk|]. by eapply timeout_not_tuning. }
  all: right; split; [reflexivity|]; eexists; split; [reflexivity|]; intros Hv; eexists;
    match goal with |- tuning_step (?w ?t ?x) ?k ?v _ ?s => change (tuning_step (w t x) k v (w (w t x) x) s) end.
  - apply step_read_rows. by eapply read_rows_fmt.
  - apply step_read_window. by eapply window_fmt.
  - apply step_prefetch. apply option_bool_text.
  - apply step_write_rows. by eapply write_rows_fmt.
  - apply step_write_window. by eapply window_fmt.
  - apply step_insert_rows. apply nonnegative_fmt. by eapply nonnegative_range.
  - apply step_threshold. apply nonnegative_fmt. by eapply nonnegative_range.
  - apply step_compression. by destruct x.
  - apply step_partial. by destruct x.
  - apply step_atomicity. by destruct x.
  - apply step_append. by destruct x.
Qed.
End tuning.

(** ** Quoted names *)

Section names.
Context `{Unicode}.

Lemma double_quoted_step query st : lex st = DoubleQuote →
  scan_step query st =
    (current ← or_panic (query !! index st);
     i' ← next_char query (index st);
     Ok (close_quote st 34 current (query !! (index st + 1)%nat) i')).
Proof. intros Hl. unfold scan_step. by rewrite Hl. Qed.

Lemma quote_identifier_text name text :
  quote_identifier name = Ok text → text = 34 :: double_char 34 name ++ [34].
Proof. unfold quote_identifier. case_match; by intros [= <-]. Qed.

Lemma identifier_steps pre name text post st :
  quote_identifier name = Ok text → lex st = Normal → index st = length pre →
  utf8_valid name = true → utf8_valid post = true → head post ≠ Some 34 →
  scan_to (pre ++ text ++ post) st (token st Normal (length pre + length text)).
Proof.
  intros ->%quote_identifier_text Hl Hi Hv Hp Hh. cbn [app]. rewrite <- app_assoc. cbn [app].
  assert (scan_step (pre ++ 34 :: double_char 34 name ++ 34 :: post) st = Ok (token st DoubleQuote (length pre + 1))) as Hstep.
  { unfold scan_step. rewrite Hi, (list_lookup_middle pre _ 34 _ eq_refl), Hl.
    cbn [or_panic mbind res_bind]. unfold scan_normal. by rewrite Hi. }
  eapply rtc_l; [split; [rewrite length_app; simpl; lia|exact Hstep]|].
  pose proof (quoted_body_scanned DoubleQuote 34 ltac:(lia) double_quoted_step (pre ++ [34]) name post
    (token st DoubleQuote (length pre + 1))) as Hb.
  rewrite <- app_assoc, length_app in Hb. simpl in Hb.
  replace (length pre + length (34%Z :: double_char 34 name ++ [34%Z]))%nat
    with (length pre + 1 + length (double_char 34 name) + 1)%nat by (simpl; rewrite length_app; simpl; lia).
  by apply Hb.
Qed.

(** A name stays a name: the quoted identifier for any text without NUL
    bytes, with whatever quotes, semicolons, question marks or comment openers,
    is passed over by the scanner as a single token wherever code is expected and
    no quote follows.  No slot is found in it, no statement ends in it, and what
    is read between its quotes is the name. *)
Theorem identifier_opaque pre name text post st :
  quote_identifier name = Ok text → lex st = Normal → index st = length pre →
  utf8_valid name = true → utf8_valid post = true → head post ≠ Some 34 →
  let query := pre ++ text ++ post in
  scan_loop (length query) query st =
    scan_loop (length query) query (token st Normal (length pre + length text)) ∧
  read_quoted 34 (drop (length pre + 1) query) = Some (name, post).
Proof.
  intros Hq Hl Hi Hv Hp Hh query. pose proof (quote_identifier_text _ _ Hq) as Ht. split.
  - apply scan_to_loop; [by apply (identifier_steps pre name)|]. rewrite Hi. apply position_app.
    rewrite Ht. cbn [app]. rewrite <- app_assoc.
    apply utf8_valid_ascii_cons; [lia|]. apply double_char_valid; [lia|done|]. by apply utf8_valid_ascii_cons; [lia|].
  - unfold query. rewrite Ht, drop_app_ge by lia.
    replace (length pre + 1 - length pre)%nat with 1%nat by lia. cbn [app drop]. rewrite drop_0, <- app_assoc.
    by apply read_quoted_double.
Qed.
End names.

Lemma identifier_opaque_witness :
  let name := str "t; DROP TABLE " ++ [34] ++ str "x" ++ [34] ++ str " -- ?" in
  let text := 34 :: str "t; DROP TABLE " ++ [34; 34] ++ str "x" ++ [34; 34] ++ str " -- ?" ++ [34] in
  let st := mkScanState Normal 7 0 true [] [] (Some (0, 6)%nat) false procedural_new false false in
  let query := str "SELECT " ++ text ++ str ", ?" in
  scan_loop (length query) query st = scan_loop (length query) query (token st Normal (7 + length text)) ∧
  read_quoted 34 (drop 8 query) = Some (name, str ", ?").
Proof. intros name text st query. apply (identifier_opaque (str "SELECT ") name text (str ", ?") st); by vm_compute. Defined.

(** ** What the settings mean for reads and writes *)

Lemma tuned_write_budgets t memory rtt columns :
  tuning_ok t → (∀ n, memory = Some n → 0 ≤ n) →
  let '(budget, physical, incompressible) := write_window_budgets (write_window_bytes t) memory rtt columns in
  MIN_WRITE_WINDOW_BYTES ≤ budget ∧ 0 < physical ≤ budget ∧ 0 < incompressible ≤ physical.
Proof.
  intros Ht Hm. unfold write_window_budgets. destruct (write_window_bytes t) as [n|] eqn:Hn.
  { apply ok_write_window in Hn; [|done]. unfold MIN_WRITE_WINDOW_BYTES in *. lia. }
  unfold adaptive_physical_window_bytes, adaptive_incompressible_window_bytes, automatic_write_window_bytes_for_memory.
  unfold MIN_WRITE_WINDOW_BYTES, DEFAULT_WRITE_WINDOW_BYTES, WIDE_LOCAL_PHYSICAL_WINDOW_BYTES, LOCAL_PHYSICAL_WINDOW_BYTES,
    INCOMPRESSIBLE_WRITE_WINDOW_BYTES.
  destruct memory as [m|]; [specialize (Hm m eq_refl); pose proof (Z.div_pos m 8)|];
    repeat match goal with |- context [if ?b then _ else _] => destruct b end; lia.
Qed.

Lemma tuned_budget_ok t memory rtt columns r schema wire :
  tuning_ok t → (∀ n, memory = Some n → 0 ≤ n) →
  let '(budget, physical, incompressible) := write_window_budgets (write_window_bytes t) memory rtt columns in
  budget_ok (scheduler_new r schema budget physical incompressible (write_batch_rows t) wire).
Proof.
  intros Ht Hm. pose proof (tuned_write_budgets t memory rtt columns Ht Hm) as Hb.
  destruct (write_window_budgets _ _ _ _) as [[budget physical] incompressible]. unfold budget_ok, scheduler_new. cbn.
  destruct (write_batch_rows t) as [n|] eqn:Hn; [|unfold MIN_WRITE_WINDOW_BYTES in *; lia].
  apply ok_write_rows in Hn; [|done]. unfold i64_max, usize_max in *. lia.
Qed.

Lemma tuned_read_window t rtt granule memory :
  tuning_ok t → (∀ n, memory = Some n → 0 ≤ n) →
  MIN_READ_WINDOW_BYTES ≤ effective_read_window_bytes (read_window_bytes t) rtt granule memory.
Proof.
  intros Ht Hm. unfold effective_read_window_bytes. destruct (read_window_bytes t) as [n|] eqn:Hn.
  { apply ok_read_window in Hn; [lia|done]. }
  unfold effective_automatic_read_window_bytes, automatic_read_window_bytes_for_memory, MIN_READ_WINDOW_BYTES,
    REMOTE_READ_WINDOW_BYTES, DEFAULT_READ_WINDOW_BYTES.
  destruct memory as [m|]; [specialize (Hm m eq_refl); pose proof (Z.div_pos m 8)|]; destruct granule;
    repeat match goal with |- context [if ?b then _ else _] => destruct b end; lia.
Qed.
