(* ===== verification/Connection.v ===== *)
(** Databases, connections and their statements
    ([crates/adbc-monetdb/src/driver.rs]): options set and read back, the
    opening of a connection, and the statement it hands out.

    The URL parser, the parameters of the client library, its connection and the
    clock are parameters.  A connection's own fields are [MonetdbConnection]; what
    it shares with its statements (the session and the prepared statements) is the
    [Driver]. *)

From stdpp Require Import base list numbers strings gmap.
From S2P Require Import Prelude RustStd Types ArrowData Errors SqlScan Template PreparedCache ReadPath Transactions ParameterBatch Statement Options.
Local Open Scope Z_scope.

(** ** Keys *)

Inductive OptionDatabase : Type := OdUri | OdUsername | OdPassword | OdOther (name : bytes).
Inductive OptionConnection : Type :=
| OcAutoCommit | OcReadOnly | OcCurrentCatalog | OcCurrentSchema | OcIsolationLevel | OcOther (name : bytes).
Inductive OptionStatement : Type :=
| OsIngestMode | OsTargetTable | OsTargetCatalog | OsTargetDbSchema | OsTemporary | OsIncremental | OsProgress
| OsMaxProgress | OsOther (name : bytes).

#[global] Instance option_database_eq : EqDecision OptionDatabase.
Proof. solve_decision. Defined.
#[global] Instance option_connection_eq : EqDecision OptionConnection.
Proof. solve_decision. Defined.
#[global] Instance option_statement_eq : EqDecision OptionStatement.
Proof. solve_decision. Defined.

(** The names of the standard options are constants of the ADBC crate. *)
Class OptionNames := {
  name_uri : bytes; name_username : bytes; name_password : bytes;
  name_autocommit : bytes; name_read_only : bytes; name_current_catalog : bytes; name_current_schema : bytes;
  name_isolation_level : bytes;
  name_ingest_mode : bytes; name_target_table : bytes; name_target_catalog : bytes; name_target_db_schema : bytes;
  name_temporary : bytes; name_incremental : bytes; name_progress : bytes; name_max_progress : bytes;
}.

(** [AsRef<str>] of the keys. *)
Definition database_key `{OptionNames} (key : OptionDatabase) : bytes :=
  match key with
  | OdUri => name_uri | OdUsername => name_username | OdPassword => name_password | OdOther name => name
  end.
Definition connection_key `{OptionNames} (key : OptionConnection) : bytes :=
  match key with
  | OcAutoCommit => name_autocommit | OcReadOnly => name_read_only | OcCurrentCatalog => name_current_catalog
  | OcCurrentSchema => name_current_schema | OcIsolationLevel => name_isolation_level | OcOther name => name
  end.
Definition statement_key `{OptionNames} (key : OptionStatement) : bytes :=
  match key with
  | OsIngestMode => name_ingest_mode | OsTargetTable => name_target_table | OsTargetCatalog => name_target_catalog
  | OsTargetDbSchema => name_target_db_schema | OsTemporary => name_temporary | OsIncremental => name_incremental
  | OsProgress => name_progress | OsMaxProgress => name_max_progress | OsOther name => name
  end.

(** ** URLs *)

(** The [url] crate; an error is its text. *)
Class Urls := {
  url : Type;
  url_parse : bytes → res bytes url;
  query_pairs : url → list (bytes * bytes);
  url_username : url → bytes;
  url_password : url → option bytes;
  set_username : url → bytes → option url;
  set_password : url → option bytes → option url;
  (** [set_query(None)], and [extend_pairs] when there are pairs. *)
  set_query_pairs : url → list (bytes * bytes) → url;
  url_text : url → bytes;
  (** [percent_decode_str(_).decode_utf8()]. *)
  percent_decode : bytes → res bytes bytes;
}.

Definition invalid_argument (text : bytes) : Error := mkError text InvalidArguments.

Section urls.
Context `{Urls}.

Fixpoint check_query_keys (pairs : list (bytes * bytes)) : res Error unit :=
  match pairs with
  | [] => Ok tt
  | (key, _) :: pairs =>
      if bool_decide (key ∈ URI_QUERY_KEYS) then check_query_keys pairs
      else Err (mkError (str "unknown MonetDB URI query parameter '" ++ key ++ [39]) InvalidArguments)
  end.

Definition parse_driver_uri (uri : bytes) : res Error url :=
  parsed ← map_err invalid_argument (url_parse uri);
  _ ← check_query_keys (query_pairs parsed);
  Ok parsed.

Definition userinfo_error : Error := error "URI user information is invalid" InvalidArguments.

Definition uri_without_userinfo (uri : bytes) : res Error bytes :=
  parsed ← parse_driver_uri uri;
  parsed ← ok_or (set_username parsed []) userinfo_error;
  parsed ← ok_or (set_password parsed None) userinfo_error;
  let query := filter (λ pair, pair.1 ≠ str "password") (query_pairs parsed) in
  Ok (url_text (set_query_pairs parsed query)).

Definition decode_userinfo (value : bytes) : res Error bytes := map_err invalid_argument (percent_decode value).
End urls.

(** ** Databases *)

Record MonetdbDatabase : Type := mkDatabase { database_options : Options }.

Definition database_new : MonetdbDatabase := mkDatabase ∅.

Section databases.
Context `{OptionNames, Urls, ClientLimits}.

Definition store_database (d : MonetdbDatabase) (key : OptionDatabase) (value : OptionValue) : MonetdbDatabase :=
  mkDatabase (<[database_key key := value]> (database_options d)).

Definition database_set_option (d : MonetdbDatabase) (key : OptionDatabase) (value : OptionValue)
    : res Error MonetdbDatabase :=
  let standard := match key with OdUri | OdUsername | OdPassword => true | OdOther _ => false end in
  let is_string := match value with OString _ => true | _ => false end in
  if standard && negb is_string then
    Err (mkError (str "database option '" ++ database_key key ++ str "' must be a string") InvalidArguments)
  else
    _ ← match key, value with
        | OdUri, OString uri => _ ← parse_driver_uri uri; Ok tt
        | _, _ => Ok tt
        end;
    match key with
    | OdOther name =>
        match timeout_from_key name with
        | Some _ => _ ← timeout_seconds name value; Ok (store_database d key value)
        | None =>
            match tuning_uri_key name with
            | Some _ => _ ← validate_tuning_option name value; Ok (store_database d key value)
            | None =>
                match client_info_from_key name with
                | Some option => value ← client_info_validate option name value; Ok (store_database d key value)
                | None => Err (not_implemented name)
                end
            end
        end
    | _ => Ok (store_database d key value)
    end.

Fixpoint database_set_options (d : MonetdbDatabase) (opts : list (OptionDatabase * OptionValue))
    : res Error MonetdbDatabase :=
  match opts with
  | [] => Ok d
  | (key, value) :: opts => d ← database_set_option d key value; database_set_options d opts
  end.

Definition new_database_with_opts (opts : list (OptionDatabase * OptionValue)) : res Error MonetdbDatabase :=
  database_set_options database_new opts.

Definition new_database : res Error MonetdbDatabase := new_database_with_opts [].

(** The text a tuning option has before it is set; [None] where the code is
    unreachable. *)
Definition tuning_default (name : bytes) : option bytes :=
  if is_key name READ_WINDOW_BYTES_OPTION then Some (str "0")
  else if is_key name WRITE_WINDOW_BYTES_OPTION then Some (str "0")
  else if is_key name INGEST_INSERT_ROWS_OPTION then Some (str "100")
  else if is_key name PREPARED_CACHE_CAPACITY_OPTION then Some (fmt_int DEFAULT_PREPARED_CACHE_CAPACITY)
  else if is_key name PREPARE_THRESHOLD_OPTION then Some (fmt_int DEFAULT_PREPARE_THRESHOLD)
  else if is_key name WIRE_COMPRESSION_OPTION then Some (str "auto")
  else if is_key name CONSTRAINED_APPEND_OPTION then Some (str "auto")
  else None.

Definition database_uri_key (name : bytes) : option bytes :=
  match timeout_uri_key <$> timeout_from_key name with
  | Some key => Some key
  | None =>
      match client_info_uri_key <$> client_info_from_key name with
      | Some key => Some key
      | None => tuning_uri_key name
      end
  end.

(** What the URI says of an option that was not set. *)
Definition uri_option (d : MonetdbDatabase) (name : bytes) : res Error (option bytes) :=
  match database_uri_key name, optional_string (database_options d) name_uri with
  | Some key, Some uri =>
      parsed ← parse_driver_uri uri;
      Ok (snd <$> last (filter (λ pair, pair.1 = key) (query_pairs parsed)))
  | _, _ => Ok None
  end.

Definition database_stored_string (d : MonetdbDatabase) (key : OptionDatabase) : res Error bytes :=
  value ← get_string (database_options d) (database_key key);
  if bool_decide (key = OdUri) then uri_without_userinfo value else Ok value.

Definition database_get_option_string (d : MonetdbDatabase) (key : OptionDatabase) : res Error bytes :=
  match key, database_options d !! database_key key with
  | OdPassword, _ => Err (error "password credentials cannot be read back" NotImplemented)
  | OdOther name, None =>
      from_uri ← uri_option d name;
      match from_uri with
      | Some value => Ok value
      | None =>
          match client_info_from_key name with
          | Some option => Ok (client_info_default option)
          | None =>
              match tuning_uri_key name with
              | Some _ => or_panic (tuning_default name)
              | None => database_stored_string d key
              end
          end
      end
  | _, _ => database_stored_string d key
  end.
Definition database_get_option_bytes (d : MonetdbDatabase) (key : OptionDatabase) : res Error bytes :=
  get_bytes (database_options d) (database_key key).
Definition database_get_option_int (d : MonetdbDatabase) (key : OptionDatabase) : res Error Z :=
  get_int (database_options d) (database_key key).
Definition database_get_option_double (d : MonetdbDatabase) (key : OptionDatabase) : res Error Z :=
  get_double (database_options d) (database_key key).
End databases.

(** ** Connections *)

Record MonetdbConnection : Type := mkMonetdbConnection {
  conn_tuning : Tuning;
  conn_round_trip : Z;
  conn_options : Options;
  conn_version : Z * Z * Z;
  conn_catalog : bytes;
}.

Definition store_connection (c : MonetdbConnection) (key : bytes) (value : OptionValue) : MonetdbConnection :=
  mkMonetdbConnection (conn_tuning c) (conn_round_trip c) (<[key := value]> (conn_options c)) (conn_version c)
    (conn_catalog c).
Definition with_conn_tuning (c : MonetdbConnection) (t : Tuning) : MonetdbConnection :=
  mkMonetdbConnection t (conn_round_trip c) (conn_options c) (conn_version c) (conn_catalog c).

(** A connection with what it shares. *)
Record Conn (db : Type) : Type := mkConn { conn : MonetdbConnection; inner : Driver db }.
Arguments mkConn {db}. Arguments conn {db}. Arguments inner {db}.

Definition cx (db A : Type) : Type := Conn db → res Error A * Conn db.

#[global] Instance cx_ret db : MRet (cx db) := λ A a s, (Ok a, s).
#[global] Instance cx_bind db : MBind (cx db) := λ A B f m s,
  match m s with
  | (Ok a, s) => f a s
  | (Err e, s) => (Err e, s)
  | (Panic, s) => (Panic, s)
  end.

Definition pure_cx {db A} (r : res Error A) : cx db A := λ s, (r, s).
Definition on_inner {db A} (m : dx db A) : cx db A := λ s, let '(r, d) := m (inner s) in (r, mkConn (conn s) d).
Definition get_conn {db} : cx db MonetdbConnection := λ s, (Ok (conn s), s).
Definition on_conn {db} (f : MonetdbConnection → MonetdbConnection) : cx db unit := λ s,
  (Ok tt, mkConn (f (conn s)) (inner s)).

(** The client library's connection: the parameters it is given, how it is made
    and what it knows of the server. *)
Inductive ParmSetting : Type :=
| SetUser (value : bytes) | SetPassword (value : bytes)
| SetConnectTimeout (seconds : Z) | SetReadTimeout (seconds : Z) | SetWriteTimeout (seconds : Z)
| SetOperationTimeout (seconds : Z)
| SetClientApplication (value : bytes) | SetClientRemark (value : bytes) | SetClientInfo (value : bytes)
| SetReplysize (rows : Z) | SetBinary (value : bytes) | SetAutocommit (enabled : bool) | SetTimezone (seconds : Z)
| SetClientPrefix (value : bytes).

Inductive ConnectError : Type :=
| ConnRejected (text : bytes) | ConnTimeout | ConnIO (text : bytes)
| ConnSocketAttempts (unix : bytes) (tcp : ConnectError)
| ConnUtf | ConnInvalidChallenge | ConnUnsupportedHashAlgo | ConnTlsDowngrade | ConnUnexpectedResponse
| ConnTooManyRedirects | ConnTlsNotSupported | ConnUnixDomain | ConnParm | ConnTlsError | ConnOnlySqlSupported.

Fixpoint connect_error_status (value : ConnectError) : Status :=
  match value with
  | ConnRejected _ => Unauthenticated
  | ConnTimeout => Timeout
  | ConnIO _ => IO
  | ConnSocketAttempts _ tcp => connect_error_status tcp
  | ConnUtf | ConnInvalidChallenge | ConnUnsupportedHashAlgo | ConnTlsDowngrade | ConnUnexpectedResponse => InvalidData
  | ConnTooManyRedirects => IO
  | ConnTlsNotSupported | ConnUnixDomain => NotImplemented
  | ConnParm | ConnTlsError | ConnOnlySqlSupported => InvalidArguments
  end.

Class Client (db : Type) := {
  parameters : Type;
  from_url : bytes → res bytes parameters;
  set_parm : parameters → ParmSetting → res bytes parameters;
  parm_database : parameters → res bytes bytes;
  (** [validate]: the connect timeout and the others. *)
  parm_timeouts : parameters → res bytes (option Z * Timeouts);
  (** [Connection::new]; [Panic] is what [catch_unwind] sees. *)
  connect : parameters → res ConnectError db;
  connect_error_text : ConnectError → bytes;
  little_endian : db → bool;
  binary_level : db → Z;
  (** [metadata_with_timeouts(_).version()]. *)
  server_version : db → Timeouts → res CursorError (Z * Z * Z) * db;
  (** [Instant::checked_add]. *)
  instant_checked_add : Z → Z → option Z;
  package_version : bytes;
}.

Definition MINIMUM_VERSION : Z * Z * Z := (11, 55, 9).
Definition INLINE_REPLY_ROWS : Z := 100.

(** The order of tuples. *)
Definition version_lt (a b : Z * Z * Z) : bool :=
  let '(a1, a2, a3) := a in let '(b1, b2, b3) := b in
  (a1 <? b1) || ((a1 =? b1) && ((a2 <? b2) || ((a2 =? b2) && (a3 <? b3)))).

(** The instants the opening of a connection reads. *)
Record Clock : Type := mkClock {
  initialization_started : Z;
  metadata_began : Z;
  metadata_started : Z;
  metadata_ended : Z;
  schema_began : Z;
  schema_started : Z;
  schema_ended : Z;
}.

Section connections.
Context {db : Type} `{!Server db, CursorDisplay, Unicode, OptionNames, Urls, ClientLimits}.
(** The reader of a scalar query, and its first batch. *)
Context {reader : Type} (open_scalar : Reply → res Error reader) (next_batch : reader → option (res Error RecordBatch)).

Definition scalar_value (batch : RecordBatch) : res Error bytes :=
  column ← or_panic (batch_columns batch !! 0%nat);
  match column with
  | ABytes DUtf8 values =>
      value ← or_panic (values !! 0%nat);
      ok_or value (error "scalar query returned NULL" Internal)
  | _ => Err (error "scalar query did not return a string" Internal)
  end.

Definition scalar_string (query : bytes) : tx db bytes :=
  reader ← query_result open_scalar query;
  batch ← lift (match next_batch reader with
                | Some batch => batch
                | None => Err (error "scalar query returned no rows" Internal)
                end);
  lift (scalar_value batch).

Definition current_schema_query : bytes :=
  str "SELECT current_schema AS " ++ [34] ++ str "__adbc_current_schema" ++ [34].

Definition cache_set_capacity (capacity : Z) : dx db unit :=
  with_cache (λ c, c ← set_capacity c (Z.to_nat capacity); Ok (tt, c)).

(** The options only a connection has. *)
Definition connection_set_other (key : OptionConnection) (value : OptionValue) : cx db unit :=
  let store := λ value, on_conn (λ c, store_connection c (connection_key key) value) in
  match key with
  | OcAutoCommit =>
      enabled ← pure_cx (option_bool value);
      _ ← on_inner (on_session (set_autocommit_option enabled));
      store (OString (bool_text enabled))
  | OcCurrentSchema =>
      match value with
      | OString schema =>
          name ← pure_cx (quote_identifier schema);
          _ ← on_inner (on_session (execute_update (str "SET SCHEMA " ++ name)));
          _ ← on_inner invalidate_prepared_cache;
          store value
      | _ => pure_cx (Err (error "current schema must be a string" InvalidArguments))
      end
  | OcReadOnly =>
      enabled ← pure_cx (option_bool value);
      if (enabled : bool) then pure_cx (Err (not_implemented (str "read-only connections"))) else store (OString (str "false"))
  | OcIsolationLevel | OcCurrentCatalog | OcOther _ => pure_cx (Err (not_implemented (connection_key key)))
  end.

Definition connection_set_option (key : OptionConnection) (value : OptionValue) : cx db unit :=
  c ← get_conn;
  match set_tuning (conn_tuning c) (connection_key key) value with
  | Some result =>
      '(tuning, stored) ← pure_cx result;
      on_conn (λ c, store_connection (with_conn_tuning c tuning) (connection_key key) stored)
  | None =>
      if is_key (connection_key key) PREPARED_CACHE_CAPACITY_OPTION then
        capacity ← pure_cx (positive_capacity value);
        _ ← on_inner (cache_set_capacity capacity);
        on_conn (λ c, store_connection c (connection_key key) value)
      else connection_set_other key value
  end.

Definition connection_get_option_string (key : OptionConnection) : cx db bytes :=
  c ← get_conn;
  match key with
  | OcAutoCommit =>
      enabled ← on_inner (on_session (_ ← lock_connection; get_autocommit));
      mret (bool_text enabled)
  | OcCurrentSchema => on_inner (on_session (scalar_string current_schema_query))
  | _ =>
      match tuning_string (conn_tuning c) (connection_key key) with
      | Some value => mret value
      | None =>
          if is_key (connection_key key) PREPARED_CACHE_CAPACITY_OPTION then
            d ← on_inner get_driver; mret (fmt_int (Z.of_nat (capacity (prepared_cache d))))
          else pure_cx (get_string (conn_options c) (connection_key key))
      end
  end.
Definition connection_get_option_bytes (key : OptionConnection) : cx db bytes :=
  c ← get_conn; pure_cx (get_bytes (conn_options c) (connection_key key)).
Definition connection_get_option_int (key : OptionConnection) : cx db Z :=
  c ← get_conn;
  match tuning_int (conn_tuning c) (connection_key key) with
  | Some value => pure_cx value
  | None =>
      if is_key (connection_key key) PREPARED_CACHE_CAPACITY_OPTION then
        d ← on_inner get_driver;
        pure_cx (i64_of (Z.of_nat (capacity (prepared_cache d))) "prepared_cache_capacity")
      else pure_cx (get_int (conn_options c) (connection_key key))
  end.
Definition connection_get_option_double (key : OptionConnection) : cx db Z :=
  c ← get_conn; pure_cx (get_double (conn_options c) (connection_key key)).

Fixpoint connection_set_options (opts : list (OptionConnection * OptionValue)) : cx db unit :=
  match opts with
  | [] => mret tt
  | (key, value) :: opts => _ ← connection_set_option key value; connection_set_options opts
  end.

(** ** Opening a connection *)

Context `{!Client db}.

Definition apply_parm (p : parameters) (setting : ParmSetting) : res Error parameters :=
  map_err invalid_argument (set_parm p setting).

Fixpoint apply_parms (p : parameters) (settings : list ParmSetting) : res Error parameters :=
  match settings with
  | [] => Ok p
  | setting :: settings => p ← apply_parm p setting; apply_parms p settings
  end.

Definition apply_parameter_timeout (p : parameters) (timeout : TimeoutOption) (key : bytes) (value : OptionValue)
    : res Error parameters :=
  seconds ← timeout_seconds key value;
  apply_parm p (match timeout with
                | TimeoutConnect => SetConnectTimeout seconds
                | TimeoutRead => SetReadTimeout seconds
                | TimeoutWrite => SetWriteTimeout seconds
                | TimeoutOperation => SetOperationTimeout seconds
                end).

Definition client_info_apply (o : ClientInfoOption) (p : parameters) (value : OptionValue) : res Error parameters :=
  match value with
  | OString value =>
      apply_parm p (match o with
                    | ClientApplication => SetClientApplication value
                    | ClientRemark => SetClientRemark value
                    | ClientEnabled => SetClientInfo value
                    end)
  | _ => Err (error "validated client-info option is not a string" Internal)
  end.

Fixpoint database_timeouts (options : Options) (p : parameters) (keys : list (bytes * TimeoutOption)) : res Error parameters :=
  match keys with
  | [] => Ok p
  | (key, timeout) :: keys =>
      p ← match options !! key with
          | Some value => apply_parameter_timeout p timeout key value
          | None => Ok p
          end;
      database_timeouts options p keys
  end.

Fixpoint database_client_info (options : Options) (p : parameters) (keys : list (bytes * ClientInfoOption))
    : res Error parameters :=
  match keys with
  | [] => Ok p
  | (key, option) :: keys =>
      p ← match options !! key with
          | Some value => client_info_apply option p value
          | None => Ok p
          end;
      database_client_info options p keys
  end.

(** The options of the call that are parameters of the client library. *)
Fixpoint connection_parms (p : parameters) (opts : list (OptionConnection * OptionValue)) : res Error parameters :=
  match opts with
  | [] => Ok p
  | (OcOther name, value) :: opts =>
      p ← match timeout_from_key name with
          | Some TimeoutConnect => Err (database_only name)
          | Some timeout => apply_parameter_timeout p timeout name value
          | None => Ok p
          end;
      match client_info_from_key name with
      | Some _ => Err (database_only name)
      | None => connection_parms p opts
      end
  | _ :: opts => connection_parms p opts
  end.

(** The query of a URI: the driver's own options, and the rest. *)
Fixpoint split_query (pairs : list (bytes * bytes)) : list (OptionConnection * OptionValue) * list (bytes * bytes) :=
  match pairs with
  | [] => ([], [])
  | (key, value) :: pairs =>
      let '(tuning, server) := split_query pairs in
      match tuning_option_from_uri_key key with
      | Some option => ((OcOther option, OString value) :: tuning, server)
      | None => (tuning, (key, value) :: server)
      end
  end.

(** The URI without its credentials and the driver's own options, and the
    credentials and options it had. *)
Record ParsedUri : Type := mkParsedUri {
  uri_username : option bytes;
  uri_password : option bytes;
  uri_tuning_options : list (OptionConnection * OptionValue);
  server_uri : bytes;
}.

(** [map(decode_userinfo).transpose()]. *)
Definition decode_optional (value : option bytes) : res Error (option bytes) :=
  match value with
  | Some value => value ← decode_userinfo value; Ok (Some value)
  | None => Ok None
  end.

Definition non_empty_username (parsed : url) : option bytes :=
  if bool_decide (url_username parsed = []) then None else Some (url_username parsed).

Definition strip_userinfo (parsed : url) : res Error url :=
  parsed ← (if bool_decide (url_username parsed = []) then Ok parsed
            else ok_or (set_username parsed []) userinfo_error);
  match url_password parsed with
  | Some _ => ok_or (set_password parsed None) userinfo_error
  | None => Ok parsed
  end.

Definition parse_connection_uri (uri : bytes) : res Error ParsedUri :=
  parsed ← parse_driver_uri uri;
  username ← decode_optional (non_empty_username parsed);
  password ← decode_optional (url_password parsed);
  parsed ← strip_userinfo parsed;
  let '(tuning, server_query) := split_query (query_pairs parsed) in
  Ok (mkParsedUri username password tuning (url_text (set_query_pairs parsed server_query))).

(** [a.or(b)]. *)
Definition first_of {A} (a b : option A) : option A := match a with Some _ => a | None => b end.

Definition optional_setting (setting : bytes → ParmSetting) (value : option bytes) : list ParmSetting :=
  match value with Some value => [setting value] | None => [] end.

(** The parameters of the client library, up to the driver's own settings. *)
Definition connection_parameters (options : Options) (uri : ParsedUri) (opts : list (OptionConnection * OptionValue))
    : res Error parameters :=
  p ← map_err invalid_argument (from_url (server_uri uri));
  p ← apply_parms p (optional_setting SetUser (first_of (optional_string options name_username) (uri_username uri)));
  p ← apply_parms p (optional_setting SetPassword (first_of (optional_string options name_password) (uri_password uri)));
  p ← database_timeouts options p
    [(CONNECT_TIMEOUT_OPTION, TimeoutConnect); (READ_TIMEOUT_OPTION, TimeoutRead);
     (WRITE_TIMEOUT_OPTION, TimeoutWrite); (OPERATION_TIMEOUT_OPTION, TimeoutOperation)];
  p ← database_client_info options p
    [(CLIENT_APPLICATION_OPTION, ClientApplication); (CLIENT_REMARK_OPTION, ClientRemark);
     (CLIENT_INFO_OPTION, ClientEnabled)];
  p ← connection_parms p opts;
  apply_parms p
    [SetReplysize INLINE_REPLY_ROWS; SetBinary (str "on"); SetAutocommit true; SetTimezone 0;
     SetClientPrefix (str "adbc_driver_monetdb " ++ package_version)].

Definition configured_timeouts (p : parameters) : res Error (option Z * Timeouts) :=
  map_err invalid_argument (parm_timeouts p).

Definition initialization_deadline (clock : Clock) (connect_timeout : option Z) : res Error (option Z) :=
  match connect_timeout with
  | None => Ok None
  | Some timeout =>
      deadline ← ok_or (instant_checked_add (initialization_started clock) timeout)
        (error "connection timeout is too large to represent" InvalidArguments);
      Ok (Some deadline)
  end.

Definition open_server (p : parameters) : res Error db :=
  match connect p with
  | Ok d => Ok d
  | Err e => Err (mkError (connect_error_text e) (connect_error_status e))
  | Panic => Err (error "MonetDB connection initialization panicked" Internal)
  end.

Definition version_text (version : Z * Z * Z) : bytes :=
  let '(a, b, c) := version in fmt_int a ++ [46] ++ fmt_int b ++ [46] ++ fmt_int c.

Definition check_version (version : Z * Z * Z) : res Error unit :=
  if version_lt version MINIMUM_VERSION then
    Err (mkError (str "MonetDB " ++ version_text version
                  ++ str " is unsupported; Dec2025-SP4 (11.55.9) or newer is required") NotImplemented)
  else Ok tt.

Definition check_server (d : db) : res Error unit :=
  _ ← map_err map_cursor_error (server_autocommit d);
  if negb (little_endian d) then
    Err (error "adbc-monetdb supports only little-endian MonetDB servers" NotImplemented)
  else if binary_level d <? 1 then
    Err (error "MonetDB server does not advertise BINARY=1; Dec2025-SP4 (11.55.9) or newer is required" NotImplemented)
  else Ok tt.

(** The options a database hands to its connections. *)
Definition database_tuning (options : Options) : list (OptionConnection * OptionValue) :=
  omap (λ key, (λ value, (OcOther key, value)) <$> options !! key)
    [READ_WINDOW_BYTES_OPTION; WRITE_WINDOW_BYTES_OPTION; INGEST_INSERT_ROWS_OPTION; PREPARED_CACHE_CAPACITY_OPTION;
     PREPARE_THRESHOLD_OPTION; WIRE_COMPRESSION_OPTION; CONSTRAINED_APPEND_OPTION].

Definition initial_options (catalog current_schema : bytes) (timeouts : Timeouts) : Options :=
  store_runtime_timeouts
    (<[name_read_only := OString (str "false")]> (<[name_autocommit := OString (str "true")]>
      (<[name_current_schema := OString current_schema]> (<[name_current_catalog := OString catalog]> ∅)))) timeouts.

Definition new_driver (d : db) : res Error (Driver db) :=
  cache ← cache_new (Z.to_nat DEFAULT_PREPARED_CACHE_CAPACITY);
  Ok (mkDriver (mkSession connection_new d 0 []) cache [] []).

(** The connection before any option is set, its server checked. *)
Definition open_connection (clock : Clock) (p : parameters) : res Error (Conn db) :=
  catalog ← map_err invalid_argument (parm_database p);
  '(connect_timeout, timeouts) ← configured_timeouts p;
  deadline ← initialization_deadline clock connect_timeout;
  d ← open_server p;
  _ ← check_server d;
  metadata_timeouts ← initialization_timeouts timeouts deadline (metadata_began clock);
  let '(version, d) := server_version d metadata_timeouts in
  version ← map_err map_cursor_error version;
  _ ← check_version version;
  driver ← new_driver d;
  _ ← initialization_timeouts timeouts deadline (schema_began clock);
  let '(current_schema, driver) := on_session (scalar_string current_schema_query) driver in
  current_schema ← current_schema;
  let round_trip := Z.min (metadata_ended clock - metadata_started clock) (schema_ended clock - schema_started clock) in
  Ok (mkConn (mkMonetdbConnection (default_tuning timeouts) round_trip (initial_options catalog current_schema timeouts)
                version catalog) driver).

(** The options in the order they are set: the URI's, the database's, the call's. *)
Definition initial_settings (d : MonetdbDatabase) (uri : ParsedUri) (opts : list (OptionConnection * OptionValue))
    : list (OptionConnection * OptionValue) :=
  uri_tuning_options uri ++ database_tuning (database_options d) ++ opts.

Definition new_connection_with_opts (clock : Clock) (d : MonetdbDatabase) (opts : list (OptionConnection * OptionValue))
    : res Error (Conn db) :=
  uri ← ok_or (optional_string (database_options d) name_uri) (error "database option 'uri' is required" InvalidArguments);
  uri ← parse_connection_uri uri;
  p ← connection_parameters (database_options d) uri opts;
  c ← open_connection clock p;
  let '(result, c) := connection_set_options (initial_settings d uri opts) c in
  _ ← result;
  Ok c.

Definition new_connection (clock : Clock) (d : MonetdbDatabase) : res Error (Conn db) := new_connection_with_opts clock d [].

(** [cancel] of a connection or a statement: [cancelled] is what the client
    library's handle says. *)
Definition cancel (cancelled : res CursorError unit) : res Error unit := map_err map_cursor_error cancelled.
End connections.

(** What the driver does not support. *)
Definition get_statistic_names {reader : Type} : res Error reader := Err (not_implemented (str "get_statistic_names")).
Definition get_statistics {reader : Type} : res Error reader := Err (not_implemented (str "get_statistics")).
Definition read_partition {reader : Type} : res Error reader := Err (not_implemented (str "partitioned results")).
Definition set_substrait_plan (plan : bytes) : res Error unit := Err (not_implemented (str "Substrait plans")).

(** ** Statements *)

(** A statement with its options.  The fields of [MonetdbStatement] that options
    decide (the target table, the threshold, binding by name) are read from the
    options by [core_statement]. *)
Record OptionedStatement : Type := mkOptioned {
  os_core : MonetdbStatement;
  os_tuning : Tuning;
  os_options : Options;
  os_bind_by_name : bool;
  os_round_trip : Z;
  (** The JSON of the last ingest and the last read. *)
  os_ingest_stats : option bytes;
  os_read_stats : option bytes;
}.

Definition store_statement (st : OptionedStatement) (key : bytes) (value : OptionValue) : OptionedStatement :=
  mkOptioned (os_core st) (os_tuning st) (<[key := value]> (os_options st)) (os_bind_by_name st) (os_round_trip st)
    (os_ingest_stats st) (os_read_stats st).
Definition with_os_tuning (st : OptionedStatement) (t : Tuning) : OptionedStatement :=
  mkOptioned (os_core st) t (os_options st) (os_bind_by_name st) (os_round_trip st) (os_ingest_stats st) (os_read_stats st).
Definition with_bind_by_name (st : OptionedStatement) (b : bool) : OptionedStatement :=
  mkOptioned (os_core st) (os_tuning st) (os_options st) b (os_round_trip st) (os_ingest_stats st) (os_read_stats st).

Section statement_options.
Context `{OptionNames, ClientLimits}.

Definition core_statement (st : OptionedStatement) : MonetdbStatement :=
  let c := os_core st in
  mkStatement (st_query c) (optional_string (os_options st) name_target_table) (prepare_threshold (os_tuning st))
    (os_bind_by_name st) (st_bound c) (st_prepared c) (st_prepared_entry c) (st_literal_fallback c)
    (st_deferred_template c) (st_parameter_schema c) (st_result_schema c) (st_prepare_status c).

Definition new_statement (c : MonetdbConnection) : OptionedStatement :=
  let t := conn_tuning c in
  mkOptioned (mkStatement None None (prepare_threshold t) false None false None None None None None None) t
    (store_runtime_timeouts ∅ (timeouts t)) false (conn_round_trip c) None None.

Definition ingest_modes : list bytes :=
  str <$> ["adbc.ingest.mode.create"; "adbc.ingest.mode.append"; "adbc.ingest.mode.replace";
           "adbc.ingest.mode.create_append"]%string.

Definition read_only (key : bytes) : Error := option_error key "is read-only".

(** The checks of the standard options. *)
Definition check_statement_option (key : OptionStatement) (value : OptionValue) : res Error unit :=
  let name := statement_key key in
  match key with
  | OsIngestMode =>
      match value with
      | OString mode =>
          if bool_decide (mode ∈ ingest_modes) then Ok tt
          else Err (mkError (str "unknown ingest mode '" ++ mode ++ [39]) InvalidArguments)
      | _ => Err (error "ingest mode must be a string" InvalidArguments)
      end
  | OsTargetTable | OsTargetDbSchema =>
      match value with
      | OString [] => Err (mkError (name ++ str " must not be empty") InvalidArguments)
      | OString _ => Ok tt
      | _ => Err (mkError (name ++ str " must be a string") InvalidArguments)
      end
  | OsTemporary => _ ← option_bool value; Ok tt
  | OsTargetCatalog => Err (not_implemented (str "ingest target catalogs"))
  | OsIncremental => Err (not_implemented (str "incremental execution"))
  | OsProgress | OsMaxProgress => Err (read_only name)
  | OsOther _ => Err (not_implemented name)
  end.

Definition is_bind_by_name (name : bytes) : bool :=
  is_key name BIND_BY_NAME_OPTION || is_key name DRIVER_MANAGER_BIND_BY_NAME_OPTION.
Definition is_statistics (name : bytes) : bool :=
  is_key name INGEST_STATS_OPTION || is_key name READ_STATS_OPTION || is_key name PREPARE_STATUS_OPTION.

Definition statement_set_option (st : OptionedStatement) (key : OptionStatement) (value : OptionValue)
    : res Error OptionedStatement :=
  let name := statement_key key in
  match set_tuning (os_tuning st) name value with
  | Some result => '(tuning, stored) ← result; Ok (store_statement (with_os_tuning st tuning) name stored)
  | None =>
      if is_statistics name then Err (read_only name)
      else if is_bind_by_name name then
        b ← option_bool value; Ok (store_statement (with_bind_by_name st b) name value)
      else _ ← check_statement_option key value; Ok (store_statement st name value)
  end.

(** The statistics a statement reports. *)
Definition statistics_string (st : OptionedStatement) (name : bytes) : option (res Error bytes) :=
  if is_key name INGEST_STATS_OPTION then Some (ok_or (os_ingest_stats st) (unknown_option INGEST_STATS_OPTION))
  else if is_key name READ_STATS_OPTION then Some (ok_or (os_read_stats st) (unknown_option READ_STATS_OPTION))
  else if is_key name PREPARE_STATUS_OPTION then
    Some (ok_or (status_json <$> st_prepare_status (os_core st)) (unknown_option PREPARE_STATUS_OPTION))
  else None.

Definition statement_get_option_string (st : OptionedStatement) (key : OptionStatement) : res Error bytes :=
  let name := statement_key key in
  if is_bind_by_name name then Ok (bool_text (os_bind_by_name st))
  else
    match tuning_string (os_tuning st) name with
    | Some value => Ok value
    | None =>
        match statistics_string st name with
        | Some value => value
        | None =>
            match key with
            | OsIngestMode => Ok (default (str "adbc.ingest.mode.create") (optional_string (os_options st) name))
            | OsTemporary => Ok (default (str "false") (optional_string (os_options st) name))
            | _ => get_string (os_options st) name
            end
        end
    end.
Definition statement_get_option_bytes (st : OptionedStatement) (key : OptionStatement) : res Error bytes :=
  get_bytes (os_options st) (statement_key key).
Definition statement_get_option_int (st : OptionedStatement) (key : OptionStatement) : res Error Z :=
  match tuning_int (os_tuning st) (statement_key key) with
  | Some value => value
  | None => get_int (os_options st) (statement_key key)
  end.
Definition statement_get_option_double (st : OptionedStatement) (key : OptionStatement) : res Error Z :=
  match key with
  | OsProgress | OsMaxProgress => Err (not_implemented (str "statement progress reporting"))
  | _ => get_double (os_options st) (statement_key key)
  end.

(** [set_sql_query], with the ingest options it removes. *)
Definition set_query (st : OptionedStatement) (query : bytes) : OptionedStatement :=
  mkOptioned (set_sql_query (os_core st) query) (os_tuning st)
    (foldl (λ (options : Options) (key : OptionStatement), delete (statement_key key) options) (os_options st)
       [OsIngestMode; OsTargetCatalog; OsTargetDbSchema; OsTargetTable; OsTemporary])
    (os_bind_by_name st) (os_round_trip st) (os_ingest_stats st) (os_read_stats st).
End statement_options.
