(* ===== verification/ConnectionProofs.v ===== *)
(** Databases, connections and statements: options read back as they were set,
    the last setting wins, no setting breaks what the driver relies on, and no
    getter gives a password away. *)

From stdpp Require Import base list numbers strings gmap.
From S2P Require Import Prelude RustStd Types ArrowData Errors Compression SqlScan Template PreparedCache PreparedCacheProofs ReadPath Ingest StreamProofs Transactions TransactionsProofs ParameterBatch Statement Options OptionsProofs Connection.
Local Open Scope Z_scope.

(** ** Names *)

(** The driver's own options have names the standard options do not have. *)
Definition driver_options : list bytes :=
  [READ_BATCH_ROWS_OPTION; READ_WINDOW_BYTES_OPTION; READ_PREFETCH_OPTION; WRITE_BATCH_ROWS_OPTION;
   WRITE_WINDOW_BYTES_OPTION; INGEST_INSERT_ROWS_OPTION; PREPARED_CACHE_CAPACITY_OPTION; PREPARE_THRESHOLD_OPTION;
   WIRE_COMPRESSION_OPTION; INGEST_PARTIAL_OPTION; INGEST_ATOMICITY_OPTION; CONSTRAINED_APPEND_OPTION;
   INGEST_STATS_OPTION; READ_STATS_OPTION; PREPARE_STATUS_OPTION; BIND_BY_NAME_OPTION;
   DRIVER_MANAGER_BIND_BY_NAME_OPTION; CONNECT_TIMEOUT_OPTION; READ_TIMEOUT_OPTION; WRITE_TIMEOUT_OPTION;
   OPERATION_TIMEOUT_OPTION; CLIENT_APPLICATION_OPTION; CLIENT_REMARK_OPTION; CLIENT_INFO_OPTION].

Class OptionNamesOk `{OptionNames} : Prop := {
  statement_name_ok key : statement_key key ∈ driver_options → ∃ name, key = OsOther name;
  database_name_ok key : database_key key ∈ driver_options → ∃ name, key = OdOther name;
  database_names_differ : NoDup [name_uri; name_username; name_password];
}.

(** ** Statements *)

Section statement_options.
Context `{OptionNames, !OptionNamesOk, ClientLimits}.

Lemma set_tuning_driver t name value r : set_tuning t name value = Some r → name ∈ driver_options.
Proof.
  unfold set_tuning, timeout_from_key, is_key.
  repeat case_bool_decide; try done; intros _; subst name; apply (bool_decide_unpack _); by vm_compute.
Qed.

(** A key whose name is a tuning option is no standard key. *)
Lemma tuning_key_other t key value r : set_tuning t (statement_key key) value = Some r → ∃ name, key = OsOther name.
Proof. intros Hs%set_tuning_driver. by apply statement_name_ok. Qed.

Lemma set_tuning_not_statistics t name value r : set_tuning t name value = Some r → is_statistics name = false.
Proof.
  unfold set_tuning, timeout_from_key, is_key. repeat case_bool_decide; try done; intros _; subst name; by vm_compute.
Qed.

Lemma not_statistics_string st name : is_statistics name = false → statistics_string st name = None.
Proof. unfold is_statistics, statistics_string. by do 3 destruct (is_key _ _). Qed.

Lemma optional_string_get options key text : optional_string options key = Some text ↔ options !! key = Some (OString text).
Proof. unfold optional_string. destruct (options !! key) as [[]|]; naive_solver. Qed.

Lemma get_string_ok options key text : get_string options key = Ok text ↔ options !! key = Some (OString text).
Proof. unfold get_string. destruct (options !! key) as [[]|]; naive_solver. Qed.

Lemma store_same st key value : os_options st !! key = Some value → store_statement st key value = st.
Proof. intros Hv. destruct st. unfold store_statement. f_equal. by apply insert_id. Qed.

(** The names of the bind options and the statistics are no tuning options. *)
Lemma bind_by_name_other t name : is_bind_by_name name = true → tuning_string t name = None ∧ ∀ v, set_tuning t name v = None.
Proof. unfold is_bind_by_name, is_key. intros [Hk|Hk]%orb_prop; apply bool_decide_eq_true in Hk as ->; by split. Qed.

Lemma bind_not_statistics name : is_bind_by_name name = true → is_statistics name = false.
Proof. unfold is_bind_by_name, is_key. intros [Hk|Hk]%orb_prop; apply bool_decide_eq_true in Hk as ->; by vm_compute. Qed.

Lemma set_tuning_not_bind t name value r : set_tuning t name value = Some r → is_bind_by_name name = false.
Proof.
  intros Hs. destruct (is_bind_by_name name) eqn:Hb; [|done]. apply (bind_by_name_other t) in Hb as [_ Hb]. by rewrite Hb in Hs.
Qed.

Lemma tuning_string_none t t' name : tuning_string t name = None → tuning_string t' name = None.
Proof. unfold tuning_string, is_key. by repeat case_bool_decide. Qed.

Lemma set_tuning_none t t' name value value' : set_tuning t name value = None → set_tuning t' name value' = None.
Proof. unfold set_tuning, is_key. destruct (timeout_from_key name); [done|]. by repeat case_bool_decide. Qed.

Lemma set_tuning_reads t name value : set_tuning t name value = None → tuning_string t name = None.
Proof. unfold set_tuning, tuning_string, is_key. destruct (timeout_from_key name); [done|]. by repeat case_bool_decide. Qed.

(** A stored string sets again to what it set before. *)
Lemma set_tuning_again t name text t' stored :
  set_tuning t name (OString text) = Some (Ok (t', stored)) →
  timeout_from_key name ≠ None → stored = OString text ∧ set_tuning t' name (OString text) = Some (Ok (t', OString text)).
Proof.
  intros Hs%set_tuning_step Ht. destruct Hs; try done. split; [done|]. apply tuning_step_set.
  change (with_timeouts t x) with (with_timeouts (with_timeouts t x) x) at 2. eapply step_timeout; [done|].
  unfold set_runtime_timeout in *. destruct (timeout_seconds key _) as [s| |]; [|done..]. cbn [mbind res_bind] in *.
  by destruct timeout; simplify_eq/=.
Qed.

(** Setting a text changes nothing that can be read. *)
Definition statement_set_again (st : OptionedStatement) (key : OptionStatement) (text : bytes) : Prop :=
  ∃ st', statement_set_option st key (OString text) = Ok st' ∧
    os_tuning st' = os_tuning st ∧ os_bind_by_name st' = os_bind_by_name st ∧
    ∀ key', statement_get_option_string st' key' = statement_get_option_string st key'.

(** The options a getter reads from the map. *)
Definition stored_only (st : OptionedStatement) (key : OptionStatement) : Prop :=
  is_bind_by_name (statement_key key) = false ∧ tuning_string (os_tuning st) (statement_key key) = None ∧
  statistics_string st (statement_key key) = None.

Lemma get_stored st key value text :
  stored_only st key → os_options st !! statement_key key = Some value →
  statement_get_option_string st key = Ok text → (∀ s, value = OString s → value = OString text) ∧
    (key ≠ OsIngestMode → key ≠ OsTemporary → value = OString text).
Proof.
  intros (Hs1 & Hs2 & Hs3) Hv. unfold statement_get_option_string. rewrite Hs1, Hs2, Hs3. intros Hg. split.
  - intros s ->. destruct key; try (apply get_string_ok in Hg; congruence);
      rewrite (proj2 (optional_string_get _ _ _) Hv) in Hg; cbn in Hg; congruence.
  - intros Hm Ht. destruct key; try done; apply get_string_ok in Hg; congruence.
Qed.

(** Storing under the name of a tuning option is not seen by the getters. *)
Lemma tuning_store_unseen st name value text key :
  tuning_string (os_tuning st) name = Some text →
  statement_get_option_string (store_statement st name value) key = statement_get_option_string st key.
Proof.
  intros Ht. unfold statement_get_option_string. cbn [store_statement os_tuning os_bind_by_name os_options].
  destruct (decide (statement_key key = name)) as [->|Hne]; [by rewrite Ht|].
  assert (∀ options : Options, (<[name:=value]> options) !! statement_key key = options !! statement_key key) as Hl
    by (intros; by rewrite lookup_insert_ne).
  unfold get_string, optional_string. by rewrite !Hl.
Qed.

Lemma tuning_option_again st key value tuning stored text :
  value_ok value → set_tuning (os_tuning st) (statement_key key) value = Some (Ok (tuning, stored)) →
  let st' := store_statement (with_os_tuning st tuning) (statement_key key) stored in
  statement_get_option_string st' key = Ok text → statement_set_again st' key text.
Proof.
  intros Hv Hs st' Hg. destruct (tuning_key_other _ _ _ _ Hs) as [name ->]. cbn [statement_key] in *.
  pose proof (set_tuning_not_bind _ _ _ _ Hs) as Hb. pose proof (set_tuning_not_statistics _ _ _ _ Hs) as Hn.
  unfold statement_get_option_string in Hg. cbn [statement_key] in Hg. rewrite Hb in Hg.
  destruct (tuning_string_step _ _ _ _ _ (set_tuning_step _ _ _ _ _ Hs)) as [[Ht Hnone]|(Ht & text' & Htext & Hagain)].
  - cbn [st' store_statement with_os_tuning os_tuning] in Hg. rewrite Hnone, not_statistics_string in Hg by done.
    apply get_string_ok in Hg. unfold st' in Hg. cbn [store_statement os_options] in Hg.
    rewrite lookup_insert_eq in Hg. injection Hg as ->.
    assert (value = OString text) as ->. { apply set_tuning_step in Hs. by destruct Hs. }
    destruct (set_tuning_again _ _ _ _ _ Hs Ht) as [_ Ha]. exists st'. split_and!; [|done..].
    unfold statement_set_option. cbn [statement_key st' store_statement with_os_tuning os_tuning]. rewrite Ha.
    cbn [mbind res_bind]. f_equal. unfold st', store_statement, with_os_tuning. cbn [os_core os_tuning os_options os_bind_by_name os_round_trip os_ingest_stats os_read_stats].
    by rewrite insert_insert_eq.
  - cbn [st' store_statement with_os_tuning os_tuning] in Hg. rewrite Htext in Hg. injection Hg as <-.
    destruct (Hagain Hv) as [stored' Ha%tuning_step_set]. exists (store_statement st' name stored'). split_and!.
    + unfold statement_set_option. cbn [statement_key st' store_statement with_os_tuning os_tuning]. by rewrite Ha.
    + done.
    + done.
    + intros key'. eapply tuning_store_unseen. exact Htext.
Qed.

Lemma bind_option_again st key b value :
  is_bind_by_name (statement_key key) = true →
  statement_set_again (store_statement (with_bind_by_name st b) (statement_key key) value) key (bool_text b).
Proof.
  intros Hb. eexists. split_and!.
  - unfold statement_set_option. rewrite (proj2 (bind_by_name_other _ _ Hb)).
    rewrite bind_not_statistics, Hb, option_bool_text by done. reflexivity.
  - done.
  - done.
  - intros key'. unfold statement_get_option_string. cbn [store_statement with_bind_by_name os_tuning os_bind_by_name os_options].
    destruct (decide (statement_key key' = statement_key key)) as [->|Hne]; [by rewrite Hb|].
    unfold get_string, optional_string. by rewrite !lookup_insert_ne by done.
Qed.

(** What reads back can be set: after any option of a statement was set, the
    text its getter returns is accepted, and setting it changes nothing: the
    tuning fields, binding by name and the text of every option stay the same. *)
Theorem statement_option_roundtrip st key value st' text :
  value_ok value → statement_set_option st key value = Ok st' → statement_get_option_string st' key = Ok text →
  ∃ st'', statement_set_option st' key (OString text) = Ok st'' ∧
    os_tuning st'' = os_tuning st' ∧ os_bind_by_name st'' = os_bind_by_name st' ∧
    ∀ key', statement_get_option_string st'' key' = statement_get_option_string st' key'.
Proof.
  intros Hv Hs Hg. unfold statement_set_option in Hs.
  destruct (set_tuning (os_tuning st) (statement_key key) value) as [r|] eqn:Ht.
  { destruct r as [[tuning stored]| |]; try done. cbn [mbind res_bind] in Hs. injection Hs as <-. by eapply tuning_option_again. }
  destruct (is_statistics (statement_key key)) eqn:Hst; [done|]. destruct (is_bind_by_name (statement_key key)) eqn:Hb.
  { destruct (option_bool value) as [b| |] eqn:Hbool; try done. cbn [mbind res_bind] in Hs. injection Hs as <-.
    unfold statement_get_option_string in Hg. rewrite Hb in Hg. cbn in Hg. injection Hg as <-. by apply bind_option_again. }
  destruct (check_statement_option key value) as [[]| |] eqn:Hc; try done. cbn [mbind res_bind] in Hs. injection Hs as <-.
  assert (value = OString text) as ->.
  { destruct (get_stored (store_statement st (statement_key key) value) key value text) as [Hs1 Hs2]; [| |done|].
    - split_and!; [done|by eapply set_tuning_reads|by apply not_statistics_string].
    - cbn [store_statement os_options]. apply lookup_insert_eq.
    - destruct key; try (by apply Hs2); destruct value; try done; by eapply Hs1. }
  exists (store_statement st (statement_key key) (OString text)). split_and!; [|done..]. unfold statement_set_option.
  rewrite (set_tuning_none (os_tuning st) _ _ (OString text)), Hst, Hb, Hc by done. cbn [mbind res_bind]. f_equal.
  apply store_same. cbn [store_statement os_options]. apply lookup_insert_eq.
Qed.
End statement_options.

Lemma timeout_not_capacity key : timeout_from_key key ≠ None → is_key key PREPARED_CACHE_CAPACITY_OPTION = false.
Proof. unfold timeout_from_key, is_key. repeat case_bool_decide; subst; done. Qed.
Lemma set_tuning_capacity `{ClientLimits} t value : set_tuning t PREPARED_CACHE_CAPACITY_OPTION value = None.
Proof. done. Qed.
Lemma tuning_string_capacity t : tuning_string t PREPARED_CACHE_CAPACITY_OPTION = None.
Proof. done. Qed.

(** ** Connections *)

Section connections.
Context {db : Type} `{!Server db, CursorDisplay, Unicode, OptionNames, Urls, ClientLimits}.

Definition cache_ok (c : PreparedCache) : Prop := ∃ l, represents c l.

(** What no option but its own changes. *)
Definition same_settings (s s' : Conn db) : Prop :=
  conn_tuning (conn s') = conn_tuning (conn s) ∧ capacity (prepared_cache (inner s')) = capacity (prepared_cache (inner s)) ∧
  (cache_ok (prepared_cache (inner s)) → cache_ok (prepared_cache (inner s'))).

#[global] Instance same_settings_preorder : PreOrder same_settings.
Proof.
  split; [by intros s|]. intros s1 s2 s3 (Ha1 & Ha2 & Ha3) (Hb1 & Hb2 & Hb3).
  split_and!; [congruence|congruence|auto].
Qed.

Definition keeps_settings {A} (m : cx db A) : Prop := ∀ s, same_settings s (m s).2.

Lemma keeps_pure {A} (r : res Error A) : keeps_settings (pure_cx r).
Proof. intros s. reflexivity. Qed.

Lemma settings_bind {A B} (m : cx db A) (f : A → cx db B) :
  keeps_settings m → (∀ a, keeps_settings (f a)) → keeps_settings (m ≫= f).
Proof.
  intros Hm Hf s. specialize (Hm s). unfold mbind, cx_bind. destruct (m s) as [[a|e|] s1]; [|done..].
  etransitivity; [exact Hm|apply Hf].
Qed.

Lemma keeps_session {A} (m : tx db A) : keeps_settings (on_inner (on_session m)).
Proof. intros s. unfold on_inner, on_session. destruct (m _) as [r d]. done. Qed.

Lemma keeps_store key value : keeps_settings (on_conn (λ c, store_connection c key value)).
Proof. intros s. done. Qed.

Lemma keeps_invalidate : keeps_settings (on_inner (db := db) invalidate_prepared_cache).
Proof. intros s. split_and!; [done..|]. intros [l Hl]. eexists. by eapply rep_clear. Qed.

Create HintDb settings.
Hint Resolve keeps_pure keeps_session keeps_store keeps_invalidate : settings.

Lemma keeps_other key value : keeps_settings (connection_set_other key value).
Proof.
  unfold connection_set_other. destruct key; repeat first [apply settings_bind; intros|case_match]; eauto with settings.
Qed.

(** The text of a setting of a connection; [None] for what is no setting. *)
Definition setting_text (s : Conn db) (key : bytes) : option bytes :=
  match tuning_string (conn_tuning (conn s)) key with
  | Some text => Some text
  | None => if is_key key PREPARED_CACHE_CAPACITY_OPTION then Some (fmt_int (Z.of_nat (capacity (prepared_cache (inner s))))) else None
  end.

(** The text a value means, whatever was set before. *)
Definition value_text (key : bytes) (value : OptionValue) : option bytes :=
  match set_tuning (default_tuning (mkTimeouts None None None)) key value with
  | Some (Ok (t, _)) => tuning_string t key
  | Some _ => None
  | None => match positive_capacity value with Ok n => Some (fmt_int n) | _ => None end
  end.

Lemma same_settings_text s s' key : same_settings s s' → setting_text s' key = setting_text s key.
Proof. intros (Ht & Hc & _). unfold setting_text. by rewrite Ht, Hc. Qed.

(** A tuning option changes its own text only. *)
Lemma tuning_step_others t key value t' stored other :
  tuning_step t key value t' stored → other ≠ key → tuning_string t' other = tuning_string t other.
Proof.
  intros Hs Hne. destruct Hs; unfold tuning_string, is_key; repeat case_bool_decide; try done; congruence.
Qed.

(** Its text does not depend on the other fields. *)
Lemma tuning_step_own t key value t' stored u :
  tuning_step t key value t' stored → timeout_from_key key = None →
  ∃ u', tuning_step u key value u' stored ∧ tuning_string u' key = tuning_string t' key.
Proof.
  intros Hs Hk. destruct Hs; [congruence|..]; eexists; (split; [constructor; eassumption|reflexivity]).
Qed.

Lemma positive_capacity_ok value n : positive_capacity value = Ok n → 0 < n.
Proof.
  unfold positive_capacity, nonnegative_usize_option. destruct (integer_option _ value) as [m| |]; [|done..].
  cbn [mbind res_bind]. destruct (Z.ltb_spec m 0); [done|]. cbn [mbind res_bind].
  destruct (Z.eqb_spec m 0); [done|]. intros [=]. lia.
Qed.

(** What setting an option does: nothing to the settings with an error, else its
    own branch. *)
Inductive option_effect (key : bytes) (value : OptionValue) (s s' : Conn db) : res Error unit → Prop :=
| effect_error r : r ≠ Ok tt → same_settings s s' → option_effect key value s s' r
| effect_tuning stored :
    tuning_step (conn_tuning (conn s)) key value (conn_tuning (conn s')) stored → inner s' = inner s →
    option_effect key value s s' (Ok tt)
| effect_capacity n :
    key = PREPARED_CACHE_CAPACITY_OPTION → positive_capacity value = Ok n →
    conn_tuning (conn s') = conn_tuning (conn s) → Z.of_nat (capacity (prepared_cache (inner s'))) = n →
    cache_ok (prepared_cache (inner s')) → option_effect key value s s' (Ok tt)
| effect_other :
    set_tuning (conn_tuning (conn s)) key value = None → key ≠ PREPARED_CACHE_CAPACITY_OPTION → same_settings s s' →
    option_effect key value s s' (Ok tt).

Lemma connection_set_option_effect key value s :
  cache_ok (prepared_cache (inner s)) →
  let '(r, s') := connection_set_option key value s in option_effect (connection_key key) value s s' r.
Proof.
  intros Hc. unfold connection_set_option, mbind at 1, cx_bind at 1, get_conn.
  destruct (set_tuning (conn_tuning (conn s)) (connection_key key) value) as [[[t stored]|e|]|] eqn:Hs.
  - by eapply effect_tuning; [apply set_tuning_step|].
  - by apply effect_error.
  - by apply effect_error.
  - destruct (is_key _ _) eqn:Hk; unfold is_key in Hk.
    + apply bool_decide_eq_true in Hk. unfold mbind, cx_bind, pure_cx.
      destruct (positive_capacity value) as [n|e|] eqn:Hn; [|by apply effect_error..].
      pose proof (positive_capacity_ok _ _ Hn) as Hpos. destruct Hc as [l Hl].
      destruct (rep_set_capacity (prepared_cache (inner s)) l Hl (Z.to_nat n)) as (c' & Hcap & _ & Hrep); [lia|].
      unfold on_inner, cache_set_capacity, with_cache. rewrite Hcap. cbn.
      eapply effect_capacity; [done|done|done| |by eexists]. cbn. destruct Hrep as [Hcap' _]. cbn in Hcap'. rewrite <- Hcap'. lia.
    + apply bool_decide_eq_false in Hk. pose proof (keeps_other key value s) as Hkeep.
      destruct (connection_set_other key value s) as [[[]|e|] s']; [|by apply effect_error..]. by apply effect_other.
Qed.

(** What a connection needs of its settings. *)
Definition conn_ok (s : Conn db) : Prop := tuning_ok (conn_tuning (conn s)) ∧ cache_ok (prepared_cache (inner s)).

Lemma option_effect_ok key value s s' r : option_effect key value s s' r → value_ok value → conn_ok s → conn_ok s'.
Proof.
  intros He Hv [Ht Hc]. destruct He as [r Hr (E1 & E2 & E3)|stored Hs Hi|n Hk Hn Hs Hcap Hc'|Hn Hk (E1 & E2 & E3)]; unfold conn_ok.
  - rewrite E1. auto.
  - split; [by eapply tuning_step_ok|]. by rewrite Hi.
  - by rewrite Hs.
  - rewrite E1. auto.
Qed.

Lemma connection_set_options_ok opts s :
  Forall (λ o, value_ok o.2) opts → conn_ok s → conn_ok (connection_set_options opts s).2.
Proof.
  intros Hv. revert s. induction Hv as [|[key value] opts Hv _ IH]; intros s Hs; [done|]. cbn [connection_set_options].
  unfold mbind, cx_bind. pose proof (connection_set_option_effect key value s (proj2 Hs)) as He.
  destruct (connection_set_option key value s) as [r s1]. assert (conn_ok s1) as Hs1 by (by eapply option_effect_ok).
  destruct r; [by apply IH|done..].
Qed.

(** The texts of the settings after one of them was set. *)
Lemma option_effect_text key value s s' other :
  option_effect key value s s' (Ok tt) → setting_text s other ≠ None →
  setting_text s' other = if decide (other = key) then value_text key value else setting_text s other.
Proof.
  intros He Hne. inversion He as [? Hr|stored Hs Hi|n Hk Hn Hs Hcap Hc'|Hn Hk Hsame]; subst; [done|..].
  - destruct (decide (other = key)) as [->|Hother].
    + destruct (tuning_string_step _ _ _ _ _ Hs) as [[Htm Hnone]|(Htm & text & Htext & _)].
      { exfalso. apply Hne. unfold setting_text. rewrite (tuning_string_none _ (conn_tuning (conn s)) _ Hnone).
        apply timeout_not_capacity in Htm. by rewrite Htm. }
      destruct (tuning_step_own _ _ _ _ _ (default_tuning (mkTimeouts None None None)) Hs Htm) as (u' & Hu & Hown).
      unfold setting_text, value_text. rewrite (tuning_step_set _ _ _ _ _ Hu), Hown, Htext. done.
    + unfold setting_text. by rewrite (tuning_step_others _ _ _ _ _ _ Hs Hother), Hi.
  - destruct (decide (other = PREPARED_CACHE_CAPACITY_OPTION)) as [->|Hother].
    + unfold setting_text, value_text. rewrite (set_tuning_capacity _ value), Hn, tuning_string_capacity.
      unfold is_key. by rewrite bool_decide_eq_true_2.
    + unfold setting_text. rewrite Hs. unfold is_key. by rewrite bool_decide_eq_false_2.
  - rewrite (same_settings_text _ _ _ Hsame). destruct (decide (other = key)) as [->|]; [|done].
    exfalso. apply Hne. unfold setting_text, is_key. apply set_tuning_reads in Hn. rewrite Hn.
    by rewrite bool_decide_eq_false_2.
Qed.

(** The last setting of a key. *)
Definition last_setting (key : bytes) (opts : list (OptionConnection * OptionValue)) : option OptionValue :=
  snd <$> last (filter (λ o, connection_key o.1 = key) opts).

Lemma connection_set_options_last opts s s' key :
  Forall (λ o, value_ok o.2) opts → conn_ok s → connection_set_options opts s = (Ok tt, s') → setting_text s key ≠ None →
  setting_text s' key = match last_setting key opts with Some value => value_text key value | None => setting_text s key end.
Proof.
  intros Hv. revert s. induction Hv as [|[k value] opts Hv _ IH]; intros s Hs Hset Hne; [by injection Hset as <-|].
  cbn [connection_set_options] in Hset. unfold mbind, cx_bind in Hset.
  pose proof (connection_set_option_effect k value s (proj2 Hs)) as He.
  destruct (connection_set_option k value s) as [r s1]. assert (conn_ok s1) as Hs1 by (by eapply option_effect_ok).
  destruct r as [[]|e|]; [|done..].
  pose proof (option_effect_text _ _ _ _ key He Hne) as Ht.
  assert (setting_text s1 key ≠ None) as Hne1.
  { intros Hn. apply Hne. unfold setting_text in *. case_match; [done|].
    erewrite tuning_string_none by done. by case_match. }
  rewrite (IH s1 Hs1 Hset Hne1). unfold last_setting. rewrite filter_cons. cbn [fst snd].
  destruct (decide (connection_key k = key)) as [Hk|Hk].
  - rewrite last_cons. destruct (last (filter _ opts)); [done|]. rewrite Ht, decide_True by done. by rewrite Hk.
  - destruct (last (filter _ opts)); [done|]. by rewrite Ht, decide_False by done.
Qed.
End connections.

(** No option changes the version a connection was opened with. *)
Section version.
Context {db : Type} `{!Server db, CursorDisplay, Unicode, OptionNames, Urls, ClientLimits}.

Definition keeps_version {A} (m : cx db A) : Prop := ∀ s, conn_version (conn (m s).2) = conn_version (conn s).

Lemma keeps_version_bind {A B} (m : cx db A) (f : A → cx db B) :
  keeps_version m → (∀ a, keeps_version (f a)) → keeps_version (m ≫= f).
Proof.
  intros Hm Hf s. specialize (Hm s). unfold mbind, cx_bind. destruct (m s) as [[a|e|] s1]; [|done..].
  rewrite Hf. exact Hm.
Qed.

Lemma keeps_version_inner {A} (m : dx db A) : keeps_version (on_inner m).
Proof. intros s. unfold on_inner. by destruct (m _). Qed.

Lemma connection_set_option_version key value : keeps_version (connection_set_option key value).
Proof.
  unfold connection_set_option, connection_set_other.
  repeat first [apply keeps_version_bind; intros|apply keeps_version_inner|case_match]; done.
Qed.

Lemma connection_set_options_version opts : keeps_version (connection_set_options opts).
Proof.
  induction opts as [|[key value] opts IH]; [done|]. apply keeps_version_bind; [apply connection_set_option_version|done].
Qed.
End version.

(** What the setters of a URL are documented to do. *)
Class UrlLaws `{Urls} : Prop := {
  set_username_ok u name u' : set_username u name = Some u' →
    url_username u' = name ∧ url_password u' = url_password u ∧ query_pairs u' = query_pairs u;
  set_password_ok u password u' : set_password u password = Some u' →
    url_username u' = url_username u ∧ url_password u' = password ∧ query_pairs u' = query_pairs u;
  set_query_pairs_ok u pairs :
    url_username (set_query_pairs u pairs) = url_username u ∧ url_password (set_query_pairs u pairs) = url_password u ∧
    query_pairs (set_query_pairs u pairs) = pairs;
}.

(** The text of a setting before any is set. *)
Definition default_text (key : bytes) : option bytes :=
  match tuning_string (default_tuning (mkTimeouts None None None)) key with
  | Some text => Some text
  | None => if is_key key PREPARED_CACHE_CAPACITY_OPTION then Some (fmt_int DEFAULT_PREPARED_CACHE_CAPACITY) else None
  end.

(** ** The settings, as the documentation lists them *)

(** The table of [README.md]: the name of a setting, its default, and whether a
    database and a URI have it too. *)
Definition documented_settings : list (string * string * bool) :=
  [("read_window_bytes", "0", true); ("read_batch_rows", "0", false); ("read_prefetch", "true", false);
   ("write_window_bytes", "0", true); ("write_batch_rows", "0", false); ("ingest_insert_rows", "100", true);
   ("prepared_cache_capacity", "512", true); ("prepare_threshold", "2", true); ("wire_compression", "auto", true);
   ("constrained_append", "auto", true); ("ingest_atomicity", "transaction", false); ("ingest_partial", "block", false)]%string.

(** The option of a setting; in a URI the parameter is the bare name. *)
Definition option_name (name : string) : bytes := str "adbc.monetdb." ++ str name.

Definition shared_names : list string := (λ x, x.1.1) <$> filter (λ x, x.2 = true) documented_settings.

(** The settings a URI with these parameters, a database and a call make, in the
    order of the parameters, of the table and of the call. *)
Definition uri_settings (pairs : list (bytes * bytes)) : list (bytes * OptionValue) :=
  omap (λ pair, (λ name, (option_name name, OString pair.2)) <$> find (λ name, bool_decide (pair.1 = str name)) shared_names) pairs.
Definition database_settings (options : Options) : list (bytes * OptionValue) :=
  omap (λ name, (λ value, (option_name name, value)) <$> options !! option_name name) shared_names.
Definition call_settings `{OptionNames} (opts : list (OptionConnection * OptionValue)) : list (bytes * OptionValue) :=
  (λ o, (connection_key o.1, o.2)) <$> opts.

Definition last_value (key : bytes) (settings : list (bytes * OptionValue)) : option OptionValue :=
  snd <$> last (filter (λ o, o.1 = key) settings).

(** A number is an integer or the text of one. *)
Definition number (value : OptionValue) : option Z :=
  match value with OInt n => Some n | OString text => parse_i64 text | _ => None end.

(** What a value means for a setting, as the text that reads back. *)
Inductive means : string → OptionValue → bytes → Prop :=
| means_window name minimum value n :
    (name, minimum) ∈ [("read_window_bytes", 1048576); ("write_window_bytes", 4194304)]%string →
    number value = Some n → n = 0 ∨ minimum ≤ n → means name value (fmt_int n)
| means_count name minimum value n :
    (name, minimum) ∈ [("write_batch_rows", 0); ("ingest_insert_rows", 0); ("prepare_threshold", 0);
                       ("prepared_cache_capacity", 1)]%string →
    number value = Some n → minimum ≤ n → means name value (fmt_int n)
(** The rows of a batch are rounded to the nearest whole multiple of 131,072 or
    power of two below. *)
| means_rows value n rounded :
    number value = Some n → 0 ≤ n → preferred_rows rounded → 0 ≤ rounded ≤ i64_max → (0 < n → 0 < rounded) →
    (∀ other, preferred_rows other → 0 ≤ other ≤ i64_max → Z.abs (n - rounded) ≤ Z.abs (n - other)) →
    means "read_batch_rows" value (fmt_int rounded)
| means_on text : map to_ascii_lower text ∈ str <$> ["true"; "1"; "enabled"; "on"]%string → means "read_prefetch" (OString text) (str "true")
| means_off text : map to_ascii_lower text ∈ str <$> ["false"; "0"; "disabled"; "off"]%string → means "read_prefetch" (OString text) (str "false")
| means_word name words word :
    (name, words) ∈ [("wire_compression", ["none"; "auto"; "lz4"]); ("constrained_append", ["auto"; "direct"]);
                     ("ingest_atomicity", ["transaction"; "savepoint"]); ("ingest_partial", ["block"; "allow"])]%string →
    word ∈ words → means name (OString (str word)) (str word).

(** The field of the connection that its operations read for a setting, as text. *)
Definition field_text {db} (c : Conn db) (name : string) : option bytes :=
  let t := conn_tuning (conn c) in
  snd <$> find (λ x : string * bytes, bool_decide (x.1 = name))
    [("read_window_bytes", fmt_int (default 0 (read_window_bytes t))); ("read_batch_rows", fmt_int (read_batch_rows t));
     ("read_prefetch", if read_prefetch t then str "true" else str "false");
     ("write_window_bytes", fmt_int (default 0 (write_window_bytes t)));
     ("write_batch_rows", fmt_int (default 0 (write_batch_rows t)));
     ("ingest_insert_rows", fmt_int (ingest_insert_rows t));
     ("wire_compression", match wire_compression t with WC_None => str "none" | WC_Auto => str "auto" | WC_Lz4 => str "lz4" end);
     ("constrained_append", match constrained_append t with AppendAuto => str "auto" | AppendDirect => str "direct" end);
     ("ingest_atomicity",
       match ingest_atomicity t with AtomicityTransaction => str "transaction" | AtomicitySavepoint => str "savepoint" end);
     ("ingest_partial", match ingest_partial t with PartialBlock => str "block" | PartialAllow => str "allow" end);
     ("prepared_cache_capacity", fmt_int (Z.of_nat (capacity (prepared_cache (inner c)))));
     ("prepare_threshold", fmt_int (prepare_threshold t))]%string.

(** Every setting of the table. *)
Ltac each_setting H :=
  unfold documented_settings in H;
  repeat (apply elem_of_cons in H as [H|H]; [injection H as -> -> ->|]); [..|by apply elem_of_nil in H].

Lemma setting_text_field {db} `{!Server db, OptionNames} (c : Conn db) name default shared :
  (name, default, shared) ∈ documented_settings → setting_text c (option_name name) = field_text c name ∧ field_text c name ≠ None.
Proof.
  intros Hin. destruct c as [[t ? ? ? ?] d]. destruct t as [? ? ? prefetch ? ? ? ? wire partial atomicity append].
  each_setting Hin; (split; [|done]);
    first [reflexivity|destruct prefetch; reflexivity|destruct wire; reflexivity|destruct partial; reflexivity
          |destruct atomicity; reflexivity|destruct append; reflexivity].
Qed.

Lemma default_text_documented name default shared :
  (name, default, shared) ∈ documented_settings → default_text (option_name name) = Some (str default).
Proof. intros Hin. each_setting Hin; by vm_compute. Qed.

Lemma integer_number key value n : integer_option key value = Ok n ↔ number value = Some n.
Proof. destruct value as [text|text|m|m]; cbn; try (split; congruence). destruct (parse_i64 text); cbn; split; congruence. Qed.

Lemma nonnegative_number key value n : nonnegative_usize_option key value = Ok n → number value = Some n ∧ 0 ≤ n.
Proof.
  unfold nonnegative_usize_option. intros H. apply bind_ok in H as (m & Hm%integer_number & H).
  destruct (Z.ltb_spec m 0); [done|]. injection H as <-. done.
Qed.

Lemma window_number key minimum value o :
  window_bytes_option key minimum value = Ok o → ∃ n, number value = Some n ∧ default 0 o = n ∧ (n = 0 ∨ minimum ≤ n).
Proof.
  unfold window_bytes_option. intros H. apply bind_ok in H as (n & Hn%integer_number & H). exists n. split; [done|].
  destruct (Z.eqb_spec n 0) as [->|Hne]; [injection H as <-; auto|]. destruct (Z.leb_spec minimum n); [|done].
  injection H as <-. auto.
Qed.

Lemma word_means {A} key (words : list (string * A)) expected value x :
  word_option key words expected value = Ok x → ∃ word, value = OString (str word) ∧ (word, x) ∈ words.
Proof.
  destruct value as [text| | |]; cbn; try done. destruct (find _ words) as [[word y]|] eqn:Hf; [|done]. intros [= <-].
  apply find_some in Hf as [Hin Hb]. cbn in Hb. apply bool_decide_eq_true in Hb as ->. exists word. split; [done|]. by apply list_elem_of_In.
Qed.

Ltac each_word H := repeat (apply elem_of_cons in H as [[= -> ->]|H]); [..|by apply elem_of_nil in H].
Ltac pick_setting := repeat first [by apply elem_of_cons; left | apply elem_of_cons; right].

Lemma value_text_means `{ClientLimits} name default shared value text :
  value_ok value → (name, default, shared) ∈ documented_settings → value_text (option_name name) value = Some text → means name value text.
Proof.
  intros Hv Hin. each_setting Hin; unfold value_text.
  - change (set_tuning ?t _ value) with (Some (x ← read_window_bytes_option value; Ok (with_read_window_bytes t x, value))).
    destruct (read_window_bytes_option value) as [o| |] eqn:Ho; [|done..]. apply window_number in Ho as (n & Hn & <- & Hmin).
    intros [= <-]. eapply means_window; [pick_setting|done|done].
  - change (set_tuning ?t _ value) with (Some (x ← read_batch_rows_option value; Ok (with_read_batch_rows t x, value))).
    destruct (read_batch_rows_option value) as [o| |] eqn:Ho; [|done..]. unfold read_batch_rows_option in Ho.
    apply bind_ok in Ho as (n & Hn & [= <-]). pose proof Hn as [Hnum H0]%nonnegative_number.
    unfold nonnegative_usize_option in Hn. apply bind_ok in Hn as (m & Hm & Hn). destruct (m <? 0); [done|]. injection Hn as ->.
    apply integer_option_range in Hm; [|done]. destruct (round_nearest n ltac:(lia)) as (R1 & R2 & R3 & _ & R5).
    intros [= <-]. by eapply means_rows.
  - change (set_tuning ?t _ value) with (Some (x ← option_bool value; Ok (with_read_prefetch t x, OString (bool_text x)))).
    destruct (option_bool value) as [b| |] eqn:Hb; [|done..]. intros [= <-]. destruct value as [w| | |]; try done.
    cbn [option_bool] in Hb. unfold parse_bool_option in Hb. destruct (existsb _ _) eqn:Ht in Hb.
    + injection Hb as <-. apply means_on. apply existsb_exists in Ht as (word & Hin & Hw%bool_decide_eq_true). rewrite Hw.
      apply list_elem_of_fmap_2. by apply list_elem_of_In.
    + destruct (existsb _ _) eqn:Hf in Hb; [|done]. injection Hb as <-. apply means_off.
      apply existsb_exists in Hf as (word & Hin & Hw%bool_decide_eq_true). rewrite Hw. apply list_elem_of_fmap_2. by apply list_elem_of_In.
  - change (set_tuning ?t _ value) with (Some (x ← write_window_bytes_option value; Ok (with_write_window_bytes t x, value))).
    destruct (write_window_bytes_option value) as [o| |] eqn:Ho; [|done..]. apply window_number in Ho as (n & Hn & <- & Hmin).
    intros [= <-]. eapply means_window; [pick_setting|done|done].
  - change (set_tuning ?t _ value) with (Some (x ← write_batch_rows_option value; Ok (with_write_batch_rows t x, value))).
    destruct (write_batch_rows_option value) as [o| |] eqn:Ho; [|done..]. unfold write_batch_rows_option in Ho.
    apply bind_ok in Ho as (n & Hn%integer_number & Ho).
    assert (default 0 o = n ∧ 0 ≤ n) as [<- H0].
    { destruct (Z.eqb_spec n 0) as [->|]; [by injection Ho as <-|]. destruct (Z.ltb_spec n 0); [done|]. by injection Ho as <-. }
    intros [= <-]. eapply means_count; [pick_setting|done|done].
  - change (set_tuning ?t _ value) with
      (Some (x ← nonnegative_usize_option INGEST_INSERT_ROWS_OPTION value; Ok (with_ingest_insert_rows t x, value))).
    destruct (nonnegative_usize_option _ value) as [n| |] eqn:Ho; [|done..]. apply nonnegative_number in Ho as [Hn H0].
    intros [= <-]. eapply means_count; [pick_setting|done|done].
  - change (set_tuning ?t _ value) with (None : option (res Error (Tuning * OptionValue))).
    destruct (positive_capacity value) as [n| |] eqn:Ho; [|done..]. unfold positive_capacity in Ho.
    apply bind_ok in Ho as (m & Hm & Ho). apply nonnegative_number in Hm as [Hn H0].
    destruct (Z.eqb_spec m 0); [done|]. injection Ho as ->. intros [= <-]. eapply means_count; [pick_setting|done|lia].
  - change (set_tuning ?t _ value) with
      (Some (x ← nonnegative_usize_option PREPARE_THRESHOLD_OPTION value; Ok (with_prepare_threshold t x, value))).
    destruct (nonnegative_usize_option _ value) as [n| |] eqn:Ho; [|done..]. apply nonnegative_number in Ho as [Hn H0].
    intros [= <-]. eapply means_count; [pick_setting|done|done].
  - change (set_tuning ?t _ value) with (Some (x ← wire_parse value; Ok (with_wire_compression t x, OString (wire_as_str x)))).
    destruct (wire_parse value) as [w| |] eqn:Ho; [|done..]. apply word_means in Ho as (word & -> & Hin). intros [= <-].
    each_word Hin; eapply means_word; pick_setting.
  - change (set_tuning ?t _ value) with (Some (x ← append_parse value; Ok (with_constrained_append t x, OString (append_as_str x)))).
    destruct (append_parse value) as [w| |] eqn:Ho; [|done..]. apply word_means in Ho as (word & -> & Hin). intros [= <-].
    each_word Hin; eapply means_word; pick_setting.
  - change (set_tuning ?t _ value) with (Some (x ← atomicity_parse value; Ok (with_ingest_atomicity t x, value))).
    destruct (atomicity_parse value) as [w| |] eqn:Ho; [|done..]. apply word_means in Ho as (word & -> & Hin). intros [= <-].
    each_word Hin; eapply means_word; pick_setting.
  - change (set_tuning ?t _ value) with (Some (x ← partial_parse value; Ok (with_ingest_partial t x, value))).
    destruct (partial_parse value) as [w| |] eqn:Ho; [|done..]. apply word_means in Ho as (word & -> & Hin). intros [= <-].
    each_word Hin; eapply means_word; pick_setting.
Qed.

Lemma uri_key_setting key :
  tuning_option_from_uri_key key = option_name <$> find (λ name, bool_decide (key = str name)) shared_names.
Proof.
  change shared_names with ["read_window_bytes"; "write_window_bytes"; "ingest_insert_rows"; "prepared_cache_capacity";
    "prepare_threshold"; "wire_compression"; "constrained_append"]%string.
  unfold tuning_option_from_uri_key, is_key. cbn [find]. repeat case_bool_decide; reflexivity.
Qed.

Lemma split_query_settings `{OptionNames} pairs : call_settings (split_query pairs).1 = uri_settings pairs.
Proof.
  induction pairs as [|[key value] pairs IH]; [done|]. cbn [split_query uri_settings omap list_omap fst snd].
  destruct (split_query pairs) as [tuning server]. cbn [fst] in IH. unfold uri_settings in IH. rewrite uri_key_setting.
  destruct (find _ shared_names) as [name|]; cbn [fmap option_fmap option_map fst]; [|done].
  cbn [call_settings fmap list_fmap fst snd connection_key]. unfold call_settings in IH. by rewrite IH.
Qed.

Lemma database_tuning_settings `{OptionNames} options : call_settings (database_tuning options) = database_settings options.
Proof.
  unfold call_settings, database_tuning, database_settings.
  change shared_names with ["read_window_bytes"; "write_window_bytes"; "ingest_insert_rows"; "prepared_cache_capacity";
    "prepare_threshold"; "wire_compression"; "constrained_append"]%string.
  cbn [omap list_omap]. change (option_name "read_window_bytes") with READ_WINDOW_BYTES_OPTION.
  change (option_name "write_window_bytes") with WRITE_WINDOW_BYTES_OPTION.
  change (option_name "ingest_insert_rows") with INGEST_INSERT_ROWS_OPTION.
  change (option_name "prepared_cache_capacity") with PREPARED_CACHE_CAPACITY_OPTION.
  change (option_name "prepare_threshold") with PREPARE_THRESHOLD_OPTION.
  change (option_name "wire_compression") with WIRE_COMPRESSION_OPTION.
  change (option_name "constrained_append") with CONSTRAINED_APPEND_OPTION.
  by repeat match goal with |- context [options !! ?k] => destruct (options !! k) end.
Qed.

Lemma last_setting_value `{OptionNames} key opts : last_setting key opts = last_value key (call_settings opts).
Proof.
  unfold last_setting, last_value, call_settings.
  assert (filter (λ o : bytes * OptionValue, o.1 = key) ((λ o : OptionConnection * OptionValue, (connection_key o.1, o.2)) <$> opts) =
    (λ o : OptionConnection * OptionValue, (connection_key o.1, o.2)) <$> filter (λ o, connection_key o.1 = key) opts) as ->.
  { induction opts as [|o opts IH]; [done|]. rewrite fmap_cons, !filter_cons. cbn [fst]. case_decide; [by rewrite fmap_cons, IH|done]. }
  rewrite fmap_last. by destruct (last _).
Qed.

Lemma get_setting {db} `{!Server db, CursorDisplay, Unicode, OptionNames} (c : Conn db) key text
    {reader : Type} (open_scalar : Reply → res Error reader) (next_batch : reader → option (res Error RecordBatch)) :
  setting_text c key = Some text → connection_get_option_string open_scalar next_batch (OcOther key) c = (Ok text, c).
Proof.
  unfold setting_text, connection_get_option_string, get_conn, mbind, cx_bind. cbn [connection_key].
  destruct (tuning_string _ key); [by intros [= <-]|]. destruct (is_key key _); [|done]. intros [= <-]. by destruct c.
Qed.

(** ** Opening a connection *)

Section opening.
Context {db : Type} `{!Server db, CursorDisplay, Unicode, OptionNames, Urls, ClientLimits, !Client db, !UrlLaws}.
Context {reader : Type} (open_scalar : Reply → res Error reader) (next_batch : reader → option (res Error RecordBatch)).

(** A connection as it is before any option is set. *)
Definition fresh_conn (c : Conn db) : Prop :=
  ∃ ts, conn_tuning (conn c) = default_tuning ts ∧
    capacity (prepared_cache (inner c)) = Z.to_nat DEFAULT_PREPARED_CACHE_CAPACITY ∧ cache_ok (prepared_cache (inner c)).

Lemma fresh_conn_ok c : fresh_conn c → conn_ok c ∧ ∀ key, setting_text c key = default_text key.
Proof.
  intros (ts & Ht & Hcap & Hc). split; [split; [rewrite Ht; apply default_tuning_ok|done]|].
  intros key. unfold setting_text, default_text. rewrite Ht, Hcap. done.
Qed.

Lemma new_driver_fresh (d : db) :
  ∃ s, new_driver d = Ok s ∧ capacity (prepared_cache s) = Z.to_nat DEFAULT_PREPARED_CACHE_CAPACITY ∧ cache_ok (prepared_cache s).
Proof.
  unfold new_driver. destruct (represents_new (Z.to_nat DEFAULT_PREPARED_CACHE_CAPACITY)) as (c & -> & Hrep & _).
  { apply Nat.ltb_lt. by vm_compute. }
  eexists. split; [reflexivity|]. cbn [prepared_cache]. split; [by destruct Hrep as [? _]|by eexists].
Qed.

Lemma open_connection_fresh clock p c :
  open_connection open_scalar next_batch clock p = Ok c →
  fresh_conn c ∧ version_lt (conn_version (conn c)) MINIMUM_VERSION = false ∧
  ∃ d, connect p = Ok d ∧ little_endian d = true ∧ 1 ≤ binary_level d.
Proof.
  unfold open_connection. destruct (map_err _ (parm_database p)) as [catalog| |]; [|done..]. cbn [mbind res_bind].
  destruct (configured_timeouts p) as [[connect_timeout ts]| |]; [|done..]. cbn [mbind res_bind].
  destruct (initialization_deadline clock connect_timeout) as [deadline| |]; [|done..]. cbn [mbind res_bind].
  unfold open_server. destruct (connect p) as [d| |] eqn:Hd; [|done..]. cbn [mbind res_bind].
  destruct (check_server d) as [[]| |] eqn:Hs; [|done..]. cbn [mbind res_bind].
  destruct (initialization_timeouts ts deadline (metadata_began clock)) as [mt| |]; [|done..]. cbn [mbind res_bind].
  destruct (server_version d mt) as [version d1]. destruct (map_err _ version) as [v| |]; [|done..]. cbn [mbind res_bind].
  unfold check_version. destruct (version_lt v MINIMUM_VERSION) eqn:Hv; [done|]. cbn [mbind res_bind].
  destruct (new_driver_fresh d1) as (s & -> & Hcap & Hc). cbn [mbind res_bind].
  destruct (initialization_timeouts ts deadline (schema_began clock)) as [st| |]; [|done..]. cbn [mbind res_bind].
  unfold on_session. destruct (scalar_string _ _ _ (session s)) as [[schema|e|] session']; [|done..].
  cbn [mbind res_bind]. intros [= <-]. split; [by exists ts|]. split; [done|]. exists d. split; [done|].
  unfold check_server in Hs. destruct (map_err _ _); [|done..]. cbn [mbind res_bind] in Hs.
  destruct (little_endian d); [|done]. cbn [negb] in Hs. destruct (Z.ltb_spec (binary_level d) 1); [done|]. done.
Qed.

Lemma split_query_values pairs : Forall (λ o, value_ok o.2) (split_query pairs).1.
Proof.
  induction pairs as [|[key value] pairs IH]; [constructor|]. cbn [split_query]. destruct (split_query pairs) as [tuning server].
  destruct (tuning_option_from_uri_key key); cbn [fst] in *; [by constructor|done].
Qed.

Lemma parse_connection_uri_values uri parsed :
  parse_connection_uri uri = Ok parsed → Forall (λ o, value_ok o.2) (uri_tuning_options parsed).
Proof.
  unfold parse_connection_uri. destruct (parse_driver_uri uri) as [u| |]; [|done..]. cbn [mbind res_bind].
  destruct (decode_optional (non_empty_username u)) as [user| |]; [|done..]. cbn [mbind res_bind].
  destruct (decode_optional (url_password u)) as [password| |]; [|done..]. cbn [mbind res_bind].
  destruct (strip_userinfo u) as [u'| |]; [|done..]. cbn [mbind res_bind].
  pose proof (split_query_values (query_pairs u')) as Hv. destruct (split_query _) as [tuning server]. by intros [= <-].
Qed.

(** The settings of a URI are those of its parameters. *)
Lemma parse_connection_uri_settings text uri :
  parse_connection_uri text = Ok uri →
  ∃ parsed, url_parse text = Ok parsed ∧ call_settings (uri_tuning_options uri) = uri_settings (query_pairs parsed).
Proof.
  unfold parse_connection_uri, parse_driver_uri, strip_userinfo. intros Hp. apply bind_ok in Hp as (parsed & Hparsed & Hp).
  apply bind_ok in Hparsed as (parsed' & Hparsed & Hq). apply bind_ok in Hq as (u & _ & [= ->]).
  exists parsed. split; [by destruct (url_parse text); simplify_eq/=|].
  apply bind_ok in Hp as (username & _ & Hp). apply bind_ok in Hp as (password & _ & Hp). apply bind_ok in Hp as (stripped & Hs & Hp).
  assert (query_pairs stripped = query_pairs parsed) as Hsame.
  { apply bind_ok in Hs as (u1 & Hu1 & Hs).
    assert (query_pairs u1 = query_pairs parsed) as <-.
    { case_bool_decide; [by injection Hu1 as <-|]. by apply ok_or_ok, set_username_ok in Hu1 as (_ & _ & Hq1). }
    destruct (url_password u1); [by apply ok_or_ok, set_password_ok in Hs as (_ & _ & Hq1)|by injection Hs as <-]. }
  pose proof (split_query_settings (query_pairs stripped)) as Hsettings. destruct (split_query _) as [tuning server].
  injection Hp as <-. cbn [uri_tuning_options fst] in *. by rewrite Hsettings, Hsame.
Qed.

Lemma database_tuning_values options :
  map_Forall (λ _, value_ok) options → Forall (λ o, value_ok o.2) (database_tuning options).
Proof.
  intros Ho. apply Forall_forall. intros [key value] Hin. unfold database_tuning in Hin.
  apply list_elem_of_omap in Hin as (k & _ & Hk). destruct (options !! k) as [v|] eqn:Hl; simplify_eq/=. by eapply Ho.
Qed.

(** C31. The last setting wins: a connection that is opened has, for every
    setting that the documentation lists, the value of its last setting, where
    those of the URI's parameters come first, then those of the database, then
    those of the call, and the documented default where there is none.  The
    names of the settings, which of them a URI and a database have, the values each
    accepts and what they mean, and the defaults are written out
    ([documented_settings], [means]); the value is in the field of the connection
    that its operations read, and reads back with the getter.  Its server is
    little-endian, speaks the binary protocol and has at least the version
    required. *)
Theorem opened_connection_settings clock d opts c :
  Forall (λ o, value_ok o.2) opts → map_Forall (λ _, value_ok) (database_options d) →
  new_connection_with_opts open_scalar next_batch clock d opts = Ok c →
  version_lt (conn_version (conn c)) MINIMUM_VERSION = false ∧ conn_ok c ∧
  (∃ p server, connect p = Ok server ∧ little_endian server = true ∧ 1 ≤ binary_level server) ∧
  ∃ uri parsed, optional_string (database_options d) name_uri = Some uri ∧ url_parse uri = Ok parsed ∧
    ∀ name default shared, (name, default, shared) ∈ documented_settings →
      ∃ text, field_text c name = Some text ∧
        connection_get_option_string open_scalar next_batch (OcOther (option_name name)) c = (Ok text, c) ∧
        match last_value (option_name name)
          (uri_settings (query_pairs parsed) ++ database_settings (database_options d) ++ call_settings opts)
        with
        | Some value => means name value text
        | None => text = str default
        end.
Proof.
  intros Hv Hd. unfold new_connection_with_opts.
  destruct (optional_string (database_options d) name_uri) as [text|]; [|done]. cbn [ok_or mbind res_bind].
  destruct (parse_connection_uri text) as [uri| |] eqn:Hu; [|done..]. cbn [mbind res_bind].
  destruct (connection_parameters _ uri opts) as [p| |]; [|done..]. cbn [mbind res_bind].
  destruct (open_connection _ _ clock p) as [c0| |] eqn:Hc; [|done..]. cbn [mbind res_bind].
  apply open_connection_fresh in Hc as (Hfresh & Hver & server & Hserver). destruct (fresh_conn_ok _ Hfresh) as [Hok Htext].
  assert (Forall (λ o, value_ok o.2) (initial_settings d uri opts)) as Hvalues.
  { unfold initial_settings. rewrite !Forall_app. split_and!; [by eapply parse_connection_uri_values|by apply database_tuning_values|done]. }
  pose proof (connection_set_options_ok _ _ Hvalues Hok) as Hok'.
  pose proof (connection_set_options_version (initial_settings d uri opts) c0) as Hver'.
  destruct (connection_set_options _ c0) as [[[]|e|] c1] eqn:Hs; [|done..]. intros [= <-]. cbn in Hok', Hver'.
  split; [by rewrite Hver'|]. split; [done|]. split; [by exists p, server|].
  destruct (parse_connection_uri_settings _ _ Hu) as (parsed & Hparsed & Huri). exists text, parsed. split_and!; [done..|].
  intros name default shared Hin. destruct (setting_text_field c1 _ _ _ Hin) as [Hfield Hsome].
  pose proof (default_text_documented _ _ _ Hin) as Hdefault.
  destruct (field_text c1 name) as [value|] eqn:Hf; [|done]. exists value. split_and!; [done|by apply get_setting|].
  rewrite (connection_set_options_last _ _ _ _ Hvalues Hok Hs), Htext, Hdefault, last_setting_value in Hfield
    by (by rewrite Htext, Hdefault).
  unfold initial_settings, call_settings in Hfield. rewrite !fmap_app in Hfield. fold (call_settings (uri_tuning_options uri)) in Hfield.
  fold (call_settings (database_tuning (database_options d))) (call_settings opts) in Hfield.
  rewrite Huri, database_tuning_settings in Hfield. rewrite <- Huri in Hfield |- *.
  destruct (last_value _ _) as [v|] eqn:Hl; [|by injection Hfield as <-].
  eapply value_text_means; [|exact Hin|exact Hfield]. apply fmap_Some in Hl as ([k v'] & Hl & ->).
  apply last_Some_elem_of, list_elem_of_filter in Hl as [_ Hl]. rewrite Forall_forall in Hvalues.
  rewrite Huri, <- database_tuning_settings, <- Huri in Hl. unfold call_settings in Hl. rewrite <- !fmap_app in Hl.
  apply list_elem_of_fmap in Hl as (o & [= _ ->] & Ho). by apply Hvalues.
Qed.
End opening.

(** ** Settings and the paths that read and write *)

Section usable.
Context {db : Type} `{!Server db, CursorDisplay, Unicode, OptionNames, Urls, ClientLimits}.

(** Options set on a statement one after the other, whatever each answers. *)
Definition statement_set_options (st : OptionedStatement) (opts : list (OptionStatement * OptionValue)) : OptionedStatement :=
  foldl (λ st o, match statement_set_option st o.1 o.2 with Ok st' => st' | _ => st end) st opts.

Lemma statement_set_option_ok st key value st' :
  value_ok value → tuning_ok (os_tuning st) → statement_set_option st key value = Ok st' → tuning_ok (os_tuning st').
Proof.
  intros Hv Ht. unfold statement_set_option. destruct (set_tuning _ _ value) as [[[t stored]|e|]|] eqn:Hs; [|done..|].
  - intros [= <-]. by eapply set_tuning_ok.
  - case_match; [done|]. case_match.
    + destruct (option_bool value); [|done..]. by intros [= <-].
    + destruct (check_statement_option key value); [|done..]. by intros [= <-].
Qed.

Lemma statement_set_options_ok opts st :
  Forall (λ o, value_ok o.2) opts → tuning_ok (os_tuning st) → tuning_ok (os_tuning (statement_set_options st opts)).
Proof.
  intros Hv. revert st. induction Hv as [|[key value] opts Hv _ IH]; intros st Hst; [done|]. cbn [statement_set_options foldl].
  apply IH. cbn [fst snd] in *. destruct (statement_set_option st key value) eqn:Hs; [|done..]. by eapply statement_set_option_ok.
Qed.

(** C32. No options make a statement unusable: whatever is set on a connection,
    and then on one of its statements, and whatever each setting answers, the
    cache of prepared statements still is one, an ingest of any stream has
    budgets that let it progress (a window takes at least a row), and a read
    window is at least a mebibyte. *)
Theorem settings_stay_usable copts sopts (s : Conn db) memory rtt columns granule stream schema wire :
  Forall (λ o, value_ok o.2) copts → Forall (λ o, value_ok o.2) sopts → conn_ok s → (∀ n, memory = Some n → 0 ≤ n) →
  let s' := (connection_set_options copts s).2 in
  let t := os_tuning (statement_set_options (new_statement (conn s')) sopts) in
  let '(budget, physical, incompressible) := write_window_budgets (write_window_bytes t) memory rtt columns in
  cache_ok (prepared_cache (inner s')) ∧
  budget_ok (scheduler_new stream schema budget physical incompressible (write_batch_rows t) wire) ∧
  MIN_READ_WINDOW_BYTES ≤ effective_read_window_bytes (read_window_bytes t) rtt granule memory ∧
  round_read_batch_rows (read_batch_rows t) = read_batch_rows t.
Proof.
  intros Hc Hs Hok Hm s' t. pose proof (connection_set_options_ok copts s Hc Hok) as [Ht Hcache].
  assert (tuning_ok t) as Htuning by (by apply statement_set_options_ok).
  pose proof (tuned_budget_ok t memory rtt columns stream schema wire Htuning Hm) as Hb.
  pose proof (tuned_read_window t rtt granule memory Htuning Hm) as Hr.
  destruct (write_window_budgets _ _ _ _) as [[budget physical] incompressible]. split_and!; try done. apply Htuning.
Qed.
End usable.

(** ** Credentials *)

Section credentials.
Context `{OptionNames, !OptionNamesOk, Urls, !UrlLaws, ClientLimits}.

(** The values of the standard options are texts. *)
Definition database_ok (d : MonetdbDatabase) : Prop :=
  ∀ key value, database_options d !! database_key key = Some value → (∀ name, key ≠ OdOther name) → ∃ text, value = OString text.

Ltac driver_option_tac :=
  unfold is_key; repeat case_bool_decide; try done; intros _; subst; apply (bool_decide_unpack _); by vm_compute.

Lemma timeout_driver name timeout : timeout_from_key name = Some timeout → name ∈ driver_options.
Proof. unfold timeout_from_key. driver_option_tac. Qed.
Lemma tuning_uri_driver name key : tuning_uri_key name = Some key → name ∈ driver_options.
Proof. unfold tuning_uri_key. driver_option_tac. Qed.
Lemma client_info_driver name o : client_info_from_key name = Some o → name ∈ driver_options.
Proof. unfold client_info_from_key. driver_option_tac. Qed.

Lemma store_other_ok d name value :
  name ∈ driver_options → database_ok d → database_ok (store_database d (OdOther name) value).
Proof.
  intros Hn Hd key v. cbn [store_database database_options database_key].
  destruct (decide (database_key key = name)) as [Hk|Hk]; [|rewrite lookup_insert_ne by done; apply Hd].
  intros _ Hother. rewrite <- Hk in Hn. apply database_name_ok in Hn as [name' ->]. by destruct (Hother name').
Qed.

Lemma store_standard_ok d key text : database_ok d → database_ok (store_database d key (OString text)).
Proof.
  intros Hd key' v. cbn [store_database database_options].
  destruct (decide (database_key key' = database_key key)) as [->|Hk]; [|rewrite lookup_insert_ne by done; apply Hd].
  rewrite lookup_insert_eq. intros [= <-] _. by eexists.
Qed.

Lemma database_set_option_ok d key value d' : database_ok d → database_set_option d key value = Ok d' → database_ok d'.
Proof.
  intros Hd. unfold database_set_option. destruct key as [| | |name]; cbn [andb].
  1-3: destruct value as [text| | |]; cbn [negb]; try done; try (destruct (parse_driver_uri text); [|done..]);
    intros [= <-]; by apply store_standard_ok.
  cbn [mbind res_bind]. destruct (timeout_from_key name) eqn:Ht.
  { destruct (timeout_seconds name value); [|done..]. intros [= <-]. apply store_other_ok; [by eapply timeout_driver|done]. }
  destruct (tuning_uri_key name) eqn:Hu.
  { destruct (validate_tuning_option name value); [|done..]. intros [= <-]. apply store_other_ok; [by eapply tuning_uri_driver|done]. }
  destruct (client_info_from_key name) eqn:Hi; [|done]. destruct (client_info_validate _ name value); [|done..].
  intros [= <-]. apply store_other_ok; [by eapply client_info_driver|done].
Qed.

Lemma database_set_options_ok d opts d' : database_ok d → database_set_options d opts = Ok d' → database_ok d'.
Proof.
  revert d. induction opts as [|[key value] opts IH]; intros d Hd; cbn [database_set_options]; [by intros [= <-]|].
  destruct (database_set_option d key value) as [d1| |] eqn:Hs; [|done..]. cbn [mbind res_bind].
  apply IH. by eapply database_set_option_ok.
Qed.

(** What the getter of an option may show: the text of an option that is neither
    the password nor the URI, a parameter of the URI that is not its password, or
    a default. *)
Definition may_show (d : MonetdbDatabase) (key : OptionDatabase) (text : bytes) : Prop :=
  (database_options d !! database_key key = Some (OString text) ∧ database_key key ≠ name_password ∧ database_key key ≠ name_uri) ∨
  (∃ uri parsed name, database_options d !! name_uri = Some (OString uri) ∧ url_parse uri = Ok parsed ∧
     (name, text) ∈ query_pairs parsed ∧ name ≠ str "password") ∨
  text = [] ∨ text ∈ str <$> ["true"; "0"; "100"; "512"; "2"; "auto"]%string.

(** The URI without user name, password and a password among its parameters. *)
Definition shows_uri (d : MonetdbDatabase) (text : bytes) : Prop :=
  ∃ uri parsed shown, database_options d !! name_uri = Some (OString uri) ∧ url_parse uri = Ok parsed ∧
    text = url_text shown ∧ url_username shown = [] ∧ url_password shown = None ∧
    query_pairs shown = filter (λ pair, pair.1 ≠ str "password") (query_pairs parsed).

Lemma parse_driver_uri_parsed uri parsed : parse_driver_uri uri = Ok parsed → url_parse uri = Ok parsed.
Proof.
  unfold parse_driver_uri. intros Hp. apply bind_ok in Hp as (u & Hu & Hp). apply bind_ok in Hp as (? & _ & [= ->]).
  destruct (url_parse uri); simplify_eq/=. done.
Qed.

Lemma stored_uri_shown d text : database_stored_string d OdUri = Ok text → shows_uri d text.
Proof.
  unfold database_stored_string.
  destruct (get_string (database_options d) (database_key OdUri)) as [uri| |] eqn:Hu; [|done..]. apply get_string_ok in Hu.
  cbn [mbind res_bind]. rewrite bool_decide_eq_true_2 by done. unfold uri_without_userinfo.
  destruct (parse_driver_uri uri) as [parsed| |] eqn:Hparsed; [|done..]. cbn [mbind res_bind].
  destruct (set_username parsed []) as [u1|] eqn:Hu1; [|done]. cbn [ok_or mbind res_bind].
  destruct (set_password u1 None) as [u2|] eqn:Hu2; [|done]. cbn [ok_or mbind res_bind]. intros [= <-].
  apply set_username_ok in Hu1 as (A1 & A2 & A3). apply set_password_ok in Hu2 as (B1 & B2 & B3).
  destruct (set_query_pairs_ok u2 (filter (λ pair, pair.1 ≠ str "password") (query_pairs u2))) as (C1 & C2 & C3).
  exists uri, parsed, (set_query_pairs u2 (filter (λ pair, pair.1 ≠ str "password") (query_pairs u2))).
  split_and!; [done|by apply parse_driver_uri_parsed|done|congruence|congruence|]. by rewrite C3, B3, A3.
Qed.

Lemma stored_shown d key text :
  key ≠ OdUri → database_key key ≠ name_password → database_key key ≠ name_uri → database_stored_string d key = Ok text → may_show d key text.
Proof.
  intros Hk Hp Hu. unfold database_stored_string. destruct (get_string _ _) as [value| |] eqn:Hg; [|done..]. apply get_string_ok in Hg.
  cbn [mbind res_bind]. rewrite bool_decide_eq_false_2 by done. intros [= <-]. by left.
Qed.

Lemma uri_key_not_password name key : database_uri_key name = Some key → key ≠ str "password".
Proof.
  unfold database_uri_key, timeout_from_key, client_info_from_key, tuning_uri_key. intros Hk ->. revert Hk.
  unfold is_key. by repeat case_bool_decide.
Qed.

Lemma tuning_default_shown name text : tuning_default name = Some text → text ∈ str <$> ["true"; "0"; "100"; "512"; "2"; "auto"]%string.
Proof.
  unfold tuning_default. intros Ht. repeat case_match; try done; injection Ht as <-; apply (bool_decide_unpack _); by vm_compute.
Qed.

(** An option of the driver that was not set. *)
Lemma unset_shown d name text :
  name ≠ name_password → name ≠ name_uri → database_options d !! name = None →
  database_get_option_string d (OdOther name) = Ok text → may_show d (OdOther name) text.
Proof.
  intros Hp Hu Hn. unfold database_get_option_string. cbn [database_key]. rewrite Hn. intros Hg. apply bind_ok in Hg as (from_uri & Hf & Hg).
  destruct from_uri as [value|].
  - injection Hg as ->. right. left. unfold uri_option in Hf. destruct (database_uri_key name) as [key|] eqn:Hk; [|done].
    destruct (optional_string _ name_uri) as [uri|] eqn:Ho; [|done]. apply bind_ok in Hf as (parsed & Hparsed & [= Hl]).
    apply fmap_Some in Hl as ([k v] & Hl & ->). apply last_Some_elem_of, list_elem_of_filter in Hl as [Hkey Hin]. cbn in Hkey. subst k.
    exists uri, parsed, key. split_and!; [|by apply parse_driver_uri_parsed|done|by eapply uri_key_not_password].
    unfold optional_string in Ho. by repeat case_match; simplify_eq.
  - destruct (client_info_from_key name) as [option|].
    { injection Hg as <-. right. right. destruct option; [by left|by left|right]. apply (bool_decide_unpack _); by vm_compute. }
    destruct (tuning_uri_key name); [|by apply stored_shown].
    right. right. right. apply (tuning_default_shown name). by destruct (tuning_default name); simplify_eq/=.
Qed.

(** C33. A database does not give credentials away by its getters, but for two keys
    that no option has under its own name.  However it was configured: the
    getter of the password is refused; the URI reads back as a URI
    without user name, without password and without a password among its
    parameters, the other parameters being those of the URI that was set; for every
    other key the text is that of an option other than the password and the URI, a
    parameter of the URI other than its password, or a default; and no getter of
    bytes, integers or doubles returns anything of the password or the URI.  The
    exceptions are the keys built as [Other] with the name of the password or of the
    URI: the getter of a text compares the key and not its name, and returns the
    password and the whole URI as they were set. *)
Theorem credentials_stay_secret opts d :
  new_database_with_opts opts = Ok d →
  (∀ key text, database_get_option_string d key = Ok text → key ≠ OdOther name_password → key ≠ OdOther name_uri →
     key ≠ OdPassword ∧ if decide (key = OdUri) then shows_uri d text else may_show d key text) ∧
  (∀ key, database_key key = name_password ∨ database_key key = name_uri →
     (∃ e, database_get_option_bytes d key = Err e) ∧ (∃ e, database_get_option_int d key = Err e) ∧
     ∃ e, database_get_option_double d key = Err e) ∧
  ∀ name text, name = name_password ∨ name = name_uri → database_options d !! name = Some (OString text) →
    database_get_option_string d (OdOther name) = Ok text.
Proof.
  intros Hn. assert (database_ok d) as Hd by (eapply database_set_options_ok; [|exact Hn]; intros key value [=]).
  pose proof database_names_differ as Hnames. rewrite !NoDup_cons, !elem_of_cons in Hnames. split_and!.
  - intros key text Hg Hp Hu. destruct key as [| | |name]; [|..|].
    + split; [done|]. rewrite decide_True by done. by apply stored_uri_shown.
    + split; [done|]. rewrite decide_False by done. apply stored_shown; [done|cbn; intros E; rewrite E in *; naive_solver..|done].
    + done.
    + split; [done|]. rewrite decide_False by done. assert (name ≠ name_password ∧ name ≠ name_uri) as [Hp' Hu'] by (split; congruence).
      destruct (database_options d !! name) as [v|] eqn:Hv; [|by apply unset_shown].
      apply stored_shown; [done..|]. unfold database_get_option_string in Hg. cbn [database_key] in Hg. by rewrite Hv in Hg.
  - intros key Hkey. assert (∀ v, database_options d !! database_key key = Some v → ∃ text, v = OString text) as Htext.
    { intros v Hv. destruct Hkey as [Hk|Hk]; rewrite Hk in Hv; [apply (Hd OdPassword v)|apply (Hd OdUri v)]; done. }
    unfold database_get_option_bytes, database_get_option_int, database_get_option_double, get_bytes, get_int, get_double.
    destruct (database_options d !! database_key key) as [v|]; [|split_and!; by eexists].
    destruct (Htext v eq_refl) as [text ->]. split_and!; by eexists.
  - intros name text _ Hv. unfold database_get_option_string. cbn [database_key]. rewrite Hv. unfold database_stored_string, get_string.
    cbn [database_key]. by rewrite Hv.
Qed.
End credentials.

(** ** Concrete inputs *)

(** The names of the ADBC standard, and a client library whose URLs are their
    parameters, for a user alice with a password. *)
#[global] Instance adbc_names : OptionNames := {|
  name_uri := str "uri"; name_username := str "username"; name_password := str "password";
  name_autocommit := str "adbc.connection.autocommit"; name_read_only := str "adbc.connection.readonly";
  name_current_catalog := str "adbc.connection.catalog"; name_current_schema := str "adbc.connection.db_schema";
  name_isolation_level := str "adbc.connection.transaction.isolation_level";
  name_ingest_mode := str "adbc.ingest.mode"; name_target_table := str "adbc.ingest.target_table";
  name_target_catalog := str "adbc.ingest.target_catalog"; name_target_db_schema := str "adbc.ingest.target_db_schema";
  name_temporary := str "adbc.ingest.temporary"; name_incremental := str "adbc.statement.exec.incremental";
  name_progress := str "adbc.statement.exec.progress"; name_max_progress := str "adbc.statement.exec.max_progress";
|}.

#[global] Instance adbc_names_ok : OptionNamesOk.
Proof.
  split; [intros key Hk; (destruct key; [..|by eexists]); apply (bool_decide_pack _) in Hk; by vm_compute in Hk..|].
  apply (bool_decide_unpack _). by vm_compute.
Qed.

Record ToyUrl : Type := mkToyUrl { toy_user : bytes; toy_password : option bytes; toy_pairs : list (bytes * bytes) }.

Fixpoint split_on (c : Z) (l : bytes) : list bytes :=
  match l with
  | [] => [[]]
  | b :: l => match split_on c l with w :: ws => if b =? c then [] :: w :: ws else (b :: w) :: ws | [] => [] end
  end.

Definition toy_pair (w : bytes) : bytes * bytes :=
  let key := take_while (λ b, negb (b =? 61)) w in (key, drop (S (length key)) w).

#[global] Instance toy_urls : Urls := {|
  url := ToyUrl;
  url_parse text := Ok (mkToyUrl (str "alice") (Some (str "secret")) (toy_pair <$> split_on 38 text));
  query_pairs := toy_pairs; url_username := toy_user; url_password := toy_password;
  set_username u name := Some (mkToyUrl name (toy_password u) (toy_pairs u));
  set_password u password := Some (mkToyUrl (toy_user u) password (toy_pairs u));
  set_query_pairs u pairs := mkToyUrl (toy_user u) (toy_password u) pairs;
  url_text u := toy_user u ++ default [] (toy_password u) ++ concat ((λ p, p.1 ++ [61] ++ p.2 ++ [38]) <$> toy_pairs u);
  percent_decode text := Ok text;
|}.

#[global] Instance toy_url_laws : UrlLaws.
Proof. by split; [intros u x u' [= <-]..|]. Qed.

#[global] Instance toy_limits : ClientLimits := {| MAX_TIMEOUT_SECONDS := 2147483 |}.

#[global] Instance toy_client : Client toy := {|
  parameters := list ParmSetting;
  from_url _ := Ok [];
  set_parm p setting := Ok (p ++ [setting]);
  parm_database _ := Ok (str "demo");
  parm_timeouts _ := Ok (None, mkTimeouts None None None);
  connect _ := Ok (mkToy [] [] [] true false);
  connect_error_text _ := [];
  little_endian _ := true;
  binary_level _ := 1;
  server_version d _ := (Ok (11, 55, 9), d);
  instant_checked_add a b := Some (a + b);
  package_version := str "1.0";
|}.

Definition toy_clock : Clock := mkClock 0 1 2 3 4 5 7.
Definition toy_scalar (_ : unit) : option (res Error RecordBatch) :=
  Some (Ok (mkRecordBatch [] [ABytes DUtf8 [Some (str "sys")]] 1)).

Definition toy_uri : bytes := str "read_window_bytes=2097152&wire_compression=none&password=hush&user=bob".
Definition toy_database_opts : list (OptionDatabase * OptionValue) :=
  [(OdUri, OString toy_uri); (OdPassword, OString (str "hush")); (OdOther WIRE_COMPRESSION_OPTION, OString (str "lz4"))].
Definition toy_database : MonetdbDatabase :=
  match new_database_with_opts toy_database_opts with Ok d => d | _ => database_new end.
Definition toy_opts : list (OptionConnection * OptionValue) :=
  [(OcOther READ_BATCH_ROWS_OPTION, OInt 4096); (OcOther READ_BATCH_ROWS_OPTION, OInt 98303)].

Definition toy_open : res Error (Conn toy) :=
  new_connection_with_opts (λ _, Ok tt) toy_scalar toy_clock toy_database toy_opts.

Lemma opened_connection_settings_witness :
  match toy_open with
  | Ok c =>
      field_text c "prepare_threshold" = Some (str "2") ∧
      (∃ text, field_text c "wire_compression" = Some text ∧ means "wire_compression" (OString (str "lz4")) text) ∧
      (∃ text, field_text c "read_window_bytes" = Some text ∧ means "read_window_bytes" (OString (str "2097152")) text) ∧
      ∃ text, field_text c "read_batch_rows" = Some text ∧ means "read_batch_rows" (OInt 98303) text
  | _ => False
  end.
Proof.
  assert (match toy_open with Ok _ => true | _ => false end = true) as Hopen by (by vm_compute).
  destruct toy_open as [c| |] eqn:Hc; [|done..]. clear Hopen.
  destruct (opened_connection_settings (λ _, Ok tt) toy_scalar toy_clock toy_database toy_opts c) as (_ & _ & _ & uri & parsed & Ht & Hu & Hs).
  - by repeat constructor.
  - apply map_Forall_to_list. assert (map_to_list (database_options toy_database) = _) as -> by (by vm_compute). by repeat constructor.
  - exact Hc.
  - assert (Some toy_uri = Some uri) as [= <-] by (rewrite <- Ht; by vm_compute).
    assert (uri_settings (query_pairs parsed) =
      [(READ_WINDOW_BYTES_OPTION, OString (str "2097152")); (WIRE_COMPRESSION_OPTION, OString (str "none"))]) as Hpairs
      by (cbn in Hu; injection Hu as <-; by vm_compute).
    rewrite Hpairs in Hs. split_and!.
    + destruct (Hs "prepare_threshold"%string "2"%string true) as (text & Hf & _ & Hm); [by apply (list_elem_of_lookup_2 _ 7)|].
      vm_compute (last_value _ _) in Hm. by rewrite Hf, Hm.
    + destruct (Hs "wire_compression"%string "auto"%string true) as (text & Hf & _ & Hm); [by apply (list_elem_of_lookup_2 _ 8)|].
      vm_compute (last_value _ _) in Hm. by exists text.
    + destruct (Hs "read_window_bytes"%string "0"%string true) as (text & Hf & _ & Hm); [by apply (list_elem_of_lookup_2 _ 0)|].
      vm_compute (last_value _ _) in Hm. by exists text.
    + destruct (Hs "read_batch_rows"%string "0"%string false) as (text & Hf & _ & Hm); [by apply (list_elem_of_lookup_2 _ 1)|].
      vm_compute (last_value _ _) in Hm. by exists text.
Defined.

Definition toy_statement : OptionedStatement :=
  new_statement (mkMonetdbConnection (default_tuning (mkTimeouts None None None)) 0 ∅ MINIMUM_VERSION (str "demo")).

Lemma statement_option_roundtrip_witness :
  match statement_set_option toy_statement (OsOther READ_BATCH_ROWS_OPTION) (OInt 98303) with
  | Ok st' =>
      statement_get_option_string st' (OsOther READ_BATCH_ROWS_OPTION) = Ok (str "65536") ∧
      ∃ st'', statement_set_option st' (OsOther READ_BATCH_ROWS_OPTION) (OString (str "65536")) = Ok st'' ∧
        os_tuning st'' = os_tuning st'
  | _ => False
  end.
Proof.
  assert (match statement_set_option toy_statement (OsOther READ_BATCH_ROWS_OPTION) (OInt 98303) with
          | Ok st' => statement_get_option_string st' (OsOther READ_BATCH_ROWS_OPTION) = Ok (str "65536") | _ => False end) as Hg
    by (by vm_compute).
  destruct (statement_set_option toy_statement _ _) as [st'| |] eqn:Hs; [|done..]. split; [done|].
  destruct (statement_option_roundtrip toy_statement (OsOther READ_BATCH_ROWS_OPTION) (OInt 98303) st' (str "65536"))
    as (st'' & H1 & H2 & _); [done|exact Hs|exact Hg|]. by exists st''.
Defined.

Lemma settings_stay_usable_witness :
  let s := mkConn (mkMonetdbConnection (default_tuning (mkTimeouts None None None)) 0 ∅ MINIMUM_VERSION (str "demo"))
             (mkDriver (mkSession connection_new (mkToy [] [] [] true false) 0 []) (mkPreparedCache 1 ∅ 0) [] []) in
  let copts := [(OcOther WRITE_BATCH_ROWS_OPTION, OInt 5); (OcOther PREPARED_CACHE_CAPACITY_OPTION, OInt 0)] in
  let sopts := [(OsOther WRITE_WINDOW_BYTES_OPTION, OInt 100)] in
  let s' := (connection_set_options copts s).2 in
  let t := os_tuning (statement_set_options (new_statement (conn s')) sopts) in
  (write_batch_rows t, write_window_bytes t, capacity (prepared_cache (inner s'))) = (Some 5, None, 1%nat) ∧
  budget_ok (scheduler_new [] [] DEFAULT_WRITE_WINDOW_BYTES 1 1 (write_batch_rows t) WC_Auto).
Proof.
  intros s copts sopts s' t. split; [by vm_compute|].
  pose proof (settings_stay_usable copts sopts s None 0 1 None [] [] WC_Auto) as Hs. cbv zeta in Hs. fold s' in Hs. fold t in Hs.
  destruct (write_window_budgets _ _ _ _) as [[budget physical] incompressible].
  destruct Hs as (_ & Hb & _); [by repeat constructor..| |done|exact Hb].
  split; [apply default_tuning_ok|]. exists (mkLru 1 []). split_and!; [done|cbn; lia|]. exists [].
  split_and!; [|cbn; lia|done]. constructor; by repeat constructor.
Defined.

Lemma credentials_stay_secret_witness :
  (∀ text, database_get_option_string toy_database OdPassword ≠ Ok text) ∧
  database_get_option_string toy_database OdUri = Ok (str "read_window_bytes=2097152&wire_compression=none&user=bob&") ∧
  shows_uri toy_database (str "read_window_bytes=2097152&wire_compression=none&user=bob&") ∧
  database_get_option_string toy_database (OdOther (str "password")) = Ok (str "hush").
Proof.
  destruct (credentials_stay_secret toy_database_opts toy_database) as (Hs & _ & He); [by vm_compute|].
  assert (database_get_option_string toy_database OdUri = Ok (str "read_window_bytes=2097152&wire_compression=none&user=bob&")) as Hu by by vm_compute.
  split_and!; [|exact Hu| |].
  - intros text Hp. by destruct (Hs OdPassword text Hp).
  - by destruct (Hs OdUri _ Hu) as [_ Hshow].
  - apply (He (str "password")); [by left|by vm_compute].
Defined.
