(* ===== verification/Metadata.v ===== *)
(** Metadata ([crates/adbc-monetdb/src/driver/metadata.rs], and [info_value] and
    [info_batch] of [driver.rs]): LIKE patterns, the queries over the catalog, the
    assembly of their rows into schemas, tables, columns and constraints, and
    their form as nested lists.

    A character is its bytes.  The reader of a query is a parameter: what opening
    it gives, and the batches it returns. *)

From stdpp Require Import base list numbers strings gmap.
From S2P Require Import Prelude RustStd Types ArrowData Errors SqlScan Template Transactions Prepare ParameterBatch Connection.
Local Open Scope Z_scope.

(** ** LIKE patterns *)

Definition percent : bytes := [37].
Definition underscore : bytes := [95].
Definition backslash : bytes := [92].

Fixpoint validate_like_chars (chars : list bytes) : res Error unit :=
  match chars with
  | [] => Ok tt
  | character :: chars =>
      if bool_decide (character = backslash) then
        match chars with
        | [] => Err (error "metadata LIKE pattern ends with an escape character" InvalidArguments)
        | escaped :: chars =>
            if bool_decide (escaped ∈ [percent; underscore; backslash]) then validate_like_chars chars
            else Err (mkError (str "metadata LIKE pattern has invalid escape '\" ++ escaped ++ [39]) InvalidArguments)
        end
      else validate_like_chars chars
  end.
Definition validate_like_pattern (pattern : bytes) : res Error unit := validate_like_chars (chars pattern).

Inductive Token : Type := Many | One | Literal (character : bytes).

Fixpoint like_tokens (chars : list bytes) : res Error (list Token) :=
  match chars with
  | [] => Ok []
  | character :: chars =>
      if bool_decide (character = percent) then tokens ← like_tokens chars; Ok (Many :: tokens)
      else if bool_decide (character = underscore) then tokens ← like_tokens chars; Ok (One :: tokens)
      else if bool_decide (character = backslash) then
        match chars with
        | [] => Panic
        | escaped :: chars => tokens ← like_tokens chars; Ok (Literal escaped :: tokens)
        end
      else tokens ← like_tokens chars; Ok (Literal character :: tokens)
  end.

(** The variables of the loop. *)
Record LikeState : Type := mkLike { token : nat; character : nat; star : option nat; retry : nat }.

Definition like_mismatch (s : LikeState) : option LikeState :=
  match star s with
  | Some st => Some (mkLike (st + 1) (retry s + 1) (Some st) (retry s + 1))
  | None => None
  end.

(** One round, while there are characters; [None] is [return Ok(false)]. *)
Definition like_round (tokens : list Token) (current : bytes) (s : LikeState) : option LikeState :=
  match tokens !! token s with
  | Some (Literal expected) =>
      if bool_decide (expected = current) then Some (mkLike (token s + 1) (character s + 1) (star s) (retry s))
      else like_mismatch s
  | Some One => Some (mkLike (token s + 1) (character s + 1) (star s) (retry s))
  | Some Many => Some (mkLike (token s + 1) (character s) (Some (token s)) (character s))
  | None => like_mismatch s
  end.

Fixpoint trailing_many (tokens : list Token) : nat :=
  match tokens with
  | Many :: tokens => S (trailing_many tokens)
  | _ => 0%nat
  end.

Fixpoint like_loop (fuel : nat) (tokens : list Token) (value : list bytes) (s : LikeState) : res Error bool :=
  match value !! character s with
  | None => Ok (token s + trailing_many (drop (token s) tokens) =? length tokens)%nat
  | Some current =>
      match fuel with
      | O => Panic
      | S fuel =>
          match like_round tokens current s with
          | Some s => like_loop fuel tokens value s
          | None => Ok false
          end
      end
  end.

(** Every round moves the retry position on or, with it unchanged, the token. *)
Definition like_fuel (tokens : list Token) (value : list bytes) : nat := (S (length value) * S (length tokens))%nat.

Definition like_pattern_matches (pattern value : bytes) : res Error bool :=
  _ ← validate_like_pattern pattern;
  tokens ← like_tokens (chars pattern);
  like_loop (like_fuel tokens (chars value)) tokens (chars value) (mkLike 0 0 None 0).

Definition matches_filter (filter : option bytes) (value : bytes) : res Error bool :=
  match filter with
  | Some pattern => like_pattern_matches pattern value
  | None => Ok true
  end.

Definition like_predicate (column : string) (pattern : option bytes) : res Error (option bytes) :=
  match pattern with
  | Some pattern =>
      _ ← validate_like_pattern pattern;
      literal ← raw_string_literal pattern;
      Ok (Some (str column ++ str " LIKE " ++ literal ++ str " ESCAPE R'\'"))
  | None => Ok None
  end.

Definition in_predicate (column : string) (values : option (list bytes)) : res Error (option bytes) :=
  match values with
  | Some [] => Ok (Some (str "FALSE"))
  | Some values =>
      literals ← map_res raw_string_literal values;
      Ok (Some (str column ++ str " IN (" ++ join (str ", ") literals ++ str ")"))
  | None => Ok None
  end.

(** ** The objects of a catalog *)

Record ObjectColumn : Type := mkObjectColumn {
  oc_name : bytes;
  oc_ordinal : Z;
  oc_remarks : option bytes;
  oc_type_name : bytes;
  oc_digits : Z;
  oc_scale : Z;
  oc_nullable : bool;
  oc_default : option bytes;
}.

Record ConstraintUsage : Type := mkUsage { usage_schema : bytes; usage_table : bytes; usage_column : bytes }.

Record ObjectConstraint : Type := mkObjectConstraint {
  constraint_name : option bytes;
  constraint_type : bytes;
  constraint_columns : list bytes;
  constraint_usage : option (list ConstraintUsage);
}.

Record ObjectTable : Type := mkObjectTable {
  table_name : bytes;
  table_type : bytes;
  table_columns : list ObjectColumn;
  table_constraints : list ObjectConstraint;
}.

Record ObjectSchema : Type := mkObjectSchema { schema_name : bytes; schema_tables : list ObjectTable }.

Inductive ObjectDepth : Type := DepthAll | DepthCatalogs | DepthSchemas | DepthTables | DepthColumns.
#[global] Instance object_depth_eq : EqDecision ObjectDepth.
Proof. solve_decision. Defined.

(** [array_as]: a column as an array of one type; without it, [batch.column] panics. *)
Definition unexpected_column (index : nat) : Error :=
  mkError (str "metadata column " ++ fmt_int (Z.of_nat index) ++ str " has an unexpected type") Internal.

Definition string_array (batch : RecordBatch) (index : nat) : res Error (list (option bytes)) :=
  column ← or_panic (batch_columns batch !! index);
  match column with ABytes DUtf8 values => Ok values | _ => Err (unexpected_column index) end.
Definition int32_array (batch : RecordBatch) (index : nat) : res Error (list Z) :=
  column ← or_panic (batch_columns batch !! index);
  match column with APrimitive DInt32 values _ => Ok values | _ => Err (unexpected_column index) end.
Definition boolean_array (batch : RecordBatch) (index : nat) : res Error (list bool) :=
  column ← or_panic (batch_columns batch !! index);
  match column with ABoolean values _ => Ok values | _ => Err (unexpected_column index) end.

(** [value(row)], which of a NULL text is the empty text, and the text unless it
    [is_null]. *)
Definition text_at (values : list (option bytes)) (row : nat) : res Error bytes := default [] <$> or_panic (values !! row).
Definition optional_at (values : list (option bytes)) (row : nat) : res Error (option bytes) := or_panic (values !! row).

(** [last_mut]. *)
Fixpoint alter_last {A} (f : A → A) (l : list A) : list A :=
  match l with
  | [] => []
  | [x] => [f x]
  | x :: l => x :: alter_last f l
  end.

Definition push_schema (schemas : list ObjectSchema) (name : bytes) : list ObjectSchema :=
  if bool_decide (schema_name <$> last schemas = Some name) then schemas else schemas ++ [mkObjectSchema name []].
Definition push_table (schema : ObjectSchema) (table : ObjectTable) : ObjectSchema :=
  mkObjectSchema (schema_name schema) (schema_tables schema ++ [table]).
(** A table of the same name as the last is the last. *)
Definition push_new_table (name table_type : bytes) (schema : ObjectSchema) : ObjectSchema :=
  if bool_decide (table_name <$> last (schema_tables schema) = Some name) then schema
  else push_table schema (mkObjectTable name table_type [] []).
Definition push_column (column : ObjectColumn) (schema : ObjectSchema) : ObjectSchema :=
  mkObjectSchema (schema_name schema)
    (alter_last (λ t, mkObjectTable (table_name t) (table_type t) (table_columns t ++ [column]) (table_constraints t))
       (schema_tables schema)).

(** One row of the query over columns. *)
Record ColumnRow : Type := mkColumnRow {
  cr_schema : bytes;
  cr_table : option bytes;
  cr_table_type : bytes;
  cr_column : option bytes;
  cr_ordinal : Z;
  cr_type_name : bytes;
  cr_digits : Z;
  cr_scale : Z;
  cr_nullable : bool;
  cr_default : option bytes;
  cr_remark : option bytes;
}.

Definition i32_checked_add (a b : Z) : option Z := if signed_range 32 (a + b) then Some (a + b) else None.

Definition type_listed (table_types : option (list bytes)) (table_type : bytes) : bool :=
  match table_types with Some types => bool_decide (table_type ∈ types) | None => true end.

Section assembly.
Context (schema_filter table_filter column_filter : option bytes) (table_types : option (list bytes)).

Definition object_column (name : bytes) (r : ColumnRow) : res Error ObjectColumn :=
  ordinal ← ok_or (i32_checked_add (cr_ordinal r) 1) (error "column ordinal overflows i32" Internal);
  Ok (mkObjectColumn name ordinal (cr_remark r) (cr_type_name r) (cr_digits r) (cr_scale r) (cr_nullable r) (cr_default r)).

(** The body of the loop over the rows. *)
Definition add_column_row (schemas : list ObjectSchema) (r : ColumnRow) : res Error (list ObjectSchema) :=
  listed ← matches_filter schema_filter (cr_schema r);
  if negb listed then Ok schemas
  else
    let schemas := push_schema schemas (cr_schema r) in
    match cr_table r with
    | None => Ok schemas
    | Some table =>
        listed ← matches_filter table_filter table;
        if negb (listed && type_listed table_types (cr_table_type r)) then Ok schemas
        else
          let schemas := alter_last (push_new_table table (cr_table_type r)) schemas in
          match cr_column r with
          | None => Ok schemas
          | Some column =>
              listed ← matches_filter column_filter column;
              if negb listed then Ok schemas
              else
                column ← object_column column r;
                Ok (alter_last (push_column column) schemas)
          end
    end.

Fixpoint add_column_rows (schemas : list ObjectSchema) (rows : list (res Error ColumnRow)) : res Error (list ObjectSchema) :=
  match rows with
  | [] => Ok schemas
  | row :: rows => row ← row; schemas ← add_column_row schemas row; add_column_rows schemas rows
  end.
End assembly.

(** ** Rows of the catalog queries *)

Definition column_row (batch : RecordBatch) (row : nat) : res Error ColumnRow :=
  schema_names ← string_array batch 0; table_names ← string_array batch 1; table_type_names ← string_array batch 2;
  column_names ← string_array batch 3; ordinals ← int32_array batch 4; type_names ← string_array batch 5;
  digits ← int32_array batch 6; scales ← int32_array batch 7; nullable ← boolean_array batch 8;
  defaults ← string_array batch 9; remarks ← string_array batch 10;
  schema ← text_at schema_names row; table ← optional_at table_names row; table_type ← text_at table_type_names row;
  column ← optional_at column_names row; ordinal ← or_panic (ordinals !! row); type_name ← text_at type_names row;
  digits ← or_panic (digits !! row); scale ← or_panic (scales !! row); nullable ← or_panic (nullable !! row);
  default ← optional_at defaults row; remark ← optional_at remarks row;
  Ok (mkColumnRow schema table table_type column ordinal type_name digits scale nullable default remark).

(** The rows of the batches; a batch with rows must have its columns. *)
Definition batch_rows_of {A} (check : RecordBatch → res Error unit) (row : RecordBatch → nat → res Error A)
    (batch : res Error RecordBatch) : list (res Error A) :=
  match (batch ← batch; _ ← check batch; Ok batch) with
  | Ok batch => row batch <$> seq 0 (batch_rows batch)
  | Err e => [Err e]
  | Panic => [Panic]
  end.

(** The columns a loop reads, in its order. *)
Inductive ArrayKind : Type := KString | KInt32 | KBoolean.

Fixpoint check_columns (columns : list (nat * ArrayKind)) (batch : RecordBatch) : res Error unit :=
  match columns with
  | [] => Ok tt
  | (index, kind) :: columns =>
      _ ← match kind with
          | KString => _ ← string_array batch index; Ok tt
          | KInt32 => _ ← int32_array batch index; Ok tt
          | KBoolean => _ ← boolean_array batch index; Ok tt
          end;
      check_columns columns batch
  end.

(** Those of the loop over the columns of a catalog. *)
Definition object_columns : list (nat * ArrayKind) :=
  [(0%nat, KString); (1%nat, KString); (2%nat, KString); (3%nat, KString); (4%nat, KInt32); (5%nat, KString); (6%nat, KInt32);
   (7%nat, KInt32); (8%nat, KBoolean); (9%nat, KString); (10%nat, KString)].

Record ConstraintRow : Type := mkConstraintRow {
  kr_schema : bytes;
  kr_table : bytes;
  kr_name : option bytes;
  kr_type : Z;
  kr_column : option bytes;
  kr_usage_schema : option bytes;
  kr_usage_table : option bytes;
  kr_usage_column : option bytes;
}.

Definition constraint_row (batch : RecordBatch) (row : nat) : res Error ConstraintRow :=
  schema_names ← string_array batch 0; table_names ← string_array batch 1; names ← string_array batch 2;
  types ← int32_array batch 3; columns ← string_array batch 4; usage_schemas ← string_array batch 6;
  usage_tables ← string_array batch 7; usage_columns ← string_array batch 8;
  schema ← text_at schema_names row; table ← text_at table_names row; name ← optional_at names row;
  type ← or_panic (types !! row); column ← optional_at columns row; usage_schema ← optional_at usage_schemas row;
  usage_table ← optional_at usage_tables row; usage_column ← optional_at usage_columns row;
  Ok (mkConstraintRow schema table name type column usage_schema usage_table usage_column).

Definition constraint_type_name (value : Z) : bytes :=
  str (if value =? 0 then "PRIMARY KEY"
       else if (value =? 1) || (value =? 3) then "UNIQUE"
       else if value =? 2 then "FOREIGN KEY"
       else if value =? 4 then "CHECK"
       else "UNKNOWN").

(** [table_indices]: where each table is; of two with one name the later. *)
Definition table_positions (schemas : list ObjectSchema) : list (bytes * bytes * (nat * nat)) :=
  concat (imap (λ schema_index schema,
    imap (λ table_index table, ((schema_name schema, table_name table), (schema_index, table_index))) (schema_tables schema)) schemas).
Definition table_indices (schemas : list ObjectSchema) : gmap (bytes * bytes) (nat * nat) :=
  foldl (λ (m : gmap (bytes * bytes) (nat * nat)) entry, <[entry.1 := entry.2]> m) ∅ (table_positions schemas).

Definition add_constraint_row (r : ConstraintRow) (table : ObjectTable) : ObjectTable :=
  let kind := constraint_type_name (kr_type r) in
  let constraints :=
    if bool_decide ((λ c, (constraint_name c, constraint_type c)) <$> last (table_constraints table) = Some (kr_name r, kind))
    then table_constraints table
    else table_constraints table
           ++ [mkObjectConstraint (kr_name r) kind [] (if bool_decide (kind = str "FOREIGN KEY") then Some [] else None)] in
  let add := λ c,
    mkObjectConstraint (constraint_name c) (constraint_type c)
      (constraint_columns c ++ match kr_column r with Some column => [column] | None => [] end)
      (match constraint_usage c, kr_usage_schema r, kr_usage_table r, kr_usage_column r with
       | Some usage, Some s, Some t, Some c => Some (usage ++ [mkUsage s t c])
       | usage, _, _, _ => usage
       end) in
  mkObjectTable (table_name table) (table_type table) (table_columns table) (alter_last add constraints).

(** [schemas[schema_index].tables[table_index]]; the indices are of [schemas]. *)
Definition alter_table (f : ObjectTable → ObjectTable) (at_ : nat * nat) (schemas : list ObjectSchema) : list ObjectSchema :=
  alter (λ schema, mkObjectSchema (schema_name schema) (alter f at_.2 (schema_tables schema))) at_.1 schemas.

Fixpoint add_constraint_rows (indices : gmap (bytes * bytes) (nat * nat)) (schemas : list ObjectSchema)
    (rows : list (res Error ConstraintRow)) : res Error (list ObjectSchema) :=
  match rows with
  | [] => Ok schemas
  | row :: rows =>
      row ← row;
      let schemas :=
        match indices !! (kr_schema row, kr_table row) with
        | Some at_ => alter_table (add_constraint_row row) at_ schemas
        | None => schemas
        end in
      add_constraint_rows indices schemas rows
  end.

Fixpoint add_schema_rows (schemas : list ObjectSchema) (rows : list (res Error bytes)) : res Error (list ObjectSchema) :=
  match rows with
  | [] => Ok schemas
  | row :: rows => name ← row; add_schema_rows (schemas ++ [mkObjectSchema name []]) rows
  end.

Definition table_row (batch : RecordBatch) (row : nat) : res Error (bytes * option bytes * bytes) :=
  schema_names ← string_array batch 0; table_names ← string_array batch 1; table_type_names ← string_array batch 2;
  schema ← text_at schema_names row; table ← optional_at table_names row; table_type ← text_at table_type_names row;
  Ok (schema, table, table_type).

Fixpoint add_table_rows (schemas : list ObjectSchema) (rows : list (res Error (bytes * option bytes * bytes)))
    : res Error (list ObjectSchema) :=
  match rows with
  | [] => Ok schemas
  | row :: rows =>
      '(schema, table, table_type) ← row;
      let schemas := push_schema schemas schema in
      let schemas :=
        match table with
        | Some name => alter_last (λ s, push_table s (mkObjectTable name table_type [] [])) schemas
        | None => schemas
        end in
      add_table_rows schemas rows
  end.

(** A field with the nullability of the catalog. *)
Record SchemaRow : Type := mkSchemaRow { sr_name : bytes; sr_type : bytes; sr_digits : Z; sr_scale : Z; sr_nullable : bool }.

Definition schema_row (batch : RecordBatch) (row : nat) : res Error SchemaRow :=
  names ← string_array batch 0; type_names ← string_array batch 1; digits ← int32_array batch 2;
  scales ← int32_array batch 3; nullable ← boolean_array batch 4;
  name ← text_at names row; type_name ← text_at type_names row; digits ← or_panic (digits !! row);
  scale ← or_panic (scales !! row); nullable ← or_panic (nullable !! row);
  Ok (mkSchemaRow name type_name digits scale nullable).

(** ** The queries *)

(** The lines of a query are joined by newlines with their indentation. *)
Definition lines (l : list bytes) : bytes := join [10] l.
Definition quoted (name : string) : bytes := [34] ++ str name ++ [34].

Definition and_filters (predicates : list (option bytes)) : bytes :=
  concat ((λ predicate, str " AND " ++ predicate) <$> omap id predicates).
Definition where_clause (predicate : option bytes) : bytes :=
  match predicate with Some predicate => str "WHERE " ++ predicate | None => [] end.

Definition columns_query (table_join_filters column_join_filter schema_where : bytes) : bytes :=
  lines [[];
    str "        SELECT s.name AS schema_name,";
    str "               t.name AS table_name,";
    str "               tt.table_type_name AS table_type,";
    str "               c.name AS column_name,";
    str "               c.number AS ordinal_position,";
    str "               c.type AS type_name,";
    str "               c.type_digits,";
    str "               c.type_scale,";
    str "               c." ++ quoted "null" ++ str " AS is_nullable,";
    str "               c." ++ quoted "default" ++ str " AS column_default,";
    str "               cm.remark";
    str "          FROM sys.schemas AS s";
    str "          LEFT OUTER JOIN (";
    str "              SELECT t.*, tt.table_type_name";
    str "                FROM sys.tables AS t";
    str "                JOIN sys.table_types AS tt ON tt.table_type_id = t.type";
    str "               WHERE TRUE " ++ table_join_filters;
    str "          ) AS t ON t.schema_id = s.id";
    str "          LEFT OUTER JOIN sys.table_types AS tt ON tt.table_type_id = t.type";
    str "          LEFT OUTER JOIN sys.columns AS c ON c.table_id = t.id" ++ column_join_filter;
    str "          LEFT OUTER JOIN sys.comments AS cm ON cm.id = c.id";
    str "         " ++ schema_where;
    str "         ORDER BY s.name, t.name, c.number";
    str "    "].

Definition tables_query (table_join_filters schema_where : bytes) : bytes :=
  str "SELECT s.name, t.name, t.table_type_name FROM sys.schemas AS s LEFT OUTER JOIN (SELECT t.*, tt.table_type_name FROM sys.tables AS t JOIN sys.table_types AS tt ON tt.table_type_id = t.type WHERE TRUE "
  ++ table_join_filters ++ str ") AS t ON t.schema_id = s.id " ++ schema_where ++ str " ORDER BY s.name, t.name".

Definition schemas_query (predicate : bytes) : bytes :=
  str "SELECT name FROM sys.schemas " ++ predicate ++ str " ORDER BY name".

Definition constraints_query (where_ : bytes) : bytes :=
  lines [[];
    str "        SELECT s.name AS schema_name,";
    str "               t.name AS table_name,";
    str "               k.name AS constraint_name,";
    str "               k.type AS constraint_type,";
    str "               kc.name AS column_name,";
    str "               kc.nr AS column_number,";
    str "               ps.name AS usage_schema,";
    str "               pt.name AS usage_table,";
    str "               pc.name AS usage_column";
    str "          FROM sys.keys AS k";
    str "          JOIN sys.tables AS t ON t.id = k.table_id";
    str "          JOIN sys.schemas AS s ON s.id = t.schema_id";
    str "          JOIN sys.table_types AS tt ON tt.table_type_id = t.type";
    str "          LEFT OUTER JOIN sys.objects AS kc ON kc.id = k.id";
    str "          LEFT OUTER JOIN sys.keys AS pk ON pk.id = k.rkey";
    str "          LEFT OUTER JOIN sys.tables AS pt ON pt.id = pk.table_id";
    str "          LEFT OUTER JOIN sys.schemas AS ps ON ps.id = pt.schema_id";
    str "          LEFT OUTER JOIN sys.objects AS pc ON pc.id = pk.id AND pc.nr = kc.nr";
    str "         " ++ where_;
    str "         ORDER BY s.name, t.name, k.name, kc.nr";
    str "    "].

Definition table_schema_query (schema_name table_name : bytes) : bytes :=
  lines [[];
    str "        SELECT c.name, c.type, c.type_digits, c.type_scale, c." ++ quoted "null";
    str "          FROM sys.columns AS c";
    str "          JOIN sys.tables AS t ON t.id = c.table_id";
    str "          JOIN sys.schemas AS s ON s.id = t.schema_id";
    str "         WHERE s.name = " ++ schema_name ++ str " AND t.name = " ++ table_name;
    str "         ORDER BY c.number";
    str "        "].

(** ** Types of columns for XDBC *)

Record XdbcType : Type := mkXdbc {
  xdbc_data_type : option Z;
  xdbc_sql_data_type : option Z;
  xdbc_datetime_sub : option Z;
  xdbc_size : option Z;
  xdbc_decimal_digits : option Z;
  xdbc_radix : option Z;
  xdbc_char_length : option Z;
}.

(** The entry of a name in a table of names, and of a number in one of numbers. *)
Fixpoint by_name {A} (table : list (string * A)) (name : bytes) : option A :=
  match table with
  | [] => None
  | (key, value) :: table => if bool_decide (name = str key) then Some value else by_name table name
  end.
Fixpoint by_number {A} (table : list (Z * A)) (n : Z) : option A :=
  match table with
  | [] => None
  | (key, value) :: table => if n =? key then Some value else by_number table n
  end.

Definition i16_try_from (n : Z) : option Z := if signed_range 16 n then Some n else None.

Definition xdbc_codes (name : bytes) (digits : Z) : option Z * option Z * option Z :=
  if bool_decide (name = str "month_interval") then
    default (None, Some 10, None)
      (by_number [(1, (Some 101, Some 10, Some 1)); (2, (Some 107, Some 10, Some 7)); (3, (Some 102, Some 10, Some 2))] digits)
  else if bool_decide (name = str "sec_interval") then
    default (None, Some 10, None)
      (by_number [(4, (Some 103, Some 10, Some 3)); (5, (Some 108, Some 10, Some 8)); (6, (Some 109, Some 10, Some 9));
                  (7, (Some 110, Some 10, Some 10)); (8, (Some 104, Some 10, Some 4)); (9, (Some 111, Some 10, Some 11));
                  (10, (Some 112, Some 10, Some 12)); (11, (Some 105, Some 10, Some 5)); (12, (Some 113, Some 10, Some 13));
                  (13, (Some 106, Some 10, Some 6))] digits)
  else
    default (None, None, None)
      (by_name [("boolean", (Some (-7), Some (-7), None)); ("tinyint", (Some (-6), Some (-6), None));
                ("smallint", (Some 5, Some 5, None)); ("int", (Some 4, Some 4, None)); ("integer", (Some 4, Some 4, None));
                ("bigint", (Some (-5), Some (-5), None)); ("hugeint", (Some 16384, Some 16384, None));
                ("decimal", (Some 3, Some 3, None)); ("real", (Some 7, Some 7, None)); ("double", (Some 8, Some 8, None));
                ("date", (Some 91, Some 9, Some 1)); ("time", (Some 92, Some 9, Some 2)); ("timetz", (Some 92, Some 9, Some 2));
                ("timestamp", (Some 93, Some 9, Some 3)); ("timestamptz", (Some 93, Some 9, Some 3));
                ("blob", (Some (-4), Some (-4), None)); ("char", (Some (-8), Some (-8), None));
                ("clob", (Some (-10), Some (-10), None)); ("varchar", (Some (-9), Some (-9), None));
                ("uuid", (None, Some (-11), None)); ("day_interval", (None, Some 10, Some 3))]%string name).

Definition xdbc_size_of (name : bytes) (digits : Z) : option Z :=
  if bool_decide (name = str "month_interval") then by_number [(1, 26); (2, 38); (3, 27)] digits
  else if bool_decide (name = str "sec_interval") then
    by_number [(4, 25); (5, 36); (6, 41); (7, 47); (8, 26); (9, 39); (10, 45); (11, 28); (12, 44); (13, 30)] digits
  else
    match by_name [("date", 10); ("day_interval", 25); ("time", 12); ("timetz", 12); ("timestamp", 23); ("timestamptz", 23);
                   ("uuid", 36)]%string name with
    | Some size => Some size
    | None => if 0 <? digits then Some digits else None
    end.

Definition is_name (names : list string) (name : bytes) : bool := existsb (λ n, bool_decide (name = str n)) names.

Definition i32_checked_sub (a b : Z) : option Z := if signed_range 32 (a - b) then Some (a - b) else None.
Definition i32_checked_mul (a b : Z) : option Z := if signed_range 32 (a * b) then Some (a * b) else None.

Definition xdbc_decimal_digits_of (name : bytes) (digits scale : Z) : option Z :=
  if is_name ["tinyint"; "smallint"; "int"; "integer"; "bigint"; "hugeint"; "day_interval"; "month_interval"; "sec_interval"]%string name
  then Some 0
  else if is_name ["decimal"]%string name then i16_try_from scale
  else if is_name ["real"]%string name && (digits =? 24) && (scale =? 0) then Some 7
  else if is_name ["double"]%string name && (digits =? 53) && (scale =? 0) then Some 15
  else if is_name ["real"; "double"]%string name then i16_try_from digits
  else if is_name ["time"; "timetz"; "timestamp"; "timestamptz"]%string name then
    match i32_checked_sub digits 1 with Some value => i16_try_from value | None => None end
  else None.

Definition xdbc_radix_of (name : bytes) (digits scale : Z) : option Z :=
  if is_name ["tinyint"; "smallint"; "int"; "integer"; "bigint"; "hugeint"]%string name then Some 2
  else if is_name ["decimal"]%string name then Some 10
  else if is_name ["real"]%string name && (digits =? 24) && (scale =? 0) then Some 2
  else if is_name ["double"]%string name && (digits =? 53) && (scale =? 0) then Some 2
  else if is_name ["real"; "double"]%string name then Some 10
  else None.

Definition xdbc_char_length_of (name : bytes) (digits : Z) : option Z :=
  let length :=
    if is_name ["char"; "varchar"; "clob"; "json"; "url"; "xml"]%string name then i32_checked_mul digits 4
    else if is_name ["blob"]%string name then Some digits
    else None in
  match length with Some n => if 0 <? n then Some n else None | None => None end.

Definition xdbc_type (column : ObjectColumn) : XdbcType :=
  let name := map to_ascii_lower (oc_type_name column) in
  let '(data_type, sql_data_type, datetime_sub) := xdbc_codes name (oc_digits column) in
  mkXdbc data_type sql_data_type datetime_sub (xdbc_size_of name (oc_digits column))
    (xdbc_decimal_digits_of name (oc_digits column) (oc_scale column))
    (xdbc_radix_of name (oc_digits column) (oc_scale column)) (xdbc_char_length_of name (oc_digits column)).

(** ** The nested lists *)

(** The items of the canonical schema of [get_objects]; [None] is NULL.  The
    fields that are always NULL are left out: scopes (14 to 16) and the flags of
    generated columns (17 and 18). *)
Record ColumnItem : Type := mkColumnItem {
  ci_name : bytes;
  ci_ordinal : Z;
  ci_remarks : option bytes;
  ci_data_type : option Z;
  ci_type_name : bytes;
  ci_size : option Z;
  ci_decimal_digits : option Z;
  ci_radix : option Z;
  ci_nullable : Z;
  ci_default : option bytes;
  ci_sql_data_type : option Z;
  ci_datetime_sub : option Z;
  ci_octet_length : option Z;
  ci_is_nullable : bytes;
}.

Record UsageItem : Type := mkUsageItem { ui_catalog : bytes; ui_schema : bytes; ui_table : bytes; ui_column : bytes }.
Record ConstraintItem : Type := mkConstraintItem {
  ki_name : option bytes; ki_type : bytes; ki_columns : list bytes; ki_usage : option (list UsageItem) }.
Record TableItem : Type := mkTableItem {
  ti_name : bytes; ti_type : bytes; ti_columns : option (list ColumnItem); ti_constraints : option (list ConstraintItem) }.
Record SchemaItem : Type := mkSchemaItem { si_name : bytes; si_tables : option (list TableItem) }.

Definition append_object_column (column : ObjectColumn) : ColumnItem :=
  let xdbc := xdbc_type column in
  mkColumnItem (oc_name column) (oc_ordinal column) (oc_remarks column) (xdbc_data_type xdbc)
    (to_ascii_uppercase (oc_type_name column)) (xdbc_size xdbc) (xdbc_decimal_digits xdbc) (xdbc_radix xdbc)
    (if oc_nullable column then 1 else 0) (oc_default column) (xdbc_sql_data_type xdbc) (xdbc_datetime_sub xdbc)
    (xdbc_char_length xdbc) (str (if oc_nullable column then "YES" else "NO")).

Definition append_object_constraint (catalog : bytes) (constraint : ObjectConstraint) : ConstraintItem :=
  mkConstraintItem (constraint_name constraint) (constraint_type constraint) (constraint_columns constraint)
    ((λ usage : list ConstraintUsage, (λ u, mkUsageItem catalog (usage_schema u) (usage_table u) (usage_column u)) <$> usage)
       <$> constraint_usage constraint).

Definition append_object_table (catalog : bytes) (depth : ObjectDepth) (table : ObjectTable) : TableItem :=
  mkTableItem (table_name table) (table_type table)
    (if bool_decide (depth = DepthTables) then None else Some (append_object_column <$> table_columns table))
    (if bool_decide (depth = DepthTables) then None else Some (append_object_constraint catalog <$> table_constraints table)).

Definition append_object_schema (catalog : bytes) (depth : ObjectDepth) (schema : ObjectSchema) : SchemaItem :=
  mkSchemaItem (schema_name schema)
    (if bool_decide (depth = DepthSchemas) then None else Some (append_object_table catalog depth <$> schema_tables schema)).

(** The rows: a catalog with its schemas, if it is included. *)
Definition objects_batch (catalog : bytes) (include_catalog : bool) (depth : ObjectDepth) (schemas : list ObjectSchema)
    : list (bytes * option (list SchemaItem)) :=
  if include_catalog then
    [(catalog, if bool_decide (depth = DepthCatalogs) then None else Some (append_object_schema catalog depth <$> schemas))]
  else [].

(** ** Loading *)

Section loading.
Context {db : Type} `{!Server db, CursorDisplay, Unicode, MapiCodes}.
Context (decode_error_text : DecodeError → bytes).
(** The reader of a metadata query, and the batches it returns until it ends. *)
Context {reader : Type} (open_metadata : Reply → res Error reader) (batches_of : reader → list (res Error RecordBatch)).

Definition query_rows {A} (check : RecordBatch → res Error unit) (row : RecordBatch → nat → res Error A) (query : bytes)
    : tx db (list (res Error A)) :=
  reader ← query_result open_metadata query;
  mret (concat (batch_rows_of check row <$> batches_of reader)).

Definition load_schemas (schema_filter : option bytes) : tx db (list ObjectSchema) :=
  predicate ← lift (like_predicate "name" schema_filter);
  rows ← query_rows (check_columns [(0%nat, KString)]) (λ batch row, names ← string_array batch 0; text_at names row)
    (schemas_query (where_clause predicate));
  lift (add_schema_rows [] rows).

Definition load_tables (schema_filter table_filter : option bytes) (table_types : option (list bytes)) : tx db (list ObjectSchema) :=
  schema_predicate ← lift (like_predicate "s.name" schema_filter);
  table_predicate ← lift (like_predicate "t.name" table_filter);
  type_predicate ← lift (in_predicate "tt.table_type_name" table_types);
  rows ← query_rows (check_columns [(0%nat, KString); (1%nat, KString); (2%nat, KString)]) table_row
    (tables_query (and_filters [table_predicate; type_predicate]) (where_clause schema_predicate));
  lift (add_table_rows [] rows).

Definition load_constraints (schemas : list ObjectSchema) (schema_filter table_filter : option bytes)
    (table_types : option (list bytes)) : tx db (list ObjectSchema) :=
  let indices := table_indices schemas in
  schema_predicate ← lift (like_predicate "s.name" schema_filter);
  table_predicate ← lift (like_predicate "t.name" table_filter);
  type_predicate ← lift (in_predicate "tt.table_type_name" table_types);
  let predicates := omap id [schema_predicate; table_predicate; type_predicate] in
  let where_ := match predicates with [] => [] | _ => str "WHERE " ++ join (str " AND ") predicates end in
  rows ← query_rows (check_columns [(0%nat, KString); (1%nat, KString); (2%nat, KString); (3%nat, KInt32); (4%nat, KString);
                               (6%nat, KString); (7%nat, KString); (8%nat, KString)]) constraint_row
    (constraints_query where_);
  lift (add_constraint_rows indices schemas rows).

Definition load_objects (depth : ObjectDepth) (schema_filter table_filter : option bytes) (table_types : option (list bytes))
    (column_filter : option bytes) : tx db (list ObjectSchema) :=
  match depth with
  | DepthSchemas => load_schemas schema_filter
  | DepthTables => load_tables schema_filter table_filter table_types
  | _ =>
      schema_predicate ← lift (like_predicate "s.name" schema_filter);
      table_predicate ← lift (like_predicate "t.name" table_filter);
      column_predicate ← lift (like_predicate "c.name" column_filter);
      type_predicate ← lift (in_predicate "tt.table_type_name" table_types);
      rows ← query_rows (check_columns object_columns) column_row
        (columns_query (and_filters [table_predicate; type_predicate]) (and_filters [column_predicate])
           (where_clause schema_predicate));
      schemas ← lift (add_column_rows schema_filter table_filter column_filter table_types [] rows);
      load_constraints schemas schema_filter table_filter table_types
  end.

Definition schema_field (row : SchemaRow) : res Error Field :=
  data_type ← prepared_monet_type (sr_type row) (sr_digits row) (sr_scale row);
  field ← prepared_arrow_field decode_error_text (sr_name row) data_type;
  Ok (mkField (field_name field) (field_data_type field) (sr_nullable row) (field_metadata field)).

Definition table_schema (schema_name table_name : bytes) : tx db (list Field) :=
  schema_literal ← lift (raw_string_literal schema_name);
  table_literal ← lift (raw_string_literal table_name);
  rows ← query_rows (check_columns [(0%nat, KString); (1%nat, KString); (2%nat, KInt32); (3%nat, KInt32); (4%nat, KBoolean)]) schema_row
    (table_schema_query schema_literal table_literal);
  fields ← lift (map_res (λ row, row ← row; schema_field row) rows);
  match fields with
  | [] => lift (Err (mkError (str "table '" ++ schema_name ++ str "." ++ table_name ++ str "' does not exist") NotFound))
  | _ => mret fields
  end.

(** [get_objects], [get_table_schema] and [get_table_types] of a connection. *)
Definition get_objects (catalog_name : bytes) (depth : ObjectDepth) (catalog db_schema table_name : option bytes)
    (table_type : option (list bytes)) (column_name : option bytes) : tx db (list (bytes * option (list SchemaItem))) :=
  include_catalog ← lift (matches_filter catalog catalog_name);
  schemas ← (if include_catalog && negb (bool_decide (depth = DepthCatalogs))
             then load_objects depth db_schema table_name table_type column_name
             else mret []);
  mret (objects_batch catalog_name include_catalog depth schemas).

Context {scalar_reader : Type} (open_scalar : Reply → res Error scalar_reader)
  (next_batch : scalar_reader → option (res Error RecordBatch)).

Definition get_table_schema (catalog_name : bytes) (catalog db_schema : option bytes) (table_name : bytes) : tx db (list Field) :=
  if match catalog with Some catalog => negb (bool_decide (catalog = catalog_name)) | None => false end then
    lift (Err (mkError (str "catalog '" ++ default [] catalog ++ str "' does not exist") NotFound))
  else
    schema_name ← match db_schema with
                  | Some schema_name => mret schema_name
                  | None => scalar_string open_scalar next_batch current_schema_query
                  end;
    table_schema schema_name table_name.
End loading.

Definition get_table_types : list bytes :=
  str <$> ["TABLE"; "VIEW"; "MERGE TABLE"; "REMOTE TABLE"; "REPLICA TABLE"; "UNLOGGED TABLE"; "SYSTEM TABLE"; "SYSTEM VIEW";
           "GLOBAL TEMPORARY TABLE"; "LOCAL TEMPORARY TABLE"; "LOCAL TEMPORARY VIEW"]%string.

(** ** Information about the driver *)

Inductive InfoCode : Type :=
| VendorName | VendorVersion | VendorArrowVersion | VendorSql | VendorSubstrait | VendorSubstraitMinVersion
| VendorSubstraitMaxVersion | DriverName | DriverVersion | DriverArrowVersion | DriverAdbcVersion | InfoOther (code : Z).

Inductive InfoValue : Type := InfoString (value : option bytes) | InfoBool (value : bool) | InfoInt (value : Z).

(** The numbers of the codes (constants of the ADBC crate) and the versions
    compiled in. *)
Class InfoCodes := { info_code_number : InfoCode → Z; package_version_text : bytes; arrow_version_text : bytes }.

Section info.
Context `{InfoCodes}.

Definition info_value (code : InfoCode) (version : Z * Z * Z) : InfoValue :=
  match code with
  | VendorName => InfoString (Some (str "MonetDB"))
  | VendorVersion => InfoString (Some (version_text version))
  | VendorArrowVersion => InfoString None
  | VendorSql => InfoBool true
  | VendorSubstrait => InfoBool false
  | VendorSubstraitMinVersion | VendorSubstraitMaxVersion => InfoString None
  | DriverName => InfoString (Some (str "adbc-driver-monetdb"))
  | DriverVersion => InfoString (Some package_version_text)
  | DriverArrowVersion => InfoString (Some arrow_version_text)
  | DriverAdbcVersion => InfoInt 1001000
  | InfoOther _ => InfoString None
  end.

Definition all_codes : list InfoCode :=
  [VendorName; VendorVersion; VendorArrowVersion; VendorSql; VendorSubstrait; VendorSubstraitMinVersion;
   VendorSubstraitMaxVersion; DriverName; DriverVersion; DriverArrowVersion; DriverAdbcVersion].

(** [sort_by_key], which is stable. *)
Fixpoint insert_code (code : InfoCode) (l : list InfoCode) : list InfoCode :=
  match l with
  | [] => [code]
  | c :: l' => if info_code_number c <? info_code_number code then c :: insert_code code l' else code :: l
  end.
Definition sort_codes (l : list InfoCode) : list InfoCode := foldr insert_code [] l.

(** A dense union: for every entry the child it is in and its place there. *)
Record InfoBatch : Type := mkInfoBatch {
  info_names : list Z;
  info_type_ids : list Z;
  info_offsets : list Z;
  info_strings : list (option bytes);
  info_bools : list bool;
  info_ints : list Z;
}.

Definition union_offset (offset : nat) : res Error Z :=
  if Z.of_nat offset <=? 2 ^ 31 - 1 then Ok (Z.of_nat offset) else Err (error "get_info union offset exceeds i32" Internal).

Definition add_info (version : Z * Z * Z) (b : InfoBatch) (code : InfoCode) : res Error InfoBatch :=
  let names := info_names b ++ [info_code_number code] in
  match info_value code version with
  | InfoString value =>
      offset ← union_offset (length (info_strings b));
      Ok (mkInfoBatch names (info_type_ids b ++ [0]) (info_offsets b ++ [offset]) (info_strings b ++ [value]) (info_bools b) (info_ints b))
  | InfoBool value =>
      offset ← union_offset (length (info_bools b));
      Ok (mkInfoBatch names (info_type_ids b ++ [1]) (info_offsets b ++ [offset]) (info_strings b) (info_bools b ++ [value]) (info_ints b))
  | InfoInt value =>
      offset ← union_offset (length (info_ints b));
      Ok (mkInfoBatch names (info_type_ids b ++ [2]) (info_offsets b ++ [offset]) (info_strings b) (info_bools b) (info_ints b ++ [value]))
  end.

Fixpoint add_infos (version : Z * Z * Z) (b : InfoBatch) (codes : list InfoCode) : res Error InfoBatch :=
  match codes with
  | [] => Ok b
  | code :: codes => b ← add_info version b code; add_infos version b codes
  end.

(** The codes asked for in the order a hash set gives them, or all of them. *)
Definition info_batch (version : Z * Z * Z) (codes : option (list InfoCode)) : res Error InfoBatch :=
  add_infos version (mkInfoBatch [] [] [] [] [] []) (sort_codes (default all_codes codes)).
End info.
