(* ===== verification/MetadataProofs.v ===== *)
(** Metadata: the LIKE matcher against the language of a pattern, the assembly
    of the catalog's rows against the catalog they describe, and the union of
    driver information. *)

From stdpp Require Import base list numbers strings gmap sorting.
From S2P Require Import Prelude RustStd Types ArrowData Errors SqlScan Template Transactions Prepare ParameterBatch Connection Metadata.
Local Open Scope Z_scope.

(** ** LIKE *)

(** The texts a pattern stands for. *)
Inductive like : list Token → list bytes → Prop :=
| like_nil : like [] []
| like_one c ts v : like ts v → like (One :: ts) (c :: v)
| like_literal c ts v : like ts v → like (Literal c :: ts) (c :: v)
| like_many_none ts v : like ts v → like (Many :: ts) v
| like_many_more c ts v : like (Many :: ts) v → like (Many :: ts) (c :: v).

Lemma like_many ts v : like (Many :: ts) v ↔ ∃ k, (k ≤ length v)%nat ∧ like ts (drop k v).
Proof.
  split.
  - intros Hl. remember (Many :: ts) as all eqn:Ha. induction Hl as [| | |ts' v Hl _|c ts' v Hl IH]; try discriminate Ha.
    + injection Ha as ->. exists 0%nat. rewrite drop_0. split; [lia|done].
    + destruct (IH Ha) as (k & Hk & Hd). exists (S k). cbn [length drop]. split; [lia|done].
  - intros (k & Hk & Hd). revert v Hk Hd. induction k as [|k IH]; intros v Hk Hd; [rewrite drop_0 in Hd; by constructor|].
    destruct v as [|c v]; cbn in Hk; [lia|]. apply like_many_more, IH; [lia|done].
Qed.

(** One token against one character. *)
Definition token_matches (t : Token) (c : bytes) : Prop :=
  match t with One => True | Literal x => x = c | Many => False end.

Lemma like_cons t c ts v : t ≠ Many → like (t :: ts) (c :: v) ↔ token_matches t c ∧ like ts v.
Proof.
  intros Ht. destruct t as [| |x]; [done|..]; split.
  - inversion 1; subst. by split.
  - intros [_ ?]. by constructor.
  - inversion 1; subst. by split.
  - intros [-> ?]. by constructor.
Qed.

Lemma like_segment seg w ts v : Forall2 token_matches seg w → like ts v → like (seg ++ ts) (w ++ v).
Proof.
  induction 1 as [|t c seg w Ht _ IH]; intros Hl; [done|]. destruct t as [| |x]; cbn in Ht; [done|..]; subst; cbn [app]; constructor; auto.
Qed.

(** What matches tokens without stars starts with a match of them. *)
Lemma like_segment_inv seg w ts v :
  Forall2 token_matches seg w → like (seg ++ ts) v →
  ∃ w' v', v = w' ++ v' ∧ Forall2 token_matches seg w' ∧ like ts v'.
Proof.
  intros Hs. revert v. induction Hs as [|t c seg w Ht _ IH]; intros v Hl; [by exists [], v|].
  destruct t as [| |x]; [done|..]; inversion Hl as [|d ts' v1 Hl'|d ts' v1 Hl'| |]; subst;
    destruct (IH v1 Hl') as (w' & v' & -> & Hw & Hv).
  - exists (d :: w'), v'. split; [done|]. split; [by constructor|done].
  - exists (x :: w'), v'. split; [done|]. split; [by constructor|done].
Qed.

Lemma like_empty ts : like ts [] ↔ trailing_many ts = length ts.
Proof.
  induction ts as [|t ts IH]; [split; [done|by constructor]|]. destruct t as [| |x]; cbn.
  - split.
    + inversion 1; subst. f_equal. by apply IH.
    + intros [=]. constructor. by apply IH.
  - split; [inversion 1|done].
  - split; [inversion 1|done].
Qed.

(** ** The loop *)

Section matcher.
Context (tokens : list Token) (value : list bytes).

Record like_inv (s : LikeState) : Prop := {
  inv_token : (token s ≤ length tokens)%nat;
  inv_character : (character s ≤ length value)%nat;
  inv_goal :
    match star s with
    | None => like tokens value ↔ like (drop (token s) tokens) (drop (character s) value)
    | Some st =>
        (st < token s)%nat ∧ (retry s ≤ character s)%nat ∧
        (like tokens value ↔ ∃ k, (retry s ≤ k ≤ length value)%nat ∧ like (drop (st + 1) tokens) (drop k value)) ∧
        ∃ seg w, drop (st + 1) tokens = seg ++ drop (token s) tokens ∧
          drop (retry s) value = w ++ drop (character s) value ∧ Forall2 token_matches seg w
    end;
}.

Definition base (s : LikeState) : nat := match star s with Some _ => retry s | None => 0%nat end.
Definition measure (s : LikeState) : nat :=
  ((length value - base s) * S (length tokens) + (length tokens - token s))%nat.

Lemma drop_next {A} (l : list A) i x : l !! i = Some x → drop i l = x :: drop (i + 1) l.
Proof. intros Hl. rewrite Nat.add_1_r. by apply drop_S. Qed.

(** A token and a character that match move both on. *)
Lemma inv_match s t c :
  like_inv s → tokens !! token s = Some t → value !! character s = Some c → t ≠ Many → token_matches t c →
  let s' := mkLike (token s + 1) (character s + 1) (star s) (retry s) in like_inv s' ∧ (measure s' < measure s)%nat.
Proof.
  intros [Hi1 Hi2 Hi3] Ht Hc Hm Hmatch s'. pose proof (lookup_lt_Some _ _ _ Ht). pose proof (lookup_lt_Some _ _ _ Hc).
  split; [|unfold measure, base; cbn; lia]. split; cbn [token character star retry s']; [lia..|].
  destruct (star s) as [st|].
  - destruct Hi3 as (G1 & G2 & G3 & seg & w & E1 & E2 & E3). split_and!; [lia|lia|done|]. exists (seg ++ [t]), (w ++ [c]).
    rewrite <- !app_assoc. cbn [app]. rewrite <- (drop_next _ _ _ Ht), <- (drop_next _ _ _ Hc).
    split_and!; [done|done|]. apply Forall2_app; [done|]. by repeat constructor.
  - rewrite Hi3, (drop_next _ _ _ Ht), (drop_next _ _ _ Hc), like_cons by done. tauto.
Qed.

(** A star may match nothing first. *)
Lemma inv_many s :
  like_inv s → tokens !! token s = Some Many → (character s < length value)%nat →
  let s' := mkLike (token s + 1) (character s) (Some (token s)) (character s) in like_inv s' ∧ (measure s' < measure s)%nat.
Proof.
  intros [Hi1 Hi2 Hi3] Ht Hc s'. pose proof (lookup_lt_Some _ _ _ Ht). split.
  2: { unfold measure, base. cbn [token character star retry s']. destruct (star s) as [st|]; [destruct Hi3 as (_ & G2 & _)|]; nia. }
  split; cbn [token character star retry s']; [lia..|]. split_and!; [lia|lia| |].
  2: { exists [], []. by split_and!. }
  assert ((∃ k, (character s ≤ k ≤ length value)%nat ∧ like (drop (token s + 1) tokens) (drop k value)) ↔
          like (drop (token s) tokens) (drop (character s) value)) as Hmany.
  { rewrite (drop_next _ _ _ Ht), like_many. split.
    - intros (k & Hk & Hl). exists (k - character s)%nat. rewrite length_drop, drop_drop.
      replace (character s + (k - character s))%nat with k by lia. split; [lia|done].
    - intros (k & Hk & Hl). rewrite length_drop in Hk. rewrite drop_drop in Hl. exists (character s + k)%nat. split; [lia|done]. }
  rewrite Hmany. destruct (star s) as [st|]; [|done]. destruct Hi3 as (G1 & G2 & G3 & seg & w & E1 & E2 & E3). rewrite G3. split.
  - intros (k & Hk & Hl). rewrite E1 in Hl. destruct (like_segment_inv _ _ _ _ E3 Hl) as (w' & v' & Hv & Hw & Hl').
    rewrite <- Hmany. rewrite (drop_next _ _ _ Ht) in Hl'. apply like_many in Hl' as (j & Hj & Hl').
    apply Forall2_length in E3, Hw. apply (f_equal length) in E2 as L2. rewrite length_app, !length_drop in L2.
    apply (f_equal length) in Hv as L3. rewrite length_app, length_drop in L3.
    exists (k + length w' + j)%nat. split; [lia|].
    rewrite <- Nat.add_assoc, <- (drop_drop value), Hv, <- (drop_drop (w' ++ v')), drop_app_length. done.
  - intros Hl. exists (retry s). split; [lia|]. rewrite E1, E2. by apply like_segment.
Qed.

(** Where neither holds, the last star takes one character more. *)
Lemma inv_mismatch s st :
  like_inv s → star s = Some st → (character s < length value)%nat →
  ¬ like (drop (token s) tokens) (drop (character s) value) →
  let s' := mkLike (st + 1) (retry s + 1) (Some st) (retry s + 1) in like_inv s' ∧ (measure s' < measure s)%nat.
Proof.
  intros [Hi1 Hi2 Hi3] Hst Hc Hno s'. rewrite Hst in Hi3. destruct Hi3 as (G1 & G2 & G3 & seg & w & E1 & E2 & E3). split.
  2: { unfold measure, base. rewrite Hst. cbn [token character star retry s']. nia. }
  split; cbn [token character star retry s']; [lia..|]. split_and!; [lia|lia| |].
  2: { exists [], []. by split_and!. }
  rewrite G3. split; [|intros (k & Hk & Hl); exists k; split; [lia|done]].
  intros (k & Hk & Hl). exists k. split; [|done]. destruct (decide (k = retry s)) as [->|]; [|lia]. exfalso. apply Hno.
  rewrite E1, E2 in Hl. destruct (like_segment_inv _ _ _ _ E3 Hl) as (w' & v' & Hv & Hw & Hl').
  apply Forall2_length in E3, Hw. apply app_inj_1 in Hv as [_ ->]; [done|congruence].
Qed.

Lemma inv_end s :
  like_inv s → value !! character s = None →
  (token s + trailing_many (drop (token s) tokens) = length tokens)%nat ↔ like tokens value.
Proof.
  intros [Hi1 Hi2 Hi3] Hc. apply lookup_ge_None in Hc. assert (character s = length value) as Heq by lia.
  assert ((token s + trailing_many (drop (token s) tokens) = length tokens)%nat ↔ like (drop (token s) tokens) []) as ->.
  { rewrite like_empty, length_drop. lia. }
  rewrite Heq, (drop_ge value (length value)) in Hi3 by done. destruct (star s) as [st|]; [|by rewrite Hi3].
  destruct Hi3 as (G1 & G2 & G3 & seg & w & E1 & E2 & E3). rewrite app_nil_r in E2. rewrite G3. split.
  - intros Hl. exists (retry s). split; [lia|]. rewrite E1, E2, <- (app_nil_r w). by apply like_segment.
  - intros (k & Hk & Hl). rewrite E1 in Hl. destruct (like_segment_inv _ _ _ _ E3 Hl) as (w' & v' & Hv & Hw & Hl').
    apply Forall2_length in E3, Hw. apply (f_equal length) in E2, Hv. rewrite length_app, length_drop in *.
    destruct v' as [|c v']; [done|cbn in Hv; lia].
Qed.

Lemma like_loop_ok fuel s :
  like_inv s → (measure s < fuel)%nat → ∃ b, like_loop fuel tokens value s = Ok b ∧ (b = true ↔ like tokens value).
Proof.
  revert s. induction fuel as [|fuel IH]; intros s Hs Hm; [lia|]. cbn [like_loop].
  destruct (value !! character s) as [c|] eqn:Hc.
  2: { eexists. split; [done|]. rewrite Nat.eqb_eq. by apply inv_end. }
  pose proof (lookup_lt_Some _ _ _ Hc) as Hlt.
  assert (∀ s', like_inv s' ∧ (measure s' < measure s)%nat → ∃ b, like_loop fuel tokens value s' = Ok b ∧ (b = true ↔ like tokens value))
    as Hnext by (intros s' [? ?]; apply IH; [done|lia]).
  assert (¬ like (drop (token s) tokens) (drop (character s) value) →
    ∃ b, match like_mismatch s with Some s => like_loop fuel tokens value s | None => Ok false end = Ok b ∧ (b = true ↔ like tokens value)) as Hmiss.
  { intros Hno. unfold like_mismatch. destruct (star s) as [st|] eqn:Hst; [apply Hnext; by apply inv_mismatch|].
    exists false. split; [done|]. split; [done|]. intros Hl. destruct Hs as [_ _ Hg]. rewrite Hst in Hg. by apply Hg in Hl. }
  unfold like_round. destruct (tokens !! token s) as [[| |x]|] eqn:Ht.
  - apply Hnext. by apply inv_many.
  - apply Hnext. by apply (inv_match s One c).
  - case_bool_decide as Hx; [apply Hnext; by apply (inv_match s (Literal x) c)|]. apply Hmiss.
    rewrite (drop_next _ _ _ Ht), (drop_next _ _ _ Hc), like_cons by done. cbn. tauto.
  - apply Hmiss. rewrite drop_ge by (by apply lookup_ge_None). rewrite (drop_next _ _ _ Hc). inversion 1.
Qed.

Lemma like_loop_correct :
  ∃ b, like_loop (like_fuel tokens value) tokens value (mkLike 0 0 None 0) = Ok b ∧ (b = true ↔ like tokens value).
Proof.
  apply like_loop_ok.
  - split; cbn; [lia..|]. by rewrite !drop_0.
  - unfold measure, base, like_fuel. cbn. lia.
Qed.
End matcher.

(** ** The language of a pattern *)

(** A pattern and a value, character by character: [%] stands for any run of
    characters, [_] for one character, a backslash makes the [%], [_] or
    backslash after it stand for itself, and every other character stands for
    itself.  The three are written as their bytes: 37, 95 and 92. *)
Inductive in_language : list bytes → list bytes → Prop :=
| in_end : in_language [] []
| in_percent_none p v : in_language p v → in_language ([37] :: p) v
| in_percent_more c p v : in_language ([37] :: p) v → in_language ([37] :: p) (c :: v)
| in_underscore c p v : in_language p v → in_language ([95] :: p) (c :: v)
| in_escaped e p v : e ∈ [[37]; [95]; [92]] → in_language p v → in_language ([92] :: e :: p) (e :: v)
| in_character c p v : c ∉ [[37]; [95]; [92]] → in_language p v → in_language (c :: p) (c :: v).

(** Every backslash is followed by a character it may escape. *)
Inductive well_escaped : list bytes → Prop :=
| well_end : well_escaped []
| well_character c p : c ≠ [92] → well_escaped p → well_escaped (c :: p)
| well_escape e p : e ∈ [[37]; [95]; [92]] → well_escaped p → well_escaped ([92] :: e :: p).

Ltac not_special := exfalso; rewrite ?not_elem_of_cons in *; intuition congruence.

(** The language, decided by trying every run a [%] may stand for. *)
Fixpoint language_has (p v : list bytes) {struct p} : bool :=
  match p with
  | [] => match v with [] => true | _ => false end
  | c :: p =>
      if bool_decide (c = [37]) then
        (fix any v := language_has p v || match v with [] => false | _ :: v => any v end) v
      else if bool_decide (c = [92]) then
        match p, v with
        | e :: p, x :: v => bool_decide (e ∈ [[37]; [95]; [92]]) && bool_decide (e = x) && language_has p v
        | _, _ => false
        end
      else match v with
           | x :: v => (bool_decide (c = [95]) || bool_decide (c = x)) && language_has p v
           | [] => false
           end
  end.

Lemma language_percent p v : in_language ([37] :: p) v ↔ in_language p v ∨ ∃ c v', v = c :: v' ∧ in_language ([37] :: p) v'.
Proof.
  split; [|intros [?|(c & v' & -> & ?)]; by constructor].
  inversion 1; subst; [by left|by right; eexists _, _|not_special].
Qed.

Lemma language_underscore p v : in_language ([95] :: p) v ↔ ∃ c v', v = c :: v' ∧ in_language p v'.
Proof. split; [|intros (c & v' & -> & ?); by constructor]. inversion 1; subst; [by eexists _, _|not_special]. Qed.

Lemma language_escape p v :
  in_language ([92] :: p) v ↔ ∃ e p' v', p = e :: p' ∧ v = e :: v' ∧ e ∈ [[37]; [95]; [92]] ∧ in_language p' v'.
Proof. split; [|intros (e & p' & v' & -> & -> & ? & ?); by constructor]. inversion 1; subst; [by eexists _, _, _|not_special]. Qed.

Lemma language_character c p v :
  c ∉ [[37]; [95]; [92]] → in_language (c :: p) v ↔ ∃ v', v = c :: v' ∧ in_language p v'.
Proof. intros Hc. split; [|intros (v' & -> & ?); by constructor]. inversion 1; subst; [not_special..|by eexists]. Qed.

Lemma language_has_spec p v : language_has p v = true ↔ in_language p v.
Proof.
  revert v. induction p as [p IH] using (induction_ltof1 _ length); unfold ltof in IH. intros v. destruct p as [|c p].
  { destruct v; split; [constructor|done..|inversion 1]. }
  cbn [language_has]. case_bool_decide as H1; [subst|case_bool_decide as H2; [subst|]].
  - induction v as [|x v IHv]; rewrite language_percent, orb_true_iff, IH by (cbn; lia).
    + split; [intros [?|?]; [by left|done]|intros [?|(c & v' & ? & _)]; [by left|done]].
    + rewrite IHv. split; (intros [?|Hr]; [by left|right]); [by eexists _, _|by destruct Hr as (c & v' & [= -> ->] & ?)].
  - rewrite language_escape. destruct p as [|e p]; [split; [done|by intros (? & ? & ? & ? & _)]|].
    destruct v as [|x v]; [split; [done|by intros (? & ? & ? & _ & ? & _)]|].
    rewrite !andb_true_iff, !bool_decide_eq_true, IH by (cbn; lia).
    split; [intros [[? ->] ?]; by eexists _, _, _|intros (? & ? & ? & [= -> ->] & [= -> ->] & ? & ?); done].
  - destruct (decide (c = [95])) as [->|H3].
    + rewrite language_underscore. destruct v as [|x v]; [split; [done|by intros (? & ? & ? & _)]|].
      cbn [andb orb]. rewrite bool_decide_true by done. cbn [andb orb]. rewrite IH by (cbn; lia).
      split; [intros ?; by eexists _, _|by intros (? & ? & [= -> ->] & ?)].
    + rewrite language_character by (rewrite !not_elem_of_cons; split_and!; try done; apply not_elem_of_nil).
      destruct v as [|x v]; [split; [done|by intros (? & ? & _)]|]. rewrite (bool_decide_false (c = [95])) by done. cbn [orb].
      rewrite andb_true_iff, bool_decide_eq_true, IH by (cbn; lia).
      split; [intros [-> ?]; by eexists|by intros (? & [= -> ->] & ?)].
Qed.

#[global] Instance in_language_dec p v : Decision (in_language p v).
Proof. refine (cast_if (decide (language_has p v = true))); by rewrite <- language_has_spec. Defined.

(** The validator accepts the patterns whose escapes are valid. *)
Lemma validate_like_exact chars :
  match validate_like_chars chars with
  | Ok _ => well_escaped chars
  | Err e => ¬ well_escaped chars ∧ error_status e = InvalidArguments
  | Panic => False
  end.
Proof.
  induction chars as [chars IH] using (induction_ltof1 _ length); unfold ltof in IH. destruct chars as [|c chars]; [constructor|].
  cbn [validate_like_chars]. case_bool_decide as Hc; [unfold backslash in Hc; subst c; destruct chars as [|e chars]|].
  - split; [|done]. inversion 1; congruence.
  - case_bool_decide as He.
    + specialize (IH chars ltac:(cbn; lia)). destruct (validate_like_chars chars) as [|err|]; [by constructor| |done].
      destruct IH as [Hn Hs]. split; [|done]. by inversion 1.
    + split; [|done]. by inversion 1.
  - specialize (IH chars ltac:(cbn; lia)). destruct (validate_like_chars chars) as [|err|]; [by constructor| |done].
    destruct IH as [Hn Hs]. split; [|done]. by inversion 1; subst.
Qed.

(** The tokens of such a pattern stand for its language. *)
Lemma like_tokens_language chars :
  well_escaped chars → ∃ tokens, like_tokens chars = Ok tokens ∧ ∀ v, like tokens v ↔ in_language chars v.
Proof.
  induction 1 as [|c p Hc _ (tokens & Ht & IH)|e p He _ (tokens & Ht & IH)]; cbn [like_tokens].
  - exists []. split; [done|]. intros v. split; inversion 1; constructor.
  - rewrite Ht. unfold percent, underscore, backslash. cbn [mbind res_bind].
    case_bool_decide as H1; [subst|case_bool_decide as H2; [subst|rewrite bool_decide_false by done]]; (eexists; split; [done|]).
    + intros v. induction v as [|x v IHv]; rewrite language_percent, <- IH.
      * split; [inversion 1; by left|intros [?|(? & ? & ? & _)]; [by constructor|done]].
      * split; [inversion 1; subst; [by left|right; eexists _, _; by rewrite <- IHv]|].
        intros [?|(? & ? & [= <- <-] & ?)]; [by constructor|]. apply like_many_more. by apply IHv.
    + intros v. rewrite language_underscore. split; [inversion 1; subst; eexists _, _; by rewrite <- IH|].
      intros (? & ? & -> & ?). constructor. by apply IH.
    + intros v. rewrite language_character by (rewrite !not_elem_of_cons; split_and!; try done; apply not_elem_of_nil).
      split; [inversion 1; subst; eexists; by rewrite <- IH|]. intros (? & -> & ?). constructor. by apply IH.
  - rewrite Ht. cbn [mbind res_bind]. eexists. split; [done|]. intros v. rewrite language_escape. split.
    + inversion 1; subst. eexists _, _, _. by rewrite <- IH.
    + intros (? & ? & ? & [= <- <-] & -> & _ & ?). constructor. by apply IH.
Qed.

Lemma like_pattern_matches_spec pattern value :
  match like_pattern_matches pattern value with
  | Ok b => well_escaped (chars pattern) ∧ (b = true ↔ in_language (chars pattern) (chars value))
  | Err e => ¬ well_escaped (chars pattern) ∧ error_status e = InvalidArguments
  | Panic => False
  end.
Proof.
  unfold like_pattern_matches, validate_like_pattern. pose proof (validate_like_exact (chars pattern)) as Hv.
  destruct (validate_like_chars (chars pattern)) as [[]|e|]; [|done..]. cbn [mbind res_bind].
  destruct (like_tokens_language _ Hv) as (tokens & Ht & Hl). rewrite Ht. cbn [mbind res_bind].
  destruct (like_loop_correct tokens (chars value)) as (b & -> & Hb). by rewrite Hb, Hl.
Qed.

(** C34. The LIKE matcher of metadata filters decides the language of the
    pattern: for any pattern and any value it terminates without a panic.  Where
    every backslash is followed by a percent sign, an underscore or a backslash,
    it answers whether the value is in the language of the pattern: a percent
    sign stands for any run of characters, an underscore for one, an escaped or
    any other character for itself.  Otherwise, and only then, it fails, with
    the status of an invalid argument, whatever the value. *)
Theorem like_pattern_matches_language pattern value :
  match like_pattern_matches pattern value with
  | Ok b => well_escaped (chars pattern) ∧ (b = true ↔ in_language (chars pattern) (chars value))
  | Err e => ¬ well_escaped (chars pattern) ∧ error_status e = InvalidArguments
  | Panic => False
  end.
Proof. apply like_pattern_matches_spec. Qed.

Lemma like_sample_matches :
  like_pattern_matches (str "%a\%_%") (str "xxa%yz") = Ok true ∧ like_pattern_matches (str "%ab%ba%") (str "aab_aba") = Ok true ∧
  like_pattern_matches (str "%ab") (str "abb") = Ok false.
Proof. by vm_compute. Qed.

(** ** Assembling the objects *)

Lemma alter_last_app {A} (f : A → A) l x : alter_last f (l ++ [x]) = l ++ [f x].
Proof. induction l as [|y l IH]; [done|]. cbn [app]. rewrite <- IH. cbn [alter_last]. by destruct l. Qed.

(** A list without what repeats its predecessor, one element more. *)
Definition add_run {A} `{EqDecision A} (l : list A) (x : A) : list A := if decide (last l = Some x) then l else l ++ [x].

Definition runs {A} `{EqDecision A} (l : list A) : list A := foldl add_run [] l.

(** Equal elements come together, as they do in an ordered list. *)
Definition contiguous {A} (l : list A) : Prop := ∀ x y, x ≠ y → ¬ [x; y; x] `sublist_of` l.

Section runs.
Context {A : Type} `{EqDecision A}.
Implicit Types (l : list A) (x y : A).

Lemma contiguous_sublist l l' : l' `sublist_of` l → contiguous l → contiguous l'.
Proof. intros Hs Hc x y Hne Hl. apply (Hc x y Hne). by transitivity l'. Qed.

Lemma sublist_fmap_of {B} (f : A → B) l l' : l' `sublist_of` l → f <$> l' `sublist_of` f <$> l.
Proof. induction 1; cbn; [done|by apply sublist_skip|by apply sublist_cons]. Qed.

Lemma runs_snoc l x : runs (l ++ [x]) = add_run (runs l) x.
Proof. unfold runs. by rewrite foldl_app. Qed.

Lemma add_run_sublist l x : add_run l x `sublist_of` l ++ [x].
Proof. unfold add_run. case_decide; [by apply sublist_inserts_r|done]. Qed.

(** An element that is not the last has another after it. *)
Lemma elem_before_last l x : x ∈ l → last l ≠ Some x → ∃ y, y ≠ x ∧ [x; y] `sublist_of` l.
Proof.
  intros (l1 & l2 & ->)%list_elem_of_split Hl. destruct (last l2) as [y|] eqn:Hy.
  - apply last_Some in Hy as [l3 ->]. exists y. split.
    + rewrite app_comm_cons, app_assoc, last_snoc in Hl. congruence.
    + apply sublist_inserts_l, sublist_skip, sublist_inserts_l. done.
  - apply last_None in Hy as ->. by rewrite last_snoc in Hl.
Qed.

Lemma add_run_nodup l base x :
  NoDup l → contiguous (base ++ [x]) → l `sublist_of` base → NoDup (add_run l x).
Proof.
  intros Hn Hc Hs. unfold add_run. case_decide as Hl; [done|]. apply NoDup_app. split_and!; [done| |apply NoDup_singleton].
  intros y Hy ->%list_elem_of_singleton. destruct (elem_before_last l x Hy Hl) as (z & Hz & Hxz).
  apply (Hc x z); [done|]. change [x; z; x] with ([x; z] ++ [x]). apply sublist_app; [by transitivity l|done].
Qed.

Lemma runs_sublist l : runs l `sublist_of` l.
Proof.
  induction l as [|x l IH] using rev_ind; [done|]. rewrite runs_snoc. etransitivity; [apply add_run_sublist|].
  by apply sublist_app.
Qed.

Lemma runs_nodup l : contiguous l → NoDup (runs l).
Proof.
  induction l as [|x l IH] using rev_ind; intros Hc; [constructor|]. rewrite runs_snoc.
  apply (add_run_nodup _ l); [|done|apply runs_sublist]. apply IH. eapply contiguous_sublist; [|exact Hc]. by apply sublist_inserts_r.
Qed.
End runs.

(** ** Groups *)

(** The elements of a list in maximal runs of one key, each with its key. *)
Section groups.
Context {A K : Type} `{EqDecision K} (key : A → K).
Implicit Types (l : list A) (x : A).

Definition cons_group (x : A) (gs : list (K * list A)) : list (K * list A) :=
  match gs with
  | (k, g) :: gs' => if decide (key x = k) then (k, x :: g) :: gs' else (key x, [x]) :: gs
  | [] => [(key x, [x])]
  end.
Definition groups (l : list A) : list (K * list A) := foldr cons_group [] l.

(** An element at the end joins the last group or opens one. *)
Definition snoc_group (gs : list (K * list A)) (x : A) : list (K * list A) :=
  if decide (fst <$> last gs = Some (key x)) then alter_last (λ kg, (kg.1, kg.2 ++ [x])) gs else gs ++ [(key x, [x])].

Lemma snoc_group_app gs kg y : snoc_group (gs ++ [kg]) y = gs ++ snoc_group [kg] y.
Proof. unfold snoc_group. rewrite last_snoc, alter_last_app. cbn. case_decide; [done|]. by rewrite <- app_assoc. Qed.

Lemma cons_group_app x kg gs gs' : cons_group x ((kg :: gs) ++ gs') = cons_group x (kg :: gs) ++ gs'.
Proof. destruct kg. cbn. by case_decide. Qed.

Lemma cons_snoc_group x gs y : cons_group x (snoc_group gs y) = snoc_group (cons_group x gs) y.
Proof.
  destruct gs as [|kg gs _] using rev_ind; [unfold snoc_group; cbn; repeat (case_decide; cbn); congruence|].
  rewrite snoc_group_app. destruct gs as [|kg' gs].
  - unfold snoc_group. destruct kg. cbn. repeat (case_decide; cbn); congruence.
  - rewrite !cons_group_app. by rewrite snoc_group_app.
Qed.

Lemma groups_snoc l x : groups (l ++ [x]) = snoc_group (groups l) x.
Proof.
  induction l as [|y l IH]; [done|]. change (groups ((y :: l) ++ [x])) with (cons_group y (groups (l ++ [x]))).
  rewrite IH. apply cons_snoc_group.
Qed.

(** The groups hold the list, none is empty, and each holds its key. *)
Lemma groups_concat l : concat (groups l).*2 = l.
Proof.
  induction l as [|x l IH]; [done|]. cbn [groups foldr]. fold (groups l). rewrite <- IH at 2.
  destruct (groups l) as [|[k g] gs]; [done|]. cbn. by case_decide.
Qed.

Lemma groups_keys l : Forall (λ kg, kg.2 ≠ [] ∧ Forall (λ x, key x = kg.1) kg.2) (groups l).
Proof.
  induction l as [|x l IH]; [constructor|]. cbn [groups foldr]. fold (groups l).
  destruct IH as [|[k g] gs [H1 H2] Hg]; [by repeat constructor|]. cbn. case_decide as Hk.
  - constructor; [split; [done|by constructor]|done].
  - repeat (constructor; try done).
Qed.

Lemma groups_runs l : (groups l).*1 = runs (key <$> l).
Proof.
  induction l as [|x l IH] using rev_ind; [done|]. rewrite fmap_app, fmap_cons, fmap_nil, runs_snoc, groups_snoc, <- IH.
  unfold snoc_group, add_run.
  rewrite fmap_last. case_decide as Hl; [|by rewrite fmap_app]. destruct (groups l) as [|[k g] gs _] using rev_ind; [done|].
  rewrite alter_last_app, !fmap_app. done.
Qed.

Lemma group_sublist l k g : (k, g) ∈ groups l → g `sublist_of` l.
Proof.
  intros (gs1 & gs2 & Hg)%list_elem_of_split. rewrite <- (groups_concat l), Hg, fmap_app, concat_app. cbn.
  apply sublist_inserts_l, sublist_inserts_r. done.
Qed.
End groups.

(** ** The rows of a batch *)

(** A batch holds rows in the columns of the query, in the order of its SELECT:
    schema, table, table type, column, ordinal, type, digits, scale, nullability,
    default and remark.  A NULL where the row has a text is an empty text. *)
Definition holds_rows (batch : RecordBatch) (rows : list ColumnRow) : Prop :=
  batch_rows batch = length rows ∧
  ∃ schemas table_types type_names n4 n6 n7 n8,
    default [] <$> schemas = cr_schema <$> rows ∧ default [] <$> table_types = cr_table_type <$> rows ∧
    default [] <$> type_names = cr_type_name <$> rows ∧
    batch_columns batch =
      [ABytes DUtf8 schemas; ABytes DUtf8 (cr_table <$> rows); ABytes DUtf8 table_types; ABytes DUtf8 (cr_column <$> rows);
       APrimitive DInt32 (cr_ordinal <$> rows) n4; ABytes DUtf8 type_names; APrimitive DInt32 (cr_digits <$> rows) n6;
       APrimitive DInt32 (cr_scale <$> rows) n7; ABoolean (cr_nullable <$> rows) n8;
       ABytes DUtf8 (cr_default <$> rows); ABytes DUtf8 (cr_remark <$> rows)].

Lemma text_at_fmap {A} values (f : A → bytes) rows row r :
  default [] <$> values = f <$> rows → rows !! row = Some r → text_at values row = Ok (f r).
Proof.
  intros Hv Hr. unfold text_at. apply (f_equal (.!! row)) in Hv. rewrite !list_lookup_fmap, Hr in Hv.
  destruct (values !! row) as [v|]; [|done]. cbn in *. congruence.
Qed.

Lemma or_panic_fmap {A B E} (f : A → B) (rows : list A) row r : rows !! row = Some r → or_panic ((f <$> rows) !! row) = Ok (f r) :> res E B.
Proof. intros Hr. by rewrite list_lookup_fmap, Hr. Qed.

Lemma column_row_reads batch rows row r : holds_rows batch rows → rows !! row = Some r → column_row batch row = Ok r.
Proof.
  intros (_ & schemas & types & names & n4 & n6 & n7 & n8 & H1 & H2 & H3 & Hc) Hr.
  unfold column_row, string_array, int32_array, boolean_array, optional_at. rewrite Hc.
  cbn [lookup list_lookup or_panic mbind res_bind].
  rewrite (text_at_fmap _ cr_schema _ _ _ H1 Hr), (text_at_fmap _ cr_table_type _ _ _ H2 Hr), (text_at_fmap _ cr_type_name _ _ _ H3 Hr).
  rewrite !(or_panic_fmap _ _ _ _ Hr). cbn [mbind res_bind]. by destruct r.
Qed.

Lemma batch_rows_read batch rows :
  holds_rows batch rows → batch_rows_of (check_columns object_columns) column_row (Ok batch) = Ok <$> rows.
Proof.
  intros Hb. unfold batch_rows_of. assert (check_columns object_columns batch = Ok tt) as Hk.
  { destruct Hb as (_ & schemas & types & names & n4 & n6 & n7 & n8 & _ & _ & _ & Hc).
    unfold object_columns. cbn [check_columns]. unfold string_array, int32_array, boolean_array. rewrite Hc. done. }
  cbn [mbind res_bind]. rewrite Hk. cbn [mbind res_bind]. apply list_eq. intros i. rewrite !list_lookup_fmap.
  rewrite (proj1 Hb). destruct (rows !! i) as [r|] eqn:Hr.
  - rewrite lookup_seq_lt by (by eapply lookup_lt_Some). cbn. f_equal. by eapply column_row_reads.
  - rewrite lookup_seq_ge by (by apply lookup_ge_None). done.
Qed.

(** ** The catalog the rows describe *)

Section assembled.
Context (schema_filter table_filter column_filter : option bytes) (table_types : option (list bytes)).

(** A filter lets the names of its language pass, and no filter every name. *)
Definition admits (filter : option bytes) (name : bytes) : Prop :=
  match filter with Some pattern => in_language (chars pattern) (chars name) | None => True end.
#[global] Instance admits_dec filter name : Decision (admits filter name).
Proof. destruct filter; simpl; apply _. Defined.

Definition filter_valid (filter : option bytes) : Prop :=
  match filter with Some pattern => well_escaped (chars pattern) | None => True end.

Definition schema_listed (r : ColumnRow) : Prop := admits schema_filter (cr_schema r).

Definition type_asked (type : bytes) : Prop := match table_types with Some types => type ∈ types | None => True end.
#[local] Instance type_asked_dec type : Decision (type_asked type).
Proof. unfold type_asked. destruct table_types; apply _. Defined.

(** A row whose table is asked for, by its name and by its type. *)
Definition table_listed (r : ColumnRow) : Prop :=
  match cr_table r with
  | Some table =>
      admits table_filter table ∧ type_asked (cr_table_type r)
  | None => False
  end.
#[local] Instance table_listed_dec r : Decision (table_listed r).
Proof. unfold table_listed. destruct (cr_table r); apply _. Defined.

(** The column of a row, with every property the catalog gives it; ordinals
    count from one. *)
Definition listed_column (r : ColumnRow) : option ObjectColumn :=
  match cr_column r with
  | Some column =>
      if decide (admits column_filter column) then
        Some {| oc_name := column; oc_ordinal := cr_ordinal r + 1; oc_remarks := cr_remark r;
                oc_type_name := cr_type_name r; oc_digits := cr_digits r; oc_scale := cr_scale r;
                oc_nullable := cr_nullable r; oc_default := cr_default r |}
      else None
  | None => None
  end.

(** A table is made of the rows in a run with its name, a schema of its own. *)
Definition described_table (named : bytes * list ColumnRow) : ObjectTable :=
  {| table_name := named.1; table_type := from_option cr_table_type [] (head named.2);
     table_columns := omap listed_column named.2; table_constraints := [] |}.
Definition described_schema (named : bytes * list ColumnRow) : ObjectSchema :=
  {| schema_name := named.1;
     schema_tables := described_table <$> groups (λ r, default [] (cr_table r)) (filter table_listed named.2) |}.
Definition described_catalog (rows : list ColumnRow) : list ObjectSchema :=
  described_schema <$> groups cr_schema (filter schema_listed rows).

Lemma matches_filter_spec filter value :
  match matches_filter filter value with
  | Ok b => b = bool_decide (admits filter value)
  | Err _ => ¬ filter_valid filter
  | Panic => False
  end.
Proof.
  destruct filter as [pattern|]; cbn [matches_filter filter_valid]; [|by rewrite bool_decide_true].
  pose proof (like_pattern_matches_spec pattern value) as Hl. destruct (like_pattern_matches pattern value) as [b|e|]; [|tauto|done].
  destruct Hl as [_ Hl]. cbn [admits]. case_bool_decide; destruct b; tauto.
Qed.

Lemma type_listed_spec r :
  type_listed table_types (cr_table_type r) = bool_decide (type_asked (cr_table_type r)).
Proof. apply eq_true_iff_eq. rewrite bool_decide_eq_true. unfold type_listed, type_asked. destruct table_types; [apply bool_decide_eq_true|done]. Qed.

Lemma filter_snoc_true {A} (P : A → Prop) `{∀ x, Decision (P x)} l x : P x → filter P (l ++ [x]) = filter P l ++ [x].
Proof. intros Hx. rewrite filter_app, filter_cons_True, filter_nil by done. done. Qed.
Lemma filter_snoc_false {A} (P : A → Prop) `{∀ x, Decision (P x)} l x : ¬ P x → filter P (l ++ [x]) = filter P l.
Proof. intros Hx. rewrite filter_app, filter_cons_False, filter_nil, app_nil_r by done. done. Qed.

(** The schema a row goes to, with the rows it has so far. *)
Lemma push_schema_described rows r :
  schema_listed r →
  ∃ pre g, push_schema (described_catalog rows) (cr_schema r) = pre ++ [described_schema (cr_schema r, g)] ∧
    described_catalog (rows ++ [r]) = pre ++ [described_schema (cr_schema r, g ++ [r])].
Proof.
  intros Hr. unfold described_catalog, push_schema. rewrite filter_snoc_true, groups_snoc by done. unfold snoc_group.
  rewrite fmap_last. set (gs := groups cr_schema (filter schema_listed rows)).
  destruct gs as [|[k g] gs' _] using rev_ind.
  - exists [], []. done.
  - rewrite last_snoc, alter_last_app, !fmap_app. cbn. destruct (decide (k = cr_schema r)) as [->|Hk].
    + rewrite bool_decide_true, decide_True by done. exists (described_schema <$> gs'), g. by rewrite !fmap_app.
    + rewrite bool_decide_false, decide_False by congruence. exists (described_schema <$> gs' ++ [(k, g)]), [].
      by rewrite !fmap_app.
Qed.

(** The table a row goes to, in the same way. *)
Lemma push_table_described name g r table :
  cr_table r = Some table → table_listed r →
  ∃ tables g', push_new_table table (cr_table_type r) (described_schema (name, g))
      = mkObjectSchema name (tables ++ [mkObjectTable table (from_option cr_table_type [] (head (g' ++ [r])))
          (omap listed_column g') []]) ∧
    described_schema (name, g ++ [r])
      = mkObjectSchema name (tables ++ [mkObjectTable table (from_option cr_table_type [] (head (g' ++ [r])))
          (omap listed_column (g' ++ [r])) []]).
Proof.
  intros Ht Hr. unfold described_schema, push_new_table, push_table. cbn [fst snd schema_tables schema_name].
  rewrite filter_snoc_true, groups_snoc by done. unfold snoc_group. rewrite Ht. cbn [default].
  pose proof (groups_keys (λ r, default [] (cr_table r)) (filter table_listed g)) as Hne.
  set (gs := groups _ (filter table_listed g)) in *. clearbody gs. rewrite fmap_last.
  destruct gs as [|[k g'] gs' _] using rev_ind.
  - exists [], []. cbn. done.
  - rewrite last_snoc, alter_last_app. apply Forall_app in Hne as [_ Hne]. apply Forall_singleton in Hne as [Hne _].
    cbn in Hne |- *. destruct (decide (k = table)) as [->|Hk].
    + rewrite bool_decide_true, decide_True by done. exists (described_table <$> gs'), g'. rewrite !fmap_app. cbn.
      unfold described_table. cbn. destruct g' as [|r0 g']; [done|]. done.
    + rewrite bool_decide_false, decide_False by congruence. exists (described_table <$> gs' ++ [(k, g')]), [].
      rewrite !fmap_app. cbn. unfold described_table. cbn. done.
Qed.

(** A row that does not count for the tables leaves its schema as it is. *)
Lemma described_schema_skip name g r : ¬ table_listed r → described_schema (name, g ++ [r]) = described_schema (name, g).
Proof. intros Hr. unfold described_schema. cbn. by rewrite filter_snoc_false. Qed.

Lemma table_listed_and table r :
  cr_table r = Some table →
  bool_decide (admits table_filter table) && type_listed table_types (cr_table_type r) = bool_decide (table_listed r).
Proof.
  intros Ht. rewrite type_listed_spec. unfold table_listed. apply eq_true_iff_eq.
  rewrite andb_true_iff, !bool_decide_eq_true, Ht. done.
Qed.

(** Why a row may be refused. *)
Definition refused_row (r : ColumnRow) : Prop :=
  ¬ filter_valid schema_filter ∨ ¬ filter_valid table_filter ∨ ¬ filter_valid column_filter ∨
  ¬ (- 2 ^ 31 ≤ cr_ordinal r + 1 < 2 ^ 31).

Lemma object_column_spec name r :
  cr_column r = Some name → admits column_filter name →
  match object_column name r with
  | Ok c => listed_column r = Some c
  | Err _ => refused_row r
  | Panic => False
  end.
Proof.
  intros Hc Ha. unfold object_column, i32_checked_add, refused_row, listed_column. rewrite Hc, decide_True by done.
  destruct (signed_range 32 (cr_ordinal r + 1)) eqn:Hr; cbn [ok_or mbind res_bind]; [done|].
  do 3 right. intros Ho. unfold signed_range in Hr. change (32 - 1) with 31 in Hr. lia.
Qed.

Lemma add_column_row_described rows r :
  match add_column_row schema_filter table_filter column_filter table_types (described_catalog rows) r with
  | Ok schemas => schemas = described_catalog (rows ++ [r])
  | Err _ => refused_row r
  | Panic => False
  end.
Proof.
  unfold add_column_row, refused_row. pose proof (matches_filter_spec schema_filter (cr_schema r)) as Hs.
  destruct (matches_filter schema_filter (cr_schema r)) as [b|e|]; [|by left|done]. cbn [mbind res_bind]. subst b.
  case_bool_decide as Hs; cbn [negb].
  2: { unfold described_catalog. by rewrite filter_snoc_false. }
  destruct (push_schema_described rows r Hs) as (pre & g & -> & ->).
  destruct (cr_table r) as [table|] eqn:Ht.
  2: { rewrite described_schema_skip; [done|]. unfold table_listed. rewrite Ht. tauto. }
  pose proof (matches_filter_spec table_filter table) as Hm.
  destruct (matches_filter table_filter table) as [b|e|]; [|by right; left|done]. cbn [mbind res_bind]. subst b.
  rewrite (table_listed_and table r Ht). case_bool_decide as Hl; cbn [negb]; [|by rewrite described_schema_skip].
  rewrite alter_last_app. destruct (push_table_described (cr_schema r) g r table Ht Hl) as (tables & g' & -> & ->).
  destruct (cr_column r) as [name|] eqn:Hc.
  2: { rewrite omap_app. cbn. unfold listed_column at 3. rewrite Hc, app_nil_r. done. }
  pose proof (matches_filter_spec column_filter name) as Hm.
  destruct (matches_filter column_filter name) as [b|e|]; [|by right; right; left|done]. cbn [mbind res_bind]. subst b.
  case_bool_decide as Ha; cbn [negb].
  2: { rewrite omap_app. cbn. unfold listed_column at 3. rewrite Hc, decide_False, app_nil_r by done. done. }
  pose proof (object_column_spec name r Hc Ha) as Ho. destruct (object_column name r) as [c|e|]; [|done..].
  cbn [mbind res_bind]. rewrite alter_last_app. unfold push_column. cbn. rewrite alter_last_app, omap_app. cbn. by rewrite Ho.
Qed.

Lemma add_column_rows_described before rows :
  match add_column_rows schema_filter table_filter column_filter table_types (described_catalog before) (Ok <$> rows) with
  | Ok schemas => schemas = described_catalog (before ++ rows)
  | Err _ => Exists refused_row rows
  | Panic => False
  end.
Proof.
  revert before. induction rows as [|r rows IH]; intros before; cbn [fmap list_fmap add_column_rows]; [by rewrite app_nil_r|].
  cbn [mbind res_bind]. pose proof (add_column_row_described before r) as Hr.
  destruct (add_column_row _ _ _ _ (described_catalog before) r) as [schemas| |]; [|by left|done]. subst. cbn [mbind res_bind].
  specialize (IH (before ++ [r])). rewrite <- app_assoc in IH. destruct (add_column_rows _ _ _ _ _ _); [done|by right|done].
Qed.

Definition row_key (r : ColumnRow) : bytes * option bytes := (cr_schema r, cr_table r).

Lemma described_schemas_once rows :
  contiguous (cr_schema <$> rows) → NoDup (schema_name <$> described_catalog rows).
Proof.
  intros Hc. unfold described_catalog. rewrite <- list_fmap_compose.
  change (NoDup (groups cr_schema (filter schema_listed rows)).*1). rewrite groups_runs. apply runs_nodup. eapply contiguous_sublist; [|exact Hc]. apply sublist_fmap_of, sublist_filter.
Qed.

Lemma described_tables_once rows s :
  contiguous (row_key <$> rows) → s ∈ described_catalog rows → NoDup (table_name <$> schema_tables s).
Proof.
  intros Hc ([k g] & -> & Hin)%list_elem_of_fmap. unfold described_schema. cbn [schema_tables snd].
  rewrite <- list_fmap_compose. change (NoDup (groups (λ r, default [] (cr_table r)) (filter table_listed g)).*1).
  rewrite groups_runs. apply runs_nodup. intros x y Hne Hs. apply (Hc (k, Some x) (k, Some y)); [congruence|].
  pose proof (groups_keys cr_schema (filter schema_listed rows)) as Hk. rewrite Forall_forall in Hk.
  destruct (Hk _ Hin) as [_ Hg]. cbn in Hg. apply group_sublist in Hin.
  etransitivity; [exact (sublist_fmap_of (λ t, (k, Some t)) _ _ Hs)|]. rewrite <- list_fmap_compose.
  rewrite (Forall_fmap_ext_1 _ row_key).
  - apply sublist_fmap_of. etransitivity; [apply sublist_filter|]. etransitivity; [exact Hin|apply sublist_filter].
  - apply Forall_forall. intros r [Hl Hr]%list_elem_of_filter. rewrite Forall_forall in Hg. unfold row_key. cbn.
    rewrite (Hg r Hr). unfold table_listed in Hl. by destruct (cr_table r).
Qed.

(** C35. The objects of a catalog are what its rows say.  The loop over the
    batches of the query and their rows, which stand in the columns of its SELECT
    ([holds_rows]), does not panic.  When it succeeds, the schemas are the maximal
    runs of rows with one schema name among the rows whose schema passes its
    filter; in each, the tables are the maximal runs with one table name among
    the rows whose table passes its filter and has a type asked for, with the
    type the first of these rows gives; and the columns of a table are those of
    its rows that pass their filter, in order, each with the name, ordinal
    (from one), remark, type, digits, scale, nullability and default of its row.
    It fails only for a filter with an invalid escape or an ordinal beyond 32
    bits.  Where the rows of a schema and of a table come together, as the query
    orders them, every schema, and in it every table, is listed once. *)
Theorem objects_assembled batches rows_of :
  Forall2 holds_rows batches rows_of →
  let rows := concat rows_of in
  match add_column_rows schema_filter table_filter column_filter table_types []
      (concat (batch_rows_of (check_columns object_columns) column_row <$> (Ok <$> batches))) with
  | Ok schemas =>
      schemas = described_catalog rows ∧
      (contiguous (cr_schema <$> rows) → NoDup (schema_name <$> schemas)) ∧
      (contiguous (row_key <$> rows) → ∀ s, s ∈ schemas → NoDup (table_name <$> schema_tables s))
  | Err _ => Exists refused_row rows
  | Panic => False
  end.
Proof.
  intros Hb rows.
  assert (concat (batch_rows_of (check_columns object_columns) column_row <$> (Ok <$> batches)) = Ok <$> rows) as ->.
  { unfold rows. induction Hb as [|batch rs batches rows_of Hb _ IH]; [done|].
    rewrite !fmap_cons. cbn [concat]. by rewrite (batch_rows_read _ _ Hb), fmap_app, IH. }
  pose proof (add_column_rows_described [] rows) as Hr. change (described_catalog []) with (@nil ObjectSchema) in Hr.
  destruct (add_column_rows _ _ _ _ [] (Ok <$> rows)) as [schemas|e|]; [|done..]. cbn [app] in Hr. subst. split_and!; [done|..].
  - apply described_schemas_once.
  - intros Hc s. by apply described_tables_once.
Qed.
End assembled.

Definition catalog_row (schema : string) (table column : option string) (ordinal : Z) : ColumnRow :=
  mkColumnRow (str schema) (str <$> table) (str "TABLE") (str <$> column) ordinal (str "decimal") 9 2 true None None.

Definition catalog_rows : list ColumnRow :=
  [catalog_row "app" (Some "t") (Some "a") 0; catalog_row "app" (Some "t") (Some "b") 1;
   catalog_row "app" (Some "u") None 0; catalog_row "empty" None None 0; catalog_row "sys" (Some "t") (Some "a") 0]%string.

(** A batch of rows. *)
Definition catalog_batch (rows : list ColumnRow) : RecordBatch :=
  mkRecordBatch []
    [ABytes DUtf8 (Some ∘ cr_schema <$> rows); ABytes DUtf8 (cr_table <$> rows); ABytes DUtf8 (Some ∘ cr_table_type <$> rows);
     ABytes DUtf8 (cr_column <$> rows); APrimitive DInt32 (cr_ordinal <$> rows) None; ABytes DUtf8 (Some ∘ cr_type_name <$> rows);
     APrimitive DInt32 (cr_digits <$> rows) None; APrimitive DInt32 (cr_scale <$> rows) None; ABoolean (cr_nullable <$> rows) None;
     ABytes DUtf8 (cr_default <$> rows); ABytes DUtf8 (cr_remark <$> rows)] (length rows).

Lemma catalog_batch_holds rows : holds_rows (catalog_batch rows) rows.
Proof.
  split; [done|]. do 3 eexists. exists None, None, None, None.
  split_and!; [..|done]; rewrite <- list_fmap_compose; by apply list_fmap_ext.
Qed.

(** The tree that two filters leave of the rows. *)
Definition catalog_tree : list ObjectSchema :=
  [mkObjectSchema (str "app")
     [mkObjectTable (str "t") (str "TABLE")
        [mkObjectColumn (str "a") 1 None (str "decimal") 9 2 true None; mkObjectColumn (str "b") 2 None (str "decimal") 9 2 true None] [];
      mkObjectTable (str "u") (str "TABLE") [] []];
   mkObjectSchema (str "empty") []].

Lemma objects_assembled_witness :
  match add_column_rows (Some (str "%p%")) None (Some (str "_")) None []
      (concat (batch_rows_of (check_columns object_columns) column_row <$> [Ok (catalog_batch (take 2 catalog_rows)); Ok (catalog_batch (drop 2 catalog_rows))])) with
  | Ok schemas => schemas = catalog_tree ∧ described_catalog (Some (str "%p%")) None (Some (str "_")) None catalog_rows = catalog_tree
  | _ => False
  end.
Proof.
  pose proof (objects_assembled (Some (str "%p%")) None (Some (str "_")) None
    [catalog_batch (take 2 catalog_rows); catalog_batch (drop 2 catalog_rows)] [take 2 catalog_rows; drop 2 catalog_rows]) as Ht.
  assert (described_catalog (Some (str "%p%")) None (Some (str "_")) None catalog_rows = catalog_tree) as Hc by (by vm_compute).
  change ((Ok (E := Error)) <$> [catalog_batch (take 2 catalog_rows); catalog_batch (drop 2 catalog_rows)])
    with [Ok (E := Error) (catalog_batch (take 2 catalog_rows)); Ok (catalog_batch (drop 2 catalog_rows))] in Ht.
  destruct (add_column_rows _ _ _ _ _ _) as [schemas|e|] eqn:Hs; [|by vm_compute in Hs..].
  destruct Ht as [-> _]; [by repeat (constructor; try apply catalog_batch_holds)|]. by split.
Defined.

(** ** Driver information *)

Section info.
Context `{InfoCodes}.

(** An entry of the union: the child its type names, at its offset. *)
Definition union_entry (b : InfoBatch) (i : nat) : option InfoValue :=
  type ← info_type_ids b !! i; offset ← info_offsets b !! i;
  if type =? 0 then InfoString <$> info_strings b !! Z.to_nat offset
  else if type =? 1 then InfoBool <$> info_bools b !! Z.to_nat offset
  else if type =? 2 then InfoInt <$> info_ints b !! Z.to_nat offset
  else None.

Lemma insert_code_perm code l : insert_code code l ≡ₚ code :: l.
Proof. induction l as [|c l IH]; cbn [insert_code]; [done|]. destruct (_ <? _); [|done]. rewrite IH. by constructor. Qed.

Lemma sort_codes_perm l : sort_codes l ≡ₚ l.
Proof. induction l as [|c l IH]; [done|]. change (sort_codes (c :: l)) with (insert_code c (sort_codes l)). by rewrite insert_code_perm, IH. Qed.

Lemma insert_code_sorted code l :
  StronglySorted (λ a b, info_code_number a ≤ info_code_number b) l →
  StronglySorted (λ a b, info_code_number a ≤ info_code_number b) (insert_code code l).
Proof.
  induction 1 as [|c l Hs IH Hall]; cbn [insert_code]; [by repeat constructor|]. destruct (Z.ltb_spec (info_code_number c) (info_code_number code)).
  - constructor; [done|]. rewrite insert_code_perm. constructor; [lia|done].
  - constructor; [by constructor|]. constructor; [lia|]. eapply Forall_impl; [exact Hall|]. cbn. lia.
Qed.

(** The entries added so far are where the union says. *)
Definition union_holds (version : Z * Z * Z) (codes : list InfoCode) (b : InfoBatch) : Prop :=
  info_names b = info_code_number <$> codes ∧ length (info_type_ids b) = length codes ∧ length (info_offsets b) = length codes ∧
  ∀ i code, codes !! i = Some code → union_entry b i = Some (info_value code version).

Lemma union_entry_old b b' i v :
  union_entry b i = Some v → info_type_ids b `prefix_of` info_type_ids b' → info_offsets b `prefix_of` info_offsets b' →
  info_strings b `prefix_of` info_strings b' → info_bools b `prefix_of` info_bools b' → info_ints b `prefix_of` info_ints b' →
  union_entry b' i = Some v.
Proof.
  unfold union_entry. intros Hv P1 P2 P3 P4 P5. destruct (info_type_ids b !! i) as [t|] eqn:Ht; [|done].
  rewrite (prefix_lookup_Some _ _ _ _ Ht P1). cbn in *. destruct (info_offsets b !! i) as [o|] eqn:Ho; [|done].
  rewrite (prefix_lookup_Some _ _ _ _ Ho P2). cbn in *.
  repeat case_match; try done;
    match goal with Hf : ?f <$> ?l !! _ = Some _ |- _ => destruct (l !! _) eqn:Hl; [|discriminate Hf]; by rewrite (prefix_lookup_Some _ _ _ _ Hl) end.
Qed.

Lemma union_offset_ok n o : union_offset n = Ok o → Z.to_nat o = n.
Proof. unfold union_offset. destruct (_ <=? _); intros [= <-]. lia. Qed.

Lemma add_info_holds version codes b code b' :
  union_holds version codes b → add_info version b code = Ok b' → union_holds version (codes ++ [code]) b'.
Proof.
  intros (H1 & H2 & H3 & H4) Ha. unfold add_info in Ha.
  assert (∀ b1, b' = b1 → info_names b1 = info_names b ++ [info_code_number code] →
    (∃ t o, info_type_ids b1 = info_type_ids b ++ [t] ∧ info_offsets b1 = info_offsets b ++ [o]) →
    info_strings b `prefix_of` info_strings b1 → info_bools b `prefix_of` info_bools b1 → info_ints b `prefix_of` info_ints b1 →
    union_entry b1 (length codes) = Some (info_value code version) → union_holds version (codes ++ [code]) b') as Hnew.
  { intros b1 -> Hn (t & o & Ht & Ho) P3 P4 P5 Hv. split_and!.
    - by rewrite Hn, H1, fmap_app.
    - rewrite Ht, !length_app, H2. done.
    - rewrite Ho, !length_app, H3. done.
    - intros i c [Hc|[Hi Hc]]%lookup_app_Some.
      + eapply union_entry_old; [by apply H4|rewrite Ht; by eexists|rewrite Ho; by eexists|done..].
      + apply list_lookup_singleton_Some in Hc as [Hi0 <-]. by replace i with (length codes) by lia. }
  destruct (info_value code version) as [v|v|v] eqn:Hv;
    (destruct (union_offset _) as [o| |] eqn:Ho; [|done..]; cbn [mbind res_bind] in Ha; injection Ha as <-;
     apply union_offset_ok in Ho; eapply Hnew; [done|done|by eexists _, _|try done; by eexists..|];
     unfold union_entry; cbn; rewrite <- H2 at 1; rewrite (lookup_app_r (info_type_ids b)), Nat.sub_diag by done; cbn;
     rewrite <- H3, (lookup_app_r (info_offsets b)), Nat.sub_diag by done; cbn; rewrite Ho, lookup_app_r, Nat.sub_diag by done; done).
Qed.

Lemma add_infos_holds version done codes b b' :
  union_holds version done b → add_infos version b codes = Ok b' → union_holds version (done ++ codes) b'.
Proof.
  revert done b. induction codes as [|code codes IH]; intros done b Hb; cbn [add_infos]; [intros [= <-]; by rewrite app_nil_r|].
  destruct (add_info version b code) as [b1| |] eqn:Ha; [|discriminate..]. cbn [mbind res_bind].
  rewrite cons_middle, app_assoc. apply IH. by eapply add_info_holds.
Qed.

(** The information asked for, each code once per time it was asked for, in the
    order of the codes, each with its own value. *)
Theorem info_batch_reads version codes b :
  info_batch version codes = Ok b →
  ∃ sorted, sorted ≡ₚ default all_codes codes ∧ StronglySorted (λ x y, info_code_number x ≤ info_code_number y) sorted ∧
    info_names b = info_code_number <$> sorted ∧
    ∀ i code, sorted !! i = Some code → union_entry b i = Some (info_value code version).
Proof.
  intros Hb. exists (sort_codes (default all_codes codes)). split; [apply sort_codes_perm|]. split.
  { generalize (default all_codes codes). intros l. induction l as [|c l IH]; [constructor|]. by apply insert_code_sorted. }
  destruct (add_infos_holds version [] (sort_codes (default all_codes codes)) (mkInfoBatch [] [] [] [] [] []) b) as (Hn & _ & _ & Hu);
    [by split_and!|exact Hb|]. by split.
Qed.
End info.
