(* ===== verification/Append.v ===== *)
(** The target of a bulk ingest ([crates/adbc-monetdb/src/driver.rs]): the SQL
    that creates it ([ingest_column_definitions], [execute_ingest_target_mode]),
    the columns an existing table has ([append_table_columns]), how the columns
    of a stream are matched to them by name and by type
    ([align_append_schema]), and the staging table of a constrained append
    ([constrained_append_stage]). *)

From stdpp Require Import base list numbers strings gmap.
From S2P Require Import Prelude RustStd Types ArrowData Encode Errors Template Transactions Prepare Options.
Local Open Scope Z_scope.

Definition comma_list (parts : list bytes) : bytes := join (str ", ") parts.

(** ** Creating the target *)

(** The four modes; every test of the mode is an equality of texts. *)
Definition MODE_CREATE : bytes := str "adbc.ingest.mode.create".
Definition MODE_APPEND : bytes := str "adbc.ingest.mode.append".
Definition MODE_REPLACE : bytes := str "adbc.ingest.mode.replace".
Definition MODE_CREATE_APPEND : bytes := str "adbc.ingest.mode.create_append".

Definition may_append (mode : bytes) : bool := is_key mode MODE_APPEND || is_key mode MODE_CREATE_APPEND.

Section targets.
Context `{SqlFormat}.

Definition encode_failure (status : Status) (e : EncodeError) : Error := mkError (encode_error_text e) status.

Definition column_definition (preserve_nullability : bool) (field : Field) : res Error bytes :=
  sql_type ← map_err (encode_failure NotImplemented) (sql_type_for_field field);
  name ← quote_identifier (field_name field);
  Ok (name ++ str " " ++ sql_type
      ++ (if preserve_nullability && negb (field_nullable field) then str " NOT NULL" else [])).

Definition ingest_column_definitions (schema : list Field) (preserve_nullability : bool) : res Error (list bytes) :=
  map_res (column_definition preserve_nullability) schema.

(** The CREATE statement of [ingest]. *)
Definition create_statement (temporary : bool) (target : bytes) (columns : list bytes) : bytes :=
  str "CREATE " ++ (if temporary then str "LOCAL TEMPORARY " else []) ++ str "TABLE " ++ target ++ str " ("
  ++ comma_list columns ++ str ")" ++ (if temporary then str " ON COMMIT PRESERVE ROWS" else []).

Record IngestTarget : Type := mkIngestTarget {
  target_mode : bytes;
  target_create : bytes;
  operation_target : bytes;
  target_schema_name : option bytes;
  target_table : bytes;
  target_temporary : bool;
}.

(** [replacen(pattern, replacement, 1)]. *)
Fixpoint replace_first (pattern replacement text : bytes) : bytes :=
  if starts_with pattern text then replacement ++ drop (length pattern) text
  else match text with b :: text => b :: replace_first pattern replacement text | [] => [] end.

Definition quoted_column_list (names : list bytes) : res Error bytes :=
  quoted ← map_res quote_identifier names; Ok (comma_list quoted).

Definition insert_parameter_query (target : bytes) (names : list bytes) : res Error bytes :=
  columns ← quoted_column_list names;
  Ok (str "INSERT INTO " ++ target ++ str " (" ++ columns ++ str ") VALUES ("
      ++ comma_list (replicate (length names) (str "?")) ++ str ")").

Definition append_mismatch_status (mode : bytes) : Status :=
  if is_key mode MODE_CREATE_APPEND then AlreadyExists else InvalidArguments.

(** The schema in which the table of an append is looked up. *)
Definition catalog_schema (target : IngestTarget) : option bytes :=
  if target_temporary target then Some (str "tmp") else target_schema_name target.

(** ** Matching columns *)

Record AppendColumn : Type := mkAppendColumn {
  append_name : bytes;
  append_data_type : MonetType;
  append_nullable : bool;
}.

Inductive AppendColumnMatch : Type :=
| MatchExact (index : nat)
| MatchCaseInsensitive (index : nat)
| MatchAmbiguous (candidates : list bytes)
| MatchNone.

(** [position], and [enumerate().filter(..)]. *)
Definition position {A} (p : A → bool) (l : list A) : option nat := fst <$> list_find (λ x, p x = true) l.
Definition enumerate_filter {A} (p : A → bool) (l : list A) : list (nat * A) :=
  filter (λ x, p x.2 = true) (imap pair l).

Definition append_column_index (source : bytes) (columns : list AppendColumn) : AppendColumnMatch :=
  match position (λ column, bool_decide (source = append_name column)) columns with
  | Some index => MatchExact index
  | None =>
      match enumerate_filter (λ column, eq_ignore_ascii_case source (append_name column)) columns with
      | [] => MatchNone
      | [(index, _)] => MatchCaseInsensitive index
      | folded => MatchAmbiguous (append_name ∘ snd <$> folded)
      end
  end.

Definition string_wire (t : MonetType) : bool :=
  match t with MVarchar _ | MUrl | MJson => true | _ => false end.

Definition append_monet_types_match (source destination : MonetType) : bool :=
  bool_decide (source = destination) || string_wire source && string_wire destination.

Context `{CharTables}.

Definition type_mismatch (field : Field) (source destination : MonetType) (status : Status) : Error :=
  mkError (str "append column " ++ fmt_debug (field_name field) ++ str " has Arrow/MonetDB type "
           ++ fmt_monet_type source ++ str ", but destination type is " ++ fmt_monet_type destination) status.

Definition matched_index (name : bytes) (columns : list AppendColumn) (status : Status) : res Error nat :=
  match append_column_index name columns with
  | MatchExact index | MatchCaseInsensitive index => Ok index
  | MatchAmbiguous candidates =>
      Err (mkError (str "append column " ++ fmt_debug name ++ str " matches destination columns "
                    ++ comma_list (fmt_debug <$> candidates)
                    ++ str " case-insensitively and none of them exactly; rename the stream column to one of them") status)
  | MatchNone =>
      Err (mkError (str "append column " ++ fmt_debug name
                    ++ str " does not exist in the destination table; it has columns "
                    ++ comma_list ((fmt_debug ∘ append_name) <$> columns)) status)
  end.

(** The loop over the fields: [matched] has a flag per destination column. *)
Fixpoint align_fields (columns : list AppendColumn) (status : Status) (matched : list bool) (fields : list Field)
    : res Error (list bytes) :=
  match fields with
  | [] => Ok []
  | field :: fields =>
      index ← matched_index (field_name field) columns status;
      column ← or_panic (columns !! index);
      was_matched ← or_panic (matched !! index);
      if (was_matched : bool) then
        Err (mkError (str "append stream names destination column " ++ fmt_debug (append_name column)
                      ++ str " more than once") status)
      else
        source ← map_err (encode_failure NotImplemented) (monet_type_for_field field);
        if negb (append_monet_types_match source (append_data_type column)) then
          Err (type_mismatch field source (append_data_type column) status)
        else
          targets ← align_fields columns status (<[index := true]> matched) fields;
          Ok (append_name column :: targets)
  end.

Definition align_append_schema (schema : list Field) (columns : list AppendColumn) (status : Status)
    : res Error (list bytes) :=
  align_fields columns status (replicate (length columns) false) schema.

Definition parameter_matches (status : Status) (pair : Field * Field) : res Error unit :=
  let '(field, parameter) := pair in
  source ← map_err (encode_failure NotImplemented) (monet_type_for_field field);
  destination ← map_err (encode_failure InvalidData) (monet_type_for_field parameter);
  if append_monet_types_match source destination then Ok tt else Err (type_mismatch field source destination status).

Definition validate_prepared_insert_schema (source destination : list Field) (status : Status) : res Error unit :=
  if negb (length source =? length destination)%nat then
    Err (mkError (str "append stream has " ++ fmt_int (len source) ++ str " columns but destination table has "
                  ++ fmt_int (len destination)) status)
  else _ ← map_res (parameter_matches status) (zip source destination); Ok tt.
End targets.

(** ** The target on the server *)

(** [get::<bool>]. *)
Class BoolCells (row : Type) := { cell_bool : row → nat → res CursorError (option bool) }.

(** The staging table of a constrained append. *)
Record ConstrainedAppendStage : Type := mkStage {
  stage_qualified_name : bytes;
  stage_create : bytes;
  stage_move_to_target : bytes;
  stage_drop : bytes;
}.

Section on_server.
Context {db row : Type} `{!Server db, !Rows db row, !BoolCells row, MapiCodes, CursorDisplay, SqlFormat, CharTables}.
Context (pid : Z).

(** The catalogs of a schema: columns, tables, join and selector. *)
Definition append_catalogs (schema_name : option bytes) (table : bytes) : res Error (bytes * bytes * bytes * bytes) :=
  let in_sys selector :=
    (str "sys._columns", str "sys._tables", str "JOIN sys.schemas AS s ON s.id = t.schema_id",
     str "t.name = " ++ table ++ str " AND s.name = " ++ selector) in
  match schema_name with
  | Some schema =>
      if bool_decide (schema = str "tmp") then Ok (str "tmp._columns", str "tmp._tables", [], str "t.name = " ++ table)
      else schema ← raw_string_literal schema; Ok (in_sys schema)
  | None => Ok (in_sys (str "current_schema"))
  end.

Definition append_columns_query (schema_name : option bytes) (table_name : bytes) : res Error bytes :=
  table ← raw_string_literal table_name;
  '(columns_catalog, tables_catalog, schema_join, table_selector) ← append_catalogs schema_name table;
  Ok (str "SELECT c.name, c.type, c.type_digits, c.type_scale, c." ++ [34] ++ str "null" ++ [34]
      ++ str ", tt.table_type_name FROM " ++ columns_catalog ++ str " AS c JOIN " ++ tables_catalog
      ++ str " AS t ON t.id = c.table_id " ++ schema_join
      ++ str " JOIN sys.table_types AS tt ON tt.table_type_id = t.type WHERE " ++ table_selector
      ++ str " ORDER BY c.number").

(** One row of the reply: a column, and the type of the table. *)
Definition append_column_row (r : row) : res Error (AppendColumn * bytes) :=
  name ← required_cell (cell r 0) "catalog column name is NULL";
  code ← required_cell (cell r 1) "catalog column type is NULL";
  digits ← required_cell (cell_int r 2) "catalog type digits are NULL";
  scale ← required_cell (cell_int r 3) "catalog type scale is NULL";
  nullable ← required_cell (map_err map_cursor_error (cell_bool r 4)) "catalog nullability is NULL";
  table_type ← required_cell (cell r 5) "catalog table type is NULL";
  data_type ← prepared_monet_type code digits scale;
  Ok (mkAppendColumn name data_type nullable, table_type).

Definition writable_table_types : list bytes :=
  str <$> ["TABLE"; "UNLOGGED TABLE"; "GLOBAL TEMPORARY TABLE"; "LOCAL TEMPORARY TABLE"]%string.

(** The columns, when the first row names a table that can be written. *)
Definition writable_columns (table_name : bytes) (status : Status) (rows : list (AppendColumn * bytes))
    : res Error (list AppendColumn) :=
  match rows with
  | [] => Err (mkError (str "append target table " ++ fmt_debug table_name ++ str " does not exist") NotFound)
  | (_, table_type) :: _ =>
      if bool_decide (table_type ∈ writable_table_types) then Ok rows.*1
      else Err (mkError (str "append target " ++ fmt_debug table_name ++ str " is a " ++ table_type
                         ++ str ", not a writable table") status)
  end.

Definition append_table_columns (schema_name : option bytes) (table_name : bytes) (status : Status)
    : tx db (list AppendColumn) :=
  query ← lift (append_columns_query schema_name table_name);
  reply ← execute_rows (row := row) query;
  reply ← lift (map_err map_cursor_error reply);
  rows ← lift (read_rows append_column_row (reply_rows reply));
  lift (writable_columns table_name status rows).

Definition execute_ingest_target_mode (target : IngestTarget) : tx db unit :=
  let run query := _ ← execute query; mret tt in
  let mode := target_mode target in
  if is_key mode MODE_CREATE then run (target_create target)
  else if is_key mode MODE_APPEND then mret tt
  else if is_key mode MODE_REPLACE then
    _ ← run (str "DROP TABLE IF EXISTS " ++ operation_target target); run (target_create target)
  else if is_key mode MODE_CREATE_APPEND then
    run (replace_first (str "TABLE ") (str "TABLE IF NOT EXISTS ") (target_create target))
  else lift (Err (mkError (str "unknown ingest mode '" ++ mode ++ str "'") InvalidArguments)).

(** The names of the destination's columns for the stream's, for an append. *)
Definition aligned_columns (target : IngestTarget) (schema : list Field) : tx db (list bytes) :=
  let status := append_mismatch_status (target_mode target) in
  destination ← append_table_columns (catalog_schema target) (target_table target) status;
  lift (align_append_schema schema destination status).

Definition prepare_ingest_target (target : IngestTarget) (schema : list Field) : tx db (option (list bytes)) :=
  _ ← execute_ingest_target_mode target;
  if may_append (target_mode target) then names ← aligned_columns target schema; mret (Some names)
  else mret None.

Definition constrained_append_stage (schema : list Field) (destination : list bytes) (operation_target : bytes)
    : tx db ConstrainedAppendStage :=
  name ← savepoint_name pid (str "ingest_stage");
  quoted_name ← lift (quote_identifier name);
  qualified ← lift (qualified_name (Some (str "tmp")) name);
  source_columns ← lift (quoted_column_list (field_name <$> schema));
  destination_columns ← lift (quoted_column_list destination);
  columns ← lift (ingest_column_definitions schema false);
  mret (mkStage qualified
    (str "CREATE LOCAL TEMPORARY TABLE " ++ quoted_name ++ str " (" ++ comma_list columns ++ str ") ON COMMIT PRESERVE ROWS")
    (str "INSERT INTO " ++ operation_target ++ str " (" ++ destination_columns ++ str ") SELECT " ++ source_columns
     ++ str " FROM " ++ qualified)
    (str "DROP TABLE " ++ qualified)).
End on_server.
