(* ===== verification/AppendProofs.v ===== *)
(** The target of an ingest, verified: how the columns of a stream are matched
    to those of an existing table. *)

From stdpp Require Import base list numbers strings gmap.
From S2P Require Import Prelude RustStd Types ArrowData Encode EncodeProofs Errors Template Transactions Prepare Options Append.
Local Open Scope Z_scope.

(** ** Searching *)

Section searching.
Context {A : Type} (p : A → bool).

Lemma position_some (l : list A) i :
  position p l = Some i ↔ ∃ x, l !! i = Some x ∧ p x = true ∧ ∀ j y, l !! j = Some y → (j < i)%nat → p y = false.
Proof.
  unfold position. split.
  - intros ([j x] & Hf & ->)%fmap_Some. apply list_find_Some in Hf as (H1 & H2 & H3). exists x. split_and!; [done..|].
    intros k y Hk Hlt. apply not_true_is_false. by eapply H3.
  - intros (x & H1 & H2 & H3). apply fmap_Some. exists (i, x). split; [|done]. apply list_find_Some. split_and!; [done..|].
    intros j y Hj Hlt. by rewrite (H3 j y).
Qed.

Lemma position_none (l : list A) : position p l = None ↔ ∀ x, x ∈ l → p x = false.
Proof.
  unfold position. rewrite fmap_None, list_find_None, Forall_forall. 
  split; intros Hl x Hx; specialize (Hl x Hx); by destruct (p x).
Qed.

Lemma enumerate_filter_elem (l : list A) i x : (i, x) ∈ enumerate_filter p l ↔ l !! i = Some x ∧ p x = true.
Proof.
  unfold enumerate_filter. rewrite list_elem_of_filter, elem_of_lookup_imap. cbn. split.
  - by intros [Hp (j & y & [= -> ->] & Hl)].
  - intros [Hl Hp]. split; [done|]. by exists i, x.
Qed.

Lemma enumerate_filter_nodup (l : list A) : NoDup (enumerate_filter p l).
Proof.
  apply NoDup_filter, NoDup_alt. intros i j [k x]. rewrite !list_lookup_imap. intros Hi Hj.
  apply fmap_Some in Hi as (y & _ & [= -> _]). by apply fmap_Some in Hj as (z & _ & [= -> _]).
Qed.

(** The only match. *)
Lemma enumerate_filter_single (l : list A) i x :
  enumerate_filter p l = [(i, x)] ↔ (l !! i = Some x ∧ p x = true ∧ ∀ j y, l !! j = Some y → p y = true → j = i).
Proof.
  split.
  - intros He. assert ((i, x) ∈ enumerate_filter p l) as Hin by (rewrite He; by left).
    apply enumerate_filter_elem in Hin as [Hl Hp]. split_and!; [done..|]. intros j y Hj Hy.
    assert ((j, y) ∈ enumerate_filter p l) as Hin by by apply enumerate_filter_elem. rewrite He in Hin.
    by apply list_elem_of_singleton in Hin as [= ->].
  - intros (Hl & Hp & Hu). pose proof (enumerate_filter_nodup l) as Hnd.
    assert (∀ y, y ∈ enumerate_filter p l → y = (i, x)) as Hall.
    { intros [j y] Hin. apply enumerate_filter_elem in Hin as [Hj Hy]. pose proof (Hu j y Hj Hy) as ->. congruence. }
    assert ((i, x) ∈ enumerate_filter p l) as Hin by by apply enumerate_filter_elem.
    destruct (enumerate_filter p l) as [|a [|b rest]]; [by apply not_elem_of_nil in Hin|by rewrite (Hall a) by left|].
    rewrite (Hall a), (Hall b) in Hnd by (repeat (first [by left|right])). apply NoDup_cons in Hnd as [Hn _]. destruct Hn. by left.
Qed.
End searching.

(** ** Alignment *)

(** The destination column a name stands for: the one of that name, or the only
    one whose name differs from it by case alone. *)
Definition resolves (columns : list AppendColumn) (name : bytes) (i : nat) : Prop :=
  (∃ c, columns !! i = Some c ∧ append_name c = name ∧
     ∀ j c', columns !! j = Some c' → (j < i)%nat → append_name c' ≠ name) ∨
  (∀ c, c ∈ columns → append_name c ≠ name) ∧
  ∃ c, columns !! i = Some c ∧ eq_ignore_ascii_case name (append_name c) = true ∧
    ∀ j c', columns !! j = Some c' → eq_ignore_ascii_case name (append_name c') = true → j = i.

(** A field and the destination column it is written to. *)
Definition column_fits (columns : list AppendColumn) (field : Field) (i : nat) : Prop :=
  resolves columns (field_name field) i ∧
  ∃ c source, columns !! i = Some c ∧ monet_type_for_field field = Ok source ∧
    append_monet_types_match source (append_data_type c) = true.

Section alignment.
Context `{SqlFormat, CharTables}.

Lemma matched_index_resolves name columns status i : matched_index name columns status = Ok i ↔ resolves columns name i.
Proof.
  unfold matched_index, append_column_index, resolves.
  destruct (position _ columns) as [k|] eqn:Hp.
  - apply position_some in Hp as (c & Hc & Hn & Hfirst). apply bool_decide_eq_true in Hn. split.
    + intros [= <-]. left. exists c. split_and!; [done..|]. intros j c' Hj Hlt. specialize (Hfirst j c' Hj Hlt).
      apply bool_decide_eq_false in Hfirst. congruence.
    + intros [(c' & Hi & Hn' & Hfirst')|[Hno _]].
      * f_equal. destruct (Nat.lt_trichotomy k i) as [Hlt|[->|Hlt]]; [|done|].
        -- by destruct (Hfirst' k c Hc Hlt).
        -- specialize (Hfirst i c' Hi Hlt). by apply bool_decide_eq_false in Hfirst.
      * destruct (Hno c); [by eapply list_elem_of_lookup_2|done].
  - rewrite position_none in Hp.
    assert (∀ c, c ∈ columns → append_name c ≠ name) as Hno.
    { intros c Hc. specialize (Hp c Hc). apply bool_decide_eq_false in Hp. congruence. }
    set (p := λ column, eq_ignore_ascii_case name (append_name column)).
    transitivity (∃ c, enumerate_filter p columns = [(i, c)]).
    + destruct (enumerate_filter p columns) as [|[k c] [|? ?]]; (split; [try done|intros (? & ?); simplify_eq/=; try done]).
      intros [= <-]. eauto.
    + setoid_rewrite enumerate_filter_single. split; [intros (c & ?); right; eauto|].
      intros [(c & Hc & Hn & _)|[_ (c & ?)]]; [|eauto]. destruct (Hno c); [by eapply list_elem_of_lookup_2|done].
Qed.

Lemma matched_index_no_panic name columns status : matched_index name columns status ≠ Panic.
Proof. unfold matched_index. by destruct (append_column_index _ _). Qed.

Lemma resolves_lookup columns name i : resolves columns name i → is_Some (columns !! i).
Proof. by intros [(c & -> & _)|(_ & c & -> & _)]. Qed.

Lemma align_fields_ok columns status fields : ∀ matched targets, length matched = length columns →
  align_fields columns status matched fields = Ok targets ↔
  ∃ indices, NoDup indices ∧ Forall (λ i, matched !! i = Some false) indices ∧ Forall2 (column_fits columns) fields indices ∧
    Forall2 (λ i name, append_name <$> columns !! i = Some name) indices targets.
Proof.
  induction fields as [|field fields IH]; intros matched targets Hlen; cbn [align_fields].
  { split.
    - intros [= <-]. exists []. split_and!; constructor.
    - intros (idx & _ & _ & Hf & Ht). apply Forall2_nil_inv_l in Hf as ->. by apply Forall2_nil_inv_l in Ht as ->. }
  split.
  - intros (i & Hi%matched_index_resolves & Hrest)%bind_ok. destruct (resolves_lookup _ _ _ Hi) as [c Hc]. rewrite Hc in Hrest. cbn in Hrest.
    destruct (matched !! i) as [[]|] eqn:Hm; [done| |done]. cbn in Hrest.
    destruct (monet_type_for_field field) as [source|e|] eqn:Hs; [|done..]. cbn in Hrest.
    destruct (append_monet_types_match source _) eqn:Ht; [|done]. cbn in Hrest.
    destruct (align_fields _ _ _ fields) as [rest|e|] eqn:Hr; [|done..]. injection Hrest as <-.
    apply IH in Hr as (idx & Hnd & Hm' & Hf & Hn); [|by rewrite length_insert].
    assert (Forall (λ j, j ≠ i ∧ matched !! j = Some false) idx) as Hne.
    { eapply Forall_impl; [exact Hm'|]. intros j Hj. cbv beta in Hj.
      destruct (decide (i = j)) as [<-|Hne]; [|by rewrite list_lookup_insert_ne in Hj].
      rewrite list_lookup_insert_eq in Hj; [done|by eapply lookup_lt_Some]. }
    exists (i :: idx). split_and!.
    + constructor; [|done]. intros Hin. by destruct (proj1 (Forall_forall _ _) Hne i Hin).
    + constructor; [done|]. eapply Forall_impl; [exact Hne|]. by intros ? [_ ?].
    + constructor; [|done]. split; [done|]. eauto.
    + constructor; [by rewrite Hc|done].
  - intros (idx & Hnd & Hm & Hf & Hn). apply Forall2_cons_inv_l in Hf as (i & idx' & [Hi (c & source & Hc & Hs & Ht)] & Hf & ->).
    apply NoDup_cons in Hnd as [Hni Hnd]. apply Forall_cons in Hm as [Hmi Hm].
    apply Forall2_cons_inv_l in Hn as (name & rest & Hname & Hn & ->).
    rewrite (proj2 (matched_index_resolves _ _ status _) Hi). cbn. rewrite Hc, Hmi, Hs. cbn. rewrite Ht. cbn. rewrite Hc in Hname. injection Hname as <-.
    assert (align_fields columns status (<[i:=true]> matched) fields = Ok rest) as ->; [|done].
    apply IH; [by rewrite length_insert|]. exists idx'. split_and!; [done| |done..].
    apply Forall_forall. intros j Hj. rewrite list_lookup_insert_ne by (intros ->; done). by eapply Forall_forall in Hm.
Qed.

Lemma align_fields_no_panic columns status fields : ∀ matched, length matched = length columns →
  align_fields columns status matched fields ≠ Panic.
Proof.
  induction fields as [|field fields IH]; intros matched Hlen; cbn [align_fields]; [done|].
  destruct (matched_index _ columns status) as [i|e|] eqn:Hi; [|done|by apply matched_index_no_panic in Hi]. cbn.
  apply matched_index_resolves, resolves_lookup in Hi as [c Hc]. rewrite Hc. cbn.
  destruct (lookup_lt_is_Some_2 matched i) as [m ->]; [rewrite Hlen; by eapply lookup_lt_Some|]. cbn. destruct m; [done|].
  pose proof (monet_type_for_field_no_panic field). destruct (monet_type_for_field field) as [t|e|]; [|done..]. cbn.
  destruct (append_monet_types_match _ _); [|done]. cbn. specialize (IH (<[i:=true]> matched)). rewrite length_insert in IH.
  by destruct (align_fields _ _ _ fields); [| |by destruct IH].
Qed.

(** C18. An append writes every column of the stream to the destination column it
    names and to no other.  The alignment succeeds exactly when every field
    resolves to a column (the column of its name, or else the only one whose
    name differs from it by case alone) of a compatible type, and no two fields
    to the same one; it then gives the names of these columns in the order of
    the stream.  It never picks one of several candidates, and never panics. *)
Theorem append_columns_aligned schema columns status :
  (∀ targets, align_append_schema schema columns status = Ok targets ↔
     ∃ indices, NoDup indices ∧ Forall2 (column_fits columns) schema indices ∧
       Forall2 (λ i name, append_name <$> columns !! i = Some name) indices targets) ∧
  align_append_schema schema columns status ≠ Panic.
Proof.
  split; [|apply align_fields_no_panic; by rewrite length_replicate]. intros targets. unfold align_append_schema.
  rewrite align_fields_ok by (by rewrite length_replicate). apply exist_proper. intros indices.
  split; [tauto|]. intros (Hnd & Hf & Hn). split_and!; [done| |done..]. apply Forall_forall. intros i Hi.
  apply list_elem_of_lookup in Hi as [k Hk]. destruct (Forall2_lookup_r _ _ _ _ _ Hf Hk) as (field & _ & [Hr _]).
  apply resolves_lookup, lookup_lt_is_Some in Hr. by apply lookup_replicate_2.
Qed.
End alignment.
