(* ===== verification/IngestMemory.v ===== *)
(** The memory of a bulk ingest ([crates/adbc-monetdb/src/driver.rs]): what a
    window holds ([memory_usage], [storage_mode]), the statistics of an ingest
    ([IngestStats]), the limits of the system, and the reservations that
    concurrent ingests share ([reserve_ingest_memory]).

    The counter of the reserved bytes is shared by all threads of the process:
    a reservation is a machine of atomic steps, one for each operation on the
    counter, and the threads take their steps in any order ([reserve_step],
    [memory_step]). *)

From stdpp Require Import base list numbers strings gmap.
From S2P Require Import Prelude RustStd Types ArrowData Encode Errors Template Compression Ingest Transactions Prepare.
Local Open Scope Z_scope.

Definition INGEST_RESERVATION_SOURCE_BYTES : Z := 64 * 1024 * 1024.

(** ** What a window holds *)

Inductive WindowStorage : Type := StorageLz4 | StorageRaw | StorageArrow.

Definition storage_as_str (s : WindowStorage) : bytes :=
  str (match s with StorageLz4 => "lz4" | StorageRaw => "raw" | StorageArrow => "arrow" end).

Record WindowMemoryUsage : Type := mkMemoryUsage {
  memory_encoded_stored_bytes : Z;
  memory_retained_buffers : gmap Z Z;
  memory_peak_staging_bytes : Z;
  memory_peak_build_bytes : Z;
  memory_peak_build_buffers : gmap Z Z;
  memory_scratch_bytes : Z;
}.

Definition memory_physical_stored_bytes (m : WindowMemoryUsage) : Z :=
  saturating_add (memory_encoded_stored_bytes m) (buffer_bytes (memory_retained_buffers m)).

Definition window_chunks (w : EncodedIngestWindow) : list EncodedChunk := concat (chunks_of <$> window_columns w).

Definition chunk_scratch_bytes (chunk : EncodedChunk) : Z :=
  match chunk with
  | Raw _ => 0
  | Compressed _ _ decoded_len Plain _ => Z.of_nat decoded_len
  | Compressed _ _ decoded_len (Shuffle _) _ => saturating_mul (Z.of_nat decoded_len) 2
  end.

Definition scratch_bytes (w : EncodedIngestWindow) : Z :=
  foldr Z.max 0 (chunk_scratch_bytes <$> window_chunks w).

Definition memory_usage (w : EncodedIngestWindow) (wire_lz4 : bool) : WindowMemoryUsage :=
  mkMemoryUsage (encoded_physical_stored_bytes w) (retained_buffers w) (peak_staging_bytes w) (peak_build_bytes w)
    (peak_build_buffers w) (if wire_lz4 then 0 else scratch_bytes w).

Definition stored_bytes (w : EncodedIngestWindow) : Z :=
  saturating_add (encoded_stored_bytes w) (retained_estimated_bytes w).

(** [max_by_key]: the last of the largest. *)
Definition max_by_key {A} (first : Z * A) (rest : list (Z * A)) : Z * A :=
  foldl (λ best x, if best.1 <=? x.1 then x else best) first rest.

Definition storage_mode (w : EncodedIngestWindow) : WindowStorage :=
  let raw := foldl (λ total chunk, match chunk with Raw data => saturating_add total (len data) | _ => total end) 0
               (window_chunks w) in
  let lz4 := foldl (λ total chunk, match chunk with Compressed _ stored _ _ _ => saturating_add total (Z.of_nat stored) | _ => total end) 0
               (window_chunks w) in
  (max_by_key (raw, StorageRaw) [(lz4, StorageLz4); (retained_estimated_bytes w, StorageArrow)]).2.

(** ** Statistics *)

(** What is remembered of a window: an element of each of the vectors of [IngestStats]. *)
Record WindowStats : Type := mkWindowStats {
  ws_rows : Z;
  ws_bytes : Z;
  ws_physical_stored_bytes : Z;
  ws_staging_bytes : Z;
  ws_retained_arrow_pinned_bytes : Z;
  ws_scratch_bytes : Z;
  ws_storage : WindowStorage;
  ws_wire_compression : bool;
  ws_memory : WindowMemoryUsage;
}.

Record IngestStats : Type := mkIngestStats {
  stats_input_batches : Z;
  stats_coalesced_windows : Z;
  stats_split_windows : Z;
  copy_count : Z;
  target_copy_count : Z;
  staging_copy_count : Z;
  final_move_count : Z;
  stats_encoded_bytes : Z;
  stats_stored_bytes : Z;
  prepared_cache_hits : Z;
  peak_in_flight_bytes : Z;
  window_budget_bytes : Z;
  physical_window_budget_bytes : Z;
  incompressible_window_budget_bytes : Z;
  insert_rows_threshold : Z;
  measured_round_trip_us : Z;
  stats_windows : list WindowStats;
  stats_path : string;
  stats_scope : string;
  stats_poisoned : bool;
}.

(** Durations are in nanoseconds. *)
Definition stats_new (window physical incompressible insert_rows measured_round_trip : Z) (scope : string) : IngestStats :=
  mkIngestStats 0 0 0 0 0 0 0 0 0 0 0 window physical incompressible insert_rows (measured_round_trip / 1000) [] "copy"
    scope false.

(** The constants of the client library. *)
Class UploadLimits := { DEFAULT_UPLOAD_CHUNK_SIZE_BYTES : Z; MAPI_BLOCK_SIZE_BYTES : Z }.

Record CompletedIngestWindow : Type := mkCompleted {
  completed_rows : Z;
  completed_bytes : Z;
  completed_stored_bytes : Z;
  completed_storage : WindowStorage;
  completed_wire_lz4 : bool;
  completed_memory : WindowMemoryUsage;
  (** [IngestStreamingUsage]. *)
  streaming_largest_chunk : Z;
  streaming_largest_column_bytes : Z;
}.

Definition div_ceil (a b : Z) : Z := (a + b - 1) / b.

Definition streaming_bytes `{UploadLimits} (w : CompletedIngestWindow) : Z :=
  let upload_message_bytes := Z.min (streaming_largest_column_bytes w) DEFAULT_UPLOAD_CHUNK_SIZE_BYTES in
  let framing_bytes := saturating_mul 2 (div_ceil upload_message_bytes MAPI_BLOCK_SIZE_BYTES) in
  saturating_add (saturating_add (streaming_largest_chunk w) upload_message_bytes) framing_bytes.

Definition record_window `{UploadLimits} (s : IngestStats) (w : CompletedIngestWindow) (staging : bool) : IngestStats :=
  let memory := completed_memory w in
  let streaming := streaming_bytes w in
  mkIngestStats (stats_input_batches s) (stats_coalesced_windows s) (stats_split_windows s) (copy_count s + 1)
    (if staging then target_copy_count s else target_copy_count s + 1)
    (if staging then staging_copy_count s + 1 else staging_copy_count s) (final_move_count s)
    (saturating_add (stats_encoded_bytes s) (completed_bytes w))
    (saturating_add (stats_stored_bytes s) (completed_stored_bytes w)) (prepared_cache_hits s)
    (Z.max (peak_in_flight_bytes s) streaming) (window_budget_bytes s) (physical_window_budget_bytes s)
    (incompressible_window_budget_bytes s) (insert_rows_threshold s) (measured_round_trip_us s)
    (stats_windows s
     ++ [mkWindowStats (completed_rows w) (completed_bytes w) (memory_physical_stored_bytes memory)
           (memory_peak_staging_bytes memory) (buffer_bytes (memory_retained_buffers memory))
           (saturating_add (memory_scratch_bytes memory) streaming) (completed_storage w) (completed_wire_lz4 w) memory])
    (stats_path s) (stats_scope s) (stats_poisoned s).

(** The assignments of [ingest] to single fields. *)
Definition stats_with_scheduler (s : IngestStats) (input coalesced split : Z) : IngestStats :=
  mkIngestStats input coalesced split (copy_count s) (target_copy_count s) (staging_copy_count s) (final_move_count s)
    (stats_encoded_bytes s) (stats_stored_bytes s) (prepared_cache_hits s) (peak_in_flight_bytes s)
    (window_budget_bytes s) (physical_window_budget_bytes s) (incompressible_window_budget_bytes s)
    (insert_rows_threshold s) (measured_round_trip_us s) (stats_windows s) (stats_path s) (stats_scope s) (stats_poisoned s).
Definition stats_with_path (s : IngestStats) (path : string) : IngestStats :=
  mkIngestStats (stats_input_batches s) (stats_coalesced_windows s) (stats_split_windows s) (copy_count s)
    (target_copy_count s) (staging_copy_count s) (final_move_count s) (stats_encoded_bytes s) (stats_stored_bytes s)
    (prepared_cache_hits s) (peak_in_flight_bytes s) (window_budget_bytes s) (physical_window_budget_bytes s)
    (incompressible_window_budget_bytes s) (insert_rows_threshold s) (measured_round_trip_us s) (stats_windows s) path
    (stats_scope s) (stats_poisoned s).
Definition stats_with_poison (s : IngestStats) : IngestStats :=
  mkIngestStats (stats_input_batches s) (stats_coalesced_windows s) (stats_split_windows s) (copy_count s)
    (target_copy_count s) (staging_copy_count s) (final_move_count s) (stats_encoded_bytes s) (stats_stored_bytes s)
    (prepared_cache_hits s) (peak_in_flight_bytes s) (window_budget_bytes s) (physical_window_budget_bytes s)
    (incompressible_window_budget_bytes s) (insert_rows_threshold s) (measured_round_trip_us s) (stats_windows s)
    (stats_path s) (stats_scope s) true.
Definition stats_with_move (s : IngestStats) : IngestStats :=
  mkIngestStats (stats_input_batches s) (stats_coalesced_windows s) (stats_split_windows s) (copy_count s)
    (target_copy_count s) (staging_copy_count s) 1 (stats_encoded_bytes s) (stats_stored_bytes s)
    (prepared_cache_hits s) (peak_in_flight_bytes s) (window_budget_bytes s) (physical_window_budget_bytes s)
    (incompressible_window_budget_bytes s) (insert_rows_threshold s) (measured_round_trip_us s) (stats_windows s)
    (stats_path s) (stats_scope s) (stats_poisoned s).
(** The assignments of the insert path. *)
Definition stats_with_cache_hit (s : IngestStats) (hit : bool) : IngestStats :=
  mkIngestStats (stats_input_batches s) (stats_coalesced_windows s) (stats_split_windows s) (copy_count s)
    (target_copy_count s) (staging_copy_count s) (final_move_count s) (stats_encoded_bytes s) (stats_stored_bytes s)
    (if hit then 1 else 0) (peak_in_flight_bytes s) (window_budget_bytes s) (physical_window_budget_bytes s)
    (incompressible_window_budget_bytes s) (insert_rows_threshold s) (measured_round_trip_us s) (stats_windows s)
    (stats_path s) (stats_scope s) (stats_poisoned s).
Definition stats_of_insert (s : IngestStats) (estimated : Z) : IngestStats :=
  mkIngestStats 1 (stats_coalesced_windows s) (stats_split_windows s) (copy_count s) (target_copy_count s)
    (staging_copy_count s) (final_move_count s) estimated (stats_stored_bytes s) (prepared_cache_hits s)
    (peak_in_flight_bytes s) (window_budget_bytes s) (physical_window_budget_bytes s)
    (incompressible_window_budget_bytes s) (insert_rows_threshold s) (measured_round_trip_us s) (stats_windows s) "insert"
    (stats_scope s) (stats_poisoned s).

(** A list of numbers or texts, as the report writes it. *)
Definition json_list (items : list bytes) : bytes := join [44] items.
Definition numbers_of (f : WindowStats → Z) (windows : list WindowStats) : bytes := json_list ((λ w, fmt_int (f w)) <$> windows).
Definition quoted (text : bytes) : bytes := [34] ++ text ++ [34].

(** The loop of [physical_peaks]: the largest use of a window, and of a window
    while the next one is built. *)
Fixpoint peaks_loop (windows : list WindowStats) (peak_window peak_prefetch : Z) : Z * Z :=
  match windows with
  | [] => (peak_window, peak_prefetch)
  | w :: rest =>
      let memory := ws_memory w in
      let upload_bytes := saturating_add (memory_physical_stored_bytes memory) (ws_scratch_bytes w) in
      let build_bytes := saturating_add (memory_peak_build_bytes memory) (memory_scratch_bytes memory) in
      let peak_window := Z.max (Z.max peak_window upload_bytes) build_bytes in
      let peak_prefetch := Z.max (Z.max peak_prefetch upload_bytes) build_bytes in
      match head rest with
      | None => (peak_window, peak_prefetch)
      | Some next =>
          let next := ws_memory next in
          let live_buffers := merged_buffers (memory_retained_buffers memory) (memory_peak_build_buffers next) in
          let current_fixed := saturating_add (memory_encoded_stored_bytes memory) (ws_scratch_bytes w) in
          let next_fixed :=
            saturating_add (saturating_sub (memory_peak_build_bytes next) (buffer_bytes (memory_peak_build_buffers next)))
              (memory_scratch_bytes next) in
          let overlap := saturating_add (saturating_add current_fixed next_fixed) (buffer_bytes live_buffers) in
          peaks_loop rest peak_window (Z.max peak_prefetch overlap)
      end
  end.

Definition physical_peaks (s : IngestStats) : Z * Z := peaks_loop (stats_windows s) 0 0.

(** [to_json]. *)
Definition stats_json (s : IngestStats) : bytes :=
  let windows := stats_windows s in
  let number key n := quoted_key key ++ fmt_int n in
  let array key items := quoted_key key ++ [91] ++ items ++ [93] in
  let '(peak_window, peak_prefetch) := physical_peaks s in
  [123]
  ++ json_list
       [number "input_batches" (stats_input_batches s); number "coalesced_windows" (stats_coalesced_windows s);
        number "split_windows" (stats_split_windows s); number "copy_count" (copy_count s);
        number "target_copy_count" (target_copy_count s); number "staging_copy_count" (staging_copy_count s);
        number "final_move_count" (final_move_count s); number "encoded_bytes" (stats_encoded_bytes s);
        number "stored_bytes" (stats_stored_bytes s); number "prepared_cache_hits" (prepared_cache_hits s);
        number "peak_in_flight_bytes" (peak_in_flight_bytes s); number "window_budget_bytes" (window_budget_bytes s);
        number "physical_window_budget_bytes" (physical_window_budget_bytes s);
        number "incompressible_window_budget_bytes" (incompressible_window_budget_bytes s);
        number "insert_rows_threshold" (insert_rows_threshold s);
        number "measured_round_trip_us" (measured_round_trip_us s); number "peak_window_physical_bytes" peak_window;
        number "peak_prefetch_physical_bytes" peak_prefetch; array "window_rows" (numbers_of ws_rows windows);
        array "window_bytes" (numbers_of ws_bytes windows);
        array "window_physical_stored_bytes" (numbers_of ws_physical_stored_bytes windows);
        array "window_staging_bytes" (numbers_of ws_staging_bytes windows);
        array "window_retained_arrow_pinned_bytes" (numbers_of ws_retained_arrow_pinned_bytes windows);
        array "window_scratch_bytes" (numbers_of ws_scratch_bytes windows);
        array "window_storage" (json_list ((λ w, quoted (storage_as_str (ws_storage w))) <$> windows));
        array "window_wire_compression"
          (json_list ((λ w, quoted (str (if ws_wire_compression w then "lz4" else "none"))) <$> windows));
        quoted_key "path" ++ quoted (str (stats_path s)); quoted_key "scope" ++ quoted (str (stats_scope s));
        quoted_key "poisoned" ++ str (if stats_poisoned s then "true" else "false")]
  ++ [125].

(** ** The limits of the system *)

(** The files of the control group, as they read, and what [sysconf] says. *)
Record SystemMemory : Type := mkSystemMemory {
  read_to_string : string → option bytes;
  physical_pages : Z;
  page_size : Z;
}.

(** The numbers in the files that can be read, in their order. *)
Definition numbers_in (m : SystemMemory) (paths : list string) : list Z :=
  omap (λ path, text ← read_to_string m path; parse_usize (trim text)) paths.

Definition cgroup_memory_limit_bytes (m : SystemMemory) : option Z :=
  snd <$> list_find (λ limit, 0 < limit ∧ limit < 2 ^ 62)
    (numbers_in m ["/sys/fs/cgroup/memory.max"; "/sys/fs/cgroup/memory/memory.limit_in_bytes"]%string).

Definition cgroup_memory_limit_and_usage_bytes (m : SystemMemory) : option (Z * Z) :=
  limit ← cgroup_memory_limit_bytes m;
  current ← head (numbers_in m ["/sys/fs/cgroup/memory.current"; "/sys/fs/cgroup/memory/memory.usage_in_bytes"]%string);
  Some (limit, current).

Definition total_system_memory_bytes (m : SystemMemory) : option Z :=
  if (physical_pages m <=? 0) || (page_size m <=? 0) then None else checked_mul (physical_pages m) (page_size m).

Definition system_memory_limit_bytes (m : SystemMemory) : option Z :=
  match cgroup_memory_limit_bytes m, total_system_memory_bytes m with
  | Some a, Some b => Some (Z.min a b)
  | Some a, None => Some a
  | None, b => b
  end.

(** ** Reservations *)

Definition ingest_memory_reservation_bytes (physical_window_budget : Z) : Z :=
  saturating_add (saturating_mul (saturating_add physical_window_budget ENCODE_STAGING_BYTES) 2)
    INGEST_RESERVATION_SOURCE_BYTES.

Definition ingest_memory_reservation_fits (allowed current reserved requested : Z) : bool :=
  match (total ← checked_add current reserved; checked_add total requested) with
  | Some required => required <=? allowed
  | None => false
  end.

Definition allowed_memory (limit : Z) : Z := saturating_mul limit 9 / 10.

Definition reservation_error (bytes current reserved limit : Z) : Error :=
  with_sqlstate
    (mkError (str "ingest requires a " ++ fmt_int bytes ++ str "-byte memory reservation, but the cgroup has "
              ++ fmt_int current ++ str " bytes in use, " ++ fmt_int reserved
              ++ str " bytes reserved by other ingests, and a " ++ fmt_int limit ++ str "-byte limit") Internal)
    (str "HY001").

(** Where a thread is in [reserve_ingest_memory], and after it. *)
Inductive Reserver : Type :=
| Requesting (bytes : Z) (limits : option (Z * Z))
| Comparing (bytes limit current reserved : Z)
| Holding (bytes : Z)
| Failed (e : Error)
| Released.

(** One step of a thread, on the counter: the load, a round of the loop with
    its compare-exchange (which may fail [spuriously]), or the drop.  [None]: the
    thread has no step. *)
Definition reserve_step (counter : Z) (spurious : bool) (r : Reserver) : option (Reserver * Z) :=
  match r with
  | Requesting bytes None => Some (Holding 0, counter)
  | Requesting bytes (Some (limit, current)) => Some (Comparing bytes limit current counter, counter)
  | Comparing bytes limit current reserved =>
      if ingest_memory_reservation_fits (allowed_memory limit) current reserved bytes then
        if negb spurious && (counter =? reserved) then Some (Holding bytes, saturating_add reserved bytes)
        else Some (Comparing bytes limit current counter, counter)
      else Some (Failed (reservation_error bytes current reserved limit), counter)
  | Holding bytes => Some (Released, if 0 <? bytes then (counter - bytes) mod 2 ^ 64 else counter)
  | Failed _ | Released => None
  end.

(** The threads of the process, and the counter they share. *)
Record MemoryState : Type := mkMemoryState { threads : list Reserver; reserved_bytes : Z }.

(** What the files say are sizes. *)
Definition limits_ok (limits : option (Z * Z)) : Prop :=
  match limits with Some (limit, current) => 0 ≤ limit ∧ 0 ≤ current | None => True end.

Inductive memory_step : MemoryState → MemoryState → Prop :=
| step_thread s i r r' counter spurious :
    threads s !! i = Some r → reserve_step (reserved_bytes s) spurious r = Some (r', counter) →
    memory_step s (mkMemoryState (<[i := r']> (threads s)) counter)
| step_spawn s budget limits :
    0 ≤ budget → limits_ok limits →
    memory_step s (mkMemoryState (threads s ++ [Requesting (ingest_memory_reservation_bytes budget) limits]) (reserved_bytes s)).

(** [reserve_ingest_memory] when no other thread takes a step in between: the
    bytes held, from the counter's value. *)
Definition reserve_ingest_memory (limits : option (Z * Z)) (reserved physical_window_budget : Z) : res Error Z :=
  let bytes := ingest_memory_reservation_bytes physical_window_budget in
  match limits with
  | None => Ok 0
  | Some (limit, current) =>
      if ingest_memory_reservation_fits (allowed_memory limit) current reserved bytes then Ok bytes
      else Err (reservation_error bytes current reserved limit)
  end.
