(* ===== verification/IngestMemoryProofs.v ===== *)
(** Memory of concurrent ingests, verified: the shared counter is the sum of the
    reservations that are held, and what is granted stays within the limit. *)

From stdpp Require Import base list numbers strings gmap relations.
From S2P Require Import Prelude RustStd Types Errors Ingest IngestMemory.
Local Open Scope Z_scope.

Definition held (r : Reserver) : Z := match r with Holding bytes => bytes | _ => 0 end.
Fixpoint sum_held (l : list Reserver) : Z := match l with [] => 0 | r :: l => held r + sum_held l end.

(** What a thread asks for is a size. *)
Definition request_ok (r : Reserver) : Prop :=
  match r with
  | Requesting bytes limits => 0 ≤ bytes ∧ limits_ok limits
  | Comparing bytes _ current reserved => 0 ≤ bytes ∧ 0 ≤ current ∧ 0 ≤ reserved
  | Holding bytes => 0 ≤ bytes
  | Failed _ | Released => True
  end.

Record memory_inv (s : MemoryState) : Prop := {
  inv_requests : Forall request_ok (threads s);
  inv_counter : reserved_bytes s = sum_held (threads s);
  inv_bound : 0 ≤ reserved_bytes s ≤ usize_max;
}.

Lemma sum_held_app l k : sum_held (l ++ k) = sum_held l + sum_held k.
Proof. induction l as [|r l IH]; cbn; [done|]. lia. Qed.

Lemma sum_held_insert l i r r' : l !! i = Some r → sum_held (<[i := r']> l) = sum_held l - held r + held r'.
Proof.
  revert i. induction l as [|x l IH]; intros [|i] Hi; simplify_eq/=; [lia|]. rewrite (IH i Hi). lia.
Qed.

Lemma sum_held_nonneg l : Forall request_ok l → 0 ≤ sum_held l.
Proof. induction 1 as [|r l Hr _ IH]; cbn; [lia|]. destruct r; cbn in *; lia. Qed.

(** A thread that holds bytes has its share of the counter. *)
Lemma held_le l i r : Forall request_ok l → l !! i = Some r → held r ≤ sum_held l.
Proof.
  intros Hl. revert i. induction Hl as [|x l Hx Hl IH]; intros [|i] Hi; simplify_eq/=.
  - pose proof (sum_held_nonneg l Hl). lia.
  - specialize (IH i Hi). destruct x; cbn in *; lia.
Qed.

Lemma reservation_bytes_nonneg budget : 0 ≤ budget → 0 ≤ ingest_memory_reservation_bytes budget ≤ usize_max.
Proof.
  intros Hb. unfold ingest_memory_reservation_bytes, saturating_add, saturating_mul, ENCODE_STAGING_BYTES,
    INGEST_RESERVATION_SOURCE_BYTES, usize_max. lia.
Qed.

Lemma fits_iff allowed current reserved bytes :
  allowed ≤ usize_max → 0 ≤ bytes →
  ingest_memory_reservation_fits allowed current reserved bytes = true ↔ current + reserved + bytes ≤ allowed.
Proof.
  intros Ha Hb. unfold ingest_memory_reservation_fits, checked_add.
  destruct (Z.leb_spec (current + reserved) usize_max); cbn; [|split; [done|intros; exfalso; lia]].
  destruct (Z.leb_spec (current + reserved + bytes) usize_max); cbn; [|split; [done|intros; exfalso; lia]]. apply Z.leb_le.
Qed.

Lemma allowed_memory_le limit : allowed_memory limit ≤ usize_max.
Proof. unfold allowed_memory, saturating_mul. apply Z.div_le_upper_bound; [lia|]. unfold usize_max. lia. Qed.

(** A step of one thread: its request stays one, and the counter changes by
    what it holds. *)
Lemma reserve_step_keeps counter spurious r r' counter' :
  request_ok r → 0 ≤ counter ≤ usize_max → held r ≤ counter → reserve_step counter spurious r = Some (r', counter') →
  request_ok r' ∧ counter' = counter - held r + held r' ∧ 0 ≤ counter' ≤ usize_max.
Proof.
  intros Hr Hc Hh. destruct r as [bytes [[limit current]|]|bytes limit current reserved|bytes|e|]; cbn in *; try done.
  - intros [= <- <-]. cbn. lia.
  - intros [= <- <-]. cbn. lia.
  - destruct Hr as (H1 & H2 & H3).
    destruct (ingest_memory_reservation_fits _ _ _ _) eqn:Hf; [|intros [= <- <-]; cbn; lia].
    apply fits_iff in Hf; [|apply allowed_memory_le|done]. pose proof (allowed_memory_le limit).
    destruct (negb spurious && (counter =? reserved)) eqn:Hcas; [|intros [= <- <-]; cbn; lia].
    apply andb_true_iff in Hcas as [_ Heq]. intros [= <- <-]. cbn. unfold saturating_add. lia.
  - destruct (Z.ltb_spec 0 bytes); intros [= <- <-]; cbn; [|lia].
    rewrite Z.mod_small by (unfold usize_max in *; lia). lia.
Qed.

Lemma memory_step_inv s s' : memory_inv s → memory_step s s' → memory_inv s'.
Proof.
  intros Hinv Hs. revert Hinv. destruct Hs as [s i r r' counter spurious Hi Hstep|s budget limits Hbud Hlim]; intros [Hr Hc Hb].
  - pose proof (Forall_lookup_1 _ _ _ _ Hr Hi) as Hri. pose proof (held_le _ _ _ Hr Hi) as Hle. rewrite <- Hc in Hle.
    destruct (reserve_step_keeps _ _ _ _ _ Hri Hb Hle Hstep) as (K1 & K2 & K3). split; cbn.
    + by apply Forall_insert.
    + rewrite (sum_held_insert _ _ r) by done. lia.
    + done.
  - pose proof (reservation_bytes_nonneg budget Hbud). split; cbn.
    + apply Forall_app. split; [done|]. constructor; [|constructor]. cbn. split; [lia|done].
    + rewrite sum_held_app. cbn. lia.
    + done.
Qed.

Lemma memory_reachable_inv s : rtc memory_step (mkMemoryState [] 0) s → memory_inv s.
Proof.
  intros Hs. remember (mkMemoryState [] 0) as s0 eqn:E. assert (memory_inv s0) as Hinv.
  { rewrite E. split; cbn; [constructor|done|unfold usize_max; lia]. }
  clear E. induction Hs as [|s0 s1 s2 Hstep _ IH]; [done|]. apply IH. by eapply memory_step_inv.
Qed.

(** C19. Concurrent ingests never reserve more memory than the limit allows.  In
    every state that any interleaving of the threads reaches, the shared counter
    is the sum of the reservations that are held: none is counted twice, lost or
    released twice, and the subtraction of a release does not wrap.  When a
    thread is granted a reservation, the memory in use that it saw and all
    reservations together, its own included, are within nine tenths of the
    limit. *)
Theorem reservations_within_limit s :
  rtc memory_step (mkMemoryState [] 0) s →
  reserved_bytes s = sum_held (threads s) ∧
  ∀ i bytes limit current reserved spurious counter,
    threads s !! i = Some (Comparing bytes limit current reserved) →
    reserve_step (reserved_bytes s) spurious (Comparing bytes limit current reserved) = Some (Holding bytes, counter) →
    counter = sum_held (<[i := Holding bytes]> (threads s)) ∧ 10 * (current + counter) ≤ 9 * limit.
Proof.
  intros Hs. apply memory_reachable_inv in Hs as [Hr Hc Hb]. split; [done|].
  intros i bytes limit current reserved spurious counter Hi Hstep. pose proof (Forall_lookup_1 _ _ _ _ Hr Hi) as Hri.
  assert (held (Comparing bytes limit current reserved) ≤ reserved_bytes s) as Hle by (cbn; lia).
  destruct (reserve_step_keeps _ _ _ _ _ Hri Hb Hle Hstep) as (_ & K & _). split.
  { rewrite (sum_held_insert _ _ _ _ Hi). lia. }
  destruct Hri as (H1 & H2 & H3). cbn in Hstep, K.
  destruct (ingest_memory_reservation_fits _ _ _ _) eqn:Hf; [|done]. apply fits_iff in Hf; [|apply allowed_memory_le|done].
  destruct (negb spurious && (reserved_bytes s =? reserved)) eqn:Hcas; [|done]. apply andb_true_iff in Hcas as [_ Heq].
  apply Z.eqb_eq in Heq. unfold allowed_memory, saturating_mul in Hf.
  pose proof (Z.mul_div_le (Z.min (limit * 9) usize_max) 10 ltac:(lia)). lia.
Qed.

(** Two ingests compete for the last bytes: one gets them, the other sees a
    counter that has moved, looks again and fails. *)
Definition competing : MemoryState :=
  let bytes := ingest_memory_reservation_bytes 0 in
  mkMemoryState [Comparing bytes 200000000 10000000 0; Comparing bytes 200000000 10000000 0] 0.

Lemma competing_reachable : rtc memory_step (mkMemoryState [] 0) competing.
Proof.
  eapply rtc_l. { apply (step_spawn _ 0 (Some (200000000, 10000000))); cbn; lia. }
  eapply rtc_l. { apply (step_spawn _ 0 (Some (200000000, 10000000))); cbn; lia. }
  eapply rtc_l. { eapply (step_thread _ 0 _ _ _ false); reflexivity. }
  eapply rtc_l. { eapply (step_thread _ 1 _ _ _ false); reflexivity. }
  apply rtc_refl.
Qed.

Lemma reservations_within_limit_witness :
  rtc memory_step (mkMemoryState [] 0) competing ∧
  reserve_step 0 false (Comparing (ingest_memory_reservation_bytes 0) 200000000 10000000 0)
    = Some (Holding (ingest_memory_reservation_bytes 0), ingest_memory_reservation_bytes 0) ∧
  10 * (10000000 + ingest_memory_reservation_bytes 0) ≤ 9 * 200000000.
Proof.
  split; [exact competing_reachable|]. split; [reflexivity|].
  apply (proj2 (reservations_within_limit competing competing_reachable) 0%nat (ingest_memory_reservation_bytes 0)
    200000000 10000000 0 false (ingest_memory_reservation_bytes 0)); reflexivity.
Defined.

(** The thread that comes second. *)
Example second_ingest_fails :
  let bytes := ingest_memory_reservation_bytes 0 in
  reserve_step bytes false (Comparing bytes 200000000 10000000 0) = Some (Comparing bytes 200000000 10000000 bytes, bytes) ∧
  reserve_step bytes false (Comparing bytes 200000000 10000000 bytes)
    = Some (Failed (reservation_error bytes 10000000 bytes 200000000), bytes).
Proof. by vm_compute. Qed.

(** Without another thread the machine does what [reserve_ingest_memory] says. *)
Lemma reserve_uninterrupted limits counter budget :
  0 ≤ budget → 0 ≤ counter ≤ usize_max → limits_ok limits →
  let bytes := ingest_memory_reservation_bytes budget in
  let first := reserve_step counter false (Requesting bytes limits) in
  match reserve_ingest_memory limits counter budget with
  | Ok n =>
      match limits with
      | Some _ => ∃ r, first = Some (r, counter) ∧ reserve_step counter false r = Some (Holding n, counter + n)
      | None => first = Some (Holding n, counter)
      end
  | Err e => ∃ r, first = Some (r, counter) ∧ reserve_step counter false r = Some (Failed e, counter)
  | Panic => False
  end.
Proof.
  intros Hb Hc Hl bytes first. unfold reserve_ingest_memory. fold bytes. destruct limits as [[limit current]|]; [|done].
  pose proof (reservation_bytes_nonneg budget Hb). fold bytes in H.
  destruct (ingest_memory_reservation_fits _ _ _ _) eqn:Hf.
  - exists (Comparing bytes limit current counter). split; [done|]. cbn. rewrite Hf, Z.eqb_refl. cbn.
    apply fits_iff in Hf; [|apply allowed_memory_le|lia]. pose proof (allowed_memory_le limit). cbn in Hl.
    unfold saturating_add. do 2 f_equal. lia.
  - exists (Comparing bytes limit current counter). split; [done|]. cbn. by rewrite Hf.
Qed.
