(* ===== verification/IngestRun.v ===== *)
(** Bulk ingestion ([MonetdbStatement::ingest] in
    [crates/adbc-monetdb/src/driver.rs]): how a bound stream is routed to a
    prepared INSERT or to COPY ([route_ingest_reader]), the thread that prepares
    windows ([IngestWindowPrefetch]), the conversation in which the server asks
    for the files of a COPY, and the whole operation with its atomic scope, its
    statistics and the poisoning of the caller's transaction.

    The server's side of a COPY is a tree of questions ([CopyDialog]): it ends, or it
    asks for a file and goes on with what it gets.  Instants come from a clock
    that is read once more at every look; whether a window is ready in time is
    decided outside.  A window is computed when it is asked for here; the thread
    that prepares it before is in [IngestThreads]. *)

From stdpp Require Import base list numbers strings gmap.
From S2P Require Import Prelude RustStd Types Calendar ArrowData Encode Errors SqlScan Template PreparedCache Compression Ingest Transactions Prepare ParameterBatch Statement ReadPath Options Connection Append IngestMemory.
Local Open Scope Z_scope.

(** ** Routing *)

Record InsertCandidate : Type := mkCandidate {
  candidate_batch : RecordBatch;
  candidate_arguments : list bytes;
  candidate_bytes : Z;
}.

Section routing.
Context `{ArrowStream, Chrono, Half, CursorDisplay, SqlFormat}.

(** The arguments of the rows, or none when they are too long. *)
Fixpoint render_rows (batch : RecordBatch) (rendered_bytes : Z) (arguments : list bytes) (rows : list nat)
    : res Error (list bytes) :=
  match rows with
  | [] => Ok arguments
  | row :: rows =>
      parts ← render_arguments batch row;
      let text := comma_list parts in
      rendered_bytes ← ok_or (checked_add rendered_bytes (saturating_add (len text) 32))
                         (error "rendered INSERT byte count overflows" Internal);
      if PARAMETER_UPDATE_BATCH_BYTES <? rendered_bytes then Ok []
      else render_rows batch rendered_bytes (arguments ++ [text]) rows
  end.

(** [monetdb_arrow::encode_column] of every column, for its errors. *)
Definition check_encodable (schema : list Field) (batch : RecordBatch) : res Error unit :=
  _ ← map_res (λ '(field, column), map_err (encode_failure InvalidData) (encode_column field column))
        (zip schema (batch_columns batch));
  Ok tt.

(** The rest of the stream, with what was read put back in front
    ([PrefixedBatchReader]), or the rows for a prepared INSERT. *)
Definition route_ingest_reader (reader : list (res Error RecordBatch)) (schema : list Field) (insert_rows : Z)
    : res Error (list (res Error RecordBatch) * option InsertCandidate) :=
  if insert_rows =? 0 then Ok (reader, None)
  else
    match reader with
    | [] => Ok ([], None)
    | first :: reader =>
        first ← first;
        _ ← validate_record_batch first;
        if negb (bool_decide (batch_schema first = schema))
        then Err (error "record batch schema changed within ingest stream" InvalidData)
        else
          '(second, reader) ← match reader with
                              | [] => Ok (None, [])
                              | second :: reader => second ← second; Ok (Some second, reader)
                              end;
          estimated ← estimated_batch_size schema first;
          let rows := Z.of_nat (batch_rows first) in
          arguments ←
            (if (0 <? rows) && (rows <=? insert_rows) && negb (bool_decide (is_Some second))
                && (estimated <=? PARAMETER_UPDATE_BATCH_BYTES / 2)
             then _ ← check_encodable schema first; render_rows first 0 [] (seq 0 (batch_rows first))
             else Ok []);
          match arguments with
          | [] => Ok (Ok first :: option_list (Ok <$> second) ++ reader, None)
          | _ => Ok (reader, Some (mkCandidate first arguments estimated))
          end
    end.
End routing.

(** ** Time *)

(** What the outside decides: the instants read (in nanoseconds), whether the
    k-th window is late, the memory of the system, the bytes other ingests have
    reserved, and the text of an error to start a thread. *)
Record IngestEnv : Type := mkEnv {
  env_now : nat → Z;
  env_late : nat → bool;
  env_memory : SystemMemory;
  env_reserved : Z;
  env_spawn_error : option bytes;
  (** [Instant::checked_add]. *)
  env_checked_add : Z → Z → option Z;
}.

Definition timed_out (message : string) : Error := error message Timeout.

(** [remaining_ingest_timeout] at an instant. *)
Definition remaining_ingest_timeout (deadline : option Z) (now : Z) : res Error (option Z) :=
  match deadline with
  | None => Ok None
  | Some deadline =>
      if deadline <? now then Err (timed_out "ingest operation timeout expired") else Ok (Some (deadline - now))
  end.

Definition ingest_timeouts (t : Timeouts) (deadline : option Z) (now : Z) : res Error Timeouts :=
  remaining ← remaining_ingest_timeout deadline now;
  match remaining with
  | None => Ok t
  | Some remaining =>
      let bounded (timeout : option Z) := Some (Z.min (default remaining timeout) remaining) in
      Ok (mkTimeouts (bounded (read_timeout t)) (bounded (write_timeout t)) (Some remaining))
  end.

(** ** The thread that prepares windows *)

Record IngestWindowPrefetch : Type := mkPrefetch {
  prefetch_scheduler : IngestWindowScheduler;
  (** The receiver is there; the worker has sent its last result. *)
  prefetch_receiver : bool;
  prefetch_finished : bool;
}.

Definition detach (p : IngestWindowPrefetch) : IngestWindowPrefetch :=
  mkPrefetch (prefetch_scheduler p) false (prefetch_finished p).

Section prefetch.
Context `{ArrowStream, Chrono, Half, Lz4, CursorDisplay, SqlFormat}.

Definition stopped_early : Error := error "ingest window prefetch stopped before producing a result" Internal.

(** What the channel gives next: a panic of the worker closes it. *)
Definition prefetch_next_window (late : bool) (timeout : option Z) (p : IngestWindowPrefetch)
    : res Error (option EncodedIngestWindow) * IngestWindowPrefetch :=
  if negb (prefetch_receiver p) then
    (Err (error "ingest window prefetch is no longer available" InvalidState), p)
  else if bool_decide (is_Some timeout) && late then
    (Err (timed_out "ingest source did not produce a window before the operation timeout"), detach p)
  else if prefetch_finished p then (Err stopped_early, p)
  else
    match next_window (prefetch_scheduler p) with
    | Ok (w, s) => (Ok w, mkPrefetch s true (match w with Some _ => false | None => true end))
    | Err e => (Err e, mkPrefetch (prefetch_scheduler p) true true)
    | Panic => (Err stopped_early, mkPrefetch (prefetch_scheduler p) true true)
    end.

(** [finish]: the counters of the scheduler, unless the receiver is gone (which
    it is after every error, a panic of the worker included). *)
Definition prefetch_finish (p : IngestWindowPrefetch) : option IngestWindowScheduler :=
  if prefetch_receiver p then Some (prefetch_scheduler p) else None.

Definition start_ingest_window_prefetch (env : IngestEnv) (reader : list (res Error RecordBatch)) (schema : list Field)
    (window_budget physical_window_budget incompressible_window_budget : Z) (configured_rows : option Z)
    (wire : WireCompression) : res Error IngestWindowPrefetch :=
  _ ← reserve_ingest_memory (cgroup_memory_limit_and_usage_bytes (env_memory env)) (env_reserved env) physical_window_budget;
  match env_spawn_error env with
  | Some text => Err (mkError (str "starting ingest window prefetch failed: " ++ text) Internal)
  | None =>
      Ok (mkPrefetch (scheduler_new reader schema window_budget physical_window_budget incompressible_window_budget
                        configured_rows wire) true false)
  end.
End prefetch.

(** ** The upload of a window *)

(** The thread that encodes retained Arrow data. *)
Inductive RetainedEncoder : Type := EncoderRunning | EncoderStopped | EncoderPanicked.

Record Upload : Type := mkUpload {
  upload_columns : list EncodedColumn;
  upload_window_bytes : Z;
  upload_largest_chunk : Z;
  upload_largest_column : Z;
  upload_encoder : RetainedEncoder;
}.

Definition upload_of (w : EncodedIngestWindow) : Upload :=
  mkUpload (window_columns w) (encoded_bytes w) (largest_chunk w) (largest_column_bytes w) EncoderRunning.

(** [mem::take] of the chunks of a column. *)
Definition without_chunks (c : EncodedColumn) : EncodedColumn :=
  mkEncodedColumn [] (pending c) (compression c) (fixed_width c) (Compression.wire_compression c) (column_bytes c).

Definition with_encoder (u : Upload) (e : RetainedEncoder) : Upload :=
  mkUpload (upload_columns u) (upload_window_bytes u) (upload_largest_chunk u) (upload_largest_column u) e.

Definition encoder_stopped (before : string) : CursorError := CE_FileTransfer (str "ingest encoder stopped before " ++ str before).
Definition byte_count_overflow : CursorError := CE_FileTransfer (str "encoded ingest byte count overflows").

Section uploads.
Context `{ArrowStream, Chrono, Half, Lz4, CursorDisplay, SqlFormat, CharTables}.

(** The bytes of retained batches: requested from the encoder, passed on. *)
Definition upload_retained (schema : list Field) (batches : list RecordBatch) (index : nat) (column : EncodedColumn)
    (u : Upload) : res CursorError (list bytes) * Upload :=
  match upload_encoder u with
  | EncoderRunning =>
      match upload_retained_column schema batches index with
      | Ok (chunks, bytes) =>
          let u := mkUpload (upload_columns u) (upload_window_bytes u)
                     (foldr Z.max (upload_largest_chunk u) ((λ chunk, len chunk) <$> chunks)) (upload_largest_column u) EncoderRunning in
          match checked_add (column_bytes column) bytes with
          | None => (Err byte_count_overflow, u)
          | Some column_total =>
              let largest := Z.max (upload_largest_column u) column_total in
              match checked_add (upload_window_bytes u) bytes with
              | None => (Err byte_count_overflow,
                         mkUpload (upload_columns u) (upload_window_bytes u) (upload_largest_chunk u) largest EncoderRunning)
              | Some total => (Ok chunks, mkUpload (upload_columns u) total (upload_largest_chunk u) largest EncoderRunning)
              end
          end
      | Err e => (Err e, with_encoder u EncoderStopped)
      | Panic => (Err (encoder_stopped "the upload completed"), with_encoder u EncoderPanicked)
      end
  | _ => (Err (encoder_stopped "a column was requested"), u)
  end.

(** The closure given to [execute_with_streaming_uploads]. *)
Definition upload_request (schema : list Field) (arena : list CompressedSlab) (retained : list RecordBatch) (wire_lz4 : bool)
    (filename : bytes) (u : Upload) : res CursorError (list bytes) * Upload :=
  match upload_column_index filename (length schema) with
  | Err e => (Err e, u)
  | Panic => (Panic, u)
  | Ok index =>
      match upload_columns u !! index with
      | None => (Panic, u)
      | Some column =>
          let u := mkUpload (<[index := without_chunks column]> (upload_columns u)) (upload_window_bytes u)
                     (upload_largest_chunk u) (upload_largest_column u) (upload_encoder u) in
          match upload_column wire_lz4 arena column with
          | Err e => (Err e, u)
          | Panic => (Panic, u)
          | Ok chunks =>
              match retained with
              | [] => (Ok chunks, u)
              | _ =>
                  let '(more, u) := upload_retained schema retained index column u in
                  ((λ more, chunks ++ more) <$> more, u)
              end
          end
      end
  end.
End uploads.

(** The server's side of a COPY: it ends with a count of rows or an error, or it
    asks for a file. *)
Inductive CopyDialog (db : Type) : Type :=
| DialogEnd (reply : res CursorError (option Z)) (d : db)
| DialogFile (filename : bytes) (next : res CursorError (list bytes) → CopyDialog db).
Arguments DialogEnd {db}. Arguments DialogFile {db}.

Class CopyServer (db : Type) := { server_copy : db → bytes → CopyDialog db }.

(** A COPY: its text, and the files that were uploaded for it. *)
Record Copy : Type := mkCopy { copy_sql : bytes; copy_files : list (bytes * list bytes) }.

(** The files asked for, one after the other. *)
Fixpoint run_dialog {db} (request : bytes → Upload → res CursorError (list bytes) * Upload) (before : db) (dialog : CopyDialog db)
    (u : Upload) (files : list (bytes * list bytes))
    : res CursorError (option Z) * Upload * list (bytes * list bytes) * db :=
  match dialog with
  | DialogEnd reply d => (reply, u, files, d)
  | DialogFile filename next =>
      match request filename u with
      | (Panic, u) => (Panic, u, files, before)
      | (Ok chunks, u) => run_dialog request before (next (Ok chunks)) u (files ++ [(filename, chunks)])
      | (Err e, u) => run_dialog request before (next (Err e)) u files
      end
  end.

(** ** The state of an ingest *)

Record Run (db : Type) : Type := mkRun {
  run_driver : Driver db;
  run_stats : IngestStats;
  run_writes_started : bool;
  (** The looks at the clock and at the channel so far. *)
  run_looks : nat;
  run_waits : nat;
  run_copies : list Copy;
}.
Arguments mkRun {db}. Arguments run_driver {db}. Arguments run_stats {db}. Arguments run_writes_started {db}.
Arguments run_looks {db}. Arguments run_waits {db}. Arguments run_copies {db}.

Definition rx (db A : Type) : Type := Run db → res Error A * Run db.

#[global] Instance rx_ret db : MRet (rx db) := λ A a s, (Ok a, s).
#[global] Instance rx_bind db : MBind (rx db) := λ A B f m s,
  match m s with
  | (Ok a, s) => f a s
  | (Err e, s) => (Err e, s)
  | (Panic, s) => (Panic, s)
  end.

Definition pure_rx {db A} (r : res Error A) : rx db A := λ s, (r, s).
Definition try_rx {db A} (m : rx db A) : rx db (res Error A) := λ s,
  match m s with
  | (Panic, s) => (Panic, s)
  | (r, s) => (Ok r, s)
  end.
Definition with_driver {db} (s : Run db) (d : Driver db) : Run db :=
  mkRun d (run_stats s) (run_writes_started s) (run_looks s) (run_waits s) (run_copies s).
Definition on_run {db A} (m : dx db A) : rx db A := λ s, let '(r, d) := m (run_driver s) in (r, with_driver s d).
Definition on_server {db A} (m : tx db A) : rx db A := on_run (on_session m).
Definition get_run {db} : rx db (Run db) := λ s, (Ok s, s).
Definition on_stats {db} (f : IngestStats → IngestStats) : rx db unit := λ s,
  (Ok tt, mkRun (run_driver s) (f (run_stats s)) (run_writes_started s) (run_looks s) (run_waits s) (run_copies s)).
Definition start_writes {db} : rx db unit := λ s,
  (Ok tt, mkRun (run_driver s) (run_stats s) true (run_looks s) (run_waits s) (run_copies s)).

(** ** The operation *)

(** What [ingest] finds out before it uses the connection. *)
Record IngestPlan : Type := mkPlan {
  plan_target : IngestTarget;
  plan_schema : list Field;
  plan_reader : list (res Error RecordBatch);
  plan_candidate : option InsertCandidate;
  plan_insert_rows : Z;
}.

(** What it decides with the connection: the staging of a constrained append,
    the scope, and whether a transaction-scoped temporary table exists. *)
Record IngestScope : Type := mkIngestScope {
  scope_staged : bool;
  scope_caller : CallerTransactionScope;
  scope_temporary : option bool;
}.

Definition scope_name (scope : AtomicScope) : string :=
  match scope with
  | Autocommit => "autocommit"
  | CallerTransaction => "transaction"
  | Savepoint _ _ => "savepoint"
  end.

Definition autocommit_temporary : Error :=
  error "cannot append to a temporary table declared ON COMMIT DELETE ROWS while autocommit is enabled; disable autocommit or declare ON COMMIT PRESERVE ROWS" InvalidState.

Section ingest.
Context {db row : Type} `{!Server db, !Rows db row, !BoolCells row, !CopyServer db, MapiCodes, CursorDisplay, Unicode, SqlFormat, CharTables, Chrono}.
Context `{ArrowStream, Half, Lz4, OptionNames, ClientLimits, UploadLimits}.
Context (decode_error_text : DecodeError → bytes) (pid : Z) (env : IngestEnv).

(** [Instant::now()]. *)
Definition look : rx db Z := λ s,
  (Ok (env_now env (run_looks s)),
   mkRun (run_driver s) (run_stats s) (run_writes_started s) (S (run_looks s)) (run_waits s) (run_copies s)).

(** The clock is read only where there is a deadline. *)
Definition at_deadline {A} (f : option Z → Z → res Error A) (deadline : option Z) : rx db A :=
  match deadline with
  | Some _ => now ← look; pure_rx (f deadline now)
  | None => pure_rx (f None 0)
  end.

(** *** Before the connection is used *)

Definition unsupported_column (field : Field) : res Error unit :=
  data_type ← map_err (encode_failure NotImplemented) (monet_type_for_field field);
  match data_type with
  | MOid => Err (error "COPY BINARY ingestion for OID columns is not supported by MonetDB" NotImplemented)
  | MInet => Err (error "COPY BINARY ingestion for INET columns is not supported by MonetDB" NotImplemented)
  | _ => Ok tt
  end.

Definition ingest_mode_of (st : OptionedStatement) : bytes :=
  default MODE_CREATE (optional_string (os_options st) name_ingest_mode).

Definition temporary_of (st : OptionedStatement) : res Error bool :=
  match os_options st !! name_temporary with
  | Some value => option_bool value
  | None => Ok false
  end.

(** The checks and the texts, after the cache is invalidated. *)
Definition plan_ingest (st : OptionedStatement) (bound : BoundStream) (table : bytes) : res Error IngestPlan :=
  temporary ← temporary_of st;
  if bool_decide (is_Some (optional_string (os_options st) name_target_catalog))
  then Err (not_implemented (str "ingest target catalogs"))
  else
    let schema_name := optional_string (os_options st) name_target_db_schema in
    if (temporary : bool) && bool_decide (is_Some schema_name)
    then Err (error "temporary ingestion cannot specify a schema" InvalidArguments)
    else
      target ← qualified_name schema_name table;
      operation_target ← (if (temporary : bool) then qualified_name (Some (str "tmp")) table else Ok target);
      let schema := bound_schema bound in
      if bool_decide (length schema = 0%nat) then Err (error "cannot ingest a zero-column stream" InvalidArguments)
      else
        _ ← map_res unsupported_column schema;
        columns ← ingest_column_definitions schema true;
        let create := create_statement temporary target columns in
        let t := os_tuning st in
        let insert_rows :=
          match write_batch_rows t with
          | None => adaptive_insert_rows (ingest_insert_rows t) (os_round_trip st)
          | Some _ => 0
          end in
        '(reader, candidate) ← route_ingest_reader (bound_items bound) schema insert_rows;
        Ok (mkPlan (mkIngestTarget (ingest_mode_of st) create operation_target schema_name table temporary) schema reader
              candidate insert_rows).

(** *** The scope *)

Definition decide_scope (t : Tuning) (plan : IngestPlan) (prior_writes : bool) : rx db IngestScope :=
  let target := plan_target plan in
  let mode := target_mode target in
  let is_insert := bool_decide (is_Some (plan_candidate plan)) in
  temporary_state ←
    (if target_temporary target && may_append mode
     then state ← on_server (transaction_scoped_temporary_table_state (Some (target_table target))); mret (Some state)
     else mret None);
  _ ← (if bool_decide ((state ← temporary_state; temporary_target state) = Some true)
       then autocommit ← on_server get_autocommit; if (autocommit : bool) then pure_rx (Err autocommit_temporary) else mret tt
       else mret tt);
  append_to_existing ←
    (if is_key mode MODE_APPEND then mret true
     else if is_key mode MODE_CREATE_APPEND then on_server (table_exists (catalog_schema target) (target_table target))
     else mret false);
  constraint_state ←
    (if negb is_insert && append_to_existing
        && match constrained_append t with AppendAuto => true | AppendDirect => false end
     then state ← on_server (table_constraint_state (catalog_schema target) (target_table target)); mret (Some state)
     else mret None);
  let staged := from_option constrained false constraint_state in
  let caller :=
    if is_insert || staged || from_option (λ state, negb (table_is_there state)) false constraint_state
    then ScopeSavepoint
    else if append_to_existing && match ingest_atomicity t with AtomicityTransaction => true | AtomicitySavepoint => false end
    then ScopeDirect
    else ScopeSavepoint in
  _ ← (if prior_writes && match ingest_atomicity t with AtomicitySavepoint => true | AtomicityTransaction => false end
       then
         autocommit ← on_server get_autocommit;
         if negb autocommit then
           pure_rx (Err (error "ingest_atomicity=savepoint requires a transaction without prior writes; commit or rollback before ingesting"
                           InvalidState))
         else mret tt
       else mret tt);
  mret (mkIngestScope staged caller (temporary_any <$> temporary_state)).

(** *** The insert path *)

Definition prepare_cached_with_status_locked (query : bytes) (parameter_count : nat) : dx db (PreparedEntry * bool) :=
  let query := normalize_prepared_query query in
  cached ← with_cache (λ c, Ok (cache_get c query));
  match cached with
  | Some entry => mret (entry, true)
  | None =>
      metadata ← on_session (prepare_query_inner_locked (row := row) decode_error_text pid query parameter_count false);
      candidate ← prepared_entry_new metadata query;
      entry ← with_cache (λ c, cache_insert c query candidate);
      mret (entry, false)
  end.

(** The closure [prepare]. *)
Definition prepare_insert (operation_target : bytes) (names : list bytes)
    : rx db (option (PreparedEntry * bool) * option Error) :=
  query ← pure_rx (insert_parameter_query operation_target names);
  prepared ← try_rx (on_run (prepare_cached_with_status_locked query (length names)));
  match prepared with
  | Ok value => mret (Some value, None)
  | Err e => mret (None, Some e)
  | Panic => pure_rx Panic
  end.

(** The prepared INSERT for the stream's columns, or for the aligned ones. *)
Definition insert_entry (plan : IngestPlan) : rx db (PreparedEntry * bool) :=
  let target := plan_target plan in
  let stream_names := field_name <$> plan_schema plan in
  '(prepared, prepare_error) ← prepare_insert (operation_target target) stream_names;
  prepared ←
    match prepared with
    | None =>
        if may_append (target_mode target) then
          aligned ← on_server (aligned_columns (row := row) target (plan_schema plan));
          if bool_decide (aligned = stream_names) then mret None
          else again ← prepare_insert (operation_target target) aligned; mret again.1
        else mret None
    | prepared => mret prepared
    end;
  pure_rx (ok_or prepared (default (error "no INSERT form was available for ingest" Internal) prepare_error)).

Definition insert_candidate_rows (plan : IngestPlan) (candidate : InsertCandidate) : rx db Z :=
  let target := plan_target plan in
  _ ← on_server (execute_ingest_target_mode target);
  '(entry, cache_hit) ← insert_entry plan;
  _ ← (if may_append (target_mode target)
       then pure_rx (validate_prepared_insert_schema (plan_schema plan) (entry_parameters entry)
                       (append_mismatch_status (target_mode target)))
       else mret tt);
  _ ← on_stats (λ s, stats_with_cache_hit s cache_hit);
  let queries := (λ arguments, mkBoundQuery (str "EXECUTE " ++ fmt_int (entry_id entry) ++ str "(" ++ arguments ++ str ")")
                                 None None) <$> candidate_arguments candidate in
  _ ← start_writes;
  count ← on_server (execute_update_batch queries (mkRowCount 0 false));
  if negb (has_count count) then pure_rx (Err (error "MonetDB did not report the INSERT row count" InvalidData))
  else
    let expected := Z.of_nat (batch_rows (candidate_batch candidate)) in
    if negb (signed_range 64 expected) then pure_rx (Err (error "insert row count exceeds i64" Internal))
    else if negb (row_total count =? expected) then
      pure_rx (Err (mkError (str "MonetDB inserted " ++ fmt_int (row_total count) ++ str " rows from a batch containing "
                             ++ fmt_int expected ++ str " rows") InvalidData))
    else mret (row_total count).

(** *** The copy path *)

(** The COPY of a target, without and with compression on the wire. *)
Definition copy_statement (target copy_columns : bytes) (files : nat) (wire_lz4 : bool) : bytes :=
  str "COPY LITTLE ENDIAN BINARY INTO " ++ target ++ copy_columns ++ str " FROM "
  ++ comma_list ((λ index, str "'c" ++ fmt_int (Z.of_nat index) ++ str "'") <$> seq 0 files)
  ++ (if wire_lz4 then str " ON 'lz4' CLIENT" else str " ON CLIENT").

(** [execute_with_streaming_uploads]. *)
Definition execute_with_streaming_uploads (query : bytes) (request : bytes → Upload → res CursorError (list bytes) * Upload)
    (u : Upload) : rx db (res CursorError (option Z) * Upload) := λ s,
  let d := run_driver s in
  let session := session d in
  let '(reply, u, files, server) := run_dialog request (server session) (server_copy (server session) query) u [] in
  let session := mkSession (connection session) server (savepoint_id session) (sent session ++ [query]) in
  let s := mkRun (mkDriver session (prepared_cache d) (cells d) (slots d)) (run_stats s) (run_writes_started s) (run_looks s)
             (run_waits s) (run_copies s ++ [mkCopy query files]) in
  match reply with Panic => (Panic, s) | reply => (Ok (reply, u), s) end.

(** The end of the encoder thread, when there was one. *)
Definition encoder_result (retained : list RecordBatch) (u : Upload) : res Error unit :=
  match retained, upload_encoder u with
  | _ :: _, EncoderPanicked => Err (error "ingest encoder thread panicked" Internal)
  | _, _ => Ok tt
  end.

Definition completed_window (w : EncodedIngestWindow) (u : Upload) : CompletedIngestWindow :=
  let wire_lz4 := uses_wire_lz4 w in
  mkCompleted (window_rows w) (upload_window_bytes u) (stored_bytes w) (storage_mode w) wire_lz4 (memory_usage w wire_lz4)
    (upload_largest_chunk u) (upload_largest_column u).

(** One round of the loop over the windows: the rows the server has copied. *)
Definition copy_window (copy : bool → bytes) (schema : list Field) (staged : bool) (w : EncodedIngestWindow) : rx db Z :=
  let wire_lz4 := uses_wire_lz4 w in
  _ ← start_writes;
  '(reply, u) ← execute_with_streaming_uploads (copy wire_lz4)
                  (upload_request schema (compressed_arena w) (retained_batches w) wire_lz4) (upload_of w);
  server_rows ← pure_rx (combine_error (map_err map_cursor_error reply) (encoder_result (retained_batches w) u)
                           (str "ingest encoder cleanup"));
  _ ← on_stats (λ s, record_window s (completed_window w u) staged);
  server_rows ← pure_rx (ok_or server_rows (error "MonetDB did not report the COPY row count" InvalidData));
  if negb (signed_range 64 (window_rows w)) then pure_rx (Err (error "window row count exceeds i64" Internal))
  else if negb (server_rows =? window_rows w) then
    pure_rx (Err (mkError (str "MonetDB copied " ++ fmt_int server_rows ++ str " rows from a window containing "
                           ++ fmt_int (window_rows w) ++ str " rows") InvalidData))
  else mret server_rows.

(** [windows.next_window] with the time that is left. *)
Definition receive_window (timeout : option Z) (p : IngestWindowPrefetch)
    : rx db (res Error (option EncodedIngestWindow) * IngestWindowPrefetch) := λ s,
  (Ok (prefetch_next_window (env_late env (run_waits s)) timeout p),
   mkRun (run_driver s) (run_stats s) (run_writes_started s) (run_looks s) (S (run_waits s)) (run_copies s)).
Definition wait_window (deadline : option Z) (p : IngestWindowPrefetch)
    : rx db (res Error (option EncodedIngestWindow) * IngestWindowPrefetch) :=
  timeout ← at_deadline remaining_ingest_timeout deadline; receive_window timeout p.

(** The loop over the windows: its result, and what is left of the prefetch.
    Every round but the last has a window with a row. *)
Fixpoint copy_windows (fuel : nat) (copy : bool → bytes) (schema : list Field) (staged : bool) (t : Timeouts)
    (deadline : option Z) (rows : Z) (p : IngestWindowPrefetch) : rx db (res Error Z * IngestWindowPrefetch) :=
  match fuel with
  | O => pure_rx Panic
  | S fuel =>
      waited ← try_rx (wait_window deadline p);
      match waited with
      | Panic => pure_rx Panic
      | Err e => mret (Err e, p)
      | Ok (Panic, p) => pure_rx Panic
      | Ok (Err e, p) => mret (Err e, p)
      | Ok (Ok None, p) => mret (Ok rows, p)
      | Ok (Ok (Some w), p) =>
          copied ← try_rx (_ ← at_deadline (ingest_timeouts t) deadline; copy_window copy schema staged w);
          match copied with
          | Panic => pure_rx Panic
          | Err e => mret (Err e, p)
          | Ok server_rows =>
              match i64_checked_add rows server_rows with
              | None => mret (Err (error "ingested row count overflows i64" Internal), p)
              | Some rows => copy_windows fuel copy schema staged t deadline rows p
              end
          end
      end
  end.

(** The staging table of a constrained append: created, and COPY goes to it. *)
Definition create_stage (plan : IngestPlan) (staged : bool) (destination : option (list bytes))
    : rx db (option ConstrainedAppendStage) :=
  if staged then
    destination ← pure_rx (ok_or destination (error "constrained append staging requires an existing destination" Internal));
    stage ← on_server (constrained_append_stage pid (plan_schema plan) destination (operation_target (plan_target plan)));
    _ ← start_writes;
    _ ← on_server (execute (stage_create stage));
    _ ← on_stats (λ s, stats_with_path s "staged_copy");
    mret (Some stage)
  else mret None.

(** The rows of the staging table are moved to the target; it reports how many. *)
Definition move_staged (t : Timeouts) (deadline : option Z) (stage : option ConstrainedAppendStage) (rows : Z) : rx db Z :=
  match stage with
  | None => mret rows
  | Some stage =>
      _ ← at_deadline (ingest_timeouts t) deadline;
      '(reply, _) ← on_server (execute (stage_move_to_target stage));
      _ ← on_stats stats_with_move;
      moved ← pure_rx (ok_or (affected_rows reply) (error "MonetDB did not report the constrained append row count" InvalidData));
      if negb (moved =? rows) then
        pure_rx (Err (mkError (str "MonetDB moved " ++ fmt_int moved ++ str " staged rows from an ingest containing "
                               ++ fmt_int rows ++ str " rows") InvalidData))
      else mret rows
  end.

Definition drop_stage (t : Timeouts) (deadline : option Z) (stage : option ConstrainedAppendStage) (rows : Z) : rx db Z :=
  match stage with
  | None => mret rows
  | Some stage =>
      _ ← at_deadline (ingest_timeouts t) deadline;
      dropped ← on_server (execute_raw (stage_drop stage));
      pure_rx (combine_atomic_error (Ok rows) (done_of dropped) (str "dropping the constrained append staging table"))
  end.

(** [timeouts.operation.and_then(..)]; a deadline that cannot be represented is none. *)
Definition operation_deadline (t : Timeouts) : rx db (option Z) :=
  match operation_timeout t with
  | None => mret None
  | Some timeout => now ← look; mret (env_checked_add env now timeout)
  end.

Definition copy_columns_text (stage : option ConstrainedAppendStage) (destination : option (list bytes)) : res Error bytes :=
  match stage, destination with
  | None, Some names => columns ← quoted_column_list names; Ok (str " (" ++ columns ++ str ")")
  | _, _ => Ok []
  end.

(** The closure of the copy path. *)
Definition copy_stream (t : Tuning) (budgets : Z * Z * Z) (plan : IngestPlan) (staged : bool) : rx db Z :=
  let '(window_budget, physical, incompressible) := budgets in
  let target := plan_target plan in
  let schema := plan_schema plan in
  destination ← on_server (prepare_ingest_target (row := row) target schema);
  stage ← create_stage plan staged destination;
  let copy_target := from_option stage_qualified_name (operation_target target) stage in
  columns ← pure_rx (copy_columns_text stage destination);
  let copy := copy_statement copy_target columns (length schema) in
  prefetch ← pure_rx (start_ingest_window_prefetch env (plan_reader plan) schema window_budget physical incompressible
                        (write_batch_rows t) (Options.wire_compression t));
  deadline ← operation_deadline (timeouts t);
  '(uploaded, prefetch) ← copy_windows (S (rows_left (prefetch_scheduler prefetch))) copy schema staged (timeouts t) deadline 0 prefetch;
  let prefetch := match uploaded with Ok _ => prefetch | _ => detach prefetch end in
  _ ← on_stats (λ s, match prefetch_finish prefetch with
                     | Some scheduler => stats_with_scheduler s (input_batches scheduler) (coalesced_windows scheduler)
                                           (split_windows scheduler)
                     | None => s
                     end);
  rows ← pure_rx uploaded;
  rows ← move_staged (timeouts t) deadline stage rows;
  drop_stage (timeouts t) deadline stage rows.

(** *** The whole *)

Definition poison (target : bytes) (windows : Z) : rx db unit :=
  _ ← on_server (on_connection (λ c, poison_ingest c target windows));
  on_stats stats_with_poison.

(** A partial ingest may be kept: an append, outside a staging table, that the
    server did not refuse. *)
Definition partial_allowed (t : Tuning) (mode : bytes) (staged : bool) (stats : IngestStats) (result : res Error Z) : bool :=
  match ingest_partial t with PartialAllow => true | PartialBlock => false end
  && negb staged && is_key mode MODE_APPEND && (0 <? target_copy_count stats)
  && match result with Err e => bool_decide (error_sqlstate e = no_sqlstate) | _ => false end.

Definition finish_insert (plan : IngestPlan) (candidate : InsertCandidate) (scope : AtomicScope) : rx db Z :=
  let target := plan_target plan in
  inserted ← try_rx (insert_candidate_rows plan candidate);
  s ← get_run;
  _ ← (if negb (is_ok inserted) && is_caller scope && run_writes_started s
       then poison (operation_target target) 0 else mret tt);
  result ← try_rx (on_server (finish_atomic scope inserted));
  _ ← on_stats (λ s, stats_of_insert s (candidate_bytes candidate));
  pure_rx result.

Definition finish_copy (t : Tuning) (budgets : Z * Z * Z) (plan : IngestPlan) (staged : bool) (scope : AtomicScope) : rx db Z :=
  let target := plan_target plan in
  copied ← try_rx (copy_stream t budgets plan staged);
  s ← get_run;
  let allowed := partial_allowed t (target_mode target) staged (run_stats s) copied in
  result ← try_rx (on_server (finish_atomic scope copied));
  _ ← (if negb (is_ok copied) && run_writes_started s && is_caller scope && negb allowed
       then poison (operation_target target) (target_copy_count (run_stats s)) else mret tt);
  pure_rx result.

(** From the scope on: the statistics of the operation, and its result. *)
Definition run_ingest (t : Tuning) (round_trip : Z) (plan : IngestPlan) (staged : bool) (scope : AtomicScope)
    : Driver db → res Error Z * Run db := λ d,
  let mode := target_mode (plan_target plan) in
  let budgets := write_window_budgets (write_window_bytes t) (system_memory_limit_bytes (env_memory env)) round_trip
                   (Z.of_nat (length (plan_schema plan))) in
  let '(window_budget, physical, incompressible) := budgets in
  let stats := stats_new window_budget physical incompressible (plan_insert_rows plan) round_trip (scope_name scope) in
  let s := mkRun d stats (negb (is_key mode MODE_APPEND)) 0 0 [] in
  match plan_candidate plan with
  | Some candidate => finish_insert plan candidate scope s
  | None => finish_copy t budgets plan staged scope s
  end.

Definition no_stats : IngestStats := stats_new 0 0 0 0 0 "".

(** A part of the operation before its statistics exist. *)
Definition before_stats {A} (m : rx db A) : dx db A := λ d,
  let '(r, s) := m (mkRun d no_stats false 0 0 []) in (r, run_driver s).

(** [ingest] up to its scope. *)
Definition open_ingest (st : OptionedStatement) (prior_writes : bool) : dx db (IngestPlan * IngestScope * AtomicScope) :=
  bound ← pure_dx (ok_or (st_bound (os_core st)) (error "no Arrow data is bound" InvalidState));
  table ← pure_dx (ok_or (optional_string (os_options st) name_target_table)
                     (error "ingest target table is required" InvalidState));
  _ ← (if negb (is_key (ingest_mode_of st) MODE_APPEND) then invalidate_prepared_cache else mret tt);
  plan ← pure_dx (plan_ingest st bound table);
  _ ← on_session lock_connection;
  decided ← before_stats (decide_scope (os_tuning st) plan prior_writes);
  scope ← on_session (begin_atomic pid (str "ingest") (scope_caller decided) prior_writes (scope_temporary decided));
  _ ← (if scope_staged decided then invalidate_prepared_cache else mret tt);
  mret (plan, decided, scope).

(** [ingest]: the result, the JSON of the statistics (when the operation got as
    far as its scope), the copies that were made, and the driver. *)
Definition ingest (st : OptionedStatement) (prior_writes : bool)
    : Driver db → res Error (option Z) * option bytes * list Copy * Driver db := λ d,
  match open_ingest st prior_writes d with
  | (Err e, d) => (Err e, None, [], d)
  | (Panic, d) => (Panic, None, [], d)
  | (Ok (plan, decided, scope), d) =>
      let '(result, s) := run_ingest (os_tuning st) (os_round_trip st) plan (scope_staged decided) scope d in
      let d := if negb (is_key (target_mode (plan_target plan)) MODE_APPEND) && is_ok result
               then (invalidate_prepared_cache (run_driver s)).2 else run_driver s in
      (Some <$> result, Some (stats_json (run_stats s)), run_copies s, d)
  end.

(** [ingest] as a method: the bound stream is taken, the statistics are kept. *)
Definition statement_ingest (st : OptionedStatement) (prior_writes : bool) (d : Driver db)
    : res Error (option Z) * OptionedStatement * Driver db :=
  let '(result, stats, _, d) := ingest st prior_writes d in
  (result,
   mkOptioned (with_bound (os_core st) None) (os_tuning st) (os_options st) (os_bind_by_name st) (os_round_trip st) stats
     (os_read_stats st), d).
End ingest.
