(* ===== verification/IngestRunProofs.v ===== *)
(** Bulk ingestion, verified: routing loses no row, the loop over the windows
    ends, and a successful ingest has sent every row of the stream and reports
    their number. *)

From stdpp Require Import base list numbers strings gmap.
From S2P Require Import Prelude RustStd Types Calendar ArrowData Encode Codec Errors SqlScan Template PreparedCache Compression Ingest CompressionProofs IngestProofs SchedulerProofs StreamProofs Transactions Prepare ParameterBatch Statement ReadPath Options OptionsProofs Connection Append IngestMemory IngestRun.
Local Open Scope Z_scope.

(** ** Routing *)

Section routing.
Context `{ArrowStream, Chrono, Half, CursorDisplay, SqlFormat}.

Definition rendered (batch : RecordBatch) (row : nat) (text : bytes) : Prop :=
  ∃ parts, render_arguments batch row = Ok parts ∧ text = comma_list parts.

Lemma render_rows_all batch rows : ∀ bytes arguments out,
  render_rows batch bytes arguments rows = Ok out → out = [] ∨ ∃ more, out = arguments ++ more ∧ Forall2 (rendered batch) rows more.
Proof.
  induction rows as [|row rows IH]; intros bytes arguments out; cbn [render_rows].
  { intros [= <-]. right. exists []. by rewrite app_nil_r. }
  intros (parts & Hp & Hr)%bind_ok. apply bind_ok in Hr as (n & _ & Hr). destruct (_ <? n); [injection Hr as <-; by left|].
  apply IH in Hr as [->|(more & -> & Hm)]; [by left|]. right. exists (comma_list parts :: more).
  rewrite <- app_assoc. split; [done|]. constructor; [|done]. by exists parts.
Qed.

(** Routing a stream loses no row.  A stream that goes to COPY is the bound
    stream, what was read of it put back in its place; a stream that goes to a
    prepared INSERT is a single batch of the stream's schema, with at least one
    row and at most as many as configured, and for each of its rows, in order,
    there are the arguments rendered from it. *)
Lemma route_stream reader schema insert_rows rest candidate :
  route_ingest_reader reader schema insert_rows = Ok (rest, candidate) →
  match candidate with
  | None => rest = reader
  | Some c =>
      reader = [Ok (candidate_batch c)] ∧ rest = [] ∧ batch_schema (candidate_batch c) = schema ∧
      0 < Z.of_nat (batch_rows (candidate_batch c)) ≤ insert_rows ∧
      Forall2 (rendered (candidate_batch c)) (seq 0 (batch_rows (candidate_batch c))) (candidate_arguments c)
  end.
Proof.
  unfold route_ingest_reader. destruct (insert_rows =? 0); [by intros [= <- <-]|].
  destruct reader as [|first reader]; [by intros [= <- <-]|]. intros (b & -> & Hr)%bind_ok. apply bind_ok in Hr as (_ & _ & Hr).
  case_bool_decide as Hs; [|done]. cbn [negb] in Hr. apply bind_ok in Hr as ([second reader'] & Hsecond & Hr).
  assert (reader = option_list (Ok <$> second) ++ reader') as Hreader.
  { destruct reader as [|x reader]; [by injection Hsecond as <- <-|]. apply bind_ok in Hsecond as (b2 & -> & [= <- <-]). done. }
  apply bind_ok in Hr as (estimated & _ & Hr). apply bind_ok in Hr as (arguments & Ha & Hr).
  destruct arguments as [|text arguments]; injection Hr as <- <-; [by rewrite Hreader|].
  destruct (((0 <? _) && _ && _) && _) eqn:Hc; [|done].
  apply andb_true_iff in Hc as [Hc _]. apply andb_true_iff in Hc as [Hc Hn]. apply andb_true_iff in Hc as [Hpos Hle].
  apply negb_true_iff, bool_decide_eq_false in Hn. destruct second; [by destruct Hn|].
  apply bind_ok in Ha as ([] & _ & Ha). apply render_rows_all in Ha as [?|(more & Hm & Hf)]; [done|].
  cbn [app] in Hm. subst more. destruct reader' as [|x reader'].
  - cbn in Hreader. subst reader. cbn [candidate_batch candidate_arguments]. split_and!; [done..| | |done]; lia.
  - exfalso. destruct reader as [|y reader]; [done|]. apply bind_ok in Hsecond as (b2 & _ & [= ?]).
Qed.
End routing.

(** ** The conversation of a COPY *)

(** A way through the conversation on which every file asked for is given. *)
Inductive dialog_path {db} : CopyDialog db → list (bytes * list bytes) → res CursorError (option Z) → db → Prop :=
| path_end reply d : dialog_path (DialogEnd reply d) [] reply d
| path_file filename next chunks files reply d :
    dialog_path (next (Ok chunks)) files reply d → dialog_path (DialogFile filename next) ((filename, chunks) :: files) reply d.

(** However it goes on, it ends with an error. *)
Fixpoint fails {db} (dialog : CopyDialog db) : Prop :=
  match dialog with
  | DialogEnd reply _ => ∃ e, reply = Err e
  | DialogFile _ next => ∀ answer, fails (next answer)
  end.

(** It ends, and not with a result when a file could not be given. *)
Fixpoint well_behaved {db} (dialog : CopyDialog db) : Prop :=
  match dialog with
  | DialogEnd reply _ => reply ≠ Panic
  | DialogFile _ next => (∀ chunks, well_behaved (next (Ok chunks))) ∧ ∀ e, fails (next (Err e))
  end.

(** What the client library and the server promise about a COPY: an upload that
    fails makes it fail, and one that succeeds has read every file of its
    statement once. *)
Class CopyLaws (db : Type) `{!CopyServer db} : Prop := {
  copy_well_behaved d q : well_behaved (server_copy d q);
  copy_reads_files d target columns n wire files rows d' :
    dialog_path (server_copy d (copy_statement target columns n wire)) files (Ok rows) d' →
    files.*1 ≡ₚ column_file <$> seq 0 n;
}.

(** The files given, each for what the upload was then. *)
Inductive answered (request : bytes → Upload → res CursorError (list bytes) * Upload)
    : Upload → list (bytes * list bytes) → Upload → Prop :=
| answered_none u : answered request u [] u
| answered_file u u1 u' filename chunks files :
    request filename u = (Ok chunks, u1) → answered request u1 files u' → answered request u ((filename, chunks) :: files) u'.

Section dialogs.
Context {db : Type} (request : bytes → Upload → res CursorError (list bytes) * Upload) (before : db).

Lemma run_dialog_fails (dialog : CopyDialog db) : ∀ u files reply u' files' d',
  fails dialog → run_dialog request before dialog u files = (reply, u', files', d') → ∀ rows, reply ≠ Ok rows.
Proof.
  induction dialog as [reply0 d0|filename next IH]; intros u files reply u' files' d' Hf; cbn [run_dialog fails] in *.
  { destruct Hf as [e ->]. by intros [= <- _ _ _]. }
  destruct (request filename u) as [[chunks|e|] u1]; intros Hr.
  - by eapply IH; [apply Hf|exact Hr].
  - by eapply IH; [apply Hf|exact Hr].
  - by injection Hr as <- _ _ _.
Qed.

(** A COPY that succeeds has been given every file it asked for. *)
Lemma run_dialog_ok (dialog : CopyDialog db) : ∀ u files rows u' files' d',
  well_behaved dialog → run_dialog request before dialog u files = (Ok rows, u', files', d') →
  ∃ new, files' = files ++ new ∧ dialog_path dialog new (Ok rows) d' ∧ answered request u new u'.
Proof.
  induction dialog as [reply0 d0|filename next IH]; intros u files rows u' files' d' Hw; cbn [run_dialog well_behaved] in *.
  { intros [= -> <- <- <-]. exists []. rewrite app_nil_r. split_and!; [done|constructor..]. }
  destruct Hw as [Hw Hf]. destruct (request filename u) as [[chunks|e|] u1] eqn:Hreq; intros Hr; [| |done].
  - apply IH in Hr as (new & -> & Hp & Ha); [|apply Hw]. exists ((filename, chunks) :: new). rewrite <- app_assoc.
    split_and!; [done|by constructor|by econstructor].
  - by destruct (run_dialog_fails _ _ _ _ _ _ _ (Hf e) Hr rows).
Qed.

(** It panics only when a request does. *)
Lemma run_dialog_no_panic (P : Upload → Prop) (dialog : CopyDialog db) :
  (∀ filename u, P u → (request filename u).1 ≠ Panic ∧ P (request filename u).2) →
  ∀ u files, well_behaved dialog → P u → (run_dialog request before dialog u files).1.1.1 ≠ Panic.
Proof.
  intros Hreq. assert (∀ dialog u files, fails dialog → P u → (run_dialog request before dialog u files).1.1.1 ≠ Panic) as Hfails.
  { intros dlg. induction dlg as [reply0 d0|filename next IH]; intros u files Hf Hp; cbn [run_dialog fails] in *.
    { by destruct Hf as [e ->]. }
    destruct (Hreq filename u Hp) as [Hn Hp']. destruct (request filename u) as [[chunks|e|] u1]; cbn in *; [| |done];
      apply IH; try done; apply Hf. }
  induction dialog as [reply0 d0|filename next IH]; intros u files Hw Hp; cbn [run_dialog well_behaved] in *; [done|].
  destruct Hw as [Hw Hf]. destruct (Hreq filename u Hp) as [Hn Hp'].
  destruct (request filename u) as [[chunks|e|] u1]; cbn in *; [by apply IH|by apply Hfails|done].
Qed.
End dialogs.

(** ** The files of a window *)

Lemma upload_column_index_lt `{CharTables} filename n i : upload_column_index filename n = Ok i → (i < n)%nat.
Proof.
  unfold upload_column_index. destruct (_ ≫= parse_usize) as [z|] eqn:Hp; [|done]. destruct (Z.ltb_spec z (Z.of_nat n)); [|done].
  intros [= <-]. destruct (strip_prefix (str "c") filename) as [name|]; [|done]. apply parse_int_in_range in Hp.
  unfold unsigned_range in Hp. lia.
Qed.

Section uploads.
Context `{ArrowStream, Chrono, Half, Lz4, CursorDisplay, SqlFormat, CharTables, !Lz4Laws}.

Abbreviation request_for schema w :=
  (upload_request schema (compressed_arena w) (retained_batches w) (uses_wire_lz4 w)).

Lemma upload_retained_result schema batches i c u chunks u' :
  upload_retained schema batches i c u = (Ok chunks, u') →
  ∃ n, upload_retained_column schema batches i = Ok (chunks, n) ∧ is_Some (checked_add (column_bytes c) n) ∧
    checked_add (upload_window_bytes u) n = Some (upload_window_bytes u') ∧ upload_columns u' = upload_columns u.
Proof.
  unfold upload_retained. destruct (upload_encoder u); [|done..].
  destruct (upload_retained_column _ _ _) as [[more n]| |]; [|done..]. cbn.
  destruct (checked_add (column_bytes c) n) eqn:E1; [|done]. destruct (checked_add (upload_window_bytes u) n) eqn:E2; [|done].
  intros [= <- <-]. exists n. by rewrite E1, E2.
Qed.

(** A request for a column whose chunks are there gives what [upload_file] gives. *)
Lemma upload_request_file schema w u filename i chunks u' :
  upload_column_index filename (length schema) = Ok i → upload_columns u !! i = window_columns w !! i →
  request_for schema w filename u = (Ok chunks, u') →
  upload_file schema w (upload_window_bytes u) filename = Ok (chunks, upload_window_bytes u') ∧
  ∃ c, upload_columns u' = <[i := c]> (upload_columns u).
Proof.
  intros Hi Hc. unfold upload_request, upload_file. rewrite Hi. cbn [mbind res_bind]. rewrite Hc.
  destruct (window_columns w !! i) as [c|]; [|done]. cbn [or_panic mbind res_bind].
  destruct (upload_column _ _ c) as [pieces| |]; [|done..]. cbn [mbind res_bind].
  destruct (retained_batches w) as [|b bs]; [intros [= <- <-]; eauto|].
  destruct (upload_retained _ _ _ _ _) as [more u1] eqn:E. intros Hr. destruct more as [more| |]; [|done..].
  injection Hr as <- <-. apply upload_retained_result in E as (n & -> & [k E1] & E2 & E3). cbn [mbind res_bind].
  rewrite E1. cbn [ok_or mbind res_bind]. cbn in E2. rewrite E2. cbn [ok_or mbind res_bind]. split; [done|]. cbn in E3. eauto.
Qed.

(** Files asked for once each are those of the window. *)
Lemma answered_files schema w files : Z.of_nat (length schema) ≤ usize_max → ∀ u u',
  answered (request_for schema w) u files u' → NoDup files.*1 →
  (∀ name, name ∈ files.*1 → ∃ i, name = column_file i ∧ (i < length schema)%nat ∧ upload_columns u !! i = window_columns w !! i) →
  Forall (λ file, ∃ before after, upload_file schema w before file.1 = Ok (file.2, after)) files.
Proof.
  intros Hmax u u' Ha. induction Ha as [u|u u1 u' filename chunks files Hreq Ha IH]; intros Hnd Hall; [constructor|].
  cbn [fmap list_fmap fst] in Hnd. apply NoDup_cons in Hnd as [Hni Hnd].
  destruct (Hall filename) as (i & -> & Hi & Hc); [by left|].
  destruct (upload_request_file schema w u (column_file i) i chunks u1) as [Hf [c Hu]];
    [by apply upload_column_index_file|done..|]. constructor; [by eexists _, _|]. apply IH; [done|]. intros name Hn.
  destruct (Hall name) as (j & -> & Hj & Hcj); [by right|]. exists j. split_and!; [done..|]. rewrite Hu.
  rewrite list_lookup_insert_ne; [done|]. intros ->. done.
Qed.

(** What a request leaves of the columns. *)
Definition columns_left (w : EncodedIngestWindow) (u : Upload) : Prop :=
  ∀ i, upload_columns u !! i = window_columns w !! i ∨
       ∃ c, window_columns w !! i = Some c ∧ upload_columns u !! i = Some (without_chunks c).

Lemma columns_left_insert w u u' i c :
  columns_left w u → window_columns w !! i = Some c → upload_columns u' = <[i := without_chunks c]> (upload_columns u) →
  columns_left w u'.
Proof.
  intros Hl Hc Hu j. rewrite Hu. destruct (decide (i = j)) as [<-|Hne]; [|rewrite list_lookup_insert_ne by done; apply Hl].
  right. exists c. split; [done|]. apply list_lookup_insert_eq, lookup_lt_is_Some. destruct (Hl i) as [->|(? & _ & ->)]; eauto.
Qed.

Lemma without_chunks_twice c : without_chunks (without_chunks c) = without_chunks c.
Proof. done. Qed.

Lemma upload_retained_keeps schema batches i c u :
  (upload_retained schema batches i c u).1 ≠ Panic ∧ upload_columns (upload_retained schema batches i c u).2 = upload_columns u.
Proof. unfold upload_retained. repeat (case_match; simplify_eq/=); done. Qed.

Lemma upload_request_no_panic schema w rows filename u :
  window_holds schema w rows → Z.of_nat (length schema) ≤ usize_max → columns_left w u →
  (request_for schema w filename u).1 ≠ Panic ∧ columns_left w (request_for schema w filename u).2.
Proof.
  intros (enc & Hw & _) Hmax Hl. unfold upload_request.
  destruct (upload_column_index filename (length schema)) as [i|e|] eqn:Hi; [|done|].
  2: { unfold upload_column_index in Hi. repeat case_match; done. }
  pose proof (upload_column_index_lt _ _ _ Hi) as Hlt.
  destruct (wi_columns _ _ _ Hw i Hlt) as (field & c & Hf & Hc & Henc).
  assert (∃ c', upload_columns u !! i = Some c' ∧ without_chunks c' = without_chunks c ∧
    upload_column (uses_wire_lz4 w) (compressed_arena w) c' ≠ Panic) as (c' & -> & Hwc & Hnp).
  { destruct (Hl i) as [->|(c2 & Hc2 & ->)].
    - exists c. split_and!; [done..|]. pose proof (uses_wire_lz4_columns _ _ _ _ _ _ Hw Hf Hc Henc) as Hlz.
      destruct Henc as (Hp & _ & slices & pieces & Hh & _).
      destruct (upload_column_delivers (uses_wire_lz4 w) (compressed_arena w) c _ (wi_arena _ _ _ Hw) Hh Hp) as (chunks & -> & _); [|done].
      intros Hu. by apply Hlz.
    - rewrite Hc in Hc2. injection Hc2 as <-. by exists (without_chunks c). }
  set (u1 := mkUpload _ _ _ _ _).
  assert (columns_left w u1) as Hl1 by (eapply columns_left_insert; [exact Hl|exact Hc|by rewrite <- Hwc]).
  destruct (upload_column _ _ c') as [pieces|e|]; [|done..]. destruct (retained_batches w) as [|b bs]; [done|].
  destruct (upload_retained_keeps schema (b :: bs) i c' u1) as [Hn Hk].
  destruct (upload_retained _ _ _ _ _) as [more u2]. cbn [fst snd] in *. split; [by destruct more|].
  intros j. rewrite Hk. apply Hl1.
Qed.
End uploads.

(** ** The loop over the windows *)

Section ingest.
Context {db row : Type} `{!Server db, !Rows db row, !BoolCells row, !CopyServer db, MapiCodes, CursorDisplay, Unicode, SqlFormat, CharTables, Chrono}.
Context `{ArrowStream, Half, Lz4, OptionNames, ClientLimits, UploadLimits}.
Context `{!CopyLaws db, !Lz4Laws, !ArrowStreamLaws}.
Context (decode_error_text : DecodeError → bytes) (pid : Z) (env : IngestEnv).
Implicit Types s : Run db.

(** A COPY that has uploaded the rows [part]: its files, each once, are
    encodings of the columns. *)
Definition copy_delivers (copy : bool → bytes) (schema : list Field) (part : nat → list (option value)) (c : Copy) : Prop :=
  ∃ wire, copy_sql c = copy wire ∧ (copy_files c).*1 ≡ₚ column_file <$> seq 0 (length schema) ∧
    ∀ i field chunks, schema !! i = Some field → (column_file i, chunks) ∈ copy_files c →
      ∃ content, delivered wire chunks = Some content ∧ file_rows field content (part i).

Lemma encoder_result_no_panic retained u : encoder_result retained u ≠ Panic.
Proof. unfold encoder_result. by repeat case_match. Qed.

Lemma copy_window_ok target columns schema staged w part s r s' :
  window_holds schema w part → Z.of_nat (length schema) ≤ usize_max →
  copy_window (copy_statement target columns (length schema)) schema staged w s = (r, s') →
  r ≠ Panic ∧ ∀ n, r = Ok n →
    n = window_rows w ∧ ∃ c, run_copies s' = run_copies s ++ [c] ∧
      copy_delivers (copy_statement target columns (length schema)) schema part c.
Proof.
  intros Hw Hmax. unfold copy_window. unfold mbind, rx_bind, start_writes, execute_with_streaming_uploads.
  cbn [run_driver run_stats run_writes_started run_looks run_waits run_copies].
  set (query := copy_statement _ _ _ _). set (request := upload_request _ _ _ _). set (before := server _).
  pose proof (copy_well_behaved before query) as Hwb.
  pose proof (run_dialog_no_panic request before (columns_left w) (server_copy before query)
    (λ filename u, upload_request_no_panic schema w part filename u Hw Hmax) (upload_of w) [] Hwb) as Hnp.
  destruct (run_dialog request before _ _ []) as [[[reply u] files] d'] eqn:E. cbn [fst] in Hnp.
  destruct reply as [n|e|]; [| |by destruct Hnp; [left|]].
  2: { cbn [map_err]. unfold pure_rx, combine_error. pose proof (encoder_result_no_panic (retained_batches w) u).
       by destruct (encoder_result _ _); [intros [= <- <-]..|]. }
  cbn [map_err]. unfold pure_rx, combine_error. pose proof (encoder_result_no_panic (retained_batches w) u).
  destruct (encoder_result _ _) as [[]|e|]; [|by intros [= <- <-]|done].
  unfold on_stats. cbn [run_driver run_stats run_writes_started run_looks run_waits run_copies].
  destruct n as [n|]; cbn [ok_or]; [|by intros [= <- <-]].
  destruct (negb (signed_range 64 (window_rows w))); [by intros [= <- <-]|].
  destruct (Z.eqb_spec n (window_rows w)) as [Hn|]; cbn [negb]; [|by intros [= <- <-]].
  intros [= <- <-]. split; [done|]. intros n' [= <-]. split; [done|]. cbn [run_copies]. eexists. split; [done|].
  apply run_dialog_ok in E as (new & -> & Hpath & Hans); [|done]. exists (uses_wire_lz4 w). cbn [copy_sql copy_files app].
  pose proof (copy_reads_files _ _ _ _ _ _ _ _ Hpath) as Hperm. split_and!; [done..|].
  assert (Forall (λ file, ∃ before after, upload_file schema w before file.1 = Ok (file.2, after)) new) as Hall.
  { eapply answered_files; [exact Hmax|exact Hans| |].
    - rewrite Hperm. apply NoDup_fmap_2_strong; [|apply NoDup_seq]. intros i j Hi Hj Hij.
      apply elem_of_seq in Hi. apply elem_of_seq in Hj.
      pose proof (upload_column_index_file i (length schema) ltac:(lia) Hmax) as Ei.
      pose proof (upload_column_index_file j (length schema) ltac:(lia) Hmax) as Ej. congruence.
    - intros name Hname. rewrite Hperm in Hname. apply list_elem_of_fmap in Hname as (i & -> & Hi). apply elem_of_seq in Hi.
      exists i. split_and!; [done|lia|done]. }
  intros i field chunks Hf Hin. eapply Forall_forall in Hall as (wb & wa & Hu); [|exact Hin]. cbn [fst snd] in Hu.
  pose proof (upload_file_rows schema w part wb i field Hw Hf Hmax) as Hrows. by rewrite Hu in Hrows.
Qed.

(** Looking at the clock changes nothing else. *)
Lemma at_deadline_keeps {A} (f : option Z → Z → res Error A) deadline s r s' :
  at_deadline env f deadline s = (r, s') →
  (∃ now, r = f deadline now) ∧ run_copies s' = run_copies s ∧ run_driver s' = run_driver s ∧
  run_stats s' = run_stats s ∧ run_writes_started s' = run_writes_started s.
Proof.
  unfold at_deadline, mbind, rx_bind, look, pure_rx. destruct deadline; intros [= <- <-]; split_and!; eauto.
Qed.

Lemma remaining_no_panic deadline now : remaining_ingest_timeout deadline now ≠ Panic.
Proof. unfold remaining_ingest_timeout. by repeat case_match. Qed.

Lemma ingest_timeouts_no_panic t deadline now : ingest_timeouts t deadline now ≠ Panic.
Proof.
  unfold ingest_timeouts. pose proof (remaining_no_panic deadline now). destruct (remaining_ingest_timeout _ _) as [[]| |]; done.
Qed.

(** A window that arrives is the scheduler's next. *)
Lemma wait_window_next deadline p s r s' :
  prefetch_receiver p = true → prefetch_finished p = false → sched_ok (prefetch_scheduler p) → budget_ok (prefetch_scheduler p) →
  wait_window env deadline p s = (r, s') →
  run_copies s' = run_copies s ∧
  match r with
  | Ok (Ok (Some w), p') => next_window (prefetch_scheduler p) = Ok (Some w, prefetch_scheduler p') ∧ prefetch_receiver p' = true ∧ prefetch_finished p' = false
  | Ok (Ok None, p') => next_window (prefetch_scheduler p) = Ok (None, prefetch_scheduler p') ∧ prefetch_receiver p' = true
  | Ok (Err _, _) | Err _ => True
  | _ => False
  end.
Proof.
  intros Hr Hf Hs Hb. unfold wait_window, mbind, rx_bind. destruct (at_deadline env _ deadline s) as [t s1] eqn:E.
  apply at_deadline_keeps in E as ([now ->] & Hc & _). pose proof (remaining_no_panic deadline now) as Hnp.
  destruct (remaining_ingest_timeout deadline now) as [timeout|e|]; [|by intros [= <- <-]|done].
  unfold receive_window, prefetch_next_window. rewrite Hr, Hf. cbn [negb]. intros [= <- <-]. split; [done|].
  destruct (_ && _); [done|]. destruct (next_window_ok _ Hs Hb) as [Hn _].
  by destruct (next_window (prefetch_scheduler p)) as [[[w|] sch]| |].
Qed.

(** Whatever becomes of a window, it is one COPY. *)
Lemma copy_window_once copy schema staged w s r s' :
  copy_window copy schema staged w s = (r, s') → length (run_copies s') = S (length (run_copies s)).
Proof.
  unfold copy_window, start_writes, execute_with_streaming_uploads. unfold mbind, rx_bind. cbn [run_driver run_copies].
  destruct (run_dialog _ _ _ _ _) as [[[reply u] files] d]. unfold on_stats, pure_rx, mret, rx_ret.
  destruct reply; repeat case_match; intros; simplify_eq/=; rewrite length_app; cbn; lia.
Qed.

(** The loop ends without a panic, with no more copies than there are rows; when
    it succeeds, the copies have delivered the stream. *)
Definition stream_copied (copy : bool → bytes) (schema : list Field) (sch : IngestWindowScheduler) (rows total : Z)
    (before after : list Copy) : Prop :=
  total = rows + Z.of_nat (count_rows (upcoming sch)) ∧ (∀ e, Err e ∉ reader sch) ∧
  ∃ parts copies, after = before ++ copies ∧ Forall2 (copy_delivers copy schema) parts copies ∧
    ∀ i, (i < length schema)%nat → concat ((λ part, part i) <$> parts) = batches_rows i (upcoming sch).

Local Ltac loop_ends := intros [= <- <-]; eexists _, _; split_and!; [done|done|lia|done].

Lemma copy_windows_ok target columns schema staged t deadline fuel :
  Z.of_nat (length schema) ≤ usize_max →
  let copy := copy_statement target columns (length schema) in
  ∀ rows p s r s', prefetch_receiver p = true → prefetch_finished p = false → sched_ok (prefetch_scheduler p) →
  budget_ok (prefetch_scheduler p) → scheduler_schema (prefetch_scheduler p) = schema →
  (count_rows (upcoming (prefetch_scheduler p)) < fuel)%nat →
  copy_windows env fuel copy schema staged t deadline rows p s = (r, s') →
  ∃ result p', r = Ok (result, p') ∧ result ≠ Panic ∧
    (length (run_copies s') ≤ length (run_copies s) + count_rows (upcoming (prefetch_scheduler p)))%nat ∧
    ∀ total, result = Ok total →
      stream_copied copy schema (prefetch_scheduler p) rows total (run_copies s) (run_copies s').
Proof.
  intros Hmax copy. induction fuel as [|fuel IH]; intros rows p s r s' Hr Hf Hs Hb Hsch Hfuel; [lia|]. cbn [copy_windows].
  unfold mbind at 1, rx_bind at 1, try_rx at 1. destruct (wait_window env deadline p s) as [waited s1] eqn:Ew.
  apply wait_window_next in Ew as [Hc1 Hw]; [|done..]. pose proof (f_equal length Hc1) as Hl1. destruct waited as [[[[w|]|e|] p1]|e|]; [| | |done| |done].
  - destruct Hw as (Hnext & Hr1 & Hf1). destruct (next_window_ok _ Hs Hb) as [_ Hk]. destruct (Hk _ Hnext) as [Hs1 Hok].
    cbn [fst snd] in *. destruct Hok as (bs & Hm & Hh & Hpos & Hwr & _). rewrite Hsch in Hh.
    pose proof (mv_config _ _ _ Hm) as Hcfg. pose proof (mv_count _ _ _ Hm) as Hcount.
    unfold mbind at 1, rx_bind at 1, try_rx at 1. unfold mbind at 1, rx_bind at 1.
    destruct (at_deadline env (ingest_timeouts t) deadline s1) as [rt s2] eqn:Et.
    apply at_deadline_keeps in Et as ([now ->] & Hc2 & _). pose proof (f_equal length Hc2) as Hl2. pose proof (ingest_timeouts_no_panic t deadline now) as Hnp.
    destruct (ingest_timeouts t deadline now) as [x|e|]; [|by loop_ends|done].
    destruct (copy_window copy schema staged w s2) as [rc s3] eqn:Ec.
    pose proof (copy_window_once _ _ _ _ _ _ _ Ec) as Hl3.
    apply (copy_window_ok target columns schema staged w (λ i, batches_rows i bs)) in Ec as [Hnpc Hok]; [|done..].
    destruct rc as [n|e|]; [|by loop_ends|done]. destruct (Hok n eq_refl) as (-> & c & Hc3 & Hd).
    unfold i64_checked_add. destruct (signed_range 64 (rows + window_rows w)); [|by loop_ends].
    intros Hloop. apply IH in Hloop; [|done|done|done|by eapply budget_ok_config|by destruct Hcfg as [-> _]|lia].
    destruct Hloop as (result & p' & -> & Hn & Hlen & Htot). exists result, p'. split_and!; [done..|lia|]. intros total Ht.
    destruct (Htot total Ht) as (-> & He & parts & copies & Hcp & Hall & Hrows). split; [lia|].
    split; [intros e Hin; by apply (He e), (mv_errors _ _ _ Hm)|]. exists ((λ i, batches_rows i bs) :: parts), (c :: copies).
    split_and!.
    + rewrite Hcp, Hc3, Hc2, Hc1. by rewrite <- app_assoc.
    + by constructor.
    + intros i Hi. rewrite fmap_cons. cbn [concat]. rewrite Hrows by done. rewrite (mv_rows _ _ _ Hm); [done|by rewrite Hsch].
  - destruct Hw as [Hnext Hr1]. destruct (next_window_ok _ Hs Hb) as [_ Hk]. destruct (Hk _ Hnext) as [_ [Hd Hm]].
    cbn [fst snd] in *. intros [= <- <-]. eexists _, _. split_and!; [done..|lia|]. intros total [= <-].
    pose proof (mv_count _ _ _ Hm) as Hcount. destruct Hd as [Hq Hrd].
    split; [unfold upcoming in Hcount; rewrite Hq, Hrd in Hcount; cbn in Hcount; unfold upcoming; lia|].
    split; [intros e; by eapply drained_errors|]. exists [], []. rewrite app_nil_r. split_and!; [done|constructor|].
    intros i Hi. rewrite (mv_rows _ _ _ Hm) by (by rewrite Hsch). rewrite drained_rows; done.
  - by loop_ends.
  - by loop_ends.
Qed.

(** ** The copy path *)

Lemma on_server_keeps {A} (m : tx db A) s r s' :
  on_server m s = (r, s') →
  run_copies s' = run_copies s ∧ run_stats s' = run_stats s ∧ run_writes_started s' = run_writes_started s ∧
  m (session (run_driver s)) = (r, session (run_driver s')).
Proof.
  unfold on_server, on_run, on_session. destruct (m (session (run_driver s))) as [x y]. by intros [= <- <-].
Qed.

Lemma create_stage_copies plan staged destination s r s' :
  create_stage pid plan staged destination s = (r, s') → run_copies s' = run_copies s.
Proof.
  unfold create_stage. destruct staged; [|by intros [= <- <-]]. unfold mbind, rx_bind, pure_rx.
  destruct (ok_or _ _); [|by intros [= <- <-]..]. destruct (on_server _ s) as [r1 s1] eqn:E1.
  apply on_server_keeps in E1 as [E1 _]. destruct r1 as [stage| |]; [|intros [= <- <-]; congruence..]. unfold start_writes.
  destruct (on_server _ (mkRun _ _ _ _ _ _)) as [r2 s2] eqn:E2. apply on_server_keeps in E2 as [E2 _]. cbn in E2.
  destruct r2 as [x| |]; intros [= <- <-]; cbn; congruence.
Qed.

Lemma move_staged_rows t deadline stage rows s n s' :
  move_staged env t deadline stage rows s = (Ok n, s') → n = rows ∧ run_copies s' = run_copies s.
Proof.
  unfold move_staged. destruct stage as [stage|]; [|by intros [= <- <-]]. unfold mbind at 1, rx_bind at 1.
  destruct (at_deadline env _ deadline s) as [rt s1] eqn:Et. apply at_deadline_keeps in Et as (_ & Hc & _).
  destruct rt as [x| |]; [|done..]. unfold mbind at 1, rx_bind at 1. destruct (on_server _ s1) as [[[reply more]|e|] s2] eqn:E; [|done..].
  apply on_server_keeps in E as [E _]. unfold mbind, rx_bind, on_stats, pure_rx. destruct (ok_or _ _) as [m| |]; [|done..].
  destruct (Z.eqb_spec m rows); [|done]. intros [= <- <-]. cbn. split; congruence.
Qed.

Lemma drop_stage_rows t deadline stage rows s n s' :
  drop_stage env t deadline stage rows s = (Ok n, s') → n = rows ∧ run_copies s' = run_copies s.
Proof.
  unfold drop_stage. destruct stage as [stage|]; [|by intros [= <- <-]]. unfold mbind at 1, rx_bind at 1.
  destruct (at_deadline env _ deadline s) as [rt s1] eqn:Et. apply at_deadline_keeps in Et as (_ & Hc & _).
  destruct rt as [x| |]; [|done..]. unfold mbind, rx_bind. destruct (on_server _ s1) as [[dropped|e|] s2] eqn:E; [|done..].
  apply on_server_keeps in E as [E _]. unfold pure_rx. destruct (done_of dropped) as [[]|e|]; [|done..]. cbn.
  intros [= <- <-]. split; congruence.
Qed.

Lemma upcoming_new r schema budget physical incompressible configured wire :
  upcoming (scheduler_new r schema budget physical incompressible configured wire) = ok_batches r.
Proof. done. Qed.

(** The prefetch as it is started. *)
Lemma prefetch_started r schema budget physical incompressible configured wire p :
  start_ingest_window_prefetch env r schema budget physical incompressible configured wire = Ok p →
  p = mkPrefetch (scheduler_new r schema budget physical incompressible configured wire) true false.
Proof.
  unfold start_ingest_window_prefetch. intros (x & _ & Hp)%bind_ok. destruct (env_spawn_error env); [done|]. by injection Hp as <-.
Qed.

(** A copy path that succeeds. *)
Lemma copy_stream_ok t budgets plan staged s n s' :
  let '(budget, physical, incompressible) := budgets in
  let sch := scheduler_new (plan_reader plan) (plan_schema plan) budget physical incompressible (write_batch_rows t) (Options.wire_compression t) in
  reader_ok (plan_reader plan) → budget_ok sch → Z.of_nat (length (plan_schema plan)) ≤ usize_max →
  copy_stream (row := row) pid env t budgets plan staged s = (Ok n, s') →
  ∃ target columns, stream_copied (copy_statement target columns (length (plan_schema plan))) (plan_schema plan) sch 0 n
    (run_copies s) (run_copies s').
Proof.
  destruct budgets as [[budget physical] incompressible]. intros sch Hr Hb Hmax. unfold copy_stream.
  unfold mbind at 1, rx_bind at 1. destruct (on_server _ s) as [[destination|e|] s1] eqn:E1; [|done..].
  apply on_server_keeps in E1 as [E1 _].
  unfold mbind at 1, rx_bind at 1. destruct (create_stage _ _ _ _ s1) as [[stage|e|] s2] eqn:E2; [|done..].
  apply create_stage_copies in E2. unfold mbind at 1, rx_bind at 1, pure_rx at 1.
  destruct (copy_columns_text stage destination) as [columns|e|]; [|done..].
  unfold mbind at 1, rx_bind at 1, pure_rx at 1. destruct (start_ingest_window_prefetch _ _ _ _ _ _ _ _) as [p|e|] eqn:Ep; [|done..].
  apply prefetch_started in Ep as ->. fold sch.
  unfold mbind at 1, rx_bind at 1. destruct (operation_deadline env (timeouts t) s2) as [rd s3] eqn:Ed.
  assert (run_copies s3 = run_copies s2 ∧ is_ok rd = true) as [E3 Hrd].
  { unfold operation_deadline, mbind, rx_bind, look in Ed. destruct (operation_timeout (timeouts t)); by injection Ed as <- <-. }
  destruct rd as [deadline| |]; [|done..]. unfold mbind at 1, rx_bind at 1.
  destruct (copy_windows _ _ _ _ _ _ _ _ _ s3) as [rc s4] eqn:Ec.
  apply copy_windows_ok in Ec as (result & p' & -> & Hnp & _ & Hok); [|first [done|by apply scheduler_new_ok|idtac]..].
  2: { cbn [prefetch_scheduler]. rewrite rows_left_upcoming. lia. }
  cbn [prefetch_scheduler] in Hok. unfold mbind at 1, rx_bind at 1, on_stats at 1. unfold mbind at 1, rx_bind at 1, pure_rx at 1.
  destruct result as [rows|e|]; [|done..]. specialize (Hok rows eq_refl).
  unfold mbind at 1, rx_bind at 1. destruct (move_staged _ _ _ _ _ _) as [[rows'|e|] s5] eqn:E5; [|done..].
  apply move_staged_rows in E5 as [-> E5]. intros E6. apply drop_stage_rows in E6 as [-> E6]. cbn [run_copies] in E5.
  eexists _, columns. rewrite E6, E5. rewrite <- E1, <- E2, <- E3. exact Hok.
Qed.

(** ** The scope *)

Lemma tx_bind_inv {A B} (m : tx db A) (f : A → tx db B) (s s' : Session db) b :
  (m ≫= f) s = (Ok b, s') → ∃ a (s1 : Session db), m s = (Ok a, s1) ∧ f a s1 = (Ok b, s').
Proof. unfold mbind, tx_bind. destruct (m s) as [[a|e|] s1]; [eauto|done..]. Qed.

Lemma combine_atomic_ok {A} (r : res Error A) secondary context v : combine_atomic_error r secondary context = Ok v → r = Ok v.
Proof. unfold combine_atomic_error. by repeat case_match. Qed.

Lemma finish_atomic_value {A} scope (operation : res Error A) (s s' : Session db) v :
  finish_atomic scope operation s = (Ok v, s') → operation = Ok v.
Proof.
  unfold finish_atomic. intros (r1 & s1 & E1 & (r2 & s2 & E2 & (r3 & s3 & E3 & [= -> _])%tx_bind_inv)%tx_bind_inv)%tx_bind_inv.
  assert (r2 = Ok v) as ->.
  { destruct scope; unfold mret, tx_ret in E3; [|congruence..]. apply tx_bind_inv in E3 as (x & s4 & _ & [= E3 _]).
    by apply combine_atomic_ok in E3. }
  assert (r1 = Ok v) as ->.
  { destruct r1 as [x|e|]; unfold mret, tx_ret in E2; [congruence|..];
      apply tx_bind_inv in E2 as (x & s4 & _ & [= E2 _]); by apply combine_atomic_ok in E2. }
  unfold mret, tx_ret in E1. destruct operation as [x|e|]; [|congruence..]. apply tx_bind_inv in E1 as (y & s4 & _ & [= E1 _]).
  destruct y; cbn in E1; congruence.
Qed.

(** Every text that was sent stays in the log. *)
Lemma finish_atomic_sent {A} scope (operation : res Error A) (s s' : Session db) r :
  finish_atomic scope operation s = (r, s') → ∃ more, sent s' = sent s ++ more.
Proof.
  unfold finish_atomic, finalize_scope, recover_scope, mbind, tx_bind, mret, tx_ret, lift, execute_raw, set_autocommit_raw.
  destruct operation as [x|e|], scope as [| |name retain]; repeat (case_match; simplify_eq/=); intros; simplify_eq/=;
    rewrite <- ?app_assoc; eauto using app_nil_r.
Qed.

(** ** The insert path *)

(** The script that executes the prepared INSERT once for every row. *)
Definition insert_script (id : Z) (arguments : list bytes) : bytes :=
  batch_script ((λ text, mkBoundQuery (str "EXECUTE " ++ fmt_int id ++ str "(" ++ text ++ str ")") None None) <$> arguments).

Lemma on_run_copies {A} (m : dx db A) s r s' : on_run m s = (r, s') → run_copies s' = run_copies s.
Proof. unfold on_run. destruct (m (run_driver s)). by intros [= <- <-]. Qed.

Lemma rx_bind_inv {A B} (m : rx db A) (f : A → rx db B) s s' b :
  (m ≫= f) s = (Ok b, s') → ∃ a s1, m s = (Ok a, s1) ∧ f a s1 = (Ok b, s').
Proof. unfold mbind, rx_bind. destruct (m s) as [[a|e|] s1]; [eauto|done..]. Qed.

Lemma prepare_insert_copies target names s r s' :
  prepare_insert (row := row) decode_error_text pid target names s = (Ok r, s') → run_copies s' = run_copies s.
Proof.
  unfold prepare_insert. intros (query & s1 & [= _ <-] & (prepared & s2 & E & Hr)%rx_bind_inv)%rx_bind_inv.
  unfold try_rx in E. destruct (on_run _ s) as [r0 s3] eqn:E0. apply on_run_copies in E0.
  destruct r0; simplify_eq; unfold mret, rx_ret, pure_rx in Hr; by simplify_eq.
Qed.

Lemma insert_entry_copies plan s r s' :
  insert_entry (row := row) decode_error_text pid plan s = (Ok r, s') → run_copies s' = run_copies s.
Proof.
  unfold insert_entry. intros ([prepared e] & s1 & E1%prepare_insert_copies & Hr)%rx_bind_inv.
  apply rx_bind_inv in Hr as (final & s2 & Hf & Hlast). injection Hlast as _ <-. rewrite <- E1.
  destruct prepared as [entry|]; [by injection Hf as _ <-|]. destruct (may_append _); [|by injection Hf as _ <-].
  apply rx_bind_inv in Hf as (aligned & s3 & E3%on_server_keeps & Hf). destruct E3 as [E3 _]. rewrite <- E3.
  case_bool_decide; [by injection Hf as _ <-|]. apply rx_bind_inv in Hf as (again & s4 & E4%prepare_insert_copies & [= _ <-]). done.
Qed.

Lemma execute_update_batch_sent queries count (s s' : Session db) r :
  execute_update_batch queries count s = (r, s') → sent s' = sent s ++ [batch_script queries].
Proof.
  unfold execute_update_batch, mbind at 1, tx_bind at 1, attempt, execute, mbind at 1, tx_bind at 1, execute_raw, lift.
  destruct (server_execute (server s) (batch_script queries)) as [r0 d]. unfold mbind, tx_bind.
  destruct (map_err map_cursor_error r0) as [x|e|]; cbn [fst snd].
  all: repeat case_match; intros; simplify_eq/=; done.
Qed.

Lemma insert_candidate_rows_ok plan candidate s n s' :
  insert_candidate_rows (row := row) decode_error_text pid plan candidate s = (Ok n, s') →
  n = Z.of_nat (batch_rows (candidate_batch candidate)) ∧ run_copies s' = run_copies s ∧
  ∃ id before, sent (session (run_driver s')) = before ++ [insert_script id (candidate_arguments candidate)].
Proof.
  unfold insert_candidate_rows. intros (x1 & s1 & E1%on_server_keeps & Hr)%rx_bind_inv. destruct E1 as [E1 _].
  apply rx_bind_inv in Hr as ([entry hit] & s2 & E2%insert_entry_copies & Hr).
  apply rx_bind_inv in Hr as ([] & s3 & E3 & Hr). assert (run_copies s3 = run_copies s2) as E3c.
  { unfold pure_rx, mret, rx_ret in E3. destruct (may_append _); by simplify_eq. }
  unfold on_stats in Hr. unfold mbind at 1, rx_bind at 1, start_writes in Hr. unfold mbind at 1, rx_bind at 1 in Hr.
  apply rx_bind_inv in Hr as (count & s4 & E4 & Hr). apply on_server_keeps in E4 as (E4 & _ & _ & Hb). cbn in E4.
  apply execute_update_batch_sent in Hb.
  destruct (has_count count); [|done]. cbn [negb] in Hr. destruct (negb (signed_range 64 _)); [done|].
  destruct (Z.eqb_spec (row_total count) (Z.of_nat (batch_rows (candidate_batch candidate)))); [|done]. injection Hr as <- <-.
  split_and!; [done|congruence|]. exists (entry_id entry). eexists. exact Hb.
Qed.

(** ** The whole *)

Lemma system_memory_nonneg m n : system_memory_limit_bytes m = Some n → 0 ≤ n.
Proof.
  assert (∀ k, cgroup_memory_limit_bytes m = Some k → 0 ≤ k) as Hc.
  { unfold cgroup_memory_limit_bytes. intros k ([i x] & Hf & ->)%fmap_Some. apply list_find_Some in Hf as (_ & Hx & _). cbn in *. lia. }
  assert (∀ k, total_system_memory_bytes m = Some k → 0 ≤ k) as Ht.
  { unfold total_system_memory_bytes, checked_mul. intros k. destruct (Z.leb_spec (physical_pages m) 0); [done|].
    destruct (Z.leb_spec (page_size m) 0); [done|]. cbn. destruct (_ <=? _); [|done]. intros [= <-]. nia. }
  unfold system_memory_limit_bytes. destruct (cgroup_memory_limit_bytes m) as [a|]; [specialize (Hc a eq_refl)|];
    destruct (total_system_memory_bytes m) as [b|]; try specialize (Ht b eq_refl); intros [= <-]; lia.
Qed.

(** What has reached the server when an ingest of the stream succeeds: the
    windows of one COPY after the other, or the rows of the only batch. *)
Definition delivered_by (schema : list Field) (items : list (res Error RecordBatch)) (copies : list Copy) (texts : list bytes)
    : Prop :=
  (∃ target columns parts, Forall2 (copy_delivers (copy_statement target columns (length schema)) schema) parts copies ∧
     ∀ i, (i < length schema)%nat → concat ((λ part, part i) <$> parts) = batches_rows i (ok_batches items)) ∨
  (∃ batch arguments id, items = [Ok batch] ∧ Forall2 (rendered batch) (seq 0 (batch_rows batch)) arguments ∧
     insert_script id arguments ∈ texts).

Lemma run_ingest_ok t rtt plan staged scope d n s' items :
  tuning_ok t → Z.of_nat (length (plan_schema plan)) ≤ usize_max → reader_ok items →
  match plan_candidate plan with
  | None => plan_reader plan = items
  | Some c => items = [Ok (candidate_batch c)] ∧
      Forall2 (rendered (candidate_batch c)) (seq 0 (batch_rows (candidate_batch c))) (candidate_arguments c)
  end →
  run_ingest (row := row) decode_error_text pid env t rtt plan staged scope d = (Ok n, s') →
  n = Z.of_nat (count_rows (ok_batches items)) ∧ (∀ e, Err e ∉ items) ∧
  delivered_by (plan_schema plan) items (run_copies s') (sent (session (run_driver s'))).
Proof.
  intros Ht Hmax Hr Hplan. unfold run_ingest.
  pose proof (tuned_budget_ok t (system_memory_limit_bytes (env_memory env)) rtt (Z.of_nat (length (plan_schema plan)))
    (plan_reader plan) (plan_schema plan) (Options.wire_compression t) Ht (λ n, system_memory_nonneg (env_memory env) n)) as Hb.
  destruct (write_window_budgets _ _ _ _) as [[budget physical] incompressible]. set (s := mkRun d _ _ _ _ _).
  destruct (plan_candidate plan) as [candidate|].
  - destruct Hplan as [-> Hargs]. unfold finish_insert.
    intros (inserted & s1 & E1 & Hf)%rx_bind_inv. unfold get_run in Hf. unfold mbind at 1, rx_bind at 1 in Hf.
    apply rx_bind_inv in Hf as ([] & s2 & E2 & Hf). apply rx_bind_inv in Hf as (result & s3 & E3 & Hf).
    unfold mbind, rx_bind, on_stats, pure_rx in Hf. injection Hf as -> <-. cbn [run_copies run_driver].
    unfold try_rx in E3. destruct (on_server _ s2) as [r3 s4] eqn:E4. assert (r3 = Ok n ∧ s4 = s3) as [-> ->] by (destruct r3; by simplify_eq).
    apply on_server_keeps in E4 as (E4c & _ & _ & E4). pose proof (finish_atomic_sent _ _ _ _ _ E4) as [more Hsent].
    apply finish_atomic_value in E4 as ->. cbn in E2. injection E2 as <-.
    unfold try_rx in E1. destruct (insert_candidate_rows _ _ plan candidate s) as [r1 s5] eqn:E5.
    assert (r1 = Ok n ∧ s5 = s1) as [-> ->] by (destruct r1; by simplify_eq).
    apply insert_candidate_rows_ok in E5 as (-> & E5c & id & pre & Hpre). split_and!.
    + cbn. lia.
    + intros e He. by apply list_elem_of_singleton in He.
    + right. eexists _, _, id. split_and!; [done..|]. rewrite Hsent, Hpre. apply elem_of_app. left. apply elem_of_app. right. by left.
  - subst items. unfold finish_copy. intros (copied & s1 & E1 & Hf)%rx_bind_inv. unfold get_run in Hf. unfold mbind at 1, rx_bind at 1 in Hf.
    apply rx_bind_inv in Hf as (result & s2 & E2 & Hf). apply rx_bind_inv in Hf as ([] & s3 & E3 & Hf). injection Hf as -> <-.
    unfold try_rx in E2. destruct (on_server _ s1) as [r2 s4] eqn:E4. assert (r2 = Ok n ∧ s4 = s2) as [-> ->] by (destruct r2; by simplify_eq).
    apply on_server_keeps in E4 as (E4c & _ & _ & E4). apply finish_atomic_value in E4 as ->. cbn in E3. injection E3 as <-.
    unfold try_rx in E1. destruct (copy_stream _ _ _ _ _ _ s) as [r1 s5] eqn:E5.
    assert (r1 = Ok n ∧ s5 = s1) as [-> ->] by (destruct r1; by simplify_eq).
    destruct (copy_stream_ok t (budget, physical, incompressible) plan staged s n s1 Hr Hb Hmax E5) as (target & columns & Hs).
    destruct Hs as (-> & He & parts & copies & Hcp & Hall & Hrows). split_and!; [done|done|]. left. exists target, columns, parts.
    rewrite E4c, Hcp. by split.
Qed.

Lemma dx_bind_inv {A B} (m : dx db A) (f : A → dx db B) (s s' : Driver db) b :
  (m ≫= f) s = (Ok b, s') → ∃ a (s1 : Driver db), m s = (Ok a, s1) ∧ f a s1 = (Ok b, s').
Proof. unfold mbind, dx_bind. destruct (m s) as [[a|e|] s1]; [eauto|done..]. Qed.

(** The plan of an ingest that has begun. *)
Lemma open_ingest_plan st prior (d d' : Driver db) plan decided scope :
  open_ingest pid st prior d = (Ok (plan, decided, scope), d') →
  ∃ bound table, st_bound (os_core st) = Some bound ∧ optional_string (os_options st) name_target_table = Some table ∧
    plan_ingest st bound table = Ok plan.
Proof.
  unfold open_ingest. intros (bound & d1 & [= Hb <-] & Hr)%dx_bind_inv. apply dx_bind_inv in Hr as (table & d2 & [= Ht <-] & Hr).
  apply dx_bind_inv in Hr as ([] & d3 & _ & Hr). apply dx_bind_inv in Hr as (p & d4 & [= Hp <-] & Hr).
  apply dx_bind_inv in Hr as ([] & d5 & _ & Hr). apply dx_bind_inv in Hr as (dec & d6 & _ & Hr).
  apply dx_bind_inv in Hr as (sc & d7 & _ & Hr). apply dx_bind_inv in Hr as ([] & d8 & _ & [= <- <- <- <-]).
  exists bound, table. destruct (st_bound (os_core st)); [|done]. destruct (optional_string _ _); [|done]. by simplify_eq/=.
Qed.

(** What a plan has of its statement and its stream. *)
Lemma plan_ingest_stream st bound table plan :
  plan_ingest st bound table = Ok plan →
  plan_schema plan = bound_schema bound ∧ target_mode (plan_target plan) = ingest_mode_of st ∧
  match plan_candidate plan with
  | None => plan_reader plan = bound_items bound
  | Some c => bound_items bound = [Ok (candidate_batch c)] ∧
      Forall2 (rendered (candidate_batch c)) (seq 0 (batch_rows (candidate_batch c))) (candidate_arguments c)
  end.
Proof.
  unfold plan_ingest. intros (temporary & _ & Hplan)%bind_ok. case_bool_decide; [done|].
  destruct (temporary && _); [done|]. apply bind_ok in Hplan as (target & _ & Hplan). apply bind_ok in Hplan as (otarget & _ & Hplan).
  case_bool_decide; [done|]. apply bind_ok in Hplan as (x & _ & Hplan). apply bind_ok in Hplan as (cols & _ & Hplan).
  apply bind_ok in Hplan as ([reader candidate] & Hroute & [= <-]). pose proof (route_stream _ _ _ _ _ Hroute) as Hkeep.
  split_and!; [done..|]. cbn [plan_candidate plan_reader]. destruct candidate; [|done]. by destruct Hkeep as (? & _ & _ & _ & ?).
Qed.

(** C4. The copy loop of a bulk ingest ends.  For every stream of well-formed
    batches and errors, every server that keeps the promises of a COPY (it may
    refuse it at any time, ask for the files in any order and report any number
    of rows), every clock and every operation timeout, the loop over the windows
    returns a count of rows or an error, never panics, and has sent at most one
    COPY per row of the stream. *)
Theorem copy_loop_ends t rtt reader schema target columns staged deadline p (s : Run db) :
  tuning_ok t → reader_ok reader → Z.of_nat (length schema) ≤ usize_max →
  (let '(budget, physical, incompressible) :=
     write_window_budgets (write_window_bytes t) (system_memory_limit_bytes (env_memory env)) rtt (Z.of_nat (length schema)) in
   start_ingest_window_prefetch env reader schema budget physical incompressible (write_batch_rows t)
     (Options.wire_compression t) = Ok p) →
  let copy := copy_statement target columns (length schema) in
  ∃ result p' s',
    copy_windows env (S (rows_left (prefetch_scheduler p))) copy schema staged (timeouts t) deadline 0 p s = (Ok (result, p'), s') ∧
    result ≠ Panic ∧ (length (run_copies s') ≤ length (run_copies s) + count_rows (ok_batches reader))%nat.
Proof.
  intros Ht Hr Hmax Hp copy.
  pose proof (tuned_budget_ok t (system_memory_limit_bytes (env_memory env)) rtt (Z.of_nat (length schema))
    reader schema (Options.wire_compression t) Ht (λ n, system_memory_nonneg (env_memory env) n)) as Hb.
  destruct (write_window_budgets _ _ _ _) as [[budget physical] incompressible]. apply prefetch_started in Hp as ->.
  destruct (copy_windows _ _ _ _ _ _ _ _ _ s) as [r s'] eqn:E.
  apply copy_windows_ok in E as (result & p' & -> & Hn & Hl & _); [|first [done|by apply scheduler_new_ok|idtac]..];
    cbn [prefetch_scheduler] in *; [eexists _, _, _; split_and!; [done..|exact Hl]|]. rewrite rows_left_upcoming. lia.
Qed.

(** C2. A bulk ingest that succeeds has delivered its stream and says how many
    rows it had.  The number it returns is the number of rows of the batches of
    the bound stream, which had no error; and the server has been given all of
    them: the uploads of one COPY after the other, each of which read the file of
    every column once, are for every column encodings of consecutive rows that
    together are the rows of the stream, or, for a single small batch, the
    prepared INSERT was executed with the arguments rendered from each row. *)
Theorem ingest_delivers st prior (d d' : Driver db) bound n stats copies :
  st_bound (os_core st) = Some bound → reader_ok (bound_items bound) → tuning_ok (os_tuning st) →
  Z.of_nat (length (bound_schema bound)) ≤ usize_max →
  ingest (row := row) decode_error_text pid env st prior d = (Ok n, stats, copies, d') →
  n = Some (Z.of_nat (count_rows (ok_batches (bound_items bound)))) ∧ (∀ e, Err e ∉ bound_items bound) ∧
  delivered_by (bound_schema bound) (bound_items bound) copies (sent (session d')).
Proof.
  intros Hbound Hr Ht Hmax. unfold ingest. destruct (open_ingest pid st prior d) as [[[[plan decided] scope]|e|] d1] eqn:Eo; [|done..].
  apply open_ingest_plan in Eo as (bound' & table & Hb' & _ & Hplan). rewrite Hbound in Hb'. injection Hb' as <-.
  apply plan_ingest_stream in Hplan as (Hschema & _ & Hstream).
  destruct (run_ingest _ _ _ _ _ _ _ _ d1) as [result s] eqn:Er. intros Hi. destruct result as [m|e|]; [|done..].
  injection Hi as <- _ <- <-. apply run_ingest_ok with (items := bound_items bound) in Er; [|done|by rewrite Hschema|done|done].
  destruct Er as (-> & He & Hd). rewrite Hschema in Hd. split_and!; [done..|]. by destruct (_ && _).
Qed.
End ingest.
