(* ===== verification/IngestAtomicProofs.v ===== *)
(** A bulk ingest that fails leaves nothing behind, from what the server promises
    about transactions: the statements of an ingest keep its scope open, and the
    end of the scope undoes them. *)

From stdpp Require Import base list numbers strings gmap.
From S2P Require Import Prelude RustStd Types Calendar ArrowData Encode Errors SqlScan Template PreparedCache Compression Ingest Transactions TransactionsProofs AtomicProofs Prepare PrepareProofs ParameterBatch ParameterBatchProofs Statement ReadPath Options Connection Append IngestMemory IngestRun IngestRunProofs.
Local Open Scope Z_scope.

(** The server at an end of the conversation, whatever it was answered. *)
Inductive dialog_end {db} : CopyDialog db → db → Prop :=
| end_now reply d : dialog_end (DialogEnd reply d) d
| end_later filename next answer d : dialog_end (next answer) d → dialog_end (DialogFile filename next) d.

(** What a statement in an open transaction leaves as it is: what is committed,
    the mode, and the savepoints other than those of [touched]. *)
Definition unmoved {db content} `{!Server db, !TransactionLaws db content} (touched : bytes → Prop) (d d' : db) : Prop :=
  durable d' = durable d ∧ server_autocommit d' = Ok false ∧ ∀ name, ¬ touched name → saved d' name = saved d name.

(** Statements of savepoint control touch the savepoint they name; COPY, reading
    and deallocating touch none; a read outside a transaction commits nothing. *)
Class IngestLaws (db row content : Type)
    `{!Server db, !Rows db row, !CopyServer db, !TransactionLaws db content} : Prop := {
  copy_unmoved d q d' : server_autocommit d = Ok false → dialog_end (server_copy d q) d' → unmoved (λ _, False) d d';
  rows_unmoved d q r d' : server_autocommit d = Ok false → server_rows (row := row) d q = (r, d') → unmoved (λ _, False) d d';
  deallocate_unmoved d id r d' :
    server_autocommit d = Ok false → server_execute d (deallocate_sql id) = (r, d') → unmoved (λ _, False) d d';
  savepoint_unmoved d q name r d' :
    server_autocommit d = Ok false → q ∈ [savepoint_sql name; release_sql name; rollback_to_sql name] →
    server_execute d q = (r, d') → unmoved (λ other, other = name) d d';
  read_row_durable d q r d' : server_query_row d q = (r, d') → durable d' = durable d;
}.

Section keeping.
Context {db row content : Type} `{!Server db, !Rows db row, !BoolCells row, !CopyServer db, MapiCodes, CursorDisplay, Unicode, SqlFormat, CharTables, Chrono}.
Context `{ArrowStream, Half, Lz4, OptionNames, ClientLimits, UploadLimits}.
Context `{!TransactionLaws db content, !WriteLaws db content, !IngestLaws db row content}.
Context (decode_error_text : DecodeError → bytes) (pid : Z) (env : IngestEnv).
Context (scope : AtomicScope) (before : content).

(** The savepoint of an ingest. *)
Definition ingest_scope : Prop :=
  match scope with Savepoint name _ => ∃ rest, name = str "adbc_ingest" ++ rest | _ => True end.

Abbreviation keeps_scope := (stays scope before).

Lemma unmoved_keeps (touched : bytes → Prop) (s : Session db) c d n l :
  (∀ name retain, scope = Savepoint name retain → ¬ touched name) → unmoved touched (server s) d → keeps_scope s →
  keeps_scope (mkSession c d n l).
Proof.
  intros Ht (U1 & U2 & U3) [Ha Ho]. split; [done|]. unfold scope_open in *. cbn [server].
  destruct scope as [| |name retain] eqn:E; [congruence|done|]. by rewrite (U3 name (Ht name retain eq_refl)).
Qed.

(** *** Operations on the session *)

Definition tx_keeps {A} (m : tx db A) : Prop := ∀ s, keeps_scope s → keeps_scope (m s).2.

Lemma tx_keeps_bind {A B} (m : tx db A) (f : A → tx db B) : tx_keeps m → (∀ a, tx_keeps (f a)) → tx_keeps (m ≫= f).
Proof.
  intros Hm Hf s Hs. specialize (Hm s Hs). unfold mbind, tx_bind. destruct (m s) as [[a|e|] s1]; [by apply Hf|done..].
Qed.
Lemma tx_keeps_lift {A} (r : res Error A) : tx_keeps (lift r).
Proof. by intros s Hs. Qed.
Lemma tx_keeps_ret {A} (a : A) : tx_keeps (mret a).
Proof. by intros s Hs. Qed.
Lemma tx_keeps_attempt {A} (m : tx db A) : tx_keeps m → tx_keeps (attempt m).
Proof. intros Hm s Hs. specialize (Hm s Hs). unfold attempt. by destruct (m s) as [[]]. Qed.
Lemma tx_keeps_autocommit : tx_keeps get_autocommit.
Proof. by intros s Hs. Qed.
Lemma tx_keeps_name purpose : tx_keeps (savepoint_name pid purpose).
Proof. by intros s [Ha Ho]. Qed.

Lemma tx_keeps_raw (touched : bytes → Prop) q :
  (∀ d r d', server_autocommit d = Ok false → server_execute d q = (r, d') → unmoved touched d d') →
  (∀ name retain, scope = Savepoint name retain → ¬ touched name) → tx_keeps (execute_raw q).
Proof.
  intros Hq Ht s Hs. unfold execute_raw. destruct (server_execute (server s) q) as [r d] eqn:E. cbn [snd].
  eapply unmoved_keeps; [exact Ht| |exact Hs]. eapply Hq; [apply Hs|exact E].
Qed.

Lemma tx_keeps_execute q : tx_keeps (execute_raw q) → tx_keeps (execute q).
Proof. intros Hq. apply tx_keeps_bind; [done|]. intros r. apply tx_keeps_lift. Qed.

Lemma tx_keeps_harmless q : harmless q → tx_keeps (execute_raw q).
Proof.
  intros Hq. apply (tx_keeps_raw (λ _, False)); [|by auto]. intros d r d' Ha E.
  destruct (write_harmless _ _ _ _ Hq Ha E) as (W1 & W2 & W3). split_and!; auto.
Qed.

Lemma tx_keeps_deallocate id : tx_keeps (execute_raw (deallocate_sql id)).
Proof. apply (tx_keeps_raw (λ _, False)); [|by auto]. intros d r d' Ha E. by eapply deallocate_unmoved. Qed.

Lemma tx_keeps_savepoint q name :
  q ∈ [savepoint_sql name; release_sql name; rollback_to_sql name] →
  (∀ name' retain, scope = Savepoint name' retain → name' ≠ name) → tx_keeps (execute_raw q).
Proof. intros Hq Hn. eapply tx_keeps_raw; [|exact Hn]. intros d r d' Ha E. by eapply savepoint_unmoved. Qed.

Lemma tx_keeps_rows q : tx_keeps (execute_rows (row := row) q).
Proof.
  intros s Hs. unfold execute_rows. destruct (server_rows (server s) q) as [r d] eqn:E. cbn [snd].
  eapply (unmoved_keeps (λ _, False)); [by auto| |exact Hs]. eapply rows_unmoved; [apply Hs|exact E].
Qed.
End keeping.

Create HintDb scope_kept.
#[export] Hint Resolve tx_keeps_lift tx_keeps_ret tx_keeps_attempt tx_keeps_autocommit tx_keeps_name tx_keeps_rows
  tx_keeps_execute tx_keeps_harmless tx_keeps_deallocate : scope_kept.

(** Sequences and case distinctions of operations that keep the scope. *)
Ltac keep_scope :=
  repeat first
    [ progress intros
    | apply tx_keeps_bind
    | match goal with |- tx_keeps _ _ (match ?x with _ => _ end) => destruct x end
    | match goal with |- tx_keeps _ _ (if ?x then _ else _) => destruct x end
    | solve [eauto with scope_kept] ].

Section operations.
Context {db row content : Type} `{!Server db, !Rows db row, !BoolCells row, !CopyServer db, MapiCodes, CursorDisplay, Unicode, SqlFormat, CharTables, Chrono}.
Context `{ArrowStream, Half, Lz4, OptionNames, ClientLimits, UploadLimits}.
Context `{!TransactionLaws db content, !WriteLaws db content, !IngestLaws db row content}.
Context (decode_error_text : DecodeError → bytes) (pid : Z) (env : IngestEnv).
Context (scope : AtomicScope) (before : content) (Hscope : ingest_scope scope).

Lemma append_table_columns_keeps schema table status :
  tx_keeps scope before (append_table_columns (db := db) (row := row) schema table status).
Proof. unfold append_table_columns. keep_scope. Qed.

Lemma aligned_columns_keeps target schema : tx_keeps scope before (aligned_columns (db := db) (row := row) target schema).
Proof. unfold aligned_columns. apply tx_keeps_bind; [apply append_table_columns_keeps|]. keep_scope. Qed.

(** The statements that make the target. *)
Record target_harmless (target : IngestTarget) : Prop := {
  create_harmless : harmless (target_create target);
  create_if_harmless : harmless (replace_first (str "TABLE ") (str "TABLE IF NOT EXISTS ") (target_create target));
  drop_harmless : harmless (str "DROP TABLE IF EXISTS " ++ operation_target target);
}.

Lemma execute_ingest_target_mode_keeps target :
  target_harmless target → tx_keeps scope before (execute_ingest_target_mode (db := db) target).
Proof. intros [H1' H2' H3']. unfold execute_ingest_target_mode. keep_scope. Qed.

Lemma prepare_ingest_target_keeps target schema :
  target_harmless target → tx_keeps scope before (prepare_ingest_target (db := db) (row := row) target schema).
Proof.
  intros Ht. unfold prepare_ingest_target. apply tx_keeps_bind; [by apply execute_ingest_target_mode_keeps|]. intros _.
  destruct (may_append _); [|keep_scope]. apply tx_keeps_bind; [apply aligned_columns_keeps|]. keep_scope.
Qed.

Lemma constrained_append_stage_keeps schema destination target :
  tx_keeps scope before (constrained_append_stage (db := db) pid schema destination target).
Proof. unfold constrained_append_stage. keep_scope. Qed.

Lemma execute_update_batch_keeps queries count :
  harmless (batch_script queries) → tx_keeps scope before (execute_update_batch (db := db) queries count).
Proof. intros Hq. unfold execute_update_batch. keep_scope. Qed.

Lemma parse_metadata_keeps id n any rows :
  tx_keeps scope before (parse_metadata (db := db) (row := row) decode_error_text id n any rows).
Proof. unfold parse_metadata, restore_declared_result_types. keep_scope. Qed.

(** The savepoint of a PREPARE is not the one of the ingest. *)
Lemma probe_name_differs n name retain :
  scope = Savepoint name retain →
  name ≠ str "adbc_" ++ str "prepare_probe" ++ str "_" ++ fmt_int pid ++ str "_" ++ fmt_int n.
Proof. intros E. unfold ingest_scope in Hscope. rewrite E in Hscope. destruct Hscope as [rest ->]. done. Qed.

Lemma keeps_at_name {A} (f : bytes → tx db A) :
  (∀ name, (∀ name' retain, scope = Savepoint name' retain → name' ≠ name) → tx_keeps scope before (f name)) →
  tx_keeps scope before (name ← savepoint_name pid (str "prepare_probe"); f name).
Proof.
  intros Hf s Hs. unfold mbind, tx_bind, savepoint_name. apply Hf; [|by destruct Hs]. intros name' retain E.
  by eapply probe_name_differs.
Qed.

Lemma execute_savepoint_keeps q name :
  q ∈ [savepoint_sql name; release_sql name; rollback_to_sql name] →
  (∀ name' retain, scope = Savepoint name' retain → name' ≠ name) → tx_keeps scope before (execute_raw (db := db) q).
Proof. apply tx_keeps_savepoint. Qed.

Lemma recover_probe_keeps name :
  (∀ name' retain, scope = Savepoint name' retain → name' ≠ name) →
  tx_keeps scope before (recover_scope (db := db) (Savepoint name false)).
Proof.
  intros Hn. cbn [recover_scope]. apply tx_keeps_bind.
  { apply (execute_savepoint_keeps _ name); [|done]. right. right. by left. }
  intros [x|e|]; [|keep_scope..]. apply tx_keeps_bind; [|keep_scope].
  apply (execute_savepoint_keeps _ name); [|done]. right. by left.
Qed.

Lemma prepare_locked_keeps query n any :
  tx_keeps scope before (prepare_query_inner_locked (db := db) (row := row) decode_error_text pid query n any).
Proof.
  unfold prepare_query_inner_locked. apply tx_keeps_bind; [keep_scope|]. intros autocommit.
  match goal with |- tx_keeps _ _ (_ ≫= ?f) => set (rest := f) end.
  assert (∀ savepoint, (∀ name, savepoint = Some name → ∀ name' retain, scope = Savepoint name' retain → name' ≠ name) →
    tx_keeps scope before (rest savepoint)) as Hrest.
  { intros savepoint Hn. unfold rest. apply tx_keeps_bind.
    { destruct savepoint as [name|]; [|keep_scope]. apply tx_keeps_bind; [|keep_scope]. apply tx_keeps_execute.
      apply (execute_savepoint_keeps _ name); [by left|by apply Hn]. }
    intros _. apply tx_keeps_bind; [keep_scope|]. intros [reply|e|]; [| |keep_scope].
    - apply tx_keeps_bind; [keep_scope|]. intros id. apply tx_keeps_bind; [apply tx_keeps_attempt, parse_metadata_keeps|].
      intros parsed. apply tx_keeps_bind.
      { destruct parsed; [keep_scope|..]; (apply tx_keeps_bind; [apply tx_keeps_deallocate|keep_scope]). }
      intros _. apply tx_keeps_bind; [|keep_scope]. destruct savepoint as [name|]; [|keep_scope].
      apply tx_keeps_bind; [|keep_scope]. apply (execute_savepoint_keeps _ name); [right; by left|by apply Hn].
    - destruct savepoint as [name|]; [|keep_scope]. apply tx_keeps_bind; [by apply recover_probe_keeps, Hn|keep_scope]. }
  clearbody rest. destruct autocommit; intros s Hs.
  - by apply (Hrest None).
  - apply (keeps_at_name (λ name, rest (Some name))); [|done]. intros name Hn. apply Hrest. by intros ? [= <-].
Qed.
End operations.

(** ** The operation between the beginning and the end of its scope *)

Lemma run_dialog_end {db} request (before : db) (dialog : CopyDialog db) : ∀ u files r u' files' d',
  run_dialog request before dialog u files = (r, u', files', d') → d' = before ∨ dialog_end dialog d'.
Proof.
  induction dialog as [reply d|filename next IH]; intros u files r u' files' d'; cbn [run_dialog].
  - intros [= _ _ _ <-]. right. constructor.
  - destruct (request filename u) as [[chunks|e|] u1]; intros Hr; [| |injection Hr as _ _ _ <-; by left];
      (apply IH in Hr as [->|Hr]; [by left|]); right; by econstructor.
Qed.

Section running.
Context {db row content : Type} `{!Server db, !Rows db row, !BoolCells row, !CopyServer db, MapiCodes, CursorDisplay, Unicode, SqlFormat, CharTables, Chrono}.
Context `{ArrowStream, Half, Lz4, OptionNames, ClientLimits, UploadLimits}.
Context `{!TransactionLaws db content, !WriteLaws db content, !IngestLaws db row content}.
Context (decode_error_text : DecodeError → bytes) (pid : Z) (env : IngestEnv).
Context (scope : AtomicScope) (before : content) (Hscope : ingest_scope scope) (creates : bool).

(** The scope is open; writes have started when the mode is one that creates
    the target, and before the first COPY. *)
Definition running (s : Run db) : Prop :=
  stays scope before (session (run_driver s)) ∧ (creates = true → run_writes_started s = true) ∧
  (run_copies s = [] ∨ run_writes_started s = true).

Definition rx_keeps {A} (m : rx db A) : Prop := ∀ s, running s → running (m s).2.

Lemma rx_keeps_bind {A B} (m : rx db A) (f : A → rx db B) : rx_keeps m → (∀ a, rx_keeps (f a)) → rx_keeps (m ≫= f).
Proof.
  intros Hm Hf s Hs. specialize (Hm s Hs). unfold mbind, rx_bind. destruct (m s) as [[a|e|] s1]; [by apply Hf|done..].
Qed.
Lemma rx_keeps_pure {A} (r : res Error A) : rx_keeps (pure_rx r).
Proof. by intros s Hs. Qed.
Lemma rx_keeps_ret {A} (a : A) : rx_keeps (mret a).
Proof. by intros s Hs. Qed.
Lemma rx_keeps_try {A} (m : rx db A) : rx_keeps m → rx_keeps (try_rx m).
Proof. intros Hm s Hs. specialize (Hm s Hs). unfold try_rx. by destruct (m s) as [[]]. Qed.
Lemma rx_keeps_stats f : rx_keeps (on_stats f).
Proof. by intros s Hs. Qed.
Lemma rx_keeps_start : rx_keeps start_writes.
Proof. intros s (Hs & _ & _). split_and!; [done|done|by right]. Qed.
Lemma rx_keeps_server {A} (m : tx db A) : tx_keeps scope before m → rx_keeps (on_server m).
Proof.
  intros Hm s (Hs & Hc & Hw). specialize (Hm _ Hs). unfold on_server, on_run, on_session.
  by destruct (m (session (run_driver s))).
Qed.
Lemma rx_keeps_deadline {A} (f : option Z → Z → res Error A) deadline : rx_keeps (at_deadline env f deadline).
Proof. unfold at_deadline. destruct deadline; by intros s Hs. Qed.
Lemma rx_keeps_operation_deadline t : rx_keeps (operation_deadline env t).
Proof. unfold operation_deadline. destruct (operation_timeout t); by intros s Hs. Qed.
Lemma rx_keeps_receive timeout p : rx_keeps (receive_window env timeout p).
Proof. by intros s Hs. Qed.

Lemma rx_keeps_prepare query n : rx_keeps (on_run (prepare_cached_with_status_locked (row := row) decode_error_text pid query n)).
Proof.
  intros s (Hs & Hc & Hw). assert (stays scope before (session (prepare_cached_with_status_locked (row := row) decode_error_text pid query n (run_driver s)).2)) as Hk.
  { unfold prepare_cached_with_status_locked. cbv zeta. unfold mbind at 1, dx_bind at 1, with_cache at 1.
    destruct (cache_get _ _) as [[entry|] c]; [done|]. unfold mbind at 1, dx_bind at 1, on_session.
    pose proof (prepare_locked_keeps (row := row) decode_error_text pid scope before Hscope (normalize_prepared_query query) n false
      (session (run_driver s)) Hs) as Hp.
    cbn [session]. destruct (prepare_query_inner_locked _ _ _ _ _ _) as [[md|e|] s1]; cbn [snd] in Hp; [|done..].
    unfold mbind at 1, dx_bind at 1, prepared_entry_new. cbn [session]. destruct (prepared_row_execution_needs_verification _); [|done..].
    unfold mbind, dx_bind, with_cache. cbn [prepared_cache]. by destruct (cache_insert _ _ _) as [[entry c2]| |]. }
  unfold on_run. by destruct (prepare_cached_with_status_locked _ _ _ _ (run_driver s)).
Qed.

Lemma rx_keeps_uploads q request u : rx_keeps (start_writes ≫= λ _, execute_with_streaming_uploads q request u).
Proof.
  intros s (Hs & _ & _). unfold mbind, rx_bind, start_writes, execute_with_streaming_uploads. cbn [run_driver].
  destruct (run_dialog _ _ _ _ _) as [[[r u'] files] d'] eqn:E.
  assert (stays scope before (mkSession (connection (session (run_driver s))) d' (savepoint_id (session (run_driver s)))
    (sent (session (run_driver s)) ++ [q]))) as Hs'.
  { apply run_dialog_end in E as [->|E]; [by destruct Hs|]. eapply (unmoved_keeps scope before (λ _, False)); [by auto| |exact Hs].
    eapply copy_unmoved; [apply Hs|exact E]. }
  destruct r; (split_and!; [done|done|by right]).
Qed.

Lemma rx_bind_assoc {A B C} (m : rx db A) (f : A → rx db B) (g : B → rx db C) s :
  (m ≫= λ a, f a ≫= g) s = ((m ≫= f) ≫= g) s.
Proof. unfold mbind, rx_bind. by destruct (m s) as [[a|e|] s1]. Qed.

Lemma rx_keeps_window copy schema staged w : rx_keeps (copy_window copy schema staged w).
Proof.
  unfold copy_window. cbv zeta. intros s Hs. rewrite rx_bind_assoc. revert s Hs. apply rx_keeps_bind; [apply rx_keeps_uploads|].
  intros [reply u]. apply rx_keeps_bind; [apply rx_keeps_pure|]. intros rows. apply rx_keeps_bind; [apply rx_keeps_stats|]. intros _.
  apply rx_keeps_bind; [apply rx_keeps_pure|]. intros n. by repeat (case_match; [apply rx_keeps_pure|]); first [apply rx_keeps_ret|apply rx_keeps_pure].
Qed.
End running.

#[export] Hint Resolve rx_keeps_pure rx_keeps_ret rx_keeps_try rx_keeps_stats rx_keeps_start rx_keeps_server rx_keeps_deadline
  rx_keeps_operation_deadline rx_keeps_receive rx_keeps_prepare : scope_kept.

Ltac keep_running :=
  repeat first
    [ progress intros
    | apply rx_keeps_bind
    | match goal with |- rx_keeps _ _ _ (match ?x with _ => _ end) => destruct x end
    | match goal with |- rx_keeps _ _ _ (if ?x then _ else _) => destruct x end
    | solve [eauto with scope_kept] ].

Section outcome.
Context {db row content : Type} `{!Server db, !Rows db row, !BoolCells row, !CopyServer db, MapiCodes, CursorDisplay, Unicode, SqlFormat, CharTables, Chrono}.
Context `{ArrowStream, Half, Lz4, OptionNames, ClientLimits, UploadLimits}.
Context `{!TransactionLaws db content, !WriteLaws db content, !IngestLaws db row content}.
Context (decode_error_text : DecodeError → bytes) (pid : Z) (env : IngestEnv).

(** The texts of an ingest that are not savepoint control: none is transaction
    control. *)
Record plan_harmless (plan : IngestPlan) : Prop := {
  ph_target : target_harmless (db := db) (plan_target plan);
  ph_stage (s s' : Session db) destination stage :
    constrained_append_stage pid (plan_schema plan) destination (operation_target (plan_target plan)) s = (Ok stage, s') →
    harmless (stage_create stage) ∧ harmless (stage_move_to_target stage) ∧ harmless (stage_drop stage);
  ph_insert c id : plan_candidate plan = Some c → harmless (insert_script id (candidate_arguments c));
}.

Section in_scope.
Context (scope : AtomicScope) (before : content) (Hscope : ingest_scope scope) (creates : bool).
Abbreviation keeping := (rx_keeps (db := db) scope before creates).

Lemma copy_windows_keeps copy schema staged t deadline fuel : ∀ rows p,
  keeping (copy_windows env fuel copy schema staged t deadline rows p).
Proof.
  induction fuel as [|fuel IH]; intros rows p; cbn [copy_windows]; [apply rx_keeps_pure|].
  apply rx_keeps_bind; [apply rx_keeps_try; unfold wait_window; keep_running|].
  intros [[[[w|]|e|] p1]|e|]; try solve [keep_running]. apply rx_keeps_bind.
  { apply rx_keeps_try. apply rx_keeps_bind; [apply rx_keeps_deadline|]. intros _. apply (rx_keeps_window (row := row)). }
  intros [n|e|]; [|keep_running..]. destruct (i64_checked_add rows n); [apply IH|apply rx_keeps_ret].
Qed.

Lemma prepare_insert_keeps target names : keeping (prepare_insert (row := row) decode_error_text pid target names).
Proof. unfold prepare_insert. keep_running. Qed.

Lemma insert_entry_keeps plan : keeping (insert_entry (row := row) decode_error_text pid plan).
Proof.
  unfold insert_entry. apply rx_keeps_bind; [apply prepare_insert_keeps|]. intros [prepared e].
  apply rx_keeps_bind; [|keep_running]. destruct prepared as [entry|]; [apply rx_keeps_ret|].
  destruct (may_append _); [|apply rx_keeps_ret]. apply rx_keeps_bind; [apply rx_keeps_server, aligned_columns_keeps|].
  intros aligned. case_bool_decide; [apply rx_keeps_ret|]. apply rx_keeps_bind; [apply prepare_insert_keeps|]. keep_running.
Qed.

Lemma insert_candidate_rows_keeps plan c :
  plan_harmless plan → plan_candidate plan = Some c → keeping (insert_candidate_rows (row := row) decode_error_text pid plan c).
Proof.
  intros Hp Hc. unfold insert_candidate_rows. cbv zeta.
  apply rx_keeps_bind; [apply rx_keeps_server, execute_ingest_target_mode_keeps, Hp|]. intros _.
  apply rx_keeps_bind; [apply insert_entry_keeps|]. intros [entry hit].
  apply rx_keeps_bind; [keep_running|]. intros _. apply rx_keeps_bind; [apply rx_keeps_stats|]. intros _.
  apply rx_keeps_bind; [apply rx_keeps_start|]. intros _.
  apply rx_keeps_bind; [apply rx_keeps_server, execute_update_batch_keeps; by apply (ph_insert _ Hp)|]. keep_running.
Qed.

(** The statements of the staging table. *)
Definition stage_harmless (stage : option ConstrainedAppendStage) : Prop :=
  match stage with Some stage => harmless (stage_move_to_target stage) ∧ harmless (stage_drop stage) | None => True end.

Lemma create_stage_keeps plan staged destination s r s' :
  plan_harmless plan → running scope before creates s → create_stage pid plan staged destination s = (r, s') →
  running scope before creates s' ∧ ∀ stage, r = Ok stage → stage_harmless stage.
Proof.
  intros Hp Hs. unfold create_stage. destruct staged; [|intros [= <- <-]; split; [exact Hs|by intros stage [= <-]]].
  unfold mbind at 1, rx_bind at 1, pure_rx. destruct (ok_or _ _) as [names|e|]; [|by intros [= <- <-]..].
  pose proof (rx_keeps_server scope before creates _
    (constrained_append_stage_keeps pid scope before (plan_schema plan) names (operation_target (plan_target plan))) s Hs) as Hs1.
  unfold mbind at 1, rx_bind at 1. destruct (on_server _ s) as [r1 s1] eqn:E1. apply on_server_keeps in E1 as (_ & _ & _ & E1).
  cbn [snd] in Hs1. destruct r1 as [stage|e|]; [|by intros [= <- <-]..]. destruct (ph_stage _ Hp _ _ _ _ E1) as (P1 & P2 & P3).
  assert (keeping (_ ← start_writes; on_server (execute (stage_create stage)))) as Hk by keep_running.
  specialize (Hk s1 Hs1). unfold mbind, rx_bind, start_writes, on_stats in *. destruct (on_server _ _) as [[x|e|] s2]; cbn [snd] in Hk;
    intros [= <- <-]; (split; [exact Hk|]); [|done..]. by intros ? [= <-].
Qed.

Lemma copy_stream_keeps t budgets plan staged :
  plan_harmless plan → keeping (copy_stream (row := row) pid env t budgets plan staged).
Proof.
  intros Hp. unfold copy_stream. destruct budgets as [[budget physical] incompressible].
  apply rx_keeps_bind; [apply rx_keeps_server, prepare_ingest_target_keeps, Hp|]. intros destination s Hs.
  unfold mbind at 1, rx_bind at 1. destruct (create_stage pid plan staged destination s) as [r1 s1] eqn:E1.
  destruct (create_stage_keeps plan staged destination s r1 s1 Hp Hs E1) as [Hs1 Hst]. destruct r1 as [stage|e|]; [|done..].
  specialize (Hst stage eq_refl). clear E1. revert s1 Hs1. apply rx_keeps_bind; [apply rx_keeps_pure|]. intros columns.
  apply rx_keeps_bind; [apply rx_keeps_pure|]. intros prefetch. apply rx_keeps_bind; [apply rx_keeps_operation_deadline|].
  intros deadline. apply rx_keeps_bind; [apply copy_windows_keeps|]. intros [uploaded p].
  apply rx_keeps_bind; [apply rx_keeps_stats|]. intros _. apply rx_keeps_bind; [apply rx_keeps_pure|]. intros rows.
  apply rx_keeps_bind; [unfold move_staged|unfold drop_stage]; (destruct stage as [stage|]; [destruct Hst|]); keep_running.
Qed.
End in_scope.

(** ** The end of the scope *)

Lemma finish_caller {A} (operation : res Error A) (s : Session db) : operation ≠ Panic →
  finish_atomic CallerTransaction operation s = (operation, s).
Proof. by destruct operation. Qed.

Lemma poison_marks target windows (s : Run db) :
  ∃ s', poison target windows s = (Ok tt, s') ∧ is_Some (transaction_poison (connection (session (run_driver s')))).
Proof.
  eexists. split; [reflexivity|]. cbn. unfold poison_ingest, poison_transaction.
  destruct (transaction_poison (connection (session (run_driver s)))) eqn:E; cbn; [by rewrite E|done].
Qed.

Lemma try_rx_ok {A} (m : rx db A) s s' r : try_rx m s = (Ok r, s') → m s = (r, s') ∧ r ≠ Panic.
Proof. unfold try_rx. destruct (m s) as [[x|e|] s1]; intros [= <- <-]; done. Qed.

(** What an ingest that failed has left, by its scope. *)
Definition left_behind (t : Tuning) (mode : bytes) (scope : AtomicScope) (before : content) (s' : Run db) (e : Error) : Prop :=
  match scope with
  | CallerTransaction =>
      is_Some (transaction_poison (connection (session (run_driver s')))) ∨ (mode = MODE_APPEND ∧ run_copies s' = []) ∨
      (ingest_partial t = PartialAllow ∧ mode = MODE_APPEND ∧ error_sqlstate e = no_sqlstate)
  | _ => nothing_kept scope before (session (run_driver s')) e
  end.

Lemma not_started scope before mode (s : Run db) :
  running scope before (negb (is_key mode MODE_APPEND)) s → run_writes_started s = false → mode = MODE_APPEND ∧ run_copies s = [].
Proof.
  intros (_ & Hc & Hw) Hn. rewrite Hn in *. destruct Hw as [Hw|]; [|done]. split; [|done].
  unfold is_key in Hc. case_bool_decide; [done|]. by specialize (Hc eq_refl).
Qed.

Lemma finish_insert_fails t plan c scope before s e s' :
  plan_harmless plan → plan_candidate plan = Some c → ingest_scope scope →
  running scope before (negb (is_key (target_mode (plan_target plan)) MODE_APPEND)) s →
  finish_insert (row := row) decode_error_text pid plan c scope s = (Err e, s') →
  left_behind t (target_mode (plan_target plan)) scope before s' e.
Proof.
  intros Hp Hc Hscope Hs. unfold finish_insert. unfold mbind at 1, rx_bind at 1.
  pose proof (rx_keeps_try _ _ _ _ (insert_candidate_rows_keeps scope before Hscope _ plan c Hp Hc) s Hs) as Hs1.
  destruct (try_rx _ s) as [[inserted|?|] s1] eqn:E1; [|unfold try_rx in E1; by repeat case_match|done].
  apply try_rx_ok in E1 as [_ Hnp]. cbn [snd] in Hs1. unfold mbind at 1, rx_bind at 1, get_run.
  destruct (negb (is_ok inserted) && is_caller scope && run_writes_started s1) eqn:Hpois.
  - destruct (poison_marks (operation_target (plan_target plan)) 0 s1) as (s2 & E2 & Hm). unfold mbind at 1, rx_bind at 1. rewrite E2.
    destruct scope; [by rewrite andb_false_r in Hpois| |by rewrite andb_false_r in Hpois].
    unfold mbind, rx_bind, try_rx, on_server, on_run, on_session. rewrite finish_caller by done.
    destruct inserted; [done| |done]. intros [= <- <-]. left. exact Hm.
  - unfold mbind at 1, rx_bind at 1, mret at 1, rx_ret at 1. unfold mbind at 1, rx_bind at 1.
    destruct (try_rx (on_server _) s1) as [[result|?|] s2] eqn:E2; [|unfold try_rx in E2; by repeat case_match|done].
    apply try_rx_ok in E2 as [E2 _]. apply on_server_keeps in E2 as (E2c & _ & _ & E2). unfold mbind, rx_bind, on_stats, pure_rx.
    intros [= -> <-]. destruct scope as [| |name retain] eqn:Es.
    2: { rewrite finish_caller in E2 by done. injection E2 as -> _. rewrite andb_true_r in Hpois. cbn in Hpois.
         right. left. destruct (not_started _ _ _ _ Hs1 Hpois) as [? Hcp]. split; [done|]. cbn. congruence. }
    all: cbn [left_behind run_driver]; eapply finish_fails; [exact Hnp|apply Hs1|done|exact E2].
Qed.

Lemma finish_copy_fails t budgets plan staged scope before s e s' :
  plan_harmless plan →
  running scope before (negb (is_key (target_mode (plan_target plan)) MODE_APPEND)) s →
  finish_copy (row := row) pid env t budgets plan staged scope s = (Err e, s') →
  left_behind t (target_mode (plan_target plan)) scope before s' e.
Proof.
  intros Hp Hs. unfold finish_copy. unfold mbind at 1, rx_bind at 1.
  pose proof (rx_keeps_try _ _ _ _ (copy_stream_keeps scope before _ t budgets plan staged Hp) s Hs) as Hs1.
  destruct (try_rx _ s) as [[copied|?|] s1] eqn:E1; [|unfold try_rx in E1; by repeat case_match|done].
  apply try_rx_ok in E1 as [_ Hnp]. cbn [snd] in Hs1. unfold mbind at 1, rx_bind at 1, get_run. cbv zeta.
  unfold mbind at 1, rx_bind at 1.
  destruct (try_rx (on_server _) s1) as [[result|?|] s2] eqn:E2; [|unfold try_rx in E2; by repeat case_match|done].
  apply try_rx_ok in E2 as [E2 _]. apply on_server_keeps in E2 as (E2c & _ & _ & E2).
  destruct (negb (is_ok copied) && run_writes_started s1 && is_caller scope && negb _) eqn:Hpois.
  - destruct (poison_marks (operation_target (plan_target plan)) (target_copy_count (run_stats s1)) s2) as (s3 & E3 & Hm).
    unfold mbind, rx_bind. rewrite E3. intros [= _ <-].
    destruct scope; [by rewrite andb_false_r in Hpois|by left|by rewrite andb_false_r in Hpois].
  - unfold mbind, rx_bind, mret, rx_ret, pure_rx. intros [= -> <-]. destruct scope as [| |name retain] eqn:Es.
    2: { rewrite finish_caller in E2 by done. injection E2 as -> _. rewrite andb_true_r in Hpois. cbn [is_ok negb andb] in Hpois.
         destruct (run_writes_started s1) eqn:Hw.
         - cbn [andb] in Hpois. apply negb_false_iff in Hpois. right. right. unfold partial_allowed in Hpois.
           destruct (ingest_partial t); [done|]. repeat (apply andb_true_iff in Hpois as [Hpois ?]). split; [done|].
           unfold is_key in *. by repeat case_bool_decide.
         - right. left. destruct (not_started _ _ _ _ Hs1 Hw) as [? Hcp]. split; [done|]. congruence. }
    all: cbn [left_behind]; eapply finish_fails; [exact Hnp|apply Hs1|done|exact E2].
Qed.

(** ** Up to the beginning of the scope *)

(** The contents and the mode stay, and nothing is written. *)
Definition same_content (s s' : Session db) : Prop :=
  current (server s') = current (server s) ∧ durable (server s') = durable (server s) ∧
  server_autocommit (server s') = server_autocommit (server s) ∧ (unwritten (server s) → unwritten (server s')).

Definition tx_reads {A} (m : tx db A) : Prop := ∀ s, same_content s (m s).2.

Lemma same_content_trans (s1 s2 s3 : Session db) : same_content s1 s2 → same_content s2 s3 → same_content s1 s3.
Proof. intros (A1 & A2 & A3 & A4) (B1 & B2 & B3 & B4). split_and!; [congruence..|auto]. Qed.

Lemma tx_reads_bind {A B} (m : tx db A) (f : A → tx db B) : tx_reads m → (∀ a, tx_reads (f a)) → tx_reads (m ≫= f).
Proof.
  intros Hm Hf s. specialize (Hm s). unfold mbind, tx_bind. destruct (m s) as [[a|e|] s1]; [|done..].
  eapply same_content_trans; [exact Hm|apply Hf].
Qed.
Lemma tx_reads_lift {A} (r : res Error A) : tx_reads (lift r).
Proof. by intros s. Qed.
Lemma tx_reads_ret {A} (a : A) : tx_reads (mret a).
Proof. by intros s. Qed.
Lemma tx_reads_autocommit : tx_reads get_autocommit.
Proof. by intros s. Qed.
Lemma tx_reads_query q : tx_reads (query_row q).
Proof.
  intros s. unfold query_row. destruct (server_query_row (server s) q) as [r d] eqn:E. cbn.
  pose proof (read_row_durable _ _ _ _ E). apply read_row in E as (? & ? & ?). by split_and!.
Qed.
Lemma tx_reads_lock : tx_reads lock_connection.
Proof. intros s. by destruct (lock_keeps s) as (? & ? & ? & ?). Qed.

Ltac reading_only :=
  repeat first
    [ progress intros
    | apply tx_reads_bind
    | match goal with |- tx_reads (match ?x with _ => _ end) => destruct x end
    | apply tx_reads_lift | apply tx_reads_ret | apply tx_reads_query ].

Lemma table_exists_reads schema table : tx_reads (table_exists schema table).
Proof. unfold table_exists. reading_only. Qed.
Lemma table_constraint_state_reads schema table : tx_reads (table_constraint_state schema table).
Proof. unfold table_constraint_state. reading_only. Qed.
Lemma temporary_state_reads table : tx_reads (transaction_scoped_temporary_table_state table).
Proof. unfold transaction_scoped_temporary_table_state. reading_only. Qed.

Definition rx_reads {A} (m : rx db A) : Prop := ∀ s, same_content (session (run_driver s)) (session (run_driver (m s).2)).
Lemma rx_reads_bind {A B} (m : rx db A) (f : A → rx db B) : rx_reads m → (∀ a, rx_reads (f a)) → rx_reads (m ≫= f).
Proof.
  intros Hm Hf s. specialize (Hm s). unfold mbind, rx_bind. destruct (m s) as [[a|e|] s1]; [|done..].
  eapply same_content_trans; [exact Hm|apply Hf].
Qed.
Lemma rx_reads_ret {A} (a : A) : rx_reads (mret a).
Proof. by intros s. Qed.
Lemma rx_reads_pure {A} (r : res Error A) : rx_reads (pure_rx r).
Proof. by intros s. Qed.
Lemma rx_reads_server {A} (m : tx db A) : tx_reads m → rx_reads (on_server m).
Proof.
  intros Hm s. specialize (Hm (session (run_driver s))). unfold on_server, on_run, on_session.
  by destruct (m (session (run_driver s))).
Qed.

Lemma decide_scope_reads t plan prior : rx_reads (decide_scope t plan prior).
Proof.
  unfold decide_scope. cbv zeta.
  repeat first
    [ progress intros
    | apply rx_reads_bind
    | match goal with |- rx_reads (match ?x with _ => _ end) => destruct x end
    | apply rx_reads_ret | apply rx_reads_pure | apply rx_reads_server
    | apply table_exists_reads | apply table_constraint_state_reads | apply temporary_state_reads | apply tx_reads_autocommit ].
Qed.

(** A scope that has been begun for an ingest. *)
Lemma begin_ingest caller prior temporary (s s' : Session db) scope a :
  server_autocommit (server s) = Ok a → (a = false → prior = false → unwritten (server s)) →
  begin_atomic pid (str "ingest") caller prior temporary s = (Ok scope, s') →
  stays scope (if a then durable (server s) else current (server s)) s' ∧ ingest_scope scope ∧
  match scope with Autocommit => a = true | _ => a = false end.
Proof.
  intros Ha Hw. unfold begin_atomic. unfold mbind at 1, tx_bind at 1, get_autocommit. rewrite Ha. cbn [map_err]. destruct a.
  - unfold mbind, tx_bind, set_autocommit_raw, lift. destruct (server_set_autocommit (server s) false) as [[[]|e|] d] eqn:E; [|done..].
    intros [= <- <-]. apply leave_autocommit in E as [E1 E2]. by split_and!.
  - destruct prior; [by intros [= <- <-]|]. cbn [orb]. specialize (Hw eq_refl eq_refl).
    match goal with |- context [if ?b then mret CallerTransaction else _] => destruct b end; [by intros [= <- <-]|].
    intros (retain & s1 & E1 & Hr)%tx_bind_inv. assert (same_content s s1) as (C1 & C2 & C3 & C4).
    { assert (tx_reads (match temporary with
        | Some exists_ => mret exists_
        | None => state ← transaction_scoped_temporary_table_state None; mret (temporary_any state) end)) as Hreads.
      { destruct temporary; [apply tx_reads_ret|]. apply tx_reads_bind; [apply temporary_state_reads|]. intros. apply tx_reads_ret. }
      specialize (Hreads s). by rewrite E1 in Hreads. }
    unfold mbind at 1, tx_bind at 1, savepoint_name in Hr.
    set (rest := str "_" ++ fmt_int pid ++ str "_" ++ fmt_int (savepoint_id s1)) in Hr.
    set (name := str "adbc_" ++ str "ingest" ++ rest) in Hr. assert (∃ rest, name = str "adbc_ingest" ++ rest) as Hname by (by exists rest).
    clearbody name. apply tx_bind_inv in Hr as (x & s3 & E3 & [= <- <-]). unfold execute, execute_raw, mbind, tx_bind, lift in E3.
    cbn [server connection savepoint_id sent] in E3.
    revert E3. destruct (server_execute (server s1) (str "SAVEPOINT " ++ name)) as [[y|e|] d'] eqn:E; [|done..].
    intros [= _ <-]. apply open_savepoint in E as [S1 S2]; [|by apply C4]. split_and!; [|exact Hname|done].
    split; cbn; [congruence|]. by rewrite S1, C1.
Qed.

Definition same_driver (d d' : Driver db) : Prop := same_content (session d) (session d').

Lemma invalidate_same (b : bool) (d d' : Driver db) r :
  (if b then invalidate_prepared_cache else mret tt) d = (r, d') → same_driver d d'.
Proof. destruct b; by intros [= <- <-]. Qed.

(** An ingest that has begun has its scope open on what was there before. *)
Lemma open_ingest_scope st prior (d d' : Driver db) plan decided scope a :
  server_autocommit (server (session d)) = Ok a → (a = false → prior = false → unwritten (server (session d))) →
  open_ingest pid st prior d = (Ok (plan, decided, scope), d') →
  stays scope (if a then durable (server (session d)) else current (server (session d))) (session d') ∧ ingest_scope scope ∧
  match scope with Autocommit => a = true | _ => a = false end.
Proof.
  intros Ha Hw. unfold open_ingest. intros (bound & d1 & [= _ <-] & Hr)%dx_bind_inv. apply dx_bind_inv in Hr as (table & d2 & [= _ <-] & Hr).
  apply dx_bind_inv in Hr as ([] & d3 & E3%invalidate_same & Hr). apply dx_bind_inv in Hr as (p & d4 & [= _ <-] & Hr).
  apply dx_bind_inv in Hr as ([] & d5 & E5%on_session_eq & Hr). destruct E5 as [E5 _].
  assert (same_content (session d3) (session d5)) as C5 by (pose proof (tx_reads_lock (session d3)) as C; by rewrite E5 in C).
  apply dx_bind_inv in Hr as (dec & d6 & E6 & Hr). unfold before_stats in E6. destruct (decide_scope _ _ _ _) as [rd sd] eqn:Ed.
  injection E6 as -> <-. pose proof (decide_scope_reads (os_tuning st) p prior (mkRun d5 no_stats false 0 0 [])) as C6.
  rewrite Ed in C6. cbn [snd run_driver] in C6.
  apply dx_bind_inv in Hr as (sc & d7 & E7%on_session_eq & Hr). destruct E7 as [E7 _].
  apply dx_bind_inv in Hr as ([] & d8 & E8 & [= <- <- <- <-]).
  assert (same_content (session d) (session (run_driver sd))) as (C1 & C2 & C3 & C4)
    by (eapply same_content_trans; [exact E3|]; by eapply same_content_trans).
  rewrite Ha in C3. destruct (begin_ingest _ _ _ _ _ _ _ C3 (λ H1 H2, C4 (Hw H1 H2)) E7) as (Hs & Hsc & Hkind). split_and!; [|done..].
  rewrite C1, C2 in Hs. destruct (scope_staged dec); [|by injection E8 as <-]. injection E8 as <-. exact Hs.
Qed.

(** What a failed ingest leaves. *)
Lemma ingest_failure st prior (d d' : Driver db) bound table e stats copies a :
  st_bound (os_core st) = Some bound → optional_string (os_options st) name_target_table = Some table →
  (∀ plan, plan_ingest st bound table = Ok plan → plan_harmless plan) →
  server_autocommit (server (session d)) = Ok a → (a = false → prior = false → unwritten (server (session d))) →
  ingest (row := row) decode_error_text pid env st prior d = (Err e, Some stats, copies, d') →
  if a then
    durable (server (session d')) = durable (server (session d)) ∨ mentions "transaction recovery also failed" e ∨
    committed_after_all (durable (server (session d))) (server (session d')) e
  else
    current (server (session d')) = current (server (session d)) ∨ mentions "transaction recovery also failed" e ∨
    is_Some (transaction_poison (connection (session d'))) ∨ (ingest_mode_of st = MODE_APPEND ∧ copies = []) ∨
    (ingest_partial (os_tuning st) = PartialAllow ∧ ingest_mode_of st = MODE_APPEND ∧ error_sqlstate e = no_sqlstate).
Proof.
  intros Hbound Htable Hplans Ha Hw. unfold ingest.
  destruct (open_ingest pid st prior d) as [[[[plan decided] scope]|?|] d1] eqn:Eo; [|done..].
  pose proof (open_ingest_scope _ _ _ _ _ _ _ _ Ha Hw Eo) as (Hs & Hscope & Hkind).
  apply open_ingest_plan in Eo as (bound' & table' & Hb' & Ht' & Hplan). rewrite Hbound in Hb'. rewrite Htable in Ht'. simplify_eq.
  pose proof (Hplans _ Hplan) as Hp. apply plan_ingest_stream in Hplan as (_ & Hmode & _).
  set (before := if a then _ else _) in Hs. unfold run_ingest. destruct (write_window_budgets _ _ _ _) as [[budget physical] incompressible].
  set (s0 := mkRun d1 _ _ 0 0 []).
  assert (running scope before (negb (is_key (target_mode (plan_target plan)) MODE_APPEND)) s0) as Hs0 by (split_and!; [done|done|by left]).
  assert (∀ s', left_behind (os_tuning st) (target_mode (plan_target plan)) scope before s' e →
    if a then durable (server (session (run_driver s'))) = durable (server (session d)) ∨ mentions "transaction recovery also failed" e ∨
      committed_after_all (durable (server (session d))) (server (session (run_driver s'))) e
    else current (server (session (run_driver s'))) = current (server (session d)) ∨ mentions "transaction recovery also failed" e ∨
      is_Some (transaction_poison (connection (session (run_driver s')))) ∨ (ingest_mode_of st = MODE_APPEND ∧ run_copies s' = []) ∨
      (ingest_partial (os_tuning st) = PartialAllow ∧ ingest_mode_of st = MODE_APPEND ∧ error_sqlstate e = no_sqlstate)) as Hend.
  { intros s' Hl. rewrite <- Hmode. unfold before in Hl. destruct scope; subst a; cbn in Hl; [tauto|tauto|].
    destruct Hl as [|[|[? _]]]; [tauto|tauto|done]. }
  destruct (plan_candidate plan) as [c|] eqn:Hc.
  - destruct (finish_insert _ _ plan c scope s0) as [[n|e'|] s'] eqn:E; [done| |done]. rewrite andb_false_r. intros [= <- _ <- <-].
    apply Hend. by eapply finish_insert_fails.
  - destruct (finish_copy _ _ _ _ plan _ scope s0) as [[n|e'|] s'] eqn:E; [done| |done]. rewrite andb_false_r. intros [= <- _ <- <-].
    apply Hend. by eapply finish_copy_fails.
Qed.

End outcome.
