(* ===== verification/IngestCommit.v ===== *)
(** A bulk ingest as the caller of [Statement::execute_update] sees it, and the
    COMMIT that may follow: the statement, the guard of its writes, the ingest
    and the transaction of the connection together. *)

From stdpp Require Import base list numbers strings gmap.
From S2P Require Import Prelude RustStd Types Calendar ArrowData Encode Errors SqlScan Template PreparedCache Compression Ingest Transactions TransactionsProofs AtomicProofs Prepare PrepareProofs ParameterBatch ParameterBatchProofs Statement ReadPath Options Connection Append IngestMemory IngestRun IngestRunProofs IngestAtomicProofs.
Local Open Scope Z_scope.

Section updates.
Context {db row content : Type} `{!Server db, !Rows db row, !BoolCells row, !CopyServer db, MapiCodes, CursorDisplay, Unicode, SqlFormat, CharTables, Chrono}.
Context `{ArrowStream, Half, Lz4, OptionNames, ClientLimits, UploadLimits}.
Context (decode_error_text : DecodeError → bytes) (pid : Z) (env : IngestEnv).

(** A statement with other fields at its core. *)
Definition with_core (os : OptionedStatement) (st : MonetdbStatement) : OptionedStatement :=
  mkOptioned st (os_tuning os) (os_options os) (os_bind_by_name os) (os_round_trip os) (os_ingest_stats os) (os_read_stats os).

(** [self.ingest(prior_writes)], as [execute_update] calls it. *)
Definition ingest_of (os : OptionedStatement) (prior_writes : bool) : sx db (option Z) := λ s,
  let '(result, os, d) := statement_ingest (row := row) decode_error_text pid env (with_core os (statement s)) prior_writes (driver s) in
  (result, mkExec (os_core os) d).

Definition on_driver_connection (f : DriverConnection → DriverConnection) (d : Driver db) : Driver db :=
  let s := session d in
  mkDriver (mkSession (f (connection s)) (server s) (savepoint_id s) (sent s)) (prepared_cache d) (cells d) (slots d).

(** [execute_update] with data bound and a target table: the guard around the
    ingest, and the statement with the statistics it keeps. *)
Definition update_ingest (os : OptionedStatement) (d : Driver db) : res Error (option Z) * OptionedStatement * Driver db :=
  match write_guard_new (connection (session d)) (st_query (os_core os)) with
  | Ok (guard, c) =>
      let '(result, os, d) :=
        statement_ingest (row := row) decode_error_text pid env os (prior_writes guard) (on_driver_connection (λ _, c) d) in
      match result with
      | Panic => (Panic, os, d)
      | result => (result, os, on_driver_connection (write_guard_drop guard) d)
      end
  | Err e => (Err e, os, d)
  | Panic => (Panic, os, d)
  end.

(** It is what the statement's [execute_update] does. *)
Lemma execute_update_ingests os d :
  is_Some (st_bound (os_core os)) → is_Some (st_target_table (os_core os)) →
  statement_execute_update (row := row) decode_error_text pid (ingest_of os) (mkExec (os_core os) d) =
  let '(result, os', d') := update_ingest os d in (result, mkExec (os_core os') d').
Proof.
  intros [bound Hb] [table Ht]. unfold statement_execute_update, update_ingest, guarding, get_statement, on_driver, on_session.
  unfold mbind, sx_bind. cbn [statement driver]. destruct (write_guard_new _ _) as [[guard c]|e|]; [|by destruct d..].
  cbn [statement driver]. unfold try_sx. cbn [statement driver]. rewrite Hb, Ht. unfold ingest_of. cbn [statement driver].
  replace (with_core os (os_core os)) with os by (by destruct os).
  change (mkDriver _ (prepared_cache d) (cells d) (slots d)) with (on_driver_connection (λ _, c) d).
  destruct (statement_ingest _ _ _ os _ _) as [[[n|e|] os'] d']; done.
Qed.
End updates.

Section commits.
Context {db row content : Type} `{!Server db, !Rows db row, !BoolCells row, !CopyServer db, MapiCodes, CursorDisplay, Unicode, SqlFormat, CharTables, Chrono}.
Context `{ArrowStream, Half, Lz4, OptionNames, ClientLimits, UploadLimits}.
Context `{!TransactionLaws db content, !WriteLaws db content, !IngestLaws db row content}.
Context (decode_error_text : DecodeError → bytes) (pid : Z) (env : IngestEnv).

(** The guard says what the connection's record says. *)
Lemma guard_prior (c : DriverConnection) query guard c' :
  write_guard_new c query = Ok (guard, c') → prior_writes guard = transaction_modified c.
Proof. unfold write_guard_new. intros Hg. apply bind_ok in Hg as (modifies & _ & Hg). by injection Hg as <- _. Qed.

(** C5. What a failed ingest has written cannot be committed.  When the
    [execute_update] of a bulk ingest that creates, replaces or extends a table
    fails in the caller's transaction, after its scope was begun (the statement
    has its statistics), then either the transaction's content is
    what it was before, or the COMMIT that follows is refused with SQLSTATE 25000
    and has no effect; the only exception is said in the error, a recovery that
    failed as well.  The guard of the statement's writes, the scope of the ingest,
    its poisoning and the check of COMMIT are composed.  The statements of the plan
    are harmless (not transaction control), and the connection's record of writes is
    empty only if the transaction has not written. *)
Theorem failed_ingest_not_committed os (d d' : Driver db) os' bound table e stats :
  st_bound (os_core os) = Some bound → optional_string (os_options os) name_target_table = Some table →
  (∀ plan, plan_ingest os bound table = Ok plan → plan_harmless (db := db) pid plan) →
  ingest_mode_of os ≠ MODE_APPEND → server_autocommit (server (session d)) = Ok false →
  (transaction_modified (connection (session d)) = false → unwritten (server (session d))) →
  update_ingest (row := row) decode_error_text pid env os d = (Err e, os', d') → os_ingest_stats os' = Some stats →
  let s := session d' in
  current (server s) = current (server (session d)) ∨ mentions "transaction recovery also failed" e ∨
  ∃ refusal, (commit s : res Error unit * Session db) = (Err refusal, settled s) ∧ error_sqlstate refusal = str "25000".
Proof.
  intros Hbound Htable Hplans Hmode Ha Hw. unfold update_ingest.
  destruct (write_guard_new _ _) as [[guard c]|e1|] eqn:Hg; [|intros [= <- <- <-]; by left|done].
  unfold statement_ingest. set (d1 := on_driver_connection (λ _, c) d).
  destruct (ingest _ _ _ os (prior_writes guard) d1) as [[[r st] copies] d2] eqn:Ei. destruct r as [n|e1|]; [done| |done].
  intros [= <- <- <-] Hst. cbn in Hst. subst st. set (s := session (on_driver_connection (write_guard_drop guard) d2)).
  pose proof (ingest_failure _ _ _ os _ d1 d2 bound table e1 stats copies false Hbound Htable Hplans Ha ltac:(intros _ Hp; apply Hw; by rewrite <- (guard_prior _ _ _ _ Hg)) Ei) as Hf.
  assert (server s = server (session d2) ∧ transaction_poison (connection s) = transaction_poison (connection (session d2))) as [Es Ep]
    by (unfold s, on_driver_connection, write_guard_drop; by destruct (guard_modifies guard)).
  rewrite Es. destruct Hf as [Hc|[Hm|[[reason Hp]|[[? _]|[_ [? _]]]]]]; [by left|by right; left| |done|done].
  right. right. apply (poisoned_commit_refused s reason). unfold poisoned. by rewrite Ep.
Qed.
End commits.
