(* ===== verification/IngestToy.v ===== *)
(** Bulk ingestion, tried: a server that reads the files of a COPY, the promises
    it keeps, and the theorems at concrete inputs. *)

From stdpp Require Import base list numbers strings gmap.
From S2P Require Import Prelude RustStd Types Calendar ArrowData Encode Codec Errors SqlScan SqlScanProofs Template TemplateProofs PreparedCache Compression Ingest CompressionProofs IngestProofs SchedulerProofs StreamProofs Transactions TransactionsProofs Prepare PrepareProofs AtomicProofs ParameterBatch ParameterBatchProofs Statement ReadPath Options OptionsProofs Connection ConnectionProofs Append IngestMemory IngestRun IngestRunProofs IngestAtomicProofs IngestCommit.
Local Open Scope Z_scope.

(** A server that reads the number of files off the end of the statement, asks for
    them in turn and counts the rows by the first one, eight bytes to a row. *)
Definition strip_suffix (suffix l : bytes) : option bytes := (λ r, rev r) <$> strip_prefix (rev suffix) (rev l).

Definition toy_file_count (q : bytes) : nat :=
  let body := match strip_suffix (str " ON CLIENT") q with
              | Some body => body
              | None => default q (strip_suffix (str " ON 'lz4' CLIENT") q)
              end in
  match rev body with
  | quote :: rest =>
      if quote =? 39 then
        match dec_value (rev (take_while is_ascii_digit rest)) with Some i => S (Z.to_nat i) | None => 0%nat end
      else 0%nat
  | [] => 0%nat
  end.

Fixpoint toy_dialog (d d' : toy) (files : list bytes) (rows : option Z) : CopyDialog toy :=
  match files with
  | [] => DialogEnd (Ok rows) d'
  | file :: files =>
      DialogFile file (λ answer,
        match answer with
        | Ok chunks => toy_dialog d d' files (match rows with Some n => Some n | None => Some (len (concat chunks) / 8) end)
        | _ => DialogEnd (Err (CE_FileTransfer file)) (toy_abort d)
        end)
  end.

#[global] Instance toy_copy : CopyServer toy := {|
  server_copy d q :=
    if toy_aborted d then DialogEnd (Err toy_refusal) d
    else
      let content := toy_current d ++ [q] in
      toy_dialog d (toy_set d (if toy_autocommit d then content else toy_durable d) content (toy_saved d))
        (column_file <$> seq 0 (toy_file_count q)) None |}.

Lemma strip_suffix_app l suffix : strip_suffix suffix (l ++ suffix) = Some l.
Proof.
  unfold strip_suffix, strip_prefix, starts_with. rewrite rev_app_distr, take_app_length, bool_decide_eq_true_2 by done.
  rewrite drop_app_length. cbn. by rewrite rev_involutive.
Qed.

Lemma take_while_app p (l : bytes) b rest : Forall (λ x, p x = true) l → p b = false → take_while p (l ++ b :: rest) = l.
Proof. induction 1 as [|x l Hx _ IH]; intros Hb; cbn; [by rewrite Hb|]. by rewrite Hx, IH. Qed.

Lemma comma_list_last (l : list bytes) x : ∃ pre, comma_list (l ++ [x]) = pre ++ x.
Proof.
  induction l as [|y l [pre IH]]; [by exists []|]. unfold comma_list in *. cbn [app join].
  destruct (l ++ [x]) as [|z rest] eqn:E; [by destruct l|]. rewrite IH. exists (y ++ str ", " ++ pre). by rewrite <- !app_assoc.
Qed.

Lemma toy_file_count_copy target columns n wire : toy_file_count (copy_statement target columns n wire) = n.
Proof.
  unfold toy_file_count, copy_statement. set (files := comma_list _). set (head := str "COPY LITTLE ENDIAN BINARY INTO ").
  assert (∀ body, body = head ++ target ++ columns ++ str " FROM " ++ files →
    match rev body with
    | quote :: rest => if quote =? 39 then match dec_value (rev (take_while is_ascii_digit rest)) with Some i => S (Z.to_nat i) | None => 0%nat end else 0%nat
    | [] => 0%nat
    end = n) as Hbody.
  { intros body ->. destruct n as [|n].
    - unfold files. cbn [seq fmap list_fmap comma_list join]. rewrite app_nil_r, !rev_app_distr, <- !app_assoc. done.
    - unfold files. rewrite seq_S, fmap_app. cbn [fmap list_fmap Nat.add].
      destruct (comma_list_last ((λ index, str "'c" ++ fmt_int (Z.of_nat index) ++ str "'") <$> seq 0 n)
        (str "'c" ++ fmt_int (Z.of_nat n) ++ str "'")) as [pre ->].
      rewrite !rev_app_distr, <- !app_assoc. change (rev (str "'")) with [39]. cbn [app]. rewrite Z.eqb_refl.
      change (rev (str "'c")) with [99; 39]. cbn [app]. unfold fmt_int. rewrite (proj2 (Z.ltb_ge _ 0)) by lia.
      rewrite take_while_app; [|apply Forall_rev, dec_digits_digits; lia|done].
      rewrite rev_involutive, dec_value_digits by lia. by rewrite Nat2Z.id. }
  destruct wire.
  - assert (strip_suffix (str " ON CLIENT") (head ++ target ++ columns ++ str " FROM " ++ files ++ str " ON 'lz4' CLIENT") = None) as ->.
    { unfold strip_suffix, strip_prefix, starts_with. rewrite !rev_app_distr, <- !app_assoc.
      change (rev (str " ON 'lz4' CLIENT")) with (rev (str " CLIENT") ++ rev (str " ON 'lz4'")). by rewrite bool_decide_eq_false_2. }
    replace (head ++ target ++ columns ++ str " FROM " ++ files ++ str " ON 'lz4' CLIENT")
      with ((head ++ target ++ columns ++ str " FROM " ++ files) ++ str " ON 'lz4' CLIENT") by (by rewrite <- !app_assoc).
    rewrite strip_suffix_app. by apply Hbody.
  - replace (head ++ target ++ columns ++ str " FROM " ++ files ++ str " ON CLIENT")
      with ((head ++ target ++ columns ++ str " FROM " ++ files) ++ str " ON CLIENT") by (by rewrite <- !app_assoc).
    rewrite strip_suffix_app. by apply Hbody.
Qed.

Lemma toy_dialog_well_behaved d d' files rows : well_behaved (toy_dialog d d' files rows).
Proof. revert rows. induction files as [|file files IH]; intros rows; [done|]. cbn. split; [intros; apply IH|eauto]. Qed.

Lemma toy_dialog_path d d' names rows files r d2 :
  dialog_path (toy_dialog d d' names rows) files (Ok r) d2 → files.*1 = names.
Proof.
  revert rows files. induction names as [|name names IH]; intros rows files Hp; cbn in Hp; inversion Hp; subst; [done|].
  cbn. f_equal. by eapply IH.
Qed.

#[global] Instance toy_copy_laws : CopyLaws toy.
Proof.
  split.
  - intros d q. cbn. destruct (toy_aborted d); [done|]. apply toy_dialog_well_behaved.
  - intros d target columns n wire files rows d' Hp. cbn in Hp. destruct (toy_aborted d); [by inversion Hp|].
    apply toy_dialog_path in Hp as ->. by rewrite toy_file_count_copy.
Qed.

#[global] Instance toy_bool_cells : BoolCells toy_row := {| cell_bool r i := Ok ((λ text, bool_decide (text = str "true")) <$> mjoin (r !! i)) |}.
#[global] Instance toy_upload_limits : UploadLimits := {| DEFAULT_UPLOAD_CHUNK_SIZE_BYTES := 1024 * 1024; MAPI_BLOCK_SIZE_BYTES := 8190 |}.

Definition quiet_env : IngestEnv :=
  mkEnv (λ look, Z.of_nat look) (λ _, false) (mkSystemMemory (λ _, None) 0 0) 0 None (λ now timeout, Some (now + timeout)).

Definition id_schema : list Field := [mkField (str "id") DInt64 true ∅].
Definition id_batch (ids : list Z) : RecordBatch := mkRecordBatch id_schema [APrimitive DInt64 ids None] (length ids).

(** A statement that ingests a stream into the table t, with a limit of time. *)
Definition ingest_statement (mode : bytes) (insert_rows : Z) (items : list (res Error RecordBatch)) : OptionedStatement :=
  mkOptioned
    (mkStatement None None 2 false (Some (mkBound id_schema items)) false None None None None None None)
    (with_wire_compression (with_ingest_insert_rows (default_tuning (mkTimeouts None None (Some 1000))) insert_rows) WC_None)
    (<[name_ingest_mode := OString mode]> (<[name_target_table := OString (str "t")]> ∅)) false 0 None None.

Lemma ingest_statement_tuned mode n items : 0 ≤ n ≤ i64_max → tuning_ok (os_tuning (ingest_statement mode n items)).
Proof. intros Hn. destruct (default_tuning_ok (mkTimeouts None None (Some 1000))). by split. Qed.

Definition id_stream : list (res Error RecordBatch) := [Ok (id_batch [1; 2; 3]); Ok (id_batch [4; 5])].

Lemma id_batch_wf ids : batch_wf id_schema (id_batch ids).
Proof. split; [done|]. constructor; [done|constructor]. Qed.

Lemma id_stream_ok : reader_ok id_stream.
Proof. constructor; [apply (id_batch_wf [1; 2; 3])|constructor; [apply (id_batch_wf [4; 5])|constructor]]. Qed.

(** Two batches into a new table, in one window. *)
Lemma ingest_delivers_witness :
  let st := ingest_statement MODE_CREATE 0 id_stream in
  let '(r, _, copies, d') := ingest (row := toy_row) fmt_decode_error 1 quiet_env st false (toy_driver true) in
  r = Ok (Some 5) ∧ length copies = 1%nat ∧ delivered_by id_schema id_stream copies (sent (session d')).
Proof.
  intros st. assert (tuning_ok (os_tuning st)) as Ht by (by apply ingest_statement_tuned).
  assert (Z.of_nat (length id_schema) ≤ usize_max) as Hl by done.
  assert (let x := ingest (row := toy_row) fmt_decode_error 1 quiet_env st false (toy_driver true) in
          x.1.1.1 = Ok (Some 5) ∧ length x.1.2 = 1%nat) as Hv by (by vm_compute).
  pose proof (λ d' n stats copies, ingest_delivers (row := toy_row) fmt_decode_error 1 quiet_env st false (toy_driver true) d'
    (mkBound id_schema id_stream) n stats copies eq_refl id_stream_ok Ht Hl) as Hd. clearbody st.
  destruct (ingest _ _ _ st _ _) as [[[r stats] copies] d']. cbn [fst snd] in Hv. destruct Hv as [-> Hc].
  destruct (Hd d' (Some 5) stats copies eq_refl) as (_ & _ & Hdel). split; [reflexivity|]. split; [exact Hc|exact Hdel].
Defined.

(** The loop over one window, with time to spare and with the time over. *)
Lemma copy_loop_ends_witness :
  let t := os_tuning (ingest_statement MODE_CREATE 0 id_stream) in
  let loop deadline p := copy_windows quiet_env (S (rows_left (prefetch_scheduler p)))
    (copy_statement (str "t") [] 1) id_schema false (timeouts t) (Some deadline) 0 p
    (mkRun (toy_driver true) no_stats false 1 0 []) in
  match
    (let '(budget, physical, incompressible) := write_window_budgets (write_window_bytes t) None 0 1 in
     start_ingest_window_prefetch quiet_env id_stream id_schema budget physical incompressible (write_batch_rows t)
       (Options.wire_compression t))
  with
  | Ok p =>
      fst <$> (loop 1000 p).1 = Ok (Ok 5) ∧ fst <$> (loop 0 p).1 = Ok (Err (error "ingest operation timeout expired" Timeout)) ∧
      (length (run_copies (loop 1000%Z p).2) ≤ 5)%nat
  | _ => False
  end.
Proof.
  intros t loop. destruct (let '(_, _, _) := _ in _) as [p| |] eqn:E; [|by vm_compute in E..].
  destruct (copy_loop_ends quiet_env t 0 id_stream id_schema (str "t") [] false (Some 1000) p
    (mkRun (toy_driver true) no_stats false 1 0 [])) as (result & p' & s' & Hl & _ & Hc);
    [by apply ingest_statement_tuned|exact id_stream_ok|done|exact E|].
  split_and!; [by vm_compute in E; injection E as <-; vm_compute..|].
  change (loop 1000 p = (Ok (result, p'), s')) in Hl. rewrite Hl. exact Hc.
Defined.

(** ** A failed ingest *)

Lemma toy_dialog_ends d d1 files rows d' : dialog_end (toy_dialog d d1 files rows) d' → d' = d1 ∨ d' = toy_abort d.
Proof.
  revert rows. induction files as [|file files IH]; intros rows He; cbn in He; inversion He as [|? ? answer ? Hn]; subst; [by left|].
  destruct answer as [chunks|e|]; [by eapply IH|inversion Hn; by right..].
Qed.

Lemma toy_parse_savepoints q name :
  q ∈ [savepoint_sql name; release_sql name; rollback_to_sql name] →
  toy_parse q = ToySavepoint name ∨ toy_parse q = ToyRelease name ∨ toy_parse q = ToyRollbackTo name.
Proof.
  rewrite !elem_of_cons. intros [->|[->|[->|Hq%not_elem_of_nil]]]; [| | |done].
  - left. apply toy_parse_opens.
  - right. left. apply toy_parse_release.
  - right. right. apply toy_parse_rollback_to.
Qed.

#[global] Instance toy_ingest_laws : IngestLaws toy toy_row (list bytes).
Proof.
  split.
  - intros d q d' [= Ha] He. cbn in He. destruct (toy_aborted d); [inversion He; subst; split_and!; cbn; rewrite ?Ha; done|].
    apply toy_dialog_ends in He as [->| ->]; split_and!; cbn; rewrite ?Ha; done.
  - intros d q r d' [= Ha] He. cbn in He. unfold toy_rows in He. destruct (_ || _); injection He as <- <-; split_and!; cbn; rewrite ?Ha; done.
  - intros d id r d' [= Ha] He. cbn in He. unfold toy_execute in He. rewrite toy_parse_deallocate in He.
    destruct (toy_aborted d); injection He as <- <-; split_and!; cbn; rewrite ?Ha; done.
  - intros d q name r d' [= Ha] Hq He. cbn in He. unfold toy_execute in He.
    destruct (toy_parse_savepoints q name Hq) as [Hp|[Hp|Hp]]; rewrite Hp in He; repeat (case_match; simplify_eq/=);
      split_and!; cbn; rewrite ?Ha; try done. intros other Hne. by rewrite bool_decide_eq_false_2 by congruence.
  - intros d q r d' He. cbn in He. by injection He as _ <-.
Qed.

Lemma toy_parse_data p l :
  p ∈ str <$> ["CREATE LOCAL TEMPORARY TABLE "; "INSERT INTO "; "DROP TABLE "]%string → toy_parse (p ++ l) = ToyOther.
Proof.
  rewrite !fmap_cons, !elem_of_cons. intros [->|[->|[->|Hp%not_elem_of_nil]]]; [| | |done];
    unfold toy_parse; rewrite !bool_decide_eq_false_2 by done; unfold strip_prefix; by rewrite !bool_decide_eq_false_2 by done.
Qed.

Lemma toy_stage_harmless (s s' : Session toy) schema destination target stage :
  constrained_append_stage 1 schema destination target s = (Ok stage, s') →
  harmless (stage_create stage) ∧ harmless (stage_move_to_target stage) ∧ harmless (stage_drop stage).
Proof.
  unfold constrained_append_stage. intros (name & s1 & _ & Hr)%tx_bind_inv.
  apply tx_bind_inv in Hr as (quoted & s2 & _ & Hr). apply tx_bind_inv in Hr as (qualified & s3 & _ & Hr).
  apply tx_bind_inv in Hr as (source & s4 & _ & Hr). apply tx_bind_inv in Hr as (dest & s5 & _ & Hr).
  apply tx_bind_inv in Hr as (columns & s6 & _ & Hr). unfold mret, tx_ret in Hr.
  assert (stage = mkStage qualified
    (str "CREATE LOCAL TEMPORARY TABLE " ++ quoted ++ str " (" ++ comma_list columns ++ str ") ON COMMIT PRESERVE ROWS")
    (str "INSERT INTO " ++ target ++ str " (" ++ dest ++ str ") SELECT " ++ source ++ str " FROM " ++ qualified)
    (str "DROP TABLE " ++ qualified)) as -> by congruence.
  split_and!; apply toy_parse_data; repeat (first [by left|right]).
Qed.

Definition broken_statement : OptionedStatement :=
  ingest_statement MODE_CREATE 0 [Ok (id_batch [1; 2; 3]); Err (error "lost" IO)].

Lemma broken_plan_harmless plan :
  plan_ingest broken_statement (mkBound id_schema [Ok (id_batch [1; 2; 3]); Err (error "lost" IO)]) (str "t") = Ok plan →
  plan_harmless (db := toy) 1 plan.
Proof.
  intros Hp. vm_compute in Hp. injection Hp as <-. split.
  - split; by vm_compute.
  - intros s s' destination stage. apply toy_stage_harmless.
  - done.
Qed.


(** The same in a transaction of the caller, which goes on as it was. *)
Lemma failed_ingest_not_committed_witness :
  let '(r, _, d') := update_ingest (row := toy_row) fmt_decode_error 1 quiet_env broken_statement (toy_driver false) in
  r = Err (error "lost" IO) ∧
  (toy_current (server (session d')) = [str "a"] ∨ mentions "transaction recovery also failed" (error "lost" IO) ∨
   ∃ refusal, commit (session d') = (Err refusal, settled (session d')) ∧ error_sqlstate refusal = str "25000").
Proof.
  assert (let x := update_ingest (row := toy_row) fmt_decode_error 1 quiet_env broken_statement (toy_driver false) in
          x.1.1 = Err (error "lost" IO) ∧ is_Some (os_ingest_stats x.1.2)) as Hv by (vm_compute; eauto).
  assert (ingest_mode_of broken_statement ≠ MODE_APPEND) as Hm by (by vm_compute).
  pose proof (λ os' d' stats, failed_ingest_not_committed (row := toy_row) fmt_decode_error 1 quiet_env broken_statement
    (toy_driver false) d' os' (mkBound id_schema [Ok (id_batch [1; 2; 3]); Err (error "lost" IO)]) (str "t") (error "lost" IO) stats
    eq_refl eq_refl broken_plan_harmless Hm eq_refl (λ _, eq_refl)) as Hf.
  destruct (update_ingest _ _ _ broken_statement _) as [[r os'] d']. cbn [fst snd] in Hv. destruct Hv as [-> [text Ht]].
  split; [reflexivity|exact (Hf os' d' text eq_refl Ht)].
Defined.
