(* ===== verification/ParameterReader.v ===== *)
(** Readers over batches ([crates/adbc-monetdb/src/driver.rs]): the trait
    [RecordBatchReader], the reader over the results of several parameter rows
    ([ParameterQueryReader]), the reader of a single batch and the statistics of
    reads ([ReadStats]).

    The reader over parameter rows executes the query of a row when the result
    of the row before is exhausted.  It works on the driver's state, as the
    queries do; a panic inside it is caught and ends it. *)

From stdpp Require Import base list numbers strings gmap.
From S2P Require Import Prelude RustStd Types Calendar ArrowData Decode Errors SqlScan Template PreparedCache Ingest Transactions Prepare ParameterBatch Statement ReadPath IngestMemory.
Local Open Scope Z_scope.

(** ** The trait *)

(** What a consumer sees of a reader.  An item [Panic] is an unwinding. *)
Class RecordBatchReader (reader : Type) := {
  reader_schema : reader → list Field;
  reader_next : reader → option (res ReadError RecordBatch) * reader;
}.

(** [SingleBatchReader]. *)
Record SingleBatchReader : Type := mkSingle { single_batch : option RecordBatch; single_schema : list Field }.

Definition single_new (batch : RecordBatch) : SingleBatchReader := mkSingle (Some batch) (batch_schema batch).

Definition single_next (r : SingleBatchReader) : option (res ReadError RecordBatch) * SingleBatchReader :=
  (Ok <$> single_batch r, mkSingle None (single_schema r)).

#[global] Instance single_batch_reader : RecordBatchReader SingleBatchReader := {|
  reader_schema := single_schema; reader_next := single_next |}.

(** The readers of one result. *)
Section statement_readers.
Context {cursor : Type} `{!ResultCursor cursor} `{Arrow}.

Definition statement_schema (r : StatementReader (cursor := cursor)) : list Field :=
  match r with
  | EmptyReader schema => schema
  | SlicedReader r => batch_schema (sl_batch r)
  | PrefetchReader r => pr_schema r
  | DirectReader r => br_schema r
  end.

Definition statement_next (r : StatementReader (cursor := cursor))
    : option (res ReadError RecordBatch) * StatementReader (cursor := cursor) :=
  match r with
  | EmptyReader schema => (None, EmptyReader schema)
  | SlicedReader r => let '(item, r) := sliced_next r in (Ok <$> item, SlicedReader r)
  | PrefetchReader r => let '(item, r) := prefetched_next r in (item, PrefetchReader r)
  | DirectReader r => let '(item, r) := binary_next r in (item, DirectReader r)
  end.

#[global] Instance statement_batch_reader : RecordBatchReader (StatementReader (cursor := cursor)) := {|
  reader_schema := statement_schema; reader_next := statement_next |}.
End statement_readers.

(** [PrefixedBatchReader]: batches taken off a reader, and the reader. *)
Record PrefixedBatchReader {reader : Type} : Type := mkPrefixed {
  prefixed_schema : list Field;
  prefix : list RecordBatch;
  prefixed_reader : reader;
}.
Arguments PrefixedBatchReader : clear implicits.
Arguments mkPrefixed {reader}.

Section prefixed.
Context {reader : Type} `{!RecordBatchReader reader}.

Definition prefixed_next (r : PrefixedBatchReader reader) : option (res ReadError RecordBatch) * PrefixedBatchReader reader :=
  match prefix r with
  | batch :: batches => (Some (Ok batch), mkPrefixed (prefixed_schema r) batches (prefixed_reader r))
  | [] => let '(item, inner) := reader_next (prefixed_reader r) in (item, mkPrefixed (prefixed_schema r) [] inner)
  end.

#[global] Instance prefixed_batch_reader : RecordBatchReader (PrefixedBatchReader reader) := {|
  reader_schema := prefixed_schema; reader_next := prefixed_next |}.
End prefixed.

(** How metadata queries read: windows of a fixed number of rows, no
    prefetching. *)
Definition METADATA_READ_BATCH_ROWS : Z := 131072.
Definition metadata_read_options : ReadExecutionOptions := mkReadOptions METADATA_READ_BATCH_ROWS None false 0.

(** ** The stream of queries as an iterator *)

(** Where a stream is after [next] gave an error: behind the row that could not
    be rendered, or at its end. *)
Fixpoint bound_failed (b : BoundQueryStream) `{ArrowStream} (reader : list (res Error RecordBatch)) (batch : option RecordBatch)
    (next_row : nat) : BoundQueryStream :=
  let refill :=
    match reader with
    | [] => set_position b [] batch next_row true
    | Ok next :: reader =>
        if bool_decide (batch_schema next = bs_schema b) && is_ok (validate_record_batch next)
        then bound_failed b reader (Some next) 0
        else set_position b reader batch next_row true
    | _ :: reader => set_position b reader batch next_row true
    end in
  match batch with
  | Some current =>
      if (next_row <? batch_rows current)%nat then set_position b reader batch (S next_row) false else refill
  | None => refill
  end.

Section parameter_rows.
Context {db row reader : Type} `{!Server db, !Rows db row, MapiCodes, CursorDisplay, Unicode, ArrowStream, SqlFormat, Chrono}.
Context `{!RecordBatchReader reader}.
Context (decode_error_text : DecodeError → bytes) (pid : Z) (open_reply : Reply → res Error (reader * option Z)).

(** [Iterator::next] of the stream: an error is an item. *)
Definition stream_next (b : BoundQueryStream) : dx db (option (res Error BoundQuery) * BoundQueryStream) :=
  next ← try_dx (bound_next b);
  match next with
  | Ok (query, b) => mret (Ok <$> query, b)
  | Err e => mret (Some (Err e), bound_failed b (bs_reader b) (bs_batch b) (bs_next_row b))
  | Panic => pure_dx Panic
  end.

(** ** The reader over parameter rows *)

Record ParameterQueryReader : Type := mkParameterReader {
  pq_queries : BoundQueryStream;
  pq_current : option reader;
  pq_schema : list Field;
  pq_finished : bool;
}.

(** [ArrowError]: external, of the result's reader, of the schema, or a panic. *)
Inductive ParameterError : Type :=
| PE_Reader (e : ReadError)
| PE_Query (e : Error)
| PE_Schema
| PE_Panicked.

Definition item : Type := res ParameterError RecordBatch.

(** [next_inner]: a round ends with an item or the end, or opens the result of
    the next row.  The rounds are one more than the rows that are left. *)
Fixpoint parameter_loop (fuel : nat) (r : ParameterQueryReader) : dx db (option item * ParameterQueryReader) :=
  match fuel with
  | O => pure_dx Panic
  | S fuel =>
      let refill :=
        '(next, queries) ← stream_next (pq_queries r);
        let r := mkParameterReader queries None (pq_schema r) (pq_finished r) in
        match next with
        | None => mret (None, r)
        | Some Panic => pure_dx Panic
        | Some (Err e) => mret (Some (Err (PE_Query e)), r)
        | Some (Ok query) =>
            opened ← try_dx (bound_query_reader_with_retry (row := row) decode_error_text pid open_reply query);
            match opened with
            | Panic => pure_dx Panic
            | Err e => mret (Some (Err (PE_Query e)), r)
            | Ok current =>
                if bool_decide (reader_schema current = pq_schema r)
                then parameter_loop fuel (mkParameterReader queries (Some current) (pq_schema r) (pq_finished r))
                else mret (Some (Err PE_Schema), r)
            end
        end in
      match pq_current r with
      | Some current =>
          match reader_next current with
          | (Some Panic, _) => pure_dx Panic
          | (Some batch, current) =>
              mret (Some (map_err PE_Reader batch), mkParameterReader (pq_queries r) (Some current) (pq_schema r) (pq_finished r))
          | (None, _) => refill
          end
      | None => refill
      end
  end.

Definition parameter_next_inner (r : ParameterQueryReader) : dx db (option item * ParameterQueryReader) :=
  if pq_finished r then mret (None, r) else parameter_loop (S (S (bound_left (pq_queries r)))) r.

(** [next]: an unwinding becomes an error and ends the reader. *)
Definition parameter_next (r : ParameterQueryReader) : dx db (option item * ParameterQueryReader) := λ d,
  match parameter_next_inner r d with
  | (Panic, d) =>
      (Ok (Some (Err PE_Panicked), mkParameterReader (pq_queries r) (pq_current r) (pq_schema r) true), d)
  | result => result
  end.

(** A consumer that stops at the first error; [Panic] when the fuel is used up. *)
Fixpoint parameter_run (fuel : nat) (r : ParameterQueryReader) : dx db (list item) :=
  match fuel with
  | O => pure_dx Panic
  | S fuel =>
      '(next, r) ← parameter_next r;
      match next with
      | None => mret []
      | Some (Ok batch) => rest ← parameter_run fuel r; mret (Ok batch :: rest)
      | Some e => mret [e]
      end
  end.

(** The reader that [parameter_query_reader] opened. *)
Definition parameter_reader (queries : BoundQueryStream) (current : reader) (schema : list Field) : ParameterQueryReader :=
  mkParameterReader queries (Some current) schema false.
End parameter_rows.
Arguments ParameterQueryReader : clear implicits.

(** ** Statistics of reads *)

Record ReadStats : Type := mkReadStats {
  read_window_budget_bytes : Z;
  read_exact_batch_rows : Z;
  initial_estimated_bytes_per_row : Z;
  observed_bytes_per_row : list Z;
  read_window_rows : list Z;
  read_window_bytes : list Z;
  window_capacity_bytes : list Z;
  window_adopted : list bool;
  prefetch_engaged : bool;
  recycled_buffers : Z;
}.

Definition read_stats_new (s : ReadWindowScheduler) (prefetch : bool) : ReadStats :=
  mkReadStats (ReadPath.window_budget_bytes s) (default 0 (exact_batch_rows s)) (estimated_bytes_per_row s) [] [] [] [] [] prefetch 0.

(** [record_window]; a window without rows has no size per row. *)
Definition read_stats_record (st : ReadStats) (rows bytes capacity : Z) (adopted : bool) : ReadStats :=
  mkReadStats (read_window_budget_bytes st) (read_exact_batch_rows st) (initial_estimated_bytes_per_row st)
    (observed_bytes_per_row st
     ++ (if rows =? 0 then [] else [saturating_add bytes (saturating_sub rows 1) / rows]))
    (read_window_rows st ++ [rows]) (read_window_bytes st ++ [bytes]) (window_capacity_bytes st ++ [capacity])
    (window_adopted st ++ [adopted]) (prefetch_engaged st) (recycled_buffers st).

Definition read_stats_json (st : ReadStats) : bytes :=
  let number key n := quoted_key key ++ fmt_int n in
  let array key items := quoted_key key ++ [91] ++ json_list items ++ [93] in
  let truth (b : bool) := str (if b then "true" else "false") in
  [123]
  ++ json_list
       [number "windows_fetched" (len (read_window_rows st)); number "window_budget_bytes" (read_window_budget_bytes st);
        number "exact_batch_rows" (read_exact_batch_rows st);
        number "initial_estimated_bytes_per_row" (initial_estimated_bytes_per_row st);
        array "observed_bytes_per_row" (fmt_int <$> observed_bytes_per_row st);
        array "window_rows" (fmt_int <$> read_window_rows st); array "window_bytes" (fmt_int <$> read_window_bytes st);
        array "window_capacity_bytes" (fmt_int <$> window_capacity_bytes st);
        array "window_adopted" (truth <$> window_adopted st);
        quoted_key "prefetch_engaged" ++ truth (prefetch_engaged st); number "recycled_buffers" (recycled_buffers st)]
  ++ [125].
