(* ===== verification/ParameterReaderProofs.v ===== *)
(** Reading the results of several parameter rows: the reader returns the batches
    of the result of every row, row after row, and ends. *)

From stdpp Require Import base list numbers strings gmap.
From S2P Require Import Prelude RustStd Types Calendar ArrowData Decode Errors SqlScan Template PreparedCache Ingest StreamProofs Transactions TransactionsProofs AtomicProofs Prepare PrepareProofs ParameterBatch ParameterBatchProofs Statement ReadPath ReadPathProofs ParameterReader.
Local Open Scope Z_scope.

(** ** What a reader returns *)

(** The items of a reader up to its end. *)
Inductive returns {reader} `{!RecordBatchReader reader} : reader → list (res ReadError RecordBatch) → Prop :=
| returns_end r r' : reader_next r = (None, r') → returns r []
| returns_item r r' x items : reader_next r = (Some x, r') → returns r' items → returns r (x :: items).

(** Putting batches back in front of a reader gives the reader as it was. *)
Lemma prefixed_returns {reader} `{!RecordBatchReader reader} schema batches (r : reader) items :
  returns r items → returns (mkPrefixed schema batches r) ((Ok <$> batches) ++ items).
Proof.
  intros Hr. induction batches as [|batch batches IH]; [|by eapply returns_item].
  cbn. induction Hr as [r r' Hn|r r' x items Hn _ IH].
  - eapply returns_end. cbn. unfold prefixed_next. cbn. by rewrite Hn.
  - eapply returns_item; [|exact IH]. cbn. unfold prefixed_next. cbn. by rewrite Hn.
Qed.

Lemma returns_det {reader} `{!RecordBatchReader reader} (r : reader) items items' :
  returns r items → returns r items' → items = items'.
Proof.
  intros Hr. revert items'. induction Hr as [r r1 E|r r1 x items E _ IH]; intros items' Hi;
    destruct Hi as [r2 r3 E2|r2 r3 y rest E2 Hrest]; rewrite E in E2; simplify_eq; [done|]. f_equal. by apply IH.
Qed.

Lemma single_returns batch : returns (single_new batch) [Ok batch].
Proof. eapply returns_item; [done|]. by eapply returns_end. Qed.

(** The readers of one result return what a consumer collects from them. *)
Section statement_readers.
Context {cursor : Type} `{!ResultCursor cursor} `{Arrow}.

Lemma sliced_returns fuel (r : SlicedBatchReader) items r' :
  sliced_run fuel r = Ok (items, r') → returns (SlicedReader (cursor := cursor) r) (Ok <$> items).
Proof.
  revert r items. induction fuel as [|fuel IH]; intros r items; [done|]. cbn [sliced_run].
  destruct (sliced_next r) as [[item|] r1] eqn:E.
  - intros ([items' r2] & Hr & [= <- <-])%bind_ok. eapply returns_item; [|by apply IH]. cbn. by rewrite E.
  - intros [= <- <-]. eapply returns_end. cbn. by rewrite E.
Qed.

Lemma prefetched_returns fuel (r : PrefetchedBinaryReader) items r' :
  prefetched_run fuel r = Ok (items, r') → returns (PrefetchReader (cursor := cursor) r) items.
Proof.
  revert r items. induction fuel as [|fuel IH]; intros r items; [done|]. cbn [prefetched_run].
  destruct (prefetched_next r) as [[item|] r1] eqn:E.
  - intros ([items' r2] & Hr & [= <- <-])%bind_ok. eapply returns_item; [|by apply IH]. cbn. by rewrite E.
  - intros [= <- <-]. eapply returns_end. cbn. by rewrite E.
Qed.

Lemma binary_returns fuel (r : BinaryReader cursor) items r' :
  binary_run fuel r = Ok (items, r') → returns (DirectReader r) items.
Proof.
  revert r items. induction fuel as [|fuel IH]; intros r items; [done|]. cbn [binary_run].
  destruct (binary_next r) as [[item|] r1] eqn:E.
  - intros ([items' r2] & Hr & [= <- <-])%bind_ok. eapply returns_item; [|by apply IH]. cbn. by rewrite E.
  - intros [= <- <-]. eapply returns_end. cbn. by rewrite E.
Qed.

Lemma read_all_returns fuel (r : StatementReader (cursor := cursor)) items : read_all fuel r = Ok items → returns r items.
Proof.
  destruct r as [schema|r|r|r]; cbn [read_all].
  - intros [= <-]. by eapply returns_end.
  - destruct (sliced_run fuel r) as [[batches r']| |] eqn:E; [|done..]. intros [= <-]. by eapply sliced_returns.
  - destruct (prefetched_run fuel r) as [[batches r']| |] eqn:E; [|done..]. intros [= <-]. by eapply prefetched_returns.
  - destruct (binary_run fuel r) as [[batches r']| |] eqn:E; [|done..]. intros [= <-]. by eapply binary_returns.
Qed.
End statement_readers.

(** ** The rows that are left *)

Section parameter_rows.
Context {db row reader : Type} `{!Server db, !Rows db row, MapiCodes, CursorDisplay, Unicode, ArrowStream, SqlFormat, Chrono}.
Context `{!RecordBatchReader reader}.
Context (decode_error_text : DecodeError → bytes) (pid : Z) (open_reply : Reply → res Error (reader * option Z)).
Implicit Types d : Driver db.

(** Rows a reader of batches may still give. *)
Definition reader_left (l : list (res Error RecordBatch)) : nat :=
  foldr Nat.add 0%nat ((λ r : res Error RecordBatch, match r with Ok b => batch_rows b | _ => 0%nat end) <$> l).

(** The queries left, exactly: rows already given are not counted. *)
Definition queries_left (b : BoundQueryStream) : nat :=
  (length (bs_pending b) +
   if bs_finished b then 0 else from_option (λ batch, batch_rows batch - bs_next_row b) 0 (bs_batch b) + reader_left (bs_reader b))%nat.

Lemma queries_left_bound b : (queries_left b ≤ bound_left b)%nat.
Proof. unfold queries_left, bound_left, reader_left. destruct (bs_finished b); [lia|]. destruct (bs_batch b); cbn; lia. Qed.

Lemma bound_loop_left b reader' batch next_row d q b' d' :
  bs_pending b = [] → bound_loop b reader' batch next_row d = (Ok (Some q, b'), d') →
  (S (queries_left b') ≤ from_option (λ batch, batch_rows batch - next_row) 0 batch + reader_left reader')%nat.
Proof.
  intros Hp. revert batch next_row. induction reader' as [|item reader' IH]; intros batch next_row Hl;
    match type of Hl with bound_loop _ ?l _ _ _ = _ =>
      destruct (bound_loop_cases (db := db) d b l batch next_row) as [(b0 & -> & Hrow)|[_ E]]; [|rewrite E in Hl] end.
  2: done.
  3: { destruct item as [b1|e|]; [|done..]. destruct (negb _); [done|]. unfold mbind, dx_bind, pure_dx in Hl.
       destruct (validate_record_batch b1) as [[]| |]; [|done..]. apply IH in Hl.
       change (reader_left (Ok b1 :: reader')) with (batch_rows b1 + reader_left reader')%nat. cbn [from_option] in Hl. lia. }
  all: cbn [bound_loop] in Hl; rewrite (proj2 (Nat.ltb_lt _ _)) in Hl by done; unfold mbind, dx_bind in Hl;
    destruct (bound_row b b0 next_row d) as [[x|e|] d1]; [|done..]; injection Hl as <- <- <-;
    unfold queries_left; cbn; rewrite Hp; cbn; lia.
Qed.

(** A query is one less; reading the stream changes nothing. *)
Lemma stream_next_left b d next b' d' :
  stream_next b d = (Ok (next, b'), d') →
  d' = d ∧ next ≠ Some Panic ∧ ∀ q, next = Some (Ok q) → (S (queries_left b') ≤ queries_left b)%nat.
Proof.
  unfold stream_next, mbind, dx_bind, try_dx. destruct (bound_next_reads b d) as [Hs _].
  destruct (bound_next b d) as [[[next0 b0]|e|] d0] eqn:E; cbn in Hs; subst d0; [|by intros [= <- <- <-]; split_and!..|done].
  intros [= <- <- <-]. split_and!; [done|by destruct next0|]. intros q Hq. destruct next0 as [q0|]; [|done].
  unfold bound_next in E. destruct (bs_pending b) as [|q1 pending] eqn:Hp.
  - destruct (bs_finished b) eqn:Hf; [done|]. apply bound_loop_left in E; [|done]. unfold queries_left at 2. by rewrite Hp, Hf.
  - injection E as <- <-. unfold queries_left, set_pending. cbn [bs_pending bs_finished bs_batch bs_reader bs_next_row].
    rewrite Hp. cbn [length]. lia.
Qed.

(** ** Where readers come from *)

(** Every value of a computation has a property. *)
Definition gives {A} (P : A → Prop) (m : dx db A) : Prop := ∀ d a d', m d = (Ok a, d') → P a.

Lemma gives_bind {A B} (Q : A → Prop) (P : B → Prop) (m : dx db A) (f : A → dx db B) :
  gives Q m → (∀ a, Q a → gives P (f a)) → gives P (m ≫= f).
Proof.
  intros Hm Hf d b d'. unfold mbind, dx_bind. destruct (m d) as [[a|e|] d1] eqn:E; [|done..]. apply (Hf a); eauto.
Qed.
Lemma gives_any {A} (m : dx db A) : gives (λ _, True) m.
Proof. done. Qed.
Lemma gives_after {A B} (P : B → Prop) (m : dx db A) (f : A → dx db B) : (∀ a, gives P (f a)) → gives P (m ≫= f).
Proof. intros Hf. eapply gives_bind; [apply gives_any|auto]. Qed.
Lemma gives_try {A} (P : A → Prop) (m : dx db A) :
  gives P m → gives (λ r, match r with Ok a => P a | Err _ => True | Panic => False end) (try_dx m).
Proof.
  intros Hm d r d'. unfold try_dx. destruct (m d) as [[a|e|] d1] eqn:E; intros [= <- <-]; [by eapply Hm|done].
Qed.

Definition opened (result : reader * option Z) : Prop := ∃ reply, open_reply reply = Ok result.

Lemma query_result_opened sql : gives opened (on_session (query_result open_reply sql)).
Proof.
  intros d result d'. unfold on_session, query_result, mbind, tx_bind, lift.
  destruct (execute_query sql (session d)) as [[reply|e|] s1]; [|done..]. destruct (open_reply reply) eqn:E; intros [= <- <-]. by exists reply.
Qed.

Lemma unverified_opened query : gives opened (execute_unverified_prepared_result pid open_reply query).
Proof.
  unfold execute_unverified_prepared_result. apply gives_after. intros invocation. apply gives_after. intros d0.
  apply gives_after. intros autocommit. destruct (negb autocommit); [apply gives_after; intros sql; apply query_result_opened|].
  apply gives_after. intros savepoint. eapply gives_bind; [apply gives_try, query_result_opened|]. intros [result|value|] Hr; [| |done].
  { apply gives_after. intros []. apply gives_after. intros []. by intros d1 a d2 [= <- <-]. }
  destruct (negb _); [by intros d1 a d2|]. apply gives_after. intros [[]|recovery|]; [|by intros d1 a d2..].
  apply gives_after. intros [literal candidate]. eapply gives_bind; [apply gives_try, query_result_opened|]. intros result Hl.
  destruct (with_bound_query_diagnostic result literal) as [r|e|] eqn:E; [| |by intros d1 a d2].
  - assert (result = Ok r) as -> by (unfold with_bound_query_diagnostic, map_err in E; destruct result; congruence).
    apply gives_after. intros []. apply gives_after. intros demoted. by intros d1 a d2 [= <- <-].
  - apply gives_after. intros [[]|recovery|]; [|by intros d1 a d2..]. apply gives_after.
    intros [x|recovery|]; intros d1 a d2; repeat case_match; done.
Qed.

Lemma reader_opened query : gives (λ r, ∃ n, opened (r, n)) (bound_query_reader_with_retry (row := row) decode_error_text pid open_reply query).
Proof.
  unfold bound_query_reader_with_retry. apply gives_after. intros q. apply gives_after. intros unverified.
  eapply (gives_bind (λ r, match r with Ok a => opened a | Err _ => True | Panic => False end)).
  { apply gives_try. destruct unverified; [apply unverified_opened|apply query_result_opened]. }
  intros [[r n]|value|] Hr; [| |done].
  - intros d a d'. unfold pure_dx, with_bound_query_diagnostic. cbn. intros [= <- <-]. by exists n.
  - destruct (_ && _); [|by intros d a d' [= ?]]. apply gives_after. intros []. apply gives_after. intros autocommit.
    destruct (negb autocommit); [by intros d a d'|]. apply gives_after. intros retry.
    eapply gives_bind; [apply query_result_opened|]. intros [r n] Ho d a d' [= <- <-]. by exists n.
Qed.

(** ** The rows of all results *)

(** What a consumer gets of the items of one result, and whether it goes on. *)
Fixpoint delivered (results : list (res ReadError RecordBatch)) : list item * bool :=
  match results with
  | [] => ([], true)
  | Ok batch :: results => let '(items, more) := delivered results in (Ok batch :: items, more)
  | Err e :: _ => ([Err (PE_Reader e)], false)
  | Panic :: _ => ([Err PE_Panicked], false)
  end.

Local Abbreviation open_row := (bound_query_reader_with_retry (row := row) decode_error_text pid open_reply).

(** The results of the rows of a stream one after the other: the query of a row
    is executed in the state the row before has left, and the first error is the
    last item. *)
Inductive rows_read (schema : list Field) : BoundQueryStream → Driver db → list item → Driver db → Prop :=
| rows_end b b' d d' : stream_next b d = (Ok (None, b'), d') → rows_read schema b d [] d'
| rows_unreadable b b' d d' e : stream_next b d = (Ok (Some (Err e), b'), d') → rows_read schema b d [Err (PE_Query e)] d'
| rows_unreadable_panic b d d' : stream_next b d = (Panic, d') → rows_read schema b d [Err PE_Panicked] d'
| rows_refused b b' d d' d2 q e :
    stream_next b d = (Ok (Some (Ok q), b'), d') → open_row q d' = (Err e, d2) → rows_read schema b d [Err (PE_Query e)] d2
| rows_panicked b b' d d' d2 q :
    stream_next b d = (Ok (Some (Ok q), b'), d') → open_row q d' = (Panic, d2) → rows_read schema b d [Err PE_Panicked] d2
| rows_other_schema b b' d d' d2 q r :
    stream_next b d = (Ok (Some (Ok q), b'), d') → open_row q d' = (Ok r, d2) → reader_schema r ≠ schema →
    rows_read schema b d [Err PE_Schema] d2
| rows_result b b' d d' d2 d3 q r results items :
    stream_next b d = (Ok (Some (Ok q), b'), d') → open_row q d' = (Ok r, d2) → reader_schema r = schema →
    returns r results → result_read schema results b' d2 items d3 → rows_read schema b d items d3
(** The rest of the result that is open, and then the rows that follow. *)
with result_read (schema : list Field)
    : list (res ReadError RecordBatch) → BoundQueryStream → Driver db → list item → Driver db → Prop :=
| result_cut results b d items : delivered results = (items, false) → result_read schema results b d items d
| result_whole results b d d' items rest :
    delivered results = (items, true) → rows_read schema b d rest d' → result_read schema results b d (items ++ rest) d'.

(** ** The reader *)

Local Abbreviation loop := (parameter_loop (row := row) decode_error_text pid open_reply).
Local Abbreviation next_inner := (parameter_next_inner (row := row) decode_error_text pid open_reply).
Local Abbreviation run := (parameter_run (row := row) decode_error_text pid open_reply).

(** More fuel than rows makes no difference. *)
Lemma loop_fuel n : ∀ m r d, (queries_left (pq_queries r) + 1 ≤ n)%nat → (n ≤ m)%nat → loop m r d = loop n r d.
Proof.
  induction n as [|n IH]; intros m r d Hn Hm; [lia|]. destruct m as [|m]; [lia|]. cbn [parameter_loop].
  destruct (pq_current r) as [current|]; [destruct (reader_next current) as [[[batch|e|]|] current']; [done..|]|];
    unfold mbind, dx_bind, try_dx; (destruct (stream_next (pq_queries r) d) as [[[[[q|e|]|] b]|e|] d1] eqn:E; [|done..]);
    apply stream_next_left in E as (_ & _ & Hl); specialize (Hl q eq_refl);
    (destruct (open_row q d1) as [[r'|e|] d2]; [|done..]); case_bool_decide; try done; apply IH; cbn [pq_queries]; lia.
Qed.

(** [next_inner] in one round: the item of the result that is open, or the next
    row. *)
Definition refill (b : BoundQueryStream) (schema : list Field) : dx db (option item * ParameterQueryReader reader) :=
  '(next, b) ← stream_next b;
  let r := mkParameterReader b None schema false in
  match next with
  | None => mret (None, r)
  | Some Panic => pure_dx Panic
  | Some (Err e) => mret (Some (Err (PE_Query e)), r)
  | Some (Ok q) =>
      opened ← try_dx (open_row q);
      match opened with
      | Panic => pure_dx Panic
      | Err e => mret (Some (Err (PE_Query e)), r)
      | Ok current =>
          if bool_decide (reader_schema current = schema) then next_inner (mkParameterReader b (Some current) schema false)
          else mret (Some (Err PE_Schema), r)
      end
  end.

Lemma next_item b current current' x schema d :
  reader_next current = (Some x, current') →
  next_inner (mkParameterReader b (Some current) schema false) d =
  match x with
  | Panic => (Panic, d)
  | x => (Ok (Some (map_err PE_Reader x), mkParameterReader b (Some current') schema false), d)
  end.
Proof. intros E. unfold parameter_next_inner. cbn. rewrite E. by destruct x. Qed.

Lemma next_refill b current current' schema d :
  reader_next current = (None, current') →
  next_inner (mkParameterReader b (Some current) schema false) d = refill b schema d.
Proof.
  intros E. unfold parameter_next_inner at 1. cbn [pq_finished pq_queries]. remember (S (bound_left b)) as n eqn:Hn.
  cbn [parameter_loop pq_current]. rewrite E.
  unfold refill, mbind, dx_bind, try_dx. cbn [pq_queries pq_schema pq_finished].
  destruct (stream_next b d) as [[[[[q|e|]|] b']|e|] d1] eqn:Es; [|done..].
  apply stream_next_left in Es as (_ & _ & Hl); specialize (Hl q eq_refl). pose proof (queries_left_bound b).
  pose proof (queries_left_bound b'). destruct (open_row q d1) as [[r'|e|] d2]; [|done..]. case_bool_decide; [|done].
  unfold parameter_next_inner. cbn [pq_finished pq_queries].
  rewrite (loop_fuel (S (queries_left b')) n) by (cbn [pq_queries]; lia).
  symmetry. apply loop_fuel; cbn [pq_queries]; lia.
Qed.

(** A consumer sees of a reader only what [next_inner] gives. *)
Lemma run_same r r' d d' fuel : next_inner r d = next_inner r' d' → run (S fuel) r d = run (S fuel) r' d'.
Proof.
  intros E. cbn [parameter_run]. unfold mbind, dx_bind, parameter_next. rewrite E. by destruct (next_inner r' d') as [[?|?|] ?].
Qed.

Lemma run_inner r d fuel :
  run (S fuel) r d =
  match next_inner r d with
  | (Ok (None, _), d) => (Ok [], d)
  | (Ok (Some (Ok batch), r), d) => (rest ← run fuel r; mret (Ok batch :: rest)) d
  | (Ok (Some e, _), d) => (Ok [e], d)
  | (Panic, d) => (Ok [Err PE_Panicked], d)
  | (Err e, d) => (Err e, d)
  end.
Proof.
  cbn [parameter_run]. unfold mbind at 1, dx_bind at 1, parameter_next. destruct (next_inner r d) as [[[[[batch|e|]|] r']|e|] d1]; done.
Qed.

Context (ends : ∀ reply r n, open_reply reply = Ok (r, n) → ∃ results, returns r results).

(** All that follows the items of the open result, by the rows that are left. *)
Definition reads_on (b : BoundQueryStream) (n : nat) : Prop := ∀ schema current results d,
  queries_left b = n → returns current results →
  ∃ items d' enough, result_read schema results b d items d' ∧
    ∀ fuel, (enough ≤ fuel)%nat → run fuel (parameter_reader b current schema) d = (Ok items, d').

(** The open result is at its end. *)
Lemma reads_on_end b schema current current' d :
  (∀ m b', (m < queries_left b)%nat → reads_on b' m) → reader_next current = (None, current') →
  ∃ items d' enough, rows_read schema b d items d' ∧
    ∀ fuel, (enough ≤ fuel)%nat → run fuel (parameter_reader b current schema) d = (Ok items, d').
Proof.
  intros IH E. pose proof (next_refill b current current' schema d E) as Hn. fold (parameter_reader b current schema) in Hn.
  unfold refill, mbind, dx_bind, try_dx in Hn.
  assert (∀ items d', rows_read schema b d items d' → (∀ fuel, run (S fuel) (parameter_reader b current schema) d = (Ok items, d')) →
    ∃ items d' enough, rows_read schema b d items d' ∧
      ∀ fuel, (enough ≤ fuel)%nat → run fuel (parameter_reader b current schema) d = (Ok items, d')) as done_with.
  { intros items d' Hr Hf. exists items, d', 1%nat. split; [done|]. intros [|fuel] Hle; [lia|apply Hf]. }
  destruct (stream_next b d) as [[[[[q|e|]|] b']|e|] d1] eqn:Es.
  - pose proof (stream_next_left _ _ _ _ _ Es) as (_ & _ & Hl). specialize (Hl q eq_refl).
    destruct (open_row q d1) as [[r'|e|] d2] eqn:Eo.
    + case_bool_decide as Hschema.
      * destruct (reader_opened _ _ _ _ Eo) as (n & reply & Ho). destruct (ends _ _ _ Ho) as [results Hret].
        destruct (IH (queries_left b') b' ltac:(lia) schema r' results d2 eq_refl Hret) as (items & d3 & enough & Hread & Hrun).
        exists items, d3, (S enough). split; [by eapply rows_result|]. intros [|fuel] Hle; [lia|].
        rewrite <- (Hrun (S fuel)) by lia. by apply run_same.
      * eapply done_with; [by eapply rows_other_schema|]. intros fuel. by rewrite run_inner, Hn.
    + eapply done_with; [by eapply rows_refused|]. intros fuel. by rewrite run_inner, Hn.
    + eapply done_with; [by eapply rows_panicked|]. intros fuel. by rewrite run_inner, Hn.
  - eapply done_with; [by eapply rows_unreadable|]. intros fuel. by rewrite run_inner, Hn.
  - by apply stream_next_left in Es as (_ & Hp & _).
  - eapply done_with; [by eapply rows_end|]. intros fuel. by rewrite run_inner, Hn.
  - exfalso. unfold stream_next, mbind, dx_bind, try_dx in Es. by destruct (bound_next b d) as [[[? ?]|?|] ?].
  - eapply done_with; [by eapply rows_unreadable_panic|]. intros fuel. by rewrite run_inner, Hn.
Qed.

Lemma reads_on_all n : ∀ b, reads_on b n.
Proof.
  induction (lt_wf n) as [n _ IH]. intros b schema current results d <- Hret. revert d.
  induction Hret as [r r' E|r r' x results E Hret IHr]; intros d.
  - destruct (reads_on_end b schema r r' d (λ m b' Hm, IH m Hm b') E) as (items & d' & enough & Hr & Hf).
    exists items, d', enough. split; [|done]. by eapply (result_whole _ [] b d d' []).
  - pose proof (next_item b r r' x schema d E) as Hn. fold (parameter_reader b r schema) in Hn. destruct x as [batch|e|].
    + destruct (IHr d) as (items & d' & enough & Hr & Hf). exists (Ok batch :: items), d', (S enough). split.
      * inversion Hr as [? ? ? ? Hd|? ? ? ? ? ? Hd]; subst.
        -- apply result_cut. cbn. by rewrite Hd.
        -- eapply (result_whole _ _ _ _ _ (Ok batch :: _)); [cbn; by rewrite Hd|done].
      * intros [|fuel] Hle; [lia|]. rewrite run_inner, Hn. cbn [map_err]. unfold mbind, dx_bind.
        fold (parameter_reader b r' schema). by rewrite Hf by lia.
    + exists [Err (PE_Reader e)], d, 1%nat. split; [by apply result_cut|]. intros [|fuel] Hle; [lia|]. by rewrite run_inner, Hn.
    + exists [Err PE_Panicked], d, 1%nat. split; [by apply result_cut|]. intros [|fuel] Hle; [lia|]. by rewrite run_inner, Hn.
Qed.

(** C11. Reading the results of several parameter rows gives them all, in order,
    and ends.  The batches a consumer gets are those of the result that
    [parameter_query_reader] opened, followed by those of the result of every
    row that is left: the query of a row is executed once, when the result of
    the row before is exhausted and in the state it left, and a result with
    another schema, a row that cannot be bound, a query the server refuses and a
    panic each end the batches with an error.  No row is executed twice or
    passed over, and the iterator always stops. *)
Theorem parameter_rows_in_order queries current schema results d :
  returns current results →
  ∃ items d' enough,
    result_read schema results queries d items d' ∧
    ∀ fuel, (enough ≤ fuel)%nat → run fuel (parameter_reader queries current schema) d = (Ok items, d').
Proof. intros Hret. by apply (reads_on_all (queries_left queries) queries). Qed.
End parameter_rows.

(** Two rows after the one whose result is open; every result is one batch. *)
Definition toy_open (reply : Reply) : res Error (SingleBatchReader * option Z) := Ok (single_new (insert_batch [7]), None).

Lemma parameter_rows_in_order_witness :
  let queries := insert_stream [Ok (insert_batch [1; 2])] in
  let run fuel := parameter_run (row := toy_row) fmt_decode_error 1 toy_open fuel
    (parameter_reader queries (single_new (insert_batch [0])) insert_schema) (toy_driver true) in
  (run 4%nat).1 = Ok [Ok (insert_batch [0]); Ok (insert_batch [7]); Ok (insert_batch [7])] ∧
  sent (session (run 4%nat).2) = bound_sql <$> insert_rows [1; 2] ∧
  ∃ items d' enough,
    result_read (row := toy_row) fmt_decode_error 1 toy_open insert_schema [Ok (insert_batch [0])] queries (toy_driver true) items d' ∧
    ∀ fuel, (enough ≤ fuel)%nat → run fuel = (Ok items, d').
Proof.
  intros queries run. split; [by vm_compute|]. split; [by vm_compute|].
  apply (parameter_rows_in_order (row := toy_row) fmt_decode_error 1 toy_open).
  - intros reply r n [= <- <-]. exists [Ok (insert_batch [7])]. apply single_returns.
  - apply single_returns.
Defined.
