(* ===== verification/Handles.v ===== *)
(** The handles of prepared statements ([PreparedEntry] and its [Drop] in
    [crates/adbc-monetdb/src/driver.rs]): when the last holder of an entry is
    gone, the statement is deallocated on the server, at once when the connection
    is free and with the next lock otherwise.

    Holders go away in any thread, also while another thread uses the
    connection: a drop reads the generation in one step and acts in another,
    and [handle_step] lets the steps of all threads interleave. *)

From stdpp Require Import base list numbers strings gmap sorting.
From S2P Require Import Prelude RustStd Types ArrowData Errors SqlScan Template PreparedCache Transactions TransactionsProofs.
Local Open Scope Z_scope.

(** ** Operations *)

(** The comparison of the generations. *)
Definition drop_needed (c : DriverConnection) (entry : PreparedEntry) : bool :=
  entry_generation entry =? prepared_generation c.

Definition push_pending (c : DriverConnection) (id : Z) : DriverConnection :=
  mkConnection (pending_deallocations c ++ [id]) (prepared_generation c) (transaction_modified c) (transaction_poison c).

(** [try_lock]: the connection after it, and what is deallocated at once. *)
Definition drop_act (locked : bool) (id : Z) (c : DriverConnection) : DriverConnection * list Z :=
  if locked then (push_pending c id, []) else (c, [id]).

(** [drain] of the pending deallocations. *)
Definition drain_pending (c : DriverConnection) : DriverConnection * list Z :=
  (mkConnection [] (prepared_generation c) (transaction_modified c) (transaction_poison c), pending_deallocations c).

(** [drop] without interruption.  [alive]: the connection is still there. *)
Definition prepared_entry_drop {db} `{!Server db} (alive locked : bool) (entry : PreparedEntry) (s : Session db) : Session db :=
  if alive && drop_needed (connection s) entry then
    let '(c, ids) := drop_act locked (entry_id entry) (connection s) in
    mkSession c (foldl server_try_deallocate (server s) ids) (savepoint_id s) (sent s)
  else s.

(** Draining is what taking the connection does. *)
Lemma drain_queue {db} `{!Server db} (s : Session db) :
  queue_pending_deallocations s =
  let '(c, ids) := drain_pending (connection s) in
  mkSession c (foldl server_try_deallocate (server s) ids) (savepoint_id s) (sent s).
Proof. done. Qed.

(** ** All threads together *)

Record Handles : Type := mkHandles {
  handles_connection : DriverConnection;
  (** Entries with a holder. *)
  live : list PreparedEntry;
  (** Drops that have compared the generations and not acted yet. *)
  dropping : list Z;
  connection_locked : bool;
  (** What the server was told to deallocate. *)
  deallocated : list Z;
  (** A record beside the code, of the server: the statements it has prepared,
      those of them since the prepared statements were last invalidated, how often
      they were, and the statements whose last holder went before the next
      invalidation. *)
  issued : list Z;
  current : list Z;
  invalidations : Z;
  released : list Z;
}.

Definition handles_new : Handles := mkHandles connection_new [] [] false [] [] [] 0 [].

Definition with_connection (h : Handles) (c : DriverConnection) (ids : list Z) : Handles :=
  mkHandles c (live h) (dropping h) (connection_locked h) (deallocated h ++ ids) (issued h) (current h) (invalidations h)
    (released h).

Inductive handle_step : Handles → Handles → Prop :=
(** [PreparedEntry::new] for a statement the server has just prepared. *)
| handle_prepare h entry :
    entry_id entry ∉ issued h → entry_generation entry = prepared_generation (handles_connection h) →
    handle_step h (mkHandles (handles_connection h) (entry :: live h) (dropping h) (connection_locked h) (deallocated h)
                     (entry_id entry :: issued h) (entry_id entry :: current h) (invalidations h) (released h))
(** The last holder of an entry goes. *)
| handle_drop h i entry :
    live h !! i = Some entry →
    handle_step h
      (mkHandles (handles_connection h) (delete i (live h))
         (if drop_needed (handles_connection h) entry then entry_id entry :: dropping h else dropping h)
         (connection_locked h) (deallocated h) (issued h) (current h) (invalidations h)
         (if decide (entry_id entry ∈ current h) then entry_id entry :: released h else released h))
| handle_act h k id :
    dropping h !! k = Some id →
    handle_step h
      (let '(c, ids) := drop_act (connection_locked h) id (handles_connection h) in
       let h := with_connection h c ids in
       mkHandles (handles_connection h) (live h) (delete k (dropping h)) (connection_locked h) (deallocated h) (issued h)
         (current h) (invalidations h) (released h))
(** [lock_connection]: the lock, and the drain under it. *)
| handle_lock h :
    connection_locked h = false →
    handle_step h (mkHandles (handles_connection h) (live h) (dropping h) true (deallocated h) (issued h) (current h)
                     (invalidations h) (released h))
| handle_drain h :
    connection_locked h = true →
    handle_step h (let '(c, ids) := drain_pending (handles_connection h) in with_connection h c ids)
| handle_unlock h :
    connection_locked h = true →
    handle_step h (mkHandles (handles_connection h) (live h) (dropping h) false (deallocated h) (issued h) (current h)
                     (invalidations h) (released h))
(** [invalidate_prepared_cache]. *)
| handle_invalidate h :
    handle_step h
      (mkHandles (advance_generation (handles_connection h)) (live h) (dropping h) (connection_locked h) (deallocated h) (issued h)
         [] (invalidations h + 1) (released h)).

(** ** What holds *)

Definition underway (h : Handles) : list Z :=
  deallocated h ++ pending_deallocations (handles_connection h) ++ dropping h.

(** The counter of generations has 64 bits; below its limit it is the number of
    invalidations, and an entry is of the counter's generation exactly when its
    statement was prepared since the last of them. *)
Record handles_inv (h : Handles) : Prop := {
  inv_account : underway h ≡ₚ released h;
  inv_released : NoDup (released h ++ (entry_id <$> live h));
  inv_issued : ∀ id, id ∈ released h ++ (entry_id <$> live h) ++ current h → id ∈ issued h;
  inv_generation : prepared_generation (handles_connection h) = invalidations h ∧ 0 ≤ invalidations h;
  inv_current : ∀ entry, entry ∈ live h →
    entry_generation entry ≤ invalidations h ∧ (entry_id entry ∈ current h ↔ entry_generation entry = invalidations h);
}.

Lemma handle_step_counts h h' : handle_step h h' → invalidations h ≤ invalidations h'.
Proof. destruct 1; cbn; unfold drop_act; repeat case_match; simplify_eq; cbn; lia. Qed.

Lemma drop_inv h i entry :
  live h !! i = Some entry → handles_inv h →
  ∀ h', h' = mkHandles (handles_connection h) (delete i (live h))
         (if drop_needed (handles_connection h) entry then entry_id entry :: dropping h else dropping h)
         (connection_locked h) (deallocated h) (issued h) (current h) (invalidations h)
         (if decide (entry_id entry ∈ current h) then entry_id entry :: released h else released h) →
  handles_inv h'.
Proof.
  intros Hl [Ha Hn Hi Hg Hc] h' ->. pose proof (delete_Permutation _ _ _ Hl) as Hp.
  assert (entry_id <$> live h ≡ₚ entry_id entry :: (entry_id <$> delete i (live h))) as Hf by (rewrite Hp at 1; done).
  assert (drop_needed (handles_connection h) entry = bool_decide (entry_id entry ∈ current h)) as ->.
  { destruct (Hc entry) as [_ He]; [by eapply list_elem_of_lookup_2|]. unfold drop_needed. destruct Hg as [-> _].
    case_bool_decide as Hin; [apply Z.eqb_eq|apply Z.eqb_neq]; tauto. }
  rewrite Hf in Hn. setoid_rewrite Hf in Hi.
  assert (∀ e, e ∈ delete i (live h) → e ∈ live h) as Hsub by (intros e He; rewrite Hp; by right).
  case_bool_decide as Hin; [rewrite decide_True by done|rewrite decide_False by done]; split; cbn; try done.
  - unfold underway in *. cbn. rewrite <- Ha, !Permutation_middle. done.
  - by rewrite Permutation_middle.
  - intros id Hid. apply Hi. set_solver.
  - intros e He. by apply Hc, Hsub.
  - apply NoDup_app in Hn as (H1 & H2 & H3). apply NoDup_cons in H3 as [_ H3]. apply NoDup_app. split_and!; [done| |done].
    intros x Hx Hy. apply (H2 x Hx). by right.
  - intros id Hid. apply Hi. set_solver.
  - intros e He. by apply Hc, Hsub.
Qed.

Lemma handle_step_inv h h' : handle_step h h' → invalidations h' < 2 ^ 64 → handles_inv h → handles_inv h'.
Proof.
  intros Hs Hlt Hinv. pose proof Hinv as [Ha Hn Hi Hg Hc].
  destruct Hs as [h entry Hid He|h i entry Hl|h k id Hk|h _|h _|h _|h].
  - split; cbn; try done.
    + rewrite <- Permutation_middle. constructor; [|done]. intros Hin. apply Hid, Hi. rewrite app_assoc. set_solver.
    + intros id Hin. rewrite elem_of_cons. destruct (decide (id = entry_id entry)) as [->|Hne]; [by left|right].
      apply Hi. set_solver.
    + intros e [->|Hin]%elem_of_cons; [split; [lia|]; split; [lia|by left]|].
      destruct (Hc e Hin) as [Hle <-]. split; [done|]. rewrite elem_of_cons. split; [intros [Heq|]; [|done]|by right].
      exfalso. apply Hid. rewrite <- Heq. apply Hi. rewrite !elem_of_app. right. left. by apply list_elem_of_fmap_2.
  - by eapply drop_inv.
  - pose proof (delete_Permutation _ _ _ Hk) as Hp. unfold underway in Ha. rewrite Hp in Ha.
    unfold drop_act. destruct (connection_locked h); split; try done; unfold underway; cbn; rewrite <- Ha, ?app_nil_r, <- ?app_assoc; cbn;
      [done|]. by rewrite <- (Permutation_middle (pending_deallocations _)).
  - by split.
  - split; cbn; try done. unfold underway in *. cbn. by rewrite <- app_assoc.
  - by split.
  - cbn in Hlt. split; cbn; try done.
    + intros id Hid. apply Hi. set_solver.
    + rewrite Z.mod_small; lia.
    + intros e He. destruct (Hc e He) as [Hle _]. split; [lia|]. rewrite elem_of_nil. lia.
Qed.

Lemma handles_reachable_inv h : rtc handle_step handles_new h → invalidations h < 2 ^ 64 → handles_inv h.
Proof.
  assert (handles_inv handles_new) as H0
    by (split; [done|apply NoDup_nil_2|done|done|intros entry Hin; by apply elem_of_nil in Hin]).
  revert H0. generalize handles_new. intros h0 H0 Hs Hlt.
  induction Hs as [|h0 h1 h2 Hstep Hs IH]; [done|]. apply IH; [|done]. eapply handle_step_inv; [done| |done].
  eapply Z.le_lt_trans; [|done]. clear -Hs. induction Hs as [|h1 h2 h3 Hs _ IH]; [done|].
  apply handle_step_counts in Hs. lia.
Qed.

(** C23. A prepared statement is deallocated exactly once, and never while it is in
    use.  In every state that any interleaving of preparing, dropping,
    locking and invalidating threads reaches, the 64-bit counter of generations
    not having come round: no statement that an entry with a
    holder refers to was deallocated or is waiting to be; no statement is
    deallocated or waiting twice; and the statements deallocated, waiting, or in
    a drop that is under way are exactly the released ones: those whose last
    holder went before the server's prepared statements were next invalidated, by
    a record of the server that the driver's comparison of generations has no
    part in.  Taking the connection deallocates all that are waiting. *)
Theorem handles_released_once h :
  rtc handle_step handles_new h → invalidations h < 2 ^ 64 →
  NoDup (underway h) ∧ underway h ≡ₚ released h ∧ (∀ entry, entry ∈ live h → entry_id entry ∉ underway h) ∧
  (dropping h = [] → connection_locked h = true →
   ∃ h', handle_step h h' ∧ pending_deallocations (handles_connection h') = [] ∧ deallocated h' ≡ₚ released h).
Proof.
  intros Hs Hlt. apply handles_reachable_inv in Hs as [Ha Hn _ _ _]; [|done]. pose proof Hn as (Hr & Hd & _)%NoDup_app. split_and!.
  - by rewrite Ha.
  - done.
  - intros entry Hin. rewrite Ha. intros Hx. apply (Hd _ Hx). by apply list_elem_of_fmap_2.
  - intros Hdrop Hl. eexists. split; [by apply handle_drain|]. split; [done|]. cbn. rewrite <- Ha. unfold underway.
    by rewrite Hdrop, app_nil_r.
Qed.

(** An entry is dropped while another thread has the connection, an entry of an
    older generation after it. *)
Definition sample_entry (id generation : Z) : PreparedEntry := mkPreparedEntry id generation [] [] 0.

Definition sample_handles : Handles :=
  mkHandles (mkConnection [4] 1 false None) [] [] true [] [5; 4] [] 1 [4].

Lemma sample_reachable : rtc handle_step handles_new sample_handles.
Proof.
  eapply rtc_l. { apply (handle_prepare _ (sample_entry 4 0)); [by apply not_elem_of_nil|done]. }
  eapply rtc_l. { apply (handle_prepare _ (sample_entry 5 0)); [cbn; set_solver|done]. }
  eapply rtc_l. { by apply handle_lock. }
  eapply rtc_l. { by apply (handle_drop _ 1 (sample_entry 4 0)). }
  eapply rtc_l. { by apply (handle_act _ 0 4). }
  eapply rtc_l. { by apply handle_invalidate. }
  eapply rtc_l. { by apply (handle_drop _ 0 (sample_entry 5 0)). }
  apply rtc_refl.
Qed.

Lemma handles_released_once_witness :
  rtc handle_step handles_new sample_handles ∧ underway sample_handles = [4] ∧
  ∃ h', handle_step sample_handles h' ∧ pending_deallocations (handles_connection h') = [] ∧ deallocated h' ≡ₚ [4].
Proof.
  split; [exact sample_reachable|]. split; [reflexivity|].
  by apply (handles_released_once sample_handles sample_reachable).
Defined.
