(* ===== verification/Endian.v ===== *)
(** The branches for a big-endian target ([cfg(target_endian = "big")] in
    [crates/monetdb-arrow/src/decode.rs] and [encode.rs]).  There a column's
    bytes are not the memory of its values: the decoder reads every value, the
    encoder writes every value, no buffer is borrowed and no response adopted.
    The rest of the development is about the little-endian branches; the two
    give the same results. *)

From stdpp Require Import base list numbers strings gmap.
From S2P Require Import Prelude RustStd Types Exportbin Calendar Inet ArrowData Decode DecodeProofs Encode Codec Chunked.
Local Open Scope Z_scope.

(** ** Decoding *)

(** The loop of [decode_primitive]: values, validity, and whether there is a
    null. *)
Fixpoint push_values (from_le : bytes → Z) (null : Z → bool) (chunks : list bytes) (values : list Z) (validity : list bool)
    (has_nulls : bool) : list Z * list bool * bool :=
  match chunks with
  | [] => (values, validity, has_nulls)
  | chunk :: chunks =>
      let value := from_le chunk in
      let valid := negb (null value) in
      push_values from_le null chunks (values ++ [value]) (validity ++ [valid]) (has_nulls || negb valid)
  end.

Definition decode_primitive_big (data_type : DataType) (n : nat) (from_le : bytes → Z) (null : Z → bool) (data : bytes)
    (rows : nat) : res DecodeError ArrayRef :=
  _ ← expect_fixed data (Z.of_nat rows) (Z.of_nat n);
  let '(values, validity, has_nulls) := push_values from_le null (chunks n data) [] [] false in
  Ok (APrimitive data_type values (if has_nulls then Some validity else None)).

Section decoding.
Context `{Arrow}.

(** [decode_decimal]: sixteen bytes are one of the widths of the loop. *)
Definition decode_decimal_big (data : bytes) (rows : nat) (precision scale : Z) (hugeint : bool) : res DecodeError ArrayRef :=
  if negb ((1 <=? precision) && (precision <=? 38)) || (scale <? 0) || (precision <? scale)
  then Err (DE_InvalidColumn "decimal precision/scale must satisfy 1 <= precision <= 38 and 0 <= scale <= precision")
  else
    width ← or_panic (if hugeint then Some 16 else decimal_width precision);
    _ ← expect_fixed data (Z.of_nat rows) width;
    decode_decimal_width (Z.to_nat width) data precision scale hugeint.

(** [decode_column], the types with another branch. *)
Definition decode_column_big (data_type : MonetType) (data : bytes) (rows : nat) : res DecodeError ArrayRef :=
  match data_type with
  | MTinyInt => decode_primitive_big DInt8 1 i_from_le (λ v, v =? i8_min) data rows
  | MSmallInt => decode_primitive_big DInt16 2 i_from_le (λ v, v =? i16_min) data rows
  | MInt => decode_primitive_big DInt32 4 i_from_le (λ v, v =? i32_min) data rows
  | MBigInt => decode_primitive_big DInt64 8 i_from_le (λ v, v =? i64_min) data rows
  | MHugeInt => decode_decimal_big data rows 38 0 true
  | MOid => decode_primitive_big DUInt64 8 u_from_le (λ v, v =? 2 ^ 63) data rows
  | MDecimal precision scale => scale ← decimal_scale scale; decode_decimal_big data rows precision scale false
  | MReal => decode_primitive_big DFloat32 4 u_from_le f32_is_nan data rows
  | MDouble => decode_primitive_big DFloat64 8 u_from_le f64_is_nan data rows
  | MMonthInterval => decode_primitive_big DInt32 4 i_from_le (λ v, v =? i32_min) data rows
  | MDayInterval | MSecInterval =>
      decode_primitive_big (DDuration Millisecond) 8 i_from_le (λ v, v =? i64_min) data rows
  | data_type => decode_column data_type data rows
  end.

Definition decode_columns_big (columns : list ResultColumn) (data : list bytes) (row_count : nat)
    : res DecodeError (list ArrayRef) :=
  map_res (λ '(column, bytes), decode_column_big (column_sql_type column) bytes row_count) (zip columns data).

Definition decode_frame_with_schema_big (frame : bytes) (columns : list ResultColumn)
    (expected_result_id expected_start_row : Z) (requested_rows : nat) (schema : list Field) : res DecodeError RecordBatch :=
  frame ← map_err DE_Frame (parse_frame frame);
  row_count ← validate_frame frame columns expected_result_id expected_start_row requested_rows;
  arrays ← decode_columns_big columns (frame_columns frame) row_count;
  record_batch schema arrays row_count.

(** [should_adopt_frame] is false: the owned response is decoded like any. *)
Definition decode_frame_owned_with_schema_big (frame : bytes) (columns : list ResultColumn)
    (expected_result_id expected_start_row : Z) (requested_rows : nat) (schema : list Field) : res DecodeError RecordBatch :=
  parsed ← map_err DE_Frame (parse_frame frame);
  row_count ← validate_frame parsed columns expected_result_id expected_start_row requested_rows;
  '(_, _) ← map_err DE_Frame (parse_frame_ranges frame);
  arrays ← decode_columns_big columns (frame_columns parsed) row_count;
  record_batch schema arrays row_count.

Lemma push_values_spec from_le null groups values validity has_nulls :
  push_values from_le null groups values validity has_nulls =
  (values ++ (from_le <$> groups), validity ++ ((λ v, negb (null v)) <$> (from_le <$> groups)),
   has_nulls || existsb negb ((λ v, negb (null v)) <$> (from_le <$> groups))).
Proof.
  revert values validity has_nulls. induction groups as [|group groups IH]; intros values validity has_nulls; cbn [push_values].
  { cbn. by rewrite !app_nil_r, orb_false_r. }
  rewrite IH, <- !app_assoc. cbn [fmap list_fmap existsb app]. by rewrite orb_assoc.
Qed.

Lemma decode_primitive_big_eq dt n from_le null data rows :
  (0 < n)%nat → decode_primitive_big dt n from_le null data rows = decode_primitive dt n from_le null data rows.
Proof.
  intros Hn. unfold decode_primitive_big, decode_primitive.
  destruct (expect_fixed data (Z.of_nat rows) (Z.of_nat n)) as [u|e|] eqn:He; cbn [mbind res_bind]; [|done..].
  destruct (expect_fixed_chunks data rows n u Hn He) as (Hl & _). rewrite push_values_spec. cbn [app orb].
  rewrite take_ge by (by rewrite length_fmap, Hl). done.
Qed.

Lemma decode_decimal_big_eq data rows precision scale hugeint :
  decode_decimal_big data rows precision scale hugeint = decode_decimal data rows precision scale hugeint.
Proof.
  unfold decode_decimal_big, decode_decimal. destruct (negb _ || _ || _); [done|].
  destruct (or_panic _) as [width| |]; cbn [mbind res_bind]; [|done..].
  destruct (expect_fixed _ _ _) as [u| |]; cbn [mbind res_bind]; [|done..].
  destruct (Z.eqb_spec width 16) as [->|]; [|done]. unfold decode_decimal_width, validate_decimal_values.
  change (Z.to_nat 16) with 16%nat. change (- 2 ^ (8 * Z.of_nat 16 - 1)) with i128_min.
  destruct (mapi_res _ 0 _); by cbn [mbind res_bind].
Qed.

Lemma decode_column_big_eq t data rows : decode_column_big t data rows = decode_column t data rows.
Proof.
  destruct t; cbn [decode_column_big decode_column]; try done;
    first [apply decode_primitive_big_eq; lia | apply decode_decimal_big_eq
          | destruct (decimal_scale _); cbn [mbind res_bind]; [apply decode_decimal_big_eq|done..]].
Qed.

Lemma decode_columns_big_eq columns data rows : decode_columns_big columns data rows = decode_columns columns data rows.
Proof.
  unfold decode_columns_big, decode_columns, map_res. generalize 0%nat.
  induction (zip columns data) as [|[column bytes] l IH]; intros i; [done|].
  cbn [mapi_res]. by rewrite decode_column_big_eq, IH.
Qed.

Lemma decode_frame_big_eq frame columns id start requested schema :
  decode_frame_with_schema_big frame columns id start requested schema =
  decode_frame_with_schema frame columns id start requested schema.
Proof.
  unfold decode_frame_with_schema_big, decode_frame_with_schema. destruct (map_err _ _) as [p| |]; cbn [mbind res_bind]; [|done..].
  destruct (validate_frame _ _ _ _ _) as [n| |]; cbn [mbind res_bind]; [|done..]. by rewrite decode_columns_big_eq.
Qed.

Lemma decode_frame_owned_big_eq frame columns id start requested schema :
  decode_frame_owned_with_schema_big frame columns id start requested schema =
  decode_frame_with_schema frame columns id start requested schema.
Proof.
  unfold decode_frame_owned_with_schema_big, decode_frame_with_schema.
  destruct (parse_frame frame) as [p| |] eqn:Hp; cbn [map_err mbind res_bind]; [|done..].
  destruct (parse_frame_inv _ _ Hp) as (header & ranges & -> & _).
  destruct (validate_frame p _ _ _ _) as [n| |]; cbn [map_err mbind res_bind]; [|done..]. by rewrite decode_columns_big_eq.
Qed.
End decoding.

(** ** Encoding *)

(** The loop that writes every value ([append_le], [to_le_bytes]). *)
Definition append_values (width : nat) (null : Z) (values : list Z) (nulls : validity) : bytes :=
  foldl (λ out cell, out ++ to_le_bytes width (match cell with None => null | Some value => value end)) []
    (cells values nulls).

Definition encode_primitive_big (width : nat) (null : Z) (values : list Z) (nulls : validity) : res EncodeError bytes :=
  _ ← check_rows (λ v, v =? null) sentinel_message values nulls;
  Ok (append_values width null values nulls).

Definition encode_f32_big (values : list Z) (nulls : validity) : res EncodeError bytes :=
  _ ← check_rows (λ v, negb (f32_is_finite v)) finite_message values nulls;
  Ok (append_values 4 f32_NAN values nulls).

Definition encode_f64_big (values : list Z) (nulls : validity) : res EncodeError bytes :=
  _ ← check_rows (λ v, negb (f64_is_finite v)) finite_message values nulls;
  Ok (append_values 8 f64_NAN values nulls).

(** Nothing is borrowed. *)
Definition borrowed_wire_bytes_big (array : ArrayRef) : res EncodeError (option bytes) := Ok None.

Section encoding.
Context `{Chrono, Half}.

(** [encode_column], the types with another branch. *)
Definition encode_by_type_big (array : ArrayRef) (monet_type : MonetType) : res EncodeError bytes :=
  let dt := array_data_type array in
  match dt with
  | DInt8 => with_primitive array dt (encode_primitive_big 1 i8_min)
  | DInt16 => with_primitive array dt (encode_primitive_big 2 i16_min)
  | DInt32 => with_primitive array dt (encode_primitive_big 4 i32_min)
  | DInt64 => with_primitive array dt (encode_primitive_big 8 i64_min)
  | DFloat32 => with_primitive array dt encode_f32_big
  | DFloat64 => with_primitive array dt encode_f64_big
  | _ => encode_by_type array monet_type
  end.

Definition encode_column_big (field : Field) (array : ArrayRef) : res EncodeError bytes :=
  monet_type ← monet_type_for_field field;
  width ← column_fixed_wire_width field (array_data_type array);
  _ ← match width with
      | Some width => checked_encoded_size (Z.of_nat (array_len array)) width
      | None => Ok 0
      end;
  match encode_inet array monet_type with
  | Some result => result
  | None => encode_by_type_big array monet_type
  end.

Definition piece_bytes_big (field : Field) (slice : ArrayRef) : res EncodeError bytes :=
  borrowed ← borrowed_wire_bytes_big slice;
  match borrowed with
  | Some data => Ok data
  | None => encode_column_big field slice
  end.

Section chunks.
Context {Sink E : Type} (emit : Sink → bytes → res E Sink).

Definition emit_piece_big (field : Field) (slice : ArrayRef) (total : Z) (sink : Sink)
    : res (ChunkedEncodeError E) (Z * Sink) :=
  data ← map_err (CE_Encode E) (piece_bytes_big field slice);
  total ← ok_or (checked_add total (len data)) (CE_Encode E (EE_InvalidValue 0 "encoded column length overflows"));
  sink ← map_err (CE_Sink E) (emit sink data);
  Ok (total, sink).

Fixpoint emit_pieces_big (fuel : nat) (field : Field) (array : ArrayRef) (step start : nat) (total : Z) (sink : Sink)
    : res (ChunkedEncodeError E) (Z * Sink) :=
  match fuel with
  | O => Ok (total, sink)
  | S fuel =>
      if (start <? array_len array)%nat then
        let n := Nat.min (array_len array - start) step in
        '(total, sink) ← emit_piece_big field (array_slice array start n) total sink;
        emit_pieces_big fuel field array step (start + step) total sink
      else Ok (total, sink)
  end.

Fixpoint encode_column_chunks_big_loop (field : Field) (arrays : list ArrayRef) (target_bytes total : Z) (sink : Sink)
    : res (ChunkedEncodeError E) (Z * Sink) :=
  match arrays with
  | [] => Ok (total, sink)
  | array :: arrays =>
      estimated ← map_err (CE_Encode E) (estimated_encoded_size field array);
      let step := rows_per_chunk target_bytes (Z.of_nat (array_len array)) estimated in
      '(total, sink) ← emit_pieces_big (array_len array) field array (Z.to_nat step) 0 total sink;
      encode_column_chunks_big_loop field arrays target_bytes total sink
  end.

Definition encode_column_chunks_big (field : Field) (arrays : list ArrayRef) (target_bytes : Z) (sink : Sink)
    : res (ChunkedEncodeError E) (Z * Sink) :=
  encode_column_chunks_big_loop field arrays target_bytes 0 sink.
End chunks.

(** Writing every value is copying the buffer and overwriting the nulls. *)
Lemma append_values_eq width null values nulls :
  append_values width null values nulls = copy_native_with_nulls width values nulls (to_le_bytes width null).
Proof.
  rewrite copy_native_with_nulls_rows by apply length_to_le_bytes. unfold append_values.
  assert (∀ rows out, foldl (λ out cell, out ++ to_le_bytes width (match cell with None => null | Some value => value end)) out rows =
    out ++ concat ((λ cell, match cell with Some v => to_le_bytes width v | None => to_le_bytes width null end) <$> rows)) as Hf.
  { induction rows as [|cell rows IH]; intros out; cbn [foldl fmap list_fmap concat]; [by rewrite app_nil_r|].
    rewrite IH, <- app_assoc. by destruct cell. }
  by rewrite Hf.
Qed.

Lemma encode_by_type_big_eq array t : encode_by_type_big array t = encode_by_type array t.
Proof.
  unfold encode_by_type_big, encode_by_type, with_primitive, encode_primitive_big, encode_primitive, encode_f32_big, encode_f32,
    encode_f64_big, encode_f64.
  destruct (array_data_type array); try done; destruct (downcast_primitive array _) as [[values nulls]| |]; cbn [mbind res_bind]; try done;
    destruct (check_rows _ _ _ _); cbn [mbind res_bind]; by rewrite ?append_values_eq.
Qed.

Lemma encode_column_big_eq field array : encode_column_big field array = encode_column field array.
Proof.
  unfold encode_column_big, encode_column. destruct (monet_type_for_field field) as [t| |]; cbn [mbind res_bind]; [|done..].
  by rewrite encode_by_type_big_eq.
Qed.

Section chunks_eq.
Context {Sink E : Type} (emit : Sink → bytes → res E Sink).

Lemma emit_pieces_big_eq fuel field array step start total sink :
  field_data_type field = array_data_type array → fits_memory field array →
  emit_pieces_big emit fuel field array step start total sink = emit_pieces emit fuel field array step start total sink.
Proof.
  intros Hf Hfit. revert start total sink. induction fuel as [|fuel IH]; intros start total sink; [done|].
  cbn [emit_pieces_big emit_pieces]. destruct (_ <? _)%nat; [|done]. unfold emit_piece_big, emit_piece, piece_bytes_big, borrowed_wire_bytes_big.
  cbn [mbind res_bind]. rewrite encode_column_big_eq, piece_bytes_eq; [|by rewrite array_slice_type|by apply fits_memory_slice].
  destruct (map_err _ (encode_column _ _)); cbn [mbind res_bind]; [|done..].
  destruct (ok_or _ _); cbn [mbind res_bind]; [|done..]. destruct (map_err _ (emit _ _)); cbn [mbind res_bind]; [apply IH|done..].
Qed.

Lemma encode_column_chunks_big_eq field arrays target total sink :
  Forall (λ array, field_data_type field = array_data_type array) arrays →
  encode_column_chunks_big_loop emit field arrays target total sink = encode_column_chunks_loop emit field arrays target total sink.
Proof.
  intros Hf. revert total sink. induction Hf as [|array arrays Ha _ IH]; intros total sink; [done|].
  cbn [encode_column_chunks_big_loop encode_column_chunks_loop].
  destruct (estimated_encoded_size field array) as [n| |] eqn:He; cbn [map_err mbind res_bind]; [|done..].
  rewrite emit_pieces_big_eq by (done || by eapply estimated_fits).
  destruct (emit_pieces _ _ _ _ _ _ _ _) as [[total' sink']| |]; cbn [mbind res_bind]; [apply IH|done..].
Qed.
End chunks_eq.
End encoding.

(** C27. The target's byte order does not show: the big-endian branches, which read
    and write every value instead of sharing memory with the wire format, decode
    every response to the same batch or the same error, whether the response is
    borrowed or owned, and encode every array to the same bytes or the same
    error, in the same pieces. *)
Theorem big_endian_same `{!Arrow, !ArrowLaws, !Chrono, !Half} {Sink E} (emit : Sink → bytes → res E Sink)
    frame columns id start requested schema base field arrays target sink :
  Forall column_ok columns → schema_for_columns columns = Ok schema →
  Forall (λ array, field_data_type field = array_data_type array) arrays →
  decode_frame_with_schema_big frame columns id start requested schema =
    decode_frame_with_schema frame columns id start requested schema ∧
  decode_frame_owned_with_schema_big frame columns id start requested schema =
    decode_frame_owned_with_schema base frame columns id start requested schema ∧
  (∀ array, encode_column_big field array = encode_column field array) ∧
  encode_column_chunks_big emit field arrays target sink = encode_column_chunks emit field arrays target sink.
Proof.
  intros Hcols Hs Hf. split_and!.
  - apply decode_frame_big_eq.
  - rewrite decode_frame_owned_big_eq. by rewrite decode_owned_with_schema_eq.
  - apply encode_column_big_eq.
  - by apply encode_column_chunks_big_eq.
Qed.

(** One row of an INT and a VARCHAR column, and integers with a null. *)
Lemma big_endian_same_witness :
  decode_frame_with_schema_big sample_frame sample_columns 7 0 10 (batch_schema sample_batch) = Ok sample_batch ∧
  encode_column_chunks_big (λ sink chunk, Ok (E := unit) (sink ++ [chunk])) (mkField (str "n") DInt32 true ∅)
    [APrimitive DInt32 [1; 2; 3] None; APrimitive DInt32 [4] (Some [false])] 8 [] =
    Ok (16, [to_le_bytes 4 1 ++ to_le_bytes 4 2; to_le_bytes 4 3; to_le_bytes 4 i32_min]).
Proof.
  destruct (big_endian_same (λ sink chunk, Ok (E := unit) (sink ++ [chunk])) sample_frame sample_columns 7 0 10 (batch_schema sample_batch) 4096
    (mkField (str "n") DInt32 true ∅) [APrimitive DInt32 [1; 2; 3] None; APrimitive DInt32 [4] (Some [false])] 8 [])
    as (Hd & _ & _ & He); [by repeat constructor|by vm_compute|by repeat constructor|].
  rewrite Hd, He. split; by vm_compute.
Defined.
