(* ===== verification/Channel.v ===== *)
(** A worker thread and the bounded channel it sends on
    ([std::sync::mpsc::sync_channel], as [driver.rs] uses it for the prefetching
    reader, the windows of an ingest and the encoder of retained data).

    Threads take turns.  The worker computes a message in one turn and sends it
    in another; a send blocks while the channel is full, fails once the receiver
    is gone, and with bound 0 completes when the receiver takes the message.  A
    turn of a thread that is blocked changes nothing.

    [WorkerLaws] is what a worker promises: the list of what it will send.  From
    it follow, for every order of turns, what the receiver gets, how far the
    worker runs ahead and that neither waits forever. *)

From stdpp Require Import base list numbers.
From S2P Require Import Prelude.

Section channel.
(** What the threads share besides the channel, the state of the worker and the
    messages. *)
Context {E W M : Type} (bound : nat) (work : E → W → option M * W * E).

(** The worker computes, waits in [send], or has returned. *)
Inductive Worker : Type :=
| Busy (w : W)
| Sending (m : M) (w : W)
| Ended (w : W).

Record Pipe : Type := mkPipe {
  pipe_shared : E;
  pipe_worker : Worker;
  pipe_queue : list M;
  pipe_open : bool;
}.

Definition pipe_start (e : E) (w : W) : Pipe := mkPipe e (Busy w) [] true.

(** A turn of the worker.  A failed send makes it return. *)
Definition worker_turn (p : Pipe) : option Pipe :=
  match pipe_worker p with
  | Busy w =>
      let '(m, w, e) := work (pipe_shared p) w in
      Some (mkPipe e (match m with Some m => Sending m w | None => Ended w end) (pipe_queue p) (pipe_open p))
  | Sending m w =>
      if negb (pipe_open p) then Some (mkPipe (pipe_shared p) (Ended w) (pipe_queue p) false)
      else if (length (pipe_queue p) <? bound)%nat
      then Some (mkPipe (pipe_shared p) (Busy w) (pipe_queue p ++ [m]) true)
      else None
  | Ended _ => None
  end.

(** [recv]: a message, or that there will be none; [None] while it blocks. *)
Definition receive (p : Pipe) : option (option M * Pipe) :=
  match pipe_queue p, pipe_worker p with
  | m :: queue, worker => Some (Some m, mkPipe (pipe_shared p) worker queue (pipe_open p))
  | [], Ended _ => Some (None, p)
  | [], Sending m w =>
      if (bound =? 0)%nat then Some (Some m, mkPipe (pipe_shared p) (Busy w) [] (pipe_open p)) else None
  | [], Busy _ => None
  end.

(** The receiver is dropped, and with it what is queued. *)
Definition hang_up (p : Pipe) : Pipe := mkPipe (pipe_shared p) (pipe_worker p) [] false.

Definition with_shared (p : Pipe) (e : E) : Pipe := mkPipe e (pipe_worker p) (pipe_queue p) (pipe_open p).

(** The turn of a thread that may be blocked. *)
Definition try_turn (p : Pipe) : Pipe := default p (worker_turn p).

Definition worker_state (p : Pipe) : W :=
  match pipe_worker p with Busy w | Sending _ w | Ended w => w end.

Definition has_ended (p : Pipe) : bool := match pipe_worker p with Ended _ => true | _ => false end.

(** What has been computed and not received. *)
Definition ahead (p : Pipe) : list M :=
  pipe_queue p ++ match pipe_worker p with Sending m _ => [m] | _ => [] end.
End channel.

Arguments Worker : clear implicits.
Arguments Pipe : clear implicits.

(** What a worker promises, whatever the shared state is: the payloads of its
    messages from a state on. *)
Class WorkerLaws {E W M P : Type} (work : E → W → option M * W * E) (payload : M → P) (ok : W → Prop)
    (future : W → list P) : Prop := {
  work_sends e w m w' e' : ok w → work e w = (Some m, w', e') → future w = payload m :: future w' ∧ ok w';
  work_stops e w w' e' : ok w → work e w = (None, w', e') → future w = [];
}.

Section laws.
Context {E W M P : Type} (bound : nat) (work : E → W → option M * W * E).
Context (payload : M → P) (ok : W → Prop) (future : W → list P) `{!WorkerLaws work payload ok future}.
Implicit Types p : Pipe E W M.

(** What the receiver will get. *)
Definition stream p : list P :=
  (payload <$> ahead p) ++ match pipe_worker p with Busy w | Sending _ w => future w | Ended _ => [] end.

Record pipe_ok p : Prop := {
  queue_bounded : (length (pipe_queue p) ≤ bound)%nat;
  worker_ok : has_ended p = false → ok (worker_state p);
}.

Lemma pipe_start_ok e w : ok w → pipe_ok (pipe_start e w).
Proof. intros Hw. split; cbn; [lia|done]. Qed.

Lemma with_shared_ok p e : pipe_ok p → pipe_ok (with_shared p e).
Proof. intros [Hq Hk]. by split. Qed.

Lemma stream_start e w : stream (pipe_start e w) = future w.
Proof. done. Qed.

(** A turn of the worker does not change what the receiver will get. *)
Lemma worker_turn_stream p p' :
  pipe_ok p → pipe_open p = true → worker_turn bound work p = Some p' →
  stream p' = stream p ∧ pipe_ok p' ∧ pipe_open p' = true.
Proof.
  destruct p as [e k q o]. intros [Hq Hk] Ho. cbn in Ho, Hq. subst o. unfold worker_turn. cbn [pipe_worker pipe_shared pipe_queue pipe_open negb].
  destruct k as [w|m w|w]; [| |done].
  - destruct (work e w) as [[[m|] w'] e'] eqn:Hw; intros [= <-]; specialize (Hk eq_refl); cbn in Hk.
    + destruct (work_sends _ _ _ _ _ Hk Hw) as [Hf Hok]. split; [|by split].
      unfold stream, ahead. cbn. rewrite Hf, app_nil_r, fmap_app. by rewrite <- app_assoc.
    + pose proof (work_stops _ _ _ _ Hk Hw) as Hf. split; [|by split]. unfold stream, ahead. cbn. by rewrite Hf.
  - destruct (Nat.ltb_spec (length q) bound); intros [= <-]. split; [|split; [split|done]].
    + unfold stream, ahead. cbn. by rewrite app_nil_r.
    + cbn. rewrite length_app. cbn. lia.
    + cbn. intros _. by apply Hk.
Qed.

Lemma try_turn_stream p :
  pipe_ok p → pipe_open p = true →
  stream (try_turn bound work p) = stream p ∧ pipe_ok (try_turn bound work p) ∧ pipe_open (try_turn bound work p) = true.
Proof.
  intros Hp Ho. unfold try_turn. destruct (worker_turn bound work p) as [p'|] eqn:Ht; cbn [default]; [|done].
  by apply worker_turn_stream.
Qed.

(** What is received is the head of the stream. *)
Lemma receive_stream p m p' :
  pipe_ok p → receive bound p = Some (m, p') →
  pipe_ok p' ∧ pipe_open p' = pipe_open p ∧ pipe_shared p' = pipe_shared p ∧
  match m with Some m => stream p = payload m :: stream p' | None => stream p = [] ∧ p' = p end.
Proof.
  destruct p as [e k q o]. intros [Hq Hk]. unfold receive. cbn [pipe_queue pipe_worker pipe_shared pipe_open].
  destruct q as [|m0 q].
  - destruct k as [w|m0 w|w]; [done| |by intros [= <- <-]].
    destruct (Nat.eqb_spec bound 0); intros [= <- <-]. split_and!; [|done..]. split; cbn; [lia|]. intros _. by apply Hk.
  - intros [= <- <-]. split_and!; [|done..]. split; [cbn in *; lia|done].
Qed.

(** A turn of the worker leaves what is queued in front. *)
Lemma try_turn_head p m q :
  pipe_queue p = m :: q → ∃ q', pipe_queue (try_turn bound work p) = m :: q'.
Proof.
  destruct p as [e k q0 o]. cbn. intros ->. unfold try_turn, worker_turn. cbn [pipe_worker pipe_queue pipe_open pipe_shared].
  destruct k as [w|m' w|w]; [destruct (work e w) as [[[m'|] w'] e'] | destruct o; [destruct (_ <? _)%nat|] |]; cbn; by eexists.
Qed.

Lemma receive_head p m q : pipe_queue p = m :: q → is_Some (receive bound p).
Proof. intros Hq. unfold receive. rewrite Hq. by eexists. Qed.

(** A worker that waits in [send] is one turn from unblocking the receiver. *)
Lemma receive_sending p m w :
  pipe_open p = true → pipe_worker p = Sending m w → is_Some (receive bound (try_turn bound work p)).
Proof.
  destruct p as [e k q o]. cbn. intros -> ->. destruct q as [|m0 q].
  - unfold try_turn, worker_turn. cbn [pipe_worker pipe_queue pipe_open negb length]. destruct bound; cbn; by eexists.
  - destruct (try_turn_head (mkPipe e (Sending m w) (m0 :: q) true) m0 q eq_refl) as [q' Hq']. by eapply receive_head.
Qed.

(** At most two turns of the worker unblock the receiver: one to compute a
    message and one to send it. *)
Lemma receive_soon p :
  pipe_open p = true → is_Some (receive bound (try_turn bound work (try_turn bound work p))).
Proof.
  intros Ho. destruct (pipe_queue p) as [|m0 q] eqn:Hq.
  2: { destruct (try_turn_head p m0 q Hq) as [q1 H1]. destruct (try_turn_head _ m0 q1 H1) as [q2 H2]. by eapply receive_head. }
  destruct p as [e k q o]. cbn in Ho, Hq. subst o q. destruct k as [w|m w|w].
  - unfold try_turn at 2, worker_turn at 1. cbn [pipe_worker pipe_shared pipe_queue pipe_open].
    destruct (work e w) as [[[m|] w'] e']; cbn [default]; [by eapply receive_sending|by eexists].
  - destruct (decide (bound = 0%nat)) as [Hb|Hb].
    { unfold try_turn, worker_turn, receive. rewrite Hb. cbn. by eexists. }
    assert (try_turn bound work (mkPipe e (Sending m w) [] true) = mkPipe e (Busy w) [m] true) as ->.
    { unfold try_turn, worker_turn. cbn [pipe_worker pipe_queue pipe_open negb length]. by rewrite (proj2 (Nat.ltb_lt _ _)) by lia. }
    destruct (try_turn_head (mkPipe e (Busy w) [m] true) m [] eq_refl) as [q' Hq']. by eapply receive_head.
  - by eexists.
Qed.

(** Turns of a worker ([true]) and of a receiver that only receives. *)
Fixpoint pipe_run (turns : list bool) p : list (option M) * Pipe E W M :=
  match turns with
  | [] => ([], p)
  | true :: turns => pipe_run turns (try_turn bound work p)
  | false :: turns =>
      match receive bound p with
      | None => pipe_run turns p
      | Some (m, p) => let '(ms, p) := pipe_run turns p in (m :: ms, p)
      end
  end.

(** It gets the stream, from its head on; after the end there is no more. *)
Lemma pipe_run_stream turns p ms p' :
  pipe_ok p → pipe_open p = true → pipe_run turns p = (ms, p') →
  pipe_ok p' ∧ pipe_open p' = true ∧ stream p = (payload <$> omap id ms) ++ stream p' ∧ (None ∈ ms → stream p' = []).
Proof.
  revert p ms. induction turns as [|[] turns IH]; intros p ms Hp Ho; cbn [pipe_run].
  - intros [= <- <-]. split_and!; [done..|by intros ?%elem_of_nil].
  - destruct (try_turn_stream p Hp Ho) as (<- & Hp1 & Ho1). by apply IH.
  - destruct (receive bound p) as [[m p1]|] eqn:Hr; [|by apply IH].
    destruct (receive_stream _ _ _ Hp Hr) as (Hp1 & Ho1 & _ & Hm). rewrite Ho in Ho1.
    destruct (pipe_run turns p1) as [ms1 p2] eqn:Hrun. intros [= <- <-]. destruct (IH _ _ Hp1 Ho1 Hrun) as (Hp2 & Ho2 & Hs & Hnone).
    split; [done|]. split; [done|]. destruct m as [m|]; cbn [omap list_omap id].
    + rewrite Hm, Hs. split; [done|]. by intros [?|?]%elem_of_cons; [done|apply Hnone].
    + destruct Hm as [Hnil ->]. rewrite Hnil in Hs. symmetry in Hs. apply app_nil in Hs as [Hms ->].
      rewrite Hnil. unfold id in Hms |- *. by rewrite Hms.
Qed.

(** How far the worker is ahead. *)
Lemma ahead_bounded p : pipe_ok p → (length (ahead p) ≤ S bound)%nat.
Proof. intros [Hq _]. unfold ahead. rewrite length_app. destruct (pipe_worker p); cbn; lia. Qed.
End laws.

Section ending.
Context {E W M : Type} (bound : nat) (work : E → W → option M * W * E).
Implicit Types p : Pipe E W M.

Lemma hang_up_twice p : hang_up (hang_up p) = hang_up p.
Proof. done. Qed.

Lemma closed_turn p :
  pipe_open p = false →
  pipe_open (try_turn bound work p) = false ∧ pipe_queue (try_turn bound work p) = pipe_queue p.
Proof.
  destruct p as [e k q o]. cbn. intros ->. unfold try_turn, worker_turn. cbn [pipe_worker pipe_shared pipe_queue pipe_open negb].
  destruct k as [w|m w|w]; [|done..]. by destruct (work e w) as [[[m|] w'] e'].
Qed.

(** Once the receiver is gone the worker returns: it finishes what it computes
    and fails to send it. *)
Lemma closed_ends p : pipe_open p = false → has_ended (try_turn bound work (try_turn bound work p)) = true.
Proof.
  destruct p as [e k q o]. cbn. intros ->. unfold try_turn at 2, worker_turn at 1. cbn [pipe_worker pipe_shared pipe_queue pipe_open negb].
  destruct k as [w|m w|w]; [|done..]. by destruct (work e w) as [[[m|] w'] e'].
Qed.
End ending.

(** ** What the worker has done so far *)

Section history.
Context {E W M : Type} (bound : nat) (work : E → W → option M * W * E).
(** A record of the messages computed, in the shared and the worker's state. *)
Context (log : E → W → list M → Prop).
Context (log_work : ∀ e w m w' e' l, log e w l → work e w = (m, w', e') → log e' w' (l ++ option_list m)).
Implicit Types p : Pipe E W M.

Definition busy p : nat := match pipe_worker p with Busy _ => 1 | _ => 0 end.

(** [got] was received, [rest] computed besides: while the receiver is there it
    is on its way, and never more than the channel and the worker hold. *)
Definition history p (got : list M) : Prop :=
  ∃ rest, log (pipe_shared p) (worker_state p) (got ++ rest) ∧ (length rest + busy p ≤ S bound)%nat ∧
    (pipe_open p = true → rest = ahead p).

Lemma history_start e w : log e w [] → history (pipe_start e w) [].
Proof. intros Hl. exists []. split_and!; [done|cbn; lia|done]. Qed.

Lemma history_turn p got :
  (length (pipe_queue p) ≤ bound)%nat → history p got → history (try_turn bound work p) got.
Proof.
  destruct p as [e k q o]. cbn [pipe_queue]. intros Hq (rest & Hl & Hlen & Hrest). unfold try_turn, worker_turn, busy, ahead in *.
  cbn [pipe_worker pipe_shared pipe_queue pipe_open] in *.
  destruct k as [w|m w|w]; cbn [worker_state pipe_worker] in Hl.
  - destruct (work e w) as [[m w'] e'] eqn:Hw. exists (rest ++ option_list m).
    rewrite app_assoc. cbn [default pipe_shared pipe_open pipe_worker]. split; [destruct m; by apply (log_work _ _ _ _ _ _ Hl Hw)|].
    split; [rewrite length_app; destruct m; cbn; lia|]. intros Ho. rewrite (Hrest Ho), app_nil_r. by destruct m.
  - destruct o; cbn [negb].
    + specialize (Hrest eq_refl). subst rest. destruct (Nat.ltb_spec (length q) bound); cbn [default]; (exists (q ++ [m]); split; [done|]).
      * split; [|by cbn; rewrite app_nil_r]. cbn. rewrite length_app. cbn. lia.
      * split; [done|]. done.
    + exists rest. by split_and!.
  - exists rest. by split_and!.
Qed.

Lemma history_receive p m p' got :
  pipe_open p = true → receive bound p = Some (Some m, p') → history p got → history p' (got ++ [m]).
Proof.
  destruct p as [e k q o]. cbn [pipe_open]. intros -> Hr (rest & Hl & Hlen & Hrest). specialize (Hrest eq_refl).
  unfold receive, ahead, busy in *. cbn [pipe_worker pipe_shared pipe_queue pipe_open] in *. destruct q as [|m0 q].
  - destruct k as [w|m0 w|w]; [done| |done]. destruct (Nat.eqb_spec bound 0); [|done]. injection Hr as <- <-. subst rest.
    exists []. rewrite app_nil_r. split_and!; [done|cbn; lia|done].
  - injection Hr as <- <-. subst rest.
    exists (q ++ match k with Sending m _ => [m] | _ => [] end). rewrite <- app_assoc. split_and!; [exact Hl| |done]. destruct k; cbn in *; lia.
Qed.

Lemma history_hang_up p got : history p got → history (hang_up p) got.
Proof. intros (rest & Hl & Hlen & _). by exists rest. Qed.

Lemma history_shared p e got :
  (∀ w l, log (pipe_shared p) w l → log e w l) → history p got → history (with_shared p e) got.
Proof. intros He (rest & Hl & Hlen & Hrest). exists rest. split_and!; [by apply He|done|done]. Qed.
End history.
