(* ===== verification/Prefetch.v ===== *)
(** The prefetching reader as two threads ([crates/adbc-monetdb/src/driver.rs]):
    the worker of [PrefetchedBinaryReader] with the frames it sends, the response
    buffers that go back to it for reuse, the statistics both can see, and the
    calls of [next] that receive.  The direct reader with its buffer and
    statistics is here too.

    [ReadPath] has the readers without buffers and threads; what the two threads
    do in any order is shown to be what [ReadPath] says in [PrefetchProofs].

    Of a buffer the model keeps the capacity and the length.  What capacity the
    client library leaves a buffer with, and where a buffer is after shrinking,
    are parameters. *)

From stdpp Require Import base list numbers strings gmap.
From S2P Require Import Prelude RustStd Types Exportbin Calendar ArrowData Decode Inline Errors Ingest ReadPath ParameterReader Channel.
Local Open Scope Z_scope.

(** ** Vectors *)

(** [Vec::reserve_exact] of a vector with [length] elements. *)
Definition reserve_exact (length capacity additional : Z) : Z :=
  if capacity - length <? additional then length + additional else capacity.

(** Whether [shrink_owned_response] shrinks, and the capacity it leaves. *)
Definition shrinks (length capacity : Z) : bool := saturating_add length (length / 8) <? capacity.
Definition shrink_owned_response (length capacity : Z) : Z := if shrinks length capacity then length else capacity.

(** What is not the driver's of a buffer: the capacity [fetch_binary_into]
    leaves, for the rows asked for and the capacity it was given, and the
    address of a buffer that was shrunk. *)
Class ResponseBuffers (cursor : Type) := {
  capacity_after : cursor → Z → Z → Z → Z;
  shrunk_address : Z → Z;
}.

(** ** Statistics both threads write *)

Definition count_recycled (st : ReadStats) : ReadStats :=
  mkReadStats (read_window_budget_bytes st) (read_exact_batch_rows st) (initial_estimated_bytes_per_row st)
    (observed_bytes_per_row st) (read_window_rows st) (read_window_bytes st) (window_capacity_bytes st)
    (window_adopted st) (prefetch_engaged st) (recycled_buffers st + 1).

(** ** The worker *)

Record PrefetchPlan : Type := mkPrefetchPlan {
  plan_result_id : Z;
  plan_columns : list ResultColumn;
  plan_schema : list Field;
  plan_total_rows : Z;
  plan_scheduler : ReadWindowScheduler;
  plan_adopt_frame : bool;
  plan_stats : option ReadStats;
}.

(** The locals of the worker's loop; [fetch_returns] once it will return. *)
Record BinaryFetch {cursor : Type} : Type := mkFetch {
  fetch_cursor : cursor;
  fetch_next_row : Z;
  fetch_scheduler : ReadWindowScheduler;
  fetch_returns : bool;
}.
Arguments BinaryFetch : clear implicits.
Arguments mkFetch {cursor}.

(** The channel of buffers for reuse, by their capacities, and the statistics. *)
Record FetchShared : Type := mkShared {
  recycle_channel : list Z;
  shared_stats : option ReadStats;
}.

Definition RECYCLE_BOUND : nat := 2.
Definition FRAME_BOUND : nat := 1.

Section prefetch.
Context {cursor : Type} `{!ResultCursor cursor, !ResponseBuffers cursor} `{Arrow}.
Context (result_id : Z) (columns : list ResultColumn) (total_rows : Z) (adopt_frame : bool).

(** A frame, or an error, with the capacity of the buffer. *)
Local Abbreviation Message := (res ReadError BinaryFrame * Z)%type.

(** A buffer of the channel whose size suits: its capacity, whether there is
    one, and what is left in the channel. *)
Definition take_recycled (s : ReadWindowScheduler) (recycle : list Z) : Z * bool * list Z :=
  if adopt_frame then (0, false, recycle)
  else
    match recycle with
    | capacity :: recycle =>
        if bool_decide (is_Some (exact_batch_rows s)) || (capacity <=? saturating_mul (ReadPath.window_budget_bytes s) 2)
        then (capacity, true, recycle) else (0, false, recycle)
    | [] => (0, false, [])
    end.

(** The capacity a response is given room for. *)
Definition wanted_capacity (s : ReadWindowScheduler) (requested_rows : Z) : Z :=
  if adopt_frame then default 0 (owned_frame_capacity columns requested_rows)
  else response_capacity s requested_rows false.

Definition fetching_panicked : ReadError := RE_Parse "MonetDB result fetching panicked".

(** One round of [fetch_binary_frames] up to its send ([fetch_frame] is the
    request and its checks); nothing when the loop ends. *)
Definition fetch_round (e : FetchShared) (w : BinaryFetch cursor)
    : option Message * BinaryFetch cursor * FetchShared :=
  let next_row := fetch_next_row w in
  let remaining := total_rows - next_row in
  let returns := mkFetch (fetch_cursor w) next_row (fetch_scheduler w) true in
  if fetch_returns w || negb (next_row <? total_rows) then (None, w, e)
  else
    match next_rows (E := ReadError) (fetch_scheduler w) remaining with
    | Ok (requested_rows, s) =>
        let wanted := wanted_capacity s requested_rows in
        let '(capacity, recycled, recycle) := take_recycled s (recycle_channel e) in
        let stats := if recycled then count_recycled <$> shared_stats e else shared_stats e in
        let capacity := if capacity <? wanted then reserve_exact 0 capacity wanted else capacity in
        match fetch_frame (fetch_cursor w) result_id next_row (fetch_scheduler w) remaining with
        | Ok (frame, actual_rows, s, c) =>
            let capacity := capacity_after (fetch_cursor w) next_row requested_rows capacity in
            let stats :=
              (λ st, read_stats_record st actual_rows (len (frame_response frame)) capacity adopt_frame) <$> stats in
            (Some (Ok frame, capacity), mkFetch c (next_row + actual_rows) s (actual_rows =? 0), mkShared recycle stats)
        | Err value => (Some (Err value, 0), returns, mkShared recycle stats)
        | Panic => (Some (Err fetching_panicked, 0), returns, mkShared recycle stats)
        end
    | _ => (Some (Err fetching_panicked, 0), returns, e)
    end.

(** ** The consumer *)

(** A reader ([pr_receiver] is not used: the channel is [px_pipe]). *)
Record Prefetching : Type := mkPrefetching {
  px_reader : PrefetchedBinaryReader;
  px_pipe : Pipe FetchShared (BinaryFetch cursor) Message;
}.

Definition finish (x : Prefetching) : Prefetching :=
  let r := px_reader x in mkPrefetching (pr_update r (pr_decoded_rows r) [] true) (hang_up (px_pipe x)).

(** The address the decoder finds the response at: an adopted response is
    shrunk first. *)
Definition received_frame (frame : BinaryFrame) (capacity : Z) : BinaryFrame :=
  if adopt_frame && shrinks (len (frame_response frame)) capacity
  then mkBinaryFrame (frame_start frame) (frame_requested frame) (frame_response frame)
         (shrunk_address (frame_address frame))
  else frame.

(** [recycle_sender.try_send] of a decoded response, unless decoding unwound. *)
Definition recycle_response (r : PrefetchedBinaryReader) (frame : BinaryFrame) (capacity : Z) (ended : bool)
    (e : FetchShared) : FetchShared :=
  if adopt_frame then e
  else
    match decode_response false (frame_address frame) (frame_response frame) (pr_columns r) (pr_result_id r)
            (frame_start frame) (Z.to_nat (frame_requested frame)) (pr_schema r) with
    | Panic => e
    | _ =>
        if ended || (RECYCLE_BOUND <=? length (recycle_channel e))%nat then e
        else mkShared (recycle_channel e ++ [capacity]) (shared_stats e)
    end.

(** The receiver that holds one message, or none. *)
Definition with_receiver (r : PrefetchedBinaryReader) (receiver : list (option (res ReadError BinaryFrame)))
    : PrefetchedBinaryReader :=
  pr_update r (pr_decoded_rows r) receiver (pr_finished r).

(** A call of [next]; [None] while it waits for the worker.  What it does with a
    message is [prefetched_next]; a reader that is finished has no receiver. *)
Definition next_turn (x : Prefetching) : option (option (res ReadError RecordBatch) * Prefetching) :=
  let r := px_reader x in
  let returned (item_reader : option (res ReadError RecordBatch) * PrefetchedBinaryReader) p :=
    let x := mkPrefetching item_reader.2 p in
    Some (item_reader.1, if pr_finished item_reader.2 then finish x else x) in
  if pr_finished r || (pr_total_rows r <=? pr_decoded_rows r) then Some (None, finish x)
  else if negb (pipe_open (px_pipe x)) then
    Some (Some (Err (RE_Parse "MonetDB result prefetch receiver is unavailable")), finish x)
  else
    match receive FRAME_BOUND (px_pipe x) with
    | None => None
    | Some (None, p) => returned (prefetched_next (with_receiver r [])) p
    | Some (Some (Err value, _), p) => returned (prefetched_next (with_receiver r [Some (Err value)])) p
    | Some (Some (Panic, _), p) => returned (prefetched_next (with_receiver r [Some Panic])) p
    | Some (Some (Ok frame, capacity), p) =>
        let frame := received_frame frame capacity in
        returned (prefetched_next (with_receiver r [Some (Ok frame)]))
          (with_shared p (recycle_response r frame capacity (has_ended p) (pipe_shared p)))
    end.

(** [Drop]: the receiver goes away; the worker is joined if it completes within
    the turns it is given. *)
Definition prefetched_drop (grace : nat) (x : Prefetching) : Pipe FetchShared (BinaryFetch cursor) Message * bool :=
  let p := Nat.iter grace (try_turn FRAME_BOUND fetch_round) (hang_up (px_pipe x)) in (p, has_ended p).

(** ** Turns of the two threads *)

Inductive Turn : Type := WorkerTurn | NextTurn.

(** What [next] returned, call by call. *)
Fixpoint prefetch_run (turns : list Turn) (x : Prefetching) : list (option (res ReadError RecordBatch)) * Prefetching :=
  match turns with
  | [] => ([], x)
  | WorkerTurn :: turns =>
      prefetch_run turns (mkPrefetching (px_reader x) (try_turn FRAME_BOUND fetch_round (px_pipe x)))
  | NextTurn :: turns =>
      match next_turn x with
      | None => prefetch_run turns x
      | Some (item, x) => let '(items, x) := prefetch_run turns x in (item :: items, x)
      end
  end.
End prefetch.
Arguments Prefetching : clear implicits.
Arguments mkPrefetching {cursor}.

(** The plan of [query_result_with_timeouts] for a result; the statistics are
    kept when the caller has a place for them. *)
Definition result_plan (result : BinaryResult) (schema : list Field) (s : ReadWindowScheduler) (adopt_frame stats : bool)
    : PrefetchPlan :=
  mkPrefetchPlan (result_result_id result) (result_columns result) schema (result_total_rows result) s adopt_frame
    (if stats then Some (read_stats_new s true) else None).

Section start.
Context {cursor : Type} `{!ResultCursor cursor}.

(** [PrefetchedBinaryReader::new], the thread being started. *)
Definition prefetching_new (c : cursor) (plan : PrefetchPlan) : Prefetching cursor :=
  mkPrefetching
    (mkPrefetched (plan_result_id plan) (plan_columns plan) (plan_schema plan) (plan_total_rows plan) 0
       (plan_adopt_frame plan) [] false)
    (pipe_start (mkShared [] (plan_stats plan)) (mkFetch c 0 (plan_scheduler plan) false)).

Context `{!ResponseBuffers cursor} `{Arrow}.

Definition prefetching_run (c : cursor) (plan : PrefetchPlan) (turns : list Turn) :=
  prefetch_run (plan_result_id plan) (plan_columns plan) (plan_total_rows plan) (plan_adopt_frame plan) turns
    (prefetching_new c plan).

(** The calls of [ReadPath]'s reader, for which the worker is the list of what
    it sends. *)
Fixpoint prefetched_calls (n : nat) (r : PrefetchedBinaryReader) : list (option (res ReadError RecordBatch)) :=
  match n with
  | O => []
  | S n => let '(item, r) := prefetched_next r in item :: prefetched_calls n r
  end.

(** ** The direct reader with its buffer *)

Record DirectReading : Type := mkDirect {
  direct_binary : BinaryReader cursor;
  (** [response]: its length and capacity. *)
  direct_length : Z;
  direct_capacity : Z;
  direct_stats : option ReadStats;
}.

(** The direct reader of [query_result_with_timeouts]. *)
Definition direct_new (c : cursor) (result : BinaryResult) (schema : list Field) (s : ReadWindowScheduler)
    (adopt_frame stats : bool) : DirectReading :=
  mkDirect (direct_reader c result schema s adopt_frame) 0 0 (if stats then Some (read_stats_new s false) else None).

(** [next_inner]: the item and the reader are those of [binary_next]; a window
    is recorded once it is fetched, with the rows asked for. *)
Definition direct_next (x : DirectReading) : option (res ReadError RecordBatch) * DirectReading :=
  let r := direct_binary x in
  let '(item, r') := binary_next r in
  let unchanged := mkDirect r' (direct_length x) (direct_capacity x) (direct_stats x) in
  if br_finished r || (br_total_rows r <=? br_next_row r) then (item, unchanged)
  else
    match next_rows (E := ReadError) (br_scheduler r) (br_total_rows r - br_next_row r) with
    | Ok (count, s) =>
        let wanted := wanted_capacity (br_columns r) (br_adopt_frame r) s count in
        let capacity :=
          if br_adopt_frame r then wanted
          else if direct_capacity x <? wanted then reserve_exact (direct_length x) (direct_capacity x) wanted
          else direct_capacity x in
        match (fetch_binary_into (br_cursor r) (br_next_row r) count).1 with
        | Ok response =>
            let capacity := capacity_after (br_cursor r) (br_next_row r) count capacity in
            let recorded capacity :=
              (λ st, read_stats_record st count (len response) capacity (br_adopt_frame r)) <$> direct_stats x in
            (item,
             if br_adopt_frame r
             then mkDirect r' (direct_length x) (direct_capacity x)
                    (recorded (shrink_owned_response (len response) capacity))
             else mkDirect r' (len response) capacity (recorded capacity))
        | _ => (item, unchanged)
        end
    | _ => (item, unchanged)
    end.

(** What a consumer sees of a direct reader in [n] calls. *)
Fixpoint direct_calls (n : nat) (x : DirectReading) : list (option (res ReadError RecordBatch)) * DirectReading :=
  match n with
  | O => ([], x)
  | S n => let '(item, x) := direct_next x in let '(items, x) := direct_calls n x in (item :: items, x)
  end.
End start.
