(* ===== verification/PrefetchProofs.v ===== *)
(** The prefetching reader as two threads: in every order of their turns the
    calls of [next] return what the reader of [ReadPath] returns, no call waits
    forever, the worker stays at most two windows ahead, and the statistics are
    those of the windows it fetched. *)

From stdpp Require Import base list numbers strings gmap.
From S2P Require Import Prelude RustStd Types Exportbin Calendar ArrowData Decode DecodeProofs Codec Chunked Inline InlineProofs Errors Ingest ReadPath ReadPathProofs ParameterReader Channel Prefetch.
Local Open Scope Z_scope.

(** ** The worker *)

Section worker.
Context {cursor : Type} `{!ResultCursor cursor, !ResponseBuffers cursor} `{Arrow}.
Context (result_id : Z) (columns : list ResultColumn) (total : Z) (adopt : bool).
Abbreviation fetch_round := (fetch_round result_id columns total adopt).
Abbreviation frames fuel w :=
  (fetch_binary_frames fuel (fetch_cursor w) result_id (fetch_next_row w) total (fetch_scheduler w)).
Implicit Types w : BinaryFetch cursor.

Lemma next_rows_no_err {E} s remaining e : next_rows (E := E) s remaining ≠ Err e.
Proof. unfold next_rows. destruct (exact_batch_rows s); [done|]. by destruct (_ =? 0). Qed.

(** A frame that is not empty makes progress. *)
Lemma fetch_frame_rows c row s remaining frame actual s' c' :
  fetch_frame c result_id row s remaining = Ok (frame, actual, s', c') → 0 ≤ actual.
Proof.
  unfold fetch_frame. intros ([requested s1] & _ & Hf)%bind_ok. destruct (fetch_binary_into _ _ _) as [fetched c1].
  apply bind_ok in Hf as (response & _ & Hf). apply bind_ok in Hf as (h & _ & Hf). do 2 (case_match; [done|]).
  unfold usize_try_from in Hf. destruct (unsigned_range 64 (header_row_count h)) eqn:Hu; [|done].
  destruct (_ <=? _); [|done]. injection Hf as _ <- _ _. unfold unsigned_range in Hu.
  by apply andb_true_iff in Hu as [Hu%Z.leb_le _].
Qed.

(** A round for every row is enough, more make no difference. *)
Lemma fetch_frames_fuel f1 f2 c row s :
  total - row ≤ Z.of_nat f1 → total - row ≤ Z.of_nat f2 →
  fetch_binary_frames f1 c result_id row total s = fetch_binary_frames f2 c result_id row total s.
Proof.
  revert f2 c row s. induction f1 as [|f1 IH]; intros f2 c row s H1 H2.
  { destruct f2; cbn [fetch_binary_frames]; by rewrite (proj2 (Z.ltb_ge _ _)) by lia. }
  destruct f2 as [|f2]; cbn [fetch_binary_frames]; destruct (Z.ltb_spec row total); try done; [lia|].
  destruct (fetch_frame _ _ _ _ _) as [[[[frame actual] s'] c']| |] eqn:Hf; [|done..]. f_equal.
  pose proof (fetch_frame_rows _ _ _ _ _ _ _ _ Hf). destruct (Z.eqb_spec actual 0); [done|]. apply IH; lia.
Qed.

(** What the worker will send. *)
Definition fetch_payload (m : res ReadError BinaryFrame * Z) : option (res ReadError BinaryFrame) := Some m.1.
Definition fetch_future w : list (option (res ReadError BinaryFrame)) :=
  if fetch_returns w then [] else frames (Z.to_nat (total - fetch_next_row w)) w.

(** A round of the worker, by what it sends. *)
Lemma fetch_round_future e w m w' e' :
  fetch_round e w = (m, w', e') →
  match m with
  | Some m => fetch_future w = fetch_payload m :: fetch_future w'
  | None => fetch_future w = []
  end.
Proof.
  unfold fetch_round, Prefetch.fetch_round, fetch_future. destruct (fetch_returns w) eqn:Hret; [by intros [= <- <- <-]|]. cbn [orb].
  destruct (Z.ltb_spec (fetch_next_row w) total) as [Hlt|Hge]; cbn [negb].
  2: { intros [= <- <- <-]. rewrite Z2Nat.nonpos by lia. cbn [fetch_binary_frames]. by rewrite (proj2 (Z.ltb_ge _ _)) by lia. }
  destruct (Z.to_nat (total - fetch_next_row w)) as [|fuel] eqn:Hfuel; [lia|]. cbn [fetch_binary_frames].
  rewrite (proj2 (Z.ltb_lt _ _) Hlt). unfold fetch_frame at 2.
  destruct (next_rows (fetch_scheduler w) _) as [[requested s]|err|] eqn:Hn; cbn [mbind res_bind].
  2: by apply next_rows_no_err in Hn.
  2: by intros [= <- <- <-].
  destruct (take_recycled _ _ _) as [[capacity recycled] recycle]. fold (fetch_frame (fetch_cursor w) result_id (fetch_next_row w) (fetch_scheduler w) (total - fetch_next_row w)).
  destruct (fetch_frame _ _ _ _ _) as [[[[frame actual] s'] c']| |] eqn:Hf; unfold fetch_frame in Hf; rewrite Hn in Hf; cbn [mbind res_bind] in Hf; rewrite Hf;
    intros [= <- <- <-]; [|done..].
  unfold fetch_payload. cbn [fst fetch_returns fetch_next_row fetch_cursor fetch_scheduler]. f_equal.
  destruct (Z.eqb_spec actual 0) as [|Hne]; [done|].
  assert (0 ≤ actual) by (apply (fetch_frame_rows (fetch_cursor w) (fetch_next_row w) (fetch_scheduler w) (total - fetch_next_row w) frame actual s' c');
    unfold fetch_frame; by rewrite Hn).
  apply fetch_frames_fuel; lia.
Qed.

#[export] Instance fetch_worker_laws : WorkerLaws fetch_round fetch_payload (λ _, True) fetch_future.
Proof. split; intros e w *; intros _ Hw; apply fetch_round_future in Hw; done. Qed.
End worker.

(** ** Calls on a list of messages *)

Section calls.
Context {cursor : Type} `{!ResultCursor cursor, !ResultCursorLaws cursor, !ResponseBuffers cursor} `{Arrow, !ArrowLaws}.
Context (result_id : Z) (columns : list ResultColumn) (schema : list Field) (total : Z) (adopt : bool).
Context (Hcolumns : Forall column_ok columns) (Hschema : schema_for_columns columns = Ok schema).
Implicit Types (r seq : PrefetchedBinaryReader) (x : Prefetching cursor).

(** A reader of this result. *)
Definition reads r : Prop :=
  pr_result_id r = result_id ∧ pr_columns r = columns ∧ pr_schema r = schema ∧ pr_total_rows r = total ∧ pr_adopt_frame r = adopt.

(** A call uses one message at most and leaves the others, unless the reader is
    finished. *)
Lemma prefetched_next_tail r m rest item r' :
  pr_finished r = false → prefetched_next (with_receiver r [m]) = (item, r') →
  (pr_total_rows r <=? pr_decoded_rows r) = false →
  prefetched_next (with_receiver r (m :: rest)) = (item, if pr_finished r' then r' else with_receiver r' rest).
Proof.
  intros Hf Hn Hend. unfold prefetched_next, prefetched_next_inner, with_receiver, pr_update in *.
  cbn [pr_finished pr_total_rows pr_decoded_rows pr_receiver pr_adopt_frame pr_columns pr_result_id pr_schema] in *.
  rewrite Hf, Hend in *. cbn [orb] in *. destruct m as [[frame|e|]|]; [|by injection Hn as <- <-..].
  destruct (map_err _ _) as [batch|e|]; [|by injection Hn as <- <-..].
  destruct (0 <? batch_rows batch)%nat; [|by injection Hn as <- <-]. destruct (u64_max <? _); [by injection Hn as <- <-|].
  injection Hn as <- <-. cbn [pr_finished]. by case_match.
Qed.

(** The address of a response does not matter. *)
Lemma prefetched_next_address r frame capacity :
  reads r → prefetched_next (with_receiver r [Some (Ok (received_frame adopt frame capacity))]) =
            prefetched_next (with_receiver r [Some (Ok frame)]).
Proof.
  intros (Hi & Hc & Hs & Ht & Ha). unfold received_frame. destruct (adopt && _); [|done].
  unfold prefetched_next, prefetched_next_inner, with_receiver, pr_update.
  cbn [pr_finished pr_total_rows pr_decoded_rows pr_receiver pr_adopt_frame pr_columns pr_result_id pr_schema frame_address frame_response frame_start frame_requested].
  rewrite Hc, Hs, !(decode_response_eq columns schema _ Hcolumns Hschema). by repeat (case_match; simplify_eq/=).
Qed.

Lemma prefetched_next_reads r item r' : reads r → prefetched_next r = (item, r') → reads r'.
Proof.
  intros Hr Hn. unfold prefetched_next, prefetched_next_inner in Hn.
  repeat (case_match; simplify_eq/=; try done).
Qed.

(** ** The two threads *)

Abbreviation fetch_round := (fetch_round result_id columns total adopt).
Abbreviation future := (fetch_future result_id total).
Abbreviation next_turn := (next_turn adopt).
Abbreviation prefetch_run := (prefetch_run result_id columns total adopt).

(** The threads have done what [seq] has done: while it reads, the rest of its
    list is what the channel and the worker hold. *)
Record agree x seq : Prop := {
  agree_reader : px_reader x = with_receiver seq [];
  agree_reads : reads seq;
  agree_open : pr_finished seq = false →
    pipe_open (px_pipe x) = true ∧ pipe_ok FRAME_BOUND (λ _, True) (px_pipe x) ∧
    pr_receiver seq = stream fetch_payload future (px_pipe x);
  agree_closed : pr_finished seq = true → pipe_open (px_pipe x) = false ∧ pipe_queue (px_pipe x) = [];
}.

Lemma agree_worker x seq :
  agree x seq → agree (mkPrefetching (px_reader x) (try_turn FRAME_BOUND fetch_round (px_pipe x))) seq.
Proof.
  intros [Hr Hs Ho Hc]. split; [done|done| |].
  - intros Hf. destruct (Ho Hf) as (Hopen & Hok & Hstream). cbn [px_pipe].
    destruct (try_turn_stream FRAME_BOUND fetch_round fetch_payload (λ _, True) future (px_pipe x) Hok Hopen) as (-> & Hok' & Ho').
    done.
  - intros Hf. cbn [px_pipe]. destruct (Hc Hf) as [Hclosed <-]. by apply closed_turn.
Qed.

(** A finished call leaves the same. *)
Lemma agree_finished x seq' r p :
  reads r → pr_finished r = true → seq' = r → pr_receiver r = [] → agree (finish (mkPrefetching r p)) seq'.
Proof.
  intros Hr Hf -> Hrec. split; [|done|congruence|done].
  unfold finish, with_receiver, pr_update. cbn. by rewrite Hf.
Qed.

(** A call uses up a list of one message. *)
Lemma prefetched_single_receiver r m item r' :
  prefetched_next (with_receiver r [m]) = (item, r') → pr_receiver r' = [].
Proof.
  unfold prefetched_next, prefetched_next_inner, with_receiver. intros Hn.
  repeat (case_match; simplify_eq/=; try done).
Qed.

Lemma with_receiver_id r : with_receiver r (pr_receiver r) = r.
Proof. by destruct r. Qed.

(** A call with message [m] in front of the list agrees with the call that
    receives it. *)
Lemma agree_message x seq m (p : Pipe FetchShared (BinaryFetch cursor) (res ReadError BinaryFrame * Z)) rest item r' :
  agree x seq → pr_finished seq = false → (pr_total_rows seq <=? pr_decoded_rows seq) = false →
  pr_receiver seq = m :: rest → prefetched_next (with_receiver seq [m]) = (item, r') →
  pipe_open p = true → pipe_ok FRAME_BOUND (λ _, True) p → stream fetch_payload future p = rest →
  ∃ seq', prefetched_next seq = (item, seq') ∧
    agree (if pr_finished r' then finish (mkPrefetching r' p) else mkPrefetching r' p) seq'.
Proof.
  intros [Hr Hs Ho Hc] Hf He Hrec Hn Hopen Hok Hstream.
  pose proof (prefetched_next_tail seq m rest item r' Hf Hn He) as Ht. rewrite <- Hrec, with_receiver_id in Ht.
  eexists. split; [exact Ht|]. assert (reads r') as Hr' by (eapply prefetched_next_reads; [|exact Hn]; done).
  pose proof (prefetched_single_receiver _ _ _ _ Hn) as Hempty. destruct (pr_finished r') eqn:Hf'.
  - by apply agree_finished.
  - split; [|done| |cbn; congruence]; [cbn [px_reader]|intros _; by split_and!].
    rewrite <- (with_receiver_id r') at 1. by rewrite Hempty.
Qed.

(** A call that returns. *)
Lemma agree_next x seq item x' :
  agree x seq → next_turn x = Some (item, x') → ∃ seq', prefetched_next seq = (item, seq') ∧ agree x' seq'.
Proof.
  intros Ha Hn. pose proof Ha as [Hr Hs Ho Hc]. unfold next_turn, Prefetch.next_turn in Hn. rewrite Hr in Hn.
  cbn [with_receiver pr_update pr_finished pr_total_rows pr_decoded_rows] in Hn.
  destruct (pr_finished seq || (pr_total_rows seq <=? pr_decoded_rows seq)) eqn:Hend.
  { injection Hn as <- <-. unfold prefetched_next, prefetched_next_inner. rewrite Hend. eexists. split; [done|].
    unfold finish. rewrite Hr. by split. }
  apply orb_false_iff in Hend as [Hf He]. destruct (Ho Hf) as (Hopen & Hok & Hstream). rewrite Hopen in Hn. cbn [negb] in Hn.
  destruct (receive FRAME_BOUND (px_pipe x)) as [[m p]|] eqn:Hrecv; [|done].
  destruct (receive_stream FRAME_BOUND fetch_payload (λ _, True) future _ _ _ Hok Hrecv) as (Hok' & Hopen' & Hshared & Hm). rewrite Hopen in Hopen'.
  change (with_receiver (with_receiver seq []) ?l) with (with_receiver seq l) in Hn.
  destruct m as [[[frame|e|] capacity]|].
  - rewrite (prefetched_next_address seq) in Hn by done. destruct (prefetched_next (with_receiver seq [Some (Ok frame)])) as [i r'] eqn:Hp.
    injection Hn as <- <-. apply (agree_message x seq (Some (Ok frame)) _ (stream fetch_payload future p)); try done; [by rewrite Hstream|].
    by apply with_shared_ok.
  - destruct (prefetched_next (with_receiver seq [Some (Err e)])) as [i r'] eqn:Hp. injection Hn as <- <-.
    apply (agree_message x seq (Some (Err e)) _ (stream fetch_payload future p)); try done. by rewrite Hstream.
  - destruct (prefetched_next (with_receiver seq [Some Panic])) as [i r'] eqn:Hp. injection Hn as <- <-.
    apply (agree_message x seq (Some Panic) _ (stream fetch_payload future p)); try done. by rewrite Hstream.
  - destruct Hm as [Hnil ->]. rewrite <- Hstream in Hnil. destruct (prefetched_next (with_receiver seq [])) as [i r'] eqn:Hp.
    injection Hn as <- <-. rewrite <- Hnil, with_receiver_id in Hp. exists r'. split; [done|].
    assert (pr_finished r' = true ∧ pr_receiver r' = []) as [Hf' Hrec'].
    { revert Hp. unfold prefetched_next, prefetched_next_inner. rewrite Hf, He, Hnil. cbn. by intros [= <- <-]. }
    rewrite Hf'. apply agree_finished; try done. by eapply prefetched_next_reads.
Qed.

(** No call waits for more than two turns of the worker. *)
Lemma next_soon x seq :
  agree x seq →
  let turn x := mkPrefetching (px_reader x) (try_turn FRAME_BOUND fetch_round (px_pipe x)) in
  is_Some (next_turn (turn (turn x))).
Proof.
  intros Ha turn. pose proof (agree_worker _ _ (agree_worker _ _ Ha)) as Ha2. fold (turn x) in Ha2. fold (turn (turn x)) in Ha2.
  destruct Ha2 as [Hr _ Ho _]. destruct Ha as [_ _ Ho0 _].
  unfold next_turn, Prefetch.next_turn. rewrite Hr. cbn [with_receiver pr_update pr_finished pr_total_rows pr_decoded_rows].
  destruct (pr_finished seq || _) eqn:Hend; [by eexists|]. apply orb_false_iff in Hend as [Hf _].
  destruct (Ho Hf) as (-> & _). cbn [negb].
  destruct (receive_soon FRAME_BOUND fetch_round (px_pipe x) (proj1 (Ho0 Hf))) as [[m p] Hrecv].
  cbn [turn px_pipe]. rewrite Hrecv. destruct m as [[[frame|e|] capacity]|]; by eexists.
Qed.

Lemma agree_run turns x seq items x' :
  agree x seq → prefetch_run turns x = (items, x') →
  items = prefetched_calls (length items) seq ∧ ∃ seq', agree x' seq' ∧
  ∀ n, prefetched_calls (length items + n) seq = items ++ prefetched_calls n seq'.
Proof.
  revert x seq items. induction turns as [|[] turns IH]; intros x seq items Ha; cbn [prefetch_run Prefetch.prefetch_run].
  - intros [= <- <-]. split; [done|]. by exists seq.
  - apply IH. by apply agree_worker.
  - fold (next_turn x). destruct (next_turn x) as [[item x1]|] eqn:Hn; [|by apply IH].
    destruct (agree_next _ _ _ _ Ha Hn) as (seq1 & Hp & Ha1). fold prefetch_run.
    destruct (prefetch_run turns x1) as [items1 x2] eqn:Hrun. intros [= <- <-].
    destruct (IH _ _ _ Ha1 Hrun) as (Hitems & seq' & Ha' & Hcalls). cbn [length prefetched_calls Nat.add]. rewrite Hp.
    split; [by rewrite <- Hitems|]. exists seq'. split; [done|]. intros n. by rewrite Hcalls.
Qed.

(** ** What the worker has fetched *)

(** The frames among messages, with the capacities of their buffers. *)
Definition windows (l : list (res ReadError BinaryFrame * Z)) : list (BinaryFrame * Z) :=
  omap (λ m : res ReadError BinaryFrame * Z, match m.1 with Ok frame => Some (frame, m.2) | _ => None end) l.

Definition row_sum (rows : list Z) : Z := foldr Z.add 0 rows.

(** The statistics of the messages [l], the worker being at [w]. *)
Definition stats_log (st : ReadStats) (w : BinaryFetch cursor) (l : list (res ReadError BinaryFrame * Z)) : Prop :=
  read_window_bytes st = (λ fc : BinaryFrame * Z, len (frame_response fc.1)) <$> windows l ∧
  window_capacity_bytes st = snd <$> windows l ∧ window_adopted st = (λ _, adopt) <$> windows l ∧
  length (read_window_rows st) = length (windows l) ∧ row_sum (read_window_rows st) = fetch_next_row w ∧
  0 ≤ recycled_buffers st ≤ len l.

(** The messages so far and what the worker will still send are [all]; at most
    two buffers wait for reuse; statistics are kept if they are asked for. *)
Definition fetch_log (stats : bool) (all : list (option (res ReadError BinaryFrame))) (e : FetchShared) (w : BinaryFetch cursor)
    (l : list (res ReadError BinaryFrame * Z)) : Prop :=
  all = (fetch_payload <$> l) ++ future w ∧ (length (recycle_channel e) ≤ RECYCLE_BOUND)%nat ∧
  match shared_stats e with Some st => stats = true ∧ stats_log st w l | None => stats = false end.

Lemma row_sum_snoc rows n : row_sum (rows ++ [n]) = row_sum rows + n.
Proof. unfold row_sum. induction rows as [|k rows IH]; cbn; lia. Qed.

Lemma take_recycled_shrinks s recycle capacity recycled rest :
  take_recycled adopt s recycle = (capacity, recycled, rest) → (length rest ≤ length recycle)%nat.
Proof. unfold take_recycled. intros Ht. repeat (case_match; simplify_eq/=); lia. Qed.

(** A message with a frame is recorded, and another is not. *)
Lemma stats_log_frame st w l frame capacity w' actual recycled :
  stats_log st w l → fetch_next_row w' = fetch_next_row w + actual →
  stats_log (read_stats_record (if recycled : bool then count_recycled st else st) actual (len (frame_response frame)) capacity adopt)
    w' (l ++ [(Ok frame, capacity)]).
Proof.
  intros (Hb & Hc & Ha & Hl & Hs & Hr) Hw. unfold stats_log, windows. rewrite omap_app. cbn [omap list_omap fst snd]. rewrite !fmap_app.
  split_and!; destruct recycled; cbn; rewrite ?Hb, ?Hc, ?Ha, ?row_sum_snoc, ?length_app, ?Hl; cbn; try done; try lia.
Qed.

Lemma stats_log_error st w l m w' (recycled : bool) :
  stats_log st w l → fetch_next_row w' = fetch_next_row w → (∀ frame, m.1 ≠ Ok frame) →
  stats_log (if recycled then count_recycled st else st) w' (l ++ [m]).
Proof.
  intros (Hb & Hc & Ha & Hl & Hs & Hr) Hw Hm. unfold stats_log, windows. rewrite omap_app.
  replace (omap _ [m]) with (@nil (BinaryFrame * Z)) by (destruct m as [[frame|e|] c]; [by destruct (Hm frame)|done..]). rewrite app_nil_r.
  rewrite length_app. split_and!; destruct recycled; first [exact Hb|exact Hc|exact Ha|exact Hl|rewrite Hw; exact Hs|cbn; lia].
Qed.

Lemma fetch_log_work stats all e w m w' e' l :
  fetch_log stats all e w l → fetch_round e w = (m, w', e') → fetch_log stats all e' w' (l ++ option_list m).
Proof.
  intros (Hall & Hrec & Hst) Hw. pose proof (fetch_round_future _ _ _ _ _ _ _ _ _ Hw) as Hf.
  split; [|revert Hw; clear Hf].
  { destruct m as [m|]; cbn [option_list]; [|]; rewrite Hall, Hf, ?app_nil_r; [by rewrite fmap_app, <- app_assoc|].
    unfold fetch_round, Prefetch.fetch_round in Hw. repeat (case_match; simplify_eq/=); by rewrite Hf, app_nil_r. }
  unfold fetch_round, Prefetch.fetch_round. destruct (fetch_returns w || _); [intros [= <- <- <-]; cbn [option_list]; by rewrite app_nil_r|].
  destruct (next_rows _ _) as [[requested s]| |] eqn:Hn.
  2: by apply next_rows_no_err in Hn.
  2: { intros [= <- <- <-]. split; [done|]. destruct (shared_stats e); [|done]. destruct Hst as [-> Hst]. by split; [|apply (stats_log_error _ w _ _ _ false)]. }
  destruct (take_recycled _ _ _) as [[capacity recycled] recycle] eqn:Ht. apply take_recycled_shrinks in Ht.
  destruct (fetch_frame _ _ _ _ _) as [[[[frame actual] s'] c']| |]; intros [= <- <- <-]; (split; [cbn; lia|]); cbn [shared_stats];
    destruct (shared_stats e) as [st|], recycled; cbn; try done.
  all: destruct Hst as [-> Hst]; (split; [done|]).
  all: first [by apply (stats_log_frame st w l frame _ _ actual true) | by apply (stats_log_frame st w l frame _ _ actual false)
    | by apply (stats_log_error st w l _ _ true) | by apply (stats_log_error st w l _ _ false)].
Qed.

Lemma recycle_log stats all r frame capacity ended e w l :
  fetch_log stats all e w l → fetch_log stats all (recycle_response adopt r frame capacity ended e) w l.
Proof.
  intros (Hall & Hrec & Hst). unfold recycle_response. destruct adopt eqn:Had; [by split_and!|].
  destruct (decode_response _ _ _ _ _ _ _ _); try (by split_and!).
  all: destruct (ended || _) eqn:Hroom; [by split_and!|]; apply orb_false_iff in Hroom as [_ Hroom%Nat.leb_gt];
    (split; [done|]); (split; [|done]); cbn; rewrite length_app; cbn; lia.
Qed.

(** Batches among what calls returned. *)
Definition batches_of (items : list (option (res ReadError RecordBatch))) : list RecordBatch :=
  omap (λ item : option (res ReadError RecordBatch), match item with Some (Ok batch) => Some batch | _ => None end) items.

Lemma batch_has_frame r m batch r' :
  prefetched_next (with_receiver r [m]) = (Some (Ok batch), r') → ∃ frame, m = Some (Ok frame).
Proof.
  unfold prefetched_next, prefetched_next_inner, with_receiver. cbn. destruct (_ || _); [done|].
  destruct m as [[frame|e|]|]; [by exists frame|done..].
Qed.

Lemma queue_bound x seq : agree x seq → (length (pipe_queue (px_pipe x)) ≤ FRAME_BOUND)%nat.
Proof.
  intros [_ _ Ho Hc]. destruct (pr_finished seq); [destruct (Hc eq_refl) as [_ ->]; cbn; lia|].
  by destruct (Ho eq_refl) as (_ & [Hq _] & _).
Qed.

Abbreviation history stats all := (history FRAME_BOUND (fetch_log stats all)).

(** A call that returns, by the message it received. *)
Lemma history_next stats all x seq item x' got :
  agree x seq → history stats all (px_pipe x) got → next_turn x = Some (item, x') →
  ∃ new, history stats all (px_pipe x') (got ++ new) ∧ (length new ≤ 1)%nat ∧
    (length (batches_of [item]) ≤ length (windows new))%nat.
Proof.
  intros [Hr Hs Ho Hc] Hh Hn. unfold next_turn, Prefetch.next_turn in Hn. rewrite Hr in Hn.
  cbn [with_receiver pr_update pr_finished pr_total_rows pr_decoded_rows] in Hn.
  destruct (pr_finished seq || _) eqn:Hend.
  { injection Hn as <- <-. exists []. rewrite app_nil_r. split_and!; [by apply history_hang_up|cbn; lia..]. }
  apply orb_false_iff in Hend as [Hf He]. destruct (Ho Hf) as (Hopen & Hok & Hstream). rewrite Hopen in Hn. cbn [negb] in Hn.
  destruct (receive FRAME_BOUND (px_pipe x)) as [[m p]|] eqn:Hrecv; [|done].
  change (with_receiver (with_receiver seq []) ?l) with (with_receiver seq l) in Hn.
  assert (∀ (r : PrefetchedBinaryReader) q new, history stats all q (got ++ new) →
    history stats all (px_pipe (if pr_finished r then finish (mkPrefetching r q) else mkPrefetching r q)) (got ++ new)) as Hfin.
  { intros r q new Hq. destruct (pr_finished r); [by apply history_hang_up|done]. }
  destruct m as [[[frame|e|] capacity]|].
  - destruct (prefetched_next (with_receiver seq _)) as [i r']. injection Hn as <- <-. exists [(Ok frame, capacity)].
    split; [|split; [done|destruct i as [[]|]; cbn; lia]]. apply Hfin, history_shared; [intros w l; apply recycle_log|].
    by eapply history_receive.
  - destruct (prefetched_next (with_receiver seq _)) as [i r'] eqn:Hp. injection Hn as <- <-. exists [(Err e, capacity)].
    split; [by eapply Hfin, history_receive|]. split; [done|]. destruct i as [[]|]; cbn; try lia. by apply batch_has_frame in Hp as [? ?].
  - destruct (prefetched_next (with_receiver seq _)) as [i r'] eqn:Hp. injection Hn as <- <-. exists [(Panic, capacity)].
    split; [by eapply Hfin, history_receive|]. split; [done|]. destruct i as [[]|]; cbn; try lia. by apply batch_has_frame in Hp as [? ?].
  - destruct (receive_stream FRAME_BOUND fetch_payload (λ _, True) future _ _ _ Hok Hrecv) as (_ & _ & _ & _ & ->).
    destruct (prefetched_next (with_receiver seq [])) as [i r'] eqn:Hp. injection Hn as <- <-. exists [].
    split; [by apply Hfin; rewrite app_nil_r|]. split; [cbn; lia|].
    revert Hp. unfold prefetched_next, prefetched_next_inner, with_receiver. cbn. rewrite Hf, He. cbn. intros [= <- <-]. cbn. lia.
Qed.

Lemma history_run stats all turns x seq items x' got :
  agree x seq → history stats all (px_pipe x) got → prefetch_run turns x = (items, x') →
  ∃ new seq', agree x' seq' ∧ history stats all (px_pipe x') (got ++ new) ∧ (length new ≤ length items)%nat ∧
    (length (batches_of items) ≤ length (windows new))%nat.
Proof.
  revert x seq items got. induction turns as [|[] turns IH]; intros x seq items got Ha Hh; cbn [prefetch_run Prefetch.prefetch_run].
  - intros [= <- <-]. exists [], seq. rewrite app_nil_r. split_and!; try done; cbn; lia.
  - apply (IH _ seq); [by apply agree_worker|]. apply history_turn; [apply fetch_log_work|by eapply queue_bound|done].
  - fold (next_turn x). destruct (next_turn x) as [[item x1]|] eqn:Hn; [|by apply (IH _ seq)].
    destruct (agree_next _ _ _ _ Ha Hn) as (seq1 & Hp & Ha1). fold prefetch_run.
    destruct (history_next _ _ _ _ _ _ _ Ha Hh Hn) as (new1 & Hh1 & Hlen1 & Hb1).
    destruct (prefetch_run turns x1) as [items1 x2] eqn:Hrun. intros [= <- <-].
    destruct (IH _ _ _ _ Ha1 Hh1 Hrun) as (new & seq' & Ha' & Hh' & Hlen & Hb). exists (new1 ++ new), seq'.
    rewrite app_assoc. split_and!; [done|done|rewrite length_app; cbn; lia|].
    change (item :: items1) with ([item] ++ items1). unfold batches_of, windows in *. rewrite !omap_app, !length_app. lia.
Qed.
End calls.

(** ** Claims *)

Section claims.
Context {cursor : Type} `{!ResultCursor cursor, !ResultCursorLaws cursor, !ResponseBuffers cursor} `{Arrow, !ArrowLaws}.

Lemma agree_start c result schema s adopt stats :
  agree (result_result_id result) (result_columns result) schema (result_total_rows result) adopt
    (prefetching_new c (result_plan result schema s adopt stats)) (prefetched_reader c result schema s adopt).
Proof.
  split; [done|by split_and!| |done]. intros _. split; [done|]. split; [by apply pipe_start_ok|].
  cbn [prefetching_new result_plan px_pipe plan_stats plan_scheduler]. rewrite stream_start. unfold fetch_future, prefetched_reader.
  cbn [fetch_returns pr_receiver fetch_cursor fetch_next_row fetch_scheduler]. apply fetch_frames_fuel; lia.
Qed.

Lemma run_snoc c plan turns tail :
  let '(items, x) := prefetching_run c plan turns in
  prefetching_run c plan (turns ++ tail) =
    let '(more, x') := prefetch_run (plan_result_id plan) (plan_columns plan) (plan_total_rows plan) (plan_adopt_frame plan) tail x in
    (items ++ more, x').
Proof.
  unfold prefetching_run. generalize (prefetching_new c plan). induction turns as [|[] turns IH]; intros x; cbn [app prefetch_run].
  - by destruct (prefetch_run _ _ _ _ tail x).
  - apply IH.
  - destruct (next_turn _ x) as [[item x1]|]; [|apply IH]. specialize (IH x1).
    destruct (prefetch_run _ _ _ _ turns x1) as [items x2]. rewrite IH. by destruct (prefetch_run _ _ _ _ tail x2).
Qed.

(** Joining a worker whose receiver is gone. *)
Lemma iter_ended n (p : Pipe FetchShared (BinaryFetch cursor) (res ReadError BinaryFrame * Z)) bound work :
  has_ended p = true → has_ended (Nat.iter n (try_turn bound work) p) = true.
Proof.
  intros Hp. induction n as [|n IH]; [done|]. rewrite Nat.iter_succ. revert IH. generalize (Nat.iter n (try_turn bound work) p).
  intros [e [] q o] Hq; done.
Qed.

Lemma drop_joined id columns total adopt grace x :
  (2 ≤ grace)%nat → (prefetched_drop id columns total adopt grace x).2 = true.
Proof.
  intros Hg. unfold prefetched_drop. replace grace with (grace - 2 + 2)%nat by lia.
  rewrite Nat.iter_add. cbn [snd]. apply iter_ended. cbn [Nat.iter]. by apply closed_ends.
Qed.

(** C9. The prefetching reader does what its sequential description does, in
    every interleaving.  Whatever turns the worker and the consumer take, the
    calls of [next] return one after the other what [ReadPath]'s reader returns,
    for which the worker is the list of frames it sends; a call never waits for
    more than two turns of the worker; and when the reader is dropped at any
    time, the worker ends within two turns and is joined. *)
Theorem prefetch_threads_refine c result schema s adopt stats turns items x :
  Forall column_ok (result_columns result) → schema_for_columns (result_columns result) = Ok schema →
  prefetching_run c (result_plan result schema s adopt stats) turns = (items, x) →
  let sequential := prefetched_reader c result schema s adopt in
  items = prefetched_calls (length items) sequential ∧
  (prefetching_run c (result_plan result schema s adopt stats) (turns ++ [WorkerTurn; WorkerTurn; NextTurn])).1 =
    prefetched_calls (S (length items)) sequential ∧
  ∀ grace, (2 ≤ grace)%nat →
    (prefetched_drop (result_result_id result) (result_columns result) (result_total_rows result) adopt grace x).2 = true.
Proof.
  intros Hcols Hs Hrun sequential. pose proof (agree_start c result schema s adopt stats) as Ha.
  destruct (agree_run _ _ _ _ _ Hcols Hs _ _ _ _ _ Ha Hrun) as (Hitems & seq' & Ha' & Hcalls). split; [done|]. split.
  - pose proof (run_snoc c (result_plan result schema s adopt stats) turns [WorkerTurn; WorkerTurn; NextTurn]) as Hsnoc.
    rewrite Hrun in Hsnoc. rewrite Hsnoc. cbn [prefetch_run]. 
    destruct (next_soon _ _ _ _ _ x seq' Ha') as [[item x'] Hnext]. cbn [result_plan plan_result_id plan_columns plan_total_rows plan_adopt_frame] in *.
    rewrite Hnext. cbn [fst]. rewrite <- Nat.add_1_r, Hcalls. f_equal. cbn [prefetched_calls].
    destruct (agree_next _ _ _ _ _ Hcols Hs _ _ _ _ (agree_worker _ _ _ _ _ _ _ (agree_worker _ _ _ _ _ _ _ Ha')) Hnext) as (seq2 & -> & _).
    done.
  - intros grace Hg. by apply drop_joined.
Qed.

(** The sizes of the frames among messages. *)
Definition frame_sizes (messages : list (option (res ReadError BinaryFrame))) : list Z :=
  omap (λ m : option (res ReadError BinaryFrame), match m with Some (Ok frame) => Some (len (frame_response frame)) | _ => None end) messages.

Lemma frame_sizes_windows l : frame_sizes (fetch_payload <$> l) = (λ fc : BinaryFrame * Z, len (frame_response fc.1)) <$> windows l.
Proof. unfold frame_sizes, windows. induction l as [|[[frame|e|] capacity] l IH]; cbn in *; by rewrite ?IH. Qed.

Lemma windows_length l : (length (windows l) ≤ length l)%nat.
Proof. unfold windows. induction l as [|[[frame|e|] capacity] l IH]; cbn in *; lia. Qed.

(** C20. Prefetching is bounded and its statistics are true, at every moment of
    every interleaving: at most two windows are fetched and not yet received
    (one in the channel, one in the hands of the worker), at most two buffers
    wait for reuse, and the statistics list exactly the windows the worker has
    fetched, the first of the sequential description, with their sizes; they are
    at least as many as the batches returned and at most two more than the calls
    that were made, and their rows add up to the row the worker has reached. *)
Theorem prefetch_bounded c result schema s adopt turns items x :
  Forall column_ok (result_columns result) → schema_for_columns (result_columns result) = Ok schema →
  prefetching_run c (result_plan result schema s adopt true) turns = (items, x) →
  let p := px_pipe x in
  (length (ahead p) ≤ 2)%nat ∧ (length (recycle_channel (pipe_shared p)) ≤ 2)%nat ∧
  ∃ st k, shared_stats (pipe_shared p) = Some st ∧
    read_window_bytes st = take k (frame_sizes (pr_receiver (prefetched_reader c result schema s adopt))) ∧
    length (read_window_rows st) = k ∧ row_sum (read_window_rows st) = fetch_next_row (worker_state p) ∧
    window_adopted st = replicate k adopt ∧ (length (batches_of items) ≤ k ≤ length items + 2)%nat.
Proof.
  intros Hcols Hs Hrun p. pose proof (agree_start c result schema s adopt true) as Ha.
  set (sequential := prefetched_reader c result schema s adopt) in *.
  assert (history FRAME_BOUND (fetch_log (result_result_id result) (result_total_rows result) adopt true (pr_receiver sequential))
    (px_pipe (prefetching_new c (result_plan result schema s adopt true))) []) as Hh.
  { apply history_start. split; [|split; [cbn; lia|split; [done|]]].
    - destruct (agree_open _ _ _ _ _ _ _ Ha eq_refl) as (_ & _ & ->). done.
    - by split_and!. }
  destruct (history_run _ _ _ _ _ Hcols Hs _ _ _ _ _ _ _ _ Ha Hh Hrun) as (got & seq' & Ha' & (rest & (Hall & Hrec & Hst) & Hlen & _) & Hgot & Hb).
  pose proof (queue_bound _ _ _ _ _ _ _ Ha') as Hq. fold p in Hall, Hrec, Hst, Hlen, Hq.
  split; [unfold ahead, FRAME_BOUND in *; rewrite length_app; destruct (pipe_worker p); cbn; lia|]. split; [done|].
  destruct (shared_stats (pipe_shared p)) as [st|]; [|done]. destruct Hst as (_ & Hbytes & _ & Hadopt & Hrows & Hsum & _). cbn [app] in *.
  exists st, (length (windows (got ++ rest))). split; [done|]. split_and!; try done.
  - rewrite Hbytes, Hall. unfold frame_sizes. rewrite omap_app. fold (frame_sizes (fetch_payload <$> got ++ rest)).
    rewrite frame_sizes_windows, take_app_le, take_ge; rewrite ?length_fmap; done.
  - rewrite Hadopt. by apply const_fmap.
  - unfold windows in Hb |- *. rewrite omap_app, length_app. lia.
  - pose proof (windows_length (got ++ rest)) as Hw. rewrite length_app in Hw. unfold FRAME_BOUND in *. lia.
Qed.
End claims.

(** ** A result read by two threads *)

Section covering.
Context {cursor : Type} `{!ResultCursor cursor, !ResultCursorLaws cursor, !ResponseBuffers cursor} `{Arrow, !ArrowLaws}.

Lemma prefetched_calls_finished n r : pr_finished r = true → prefetched_calls n r = replicate n None.
Proof.
  revert r. induction n as [|n IH]; intros r Hf; [done|]. cbn [prefetched_calls replicate].
  unfold prefetched_next, prefetched_next_inner. rewrite Hf. cbn [orb]. f_equal. by apply IH.
Qed.

Lemma prefetched_next_none r r' : prefetched_next r = (None, r') → pr_finished r' = true.
Proof. unfold prefetched_next, prefetched_next_inner. intros Hn. repeat (case_match; simplify_eq/=; try done). Qed.

(** Calls return what a run to the end returns, and nothing after it. *)
Lemma prefetched_calls_run fuel n r items r' :
  prefetched_run fuel r = Ok (items, r') → prefetched_calls n r = take n ((Some <$> items) ++ replicate n None).
Proof.
  revert n r items. induction fuel as [|fuel IH]; intros n r items; [done|]. cbn [prefetched_run].
  destruct n as [|n]; [done|]. cbn [prefetched_calls]. destruct (prefetched_next r) as [[item|] r1] eqn:Hn.
  - destruct (prefetched_run fuel r1) as [[items1 r2]| |] eqn:Hrun; cbn [mbind res_bind]; [|done..]. intros [= <- <-].
    cbn [fmap list_fmap app take]. f_equal. rewrite (IH n _ _ Hrun).
    symmetry. rewrite replicate_S, replicate_cons_app, app_assoc. apply take_app_le. rewrite length_app, length_replicate. lia.
  - intros [= <- <-]. cbn [fmap list_fmap app replicate take]. f_equal. rewrite prefetched_calls_finished by (by eapply prefetched_next_none).
    rewrite take_ge; [done|]. by rewrite length_replicate.
Qed.

(** C8. With its two threads the prefetching reader delivers a result from its first
    row to its last: whatever the server answers there is one sequence of
    batches, which answer requests for consecutive rows and reach the last row
    unless an error follows them (of a panic of the decoder only if there is a
    column of addresses and the result has more than 55,063,683 rows), and the calls of [next] return it from its
    beginning, in every interleaving. *)
Theorem threads_read_covers c result schema s adopt stats :
  0 < result_total_rows result ≤ u64_max → rs_ok s → Forall column_ok (result_columns result) →
  schema_for_columns (result_columns result) = Ok schema →
  ∃ batches tail c' row,
    tiles (result_columns result) schema (result_result_id result) (result_total_rows result) c 0 batches c' row ∧
    (tail = [] ∧ row = result_total_rows result ∨ ∃ e, tail = [Err e] ∧ row < result_total_rows result ∧
       (inet_columns_fit (result_columns result) (Z.to_nat (result_total_rows result)) → e ≠ decoding_panicked)) ∧
    ∀ turns items x, prefetching_run c (result_plan result schema s adopt stats) turns = (items, x) →
      items = take (length items) ((Some <$> (Ok <$> batches) ++ tail) ++ replicate (length items) None).
Proof.
  intros Ht Hs Hcols Hschema.
  destruct (prefetched_run_tiles _ schema (result_result_id result) (result_total_rows result) Hcols Hschema (read_fuel result)
    (S (Z.to_nat (result_total_rows result))) c 0 s adopt) as (batches & tail & p' & c' & row & Hrun & Htiles & Htail);
    [done|unfold read_fuel; lia..|].
  exists batches, tail, c', row. split; [done|]. split; [done|]. intros turns items x Hturns.
  destruct (agree_run _ _ _ _ _ Hcols Hschema _ _ _ _ _ (agree_start c result schema s adopt stats) Hturns) as [Hitems _].
  rewrite Hitems at 1. by apply (prefetched_calls_run (read_fuel result) _ _ _ p').
Qed.
End covering.

(** ** The direct reader's statistics *)

Section direct.
Context {cursor : Type} `{!ResultCursor cursor, !ResponseBuffers cursor} `{Arrow}.
Implicit Types x : DirectReading (cursor := cursor).

Definition is_batch (item : option (res ReadError RecordBatch)) : nat := match item with Some (Ok _) => 1 | _ => 0 end.
Definition ended (r : BinaryReader cursor) : nat := if br_finished r then 1 else 0.
Definition recorded (st : option ReadStats) : nat := from_option (λ st, length (read_window_rows st)) 0%nat st.

(** Buffers and statistics do not change what is read; a window is recorded for
    every batch, and one more at most when the reader ends with an error. *)
Lemma direct_next_step x item x' :
  direct_next x = (item, x') →
  binary_next (direct_binary x) = (item, direct_binary x') ∧
  (is_Some (direct_stats x) → is_Some (direct_stats x') ∧
   (recorded (direct_stats x) + is_batch item ≤ recorded (direct_stats x') ≤
      recorded (direct_stats x) + is_batch item + (ended (direct_binary x') - ended (direct_binary x)))%nat).
Proof.
  unfold direct_next, binary_next, binary_next_inner, ended, recorded. intros Hn. destruct x as [r size capacity stats].
  cbn [direct_binary direct_length direct_capacity direct_stats] in *.
  destruct (br_finished r) eqn:Hf; cbn [orb] in *; [injection Hn as <- <-; cbn; split; [done|intros; split; [done|lia]]|].
  destruct (br_total_rows r <=? br_next_row r); [injection Hn as <- <-; cbn; split; [done|intros; split; [done|lia]]|].
  destruct (next_rows _ _) as [[count s]| |]; [|injection Hn as <- <-; cbn; split; [done|intros; split; [done|lia]]..].
  destruct (fetch_binary_into _ _ _) as [[response|e|] c]; cbn [fst] in Hn; [|injection Hn as <- <-; cbn; split; [done|intros; split; [done|lia]]..].
  destruct (map_err _ _) as [batch|e|]; [destruct (0 <? batch_rows batch)%nat; [destruct (u64_max <? _)|]|..];
    destruct (br_adopt_frame r); injection Hn as <- <-; cbn; (split; [done|]); intros [st ->]; cbn; (split; [by eexists|]); rewrite length_app; cbn; lia.
Qed.

Fixpoint binary_calls (n : nat) (r : BinaryReader cursor) : list (option (res ReadError RecordBatch)) :=
  match n with
  | O => []
  | S n => let '(item, r) := binary_next r in item :: binary_calls n r
  end.

(** The direct reader with its buffer and statistics returns what [ReadPath]'s
    does, and records a window for every batch it returns, one more at most. *)
Theorem direct_statistics n x items x' :
  direct_calls n x = (items, x') →
  items = binary_calls n (direct_binary x) ∧
  (is_Some (direct_stats x) →
   (recorded (direct_stats x) + length (batches_of items) ≤ recorded (direct_stats x') ≤
      recorded (direct_stats x) + length (batches_of items) + (ended (direct_binary x') - ended (direct_binary x)))%nat ∧
   (ended (direct_binary x) ≤ ended (direct_binary x'))%nat).
Proof.
  revert x items. induction n as [|n IH]; intros x items; cbn [direct_calls binary_calls]; [intros [= <- <-]; cbn; split; [done|]; lia|].
  destruct (direct_next x) as [item x1] eqn:Hn. destruct (direct_calls n x1) as [items1 x2] eqn:Hc. intros [= <- <-].
  destruct (direct_next_step _ _ _ Hn) as [-> Hst]. destruct (IH _ _ Hc) as [-> IHst]. split; [done|]. intros Hs.
  destruct (Hst Hs) as [Hs1 Hr1]. destruct (IHst Hs1) as [Hr2 He2].
  assert (ended (direct_binary x) ≤ ended (direct_binary x1))%nat as He1.
  { clear -Hn. apply direct_next_step in Hn as [Hn _]. unfold ended. destruct (br_finished (direct_binary x)) eqn:Hf; [|lia].
    unfold binary_next, binary_next_inner in Hn. rewrite Hf in Hn. injection Hn as _ <-. done. }
  change (item :: ?l) with ([item] ++ l). unfold batches_of in *. rewrite omap_app, length_app.
  replace (length (omap _ [item])) with (is_batch item) by (by destruct item as [[]|]). lia.
Qed.
End direct.

(** ** Concrete inputs *)

(** The server of [ReadPathProofs] with one column of numbers; the client leaves
    buffers as they are and at least 64 bytes large. *)
Definition roomy_buffers : ResponseBuffers unit := {|
  capacity_after _ _ _ capacity := Z.max capacity 64;
  shrunk_address address := address + 4096 |}.

Definition numbers_scheduler (batch : Z) : ReadWindowScheduler := read_scheduler_new (result_columns numbers_result) batch None 0 None.

(** Windows of two rows at most, decoded from the response or in its buffer. *)
Definition numbers_prefetch (adopt : bool) (turns : list Turn) :=
  prefetching_run (ResultCursor0 := numbers_cursor 2) (ResponseBuffers0 := roomy_buffers) ()
    (result_plan numbers_result numbers_schema (numbers_scheduler 4) adopt true) turns.

(** A call before the worker has sent, the worker as far ahead as it gets, and
    calls to the end. *)
Definition some_turns : list Turn :=
  [NextTurn; WorkerTurn; NextTurn; WorkerTurn; NextTurn; WorkerTurn; WorkerTurn; WorkerTurn; WorkerTurn; NextTurn;
   WorkerTurn; NextTurn; NextTurn].

Definition item_rows (item : option (res ReadError RecordBatch)) : option nat :=
  match item with Some (Ok batch) => Some (batch_rows batch) | _ => None end.

Lemma prefetch_threads_refine_witness :
  item_rows <$> (numbers_prefetch false some_turns).1 = [Some 2; Some 2; Some 1; None]%nat ∧
  (numbers_prefetch false some_turns).1 =
    prefetched_calls 4 (prefetched_reader (ResultCursor0 := numbers_cursor 2) () numbers_result numbers_schema (numbers_scheduler 4) false).
Proof.
  split; [by vm_compute|]. pose proof (numbers_cursor_laws 2) as Hlaws.
  destruct (numbers_prefetch false some_turns) as [items x] eqn:Hrun.
  pose proof (prefetch_threads_refine (ResultCursor0 := numbers_cursor 2) (ResponseBuffers0 := roomy_buffers) () numbers_result numbers_schema
    (numbers_scheduler 4) false true some_turns items x ltac:(by repeat constructor) ltac:(by vm_compute) Hrun) as [Hitems _].
  cbn [fst]. replace 4%nat with (length items); [exact Hitems|].
  assert (length (numbers_prefetch false some_turns).1 = 4%nat) as Hl by (by vm_compute). by rewrite Hrun in Hl.
Defined.

Lemma prefetch_bounded_witness :
  let x := (numbers_prefetch true (take 8 some_turns)).2 in
  length (ahead (px_pipe x)) = 2%nat ∧ (read_window_rows <$> shared_stats (pipe_shared (px_pipe x))) = Some [2; 2; 1] ∧
  ∃ st, shared_stats (pipe_shared (px_pipe x)) = Some st ∧ row_sum (read_window_rows st) = 5.
Proof.
  split; [by vm_compute|]. split; [by vm_compute|].
  destruct (numbers_prefetch true (take 8 some_turns)) as [items x] eqn:Hrun.
  pose proof (prefetch_bounded (ResultCursor0 := numbers_cursor 2) (ResponseBuffers0 := roomy_buffers) () numbers_result numbers_schema
    (numbers_scheduler 4) true (take 8 some_turns) items x ltac:(by repeat constructor) ltac:(by vm_compute) Hrun)
    as (_ & _ & st & k & Hst & _ & _ & Hsum & _).
  exists st. cbn [snd]. split; [exact Hst|]. rewrite Hsum.
  assert (fetch_next_row (worker_state (px_pipe (numbers_prefetch true (take 8 some_turns)).2)) = 5) as Hr by (by vm_compute).
  by rewrite Hrun in Hr.
Defined.

(** Five rows from a server that answers two at a time. *)
Lemma threads_read_covers_witness :
  ∃ batches tail, (tail = [] ∨ ∃ e, tail = [Err e]) ∧
    omap item_rows (numbers_prefetch false some_turns).1 = [2; 2; 1]%nat ∧
    (numbers_prefetch false some_turns).1 = take 4 ((Some <$> (Ok <$> batches) ++ tail) ++ replicate 4 None).
Proof.
  pose proof (numbers_cursor_laws 2) as Hlaws.
  destruct (threads_read_covers (ResultCursor0 := numbers_cursor 2) (ResponseBuffers0 := roomy_buffers) () numbers_result numbers_schema
    (numbers_scheduler 4) false true ltac:(done) (read_scheduler_new_ok _ _ _ _ _) ltac:(by repeat constructor) ltac:(by vm_compute))
    as (batches & tail & c' & row & _ & Htail & Hturns). exists batches, tail.
  split; [destruct Htail as [[-> _]|(e & -> & _)]; [by left|right; by exists e]|]. split; [by vm_compute|].
  replace 4%nat with (length (numbers_prefetch false some_turns).1) by (by vm_compute).
  eapply (Hturns some_turns). apply surjective_pairing.
Defined.
