(* ===== verification/IngestThreads.v ===== *)
(** The threads of an ingest ([crates/adbc-monetdb/src/driver.rs]): the worker
    that prepares windows while the one before is uploaded
    ([start_ingest_window_prefetch], [IngestWindowPrefetch]), and the encoder of
    retained Arrow data with its messages ([RetainedEncodeMessage],
    [encode_retained_columns], [upload_retained_column]).

    [IngestRun] and [Ingest] have these without threads: a window is computed
    when it is asked for, and a column's chunks are a list.  In every order of
    the threads' turns the ingest gets the same. *)

From stdpp Require Import base list numbers strings gmap.
From S2P Require Import Prelude RustStd Types Calendar ArrowData Encode Errors SqlScan Template PreparedCache Compression Ingest Transactions Prepare ParameterBatch Statement ReadPath Options Connection Append IngestMemory IngestRun Channel.
Local Open Scope Z_scope.

(** ** The worker that prepares windows *)

(** The loop goes on, is left after the send, or has panicked. *)
Inductive WindowLoop : Type := Looping | LoopLeft | LoopPanicked.

Record WindowWorker : Type := mkWindowWorker {
  worker_scheduler : IngestWindowScheduler;
  worker_loop : WindowLoop;
}.

(** [sync_channel(0)]: a window is handed over. *)
Definition WINDOW_BOUND : nat := 0.

Section windows.
Context `{ArrowStream, Chrono, Half, Lz4, CursorDisplay, SqlFormat}.
Local Abbreviation Message := (res Error (option EncodedIngestWindow)).
Local Abbreviation Windows := (Pipe unit WindowWorker Message).

(** One round of the loop up to its send.  A panic ends the thread, which
    closes the channel.  (After an error or a panic the ingest detaches the
    worker, and nothing looks at the scheduler any more.) *)
Definition window_round (shared : unit) (w : WindowWorker) : option Message * WindowWorker * unit :=
  let s := worker_scheduler w in
  match worker_loop w with
  | Looping =>
      match next_window s with
      | Ok (Some window, s) => (Some (Ok (Some window)), mkWindowWorker s Looping, shared)
      | Ok (None, s) => (Some (Ok None), mkWindowWorker s LoopLeft, shared)
      | Err e => (Some (Err e), mkWindowWorker s LoopLeft, shared)
      | Panic => (None, mkWindowWorker s LoopPanicked, shared)
      end
  | _ => (None, w, shared)
  end.

(** The threads as [start_ingest_window_prefetch] leaves them. *)
Definition windows_start (s : IngestWindowScheduler) : Windows := pipe_start () (mkWindowWorker s Looping).

(** [IngestWindowPrefetch::next_window]; [late] when the time it may wait is
    over.  [None] while it waits. *)
Definition next_window_turn (late : bool) (timeout : option Z) (p : Windows) : option (Message * Windows) :=
  if negb (pipe_open p) then Some (Err (error "ingest window prefetch is no longer available" InvalidState), p)
  else
    match receive WINDOW_BOUND p with
    | Some (Some m, p) => Some (m, p)
    | Some (None, p) => Some (Err stopped_early, p)
    | None =>
        if bool_decide (is_Some timeout) && late
        then Some (Err (timed_out "ingest source did not produce a window before the operation timeout"), hang_up p)
        else None
    end.

(** [IngestWindowPrefetch::finish]: a worker whose receiver was gone before is
    left alone; otherwise the receiver is dropped and the worker joined, after
    the turns it takes to end ([None] while it has not).  The counters are those
    of the scheduler. *)
Definition windows_finish (turns : nat) (p : Windows) : option (res Error (option IngestWindowScheduler)) :=
  if negb (pipe_open p) then Some (Ok None)
  else
    let p := Nat.iter turns (try_turn WINDOW_BOUND window_round) (hang_up p) in
    match pipe_worker p with
    | Ended w =>
        Some (match worker_loop w with
              | LoopPanicked => Err (error "ingest window prefetch thread panicked" Internal)
              | _ => Ok (Some (worker_scheduler w))
              end)
    | _ => None
    end.

(** The memory the worker's closure has reserved: until it ends. *)
Definition reservation_held (bytes : Z) (p : Windows) : Z := if has_ended p then 0 else bytes.

(** ** Turns *)

Inductive WindowTurn : Type :=
| PrepareTurn
| ReceiveTurn (late : bool) (timeout : option Z).

(** What the calls returned. *)
Fixpoint windows_run (turns : list WindowTurn) (p : Windows) : list Message * Windows :=
  match turns with
  | [] => ([], p)
  | PrepareTurn :: turns => windows_run turns (try_turn WINDOW_BOUND window_round p)
  | ReceiveTurn late timeout :: turns =>
      match next_window_turn late timeout p with
      | None => windows_run turns p
      | Some (m, p) => let '(ms, p) := windows_run turns p in (m :: ms, p)
      end
  end.

(** The same calls without threads, with the times that were over. *)
Fixpoint window_calls (calls : list (bool * option Z)) (q : IngestWindowPrefetch) : list Message * IngestWindowPrefetch :=
  match calls with
  | [] => ([], q)
  | (late, timeout) :: calls =>
      let '(m, q) := prefetch_next_window late timeout q in
      let '(ms, q) := window_calls calls q in (m :: ms, q)
  end.

(** ** The two agree *)

Implicit Types (p : Windows) (q : IngestWindowPrefetch).

(** While the receiver is there, the worker has computed at most the window that
    the next call will return. *)
Record windows_agree p q : Prop := {
  windows_queue : pipe_queue p = [];
  windows_open : pipe_open p = prefetch_receiver q;
  windows_worker : pipe_open p = true →
    match pipe_worker p with
    | Busy w => w = mkWindowWorker (prefetch_scheduler q) (if prefetch_finished q then LoopLeft else Looping)
    | Sending m w => prefetch_finished q = false ∧ window_round () (mkWindowWorker (prefetch_scheduler q) Looping) = (Some m, w, ())
    | Ended w => worker_scheduler w = prefetch_scheduler q ∧
        (prefetch_finished q = true ∨ next_window (prefetch_scheduler q) = Panic)
    end;
}.

Lemma windows_agree_start s : windows_agree (windows_start s) (mkPrefetch s true false).
Proof. by split. Qed.

Lemma windows_agree_prepare p q : windows_agree p q → windows_agree (try_turn WINDOW_BOUND window_round p) q.
Proof.
  destruct p as [[] k queue o]. intros [Hq Ho Hw]. cbn in Hq, Ho, Hw. subst queue. unfold try_turn, worker_turn.
  cbn [pipe_worker pipe_shared pipe_queue pipe_open length]. destruct k as [w|m w|w].
  - destruct (window_round () w) as [[m w'] []] eqn:Hr. cbn [from_option id default]. split; [done|done|]. cbn. intros Hopen.
    rewrite (Hw Hopen) in Hr. revert Hr. unfold window_round. cbn [worker_scheduler worker_loop].
    destruct (prefetch_finished q); [intros [= <- <-]; cbn; eauto|].
    destruct (next_window (prefetch_scheduler q)) as [[[window|] s]|e|]; intros [= <- <-]; cbn; eauto.
  - destruct o; cbn; by split.
  - by split.
Qed.

(** A call that returns is a call without threads; its time is over only where
    the call's was. *)
Lemma windows_agree_receive p q late timeout m p' :
  windows_agree p q → next_window_turn late timeout p = Some (m, p') →
  ∃ late' q', (late' = true → late = true) ∧ prefetch_next_window late' timeout q = (m, q') ∧ windows_agree p' q'.
Proof.
  destruct p as [[] k queue o]. intros [Hq Ho Hw] Hn. cbn in Hq, Ho, Hw. subst queue o. unfold next_window_turn in Hn.
  cbn [pipe_open] in Hn. unfold prefetch_next_window. destruct (prefetch_receiver q) eqn:Hrec; cbn [negb] in *.
  2: { injection Hn as <- <-. exists false, q. split_and!; [done..|]. by split. }
  specialize (Hw eq_refl). destruct k as [w|m0 w|w]; cbn [receive pipe_queue pipe_worker WINDOW_BOUND Nat.eqb pipe_shared pipe_open] in Hn.
  - destruct (bool_decide (is_Some timeout) && late) eqn:Hlate; [|done]. injection Hn as <- <-.
    apply andb_true_iff in Hlate as [Ht ->]. exists true. rewrite Ht. cbn [andb]. eexists. split; [done|]. split; [done|]. by split.
  - injection Hn as <- <-. exists false. rewrite andb_false_r. destruct Hw as [-> Hr]. revert Hr. unfold window_round.
    cbn [worker_scheduler worker_loop].
    destruct (next_window (prefetch_scheduler q)) as [[[window|] s]|e|]; intros [= <- <-]; eexists; (split; [done|]); (split; [reflexivity|]); by split.
  - injection Hn as <- <-. exists false. rewrite andb_false_r. destruct Hw as [Hs Hend].
    destruct (prefetch_finished q) eqn:Hf.
    + exists q. split; [done|]. split; [done|]. split; [done|done|]. cbn. rewrite Hf. eauto.
    + destruct Hend as [|Hp]; [done|]. rewrite Hp. eexists. split; [done|]. split; [done|]. split; [done|done|]. cbn. eauto.
Qed.

(** A call's time is over only if a turn's was. *)
Definition late_in (turns : list WindowTurn) (call : bool * option Z) : Prop :=
  call.1 = true → ∃ timeout, ReceiveTurn true timeout ∈ turns.

Lemma late_in_cons turn turns calls : Forall (late_in turns) calls → Forall (late_in (turn :: turns)) calls.
Proof. intros Hl. eapply Forall_impl; [exact Hl|]. intros call Hc Ht. destruct (Hc Ht) as [t Hin]. exists t. by right. Qed.

Lemma windows_agree_run turns p q ms p' :
  windows_agree p q → windows_run turns p = (ms, p') →
  ∃ calls q', window_calls calls q = (ms, q') ∧ windows_agree p' q' ∧ Forall (late_in turns) calls.
Proof.
  revert p q ms. induction turns as [|[|late timeout] turns IH]; intros p q ms Ha; cbn [windows_run].
  - intros [= <- <-]. by exists [], q.
  - intros Hrun. destruct (IH _ _ _ (windows_agree_prepare _ _ Ha) Hrun) as (calls & q' & Hc & Ha' & Hl). exists calls, q'.
    split_and!; [done|done|by apply late_in_cons].
  - destruct (next_window_turn late timeout p) as [[m p1]|] eqn:Hn.
    + destruct (windows_agree_receive _ _ _ _ _ _ Ha Hn) as (late' & q1 & Hlate & Hp & Ha1).
      destruct (windows_run turns p1) as [ms1 p2] eqn:Hrun. intros [= <- <-].
      destruct (IH _ _ _ Ha1 Hrun) as (calls & q' & Hc & Ha' & Hl). exists ((late', timeout) :: calls), q'.
      cbn [window_calls]. rewrite Hp, Hc. split_and!; [done|done|]. constructor; [|by apply late_in_cons].
      intros Ht. exists timeout. rewrite (Hlate Ht). left.
    + intros Hrun. destruct (IH _ _ _ Ha Hrun) as (calls & q' & Hc & Ha' & Hl). exists calls, q'. split_and!; [done|done|by apply late_in_cons].
Qed.

(** A call without a time limit returns after at most two turns of the worker. *)
Lemma next_window_soon late timeout p :
  pipe_open p = true → is_Some (next_window_turn late timeout (try_turn WINDOW_BOUND window_round (try_turn WINDOW_BOUND window_round p))).
Proof.
  intros Ho. unfold next_window_turn. destruct (negb (pipe_open _)); [by eexists|].
  destruct (receive_soon WINDOW_BOUND window_round p Ho) as [[[m|] p'] ->]; by eexists.
Qed.

(** The worker has left its loop, or is about to. *)
Definition loop_left p : Prop :=
  pipe_open p = true →
  match pipe_worker p with Busy w | Ended w => worker_loop w = LoopLeft | Sending _ _ => False end.

Lemma loop_left_prepare p : loop_left p → loop_left (try_turn WINDOW_BOUND window_round p).
Proof.
  intros Hl Hopen. destruct (pipe_open p) eqn:Ho; [|by destruct (closed_turn WINDOW_BOUND window_round p Ho); congruence].
  specialize (Hl Ho). destruct p as [[] [w|m w|w] queue o]; cbn in Hl, Ho |- *; [|done|done].
  unfold try_turn, worker_turn, window_round. cbn. by rewrite Hl.
Qed.

(** The end of the stream was the last thing received: the loop is left. *)
Lemma loop_left_receive p q late timeout p' :
  windows_agree p q → next_window_turn late timeout p = Some (Ok None, p') → loop_left p'.
Proof.
  destruct p as [[] k queue o]. intros [Hq Ho Hw]. cbn in Hq, Ho, Hw. subst queue. unfold next_window_turn, loop_left. cbn [pipe_open].
  destruct o; [|done]. specialize (Hw eq_refl).
  destruct k as [w|m0 w|w]; cbn [negb receive pipe_queue pipe_worker WINDOW_BOUND Nat.eqb pipe_shared pipe_open]; [by destruct (bool_decide (is_Some timeout) && late)| |done].
  intros [= -> <-] _. cbn [pipe_worker]. destruct Hw as [_ Hr]. revert Hr. unfold window_round. cbn [worker_scheduler worker_loop].
  destruct (next_window (prefetch_scheduler q)) as [[[window|] s]|e|]; by intros [= <-].
Qed.

Lemma loop_left_run turns p q ms p' :
  windows_agree p q → windows_run turns p = (ms, p') →
  match last ms with Some m => m = Ok None | None => loop_left p end → loop_left p'.
Proof.
  revert p q ms. induction turns as [|[|late timeout] turns IH]; intros p q ms Ha; cbn [windows_run].
  - by intros [= <- <-].
  - intros Hrun Hl. eapply IH; [by apply windows_agree_prepare|exact Hrun|]. destruct (last ms); [done|by apply loop_left_prepare].
  - destruct (next_window_turn late timeout p) as [[m p1]|] eqn:Hn; [|by apply (IH _ q)].
    destruct (windows_agree_receive _ _ _ _ _ _ Ha Hn) as (late' & q1 & _ & _ & Ha1).
    destruct (windows_run turns p1) as [ms1 p2] eqn:Hrun. intros [= <- <-] Hl. eapply IH; [exact Ha1|exact Hrun|].
    destruct ms1 as [|m1 ms1]; [cbn in Hl |- *; subst m; exact (loop_left_receive p q late timeout p1 Ha Hn)|].
    rewrite last_cons_cons in Hl. destruct (last (m1 :: ms1)) eqn:He; [done|by apply last_None in He].
Qed.

(** A worker that has left its loop is joined, and its scheduler is that of the
    calls without threads. *)
Lemma windows_finish_scheduler turns p q :
  windows_agree p q → loop_left p → (2 ≤ turns)%nat → windows_finish turns p = Some (Ok (prefetch_finish q)).
Proof.
  intros [Hq Ho Hw] Hl Ht. unfold windows_finish, prefetch_finish. rewrite <- Ho. destruct (pipe_open p) eqn:Hopen; [|done].
  specialize (Hw eq_refl). specialize (Hl Hopen). cbn [negb]. destruct turns as [|n]; [lia|]. rewrite Nat.iter_succ_r.
  assert (pipe_worker (try_turn WINDOW_BOUND window_round (hang_up p)) = Ended (mkWindowWorker (prefetch_scheduler q) LoopLeft)) as Hk.
  { unfold hang_up, try_turn, worker_turn. cbn [pipe_worker pipe_shared pipe_queue pipe_open].
    destruct (pipe_worker p) as [w|m w|[s loop]] eqn:Hk; [|done|].
    - subst w. unfold window_round. cbn [worker_loop] in *. by rewrite Hl.
    - destruct Hw as [Hw _]. cbn in Hw, Hl |- *. by rewrite Hw, Hl. }
  revert Hk. generalize (try_turn WINDOW_BOUND window_round (hang_up p)). intros p1 Hk.
  assert (Nat.iter n (try_turn WINDOW_BOUND window_round) p1 = p1) as ->.
  { clear Ht. induction n as [|n IH]; [done|]. rewrite Nat.iter_succ, IH. unfold try_turn, worker_turn. by rewrite Hk. }
  by rewrite Hk.
Qed.
End windows.

(** ** The encoder of retained data *)

Inductive RetainedEncodeMessage : Type :=
| MStart (index : nat)
| MChunk (chunk : bytes)
| MFinish (size : Z)
| MError (e : CursorError).

(** [sync_channel(1)]. *)
Definition ENCODER_BOUND : nat := 1.

Definition out_of_order : CursorError := CE_FileTransfer (str "ingest encoder produced an out-of-order message").
Definition unexpected_encoder_column (index expected : nat) : CursorError :=
  CE_FileTransfer (str "ingest encoder produced column " ++ fmt_int (Z.of_nat index) ++ str ", expected " ++ fmt_int (Z.of_nat expected)).
Definition column_too_early (index expected : nat) : CursorError :=
  CE_FileTransfer (str "ingest encoder started column " ++ fmt_int (Z.of_nat index) ++ str " before finishing " ++ fmt_int (Z.of_nat expected)).

Section encoder.
Context `{ArrowStream, Chrono, Half, Lz4, CursorDisplay, SqlFormat}.
Context {Sink : Type} (write_chunk : Sink → bytes → res CursorError Sink).
Context (schema : list Field) (batches : list RecordBatch).

(** One request in [encode_retained_columns]: what the encoder sends.  [partial]
    are the chunks before an error or a panic.  The result says whether it takes
    another request. *)
Definition encode_request (index : nat) (partial : list bytes) : list RetainedEncodeMessage * bool :=
  match Ingest.upload_retained_column schema batches index with
  | Ok (chunks, size) => (MStart index :: (MChunk <$> chunks) ++ [MFinish size], true)
  | Err e => (MStart index :: (MChunk <$> partial) ++ [MError e], false)
  | Panic => (MStart index :: (MChunk <$> partial), false)
  end.

(** The loop of [upload_retained_column] over what it receives: the encoded
    size, the sink, the largest chunk and the messages that are left. *)
Fixpoint upload_message_loop (expected : nat) (messages : list RetainedEncodeMessage) (sink : Sink) (largest_chunk : Z)
    : res CursorError (Z * Sink * Z * list RetainedEncodeMessage) :=
  match messages with
  | MChunk chunk :: messages =>
      sink ← write_chunk sink chunk;
      upload_message_loop expected messages sink (Z.max largest_chunk (len chunk))
  | MFinish size :: messages => Ok (size, sink, largest_chunk, messages)
  | MError e :: _ => Err e
  | MStart index :: _ => Err (column_too_early index expected)
  | [] => Err (encoder_stopped "the upload completed")
  end.

Definition upload_column_messages (expected : nat) (messages : list RetainedEncodeMessage) (sink : Sink) (largest_chunk : Z)
    : res CursorError (Z * Sink * Z * list RetainedEncodeMessage) :=
  match messages with
  | MStart index :: messages =>
      if (index =? expected)%nat then upload_message_loop expected messages sink largest_chunk
      else Err (unexpected_encoder_column index expected)
  | MError e :: _ => Err e
  | (MChunk _ | MFinish _) :: _ => Err out_of_order
  | [] => Err (encoder_stopped "the upload completed")
  end.

(** The requests of an upload, one when the column before is finished: the sizes
    of the columns. *)
Fixpoint upload_requests (requests : list (nat * list bytes)) (running : bool) (sink : Sink) (largest_chunk : Z)
    : res CursorError (list Z * Sink * Z) :=
  match requests with
  | [] => Ok ([], sink, largest_chunk)
  | (index, partial) :: requests =>
      if negb running then Err (encoder_stopped "a column was requested")
      else
        let '(messages, running) := encode_request index partial in
        '(size, sink, largest_chunk, _) ← upload_column_messages index messages sink largest_chunk;
        '(sizes, sink, largest_chunk) ← upload_requests requests running sink largest_chunk;
        Ok (size :: sizes, sink, largest_chunk)
  end.

(** *** Without messages *)

Fixpoint write_chunks (chunks : list bytes) (sink : Sink) : res CursorError Sink :=
  match chunks with
  | [] => Ok sink
  | chunk :: chunks => sink ← write_chunk sink chunk; write_chunks chunks sink
  end.

Definition largest_of (largest_chunk : Z) (chunks : list bytes) : Z :=
  foldl (λ n chunk, Z.max n (len chunk)) largest_chunk chunks.

(** The columns one after the other, as [Ingest] encodes them. *)
Fixpoint upload_columns_directly (requests : list (nat * list bytes)) (sink : Sink) (largest_chunk : Z)
    : res CursorError (list Z * Sink * Z) :=
  match requests with
  | [] => Ok ([], sink, largest_chunk)
  | (index, partial) :: requests =>
      match Ingest.upload_retained_column schema batches index with
      | Ok (chunks, size) =>
          sink ← write_chunks chunks sink;
          '(sizes, sink, largest_chunk) ← upload_columns_directly requests sink (largest_of largest_chunk chunks);
          Ok (size :: sizes, sink, largest_chunk)
      | Err e => _ ← write_chunks partial sink; Err e
      | Panic => _ ← write_chunks partial sink; Err (encoder_stopped "the upload completed")
      end
  end.

Lemma upload_message_loop_written expected chunks tail sink largest :
  upload_message_loop expected ((MChunk <$> chunks) ++ tail) sink largest =
  sink ← write_chunks chunks sink; upload_message_loop expected tail sink (largest_of largest chunks).
Proof.
  revert sink largest. induction chunks as [|chunk chunks IH]; intros sink largest; cbn [fmap list_fmap app upload_message_loop write_chunks]; [done|].
  destruct (write_chunk sink chunk); cbn [mbind res_bind]; [apply IH|done..].
Qed.

Lemma upload_requests_directly requests sink largest :
  upload_requests requests true sink largest = upload_columns_directly requests sink largest.
Proof.
  revert sink largest. induction requests as [|[index partial] requests IH]; intros sink largest; cbn [upload_requests upload_columns_directly negb]; [done|].
  unfold encode_request. destruct (Ingest.upload_retained_column schema batches index) as [[chunks size]|e|]; cbn [upload_column_messages].
  - rewrite Nat.eqb_refl, upload_message_loop_written. destruct (write_chunks chunks sink) as [sink1| |]; cbn [mbind res_bind upload_message_loop]; [|done..].
    by rewrite IH.
  - rewrite Nat.eqb_refl, upload_message_loop_written. by destruct (write_chunks partial sink).
  - rewrite Nat.eqb_refl, <- (app_nil_r (MChunk <$> partial)), upload_message_loop_written. by destruct (write_chunks partial sink).
Qed.
End encoder.
