(* ===== verification/IngestThreadsProofs.v ===== *)
(** The threads of an ingest, in every interleaving: the loop over the windows
    gets what it would get if each window were computed when it is asked for,
    and a retained column arrives as it would without the encoder's messages. *)

From stdpp Require Import base list numbers strings gmap.
From S2P Require Import Prelude RustStd Types Calendar ArrowData Encode Codec Errors SqlScan Template PreparedCache Compression Ingest Transactions Prepare PrepareProofs AtomicProofs ParameterBatch Statement ReadPath Options Connection Append IngestMemory IngestRun IngestToy Channel IngestThreads.
Local Open Scope Z_scope.

Section claims.
Context `{ArrowStream, Chrono, Half, Lz4, CursorDisplay, SqlFormat}.

(** The worker computes at most one window that was not received. *)
Lemma one_window_ahead p q : windows_agree p q → (length (ahead p) ≤ 1)%nat.
Proof. intros [Hq _ _]. unfold ahead. rewrite Hq. destruct (pipe_worker p); cbn; lia. Qed.

Lemma window_calls_length calls q ms q' : window_calls calls q = (ms, q') → length ms = length calls.
Proof.
  revert q ms. induction calls as [|[late timeout] calls IH]; intros q ms; cbn [window_calls]; [by intros [= <- <-]|].
  destruct (prefetch_next_window late timeout q) as [m q1]. destruct (window_calls calls q1) as [ms1 q2] eqn:Hc.
  intros [= <- <-]. cbn. f_equal. by eapply IH.
Qed.

(** C10. Preparing windows on a thread does not change what is ingested.  In every
    order of the turns of the worker and of the upload, the calls of
    [next_window] return what they return when each window is computed at the
    call (a call times out only where its time was over); at most one window is
    prepared besides the one being uploaded, so that two are alive as the memory
    reservation assumes; a call waits for at most two turns of the worker; after the last window the worker is joined and its counters are those of the
    sequential scheduler; and once the receiver is gone the worker ends
    within two turns, which releases the reserved memory. *)
Theorem ingest_threads_refine s turns ms p bytes :
  windows_run turns (windows_start s) = (ms, p) →
  (∃ calls q, window_calls calls (mkPrefetch s true false) = (ms, q) ∧ length calls = length ms ∧
     Forall (late_in turns) calls ∧ pipe_open p = prefetch_receiver q ∧
     (last ms = Some (Ok None) → ∀ n, (2 ≤ n)%nat → windows_finish n p = Some (Ok (prefetch_finish q)))) ∧
  (length (ahead p) ≤ 1)%nat ∧
  (pipe_open p = true → ∀ late timeout,
     is_Some (next_window_turn late timeout (try_turn WINDOW_BOUND window_round (try_turn WINDOW_BOUND window_round p)))) ∧
  reservation_held bytes (try_turn WINDOW_BOUND window_round (try_turn WINDOW_BOUND window_round (hang_up p))) = 0.
Proof.
  intros Hrun. destruct (windows_agree_run _ _ _ _ _ (windows_agree_start s) Hrun) as (calls & q & Hc & Ha & Hl).
  split; [|split; [by eapply one_window_ahead|split]].
  - exists calls, q. split; [done|]. split; [by erewrite window_calls_length|]. split; [done|]. split; [apply Ha|].
    intros Hlast n Hn. apply windows_finish_scheduler; [done| |done].
    eapply loop_left_run; [apply windows_agree_start|exact Hrun|by rewrite Hlast].
  - intros Ho late timeout. by apply next_window_soon.
  - unfold reservation_held. by rewrite closed_ends.
Qed.

(** ** The encoder's channel *)

(** A thread that sends a list. *)
Definition send_messages (shared : unit) (messages : list RetainedEncodeMessage)
    : option RetainedEncodeMessage * list RetainedEncodeMessage * unit :=
  match messages with
  | [] => (None, [], shared)
  | m :: messages => (Some m, messages, shared)
  end.

#[export] Instance send_messages_laws : WorkerLaws send_messages id (λ _, True) id.
Proof. split; intros [] w *; intros _ Hw; destruct w; simplify_eq/=; done. Qed.

(** C21. Retained data arrives as it would without the encoder's thread: for any
    requests, the loops over the messages give the sizes, the bytes in the sink
    and the largest chunk that encoding each column at its request gives, and
    the encoder's error or a failed write where that fails (its messages are
    never out of order).  In every interleaving the channel delivers the messages of a
    request in order, the encoder at most two ahead, and the upload waits for at
    most two of its turns. *)
Theorem retained_encoder_refine {Sink} (write_chunk : Sink → bytes → res CursorError Sink) schema batches requests sink largest :
  upload_requests write_chunk schema batches requests true sink largest =
    upload_columns_directly write_chunk schema batches requests sink largest ∧
  ∀ index partial turns,
    let messages := (encode_request schema batches index partial).1 in
    let '(received, p) := pipe_run ENCODER_BOUND send_messages turns (pipe_start () messages) in
    omap id received `prefix_of` messages ∧ (None ∈ received → omap id received = messages) ∧
    (length (ahead p) ≤ 2)%nat ∧
    is_Some (receive ENCODER_BOUND (try_turn ENCODER_BOUND send_messages (try_turn ENCODER_BOUND send_messages p))).
Proof.
  split; [apply upload_requests_directly|]. intros index partial turns messages.
  destruct (pipe_run ENCODER_BOUND send_messages turns (pipe_start () messages)) as [received p] eqn:Hrun.
  destruct (pipe_run_stream ENCODER_BOUND send_messages id (λ _, True) id _ _ _ _ (pipe_start_ok _ _ _ _ I) eq_refl Hrun)
    as (Hok & Ho & Hs & Hend). rewrite stream_start, list_fmap_id in Hs. unfold id in Hs at 1.
  split; [|split; [|split]].
  - by eexists.
  - intros Hnone. rewrite Hs, (Hend Hnone). by rewrite app_nil_r.
  - by eapply (ahead_bounded ENCODER_BOUND).
  - by apply receive_soon.
Qed.
End claims.

(** ** Concrete inputs *)

(** Five rows in windows of two, the worker sometimes ahead and sometimes not. *)
Definition id_scheduler : IngestWindowScheduler := scheduler_new id_stream id_schema 1048576 1048576 1048576 (Some 2) WC_None.

Definition window_turns : list WindowTurn :=
  [ReceiveTurn true None; PrepareTurn; ReceiveTurn false (Some 10); PrepareTurn; PrepareTurn; ReceiveTurn true (Some 10);
   PrepareTurn; ReceiveTurn false None; PrepareTurn; ReceiveTurn false None].

Definition message_rows (m : res Error (option EncodedIngestWindow)) : option Z :=
  match m with Ok (Some w) => Some (window_rows w) | _ => None end.

Lemma ingest_threads_refine_witness :
  message_rows <$> (windows_run window_turns (windows_start id_scheduler)).1 = [Some 2; Some 2; Some 1; None] ∧
  (∃ calls q, window_calls calls (mkPrefetch id_scheduler true false) =
     ((windows_run window_turns (windows_start id_scheduler)).1, q) ∧ length calls = 4%nat) ∧
  is_Some (next_window_turn false None (try_turn WINDOW_BOUND window_round (try_turn WINDOW_BOUND window_round (windows_start id_scheduler)))).
Proof.
  split; [by vm_compute|]. split.
  - destruct (windows_run window_turns (windows_start id_scheduler)) as [ms p] eqn:Hrun.
    destruct (ingest_threads_refine id_scheduler window_turns ms p 0 Hrun) as [(calls & q & Hc & Hl & _) _].
    exists calls, q. split; [exact Hc|]. rewrite Hl.
    assert (length (windows_run window_turns (windows_start id_scheduler)).1 = 4%nat) as Hn by (by vm_compute).
    by rewrite Hrun in Hn.
  - by apply (ingest_threads_refine id_scheduler [] [] (windows_start id_scheduler) 0 eq_refl).
Defined.
